(* ===== verification/_CoqProject ===== *)
-Q . S2P
Prelude.v
GoStd.v
Json.v
JsonProps.v
Store.v
MemStore.v
Group.v
Manifest.v
Decode.v
Track.v
Paths.v
FsStore.v
FsProps.v
Remote.v
DbStore.v
DbProps.v
Sha256.v
Dates.v
Sign.v
SignProps.v
BucketStore.v
BucketProps.v
Conformance.v
Open.v
OpenProps.v
Writer.v
Redact.v
Reader.v
Inspect.v
EpochLog.v
WriterLog.v
Isolation.v
Payload.v
ReaderLog.v
TailLog.v
Fixtures.v
WriterProps.v
ReaderProps.v
ReaderSeek.v
ReaderTime.v
RedactProps.v
Ends.v
TrackProps.v
InspectProps.v
Interfere.v
Fencing.v
Versions.v
Lives.v
Tail.v
Runs.v
Float64.v
Limit.v
Ingest.v
IngestPaths.v
IngestPosts.v
IngestRedact.v
IngestConc.v
FsRuns.v
RemoteRuns.v
Findings.v
IngestRuns.v
