(* ===== verification/Prelude.v ===== *)
(** * qumo-ledger: a verification development

    qumo-ledger stores media tracks as groups in an object store. A track is a
    root manifest and a sequence of epochs; an epoch is a log root, sealed runs
    and open deltas; a delta names the groups one append committed. Creating a
    delta, an object written once, is the commit.

    ** The program's parts and the files that model them

    - GoStd.v, Json.v: what the source uses of Go's standard library: decimal
      text ([fmt] with a zero-padded width, [strconv.ParseUint]), the functions
      of [strings] and [path], UTF-8, and [encoding/json] for the shapes the
      manifests have, printing and parsing, as executable functions. Dates.v: the
      civil date of an instant and its text forms, checked against the calendar.
    - Store.v: ledger/store/store.go. [op] has a constructor per method of the
      interface [Store] and one for the clock; [prog] is a program over them;
      [op_spec] is the documented contract of the methods, with [faulty := true]
      also calls that fail before or after taking effect. [wp] interprets a
      [prog] against such a contract, [run] executes it on a backend with a list
      of injected faults, [run_wp] connects the two; [wlp] is partial correctness,
      [writes] and [alters] bound the keys a program touches. [Store] and
      [StoreLaws] are the interface between the ledger and a backend.
    - MemStore.v: ledger/store/mem/mem.go, every method; it keeps the contract.
    - Paths.v, FsStore.v, FsProps.v: ledger/store/fs/fs.go. Every method as its
      sequence of system calls on a disk, each of which may fail or be torn; what
      each sequence does to the objects the disk holds.
    - Remote.v: programs over the calls of a server, their runs while other clients
      change what the server holds, and at which call of a run they take effect.
      DbStore.v, DbProps.v: ledger/store/db/db.go over a database with laws.
      Sha256.v, Sign.v, SignProps.v: ledger/store/bucket/sign.go, with the hash
      computed. BucketStore.v, BucketProps.v: ledger/store/bucket/bucket.go over an
      object-store service with laws.
    - Open.v, OpenProps.v: the registry of schemes (ledger/store/open.go,
      ledger/backends.go) and the open.go of every backend.
    - Conformance.v: ledger/store/storetest/storetest.go, the suite every backend
      runs, each subtest a program over a backend.
    - Group.v: ledger/group.go. Identities, rows, validation, media and wallclock
      extents, at the widths of the Go types.
    - Manifest.v: ledger/manifest.go. The key layout, the manifest types with
      their JSON forms (class [Manifest]), [encodeManifest], [decodeManifest] and
      [summarize]. JsonProps.v, Decode.v: what the parser answers for any bytes, and
      what a manifest read from any bytes can hold (class [Typed]).
    - Track.v: ledger/track.go: path and schema validation, [Create], [Open],
      [Reload], [createEpochLog], [advanceTrackRootLocked].
    - Writer.v: ledger/writer.go and [Track.Writer]: recovery, [AppendGroup],
      [Append], sealing, head publication, [NewEpoch].
    - Redact.v: ledger/redact.go. Reader.v: ledger/reader.go and
      ledger/before.go: [Lookup], the ranges, the streaming cursor, the seeks and
      paging backwards.
    - Inspect.v: examples/inspect-follow/main.go, every command as a program that
      answers the lines it prints and how it ends, and internal/version/version.go.
    - Float64.v, Limit.v: ingest/limit.go, token buckets over binary64 numbers.
      Ingest.v: ingest/handler.go, every handler of the HTTP ingest as a program
      over the store that takes the handler's fields; its tracks are shared
      objects, its hooks events.

    A handle (a [Track], a [Writer], a [Reader]) is a record; a method takes it
    and answers it changed, in [prog]. Its mutex makes each method one step of
    the handle, so two calls on one handle do not interleave. Other processes
    are other records over the same objects. An error is the list of the
    sentinels [errors.Is] finds in it.

    ** What the objects mean

    - EpochLog.v: [durable p e m root gs] says that in the objects [m] epoch [e]
      of the track [p] has the log root [root], that its sealed runs and open
      deltas hold exactly the rows [gs], back to back in media time, and that
      each row has its payload stored or is marked redacted. It is the specification
      of the log: an append is [gs ++ [row]], a seal is [gs] again with another
      [root], a redaction changes neither.
    - WriterLog.v: what a writer believes ([writer_ok], [current]) and the effect
      of every method of it on [durable]. Isolation.v: the keys a writer
      touches are those of its own epoch. Payload.v: a row reported has its
      payload stored, and group objects stay as written. ReaderLog.v: [track_view]
      for all the epochs of a track, [cursor] for a reader's position in it, and
      what [Lookup], the ranges and [Next] answer. TailLog.v: how far a log has come
      between two looks at it, and the poll loop of examples/inspect-follow.

    ** The properties

    - WriterProps.v: crash safety of [AppendGroup], [Append] and of sequences of
      processes under any failing calls; success of both when none fails, orphan
      group objects stepped past; recovery finds exactly the committed log;
      sealing keeps it; group objects are never overwritten.
    - ReaderProps.v: streaming, [Lookup] and the ranges answer exactly the
      committed groups; what producers were told is committed reaches readers.
      Runs.v: the same of every execution on any backend with [StoreLaws].
      ReaderSeek.v: [SeekAfter] and [Before]. ReaderTime.v: [SeekMedia] and
      [SeekWallclock], one search over two clocks. RedactProps.v: what [Redact]
      takes and leaves, and what [ReadGroup] answers after it.
    - TrackProps.v: [Create], [NewEpoch] and the completion of a half-made track
      keep the track well formed under any failing calls; the whole life of a
      track, over all its processes and epochs.
    - Lives.v: the life of a track with redactions among its processes: what is kept,
      what is gone, and that a reader can tell which.
    - Tail.v: producers and a polling reader in every interleaving of their calls;
      nothing is stepped over, and a reader left alone catches up. Versions.v: what
      the ledger creates, overwrites and deletes, and for which versions.
    - DbProps.v, BucketProps.v: every method of the two server backends takes effect
      at one of its calls, whatever other clients do between them. RemoteRuns.v:
      the life of a track over either.
    - Conformance.v: the contract as exact as the suite asks for it; every backend that
      keeps it passes, the in-memory one among them, the others are run, and defects
      the suite catches. FsProps.v and the server backends keep only [op_spec], for
      their versions are made from contents or by the server.
    - Interfere.v: threads that share a store, each call a step, and what one of them
      may rely on of the others; a thread safe under that is safe in every run.
      Fencing.v: the writers of one epoch at the same time, until one begins to seal.
    - InspectProps.v: the example reader lists a whole track, resumes where a run
      stopped, and starts at the tip without missing what comes after.
    - Ends.v: that opening a writer and every query of a reader end on any store,
      whatever it holds.
    - SignProps.v: what a signature covers. OpenProps.v: the order of registrations
      and the parameters of a connection URI.
    - MemStore.v, Manifest.v, Group.v, Paths.v and Limit.v end with the properties
      of their parts. FsRuns.v: the filesystem backend keeps the contract where
      keys can be files, but for a torn Create, and producers over it keep what
      they acknowledged.
    - IngestPaths.v: the paths of requests. IngestPosts.v: how a post ends, what a
      sequence of posts delivers and acknowledges, retries. IngestRedact.v: how a
      redaction ends. IngestConc.v: requests
      at the same time as a step relation, an invariant by induction over its
      steps, and that every handler is made of them.
    - Findings.v, IngestRuns.v: runs in which the code departs from what it says.

    Fixtures.v is the concrete track the theorems are instantiated at.

    ** Bounds

    [fuel] stands for the iterations of the loops the source does not bound: the
    probes for the next delta, the reclaiming of sealed deltas, and [Next]'s
    loop. A [prog] out of fuel satisfies no postcondition, so every theorem also
    says that the fuel it asks for is enough: one more than the committed groups
    for a probe, two more than the epochs ahead for [Next]. [enough_polls] bounds the
    polls of a reader that catches up: twenty per group ahead and eighteen more,
    for the root is looked at again every sixteen. Sizes of a log
    are kept below 2^62, far under where the 64-bit counters wrap.

    ** Not modelled

    Log output, error and response texts; routing by net/http; the parsing of URLs
    and of durations (parameters of Open.v and Inspect.v); the build targets of
    magefiles/. The database, the object-store service and their clients' other calls
    are parameters with laws. Of writers whose calls interleave nothing is stated past
    the first seal (the run [second_writer_acknowledged_but_lost] of Findings.v shows
    what it does to the others); the tailing theorem leaves out a [Refresh] that fails
    half-way, for which [refresh_failure_loses_groups] shows groups lost; the theorems
    of redaction are of paths without a segment "groups", for which the code refuses
    it ([redact_refused_under_groups]). The filesystem is that of a host whose
    separator is a slash; the conversion of an out-of-range float to an integer is
    that of amd64; encoding/json's limit on nesting is left out. *)

From Stdlib Require Export ZArith NArith Lia Ascii.
From stdpp Require Export base option list strings gmap.

(** ** Notations and tactics *)

#[export] Set Warnings "-clear-no-such-hyp".

Declare Scope ledger_scope.
Delimit Scope ledger_scope with ledger.

(** Go's [[]byte] and [string] are both byte strings. *)
Abbreviation bytes := string (only parsing).

(** [done]-style closing of arithmetic side conditions over [N], [Z], [nat]. *)
Ltac arith := first [lia | nia].

(** Case analysis on the first [match]/[if] of the goal or a hypothesis, keeping
    the equation, followed by the obvious simplifications. *)
Ltac split_match :=
  match goal with
  | |- context [match ?x with _ => _ end] => destruct x eqn:?
  | H : context [match ?x with _ => _ end] |- _ => destruct x eqn:?
  end; simplify_eq/=.

(** Turn boolean tests of the code into propositions. *)
Ltac bool_to_prop :=
  repeat match goal with
  | H : (_ && _) = true |- _ => apply andb_prop in H; destruct H
  | H : (_ || _) = false |- _ => apply orb_false_iff in H; destruct H
  | H : negb _ = true |- _ => apply negb_true_iff in H
  | H : negb _ = false |- _ => apply negb_false_iff in H
  | H : (_ <? _)%Z = true |- _ => apply Z.ltb_lt in H
  | H : (_ <? _)%Z = false |- _ => apply Z.ltb_ge in H
  | H : (_ <=? _)%Z = true |- _ => apply Z.leb_le in H
  | H : (_ <=? _)%Z = false |- _ => apply Z.leb_gt in H
  | H : (_ =? _)%Z = true |- _ => apply Z.eqb_eq in H
  | H : (_ =? _)%Z = false |- _ => apply Z.eqb_neq in H
  | H : (_ <? _)%N = true |- _ => apply N.ltb_lt in H
  | H : (_ <? _)%N = false |- _ => apply N.ltb_ge in H
  | H : (_ <=? _)%N = true |- _ => apply N.leb_le in H
  | H : (_ <=? _)%N = false |- _ => apply N.leb_gt in H
  | H : (_ =? _)%N = true |- _ => apply N.eqb_eq in H
  | H : (_ =? _)%N = false |- _ => apply N.eqb_neq in H
  | H : String.eqb _ _ = true |- _ => apply String.eqb_eq in H
  | H : String.eqb _ _ = false |- _ => apply String.eqb_neq in H
  | H : bool_decide _ = true |- _ => apply bool_decide_eq_true in H
  | H : bool_decide _ = false |- _ => apply bool_decide_eq_false in H
  end.

(** The lemmas that discharge range side conditions ([ledger_range]) and those
    that tell object keys apart ([ledger_keys]). *)
Create HintDb ledger_range.
Create HintDb ledger_keys.

(** ** Machine integers

    A Go [uint64] is an [N] and an [int64] (or [int]) a [Z]; arithmetic that can
    wrap is written with [u64] and [i64]. *)

Definition two64 : N := 18446744073709551616.
Definition MaxInt64 : Z := 9223372036854775807.
Definition MinInt64 : Z := -9223372036854775808.

Definition u64 (n : N) : N := (n mod two64)%N.
Definition u64_sub (a b : N) : N := u64 (a + (two64 - u64 b))%N.
Definition i64 (z : Z) : Z :=
  ((z + 9223372036854775808) mod 18446744073709551616 - 9223372036854775808)%Z.

Definition is_u64 (n : N) : Prop := (n < two64)%N.
Definition is_i64 (z : Z) : Prop := (MinInt64 <= z <= MaxInt64)%Z.

#[export] Instance is_u64_dec n : Decision (is_u64 n) := decide (n < two64)%N.
#[export] Instance is_i64_dec z : Decision (is_i64 z) := decide (MinInt64 <= z <= MaxInt64)%Z.

Lemma u64_small n : is_u64 n → u64 n = n.
Proof. apply N.mod_small. Qed.

Lemma u64_is_u64 n : is_u64 (u64 n).
Proof. by apply N.mod_lt. Qed.

Lemma u64_sub_small a b : is_u64 a → (b <= a)%N → u64_sub a b = (a - b)%N.
Proof.
  unfold is_u64, u64_sub. intros Ha Hb.
  rewrite (u64_small b) by (unfold is_u64; lia).
  unfold u64. replace (a + (two64 - b))%N with ((a - b) + 1 * two64)%N by lia.
  rewrite N.Div0.mod_add. apply N.mod_small. lia.
Qed.

Lemma i64_small z : is_i64 z → i64 z = z.
Proof.
  unfold is_i64, i64, MinInt64, MaxInt64. intros H. rewrite Z.mod_small; lia.
Qed.

Lemma i64_is_i64 z : is_i64 (i64 z).
Proof.
  unfold is_i64, i64, MinInt64, MaxInt64.
  pose proof (Z.mod_pos_bound (z + 9223372036854775808) 18446744073709551616).
  lia.
Qed.

#[export] Hint Resolve u64_is_u64 i64_is_i64 : ledger_range.

(** ** Errors

    The code matches errors only with [errors.Is], so an error is the list of
    sentinels its chain wraps, outermost first; message texts are left out. A
    fallible Go call [(T, error)] that returns a zero [T] with its error is a
    [result T]. *)

Inductive sentinel : Type :=
  (* ledger/store/store.go *)
  | ErrNotExist | ErrExist | ErrVersionMismatch
  (* ledger/errors.go *)
  | ErrTrackExists | ErrTrackNotFound | ErrGroupExists | ErrInvalidTrackPath
  | ErrInvalidGroup | ErrGroupOutOfOrder | ErrUnsupportedVersion
  | ErrManifestMismatch | ErrGroupNotFound | ErrGroupRedacted
  | ErrEpochNotFound | ErrEpochOutOfOrder | ErrNotCommitted
  (* ledger/store/fs/fs.go: ErrInvalidKey *)
  | ErrInvalidKey
  (* ingest/handler.go: ErrUnauthenticated *)
  | ErrUnauthenticated
  (* io.EOF and context.Canceled *)
  | EOF | Canceled.

#[export] Instance sentinel_eq_dec : EqDecision sentinel.
Proof. solve_decision. Defined.

Abbreviation error := (list sentinel) (only parsing).

(** [errors.Is e s]. *)
Definition errors_Is (e : error) (s : sentinel) : bool := bool_decide (s ∈ e).

Inductive result (A : Type) : Type :=
  | Ok (a : A)
  | Err (e : error).
Arguments Ok {A} a.
Arguments Err {A} e.

#[export] Instance result_eq_dec `{EqDecision A} : EqDecision (result A).
Proof. solve_decision. Defined.

Definition is_ok {A} (r : result A) : bool :=
  match r with Ok _ => true | Err _ => false end.

(** ** Lists *)

Lemma last_app_one {A} (l : list A) (x : A) : last (l ++ [x]) = Some x.
Proof. apply last_snoc. Qed.

Lemma concat_app_one {A} (l : list (list A)) (x : list A) :
  concat (l ++ [x]) = concat l ++ x.
Proof. rewrite concat_app. simpl. by rewrite app_nil_r. Qed.

Lemma list_exists_last_or {A} (l : list A) : l = [] ∨ ∃ l' x, l = l' ++ [x].
Proof. destruct l as [|x l _] using rev_ind; eauto. Qed.

(** ** Strings *)

#[global] Arguments String.append !_ _ / : simpl nomatch.

Lemma string_app_nil_r (s : string) : s +:+ "" = s.
Proof. induction s as [|c s IH]; simpl; [done|by rewrite IH]. Qed.

Lemma string_app_assoc (s t u : string) : s +:+ (t +:+ u) = (s +:+ t) +:+ u.
Proof. induction s as [|c s IH]; simpl; [done|by rewrite IH]. Qed.

Lemma string_app_cons (s t : string) c : s +:+ String c t = (s +:+ String c "") +:+ t.
Proof. by rewrite <-string_app_assoc. Qed.

Lemma string_app_inj_l (s t u : string) : s +:+ t = s +:+ u → t = u.
Proof. induction s as [|c s IH]; simpl; intros H; [done|]. simplify_eq. auto. Qed.

Lemma string_length_app (s t : string) :
  String.length (s +:+ t) = String.length s + String.length t.
Proof. induction s as [|c s IH]; simpl; [done|by rewrite IH]. Qed.

Lemma string_app_inj_r (s t u : string) : s +:+ u = t +:+ u → s = t.
Proof.
  revert t. induction s as [|c s IH]; intros [|d t] H; simpl in *; simplify_eq; auto.
  - apply (f_equal String.length) in H. simpl in H. rewrite string_length_app in H. lia.
  - apply (f_equal String.length) in H. simpl in H. rewrite string_length_app in H. lia.
  - f_equal. auto.
Qed.
