(* ===== verification/GoStd.v ===== *)
(** * The parts of Go's standard library the ledger is written against

    [strconv] (decimal formatting and parsing of unsigned and signed integers,
    with the zero padding of [fmt]'s [%0wd]), [strings] (prefix, suffix, cut),
    [path.Clean], and the UTF-8 validity test [encoding/json] applies to
    strings. Strings are byte strings, as in Go. *)

From S2P Require Import Prelude.
#[local] Open Scope string_scope.

(** ** Bytes *)

Definition byte_of (c : ascii) : N := N_of_ascii c.

Definition is_digit (c : ascii) : bool :=
  ((48 <=? byte_of c) && (byte_of c <=? 57))%N.

Definition digit_char (d : N) : ascii := ascii_of_N (48 + d).

Definition digit_val (c : ascii) : N := (byte_of c - 48)%N.

Fixpoint all_chars (p : ascii → bool) (s : string) : bool :=
  match s with
  | EmptyString => true
  | String c s' => p c && all_chars p s'
  end.

Fixpoint repeat_char (c : ascii) (n : nat) : string :=
  match n with O => EmptyString | S n' => String c (repeat_char c n') end.

(** ** strconv *)

(** [strconv.FormatUint(n, 10)]: digits are produced from the least significant
    one, each put in front of those already there. A number of [k] bits has at
    most [k] digits, so the fuel is never exhausted. *)
Fixpoint format_digits (fuel : nat) (n : N) (acc : string) : string :=
  match fuel with
  | O => acc
  | S fuel' =>
      let acc' := String (digit_char (n mod 10)) acc in
      if (n <? 10)%N then acc' else format_digits fuel' (n / 10) acc'
  end.

Definition FormatUint (n : N) : string := format_digits (S (N.to_nat (N.size n))) n "".

(** [strconv.FormatInt(z, 10)]. *)
Definition FormatInt (z : Z) : string :=
  if (z <? 0)%Z then String "-" (FormatUint (Z.to_N (- z))) else FormatUint (Z.to_N z).

(** [fmt.Sprintf("%0<w>d", n)] for an unsigned [n]. *)
Definition pad (w : nat) (n : N) : string :=
  let s := FormatUint n in repeat_char "0" (w - String.length s) +:+ s.

(** The digit loop of [strconv.ParseUint(s, 10, 64)]: [None] on a byte that is
    not a digit or on a value past 64 bits. *)
Fixpoint parse_digits (acc : N) (s : string) : option N :=
  match s with
  | EmptyString => Some acc
  | String c s' =>
      if is_digit c then
        let acc' := (10 * acc + digit_val c)%N in
        if (acc' <? two64)%N then parse_digits acc' s' else None
      else None
  end.

(** [strconv.ParseUint(s, 10, 64)]; the empty string is a syntax error. *)
Definition ParseUint (s : string) : option N :=
  if String.eqb s "" then None else parse_digits 0 s.

(** [strconv.ParseInt(s, 10, 64)]: an optional sign, then a magnitude whose
    range depends on the sign. *)
Definition ParseInt (s : string) : option Z :=
  let '(neg, digits) :=
    match s with
    | String "-" s' => (true, s')
    | String "+" s' => (false, s')
    | _ => (false, s)
    end in
  match ParseUint digits with
  | None => None
  | Some n =>
      if neg then if (Z.of_N n <=? 9223372036854775808)%Z then Some (- Z.of_N n)%Z else None
      else if (Z.of_N n <=? MaxInt64)%Z then Some (Z.of_N n) else None
  end.

(** ** strings *)

(** [strings.CutPrefix(s, pre)]. *)
Fixpoint CutPrefix (s pre : string) {struct pre} : option string :=
  match pre, s with
  | EmptyString, _ => Some s
  | String c pre', String d s' => if Ascii.eqb c d then CutPrefix s' pre' else None
  | String _ _, EmptyString => None
  end.

Definition HasPrefix (s pre : string) : bool := bool_decide (is_Some (CutPrefix s pre)).

(** [strings.HasSuffix(s, suf)]. *)
Fixpoint HasSuffix (s suf : string) : bool :=
  String.eqb s suf ||
  match s with EmptyString => false | String _ s' => HasSuffix s' suf end.

(** [strings.ContainsRune(s, c)] for an ASCII rune. *)
Fixpoint ContainsChar (s : string) (c : ascii) : bool :=
  match s with
  | EmptyString => false
  | String d s' => Ascii.eqb c d || ContainsChar s' c
  end.

(** [strings.Cut(s, sep)]: around the first occurrence of [sep]. *)
Fixpoint Cut (s sep : string) : option (string * string) :=
  match CutPrefix s sep with
  | Some rest => Some (EmptyString, rest)
  | None =>
      match s with
      | EmptyString => None
      | String c s' =>
          match Cut s' sep with
          | Some (before, after) => Some (String c before, after)
          | None => None
          end
      end
  end.

(** ** path.Clean *)

(** The segments between slashes, [strings.Split(s, "/")]. *)
Fixpoint segments (s : string) : list string :=
  match s with
  | EmptyString => [EmptyString]
  | String c s' =>
      if Ascii.eqb c "/" then EmptyString :: segments s'
      else match segments s' with
           | [] => [String c EmptyString]
           | seg :: rest => String c seg :: rest
           end
  end.

Fixpoint join (segs : list string) : string :=
  match segs with
  | [] => EmptyString
  | [seg] => seg
  | seg :: rest => seg +:+ String "/" (join rest)
  end.

(** One segment of [path.Clean]: empty and [.] segments vanish, [..] removes the
    segment before it, and is dropped at the start of a rooted path and kept at
    the start of a relative one. The stack holds the kept segments, last first. *)
Definition clean_step (rooted : bool) (stack : list string) (seg : string) : list string :=
  if String.eqb seg "" || String.eqb seg "." then stack
  else if String.eqb seg ".." then
    match stack with
    | [] => if rooted then [] else [".."]
    | top :: below => if String.eqb top ".." then ".." :: stack else below
    end
  else seg :: stack.

Definition Clean (s : string) : string :=
  let rooted := HasPrefix s "/" in
  let body := join (rev (foldl (clean_step rooted) [] (segments s))) in
  if rooted then String "/" body
  else if String.eqb body "" then "." else body.

(** The path up to and including its last slash, [path.Split]'s directory. *)
Fixpoint split_dir (s : string) : string :=
  match s with
  | EmptyString => EmptyString
  | String c s' => if ContainsChar s "/" then String c (split_dir s') else EmptyString
  end.

(** [path.Dir], and [filepath.Dir] where the separator is the slash. *)
Definition Dir (s : string) : string := Clean (split_dir s).

(** [path.Join] of a directory and a name that is not empty. *)
Definition Join (dir name : string) : string := Clean (dir +:+ "/" +:+ name).

(** [filepath.IsLocal] on a Unix host. *)
Definition IsLocal (s : string) : bool :=
  if HasPrefix s "/" || String.eqb s "" then false
  else
    let has_dots := existsb (λ seg, String.eqb seg "." || String.eqb seg "..") (segments s) in
    let s := if has_dots then Clean s else s in
    negb (String.eqb s ".." || HasPrefix s "../").

(** ** hash/fnv *)

(** The 64-bit FNV-1a hash, [fnv.New64a]. *)
Fixpoint fnv64a (h : N) (s : string) : N :=
  match s with
  | EmptyString => h
  | String c s' => fnv64a (u64 (N.lxor h (byte_of c) * 1099511628211)) s'
  end.

Definition fnv_offset : N := 14695981039346656037.

(** [strconv.FormatUint(n, 16)], built as [format_digits]. *)
Definition hex_char (d : N) : ascii :=
  if (d <? 10)%N then ascii_of_N (48 + d) else ascii_of_N (87 + d).

Fixpoint format_hex (fuel : nat) (n : N) (acc : string) : string :=
  match fuel with
  | O => acc
  | S fuel' =>
      let acc' := String (hex_char (n mod 16)) acc in
      if (n <? 16)%N then acc' else format_hex fuel' (n / 16) acc'
  end.

Definition FormatHex (n : N) : string := format_hex (S (N.to_nat (N.size n))) n "".

(** ** unicode/utf8 *)

Definition in_range (lo hi : N) (c : ascii) : bool :=
  ((lo <=? byte_of c) && (byte_of c <=? hi))%N.

(** The length of the well-formed UTF-8 sequence at the front of a string, as
    [utf8.DecodeRune] accepts it, or [None] for an invalid one. *)
Definition rune_len (s : string) : option nat :=
  match s with
  | EmptyString => None
  | String a s1 =>
      if (byte_of a <? 128)%N then Some 1
      else match s1 with
      | EmptyString => None
      | String b s2 =>
          if in_range 194 223 a then
            if in_range 128 191 b then Some 2 else None
          else match s2 with
          | EmptyString => None
          | String c s3 =>
              if in_range 224 239 a then
                let lo := if (byte_of a =? 224)%N then 160%N else 128%N in
                let hi := if (byte_of a =? 237)%N then 159%N else 191%N in
                if in_range lo hi b && in_range 128 191 c then Some 3 else None
              else match s3 with
              | EmptyString => None
              | String d _ =>
                  if in_range 240 244 a then
                    let lo := if (byte_of a =? 240)%N then 144%N else 128%N in
                    let hi := if (byte_of a =? 244)%N then 143%N else 191%N in
                    if in_range lo hi b && in_range 128 191 c && in_range 128 191 d
                    then Some 4 else None
                  else None
              end
          end
      end
  end.

(** Split off the first [n] bytes. *)
Fixpoint split_at (n : nat) (s : string) : string * string :=
  match n, s with
  | S n', String c s' => let '(a, b) := split_at n' s' in (String c a, b)
  | _, _ => (EmptyString, s)
  end.

(** [utf8.ValidString]. *)
Fixpoint valid_utf8_from (fuel : nat) (s : string) : bool :=
  match fuel, s with
  | _, EmptyString => true
  | O, _ => false
  | S fuel', _ =>
      match rune_len s with
      | None => false
      | Some n => valid_utf8_from fuel' (split_at n s).2
      end
  end.

Definition valid_utf8 (s : string) : bool := valid_utf8_from (String.length s) s.

(** ** Lemmas: decimal text *)

Lemma digit_char_is_digit d : (d < 10)%N → is_digit (digit_char d) = true.
Proof.
  intros Hd. unfold is_digit, byte_of, digit_char.
  rewrite N_ascii_embedding by lia.
  apply andb_true_intro. split; apply N.leb_le; lia.
Qed.

Lemma digit_val_char d : (d < 10)%N → digit_val (digit_char d) = d.
Proof.
  intros Hd. unfold digit_val, byte_of, digit_char.
  rewrite N_ascii_embedding by lia. lia.
Qed.

Lemma format_digits_app fuel n acc :
  format_digits fuel n acc = format_digits fuel n "" +:+ acc.
Proof.
  revert n acc. induction fuel as [|fuel IH]; intros n acc; [done|]. simpl.
  destruct (n <? 10)%N; [done|].
  rewrite IH, (IH _ (String _ "")). by rewrite <-string_app_assoc.
Qed.

Lemma parse_digits_app a s t :
  parse_digits a (s +:+ t) = parse_digits a s ≫= λ b, parse_digits b t.
Proof.
  revert a. induction s as [|c s IH]; intros a; simpl; [done|].
  destruct (is_digit c); [|done]. destruct (_ <? two64)%N; [apply IH|done].
Qed.

Lemma parse_format_digits fuel n :
  (n < 2 ^ N.of_nat fuel)%N → is_u64 n → parse_digits 0 (format_digits (S fuel) n "") = Some n.
Proof.
  revert n. induction fuel as [|fuel IH]; intros n Hn Hu.
  - assert (n = 0)%N as -> by (simpl in Hn; lia). done.
  - rewrite Nat2N.inj_succ, N.pow_succ_r' in Hn.
    cbn [format_digits]. destruct (N.ltb_spec n 10) as [Hlt|Hge].
    + cbn [parse_digits]. rewrite digit_char_is_digit, digit_val_char by (apply N.mod_lt; lia).
      rewrite N.mod_small, N.mul_0_r, N.add_0_l by done.
      by rewrite (proj2 (N.ltb_lt n two64) Hu).
    + rewrite <-(string_app_nil_r (String _ "")).
      change (if (n / 10 <? 10)%N then _ else _)
        with (format_digits (S fuel) (n / 10) (String (digit_char (n mod 10)) "")).
      unfold is_u64 in *.
      rewrite format_digits_app, parse_digits_app, IH by
        (try (apply N.Div0.div_lt_upper_bound; lia); apply N.Div0.div_lt_upper_bound; lia).
      cbn [mbind option_bind parse_digits].
      rewrite digit_char_is_digit, digit_val_char by (apply N.mod_lt; lia).
      rewrite <-(N.div_mod' n 10). by rewrite (proj2 (N.ltb_lt n two64) Hu).
Qed.

Lemma FormatUint_parse n : is_u64 n → parse_digits 0 (FormatUint n) = Some n.
Proof.
  intros Hu. apply parse_format_digits; [|done]. rewrite N2Nat.id. apply N.size_gt.
Qed.

Lemma parse_digits_zeros a k s :
  a = 0%N → parse_digits a (repeat_char "0" k +:+ s) = parse_digits 0 s.
Proof. intros ->. by induction k as [|k IH]. Qed.

Lemma pad_parse w n : is_u64 n → parse_digits 0 (pad w n) = Some n.
Proof. intros Hu. unfold pad. rewrite parse_digits_zeros by done. by apply FormatUint_parse. Qed.

Lemma all_chars_app p s t : all_chars p (s +:+ t) = all_chars p s && all_chars p t.
Proof. induction s as [|c s IH]; simpl; [done|]. rewrite IH. apply andb_assoc. Qed.

Lemma format_digits_all fuel n acc :
  all_chars is_digit acc = true → all_chars is_digit (format_digits fuel n acc) = true.
Proof.
  revert n acc. induction fuel as [|fuel IH]; intros n acc Hacc; [done|]. simpl.
  assert (all_chars is_digit (String (digit_char (n mod 10)) acc) = true).
  { simpl. rewrite digit_char_is_digit by (apply N.mod_lt; lia). done. }
  destruct (n <? 10)%N; auto.
Qed.

Lemma pad_all_digits w n : all_chars is_digit (pad w n) = true.
Proof.
  unfold pad. rewrite all_chars_app. apply andb_true_intro. split.
  - by induction (w - _) as [|k IH].
  - by apply format_digits_all.
Qed.

Lemma format_digits_nonempty fuel n acc : format_digits (S fuel) n acc ≠ "".
Proof.
  revert n acc. induction fuel as [|fuel IH]; intros n acc; simpl.
  { by destruct (n <? 10)%N. }
  destruct (n <? 10)%N; [done|]. apply IH.
Qed.

Lemma pad_nonempty w n : pad w n ≠ "".
Proof.
  unfold pad. intros H. apply (f_equal String.length) in H.
  rewrite string_length_app in H. pose proof (format_digits_nonempty (N.to_nat (N.size n)) n "") as Hne.
  unfold FormatUint in H. destruct (format_digits _ n ""); simpl in *; [done|lia].
Qed.

Lemma format_hex_nonempty fuel n acc : format_hex (S fuel) n acc ≠ "".
Proof.
  revert n acc. induction fuel as [|fuel IH]; intros n acc; simpl.
  { by destruct (n <? 16)%N. }
  destruct (n <? 16)%N; [done|]. apply IH.
Qed.

Lemma ParseUint_pad w n : is_u64 n → ParseUint (pad w n) = Some n.
Proof.
  intros Hu. unfold ParseUint. rewrite (proj2 (String.eqb_neq _ _) (pad_nonempty w n)).
  by apply pad_parse.
Qed.

Lemma pad_inj w n m : is_u64 n → is_u64 m → pad w n = pad w m → n = m.
Proof.
  intros Hn Hm Heq. apply (f_equal (parse_digits 0)) in Heq.
  rewrite !pad_parse in Heq by done. by simplify_eq.
Qed.

(** Two strings that agree up to a delimiter absent from their heads split the
    same way. *)
Lemma split_at_delim (p : ascii → bool) s1 s2 c1 c2 t1 t2 :
  all_chars p s1 = true → all_chars p s2 = true → p c1 = false → p c2 = false →
  s1 +:+ String c1 t1 = s2 +:+ String c2 t2 → s1 = s2 ∧ c1 = c2 ∧ t1 = t2.
Proof.
  revert s2. induction s1 as [|a s1 IH]; intros [|b s2] H1 H2 Hc1 Hc2 Heq;
    simpl in *; simplify_eq; [done|bool_to_prop; congruence..|].
  bool_to_prop. edestruct (IH s2) as (->&->&->); eauto.
Qed.

(** Two strings that end, behind a delimiter, in parts without it. *)
Lemma split_at_last_delim c s1 s2 k1 k2 :
  ContainsChar k1 c = false → ContainsChar k2 c = false →
  s1 +:+ String c k1 = s2 +:+ String c k2 → s1 = s2 ∧ k1 = k2.
Proof.
  assert (∀ k s k', ContainsChar k c = false → k ≠ s +:+ String c k') as Hno.
  { intros k s k'. revert k. induction s as [|d s IH]; intros [|a k] Hk; simpl in *; try done.
    - intros [= <- _]. by rewrite Ascii.eqb_refl in Hk.
    - apply orb_false_iff in Hk as [_ Hk]. intros [= _ H]. by apply (IH k). }
  intros H1 H2. revert s2. induction s1 as [|d s1 IH]; intros [|b s2] Heq; cbn in Heq; injection Heq.
  - done.
  - intros H _. by apply Hno in H.
  - intros H _. symmetry in H. by apply Hno in H.
  - intros H ->. by destruct (IH s2 H) as [-> ->].
Qed.

Lemma all_chars_contains p s c : all_chars p s = true → p c = false → ContainsChar s c = false.
Proof.
  induction s as [|d s IH]; simpl; [done|]. intros [Hd Hs]%andb_prop Hc. rewrite (IH Hs Hc), orb_false_r.
  apply Ascii.eqb_neq. intros ->. congruence.
Qed.

(** Texts joined by a delimiter none of them holds. *)
Lemma concat_delim_inj p c l1 l2 :
  p c = false → Forall (λ s, all_chars p s = true ∧ s ≠ "") l1 → Forall (λ s, all_chars p s = true ∧ s ≠ "") l2 →
  String.concat (String c "") l1 = String.concat (String c "") l2 → l1 = l2.
Proof.
  intros Hc. revert l2. induction l1 as [|x l1 IH]; intros [|y l2] H1 H2 Heq.
  - done.
  - apply Forall_cons in H2 as [[_ Hy] _]. destruct y; [done|]. by destruct l2.
  - apply Forall_cons in H1 as [[_ Hx] _]. destruct x; [done|]. by destruct l1.
  - apply Forall_cons in H1 as [[Hx _] H1], H2 as [[Hy _] H2].
    assert (∀ z u rest, all_chars p z = true → z ≠ u +:+ String c rest) as Hno.
    { intros z u rest Hz ->. rewrite all_chars_app in Hz. simpl in Hz. by rewrite Hc, andb_false_r in Hz. }
    destruct l1 as [|x' l1], l2 as [|y' l2]; cbn [String.concat] in Heq.
    + by subst.
    + by apply Hno in Heq.
    + symmetry in Heq. by apply Hno in Heq.
    + apply (split_at_delim p) in Heq as (-> & _ & Heq); try done. f_equal. by apply IH.
Qed.

Lemma FormatInt_parse z : is_i64 z → ParseInt (FormatInt z) = Some z.
Proof.
  unfold is_i64, MinInt64, MaxInt64. intros Hz. unfold FormatInt.
  assert (∀ n, is_u64 n → ParseUint (FormatUint n) = Some n) as HP.
  { intros n Hn. unfold ParseUint.
    rewrite (proj2 (String.eqb_neq (FormatUint n) "") (format_digits_nonempty _ n "")).
    by apply FormatUint_parse. }
  destruct (Z.ltb_spec z 0).
  - unfold ParseInt. cbn -[ParseUint FormatUint]. rewrite HP by (unfold is_u64, two64; lia).
    rewrite Z2N.id by lia. rewrite (proj2 (Z.leb_le (- z) _)) by lia. f_equal. lia.
  - pose proof (format_digits_all (S (N.to_nat (N.size (Z.to_N z)))) (Z.to_N z) "" eq_refl) as Hd.
    fold (FormatUint (Z.to_N z)) in Hd. specialize (HP (Z.to_N z)).
    destruct (FormatUint (Z.to_N z)) as [|c s] eqn:E; [by apply format_digits_nonempty in E|].
    unfold ParseInt.
    assert (match String c s with
      | String "-" s' => (true, s') | String "+" s' => (false, s') | _ => (false, String c s)
      end = (false, String c s)) as ->.
    { simpl in Hd. destruct c as [[][][][][][][][]]; try done. }
    rewrite HP by (unfold is_u64, two64; lia). rewrite Z2N.id by lia.
    by rewrite (proj2 (Z.leb_le z MaxInt64)) by (unfold MaxInt64; lia).
Qed.

(** A decimal text has no leading zero unless it is [0]. *)
Lemma format_digits_head fuel n acc :
  (0 < n < 2 ^ N.of_nat fuel)%N →
  ∃ c s, format_digits fuel n acc = String c s ∧ c ≠ "0"%char.
Proof.
  revert n acc. induction fuel as [|fuel IH]; intros n acc [H0 Hn]; [simpl in Hn; lia|].
  rewrite Nat2N.inj_succ, N.pow_succ_r' in Hn. simpl.
  destruct (N.ltb_spec n 10) as [Hlt|Hge].
  - eexists _, _. split; [done|]. intros Hc. apply (f_equal digit_val) in Hc.
    rewrite digit_val_char in Hc by (apply N.mod_lt; lia).
    rewrite N.mod_small in Hc by done. vm_compute in Hc. lia.
  - apply IH. split; [apply N.div_str_pos; lia|]. apply N.Div0.div_lt_upper_bound. lia.
Qed.

Lemma FormatUint_shape n :
  FormatUint n = "0" ∨
  ∃ c s, FormatUint n = String c s ∧ c ≠ "0"%char ∧ all_chars is_digit (String c s) = true.
Proof.
  pose proof (format_digits_all (S (N.to_nat (N.size n))) n "" eq_refl) as Hall.
  unfold FormatUint in *. destruct (N.eq_dec n 0%N) as [->|Hn]; [left; done|right].
  destruct (format_digits_head (S (N.to_nat (N.size n))) n "") as (c & s & Hs & Hc).
  - rewrite Nat2N.inj_succ, N2Nat.id, N.pow_succ_r'. pose proof (N.size_gt n). lia.
  - rewrite Hs in *. eauto.
Qed.
