(* ===== verification/Json.v ===== *)
(** * encoding/json, as far as the manifests use it

    Manifests are stored as JSON ([encodeManifest] is [json.Marshal] and
    [decodeManifest] is [json.Unmarshal]), so what a reader gets back from the
    bytes a writer stored is decided here. Modelled: the text [json.Marshal]
    writes for objects, arrays, integers and strings (HTML escaping and the
    replacement of invalid UTF-8 included), the JSON grammar [json.Unmarshal]
    accepts, and how an object's members are assigned to a struct's fields
    (names matched without regard to ASCII case, unknown members ignored, [null]
    leaving a field alone, a value of the wrong type or out of range an error).

    Not modelled: the nesting limit of 10000 levels, the two non-ASCII code
    points Go folds onto [k] and [s] in member names, and the reuse of the
    elements of an array member that occurs twice; no manifest the ledger writes
    comes near any of them. *)

From S2P Require Import Prelude GoStd.
#[local] Open Scope string_scope.

(** A JSON value. A number is kept as its literal, as the decoder keeps it until
    it knows the field it is for. *)
#[warnings="-register-all"]
Inductive json : Type :=
  | JNull
  | JBool (b : bool)
  | JNum (lit : string)
  | JStr (s : string)
  | JArr (l : list json)
  | JObj (l : list (string * json)).

(** ** Writing *)

Definition hex_digit (n : N) : ascii :=
  if (n <? 10)%N then ascii_of_N (48 + n) else ascii_of_N (87 + n).

(** The escape of one ASCII byte inside a string literal. *)
Definition escape_ascii (c : ascii) : string :=
  let b := byte_of c in
  if (b =? 34)%N || (b =? 92)%N then String "\" (String c "")
  else if (b =? 8)%N then "\b"
  else if (b =? 12)%N then "\f"
  else if (b =? 10)%N then "\n"
  else if (b =? 13)%N then "\r"
  else if (b =? 9)%N then "\t"
  else if (b <? 32)%N || (b =? 60)%N || (b =? 62)%N || (b =? 38)%N then
    "\u00" +:+ String (hex_digit (b / 16)) (String (hex_digit (b mod 16)) "")
  else String c "".

(** U+2028 and U+2029, which are escaped although JSON allows them. *)
Definition line_separator : string :=
  String (ascii_of_N 226) (String (ascii_of_N 128) (String (ascii_of_N 168) "")).
Definition paragraph_separator : string :=
  String (ascii_of_N 226) (String (ascii_of_N 128) (String (ascii_of_N 169) "")).

Definition escape_rune (r : string) : string :=
  if String.eqb r line_separator then "\u2028"
  else if String.eqb r paragraph_separator then "\u2029"
  else r.

Fixpoint escape_from (fuel : nat) (s : string) : string :=
  match fuel, s with
  | _, EmptyString => ""
  | O, _ => ""
  | S fuel', String c s' =>
      if (byte_of c <? 128)%N then escape_ascii c +:+ escape_from fuel' s'
      else match rune_len s with
           | None => "\ufffd" +:+ escape_from fuel' s'
           | Some n =>
               let '(r, rest) := split_at n s in
               escape_rune r +:+ escape_from fuel' rest
           end
  end.

Definition quote : ascii := ascii_of_N 34.

Definition print_string (s : string) : string :=
  String quote (escape_from (String.length s) s +:+ String quote "").

Fixpoint print (j : json) : string :=
  match j with
  | JNull => "null"
  | JBool true => "true"
  | JBool false => "false"
  | JNum lit => lit
  | JStr s => print_string s
  | JArr l => String "[" (String.concat "," (map print l) +:+ "]")
  | JObj l =>
      String "{" (String.concat ","
        (map (λ kv : string * json, print_string kv.1 +:+ String ":" (print kv.2)) l) +:+ "}")
  end.

(** ** Reading *)

Definition is_ws (c : ascii) : bool :=
  let b := byte_of c in (b =? 32)%N || (b =? 9)%N || (b =? 10)%N || (b =? 13)%N.

Fixpoint skip_ws (s : string) : string :=
  match s with
  | String c s' => if is_ws c then skip_ws s' else s
  | EmptyString => ""
  end.

Definition hex_val (c : ascii) : option N :=
  let b := byte_of c in
  if in_range 48 57 c then Some (b - 48)%N
  else if in_range 97 102 c then Some (b - 87)%N
  else if in_range 65 70 c then Some (b - 55)%N
  else None.

(** The four hex digits of a [\u] escape. *)
Definition hex4 (s : string) : option (N * string) :=
  match s with
  | String a (String b (String c (String d rest))) =>
      match hex_val a, hex_val b, hex_val c, hex_val d with
      | Some a, Some b, Some c, Some d => Some (((a * 16 + b) * 16 + c) * 16 + d, rest)%N
      | _, _, _, _ => None
      end
  | _ => None
  end.

(** [utf8.AppendRune] for a code point that is not a surrogate. *)
Definition utf8_encode (r : N) : string :=
  if (r <? 128)%N then String (ascii_of_N r) ""
  else if (r <? 2048)%N then
    String (ascii_of_N (192 + r / 64)) (String (ascii_of_N (128 + r mod 64)) "")
  else if (r <? 65536)%N then
    String (ascii_of_N (224 + r / 4096)) (String (ascii_of_N (128 + r / 64 mod 64))
      (String (ascii_of_N (128 + r mod 64)) ""))
  else
    String (ascii_of_N (240 + r / 262144)) (String (ascii_of_N (128 + r / 4096 mod 64))
      (String (ascii_of_N (128 + r / 64 mod 64)) (String (ascii_of_N (128 + r mod 64)) ""))).

Definition replacement_char : string := utf8_encode 65533.

(** What follows [\u]: a code point, a surrogate pair, or half of one, which
    becomes the replacement character. *)
Definition unescape_u (s : string) : option (string * string) :=
  match hex4 s with
  | None => None
  | Some (r, rest) =>
      if (55296 <=? r)%N && (r <=? 57343)%N then
        match CutPrefix rest "\u" ≫= hex4 with
        | Some (r2, rest2) =>
            if (r <=? 56319)%N && (56320 <=? r2)%N && (r2 <=? 57343)%N
            then Some (utf8_encode ((r - 55296) * 1024 + (r2 - 56320) + 65536)%N, rest2)
            else Some (replacement_char, rest)
        | None => Some (replacement_char, rest)
        end
      else Some (utf8_encode r, rest)
  end.

(** What follows a backslash. *)
Definition unescape (s : string) : option (string * string) :=
  match s with
  | EmptyString => None
  | String c rest =>
      let b := byte_of c in
      if (b =? 34)%N || (b =? 92)%N || (b =? 47)%N then Some (String c "", rest)
      else if (b =? 98)%N then Some (String (ascii_of_N 8) "", rest)
      else if (b =? 102)%N then Some (String (ascii_of_N 12) "", rest)
      else if (b =? 110)%N then Some (String (ascii_of_N 10) "", rest)
      else if (b =? 114)%N then Some (String (ascii_of_N 13) "", rest)
      else if (b =? 116)%N then Some (String (ascii_of_N 9) "", rest)
      else if (b =? 117)%N then unescape_u rest
      else None
  end.

Definition cons_piece (p : string) (r : option (string * string)) : option (string * string) :=
  match r with Some (s, rest) => Some (p +:+ s, rest) | None => None end.

(** The rest of a string literal after its opening quote: its decoded content
    and what follows the closing quote. *)
Fixpoint parse_string (fuel : nat) (s : string) : option (string * string) :=
  match fuel, s with
  | O, _ => None
  | _, EmptyString => None
  | S fuel', String c s' =>
      let b := byte_of c in
      if (b =? 34)%N then Some ("", s')
      else if (b =? 92)%N then
        match unescape s' with
        | Some (piece, rest) => cons_piece piece (parse_string fuel' rest)
        | None => None
        end
      else if (b <? 32)%N then None
      else if (b <? 128)%N then cons_piece (String c "") (parse_string fuel' s')
      else match rune_len s with
           | None => cons_piece replacement_char (parse_string fuel' s')
           | Some n =>
               let '(r, rest) := split_at n s in cons_piece r (parse_string fuel' rest)
           end
  end.

Fixpoint span_digits (s : string) : string * string :=
  match s with
  | String c s' =>
      if is_digit c then let '(d, rest) := span_digits s' in (String c d, rest) else ("", s)
  | EmptyString => ("", "")
  end.

(** An optional fraction, then an optional exponent. *)
Definition parse_frac (s : string) : option (string * string) :=
  match s with
  | String "." s' =>
      let '(d, rest) := span_digits s' in
      if String.eqb d "" then None else Some (String "." d, rest)
  | _ => Some ("", s)
  end.

Definition parse_exp (s : string) : option (string * string) :=
  match s with
  | String c s' =>
      if Ascii.eqb c "e" || Ascii.eqb c "E" then
        let '(sign, s2) :=
          match s' with
          | String "+" s2 => ("+", s2)
          | String "-" s2 => ("-", s2)
          | _ => ("", s')
          end in
        let '(d, rest) := span_digits s2 in
        if String.eqb d "" then None else Some (String c (sign +:+ d), rest)
      else Some ("", s)
  | EmptyString => Some ("", s)
  end.

(** A number literal without its sign: digits without a leading zero unless they
    are just [0], a fraction, an exponent. *)
Definition parse_magnitude (s : string) : option (string * string) :=
  let '(d, s2) :=
    match s with
    | String "0" s2 => ("0", s2)
    | _ => span_digits s
    end in
  if String.eqb d "" then None
  else match parse_frac s2 with
       | None => None
       | Some (f, s3) => cons_piece (d +:+ f) (parse_exp s3)
       end.

Definition parse_number (s : string) : option (string * string) :=
  match s with
  | String "-" s1 => cons_piece "-" (parse_magnitude s1)
  | _ => parse_magnitude s
  end.

Fixpoint parse_value (fuel : nat) (s : string) {struct fuel} : option (json * string) :=
  match fuel with
  | O => None
  | S fuel' =>
      match skip_ws s with
      | EmptyString => None
      | String c s' =>
          let b := byte_of c in
          if (b =? 34)%N then
            match parse_string (String.length s') s' with
            | Some (str, rest) => Some (JStr str, rest)
            | None => None
            end
          else if (b =? 91)%N then
            match skip_ws s' with
            | String "]" rest => Some (JArr [], rest)
            | _ =>
                match parse_elems fuel' s' with
                | Some (l, rest) => Some (JArr l, rest)
                | None => None
                end
            end
          else if (b =? 123)%N then
            match skip_ws s' with
            | String "}" rest => Some (JObj [], rest)
            | _ =>
                match parse_members fuel' s' with
                | Some (l, rest) => Some (JObj l, rest)
                | None => None
                end
            end
          else match CutPrefix (String c s') "null" with
          | Some rest => Some (JNull, rest)
          | None =>
          match CutPrefix (String c s') "true" with
          | Some rest => Some (JBool true, rest)
          | None =>
          match CutPrefix (String c s') "false" with
          | Some rest => Some (JBool false, rest)
          | None =>
          match parse_number (String c s') with
          | Some (lit, rest) => Some (JNum lit, rest)
          | None => None
          end end end end
      end
  end
with parse_elems (fuel : nat) (s : string) {struct fuel} : option (list json * string) :=
  match fuel with
  | O => None
  | S fuel' =>
      match parse_value fuel' s with
      | None => None
      | Some (x, rest) =>
          match skip_ws rest with
          | String "," rest' =>
              match parse_elems fuel' rest' with
              | Some (l, rest'') => Some (x :: l, rest'')
              | None => None
              end
          | String "]" rest' => Some ([x], rest')
          | _ => None
          end
      end
  end
with parse_members (fuel : nat) (s : string) {struct fuel} : option (list (string * json) * string) :=
  match fuel with
  | O => None
  | S fuel' =>
      match skip_ws s with
      | String q s' =>
          if (byte_of q =? 34)%N then
            match parse_string (String.length s') s' with
            | None => None
            | Some (k, s2) =>
                match skip_ws s2 with
                | String ":" s3 =>
                    match parse_value fuel' s3 with
                    | None => None
                    | Some (v, rest) =>
                        match skip_ws rest with
                        | String "," rest' =>
                            match parse_members fuel' rest' with
                            | Some (l, rest'') => Some ((k, v) :: l, rest'')
                            | None => None
                            end
                        | String "}" rest' => Some ([(k, v)], rest')
                        | _ => None
                        end
                    end
                | _ => None
                end
            end
          else None
      | EmptyString => None
      end
  end.

(** The whole input is one value, with white space around it. Every call of the
    parser consumes a byte or descends from a call that does, so twice the
    length is fuel enough ([parse_fuel] of JsonProps.v). *)
Definition parse (s : string) : option json :=
  match parse_value (S (2 * String.length s)) s with
  | Some (j, rest) => if String.eqb (skip_ws rest) "" then Some j else None
  | None => None
  end.

(** ** Struct members *)

Definition ascii_lower (c : ascii) : ascii :=
  if in_range 65 90 c then ascii_of_N (byte_of c + 32) else c.

Fixpoint fold_name (s : string) : string :=
  match s with
  | EmptyString => ""
  | String c s' => String (ascii_lower c) (fold_name s')
  end.

Definition name_matches (key field : string) : bool :=
  String.eqb (fold_name key) (fold_name field).

(** Decoding an object into a struct: the members are assigned in order to the
    zero value. [null] for a struct leaves it zero. *)
Fixpoint assign_members {A} (assign : string → json → A → option A)
    (l : list (string * json)) (acc : A) : option A :=
  match l with
  | [] => Some acc
  | (k, v) :: l' =>
      match assign k v acc with
      | Some acc' => assign_members assign l' acc'
      | None => None
      end
  end.

Definition decode_struct {A} (assign : string → json → A → option A) (zero : A) (j : json)
    : option A :=
  match j with
  | JNull => Some zero
  | JObj l => assign_members assign l zero
  | _ => None
  end.

(** Decoding a member into a field of each kind; [null] keeps the field. *)
Definition decode_uint (bits : N) (j : json) (old : N) : option N :=
  match j with
  | JNull => Some old
  | JNum lit =>
      match ParseUint lit with
      | Some n => if (n <? 2 ^ bits)%N then Some n else None
      | None => None
      end
  | _ => None
  end.

Definition decode_int (j : json) (old : Z) : option Z :=
  match j with
  | JNull => Some old
  | JNum lit => ParseInt lit
  | _ => None
  end.

Definition decode_string (j : json) (old : string) : option string :=
  match j with
  | JNull => Some old
  | JStr s => Some s
  | _ => None
  end.

Fixpoint decode_all {A} (decode : json → option A) (l : list json) : option (list A) :=
  match l with
  | [] => Some []
  | j :: l' =>
      match decode j, decode_all decode l' with
      | Some x, Some xs => Some (x :: xs)
      | _, _ => None
      end
  end.

Definition decode_list {A} (decode : json → option A) (j : json) (old : list A)
    : option (list A) :=
  match j with
  | JNull => Some []
  | JArr l => decode_all decode l
  | _ => None
  end.

(** A nil slice is written as [null]. *)
Definition encode_list {A} (encode : A → json) (l : list A) : json :=
  match l with [] => JNull | _ => JArr (map encode l) end.

Definition encode_uint (n : N) : json := JNum (FormatUint n).
Definition encode_int (z : Z) : json := JNum (FormatInt z).

(** A field tagged [omitempty] that holds its zero value is left out. *)
Definition member (name : string) (j : json) : list (string * json) := [(name, j)].
Definition omitempty (empty : bool) (name : string) (j : json) : list (string * json) :=
  if empty then [] else [(name, j)].

(** ** Lemmas: strings *)

Lemma escape_ascii_parse fuel c t :
  (byte_of c <? 128)%N = true →
  parse_string (S fuel) (escape_ascii c +:+ t) = cons_piece (String c "") (parse_string fuel t).
Proof. destruct c as [[][][][][][][][]]; intros H; try discriminate H; reflexivity. Qed.

Lemma escape_ascii_nonempty c : 1 <= String.length (escape_ascii c).
Proof. unfold escape_ascii. repeat case_match; simpl; lia. Qed.

Lemma rune_len_split n s :
  rune_len s = Some n →
  1 <= n ∧ ∃ r u, split_at n s = (r, u) ∧ s = r +:+ u ∧ String.length r = n ∧
    ∀ t, rune_len (r +:+ t) = Some n ∧ split_at n (r +:+ t) = (r, t).
Proof.
  destruct s as [|a s1]; [done|]. unfold rune_len. fold rune_len.
  destruct (byte_of a <? 128)%N eqn:Ea.
  { intros [= <-]. split; [lia|]. exists (String a ""), s1. simpl. rewrite Ea. done. }
  destruct s1 as [|b s2]; [done|]. destruct (in_range 194 223 a) eqn:E2.
  { destruct (in_range 128 191 b) eqn:Eb; [|done]. intros [= <-]. split; [lia|].
    exists (String a (String b "")), s2. simpl. rewrite Ea, E2, Eb. done. }
  destruct s2 as [|c s3]; [done|]. destruct (in_range 224 239 a) eqn:E3.
  { destruct (in_range _ _ b && in_range _ _ c) eqn:Eb; [|done]. intros [= <-]. split; [lia|].
    exists (String a (String b (String c ""))), s3. simpl. rewrite Ea, E2, E3. cbv zeta in Eb.
    rewrite Eb. done. }
  destruct s3 as [|d s4]; [done|]. destruct (in_range 240 244 a) eqn:E4; [|done].
  destruct (in_range _ _ b && in_range _ _ c && in_range _ _ d) eqn:Eb; [|done].
  intros [= <-]. split; [lia|].
  exists (String a (String b (String c (String d "")))), s4. simpl.
  rewrite Ea, E2, E3, E4. cbv zeta in Eb. rewrite Eb. done.
Qed.

Lemma rune_parse fuel n c s r u t :
  (byte_of c <? 128)%N = false → rune_len (String c s) = Some n →
  split_at n (String c s) = (r, u) →
  parse_string (S fuel) (escape_rune r +:+ t) = cons_piece r (parse_string fuel t).
Proof.
  intros Hc Hn Hs. unfold escape_rune.
  destruct (String.eqb_spec r line_separator) as [->|_]; [reflexivity|].
  destruct (String.eqb_spec r paragraph_separator) as [->|_]; [reflexivity|].
  destruct (rune_len_split _ _ Hn) as (Hpos & r' & u' & Hs' & Happ & _ & Ht).
  rewrite Hs in Hs'. simplify_eq. destruct (Ht t) as [Hlen Hsp].
  destruct n as [|n]; [lia|]. destruct r' as [|c' r']; simpl in Hs; [by destruct (split_at n s)|].
  simpl in Happ. simplify_eq.
  change (String c' r' +:+ t) with (String c' (r' +:+ t)) in *.
  cbn [parse_string]. rewrite Hlen, Hsp, Hc.
  apply N.ltb_ge in Hc.
  rewrite (proj2 (N.eqb_neq _ 34)), (proj2 (N.eqb_neq _ 92)), (proj2 (N.ltb_ge _ 32)) by lia.
  done.
Qed.

Lemma escape_rune_nonempty r : 1 <= String.length r → 1 <= String.length (escape_rune r).
Proof. unfold escape_rune. intros. repeat case_match; simpl; lia. Qed.

Lemma parse_escape fv : ∀ fe fp s rest,
  valid_utf8_from fv s = true → String.length s <= fe →
  String.length (escape_from fe s +:+ String quote rest) <= fp →
  parse_string fp (escape_from fe s +:+ String quote rest) = Some (s, rest).
Proof.
  induction fv as [|fv IH]; intros fe fp s rest Hv Hfe Hfp.
  { destruct s; [|done]. destruct fe, fp; simpl in *; try lia; done. }
  destruct s as [|c s]; [destruct fe, fp; simpl in *; try lia; done|].
  destruct fe as [|fe]; [simpl in Hfe; lia|]. cbn [valid_utf8_from] in Hv.
  destruct (rune_len (String c s)) as [n|] eqn:Hn; [|done].
  cbn [escape_from] in *. rewrite Hn in Hfp |- *.
  destruct (byte_of c <? 128)%N eqn:Hc.
  - assert (n = 1) as -> by (simpl in Hn; rewrite Hc in Hn; by simplify_eq). simpl in Hv.
    rewrite <-string_app_assoc in Hfp |- *. rewrite string_length_app in Hfp.
    pose proof (escape_ascii_nonempty c). destruct fp as [|fp]; [lia|].
    rewrite escape_ascii_parse, IH by (done || simpl in *; lia). done.
  - destruct (rune_len_split _ _ Hn) as (Hpos & r & u & Hs & Happ & Hr & _).
    rewrite Hs in Hv, Hfp |- *. simpl in Hv.
    rewrite <-string_app_assoc in Hfp |- *. rewrite string_length_app in Hfp.
    pose proof (escape_rune_nonempty r ltac:(lia)). destruct fp as [|fp]; [lia|].
    assert (String.length u <= fe).
    { apply (f_equal String.length) in Happ. rewrite string_length_app in Happ. simpl in *. lia. }
    erewrite rune_parse by eauto. rewrite IH by (done || lia). simpl. by rewrite <-Happ.
Qed.

Lemma parse_print_string s rest :
  valid_utf8 s = true →
  ∃ body, print_string s +:+ rest = String quote body ∧
    parse_string (String.length body) body = Some (s, rest).
Proof.
  intros Hv. unfold print_string. exists (escape_from (String.length s) s +:+ String quote rest).
  split; [simpl; f_equal; by rewrite <-string_app_assoc|].
  eapply parse_escape; [exact Hv|lia|lia].
Qed.

(** ** Lemmas: well-formed UTF-8 *)

Lemma valid_utf8_from_more f f' s :
  valid_utf8_from f s = true → f <= f' → valid_utf8_from f' s = true.
Proof.
  revert f' s. induction f as [|f IH]; intros f' s Hv Hf.
  { destruct s; [by destruct f'|done]. }
  destruct f' as [|f']; [lia|]. destruct s as [|c s]; [done|]. cbn [valid_utf8_from] in *.
  destruct (rune_len _); [|done]. apply IH; [done|lia].
Qed.

Lemma valid_utf8_from_app f f' s t :
  valid_utf8_from f s = true → valid_utf8_from f' t = true →
  valid_utf8_from (f + f') (s +:+ t) = true.
Proof.
  revert s. induction f as [|f IH]; intros s Hs Ht.
  { by destruct s. }
  destruct s as [|c s]; [eapply valid_utf8_from_more; [exact Ht|lia]|].
  cbn [valid_utf8_from] in Hs. destruct (rune_len (String c s)) as [n|] eqn:Hn; [|done].
  destruct (rune_len_split _ _ Hn) as (_ & r & u & Hsp & Happ & _ & Hr).
  rewrite Hsp in Hs. destruct (Hr (u +:+ t)) as [Hlen Hspl].
  rewrite string_app_assoc, <-Happ in Hlen, Hspl.
  change (String c s +:+ t) with (String c (s +:+ t)) in *. cbn [Nat.add valid_utf8_from].
  rewrite Hlen, Hspl. by apply IH.
Qed.

Lemma valid_utf8_app s t :
  valid_utf8 s = true → valid_utf8 t = true → valid_utf8 (s +:+ t) = true.
Proof. unfold valid_utf8. rewrite string_length_app. apply valid_utf8_from_app. Qed.

Lemma valid_utf8_ascii s :
  all_chars (λ c, byte_of c <? 128)%N s = true → valid_utf8 s = true.
Proof.
  unfold valid_utf8. induction s as [|c s IH]; [done|]. cbn [all_chars]. intros [Hc Hs]%andb_prop.
  cbn [String.length valid_utf8_from rune_len]. rewrite Hc. destruct s; auto.
Qed.

(** ** Lemmas: numbers *)

(** What may follow a value inside a document. *)
Definition delim (rest : string) : Prop :=
  match rest with
  | EmptyString => True
  | String c _ => c = ","%char ∨ c = "]"%char ∨ c = "}"%char
  end.

Lemma span_digits_all d rest :
  all_chars is_digit d = true → delim rest → span_digits (d +:+ rest) = (d, rest).
Proof.
  intros Hd Hr. induction d as [|c d IH]; simpl in *.
  - destruct rest as [|c rest]; simpl in *; [done|].
    by destruct Hr as [-> | [-> | ->]].
  - apply andb_prop in Hd as [-> Hd]. by rewrite IH.
Qed.

Lemma parse_magnitude_uint n rest :
  delim rest → parse_magnitude (FormatUint n +:+ rest) = Some (FormatUint n, rest).
Proof.
  intros Hr.
  assert (parse_frac rest = Some ("", rest) ∧ parse_exp rest = Some ("", rest)) as [Hf He].
  { destruct rest as [|c rest]; simpl in *; [done|]. by destruct Hr as [-> | [-> | ->]]. }
  destruct (FormatUint_shape n) as [-> | (c & s & -> & Hc & Hall)].
  - unfold parse_magnitude. cbn -[parse_frac parse_exp]. by rewrite Hf, He.
  - pose proof (span_digits_all _ _ Hall Hr) as Hs.
    change (String c s +:+ rest) with (String c (s +:+ rest)) in *.
    unfold parse_magnitude.
    assert (match String c (s +:+ rest) with
      | String "0" s2 => ("0", s2)
      | _ => span_digits (String c (s +:+ rest)) end = (String c s, rest)) as ->.
    { rewrite <-Hs. destruct c as [[][][][][][][][]]; done. }
    cbn -[parse_frac parse_exp]. rewrite Hf, He. simpl. by rewrite !string_app_nil_r.
Qed.

Lemma digit_cases c : is_digit c = true →
  c ∈ ["0"; "1"; "2"; "3"; "4"; "5"; "6"; "7"; "8"; "9"]%char.
Proof.
  intros H. apply list_elem_of_In.
  destruct c as [[][][][][][][][]]; try discriminate H; simpl; tauto.
Qed.

(** An integer literal starts with a digit or a minus sign. *)
Lemma FormatInt_head z : ∃ c s, FormatInt z = String c s ∧ (c = "-"%char ∨ is_digit c = true).
Proof.
  unfold FormatInt. destruct (z <? 0)%Z; [eauto|].
  destruct (FormatUint_shape (Z.to_N z)) as [-> | (c & s & -> & _ & Hall)]; [eauto|].
  simpl in Hall. apply andb_prop in Hall as [? _]. eauto.
Qed.

Lemma parse_number_int z rest :
  delim rest → parse_number (FormatInt z +:+ rest) = Some (FormatInt z, rest).
Proof.
  intros Hr. unfold FormatInt. destruct (z <? 0)%Z.
  - cbn -[FormatUint parse_magnitude]. by rewrite parse_magnitude_uint.
  - pose proof (parse_magnitude_uint (Z.to_N z) rest Hr) as H. unfold parse_number.
    destruct (FormatUint_shape (Z.to_N z)) as [E | (c & s & E & _ & Hall)];
      rewrite E in *; [exact H|].
    change (String c s +:+ rest) with (String c (s +:+ rest)) in *.
    rewrite <-H. destruct c as [[][][][][][][][]]; done.
Qed.

(** ** Lemmas: documents *)

Section JsonInd.
Context (P : json → Prop).
Hypothesis (Hnull : P JNull) (Hbool : ∀ b, P (JBool b)) (Hnum : ∀ lit, P (JNum lit))
  (Hstr : ∀ s, P (JStr s)) (Harr : ∀ l, Forall P l → P (JArr l))
  (Hobj : ∀ l, Forall (λ kv, P kv.2) l → P (JObj l)).

Fixpoint json_strong_ind (j : json) : P j :=
  match j with
  | JNull => Hnull
  | JBool b => Hbool b
  | JNum lit => Hnum lit
  | JStr s => Hstr s
  | JArr l =>
      Harr l ((fix go (l : list json) : Forall P l :=
        match l with
        | [] => Forall_nil_2 P
        | x :: l' => Forall_cons_2 P x l' (json_strong_ind x) (go l')
        end) l)
  | JObj l =>
      Hobj l ((fix go (l : list (string * json)) : Forall (λ kv, P kv.2) l :=
        match l with
        | [] => Forall_nil_2 _
        | x :: l' => Forall_cons_2 _ x l' (json_strong_ind x.2) (go l')
        end) l)
  end.
End JsonInd.

(** The documents the encoder writes: integer literals, and strings that are
    valid UTF-8. *)
#[warnings="-register-all"]
Inductive wf_json : json → Prop :=
  | wf_null : wf_json JNull
  | wf_bool b : wf_json (JBool b)
  | wf_num z : wf_json (JNum (FormatInt z))
  | wf_str s : valid_utf8 s = true → wf_json (JStr s)
  | wf_arr l : Forall wf_json l → wf_json (JArr l)
  | wf_obj l : Forall (λ kv, valid_utf8 kv.1 = true ∧ wf_json kv.2) l → wf_json (JObj l).

(** A value's text starts with a byte that is neither white space nor a closing
    bracket. *)
Definition value_head (c : ascii) : bool :=
  negb (is_ws c) && negb (Ascii.eqb c "]") && negb (Ascii.eqb c "}").

Lemma print_head j : wf_json j → ∃ c s, print j = String c s ∧ value_head c = true.
Proof.
  destruct 1; simpl; unfold print_string; try (by eauto).
  - destruct b; eauto.
  - destruct (FormatInt_head z) as (c & s & -> & [-> | Hd]); [eauto|].
    exists c, s. split; [done|]. destruct c as [[][][][][][][][]]; done.
Qed.

Lemma value_head_ws c s : value_head c = true → skip_ws (String c s) = String c s.
Proof. unfold value_head. intros. bool_to_prop. simpl. by rewrite H. Qed.

Lemma parse_value_num fuel z rest :
  delim rest → parse_value (S fuel) (FormatInt z +:+ rest) = Some (JNum (FormatInt z), rest).
Proof.
  intros Hr. pose proof (parse_number_int z rest Hr) as Hn.
  destruct (FormatInt_head z) as (c & s & E & Hc). rewrite E in *.
  change (String c s +:+ rest) with (String c (s +:+ rest)) in *.
  assert (value_head c = true ∧ byte_of c ≠ 34%N ∧ byte_of c ≠ 91%N ∧ byte_of c ≠ 123%N ∧
    c ≠ "n"%char ∧ c ≠ "t"%char ∧ c ≠ "f"%char) as (Hh & H1 & H2 & H3 & H4 & H5 & H6).
  { destruct Hc as [-> | Hc]; [done|].
    destruct c as [[][][][][][][][]]; try discriminate Hc; done. }
  cbn [parse_value]. rewrite value_head_ws by done.
  rewrite (proj2 (N.eqb_neq _ 34)), (proj2 (N.eqb_neq _ 91)), (proj2 (N.eqb_neq _ 123)) by done.
  cbn [CutPrefix].
  rewrite (proj2 (Ascii.eqb_neq "n" c)), (proj2 (Ascii.eqb_neq "t" c)),
    (proj2 (Ascii.eqb_neq "f" c)) by done.
  by rewrite Hn.
Qed.

Lemma concat_cons_app sep x (l : list string) rest :
  String.concat sep (x :: l) +:+ rest =
  x +:+ match l with [] => rest | _ => sep +:+ (String.concat sep l +:+ rest) end.
Proof. destruct l; cbn -[String.append]; [done|]. by rewrite <-!string_app_assoc. Qed.

(** [j]'s text is read back as [j], with enough fuel. *)
Definition reads_back (j : json) : Prop :=
  ∀ fuel rest, delim rest → 2 * String.length (print j) < fuel →
    parse_value fuel (print j +:+ rest) = Some (j, rest).

Lemma parse_elems_back l fuel rest :
  l ≠ [] → Forall reads_back l →
  S (2 * String.length (String.concat "," (map print l))) < fuel →
  parse_elems fuel (String.concat "," (map print l) +:+ String "]" rest) = Some (l, rest).
Proof.
  intros Hne Hl. revert fuel. induction Hl as [|x l Hx Hl IH]; intros fuel Hf; [done|].
  cbn [map] in *. rewrite concat_cons_app.
  pose proof (concat_cons_app "," (print x) (map print l) "") as Hlen.
  apply (f_equal String.length) in Hlen. rewrite string_app_nil_r in Hlen. rewrite Hlen in Hf.
  rewrite string_length_app in Hf. destruct fuel as [|fuel]; [lia|]. cbn [parse_elems].
  destruct l as [|y l]; cbn [map] in *.
  - rewrite Hx by (simpl; auto; lia). done.
  - cbn [map] in *. rewrite Hx by (simpl; auto; lia). simpl.
    rewrite string_length_app, string_app_nil_r in Hf. cbn [String.length] in Hf.
    rewrite IH by (done || lia). done.
Qed.

Lemma parse_members_back l fuel rest :
  l ≠ [] → Forall (λ kv, valid_utf8 kv.1 = true ∧ reads_back kv.2) l →
  let text := String.concat ","
    (map (λ kv : string * json, print_string kv.1 +:+ String ":" (print kv.2)) l) in
  S (2 * String.length text) < fuel →
  parse_members fuel (text +:+ String "}" rest) = Some (l, rest).
Proof.
  intros Hne Hl. cbv zeta. revert fuel.
  induction Hl as [|[k v] l [Hk Hv] Hl IH]; intros fuel Hf; [done|].
  cbn [map fst snd] in *. rewrite concat_cons_app.
  pose proof (concat_cons_app "," (print_string k +:+ String ":" (print v))
    (map (λ kv : string * json, print_string kv.1 +:+ String ":" (print kv.2)) l) "") as Hlen.
  apply (f_equal String.length) in Hlen. rewrite string_app_nil_r in Hlen. rewrite Hlen in Hf.
  rewrite !string_length_app in Hf. cbn [String.length] in Hf.
  destruct fuel as [|fuel]; [lia|].
  rewrite <-string_app_assoc. cbn [String.append].
  match goal with |- context [print_string k +:+ ?t] =>
    destruct (parse_print_string k t Hk) as (body & -> & Hb) end.
  cbn [parse_members]. rewrite value_head_ws by done.
  change (byte_of quote =? 34)%N with true. cbv iota. rewrite Hb.
  rewrite value_head_ws by done. cbv iota.
  destruct l as [|y l]; cbn [map] in *.
  - rewrite Hv by (simpl; auto; lia). done.
  - rewrite Hv by (simpl; auto; lia). simpl.
    rewrite string_length_app, string_app_nil_r in Hf. cbn [String.length] in Hf.
    rewrite IH by (done || lia). done.
Qed.

Lemma wf_reads_back j : wf_json j → reads_back j.
Proof.
  induction j as [|b|lit|s|l IH|l IH] using json_strong_ind; intros Hwf fuel rest Hr Hf;
    (destruct fuel as [|fuel]; [lia|]).
  - done.
  - by destruct b.
  - inversion Hwf; subst. by apply parse_value_num.
  - inversion Hwf as [| | |? Hs| |]; subst. cbn [print].
    destruct (parse_print_string s rest Hs) as (body & -> & Hb).
    cbn [parse_value]. rewrite value_head_ws by done.
    change (byte_of quote =? 34)%N with true. cbv iota. by rewrite Hb.
  - inversion Hwf as [| | | |? Hl|]; subst.
    assert (Forall reads_back l) as Hback.
    { rewrite Forall_forall in *. eauto. }
    cbn [print String.append] in *. rewrite <-string_app_assoc. cbn [String.length] in Hf.
    rewrite string_length_app in Hf. cbn [String.length] in Hf.
    cbn [parse_value]. rewrite value_head_ws by done. cbn -[String.concat skip_ws parse_elems].
    destruct l as [|x l]; [done|].
    assert (∃ c s, String.concat "," (map print (x :: l)) +:+ String "]" rest = String c s ∧
      value_head c = true) as (c & s & Hcs & Hc).
    { cbn [map]. rewrite concat_cons_app. inversion Hl as [|? ? Hx]; subst.
      destruct (print_head x Hx) as (c & s & -> & Hc). cbn [String.append]. eauto. }
    pose proof (parse_elems_back (x :: l) fuel rest ltac:(done) Hback ltac:(lia)) as Hb.
    rewrite Hcs in Hb |- *. rewrite Hb, value_head_ws by done.
    destruct c as [[][][][][][][][]]; by try discriminate Hc.
  - inversion Hwf as [| | | | |? Hl]; subst.
    assert (Forall (λ kv, valid_utf8 kv.1 = true ∧ reads_back kv.2) l) as Hback.
    { rewrite Forall_forall in IH, Hl |- *. naive_solver. }
    cbn [print String.append] in *. rewrite <-string_app_assoc. cbn [String.length] in Hf.
    rewrite string_length_app in Hf. cbn [String.length] in Hf.
    destruct l as [|x l]; [done|].
    pose proof (parse_members_back (x :: l) fuel rest ltac:(done) Hback ltac:(lia)) as Hb.
    change ("}" +:+ rest) with (String "}" rest).
    cbn [parse_value]. rewrite value_head_ws by done. cbv zeta in *. rewrite Hb.
    cbn [map]. rewrite concat_cons_app. by unfold print_string.
Qed.

(** Reading the text of a document gives the document back. *)
Lemma parse_print j : wf_json j → parse (print j) = Some j.
Proof.
  intros Hwf. unfold parse. rewrite <-(string_app_nil_r (print j)) at 2.
  rewrite (wf_reads_back j Hwf _ "") by (simpl; auto; lia). done.
Qed.
