(* ===== verification/JsonProps.v ===== *)
(** * What encoding/json reads

    The fuel of the parser is enough for every input, and every string it reads is
    valid UTF-8, whatever the bytes. *)

From S2P Require Import Prelude GoStd Json.
#[local] Open Scope string_scope.

(** ** Every piece read is shorter than the text it is read from *)

Lemma skip_ws_length s : String.length (skip_ws s) <= String.length s.
Proof. induction s as [|c s IH]; [done|]. simpl. destruct (is_ws c); simpl; lia. Qed.

Lemma cons_piece_some p r d rest :
  cons_piece p r = Some (d, rest) → ∃ d', r = Some (d', rest) ∧ d = p +:+ d'.
Proof. destruct r as [[d' rest']|]; [|done]. intros [= <- <-]. by exists d'. Qed.

Lemma CutPrefix_length s pre rest :
  CutPrefix s pre = Some rest → String.length s = String.length pre + String.length rest.
Proof.
  revert s. induction pre as [|c pre IH]; intros [|d s]; simpl; try done; try by intros [= <-].
  destruct (Ascii.eqb c d); [|done]. intros H%IH. lia.
Qed.

Lemma hex4_some s r rest :
  hex4 s = Some (r, rest) → (r < 65536)%N ∧ String.length s = 4 + String.length rest.
Proof.
  assert (∀ c n, hex_val c = Some n → (n < 16)%N) as Hv.
  { intros c n. destruct c as [[][][][][][][][]]; vm_compute; intros [= <-]; done. }
  destruct s as [|a [|b [|c [|d s]]]]; try done. cbn [hex4].
  destruct (hex_val a) eqn:Ea, (hex_val b) eqn:Eb, (hex_val c) eqn:Ec, (hex_val d) eqn:Ed; try done.
  apply Hv in Ea, Eb, Ec, Ed. intros [= <- <-]. split; [lia|done].
Qed.

(** ** A code point's encoding is a rune *)

Lemma byte_of_N n : (n < 256)%N → byte_of (ascii_of_N n) = n.
Proof. apply N_ascii_embedding. Qed.

Definition scalar (r : N) : Prop := (r < 1114112)%N ∧ ((55296 <=? r)%N && (r <=? 57343)%N) = false.

(** A text that is one rune. *)
Lemma one_rune s : rune_len s = Some (String.length s) → valid_utf8 s = true.
Proof.
  intros H. unfold valid_utf8. destruct s as [|c s]; [done|]. cbn [String.length valid_utf8_from].
  apply rune_len_split in H as H'. destruct H' as (_ & r & u & Hs & Heq & Hlen & _).
  rewrite H. rewrite Hs. cbn [snd]. apply (f_equal String.length) in Heq as Hl.
  rewrite string_length_app in Hl. cbn [String.length] in *. destruct u; [by destruct (String.length s)|].
  cbn in Hl. lia.
Qed.

Lemma in_range_N lo hi n : (n < 256)%N → in_range lo hi (ascii_of_N n) = ((lo <=? n) && (n <=? hi))%N.
Proof. intros Hn. unfold in_range. by rewrite byte_of_N. Qed.

(** Comparisons of [N] that arithmetic decides. *)
Ltac decide_range :=
  repeat match goal with
  | |- context [(?a <? ?b)%N] =>
      first [rewrite (proj2 (N.ltb_lt a b)) by lia | rewrite (proj2 (N.ltb_ge a b)) by lia]
  | |- context [(?a <=? ?b)%N] =>
      first [rewrite (proj2 (N.leb_le a b)) by lia | rewrite (proj2 (N.leb_gt a b)) by lia]
  end.

Lemma split64 r : ∃ q m, (r / 64 = q ∧ r mod 64 = m ∧ r = 64 * q + m ∧ m < 64)%N.
Proof. eexists _, _. split_and!; [done|done|by apply N.div_mod|by apply N.mod_lt]. Qed.

Lemma utf8_encode_valid r : scalar r → valid_utf8 (utf8_encode r) = true.
Proof.
  intros [Hr Hs]. apply andb_false_iff in Hs. rewrite N.leb_gt, N.leb_gt in Hs.
  assert (r / 4096 = r / 64 / 64 ∧ r / 262144 = r / 64 / 64 / 64)%N as [E1 E2] by (by rewrite !N.Div0.div_div).
  destruct (split64 r) as (q & k & Eq & Ek & Hq & Hk). rewrite Eq in E1, E2.
  destruct (split64 q) as (q1 & k1 & Eq1 & Ek1 & Hq1 & Hk1). rewrite Eq1 in E1, E2.
  destruct (split64 q1) as (q2 & k2 & Eq2 & Ek2 & Hq2 & Hk2). rewrite Eq2 in E2.
  apply one_rune. unfold utf8_encode. rewrite E1, E2, Eq, Ek, Ek1, Ek2. clear E1 E2 Eq Ek Eq1 Ek1 Eq2 Ek2.
  destruct (N.ltb_spec r 128); [|destruct (N.ltb_spec r 2048); [|destruct (N.ltb_spec r 65536)]];
    cbn [rune_len String.length]; rewrite ?in_range_N, ?byte_of_N by lia; decide_range; cbn [andb]; try done.
  - destruct (N.eqb_spec (224 + q1) 224), (N.eqb_spec (224 + q1) 237); try lia; by decide_range.
  - destruct (N.eqb_spec (240 + q2) 240), (N.eqb_spec (240 + q2) 244); try lia; by decide_range.
Qed.

(** ** Strings *)

Lemma piece_valid c : (byte_of c <? 128)%N = true → valid_utf8 (String c "") = true.
Proof. intros Hc. apply valid_utf8_ascii. cbn. by rewrite Hc. Qed.

Lemma surrogate_pair r r2 :
  (55296 <= r <= 56319)%N → (56320 <= r2 <= 57343)%N →
  scalar ((r - 55296) * 1024 + (r2 - 56320) + 65536)%N.
Proof. intros H1 H2. split; [lia|]. apply andb_false_iff. right. apply N.leb_gt. lia. Qed.

Lemma unescape_u_some s d rest :
  unescape_u s = Some (d, rest) → valid_utf8 d = true ∧ String.length rest < String.length s.
Proof.
  unfold unescape_u. destruct (hex4 s) as [[r s1]|] eqn:E; [|done].
  apply hex4_some in E as [Hr Hl].
  destruct ((55296 <=? r)%N && (r <=? 57343)%N) eqn:Es.
  2: { intros [= <- <-]. split; [|lia]. apply utf8_encode_valid. split; [lia|done]. }
  destruct (CutPrefix s1 "\u" ≫= hex4) as [[r2 s2]|] eqn:E2; [|intros [= <- <-]; by split; [|lia]].
  destruct (CutPrefix s1 "\u") as [s1'|] eqn:Ec; [|done]. cbn in E2.
  apply CutPrefix_length in Ec. apply hex4_some in E2 as [Hr2 Hl2]. cbn in Ec.
  destruct (_ && _ && _) eqn:Ep; intros [= <- <-]; [|by split; [|lia]]. split; [|lia].
  bool_to_prop. apply utf8_encode_valid, surrogate_pair; lia.
Qed.

Lemma unescape_some s d rest :
  Json.unescape s = Some (d, rest) → valid_utf8 d = true ∧ String.length rest < String.length s.
Proof.
  destruct s as [|c s]; [done|]. unfold Json.unescape.
  destruct (_ || _ || _) eqn:E.
  { intros [= <- <-]. split; [|simpl; lia]. apply piece_valid.
    rewrite !orb_true_iff, !N.eqb_eq in E. apply N.ltb_lt. lia. }
  repeat (case_match; [intros [= <- <-]; by split; [|simpl; lia]|]).
  case_match; [|done]. intros [? ?]%unescape_u_some. split; [done|simpl; lia].
Qed.

(** The content of a literal is valid, and is read with a byte of fuel each. *)
Lemma parse_string_some f s d rest :
  parse_string f s = Some (d, rest) → valid_utf8 d = true ∧ String.length rest < String.length s.
Proof.
  revert s d. induction f as [|f IH]; intros s d; [done|]. destruct s as [|c s]; [done|].
  cbn [parse_string]. destruct (_ =? 34)%N; [intros [= <- <-]; by split; [|simpl; lia]|].
  destruct (_ =? 92)%N.
  { destruct (Json.unescape s) as [[pc r]|] eqn:E; [|done]. apply unescape_some in E as [Hp Hl].
    intros (d' & [Hd' Hl']%IH & ->)%cons_piece_some. split; [by apply valid_utf8_app|simpl; lia]. }
  destruct (_ <? 32)%N; [done|]. destruct (byte_of c <? 128)%N eqn:E.
  { intros (d' & [Hd' Hl']%IH & ->)%cons_piece_some.
    split; [apply valid_utf8_app; [by apply piece_valid|done]|simpl; lia]. }
  destruct (rune_len (String c s)) as [n|] eqn:En.
  - apply rune_len_split in En as (Hn & r & u & -> & Hs & Hr & Hru).
    intros (d' & [Hd' Hl']%IH & ->)%cons_piece_some. rewrite Hs, string_length_app.
    split; [|lia]. apply valid_utf8_app; [|done]. apply one_rune. rewrite Hr.
    destruct (Hru "") as [H _]. by rewrite string_app_nil_r in H.
  - intros (d' & [Hd' Hl']%IH & ->)%cons_piece_some.
    split; [by apply valid_utf8_app; [by vm_compute|]|simpl; lia].
Qed.

Lemma parse_string_fuel f s :
  String.length s <= f → parse_string f s = parse_string (String.length s) s.
Proof.
  intros Hf. assert (∀ f f', String.length s <= f → String.length s <= f' →
    parse_string f s = parse_string f' s) as H; [|by apply H].
  clear f Hf. intros f. revert s. induction f as [|f IH]; intros s f' Hf Hf'.
  { destruct s; [|simpl in Hf; lia]. by destruct f'. }
  destruct s as [|c s]; [by destruct f'|]. destruct f' as [|f']; [simpl in Hf'; lia|].
  cbn [parse_string]. simpl in Hf, Hf'.
  destruct (_ =? 34)%N; [done|]. destruct (_ =? 92)%N.
  { destruct (Json.unescape s) as [[pc r]|] eqn:E; [|done]. apply unescape_some in E as [_ Hl].
    f_equal. apply IH; lia. }
  destruct (_ <? 32)%N; [done|]. destruct (_ <? 128)%N; [f_equal; apply IH; lia|].
  destruct (rune_len (String c s)) as [n|] eqn:En; [|f_equal; apply IH; lia].
  apply rune_len_split in En as (Hn & r & u & -> & Hs & Hr & _).
  apply (f_equal String.length) in Hs. rewrite string_length_app in Hs. simpl in Hs. f_equal. apply IH; lia.
Qed.

(** ** Numbers *)

Lemma span_digits_length s :
  String.length s = String.length (span_digits s).1 + String.length (span_digits s).2.
Proof.
  induction s as [|c s IH]; [done|]. cbn [span_digits]. destruct (is_digit c); [|done].
  destruct (span_digits s) as [d rest]. simpl in *. lia.
Qed.

Lemma parse_frac_length s d rest : parse_frac s = Some (d, rest) → String.length rest <= String.length s.
Proof.
  unfold parse_frac. destruct s as [|c s]; [by intros [= <- <-]|].
  pose proof (span_digits_length s). destruct (span_digits s) as [d' r]. simpl in *.
  repeat case_match; intros [= <- <-]; simpl; lia.
Qed.

Lemma parse_exp_length s d rest : parse_exp s = Some (d, rest) → String.length rest <= String.length s.
Proof.
  unfold parse_exp. destruct s as [|c s]; [by intros [= <- <-]|].
  destruct (_ || _); [|by intros [= <- <-]].
  destruct (match s with String "+" s2 => ("+", s2) | String "-" s2 => ("-", s2) | _ => ("", s) end)
    as [sign s2] eqn:E.
  assert (String.length s2 <= String.length s) as Hs by (repeat case_match; simplify_eq; simpl; lia).
  pose proof (span_digits_length s2). destruct (span_digits s2) as [d' r]. simpl in *.
  destruct (String.eqb d' ""); [done|]. intros [= <- <-]. lia.
Qed.

Lemma parse_magnitude_length s d rest :
  parse_magnitude s = Some (d, rest) → String.length rest < String.length s.
Proof.
  unfold parse_magnitude.
  destruct (match s with String "0" s2 => ("0", s2) | _ => span_digits s end) as [d0 s2] eqn:E.
  assert (String.length s = String.length d0 + String.length s2) as Hl.
  { pose proof (span_digits_length s) as Hl. destruct (span_digits s) as [d1 s1]. simpl in Hl.
    clear -E Hl. repeat case_match; simplify_eq; simpl in *; lia. }
  destruct (String.eqb_spec d0 "") as [|Hd]; [done|].
  destruct (parse_frac s2) as [[fr s3]|] eqn:E3; [|done]. apply parse_frac_length in E3.
  intros (d' & He & _)%cons_piece_some. apply parse_exp_length in He.
  destruct d0; [done|]. simpl in Hl. lia.
Qed.

Lemma parse_number_length s d rest :
  parse_number s = Some (d, rest) → String.length rest < String.length s.
Proof.
  assert (∀ t d, parse_magnitude t = Some (d, rest) → String.length t <= String.length s →
    String.length rest < String.length s) as Hgo by (intros t d0 H%parse_magnitude_length; lia).
  unfold parse_number. intros H. repeat case_match; simplify_eq; try (by eapply Hgo; [exact H|]).
  apply cons_piece_some in H as (d' & H & _). eapply Hgo; [exact H|simpl; lia].
Qed.

(** ** Values *)

(** Every string of a value, and every member's name, is valid UTF-8. *)
#[warnings="-register-all"]
Inductive utf8_json : json → Prop :=
  | utf8_null : utf8_json JNull
  | utf8_bool b : utf8_json (JBool b)
  | utf8_num lit : utf8_json (JNum lit)
  | utf8_str s : valid_utf8 s = true → utf8_json (JStr s)
  | utf8_arr l : Forall utf8_json l → utf8_json (JArr l)
  | utf8_obj l : Forall (λ kv, valid_utf8 kv.1 = true ∧ utf8_json kv.2) l → utf8_json (JObj l).

Definition utf8_member (kv : string * json) : Prop := valid_utf8 kv.1 = true ∧ utf8_json kv.2.

Lemma skip_ws_cons s c t : skip_ws s = String c t → S (String.length t) <= String.length s.
Proof. intros H. pose proof (skip_ws_length s) as Hl. rewrite H in Hl. simpl in Hl. lia. Qed.

Lemma on_bracket {A} t (a : string → A) b :
  (∃ r, t = String "]" r ∧ match t with String "]" r => a r | _ => b end = a r) ∨
  match t with String "]" r => a r | _ => b end = b.
Proof. destruct t as [|[[][][][][][][][]] r]; try (by right). left. by exists r. Qed.

Lemma on_brace {A} t (a : string → A) b :
  (∃ r, t = String "}" r ∧ match t with String "}" r => a r | _ => b end = a r) ∨
  match t with String "}" r => a r | _ => b end = b.
Proof. destruct t as [|[[][][][][][][][]] r]; try (by right). left. by exists r. Qed.

(** What is read, and that something is consumed. *)
Definition reads {A} (P : A → Prop) (s : string) (r : option (A * string)) : Prop :=
  ∀ x rest, r = Some (x, rest) → P x ∧ String.length rest < String.length s.

Lemma parse_some f : ∀ s,
  reads utf8_json s (parse_value f s) ∧ reads (Forall utf8_json) s (parse_elems f s) ∧
  reads (Forall utf8_member) s (parse_members f s).
Proof.
  induction f as [|f IH]; intros s; [by split_and!|]. split_and!; intros x rest.
  - cbn [parse_value]. destruct (skip_ws s) as [|c s'] eqn:Es; [done|]. apply skip_ws_cons in Es.
    pose proof (skip_ws_length s') as Hws.
    destruct (IH s') as (_ & He & Hm).
    destruct (_ =? 34)%N.
    { destruct (parse_string _ _) as [[str r]|] eqn:E; [|done]. apply parse_string_some in E as [Hv Hl].
      intros [= <- <-]. split; [by constructor|lia]. }
    destruct (_ =? 91)%N.
    { destruct (on_bracket (skip_ws s') (λ r, Some (JArr [], r))
        (match parse_elems f s' with Some (l, rest) => Some (JArr l, rest) | None => None end))
        as [(r & Er & ->)| ->].
      - rewrite Er in Hws. simpl in Hws. intros [= <- <-]. split; [by repeat constructor|lia].
      - destruct (parse_elems f s') as [[l r']|]; [|done]. intros [= <- <-].
        destruct (He l r' eq_refl). split; [by constructor|lia]. }
    destruct (_ =? 123)%N.
    { destruct (on_brace (skip_ws s') (λ r, Some (JObj [], r))
        (match parse_members f s' with Some (l, rest) => Some (JObj l, rest) | None => None end))
        as [(r & Er & ->)| ->].
      - rewrite Er in Hws. simpl in Hws. intros [= <- <-]. split; [by repeat constructor|lia].
      - destruct (parse_members f s') as [[l r']|]; [|done]. intros [= <- <-].
        destruct (Hm l r' eq_refl). split; [by constructor|lia]. }
    destruct (CutPrefix _ "null") eqn:E1.
    { apply CutPrefix_length in E1. simpl in E1. intros [= <- <-]. split; [constructor|lia]. }
    destruct (CutPrefix _ "true") eqn:E2.
    { apply CutPrefix_length in E2. simpl in E2. intros [= <- <-]. split; [constructor|lia]. }
    destruct (CutPrefix _ "false") eqn:E3.
    { apply CutPrefix_length in E3. simpl in E3. intros [= <- <-]. split; [constructor|lia]. }
    destruct (parse_number _) as [[lit r]|] eqn:E4; [|done]. apply parse_number_length in E4. simpl in E4.
    intros [= <- <-]. split; [constructor|lia].
  - cbn [parse_elems]. destruct (IH s) as (Hval & _). destruct (parse_value f s) as [[v r]|]; [|done].
    destruct (Hval v r eq_refl) as [Hv Hl]. destruct (skip_ws r) as [|c r'] eqn:Er; [done|].
    apply skip_ws_cons in Er. destruct (IH r') as (_ & He & _). intros H.
    assert ((∃ l, parse_elems f r' = Some (l, rest) ∧ x = v :: l) ∨ x = [v] ∧ rest = r') as [(l & E & ->)|[-> ->]].
    { repeat case_match; simplify_eq; [by right|left; by eexists]. }
    + destruct (He l rest E). split; [by constructor|lia].
    + split; [by constructor|lia].
  - cbn [parse_members]. destruct (skip_ws s) as [|q s'] eqn:Es; [done|]. apply skip_ws_cons in Es.
    destruct (_ =? 34)%N; [|done]. destruct (parse_string _ _) as [[k s2]|] eqn:Ek; [|done].
    apply parse_string_some in Ek as [Hk Hkl]. destruct (skip_ws s2) as [|c s3] eqn:E2; [done|].
    apply skip_ws_cons in E2. destruct (IH s3) as (Hval & _).
    destruct (parse_value f s3) as [[v r]|]; [|by repeat case_match].
    destruct (Hval v r eq_refl) as [Hv Hl]. destruct (skip_ws r) as [|c' r'] eqn:Er; [by repeat case_match|].
    apply skip_ws_cons in Er. destruct (IH r') as (_ & _ & Hm). intros H.
    assert ((∃ l, parse_members f r' = Some (l, rest) ∧ x = (k, v) :: l) ∨ x = [(k, v)] ∧ rest = r')
      as [(l & E & ->)|[-> ->]].
    { repeat case_match; simplify_eq; [by right|left; by eexists]. }
    + destruct (Hm l rest E). split; [by constructor|lia].
    + split; [by repeat constructor|lia].
Qed.

Lemma parse_utf8 s j : parse s = Some j → utf8_json j.
Proof.
  unfold parse. destruct (parse_value _ s) as [[v rest]|] eqn:E; [|done].
  case_match; [|done]. intros [= <-]. by destruct (proj1 (parse_some _ s) v rest E).
Qed.

(** ** The fuel *)

Lemma parse_stable f : ∀ s f', f <= f' →
  (2 * String.length s < f → parse_value f s = parse_value f' s) ∧
  (S (2 * String.length s) < f → parse_elems f s = parse_elems f' s ∧ parse_members f s = parse_members f' s).
Proof.
  induction f as [|f IH]; intros s f' Hff; [split; lia|]. destruct f' as [|f']; [lia|].
  apply le_S_n in Hff. split; [|intros Hf; split].
  - intros Hf. cbn [parse_value]. destruct (skip_ws s) as [|c s'] eqn:Es; [done|]. apply skip_ws_cons in Es.
    destruct (IH s' f' Hff) as [_ H]. destruct H as [-> ->]; [lia|done].
  - cbn [parse_elems]. destruct (IH s f' Hff) as [Hval _]. rewrite Hval by lia.
    destruct (parse_value f' s) as [[v r]|] eqn:Ev; [|done].
    destruct (proj1 (parse_some f' s) v r Ev) as [_ Hl].
    destruct (skip_ws r) as [|c r'] eqn:Er; [done|]. apply skip_ws_cons in Er.
    destruct (IH r' f' Hff) as [_ H]. destruct H as [-> _]; [lia|done].
  - cbn [parse_members]. destruct (skip_ws s) as [|q s'] eqn:Es; [done|]. apply skip_ws_cons in Es.
    destruct (_ =? 34)%N; [|done]. destruct (parse_string _ _) as [[k s2]|] eqn:Ek; [|done].
    apply parse_string_some in Ek as [_ Hkl]. destruct (skip_ws s2) as [|c s3] eqn:E2; [done|].
    apply skip_ws_cons in E2. destruct (IH s3 f' Hff) as [Hval _]. rewrite Hval by lia.
    destruct (parse_value f' s3) as [[v r]|] eqn:Ev; [|done].
    destruct (proj1 (parse_some f' s3) v r Ev) as [_ Hl].
    destruct (skip_ws r) as [|c' r'] eqn:Er; [done|]. apply skip_ws_cons in Er.
    destruct (IH r' f' Hff) as [_ H]. destruct H as [_ ->]; [lia|done].
Qed.

(** The parser never runs out: more fuel than [parse] gives it changes nothing. *)
Lemma parse_fuel f s :
  2 * String.length s < f → parse_value f s = parse_value (S (2 * String.length s)) s.
Proof.
  intros Hf. symmetry. by apply (parse_stable (S (2 * String.length s)) s f); lia.
Qed.
