(* ===== verification/Store.v ===== *)
(** * The storage contract (ledger/store/store.go) and programs over it

    [prog] is a program that talks to the world only through the store
    interface and the clock; the ledger's operations are [prog]s. The contract a
    backend offers is [op_spec]: what each call may answer and do to the stored
    objects, with [faulty := true] also a call that fails, before or after it
    took effect. [wp] gives a [prog] its meaning against any such contract;
    [run] executes it on a concrete backend with a list of injected faults, and
    [run_wp] connects the two.

    A crash of the process is the case where every call from some point on fails
    before taking effect, so what holds of the objects under [faulty := true]
    holds of what a crash leaves behind. *)

From S2P Require Import Prelude.

(** ** Versions, operations and their answers *)

Abbreviation Version := string (only parsing).
Definition NoVersion : Version := "".

Inductive op : Type :=
  | OGet (key : string)
  | OCreate (key : string) (data : bytes)
  | OSwap (key : string) (data : bytes) (expect : Version)
  | ODelete (key : string)
  | ONow.

#[export] Instance op_eq_dec : EqDecision op.
Proof. solve_decision. Defined.

Definition resp (o : op) : Type :=
  match o with
  | OGet _ => result (bytes * Version)
  | OCreate _ _ | OSwap _ _ _ => result Version
  | ODelete _ => result unit
  | ONow => Z
  end.

(** ** Programs *)

Inductive prog (A : Type) : Type :=
  | Ret (a : A)
  | Do (o : op) (k : resp o → prog A)
  | OutOfFuel.
Arguments Ret {A} a.
Arguments Do {A} o k.
Arguments OutOfFuel {A}.

Fixpoint prog_bind {A B} (f : A → prog B) (p : prog A) : prog B :=
  match p with
  | Ret a => f a
  | Do o k => Do o (λ r, prog_bind f (k r))
  | OutOfFuel => OutOfFuel
  end.

#[export] Instance prog_ret : MRet prog := @Ret.
#[export] Instance prog_mbind : MBind prog := @prog_bind.

Definition store_Get (key : string) : prog (result (bytes * Version)) := Do (OGet key) Ret.
Definition store_Create (key : string) (data : bytes) : prog (result Version) :=
  Do (OCreate key data) Ret.
Definition store_Swap (key : string) (data : bytes) (expect : Version) : prog (result Version) :=
  Do (OSwap key data expect) Ret.
Definition store_Delete (key : string) : prog (result unit) := Do (ODelete key) Ret.
(** [clock().UnixNano()] *)
Definition now : prog Z := Do ONow Ret.

(** ** The contract *)

(** The objects of a store: data and version by key. *)
Abbreviation objs := (gmap string (bytes * Version)).

(** A backend is a leaf package: its errors wrap the store's own sentinels, its
    own or a context error, never one of the ledger's. *)
Definition backend_sentinel (s : sentinel) : bool :=
  match s with
  | ErrNotExist | ErrExist | ErrVersionMismatch | ErrInvalidKey | Canceled => true
  | _ => false
  end.
Definition backend_error (e : error) : bool := forallb backend_sentinel e.

(** [Swap]'s condition: the version stored is the one expected, or none is and
    none is stored. *)
Definition swap_allowed (m : objs) (k : string) (expect : Version) : Prop :=
  match m !! k with
  | Some (_, v) => v = expect
  | None => expect = NoVersion
  end.

Definition stored (m : objs) (k : string) (d : bytes) (m' : objs) (v : Version) : Prop :=
  v ≠ NoVersion ∧ m' = <[k := (d, v)]> m.

Definition op_spec (faulty : bool) (o : op) (m : objs) : resp o → objs → Prop :=
  match o with
  | OGet k => λ r m', m' = m ∧
      match r with
      | Ok dv => m !! k = Some dv
      | Err e => backend_error e = true ∧
          if errors_Is e ErrNotExist then m !! k = None else faulty = true
      end
  | OCreate k d => λ r m',
      match r with
      | Ok v => m !! k = None ∧ stored m k d m' v
      | Err e => backend_error e = true ∧
          (m' = m ∨ faulty = true ∧ m !! k = None ∧ ∃ v, stored m k d m' v) ∧
          if errors_Is e ErrExist then is_Some (m' !! k) else faulty = true
      end
  | OSwap k d expect => λ r m',
      match r with
      | Ok v => swap_allowed m k expect ∧ stored m k d m' v
      | Err e => backend_error e = true ∧
          (m' = m ∧ ¬ swap_allowed m k expect ∧
             (errors_Is e ErrVersionMismatch || errors_Is e ErrNotExist = true) ∨
           faulty = true ∧ (m' = m ∨ swap_allowed m k expect ∧ ∃ v, stored m k d m' v))
      end
  | ODelete k => λ r m',
      match r with
      | Ok _ => m' = delete k m
      | Err e => backend_error e = true ∧ faulty = true ∧ (m' = m ∨ m' = delete k m)
      end
  | ONow => λ t m', m' = m ∧ is_i64 t
  end.

(** ** Weakest preconditions *)

(** How the world answers an operation. *)
Abbreviation env := (∀ o : op, objs → resp o → objs → Prop).

Fixpoint wp {A} (E : env) (p : prog A) (Q : A → objs → Prop) (m : objs) : Prop :=
  match p with
  | Ret a => Q a m
  | Do o k => ∀ r m', E o m r m' → wp E (k r) Q m'
  | OutOfFuel => False
  end.

Lemma wp_bind {A B} E (p : prog A) (f : A → prog B) Q m :
  wp E p (λ a m', wp E (f a) Q m') m → wp E (p ≫= f) Q m.
Proof.
  unfold mbind, prog_mbind. revert m. induction p as [a|o k IH|]; simpl; intros m H; auto.
Qed.

Lemma wp_bind_inv {A B} E (p : prog A) (f : A → prog B) Q m :
  wp E (p ≫= f) Q m → wp E p (λ a m', wp E (f a) Q m') m.
Proof.
  unfold mbind, prog_mbind. revert m. induction p as [a|o k IH|]; simpl; intros m H; auto.
Qed.

Lemma wp_mono {A} E (p : prog A) (Q R : A → objs → Prop) m :
  (∀ a m', Q a m' → R a m') → wp E p Q m → wp E p R m.
Proof.
  intros HQR. revert m. induction p as [a|o k IH|]; simpl; intros m H; auto.
Qed.

Lemma wp_and {A} E (p : prog A) (Q R : A → objs → Prop) m :
  wp E p Q m → wp E p R m → wp E p (λ a m', Q a m' ∧ R a m') m.
Proof. revert m. induction p as [a|o k IH|]; simpl; intros m H1 H2; auto. Qed.

(** A contract with fewer behaviours satisfies more. *)
Lemma wp_env {A} (E E' : env) (p : prog A) Q m :
  (∀ o m r m', E' o m r m' → E o m r m') → wp E p Q m → wp E' p Q m.
Proof. intros HE. revert m. induction p as [a|o k IH|]; simpl; intros m H; eauto. Qed.

Lemma op_spec_faulty o m r m' : op_spec false o m r m' → op_spec true o m r m'.
Proof.
  unfold op_spec. destruct o; try destruct r; intros; repeat case_match; naive_solver.
Qed.

Lemma wp_reliable {A} (p : prog A) Q m :
  wp (op_spec true) p Q m → wp (op_spec false) p Q m.
Proof. apply wp_env, op_spec_faulty. Qed.

(** The world whose clock reads no time before 1970. *)
Definition clock_after_1970 (E : env) : env := λ o m r m', E o m r m' ∧
  match o return resp o → Prop with ONow => λ t, (0 <= t)%Z | _ => λ _, True end r.

Lemma wp_clock {A} E (p : prog A) Q m : wp E p Q m → wp (clock_after_1970 E) p Q m.
Proof. apply wp_env. by intros o m1 r m2 [? _]. Qed.

(** One rule per operation, its cases those of [op_spec]. *)
Lemma wp_Get fl k (Q : result (bytes * Version) → objs → Prop) m :
  (∀ d v, m !! k = Some (d, v) → Q (Ok (d, v)) m) →
  (∀ e, errors_Is e ErrNotExist = true → m !! k = None → Q (Err e) m) →
  (∀ e, fl = true → backend_error e = true → errors_Is e ErrNotExist = false → Q (Err e) m) →
  wp (op_spec fl) (store_Get k) Q m.
Proof.
  intros HOk HNone HErr [[d v]|e] m' [-> H]; simpl in *; [by apply HOk|].
  destruct H as [He H]. destruct (errors_Is e ErrNotExist) eqn:E; auto.
Qed.

Lemma wp_Create fl k d (Q : result Version → objs → Prop) m :
  (∀ v, v ≠ NoVersion → m !! k = None → Q (Ok v) (<[k := (d, v)]> m)) →
  (∀ e, backend_error e = true → errors_Is e ErrExist = true → is_Some (m !! k) → Q (Err e) m) →
  (∀ e v, fl = true → backend_error e = true → v ≠ NoVersion → m !! k = None →
     Q (Err e) (<[k := (d, v)]> m)) →
  (∀ e, fl = true → backend_error e = true → errors_Is e ErrExist = false → Q (Err e) m) →
  wp (op_spec fl) (store_Create k d) Q m.
Proof.
  intros HOk HExist HAfter HBefore [v|e] m' H; simpl in *.
  - destruct H as (? & ? & ->). by apply HOk.
  - destruct H as (He & [-> | (-> & ? & v & ? & ->)] & Hx); [|by apply HAfter].
    destruct (errors_Is e ErrExist) eqn:E; [by apply HExist|by apply HBefore].
Qed.

Lemma wp_Swap fl k d expect (Q : result Version → objs → Prop) m :
  (∀ v, v ≠ NoVersion → swap_allowed m k expect → Q (Ok v) (<[k := (d, v)]> m)) →
  (∀ e, backend_error e = true → ¬ swap_allowed m k expect →
     errors_Is e ErrVersionMismatch || errors_Is e ErrNotExist = true → Q (Err e) m) →
  (∀ e v, fl = true → backend_error e = true → v ≠ NoVersion → swap_allowed m k expect →
     Q (Err e) (<[k := (d, v)]> m)) →
  (∀ e, fl = true → backend_error e = true → Q (Err e) m) →
  wp (op_spec fl) (store_Swap k d expect) Q m.
Proof.
  intros HOk HNo HAfter HBefore [v|e] m' H; simpl in *.
  - destruct H as (? & ? & ->). by apply HOk.
  - destruct H as (He & [(-> & ? & ?) | (-> & [-> | (? & v & ? & ->)])]); auto.
Qed.

Lemma wp_Delete fl k (Q : result unit → objs → Prop) m :
  Q (Ok tt) (delete k m) →
  (∀ e, fl = true → backend_error e = true → Q (Err e) (delete k m)) →
  (∀ e, fl = true → backend_error e = true → Q (Err e) m) →
  wp (op_spec fl) (store_Delete k) Q m.
Proof.
  intros HOk HAfter HBefore [[]|e] m' H; simpl in *; [by subst m'|].
  destruct H as (He & -> & [-> | ->]); auto.
Qed.

Lemma wp_now fl (Q : Z → objs → Prop) m :
  (∀ t, is_i64 t → Q t m) → wp (op_spec fl) now Q m.
Proof. intros H t m' [-> Ht]. by apply H. Qed.

(** Every key a program writes or deletes satisfies [P], and what it returns [Q],
    however the store answers. *)
Fixpoint writes {A} (P : string → Prop) (Q : A → Prop) (p : prog A) : Prop :=
  match p with
  | Ret a => Q a
  | OutOfFuel => True
  | Do o k =>
      match o with
      | OCreate key _ | OSwap key _ _ | ODelete key => P key
      | OGet _ | ONow => True
      end ∧ ∀ r, writes P Q (k r)
  end.

Lemma writes_bind {A B} P Q R (p : prog A) (f : A → prog B) :
  writes P Q p → (∀ a, Q a → writes P R (f a)) → writes P R (p ≫= f).
Proof.
  unfold mbind, prog_mbind. intros Hp Hf.
  induction p as [a|o k IH|]; simpl in *; [by apply Hf| |done]. destruct Hp. split; auto.
Qed.

Lemma writes_mono {A} P (Q R : A → Prop) (p : prog A) :
  (∀ a, Q a → R a) → writes P Q p → writes P R p.
Proof. intros HQR. induction p as [a|o k IH|]; simpl; [auto| |done]. intros []. split; auto. Qed.

(** One operation leaves every key but its own alone. *)
Lemma op_spec_frame fl o m r m' k :
  op_spec fl o m r m' →
  match o with
  | OCreate key _ | OSwap key _ _ | ODelete key => key ≠ k
  | OGet _ | ONow => True
  end → m' !! k = m !! k.
Proof.
  unfold op_spec, stored. destruct o as [k1|k1 d|k1 d v|k1|]; intros Hs Hk.
  - by destruct Hs as [-> _].
  - destruct r; [destruct Hs as (_ & _ & ->)|destruct Hs as (_ & [-> | (_ & _ & v & _ & ->)] & _)];
      by rewrite ?lookup_insert_ne.
  - destruct r; [destruct Hs as (_ & _ & ->)
      |destruct Hs as (_ & [[-> _] | (_ & [-> | (_ & w & _ & ->)])])];
      by rewrite ?lookup_insert_ne.
  - destruct r; [subst m'|destruct Hs as (_ & _ & [-> | ->])]; by rewrite ?lookup_delete_ne.
  - by destruct Hs as [-> _].
Qed.

(** What a program does not write it leaves alone. *)
Lemma wp_frame {A} fl P R (p : prog A) Q m :
  writes P R p → wp (op_spec fl) p Q m →
  wp (op_spec fl) p (λ a m', Q a m' ∧ R a ∧ ∀ k, ¬ P k → m' !! k = m !! k) m.
Proof.
  intros Hp Hw. assert (∀ m0 : objs, (∀ k, ¬ P k → m !! k = m0 !! k) →
    wp (op_spec fl) p Q m →
    wp (op_spec fl) p (λ a m', Q a m' ∧ R a ∧ ∀ k, ¬ P k → m' !! k = m0 !! k) m) as H; [|by apply H].
  clear Hw. revert m Hp. induction p as [a|o k IH|]; simpl; intros m Hp m0 Hm Hw; auto.
  destruct Hp as [Ho Hk]. intros r m' Hs. apply IH; auto.
  intros key Hkey. rewrite (op_spec_frame _ _ _ _ _ key Hs); [auto|].
  destruct o; try done; by intros ->.
Qed.

(** ** Partial correctness

    What holds of every result, however much fuel there is. *)

Fixpoint wlp {A} (E : env) (p : prog A) (Q : A → objs → Prop) (m : objs) : Prop :=
  match p with
  | Ret a => Q a m
  | Do o k => ∀ r m', E o m r m' → wlp E (k r) Q m'
  | OutOfFuel => True
  end.

Lemma wlp_bind {A B} E (p : prog A) (f : A → prog B) Q m :
  wlp E p (λ a m', wlp E (f a) Q m') m → wlp E (p ≫= f) Q m.
Proof.
  unfold mbind, prog_mbind. revert m. induction p as [a|o k IH|]; simpl; intros m H; auto.
Qed.

Lemma wlp_mono {A} E (p : prog A) (Q R : A → objs → Prop) m :
  (∀ a m', Q a m' → R a m') → wlp E p Q m → wlp E p R m.
Proof. intros HQR. revert m. induction p as [a|o k IH|]; simpl; intros m H; auto. Qed.

Lemma wlp_of_wp {A} E (p : prog A) Q m : wp E p Q m → wlp E p Q m.
Proof. revert m. induction p as [a|o k IH|]; simpl; intros m H; auto. Qed.

Lemma wlp_and {A} E (p : prog A) (Q R : A → objs → Prop) m :
  wlp E p Q m → wlp E p R m → wlp E p (λ a m', Q a m' ∧ R a m') m.
Proof. revert m. induction p as [a|o k IH|]; simpl; intros m H1 H2; auto. Qed.

(** Total correctness and what holds of every result. *)
Lemma wp_wlp {A} E (p : prog A) (Q R : A → objs → Prop) m :
  wp E p Q m → wlp E p R m → wp E p (λ a m', Q a m' ∧ R a m') m.
Proof. revert m. induction p as [a|o k IH|]; simpl; intros m H1 H2; auto. Qed.

Lemma wlp_writes {A} fl P R (p : prog A) m :
  writes P R p → wlp (op_spec fl) p (λ a m', R a ∧ ∀ k, ¬ P k → m' !! k = m !! k) m.
Proof.
  assert (∀ m0 : objs, (∀ k, ¬ P k → m !! k = m0 !! k) → writes P R p →
    wlp (op_spec fl) p (λ a m', R a ∧ ∀ k, ¬ P k → m' !! k = m0 !! k) m) as H; [|by apply H].
  revert m. induction p as [a|o k IH|]; simpl; intros m m0 Hm Hp; [by split| |done].
  destruct Hp as [Ho Hk]. intros r m' Hs. apply IH; [|done].
  intros key Hkey. rewrite (op_spec_frame _ _ _ _ _ key Hs); [auto|].
  destruct o; try done; by intros ->.
Qed.

(** Every key a program overwrites or deletes satisfies [P], and what it returns
    [Q]; what it creates is free. *)
Fixpoint alters {A} (P : string → Prop) (Q : A → Prop) (p : prog A) : Prop :=
  match p with
  | Ret a => Q a
  | OutOfFuel => True
  | Do o k =>
      match o with
      | OSwap key _ _ | ODelete key => P key
      | OGet _ | OCreate _ _ | ONow => True
      end ∧ ∀ r, alters P Q (k r)
  end.

Lemma alters_bind {A B} P Q R (p : prog A) (f : A → prog B) :
  alters P Q p → (∀ a, Q a → alters P R (f a)) → alters P R (p ≫= f).
Proof.
  unfold mbind, prog_mbind. intros Hp Hf.
  induction p as [a|o k IH|]; simpl in *; [by apply Hf| |done]. destruct Hp. split; auto.
Qed.

Lemma writes_alters {A} P (Q : A → Prop) (p : prog A) : writes P Q p → alters P Q p.
Proof.
  induction p as [a|o k IH|]; simpl; [done| |done]. intros [Ho Hk]. split; [by destruct o|auto].
Qed.

(** A stored object the program neither overwrites nor deletes stays as it is. *)
Lemma wlp_alters {A} fl P R (p : prog A) m :
  alters P R p →
  wlp (op_spec fl) p (λ a m', R a ∧ ∀ k x, ¬ P k → m !! k = Some x → m' !! k = Some x) m.
Proof.
  intros Hp. assert (∀ m0 : objs, (∀ k x, ¬ P k → m0 !! k = Some x → m !! k = Some x) →
    wlp (op_spec fl) p (λ a m', R a ∧ ∀ k x, ¬ P k → m0 !! k = Some x → m' !! k = Some x) m) as H;
    [|by apply H].
  revert m Hp. induction p as [a|o k IH|]; simpl; intros m Hp m0 Hm; [by split| |done].
  destruct Hp as [Ho Hk]. intros r m' Hs. apply IH; [done|]. intros key x Hkey Hx. specialize (Hm _ _ Hkey Hx).
  assert ((∃ d, o = OCreate key d) ∨
    match o with
    | OCreate c _ | OSwap c _ _ | ODelete c => c ≠ key
    | OGet _ | ONow => True
    end) as [[d ->]|Hne].
  { destruct o as [|c d|c d v|c|]; try (by right).
    - destruct (decide (c = key)) as [->|]; [left; by exists d|by right].
    - right. by intros ->.
    - right. by intros ->. }
  - unfold op_spec, stored in Hs.
    destruct r as [v|er]; [destruct Hs as [? _]; congruence|].
    destruct Hs as (_ & [-> | (_ & ? & _)] & _); [done|congruence].
  - by rewrite (op_spec_frame _ _ _ _ _ key Hs Hne).
Qed.

(** ** Backends

    What a backend implements ([Store]) and what the ledger relies on
    ([StoreLaws]). [ctx] is what [ctx.Err()] returns. *)

Class Store (St : Type) := {
  Get : option error → St → string → result (bytes * Version) * St;
  Create : option error → St → string → bytes → result Version * St;
  Swap : option error → St → string → bytes → Version → result Version * St;
  Delete : option error → St → string → result unit * St;
}.

Definition do_op `{Store St} (ctx : option error) (now : Z) (o : op) (s : St) : resp o * St :=
  match o with
  | OGet k => Get ctx s k
  | OCreate k d => Create ctx s k d
  | OSwap k d v => Swap ctx s k d v
  | ODelete k => Delete ctx s k
  | ONow => (now, s)
  end.

Class StoreLaws (St : Type) `{Store St} := {
  view : St → objs;
  store_ok : St → Prop;
  store_sound s o now : store_ok s → is_i64 now →
    store_ok (do_op None now o s).2 ∧
    op_spec false o (view s) (do_op None now o s).1 (view (do_op None now o s).2);
  store_canceled s o now e : store_ok s → is_i64 now → o ≠ ONow →
    do_op (Some e) now o s =
      (match o return resp o with ONow => now | _ => Err e end, s);
}.

(** ** Execution with injected faults *)

Inductive fault : Type :=
  | NoFault
  | FailBefore (e : error)
  | FailAfter (e : error).

(** The errors a fault may report: none of the contract's own answers. *)
Definition opaque_error (e : error) : bool :=
  backend_error e &&
  negb (errors_Is e ErrNotExist || errors_Is e ErrExist || errors_Is e ErrVersionMismatch).

Definition fault_ok (f : fault) : bool :=
  match f with NoFault => true | FailBefore e | FailAfter e => opaque_error e end.

Record world (St : Type) := mkWorld {
  w_store : St;
  (** the readings of the clock still to come; the last one repeats *)
  w_clock : list Z;
  (** the fate of the store calls still to come; the rest succeed *)
  w_faults : list fault;
}.
Arguments mkWorld {St} _ _ _.
Arguments w_store {St} _.
Arguments w_clock {St} _.
Arguments w_faults {St} _.

Definition next_now (clock : list Z) : Z * list Z :=
  match clock with
  | [] => (0%Z, [])
  | [t] => (t, [t])
  | t :: rest => (t, rest)
  end.

Definition set_resp (o : op) (e : error) (r : resp o) : resp o :=
  match o return resp o → resp o with
  | OGet _ | OCreate _ _ | OSwap _ _ _ | ODelete _ => λ _, Err e
  | ONow => λ t, t
  end r.

Definition world_step `{Store St} (o : op) (w : world St) : resp o * world St :=
  match o return resp o * world St with
  | ONow =>
      let '(t, clock) := next_now (w_clock w) in (t, mkWorld (w_store w) clock (w_faults w))
  | o =>
      let '(f, faults) := match w_faults w with [] => (NoFault, []) | f :: fs => (f, fs) end in
      match f with
      | NoFault =>
          let '(r, s) := do_op None 0 o (w_store w) in (r, mkWorld s (w_clock w) faults)
      | FailBefore e =>
          let '(r, s) := do_op (Some e) 0 o (w_store w) in (r, mkWorld s (w_clock w) faults)
      | FailAfter e =>
          let '(r, s) := do_op None 0 o (w_store w) in
          (set_resp o e r, mkWorld s (w_clock w) faults)
      end
  end.

Fixpoint run `{Store St} {A} (p : prog A) (w : world St) : option (A * world St) :=
  match p with
  | Ret a => Some (a, w)
  | Do o k => let '(r, w') := world_step o w in run (k r) w'
  | OutOfFuel => None
  end.

Section RunSound.
Context {St : Type} `{!Store St, !StoreLaws St}.

Definition world_ok (w : world St) : Prop :=
  store_ok (w_store w) ∧ Forall is_i64 (w_clock w) ∧ forallb fault_ok (w_faults w) = true.

Lemma next_now_ok clock :
  Forall is_i64 clock → is_i64 (next_now clock).1 ∧ Forall is_i64 (next_now clock).2.
Proof.
  intros H. destruct H as [|t clock Ht H]; simpl; [split; [by vm_compute|done]|].
  destruct H; simpl; auto.
Qed.

Lemma opaque_error_spec e :
  opaque_error e = true →
  backend_error e = true ∧ errors_Is e ErrNotExist = false ∧ errors_Is e ErrExist = false ∧
  errors_Is e ErrVersionMismatch = false.
Proof. unfold opaque_error. intros. by bool_to_prop. Qed.

Lemma faulty_after o (r : resp o) m m' e :
  opaque_error e = true → op_spec true o m r m' → op_spec true o m (set_resp o e r) m'.
Proof.
  intros (He & H1 & H2 & H3)%opaque_error_spec. destruct o; simpl; try done.
  - rewrite H1. by intros [-> _].
  - rewrite H2. destruct r; naive_solver.
  - destruct r; naive_solver.
  - destruct r; naive_solver.
Qed.

Lemma world_step_sound o w :
  world_ok w →
  world_ok (world_step o w).2 ∧
  op_spec true o (view (w_store w)) (world_step o w).1 (view (w_store (world_step o w).2)).
Proof.
  intros (Hs & Hc & Hf). destruct w as [s clock faults]; simpl in *.
  assert (is_i64 0) as H0 by by vm_compute.
  destruct (decide (o = ONow)) as [->|Hne].
  { unfold world_step, world_ok. pose proof (next_now_ok clock Hc). simpl.
    destruct (next_now clock) as [t c]; simpl in *. destruct_and?. done. }
  pose proof (store_sound s o 0 Hs H0) as [Hok Hspec].
  assert (∃ f fs, match faults with [] => (NoFault, []) | f :: fs => (f, fs) end = (f, fs) ∧
    fault_ok f = true ∧ forallb fault_ok fs = true) as (f & fs & Ef & Hfok & Hfs).
  { destruct faults as [|f fs]; [by eexists _, _|]. simpl in Hf. apply andb_prop in Hf as [??].
    by eexists _, _. }
  assert (world_step o (mkWorld s clock faults) =
    match f with
    | NoFault => let '(r, s') := do_op None 0 o s in (r, mkWorld s' clock fs)
    | FailBefore e => let '(r, s') := do_op (Some e) 0 o s in (r, mkWorld s' clock fs)
    | FailAfter e => let '(r, s') := do_op None 0 o s in (set_resp o e r, mkWorld s' clock fs)
    end) as ->.
  { unfold world_step. simpl. rewrite Ef. by destruct o. }
  destruct f as [|e|e].
  - destruct (do_op None 0 o s); simpl in *. split; [done|]. by apply op_spec_faulty.
  - rewrite store_canceled by done. split; [done|]. simpl in *.
    apply opaque_error_spec in Hfok as (He & H1 & H2 & H3).
    destruct o; simpl; rewrite ?H1, ?H2; naive_solver.
  - destruct (do_op None 0 o s); simpl in *. split; [done|]. by apply faulty_after, op_spec_faulty.
Qed.

(** A world in which no call fails. *)
Definition reliable (w : world St) : Prop := world_ok w ∧ w_faults w = [].

Lemma world_step_reliable o w :
  reliable w →
  reliable (world_step o w).2 ∧
  op_spec false o (view (w_store w)) (world_step o w).1 (view (w_store (world_step o w).2)).
Proof.
  intros [(Hs & Hc & Hf) Hnone]. destruct w as [s clock faults]; simpl in *. subst faults.
  assert (is_i64 0) as H0 by by vm_compute.
  destruct (decide (o = ONow)) as [->|Hne].
  { unfold world_step, reliable, world_ok. pose proof (next_now_ok clock Hc). simpl.
    destruct (next_now clock) as [t c]; simpl in *. destruct_and?. done. }
  pose proof (store_sound s o 0 Hs H0) as [Hok Hspec].
  assert (world_step o (mkWorld s clock []) =
    let '(r, s') := do_op None 0 o s in (r, mkWorld s' clock [])) as -> by by destruct o.
  by destruct (do_op None 0 o s).
Qed.

Lemma run_wp_reliable {A} (p : prog A) Q w :
  reliable w → wp (op_spec false) p Q (view (w_store w)) →
  ∃ a w', run p w = Some (a, w') ∧ reliable w' ∧ Q a (view (w_store w')).
Proof.
  revert w. induction p as [a|o k IH|]; simpl; intros w Hw HQ; [eauto| |done].
  destruct (world_step_reliable o w Hw) as [Hw' Hs].
  destruct (world_step o w) as [r w'] eqn:E; simpl in *. eauto.
Qed.

(** What [wp] promises of a program under faults, every execution delivers. *)
Lemma run_wp {A} (p : prog A) Q w :
  world_ok w → wp (op_spec true) p Q (view (w_store w)) →
  ∃ a w', run p w = Some (a, w') ∧ world_ok w' ∧ Q a (view (w_store w')).
Proof.
  revert w. induction p as [a|o k IH|]; simpl; intros w Hw HQ; [eauto| |done].
  destruct (world_step_sound o w Hw) as [Hw' Hs].
  destruct (world_step o w) as [r w'] eqn:E; simpl in *. eauto.
Qed.
End RunSound.
