(* ===== verification/MemStore.v ===== *)
(** * The in-memory backend (ledger/store/mem/mem.go)

    The reference implementation of the storage contract: [mem_laws] discharges
    [StoreLaws] for it. Each method holds the store's lock for its whole body,
    so it is one step. *)

From S2P Require Import Prelude GoStd Store.
From stdpp Require Import sorting.

(** Go's order on strings, bytewise. *)
Definition string_le (a b : string) : Prop := Is_true (String.leb a b).
#[export] Instance string_le_dec : RelDecision string_le.
Proof. unfold string_le. intros a b. apply _. Defined.

Module mem.
(** [object]: data and version, as in [objs]. *)
Record Store := mkStore {
  objects : gmap string (bytes * Version);
  nextVersion : N;
}.

Definition New : Store := mkStore ∅ 0.

(** [storeLocked]: a fresh version from the store-wide counter. *)
Definition storeLocked (s : Store) (key : string) (data : bytes) : Version * Store :=
  let next := u64 (nextVersion s + 1) in
  let version := FormatUint next in
  (version, mkStore (<[key := (data, version)]> (objects s)) next).

Definition Get (ctx : option error) (s : Store) (key : string) : result (bytes * Version) :=
  match ctx with
  | Some err => Err err
  | None =>
      match objects s !! key with
      | None => Err [ErrNotExist]
      | Some (data, version) => Ok (data, version)
      end
  end.

Definition Create (ctx : option error) (s : Store) (key : string) (data : bytes)
    : result Version * Store :=
  match ctx with
  | Some err => (Err err, s)
  | None =>
      match objects s !! key with
      | Some _ => (Err [ErrExist], s)
      | None => let '(version, s') := storeLocked s key data in (Ok version, s')
      end
  end.

Definition Swap (ctx : option error) (s : Store) (key : string) (data : bytes) (expect : Version)
    : result Version * Store :=
  match ctx with
  | Some err => (Err err, s)
  | None =>
      let store := let '(version, s') := storeLocked s key data in (Ok version, s') in
      match objects s !! key with
      | None => if negb (String.eqb expect NoVersion) then (Err [ErrNotExist], s) else store
      | Some (_, version) =>
          if negb (String.eqb version expect) then (Err [ErrVersionMismatch], s) else store
      end
  end.

Definition Delete (ctx : option error) (s : Store) (key : string) : result unit * Store :=
  match ctx with
  | Some err => (Err err, s)
  | None => (Ok tt, mkStore (delete key (objects s)) (nextVersion s))
  end.

(** [List]: a snapshot of the sorted keys, those under [prefix] yielded in turn
    by a caller that takes them all; a canceled context ends the iteration
    with its error. *)
Definition sorted_keys (s : Store) : list string :=
  merge_sort string_le (map_to_list (objects s)).*1.

Definition List (ctx : option error) (s : Store) (prefix : string) : list (result string) :=
  match ctx, sorted_keys s with
  | Some err, _ :: _ => [Err err]
  | _, keys => Ok <$> filter (λ key, HasPrefix key prefix = true) keys
  end.

Definition Len (s : Store) : nat := size (objects s).

Definition StringOf (s : option Store) : string :=
  match s with None => "<nil>" | Some _ => "memory (lost on exit)" end.
End mem.

#[export] Instance mem_store : Store mem.Store := {
  Get ctx s key := (mem.Get ctx s key, s); Create := mem.Create; Swap := mem.Swap; Delete := mem.Delete;
}.

(** ** The contract holds *)

Lemma FormatUint_nonempty n : FormatUint n ≠ "".
Proof. apply format_digits_nonempty. Qed.

Definition mem_ok (s : mem.Store) : Prop :=
  ∀ k d v, mem.objects s !! k = Some (d, v) → v ≠ NoVersion.

Lemma storeLocked_sound s k d :
  mem_ok s →
  mem_ok (mem.storeLocked s k d).2 ∧
  stored (mem.objects s) k d (mem.objects (mem.storeLocked s k d).2) (mem.storeLocked s k d).1.
Proof.
  intros Hok. split; [|split; [apply FormatUint_nonempty|done]].
  intros k' d' v'. simpl. rewrite lookup_insert.
  case_decide; intros; simplify_eq; [apply FormatUint_nonempty|by eapply Hok].
Qed.

#[export] Program Instance mem_laws : StoreLaws mem.Store := {
  view := mem.objects;
  store_ok := mem_ok;
}.
Next Obligation.
  intros s o t Hok Ht. unfold do_op. destruct o as [k|k d|k d v|k|].
  - simpl. split; [done|]. split; [done|]. unfold mem.Get. by destruct (_ !! k) as [[]|].
  - cbn [Create mem_store op_spec]. unfold mem.Create. pose proof (storeLocked_sound s k d Hok).
    destruct (mem.objects s !! k) as [[d0 v0]|] eqn:E; simpl in *; [rewrite E; by eauto|].
    by destruct_and?.
  - cbn [Swap mem_store op_spec]. unfold mem.Swap, swap_allowed.
    pose proof (storeLocked_sound s k d Hok) as [Hok' Hst].
    destruct (mem.storeLocked s k d) as [ver s'].
    destruct (mem.objects s !! k) as [[d0 v0]|] eqn:E; simpl in *.
    + destruct (String.eqb_spec v0 v) as [->|]; simpl; by eauto 8.
    + destruct (String.eqb_spec v NoVersion) as [->|]; simpl; by eauto 8.
  - simpl. split; [|done]. intros k' d' v'. simpl. rewrite lookup_delete_Some. intros [_ ?].
    by eapply Hok.
  - done.
Qed.
Next Obligation. intros s o t e _ _ Ho. by destruct o. Qed.

(** ** [List] *)

#[export] Instance string_le_total : Total string_le.
Proof.
  intros a b. unfold string_le. destruct (String.leb_total a b) as [-> | ->]; simpl; auto.
Qed.

Lemma string_leb_cons c d a b :
  String.leb (String c a) (String d b) =
  match (N_of_ascii c ?= N_of_ascii d)%N with Eq => String.leb a b | Lt => true | Gt => false end.
Proof. unfold String.leb. simpl. unfold Ascii.compare. by destruct (_ ?= _)%N. Qed.

#[export] Instance string_le_trans : Transitive string_le.
Proof.
  intros a b c. unfold string_le. revert b c. induction a as [|x a IH]; intros [|y b] [|z c]; try done.
  rewrite !string_leb_cons. specialize (IH b c).
  destruct (N.compare_spec (N_of_ascii x) (N_of_ascii y)); [| |done];
    destruct (N.compare_spec (N_of_ascii y) (N_of_ascii z)); try done;
    destruct (N.compare_spec (N_of_ascii x) (N_of_ascii z)); try lia; auto.
Qed.

Lemma Sorted_filter_string (P : string → Prop) `{∀ k, Decision (P k)} l :
  StronglySorted string_le l → StronglySorted string_le (filter P l).
Proof.
  induction 1 as [|k l Hl IH Hk]; [constructor|]. rewrite filter_cons. case_decide; [|done].
  constructor; [done|]. apply Forall_forall. intros x [_ Hx]%list_elem_of_filter.
  by eapply Forall_forall in Hk.
Qed.

Lemma sorted_keys_perm s : mem.sorted_keys s ≡ₚ (map_to_list (mem.objects s)).*1.
Proof. apply merge_sort_Permutation. Qed.

(** * Properties *)

(** C31 The memory backend keeps the contract of the store interface: one call,
    under its lock, answers and changes the objects as [op_spec] says without
    failures, keeping every stored version non-empty; under a canceled context
    it changes nothing and answers the context's error. *)
Theorem mem_keeps_contract (s : mem.Store) o t :
  mem_ok s → is_i64 t →
  mem_ok (do_op None t o s).2 ∧
  op_spec false o (mem.objects s) (do_op None t o s).1 (mem.objects (do_op None t o s).2) ∧
  ∀ err, o ≠ ONow → (do_op (Some err) t o s).2 = s ∧
    match o return resp o → Prop with
    | ONow => λ _, True | OGet _ | OCreate _ _ | OSwap _ _ _ | ODelete _ => λ r, r = Err err
    end (do_op (Some err) t o s).1.
Proof.
  intros Hs Ht. destruct (@store_sound _ _ mem_laws s o t Hs Ht) as [? ?]. split_and!; [done|done|].
  intros err Ho. rewrite (@store_canceled _ _ mem_laws s o t err Hs Ht Ho). split; [done|]. by destruct o.
Qed.

(** [List] yields every stored key under the prefix exactly once, in order,
    and nothing else. *)
Theorem mem_List_complete (s : mem.Store) prefix :
  ∃ keys, mem.List None s prefix = Ok <$> keys ∧ StronglySorted string_le keys ∧ NoDup keys ∧
    ∀ k, k ∈ keys ↔ HasPrefix k prefix = true ∧ is_Some (mem.objects s !! k).
Proof.
  exists (filter (λ key, HasPrefix key prefix = true) (mem.sorted_keys s)). split_and!.
  - unfold mem.List. by destruct (mem.sorted_keys s).
  - apply Sorted_filter_string, StronglySorted_merge_sort; apply _.
  - apply NoDup_filter. rewrite sorted_keys_perm. apply NoDup_fst_map_to_list.
  - intros k. rewrite list_elem_of_filter, sorted_keys_perm. split; intros [? H]; (split; [done|]).
    + apply list_elem_of_fmap in H as ([k' v] & -> & H). exists v. by apply elem_of_map_to_list.
    + destruct H as [v H]. apply list_elem_of_fmap. exists (k, v). split; [done|]. by apply elem_of_map_to_list.
Qed.

Lemma mem_keeps_contract_witness :
  mem_ok (mem.New) ∧
  mem_ok (do_op None 0 (OCreate "a" "x") mem.New).2 ∧
  op_spec false (OCreate "a" "x") ∅ (do_op None 0 (OCreate "a" "x") mem.New).1
    (mem.objects (do_op None 0 (OCreate "a" "x") mem.New).2) ∧
  ∀ err, OCreate "a" "x" ≠ ONow → (do_op (Some err) 0 (OCreate "a" "x") mem.New).2 = mem.New ∧
    (do_op (Some err) 0 (OCreate "a" "x") mem.New).1 = Err err.
Proof.
  assert (mem_ok mem.New) as H by (intros k d v Hk; discriminate Hk).
  split; [exact H|]. apply (mem_keeps_contract mem.New (OCreate "a" "x") 0 H). by vm_compute.
Defined.
