(* ===== verification/Group.v ===== *)
(** * Groups (ledger/group.go)

    The identity of a group ([GroupID], an epoch and a sequence packed into one
    [uint64]), its manifest row ([GroupInfo]) and the arithmetic on the two
    timelines a group is anchored on. *)

From S2P Require Import Prelude GoStd.

(** ** GroupID *)

Abbreviation GroupID := N (only parsing).

Definition groupSeqBits : N := 40.
Definition groupSeqMask : N := N.shiftl 1 groupSeqBits - 1.
Definition groupEpochBits : N := 64 - groupSeqBits.
Definition maxGroupEpoch : N := N.shiftl 1 groupEpochBits - 1.

(** [epoch<<groupSeqBits | sequence&groupSeqMask], the shift losing what does not
    fit in 64 bits. *)
Definition NewGroupID (epoch sequence : N) : GroupID :=
  N.lor (u64 (N.shiftl epoch groupSeqBits)) (N.land sequence groupSeqMask).

Definition Epoch (g : GroupID) : N := N.shiftr g groupSeqBits.

Definition Sequence (g : GroupID) : N := N.land g groupSeqMask.

(** [GroupID.String]: ["e%06d-g%08d"]. *)
Definition GroupID_String (g : GroupID) : string :=
  "e" +:+ pad 6 (Epoch g) +:+ "-g" +:+ pad 8 (Sequence g).

(** [GroupID.Compare]. *)
Definition Compare (g other : GroupID) : Z :=
  match (g ?= other)%N with Lt => -1 | Eq => 0 | Gt => 1 end.

(** [ParseGroupID]; its errors wrap no sentinel. *)
Definition ParseGroupID (s : string) : result GroupID :=
  if String.eqb s "" then Ok 0%N
  else match CutPrefix s "e" with
  | None => Err []
  | Some epochText =>
      match Cut epochText "-g" with
      | None => Err []
      | Some (epochText, seqText) =>
          match ParseUint epochText with
          | None => Err []
          | Some epoch =>
              match ParseUint seqText with
              | None => Err []
              | Some sequence =>
                  if (maxGroupEpoch <? epoch)%N then Err []
                  else if (groupSeqMask <? sequence)%N then Err []
                  else Ok (NewGroupID epoch sequence)
              end
          end
      end
  end.

(** ** GroupInfo *)

Record GroupInfo := mkGroupInfo {
  ID : GroupID;
  MediaTime : Z;
  Duration : Z;
  Wallclock : Z;
  ObjectCount : N;
  ObjectKey : string;
  Size : Z;
  MIME : string;
  Encoding : string;
}.

#[export] Instance GroupInfo_eq_dec : EqDecision GroupInfo.
Proof. solve_decision. Defined.

(** [GroupInfo{}] *)
Definition zeroGroupInfo : GroupInfo := mkGroupInfo 0 0 0 0 0 "" 0 "" "".

Definition hasDuration (m : GroupInfo) : bool := (0 <? Duration m)%Z.

Definition hasWallclock (m : GroupInfo) : bool := negb (Wallclock m =? 0)%Z.

Definition mediaEnd (m : GroupInfo) : Z := i64 (MediaTime m + Duration m).

Definition nanosPerSecond : Z := 1000000000.

(** [mediaToNanos]: [None] where the Go code reports false. The divisions are
    Go's, truncated towards zero, and the products wrap at 64 bits. *)
Definition mediaToNanos (units : Z) (timescale : N) : option Z :=
  if (timescale =? 0)%N || (units <? 0)%Z then None
  else
    let scale := Z.of_N timescale in
    let seconds := Z.quot units scale in
    let remainder := Z.rem units scale in
    if (Z.quot MaxInt64 nanosPerSecond <? seconds)%Z then None
    else
      let whole := i64 (seconds * nanosPerSecond) in
      let fraction := Z.quot (i64 (remainder * nanosPerSecond)) scale in
      if (i64 (MaxInt64 - fraction) <? whole)%Z then None
      else Some (i64 (whole + fraction)).

Definition wallclockEnd (m : GroupInfo) (timescale : N) : option Z :=
  if negb (hasWallclock m) || negb (hasDuration m) then None
  else match mediaToNanos (Duration m) timescale with
       | None => None
       | Some nanos =>
           if (i64 (MaxInt64 - nanos) <? Wallclock m)%Z then None
           else Some (i64 (Wallclock m + nanos))
       end.

Definition overlapsMedia (m : GroupInfo) (from to : Z) : bool :=
  if negb (hasDuration m) then (from <=? MediaTime m)%Z && (MediaTime m <? to)%Z
  else (MediaTime m <? to)%Z && (from <? mediaEnd m)%Z.

Definition overlapsWallclock (m : GroupInfo) (from to : Z) (timescale : N) : bool :=
  if negb (hasWallclock m) then false
  else match wallclockEnd m timescale with
       | None => (from <=? Wallclock m)%Z && (Wallclock m <? to)%Z
       | Some e => (Wallclock m <? to)%Z && (from <? e)%Z
       end.

(** [GroupInfo.validate]: [None] is a nil error. *)
Definition GroupInfo_validate (m : GroupInfo) : option error :=
  if (Epoch (ID m) =? 0)%N then Some [ErrInvalidGroup]
  else if (Duration m <? 0)%Z then Some [ErrInvalidGroup]
  else if (Wallclock m <? 0)%Z then Some [ErrInvalidGroup]
  else if (Size m <? 0)%Z then Some [ErrInvalidGroup]
  else if (0 <? Duration m)%Z && (i64 (MaxInt64 - Duration m) <? MediaTime m)%Z
  then Some [ErrInvalidGroup]
  else None.

(** The fields hold values of their Go types. *)
Definition wf_group (m : GroupInfo) : Prop :=
  is_u64 (ID m) ∧ is_i64 (MediaTime m) ∧ is_i64 (Duration m) ∧ is_i64 (Wallclock m) ∧
  is_u64 (ObjectCount m) ∧ is_i64 (Size m).

(** ** Lemmas: GroupID *)

Lemma Sequence_mod g : Sequence g = (g mod 2 ^ 40)%N.
Proof. unfold Sequence, groupSeqMask. change (N.shiftl 1 groupSeqBits - 1)%N with (N.ones 40). apply N.land_ones. Qed.

Lemma Epoch_div g : Epoch g = (g / 2 ^ 40)%N.
Proof. apply N.shiftr_div_pow2. Qed.

Lemma NewGroupID_add e s : NewGroupID e s = (e mod 2 ^ 24 * 2 ^ 40 + s mod 2 ^ 40)%N.
Proof.
  unfold NewGroupID. fold (Sequence s). rewrite Sequence_mod.
  unfold u64. rewrite N.shiftl_mul_pow2.
  change two64 with (2 ^ 24 * 2 ^ 40)%N. rewrite N.Div0.mul_mod_distr_r.
  change groupSeqBits with 40%N.
  rewrite <-N.shiftl_mul_pow2, <-N.lxor_lor, N.add_nocarry_lxor; [done|..];
    apply N.bits_inj; intros i; rewrite N.land_spec, N.bits_0;
    (destruct (N.lt_ge_cases i 40) as [Hi|Hi];
      [by rewrite N.shiftl_spec_low|by rewrite N.mod_pow2_bits_high, andb_false_r]).
Qed.

(** A value too wide for its field never spills into the other. *)
Lemma Epoch_NewGroupID e s : Epoch (NewGroupID e s) = (e mod 2 ^ 24)%N.
Proof.
  rewrite Epoch_div, NewGroupID_add, N.div_add_l by done.
  rewrite (N.div_small (s mod 2 ^ 40)) by (by apply N.mod_lt). lia.
Qed.

Lemma Sequence_NewGroupID e s : Sequence (NewGroupID e s) = (s mod 2 ^ 40)%N.
Proof.
  rewrite Sequence_mod, NewGroupID_add, N.add_comm, N.Div0.mod_add. by apply N.Div0.mod_mod.
Qed.

Lemma NewGroupID_parts g : is_u64 g → NewGroupID (Epoch g) (Sequence g) = g.
Proof.
  intros Hg. rewrite NewGroupID_add, Epoch_div, Sequence_mod, N.Div0.mod_mod.
  rewrite (N.mod_small (g / 2 ^ 40)).
  - rewrite N.mul_comm. symmetry. apply N.div_mod'.
  - apply N.Div0.div_lt_upper_bound. exact Hg.
Qed.

Lemma NewGroupID_u64 e s : is_u64 (NewGroupID e s).
Proof.
  rewrite NewGroupID_add. unfold is_u64, two64.
  pose proof (N.mod_lt e (2 ^ 24) ltac:(done)). pose proof (N.mod_lt s (2 ^ 40) ltac:(done)). lia.
Qed.

Lemma Epoch_bound g : is_u64 g → (Epoch g <= maxGroupEpoch)%N.
Proof.
  intros Hg. rewrite Epoch_div. change maxGroupEpoch with 16777215%N.
  enough (g / 2 ^ 40 < 16777216)%N by lia. apply N.Div0.div_lt_upper_bound. exact Hg.
Qed.

Lemma Sequence_bound g : (Sequence g <= groupSeqMask)%N.
Proof.
  rewrite Sequence_mod. change groupSeqMask with 1099511627775%N.
  pose proof (N.mod_lt g (2 ^ 40) ltac:(done)). lia.
Qed.

#[export] Hint Resolve NewGroupID_u64 : ledger_range.

(** The separator is cut at its first byte that the head cannot contain. *)
Lemma Cut_head p a sep c rest b :
  sep = String c rest → all_chars p a = true → p c = false →
  Cut (a +:+ (sep +:+ b)) sep = Some (a, b).
Proof.
  intros -> Ha Hc. induction a as [|d a IH]; simpl in *.
  - rewrite Ascii.eqb_refl.
    assert (∀ t, CutPrefix (t +:+ b) t = Some b) as H.
    { induction t as [|x t IHt]; simpl; [by destruct b|]. by rewrite Ascii.eqb_refl. }
    by rewrite H.
  - apply andb_prop in Ha as [Hd Ha].
    destruct (Ascii.eqb_spec c d) as [->|_]; [congruence|]. by rewrite IH.
Qed.

Lemma Cut_spec s sep a b : Cut s sep = Some (a, b) → s = a +:+ (sep +:+ b).
Proof.
  assert (∀ s pre r, CutPrefix s pre = Some r → s = pre +:+ r) as HP.
  { intros t pre. revert t. induction pre as [|c pre IH]; intros t r; destruct t as [|d t];
      simpl; intros H; simplify_eq; try done.
    destruct (Ascii.eqb_spec c d) as [->|]; [|done]. f_equal. auto. }
  revert a b. induction s as [|c s IH]; intros a b; simpl.
  - destruct (CutPrefix "" sep) eqn:E; [|done]. intros [= <- <-]. by apply HP in E.
  - destruct (CutPrefix (String c s) sep) eqn:E; [intros [= <- <-]; by apply HP in E|].
    destruct (Cut s sep) as [[x y]|] eqn:E'; [|done]. intros [= <- <-]. simpl. f_equal. auto.
Qed.

Lemma ParseGroupID_text a b :
  all_chars is_digit a = true →
  ParseGroupID ("e" +:+ a +:+ "-g" +:+ b) =
  match ParseUint a, ParseUint b with
  | Some epoch, Some sequence =>
      if (maxGroupEpoch <? epoch)%N || (groupSeqMask <? sequence)%N then Err []
      else Ok (NewGroupID epoch sequence)
  | _, _ => Err []
  end.
Proof.
  intros Ha. unfold ParseGroupID.
  change (String.eqb ("e" +:+ a +:+ "-g" +:+ b) "") with false.
  change (CutPrefix ("e" +:+ a +:+ "-g" +:+ b) "e") with (Some (a +:+ "-g" +:+ b)). cbv iota.
  rewrite (Cut_head is_digit a "-g" "-" "g" b) by done.
  destruct (ParseUint a), (ParseUint b); try done.
  by destruct (_ <? _)%N, (_ <? _)%N.
Qed.

(** ** Lemmas: media time *)

Lemma validate_mediaEnd m :
  wf_group m → GroupInfo_validate m = None →
  (0 <= Duration m)%Z ∧ (0 <= Wallclock m)%Z ∧ (0 <= Size m)%Z ∧ Epoch (ID m) ≠ 0%N ∧
  mediaEnd m = (MediaTime m + Duration m)%Z ∧ is_i64 (MediaTime m + Duration m)%Z.
Proof.
  unfold wf_group, GroupInfo_validate, is_i64, MaxInt64, MinInt64. intros Hwf.
  repeat (case_match; try done). bool_to_prop. intros _.
  assert (is_i64 (MediaTime m + Duration m)%Z) as Hr.
  { unfold is_i64, MaxInt64, MinInt64. destruct (Z.ltb_spec 0 (Duration m)); simpl in *.
    - rewrite i64_small in * by (unfold is_i64, MaxInt64, MinInt64; lia). bool_to_prop. lia.
    - lia. }
  repeat split; try lia; try apply Hr. by apply i64_small.
Qed.

Lemma validate_intro m :
  Epoch (ID m) ≠ 0%N → (0 <= Duration m)%Z → (0 <= Wallclock m)%Z → (0 <= Size m)%Z →
  is_i64 (MediaTime m) → is_i64 (Duration m) → is_i64 (MediaTime m + Duration m)%Z →
  GroupInfo_validate m = None.
Proof.
  intros He Hd Hw Hs Hm Hdi Hend. unfold GroupInfo_validate.
  rewrite (proj2 (N.eqb_neq _ _) He), (proj2 (Z.ltb_ge _ _) Hd), (proj2 (Z.ltb_ge _ _) Hw),
    (proj2 (Z.ltb_ge _ _) Hs).
  unfold is_i64, MinInt64, MaxInt64 in *.
  rewrite i64_small by (unfold is_i64, MinInt64, MaxInt64; lia).
  rewrite (proj2 (Z.ltb_ge _ (MediaTime m))) by lia. by rewrite andb_false_r.
Qed.

(** Dividing first never overflows and loses nothing: the result is the exact
    quotient, rounded down, reported absent precisely when it does not fit. *)
Lemma mediaToNanos_exact units ts :
  is_i64 units → (0 < ts < 4294967296)%N → (0 <= units)%Z →
  mediaToNanos units ts =
    let exact := (units * nanosPerSecond / Z.of_N ts)%Z in
    if (exact <=? MaxInt64)%Z then Some exact else None.
Proof.
  intros Hu Hts H0. unfold mediaToNanos.
  rewrite (proj2 (N.eqb_neq ts 0)), (proj2 (Z.ltb_ge units 0)) by lia. cbn [orb].
  set (scale := Z.of_N ts). assert (0 < scale < 4294967296)%Z as Hs by (unfold scale; lia).
  rewrite (Z.quot_div_nonneg units scale), (Z.rem_mod_nonneg units scale) by lia.
  change (Z.quot MaxInt64 nanosPerSecond) with 9223372036%Z.
  pose proof (Z.div_mod units scale ltac:(lia)) as Hdm.
  pose proof (Z.mod_pos_bound units scale ltac:(lia)) as Hmod.
  pose proof (Z.div_pos units scale H0 ltac:(lia)) as Hq.
  set (q := (units / scale)%Z) in *. set (r := (units mod scale)%Z) in *.
  assert (units * nanosPerSecond / scale = q * nanosPerSecond + r * nanosPerSecond / scale)%Z as Hex.
  { rewrite Hdm. replace ((scale * q + r) * nanosPerSecond)%Z
      with (r * nanosPerSecond + q * nanosPerSecond * scale)%Z by lia.
    rewrite Z.div_add by lia. lia. }
  assert (0 <= r * nanosPerSecond < scale * nanosPerSecond)%Z as Hrn by (unfold nanosPerSecond; lia).
  assert (0 <= r * nanosPerSecond / scale < nanosPerSecond)%Z as Hf.
  { split; [apply Z.div_pos; lia|apply Z.div_lt_upper_bound; lia]. }
  unfold nanosPerSecond, MaxInt64 in *. cbv zeta. rewrite Hex.
  destruct (Z.ltb_spec 9223372036 q) as [Hlt|Hge].
  { rewrite (proj2 (Z.leb_gt _ 9223372036854775807)) by lia. done. }
  rewrite (i64_small (q * _)) by (unfold is_i64, MaxInt64, MinInt64; lia).
  rewrite (i64_small (r * _)) by (unfold is_i64, MaxInt64, MinInt64; lia).
  rewrite Z.quot_div_nonneg by lia.
  rewrite (i64_small (9223372036854775807 - _)) by (unfold is_i64, MaxInt64, MinInt64; lia).
  destruct (Z.ltb_spec (9223372036854775807 - r * 1000000000 / scale) (q * 1000000000)).
  - rewrite (proj2 (Z.leb_gt _ 9223372036854775807)) by lia. done.
  - rewrite (proj2 (Z.leb_le _ 9223372036854775807)) by lia.
    rewrite i64_small by (unfold is_i64, MaxInt64, MinInt64; lia). done.
Qed.

(** * Properties *)

Lemma GroupID_lex g h :
  (g ?= h)%N = match (Epoch g ?= Epoch h)%N with Eq => (Sequence g ?= Sequence h)%N | c => c end.
Proof.
  rewrite !Epoch_div, !Sequence_mod. change (2 ^ 40)%N with 1099511627776%N.
  pose proof (N.div_mod' g 1099511627776). pose proof (N.div_mod' h 1099511627776).
  pose proof (N.mod_lt g 1099511627776 ltac:(done)).
  pose proof (N.mod_lt h 1099511627776 ltac:(done)).
  generalize dependent (g / 1099511627776)%N. generalize dependent (g mod 1099511627776)%N.
  generalize dependent (h / 1099511627776)%N. generalize dependent (h mod 1099511627776)%N.
  intros hs Hhs hq Hh gs Hgs gq Hg.
  destruct (N.compare_spec gq hq) as [E|E|E].
  - subst gq. destruct (N.compare_spec gs hs);
      [apply N.compare_eq_iff|apply N.compare_lt_iff|apply N.compare_gt_iff]; lia.
  - apply N.compare_lt_iff. lia.
  - apply N.compare_gt_iff. lia.
Qed.

(** GroupID order: numeric order on identities is epoch first, sequence second,
    however large the sequences are, and [Compare] reports it. *)
Theorem Compare_epoch_then_sequence g h :
  Compare g h =
    match (Epoch g ?= Epoch h)%N with
    | Lt => -1
    | Gt => 1
    | Eq => match (Sequence g ?= Sequence h)%N with Lt => -1 | Eq => 0 | Gt => 1 end
    end%Z.
Proof. unfold Compare. rewrite GroupID_lex. by destruct (Epoch g ?= Epoch h)%N. Qed.

(** Identity round trip: the text form of every [uint64] identity parses back to
    it. *)
Theorem ParseGroupID_String g : is_u64 g → ParseGroupID (GroupID_String g) = Ok g.
Proof.
  intros Hg. unfold GroupID_String. rewrite ParseGroupID_text by apply pad_all_digits.
  pose proof (Epoch_bound g Hg) as He. pose proof (Sequence_bound g) as Hs.
  change maxGroupEpoch with 16777215%N in *. change groupSeqMask with 1099511627775%N in *.
  rewrite !ParseUint_pad by (unfold is_u64, two64; lia).
  rewrite (proj2 (N.ltb_ge _ _) He), (proj2 (N.ltb_ge _ _) Hs). simpl.
  by rewrite NewGroupID_parts.
Qed.

(** What [ParseGroupID] accepts names exactly the epoch and sequence it spells:
    a part too wide for its field is refused, never folded into another group. *)
Theorem ParseGroupID_exact s g :
  ParseGroupID s = Ok g → s ≠ "" →
  ∃ a b, s = "e" +:+ (a +:+ ("-g" +:+ b)) ∧ ParseUint a = Some (Epoch g) ∧
    ParseUint b = Some (Sequence g) ∧ is_u64 g.
Proof.
  intros H Hs. unfold ParseGroupID in H. rewrite (proj2 (String.eqb_neq s "") Hs) in H.
  destruct s as [|c s]; [done|]. cbn [CutPrefix] in H.
  destruct (Ascii.eqb_spec "e" c) as [<-|]; [|done].
  destruct (Cut s "-g") as [[a b]|] eqn:E; [|done]. apply Cut_spec in E. subst s.
  destruct (ParseUint a) as [e|] eqn:Ea; [|done]. destruct (ParseUint b) as [q|] eqn:Eb; [|done].
  destruct (N.ltb_spec maxGroupEpoch e) as [|He]; [done|].
  destruct (N.ltb_spec groupSeqMask q) as [|Hq]; [done|]. simplify_eq.
  exists a, b. change maxGroupEpoch with 16777215%N in *. change groupSeqMask with 1099511627775%N in *.
  rewrite Epoch_NewGroupID, Sequence_NewGroupID, !N.mod_small by lia.
  repeat split; auto with ledger_range.
Qed.

(** [mediaToNanos] agrees with the exact conversion on every input of its type. *)
Theorem mediaToNanos_spec units ts :
  is_i64 units → (ts < 4294967296)%N →
  mediaToNanos units ts =
    if (ts =? 0)%N || (units <? 0)%Z then None
    else let exact := (units * nanosPerSecond / Z.of_N ts)%Z in
         if (exact <=? MaxInt64)%Z then Some exact else None.
Proof.
  intros Hu Hts. destruct (N.eqb_spec ts 0) as [->|]; [done|].
  destruct (Z.ltb_spec units 0).
  - unfold mediaToNanos. by rewrite (proj2 (Z.ltb_lt units 0)), orb_true_r by done.
  - rewrite mediaToNanos_exact by (done || lia). done.
Qed.

(** A group [validate] accepts is found by [overlapsMedia] exactly when its media
    interval, or its anchor when it has no duration, meets the window. *)
Theorem overlapsMedia_spec m from to :
  wf_group m → GroupInfo_validate m = None → (from < to)%Z →
  overlapsMedia m from to = true ↔
  ∃ t, (from <= t < to)%Z ∧
    if hasDuration m then (MediaTime m <= t < MediaTime m + Duration m)%Z else t = MediaTime m.
Proof.
  intros Hwf Hv Hft. destruct (validate_mediaEnd m Hwf Hv) as (Hd & _ & _ & _ & He & _).
  unfold overlapsMedia, hasDuration. rewrite He. destruct (Z.ltb_spec 0 (Duration m)); simpl;
    rewrite andb_true_iff, ?Z.leb_le, ?Z.ltb_lt.
  - split; [intros; exists (Z.max from (MediaTime m)); lia|intros (t & ? & ?); lia].
  - split; [intros; exists (MediaTime m); lia|intros (t & ? & ->); lia].
Qed.

(** C35 [wallclockEnd] is the exact end of the wallclock extent, rounded down to
    the nanosecond, and absent exactly where there is no extent to speak of: no
    wallclock, no duration, no timescale, or an end past the clock's range. *)
Theorem wallclockEnd_spec m ts :
  wf_group m → GroupInfo_validate m = None → (ts < 4294967296)%N →
  wallclockEnd m ts =
    if (Wallclock m =? 0)%Z || (Duration m =? 0)%Z || (ts =? 0)%N then None
    else let exact := (Wallclock m + Duration m * nanosPerSecond / Z.of_N ts)%Z in
         if (exact <=? MaxInt64)%Z then Some exact else None.
Proof.
  intros Hwf Hv Hts. destruct (validate_mediaEnd m Hwf Hv) as (Hd & Hw & _).
  destruct Hwf as (_ & _ & Hdi & Hwi & _).
  unfold wallclockEnd, hasWallclock, hasDuration.
  destruct (Z.eqb_spec (Wallclock m) 0); [done|].
  destruct (Z.ltb_spec 0 (Duration m)), (Z.eqb_spec (Duration m) 0); simpl; try (done || lia).
  destruct (N.eqb_spec ts 0) as [->|]; [done|].
  rewrite mediaToNanos_exact by (done || lia). cbv zeta.
  set (q := (Duration m * nanosPerSecond / Z.of_N ts)%Z).
  assert (0 <= q)%Z by (apply Z.div_pos; unfold nanosPerSecond; lia).
  unfold is_i64, MaxInt64, MinInt64 in *.
  destruct (Z.leb_spec q 9223372036854775807).
  - rewrite (i64_small (_ - q)) by (unfold is_i64, MaxInt64, MinInt64; lia).
    destruct (Z.ltb_spec (9223372036854775807 - q) (Wallclock m)).
    + by rewrite (proj2 (Z.leb_gt _ _)) by lia.
    + rewrite (proj2 (Z.leb_le (Wallclock m + q) _)) by lia.
      by rewrite i64_small by (unfold is_i64, MaxInt64, MinInt64; lia).
  - by rewrite (proj2 (Z.leb_gt _ _)) by lia.
Qed.

(** * At concrete inputs *)

Definition sample_group : GroupInfo :=
  mkGroupInfo (NewGroupID 3 42) 180000 90000 1700000000000000000 0 "cam/e000003/groups/g00000042" 5 "" "".

Lemma ParseGroupID_String_witness :
  ParseGroupID (GroupID_String (NewGroupID 3 42)) = Ok (NewGroupID 3 42).
Proof. apply (ParseGroupID_String (NewGroupID 3 42)). vm_compute. reflexivity. Defined.

Lemma ParseGroupID_exact_witness :
  ∃ a b, "e000003-g00000042" = "e" +:+ (a +:+ ("-g" +:+ b)) ∧
    ParseUint a = Some (Epoch (NewGroupID 3 42)) ∧
    ParseUint b = Some (Sequence (NewGroupID 3 42)) ∧ is_u64 (NewGroupID 3 42).
Proof. apply (ParseGroupID_exact "e000003-g00000042"); [vm_compute; reflexivity|discriminate]. Defined.

Lemma mediaToNanos_spec_witness :
  mediaToNanos 135000 90000 =
    let exact := (135000 * nanosPerSecond / 90000)%Z in
    if (exact <=? MaxInt64)%Z then Some exact else None.
Proof. apply (mediaToNanos_spec 135000 90000); [vm_compute; split; discriminate|reflexivity]. Defined.

Lemma overlapsMedia_spec_witness :
  overlapsMedia sample_group 200000 300000 = true ↔
  ∃ t, (200000 <= t < 300000)%Z ∧
    if hasDuration sample_group then (180000 <= t < 180000 + 90000)%Z else t = 180000%Z.
Proof.
  apply (overlapsMedia_spec sample_group 200000 300000);
    [vm_compute; repeat split; discriminate|reflexivity|reflexivity].
Defined.

Lemma wallclockEnd_spec_witness :
  wallclockEnd sample_group 90000 =
    let exact := (1700000000000000000 + 90000 * nanosPerSecond / 90000)%Z in
    if (exact <=? MaxInt64)%Z then Some exact else None.
Proof.
  apply (wallclockEnd_spec sample_group 90000);
    [vm_compute; repeat split; discriminate|reflexivity|reflexivity].
Defined.
