(* ===== verification/Manifest.v ===== *)
(** * Manifests (ledger/manifest.go)

    The object-key layout, the five manifest types and their JSON form,
    [summarize], and [encodeManifest]/[decodeManifest]. *)

From S2P Require Import Prelude GoStd Json Group.
#[local] Open Scope string_scope.

Definition manifestVersion : Z := 1.

Abbreviation TrackPath := string (only parsing).

(** ** Object keys *)

Definition rootObject : string := "root.manifest".
Definition logObject : string := "log.manifest".
Definition headObject : string := "delta/head".
Definition openPrefix : string := "delta/open/".
Definition sealedPrefix : string := "delta/sealed-".
Definition groupPrefix : string := "groups/".
Definition redactedPrefix : string := "redacted/".

Definition epochDir (epoch : N) : string := "e" +:+ pad 6 epoch.

Definition rootKey (track : TrackPath) : string := track +:+ "/" +:+ rootObject.

Definition epochLogKey (track : TrackPath) (epoch : N) : string :=
  track +:+ "/" +:+ epochDir epoch +:+ "/" +:+ logObject.

Definition headKey (track : TrackPath) (epoch : N) : string :=
  track +:+ "/" +:+ epochDir epoch +:+ "/" +:+ headObject.

Definition deltaKey (track : TrackPath) (epoch n : N) : string :=
  track +:+ "/" +:+ epochDir epoch +:+ "/" +:+ openPrefix +:+ pad 8 n +:+ ".manifest".

Definition sealedKey (track : TrackPath) (epoch first last : N) : string :=
  track +:+ "/" +:+ epochDir epoch +:+ "/" +:+ sealedPrefix +:+ pad 8 first +:+ "-" +:+
    pad 8 last +:+ ".manifest".

Definition groupKey (track : TrackPath) (id : GroupID) : string :=
  track +:+ "/" +:+ epochDir (Epoch id) +:+ "/" +:+ groupPrefix +:+ "g" +:+ pad 8 (Sequence id).

(** ** Manifest types *)

(** [TrackSchema] (ledger/track.go). *)
Record TrackSchema := mkTrackSchema {
  Timescale : N;
  TimeSource : string;
  ts_MIME : string;
  ts_Encoding : string;
}.

Record trackRoot := mkTrackRoot {
  tr_Version : Z;
  tr_Track : TrackPath;
  tr_Timescale : N;
  tr_TimeSource : string;
  tr_MIME : string;
  tr_Encoding : string;
  LatestEpoch : N;
  tr_CreatedAt : Z;
}.

Definition schema (m : trackRoot) : TrackSchema :=
  mkTrackSchema (tr_Timescale m) (tr_TimeSource m) (tr_MIME m) (tr_Encoding m).

Record sealedRef := mkSealedRef {
  Key : string;
  FirstDelta : N;
  LastDelta : N;
  Groups : Z;
  MediaStart : Z;
  MediaEnd : Z;
  WallclockStart : Z;
  WallclockEnd : Z;
  First : GroupID;
  Last : GroupID;
}.

Record epochLogRoot := mkEpochLogRoot {
  el_Version : Z;
  el_Track : TrackPath;
  el_Epoch : N;
  Sealed : list sealedRef;
  OpenFrom : N;
  el_CreatedAt : Z;
}.

Record deltaManifest := mkDelta {
  d_Version : Z;
  d_Seq : N;
  d_Groups : list GroupInfo;
  CommittedAt : Z;
}.

Record sealedManifest := mkSealed {
  s_Version : Z;
  s_Track : TrackPath;
  s_Epoch : N;
  s_Seq : N;
  s_FirstDelta : N;
  s_LastDelta : N;
  s_Groups : list GroupInfo;
  SealedAt : Z;
}.

Record head := mkHead {
  h_Version : Z;
  Delta : N;
  Latest : GroupID;
  UpdatedAt : Z;
}.

#[export] Instance TrackSchema_eq_dec : EqDecision TrackSchema.
Proof. solve_decision. Defined.
#[export] Instance trackRoot_eq_dec : EqDecision trackRoot.
Proof. solve_decision. Defined.
#[export] Instance sealedRef_eq_dec : EqDecision sealedRef.
Proof. solve_decision. Defined.
#[export] Instance epochLogRoot_eq_dec : EqDecision epochLogRoot.
Proof. solve_decision. Defined.
#[export] Instance deltaManifest_eq_dec : EqDecision deltaManifest.
Proof. solve_decision. Defined.
#[export] Instance sealedManifest_eq_dec : EqDecision sealedManifest.
Proof. solve_decision. Defined.
#[export] Instance head_eq_dec : EqDecision head.
Proof. solve_decision. Defined.

Definition zeroSealedRef : sealedRef := mkSealedRef "" 0 0 0 0 0 0 0 0 0.

(** One round of [summarize]'s loop over the groups: the wallclock bounds cover
    only the groups that carry an anchor. *)
Definition summarize_wallclock (bounds : Z * Z) (g : GroupInfo) : Z * Z :=
  let '(start, stop) := bounds in
  if negb (hasWallclock g) then (start, stop)
  else
    (if (start =? 0)%Z || (Wallclock g <? start)%Z then Wallclock g else start,
     Z.max stop (Wallclock g)).

Definition summarize (m : sealedManifest) (key : string) : sealedRef :=
  let ref := {| zeroSealedRef with
    Key := key; FirstDelta := s_FirstDelta m; LastDelta := s_LastDelta m;
    Groups := Z.of_nat (length (s_Groups m)) |} in
  match s_Groups m with
  | [] => ref
  | first :: _ =>
      let last := default first (last (s_Groups m)) in
      let '(start, stop) := foldl summarize_wallclock (0%Z, 0%Z) (s_Groups m) in
      {| ref with
        First := ID first; Last := ID last;
        MediaStart := MediaTime first; MediaEnd := mediaEnd last;
        WallclockStart := start; WallclockEnd := stop |}
  end.

(** ** JSON form *)

Definition GroupInfo_json (g : GroupInfo) : json := JObj (
  member "id" (encode_uint (ID g)) ++
  member "mediaTime" (encode_int (MediaTime g)) ++
  omitempty (Duration g =? 0)%Z "duration" (encode_int (Duration g)) ++
  omitempty (Wallclock g =? 0)%Z "wallclock" (encode_int (Wallclock g)) ++
  omitempty (ObjectCount g =? 0)%N "objectCount" (encode_uint (ObjectCount g)) ++
  member "objectKey" (JStr (ObjectKey g)) ++
  member "size" (encode_int (Size g)) ++
  omitempty (String.eqb (MIME g) "") "mime" (JStr (MIME g)) ++
  omitempty (String.eqb (Encoding g) "") "encoding" (JStr (Encoding g))).

Definition GroupInfo_assign (k : string) (v : json) (g : GroupInfo) : option GroupInfo :=
  if name_matches k "id" then (λ x, {| g with ID := x |}) <$> decode_uint 64 v (ID g)
  else if name_matches k "mediaTime" then (λ x, {| g with MediaTime := x |}) <$> decode_int v (MediaTime g)
  else if name_matches k "duration" then (λ x, {| g with Duration := x |}) <$> decode_int v (Duration g)
  else if name_matches k "wallclock" then (λ x, {| g with Wallclock := x |}) <$> decode_int v (Wallclock g)
  else if name_matches k "objectCount" then
    (λ x, {| g with ObjectCount := x |}) <$> decode_uint 64 v (ObjectCount g)
  else if name_matches k "objectKey" then
    (λ x, {| g with ObjectKey := x |}) <$> decode_string v (ObjectKey g)
  else if name_matches k "size" then (λ x, {| g with Size := x |}) <$> decode_int v (Size g)
  else if name_matches k "mime" then (λ x, {| g with MIME := x |}) <$> decode_string v (MIME g)
  else if name_matches k "encoding" then (λ x, {| g with Encoding := x |}) <$> decode_string v (Encoding g)
  else Some g.

Definition GroupInfo_of_json : json → option GroupInfo := decode_struct GroupInfo_assign zeroGroupInfo.

Definition trackRoot_json (m : trackRoot) : json := JObj (
  member "version" (encode_int (tr_Version m)) ++
  member "track" (JStr (tr_Track m)) ++
  member "timescale" (encode_uint (tr_Timescale m)) ++
  member "timeSource" (JStr (tr_TimeSource m)) ++
  omitempty (String.eqb (tr_MIME m) "") "mime" (JStr (tr_MIME m)) ++
  omitempty (String.eqb (tr_Encoding m) "") "encoding" (JStr (tr_Encoding m)) ++
  member "latestEpoch" (encode_uint (LatestEpoch m)) ++
  member "createdAt" (encode_int (tr_CreatedAt m))).

Definition trackRoot_assign (k : string) (v : json) (m : trackRoot) : option trackRoot :=
  if name_matches k "version" then (λ x, {| m with tr_Version := x |}) <$> decode_int v (tr_Version m)
  else if name_matches k "track" then (λ x, {| m with tr_Track := x |}) <$> decode_string v (tr_Track m)
  else if name_matches k "timescale" then
    (λ x, {| m with tr_Timescale := x |}) <$> decode_uint 32 v (tr_Timescale m)
  else if name_matches k "timeSource" then
    (λ x, {| m with tr_TimeSource := x |}) <$> decode_string v (tr_TimeSource m)
  else if name_matches k "mime" then (λ x, {| m with tr_MIME := x |}) <$> decode_string v (tr_MIME m)
  else if name_matches k "encoding" then (λ x, {| m with tr_Encoding := x |}) <$> decode_string v (tr_Encoding m)
  else if name_matches k "latestEpoch" then
    (λ x, {| m with LatestEpoch := x |}) <$> decode_uint 64 v (LatestEpoch m)
  else if name_matches k "createdAt" then
    (λ x, {| m with tr_CreatedAt := x |}) <$> decode_int v (tr_CreatedAt m)
  else Some m.

Definition zeroTrackRoot : trackRoot := mkTrackRoot 0 "" 0 "" "" "" 0 0.

Definition sealedRef_json (r : sealedRef) : json := JObj (
  member "key" (JStr (Key r)) ++
  member "firstDelta" (encode_uint (FirstDelta r)) ++
  member "lastDelta" (encode_uint (LastDelta r)) ++
  member "groups" (encode_int (Groups r)) ++
  member "mediaStart" (encode_int (MediaStart r)) ++
  member "mediaEnd" (encode_int (MediaEnd r)) ++
  omitempty (WallclockStart r =? 0)%Z "wallclockStart" (encode_int (WallclockStart r)) ++
  omitempty (WallclockEnd r =? 0)%Z "wallclockEnd" (encode_int (WallclockEnd r)) ++
  member "first" (encode_uint (First r)) ++
  member "last" (encode_uint (Last r))).

Definition sealedRef_assign (k : string) (v : json) (r : sealedRef) : option sealedRef :=
  if name_matches k "key" then (λ x, {| r with Key := x |}) <$> decode_string v (Key r)
  else if name_matches k "firstDelta" then
    (λ x, {| r with FirstDelta := x |}) <$> decode_uint 64 v (FirstDelta r)
  else if name_matches k "lastDelta" then
    (λ x, {| r with LastDelta := x |}) <$> decode_uint 64 v (LastDelta r)
  else if name_matches k "groups" then (λ x, {| r with Groups := x |}) <$> decode_int v (Groups r)
  else if name_matches k "mediaStart" then
    (λ x, {| r with MediaStart := x |}) <$> decode_int v (MediaStart r)
  else if name_matches k "mediaEnd" then (λ x, {| r with MediaEnd := x |}) <$> decode_int v (MediaEnd r)
  else if name_matches k "wallclockStart" then
    (λ x, {| r with WallclockStart := x |}) <$> decode_int v (WallclockStart r)
  else if name_matches k "wallclockEnd" then
    (λ x, {| r with WallclockEnd := x |}) <$> decode_int v (WallclockEnd r)
  else if name_matches k "first" then (λ x, {| r with First := x |}) <$> decode_uint 64 v (First r)
  else if name_matches k "last" then (λ x, {| r with Last := x |}) <$> decode_uint 64 v (Last r)
  else Some r.

Definition sealedRef_of_json : json → option sealedRef := decode_struct sealedRef_assign zeroSealedRef.

Definition epochLogRoot_json (m : epochLogRoot) : json := JObj (
  member "version" (encode_int (el_Version m)) ++
  member "track" (JStr (el_Track m)) ++
  member "epoch" (encode_uint (el_Epoch m)) ++
  member "sealed" (encode_list sealedRef_json (Sealed m)) ++
  member "openFrom" (encode_uint (OpenFrom m)) ++
  member "createdAt" (encode_int (el_CreatedAt m))).

Definition epochLogRoot_assign (k : string) (v : json) (m : epochLogRoot) : option epochLogRoot :=
  if name_matches k "version" then (λ x, {| m with el_Version := x |}) <$> decode_int v (el_Version m)
  else if name_matches k "track" then (λ x, {| m with el_Track := x |}) <$> decode_string v (el_Track m)
  else if name_matches k "epoch" then (λ x, {| m with el_Epoch := x |}) <$> decode_uint 64 v (el_Epoch m)
  else if name_matches k "sealed" then
    (λ x, {| m with Sealed := x |}) <$> decode_list sealedRef_of_json v (Sealed m)
  else if name_matches k "openFrom" then
    (λ x, {| m with OpenFrom := x |}) <$> decode_uint 64 v (OpenFrom m)
  else if name_matches k "createdAt" then
    (λ x, {| m with el_CreatedAt := x |}) <$> decode_int v (el_CreatedAt m)
  else Some m.

Definition zeroEpochLogRoot : epochLogRoot := mkEpochLogRoot 0 "" 0 [] 0 0.

Definition deltaManifest_json (m : deltaManifest) : json := JObj (
  member "version" (encode_int (d_Version m)) ++
  member "seq" (encode_uint (d_Seq m)) ++
  member "groups" (encode_list GroupInfo_json (d_Groups m)) ++
  member "committedAt" (encode_int (CommittedAt m))).

Definition deltaManifest_assign (k : string) (v : json) (m : deltaManifest) : option deltaManifest :=
  if name_matches k "version" then (λ x, {| m with d_Version := x |}) <$> decode_int v (d_Version m)
  else if name_matches k "seq" then (λ x, {| m with d_Seq := x |}) <$> decode_uint 64 v (d_Seq m)
  else if name_matches k "groups" then
    (λ x, {| m with d_Groups := x |}) <$> decode_list GroupInfo_of_json v (d_Groups m)
  else if name_matches k "committedAt" then
    (λ x, {| m with CommittedAt := x |}) <$> decode_int v (CommittedAt m)
  else Some m.

Definition zeroDelta : deltaManifest := mkDelta 0 0 [] 0.

Definition sealedManifest_json (m : sealedManifest) : json := JObj (
  member "version" (encode_int (s_Version m)) ++
  member "track" (JStr (s_Track m)) ++
  member "epoch" (encode_uint (s_Epoch m)) ++
  member "seq" (encode_uint (s_Seq m)) ++
  member "firstDelta" (encode_uint (s_FirstDelta m)) ++
  member "lastDelta" (encode_uint (s_LastDelta m)) ++
  member "groups" (encode_list GroupInfo_json (s_Groups m)) ++
  member "sealedAt" (encode_int (SealedAt m))).

Definition sealedManifest_assign (k : string) (v : json) (m : sealedManifest) : option sealedManifest :=
  if name_matches k "version" then (λ x, {| m with s_Version := x |}) <$> decode_int v (s_Version m)
  else if name_matches k "track" then (λ x, {| m with s_Track := x |}) <$> decode_string v (s_Track m)
  else if name_matches k "epoch" then (λ x, {| m with s_Epoch := x |}) <$> decode_uint 64 v (s_Epoch m)
  else if name_matches k "seq" then (λ x, {| m with s_Seq := x |}) <$> decode_uint 64 v (s_Seq m)
  else if name_matches k "firstDelta" then
    (λ x, {| m with s_FirstDelta := x |}) <$> decode_uint 64 v (s_FirstDelta m)
  else if name_matches k "lastDelta" then
    (λ x, {| m with s_LastDelta := x |}) <$> decode_uint 64 v (s_LastDelta m)
  else if name_matches k "groups" then
    (λ x, {| m with s_Groups := x |}) <$> decode_list GroupInfo_of_json v (s_Groups m)
  else if name_matches k "sealedAt" then
    (λ x, {| m with SealedAt := x |}) <$> decode_int v (SealedAt m)
  else Some m.

Definition zeroSealed : sealedManifest := mkSealed 0 "" 0 0 0 0 [] 0.

Definition head_json (h : head) : json := JObj (
  member "version" (encode_int (h_Version h)) ++
  member "delta" (encode_uint (Delta h)) ++
  member "latest" (encode_uint (Latest h)) ++
  member "updatedAt" (encode_int (UpdatedAt h))).

Definition head_assign (k : string) (v : json) (h : head) : option head :=
  if name_matches k "version" then (λ x, {| h with h_Version := x |}) <$> decode_int v (h_Version h)
  else if name_matches k "delta" then (λ x, {| h with Delta := x |}) <$> decode_uint 64 v (Delta h)
  else if name_matches k "latest" then (λ x, {| h with Latest := x |}) <$> decode_uint 64 v (Latest h)
  else if name_matches k "updatedAt" then
    (λ x, {| h with UpdatedAt := x |}) <$> decode_int v (UpdatedAt h)
  else Some h.

Definition zeroHead : head := mkHead 0 0 0 0.

(** ** encodeManifest and decodeManifest

    What the manifests' components promise the rest of the ledger: a manifest
    type has a JSON form, a version, and reads back as written when its strings
    are valid UTF-8 and its integers fit their Go types. *)

Class Manifest (A : Type) := {
  to_json : A → json;
  of_json : json → option A;
  version_of : A → Z;
  wf_manifest : A → Prop;
  of_to_json a : wf_manifest a → of_json (to_json a) = Some a;
  wf_to_json a : wf_manifest a → wf_json (to_json a);
}.

(** [encodeManifest]: [json.Marshal] of these types does not fail. *)
Definition encodeManifest `{Manifest A} (v : A) : bytes := print (to_json v).

Definition decodeManifest `{Manifest A} (data : bytes) : result A :=
  match parse data ≫= of_json with
  | None => Err []
  | Some out => if (manifestVersion <? version_of out)%Z then Err [ErrUnsupportedVersion] else Ok out
  end.

Lemma decode_encode `{Manifest A} (v : A) :
  wf_manifest v → (version_of v <= manifestVersion)%Z → decodeManifest (encodeManifest v) = Ok v.
Proof.
  intros Hwf Hv. unfold decodeManifest, encodeManifest.
  rewrite parse_print by (by apply wf_to_json). cbn [mbind option_bind].
  rewrite of_to_json by done. by rewrite (proj2 (Z.ltb_ge _ _) Hv).
Qed.

Lemma decode_encode_any `{Manifest A} (v : A) :
  wf_manifest v →
  decodeManifest (encodeManifest v) =
    if (version_of v <=? manifestVersion)%Z then Ok v else Err [ErrUnsupportedVersion].
Proof.
  intros Hwf. unfold decodeManifest, encodeManifest.
  rewrite parse_print by (by apply wf_to_json). cbn [mbind option_bind].
  rewrite of_to_json by done. by rewrite Z.leb_antisym; destruct (_ <? _)%Z.
Qed.

(** ** Field lemmas *)

Lemma decode_encode_uint bits n old :
  is_u64 n → (n < 2 ^ bits)%N → decode_uint bits (encode_uint n) old = Some n.
Proof.
  intros Hu Hb. unfold decode_uint, encode_uint, ParseUint.
  rewrite (proj2 (String.eqb_neq (FormatUint n) "") (format_digits_nonempty _ n "")).
  rewrite FormatUint_parse by done. by rewrite (proj2 (N.ltb_lt _ _) Hb).
Qed.

Lemma decode_encode_u64 n old : is_u64 n → decode_uint 64 (encode_uint n) old = Some n.
Proof. intros. by apply decode_encode_uint. Qed.

Lemma decode_encode_int z old : is_i64 z → decode_int (encode_int z) old = Some z.
Proof. apply FormatInt_parse. Qed.

Lemma decode_encode_list {A} (enc : A → json) dec (l : list A) old :
  Forall (λ x, dec (enc x) = Some x) l → decode_list dec (encode_list enc l) old = Some l.
Proof.
  intros Hl. destruct Hl as [|x l Hx Hl]; [done|]. simpl. rewrite Hx.
  assert (decode_all dec (map enc l) = Some l) as ->; [|done].
  induction Hl as [|y l Hy Hl IH]; simpl; [done|]. by rewrite Hy, IH.
Qed.

Lemma wf_encode_uint n : wf_json (encode_uint n).
Proof.
  unfold encode_uint. rewrite <-(N2Z.id n).
  replace (FormatUint (Z.to_N (Z.of_N n))) with (FormatInt (Z.of_N n)); [constructor|].
  unfold FormatInt. by rewrite (proj2 (Z.ltb_ge _ _) (N2Z.is_nonneg n)).
Qed.

Lemma wf_encode_int z : wf_json (encode_int z).
Proof. constructor. Qed.

Lemma wf_encode_list {A} (enc : A → json) (l : list A) :
  Forall (λ x, wf_json (enc x)) l → wf_json (encode_list enc l).
Proof. destruct 1 as [|x l Hx Hl]; constructor; simpl. constructor; [done|]. by apply Forall_map. Qed.

Lemma wf_members_app l1 l2 :
  wf_json (JObj l1) → wf_json (JObj l2) → wf_json (JObj (l1 ++ l2)).
Proof. inversion 1; inversion 1; subst. constructor. by apply Forall_app. Qed.

Lemma wf_member name j : valid_utf8 name = true → wf_json j → wf_json (JObj (member name j)).
Proof. intros. constructor. by repeat constructor. Qed.

Lemma wf_omitempty b name j :
  valid_utf8 name = true → wf_json j → wf_json (JObj (omitempty b name j)).
Proof. intros. destruct b; constructor; by repeat constructor. Qed.

Create HintDb manifest.
#[export] Hint Resolve wf_encode_uint wf_encode_int wf_encode_list wf_str : manifest.

(** A struct's JSON form is a well-formed document. *)
Ltac wf_struct :=
  repeat first
    [ apply wf_members_app
    | apply wf_member; [reflexivity|]
    | apply wf_omitempty; [reflexivity|] ]; auto with manifest.

(** Decoding a struct's own JSON form: settle which members are present, then
    assign them one at a time. *)
Ltac decode_member :=
  first
    [ rewrite decode_encode_u64 by assumption
    | rewrite decode_encode_uint by assumption
    | rewrite decode_encode_int by assumption
    | rewrite decode_encode_list by assumption ].

Ltac eval_names :=
  repeat match goal with
  | |- context [name_matches ?a ?b] =>
      let r := eval vm_compute in (name_matches a b) in change (name_matches a b) with r
  end; cbv iota.

Ltac reduce_struct :=
  cbn -[decode_uint decode_int decode_list encode_uint encode_int encode_list].

Ltac assign_all assign :=
  cbn [decode_struct assign_members app]; unfold assign; eval_names; reduce_struct;
  repeat (decode_member; reduce_struct);
  reflexivity.

(** ** The manifest types are manifests *)

Definition wf_GroupInfo (g : GroupInfo) : Prop :=
  wf_group g ∧ valid_utf8 (ObjectKey g) = true ∧ valid_utf8 (MIME g) = true ∧
  valid_utf8 (Encoding g) = true.

Lemma GroupInfo_of_to g : wf_GroupInfo g → GroupInfo_of_json (GroupInfo_json g) = Some g.
Proof.
  destruct g as [id mt du wc oc ok sz mi en]. unfold wf_GroupInfo, wf_group. simpl.
  intros ((?&?&?&?&?&?)&?&?&?). unfold GroupInfo_of_json, GroupInfo_json, omitempty, member. simpl.
  destruct (Z.eqb_spec du 0) as [->|]; destruct (Z.eqb_spec wc 0) as [->|];
  destruct (N.eqb_spec oc 0) as [->|]; destruct (String.eqb_spec mi "") as [->|];
  destruct (String.eqb_spec en "") as [->|]; assign_all GroupInfo_assign.
Qed.

Lemma GroupInfo_wf_json g : wf_GroupInfo g → wf_json (GroupInfo_json g).
Proof. intros (_&?&?&?). unfold GroupInfo_json. wf_struct. Qed.

Definition wf_sealedRef (r : sealedRef) : Prop :=
  valid_utf8 (Key r) = true ∧ is_u64 (FirstDelta r) ∧ is_u64 (LastDelta r) ∧ is_i64 (Groups r) ∧
  is_i64 (MediaStart r) ∧ is_i64 (MediaEnd r) ∧ is_i64 (WallclockStart r) ∧
  is_i64 (WallclockEnd r) ∧ is_u64 (First r) ∧ is_u64 (Last r).

Lemma sealedRef_of_to r : wf_sealedRef r → sealedRef_of_json (sealedRef_json r) = Some r.
Proof.
  destruct r as [ky fd ld gs ms me ws we fi la]. unfold wf_sealedRef. simpl.
  intros (?&?&?&?&?&?&?&?&?&?). unfold sealedRef_of_json, sealedRef_json, omitempty, member. simpl.
  destruct (Z.eqb_spec ws 0) as [->|]; destruct (Z.eqb_spec we 0) as [->|];
    assign_all sealedRef_assign.
Qed.

Lemma sealedRef_wf_json r : wf_sealedRef r → wf_json (sealedRef_json r).
Proof. intros (?&_). unfold sealedRef_json. wf_struct. Qed.

#[export] Hint Resolve GroupInfo_of_to GroupInfo_wf_json sealedRef_of_to sealedRef_wf_json : manifest.

Lemma Forall_groups_of_to l :
  Forall wf_GroupInfo l → Forall (λ g, GroupInfo_of_json (GroupInfo_json g) = Some g) l.
Proof. intros. eapply Forall_impl; [done|]. auto with manifest. Qed.

Lemma Forall_groups_wf l : Forall wf_GroupInfo l → Forall (λ g, wf_json (GroupInfo_json g)) l.
Proof. intros. eapply Forall_impl; [done|]. auto with manifest. Qed.

Lemma Forall_refs_of_to l :
  Forall wf_sealedRef l → Forall (λ r, sealedRef_of_json (sealedRef_json r) = Some r) l.
Proof. intros. eapply Forall_impl; [done|]. auto with manifest. Qed.

Lemma Forall_refs_wf l : Forall wf_sealedRef l → Forall (λ r, wf_json (sealedRef_json r)) l.
Proof. intros. eapply Forall_impl; [done|]. auto with manifest. Qed.

#[export] Hint Resolve Forall_groups_of_to Forall_groups_wf Forall_refs_of_to Forall_refs_wf : manifest.

#[export] Program Instance trackRoot_manifest : Manifest trackRoot := {
  to_json := trackRoot_json;
  of_json := decode_struct trackRoot_assign zeroTrackRoot;
  version_of := tr_Version;
  wf_manifest m := is_i64 (tr_Version m) ∧ valid_utf8 (tr_Track m) = true ∧
    (tr_Timescale m < 2 ^ 32)%N ∧ valid_utf8 (tr_TimeSource m) = true ∧
    valid_utf8 (tr_MIME m) = true ∧ valid_utf8 (tr_Encoding m) = true ∧
    is_u64 (LatestEpoch m) ∧ is_i64 (tr_CreatedAt m);
}.
Next Obligation.
  intros [ve tk ts src mi en le ca]. simpl. intros (?&?&?&?&?&?&?&?).
  assert (is_u64 ts) by (unfold is_u64, two64; lia).
  unfold trackRoot_json, omitempty, member. simpl.
  destruct (String.eqb_spec mi "") as [->|]; destruct (String.eqb_spec en "") as [->|];
    assign_all trackRoot_assign.
Qed.
Next Obligation. intros m (?&?&?&?&?&?&?&?). unfold trackRoot_json. wf_struct. Qed.

#[export] Program Instance epochLogRoot_manifest : Manifest epochLogRoot := {
  to_json := epochLogRoot_json;
  of_json := decode_struct epochLogRoot_assign zeroEpochLogRoot;
  version_of := el_Version;
  wf_manifest m := is_i64 (el_Version m) ∧ valid_utf8 (el_Track m) = true ∧ is_u64 (el_Epoch m) ∧
    Forall wf_sealedRef (Sealed m) ∧ is_u64 (OpenFrom m) ∧ is_i64 (el_CreatedAt m);
}.
Next Obligation.
  intros [ve tk ep se op ca]. simpl. intros (?&?&?&?%Forall_refs_of_to&?&?).
  unfold epochLogRoot_json, member. simpl. assign_all epochLogRoot_assign.
Qed.
Next Obligation. intros m (?&?&?&?&?&?). unfold epochLogRoot_json. wf_struct. Qed.

#[export] Program Instance deltaManifest_manifest : Manifest deltaManifest := {
  to_json := deltaManifest_json;
  of_json := decode_struct deltaManifest_assign zeroDelta;
  version_of := d_Version;
  wf_manifest m := is_i64 (d_Version m) ∧ is_u64 (d_Seq m) ∧ Forall wf_GroupInfo (d_Groups m) ∧
    is_i64 (CommittedAt m);
}.
Next Obligation.
  intros [ve sq gs ca]. simpl. intros (?&?&?%Forall_groups_of_to&?).
  unfold deltaManifest_json, member. simpl. assign_all deltaManifest_assign.
Qed.
Next Obligation. intros m (?&?&?&?). unfold deltaManifest_json. wf_struct. Qed.

#[export] Program Instance sealedManifest_manifest : Manifest sealedManifest := {
  to_json := sealedManifest_json;
  of_json := decode_struct sealedManifest_assign zeroSealed;
  version_of := s_Version;
  wf_manifest m := is_i64 (s_Version m) ∧ valid_utf8 (s_Track m) = true ∧ is_u64 (s_Epoch m) ∧
    is_u64 (s_Seq m) ∧ is_u64 (s_FirstDelta m) ∧ is_u64 (s_LastDelta m) ∧
    Forall wf_GroupInfo (s_Groups m) ∧ is_i64 (SealedAt m);
}.
Next Obligation.
  intros [ve tk ep sq fd ld gs sa]. simpl. intros (?&?&?&?&?&?&?%Forall_groups_of_to&?).
  unfold sealedManifest_json, member. simpl. assign_all sealedManifest_assign.
Qed.
Next Obligation. intros m (?&?&?&?&?&?&?&?). unfold sealedManifest_json. wf_struct. Qed.

#[export] Program Instance head_manifest : Manifest head := {
  to_json := head_json;
  of_json := decode_struct head_assign zeroHead;
  version_of := h_Version;
  wf_manifest h := is_i64 (h_Version h) ∧ is_u64 (Delta h) ∧ is_u64 (Latest h) ∧ is_i64 (UpdatedAt h);
}.
Next Obligation.
  intros [ve de la up]. simpl. intros (?&?&?&?). unfold head_json, member. simpl.
  assign_all head_assign.
Qed.
Next Obligation. intros h (?&?&?&?). unfold head_json. wf_struct. Qed.

(** ** The key layout is injective *)

(** The objects of one track. *)
Inductive objkey : Type :=
  | KRoot
  | KLog (e : N)
  | KHead (e : N)
  | KDelta (e n : N)
  | KSealed (e first last : N)
  | KGroup (e s : N)
  | KRedacted (e s : N).

#[export] Instance objkey_eq_dec : EqDecision objkey.
Proof. solve_decision. Defined.

Definition epoch_suffix (k : objkey) : string :=
  match k with
  | KRoot => ""
  | KLog _ => logObject
  | KHead _ => headObject
  | KDelta _ n => openPrefix +:+ pad 8 n +:+ ".manifest"
  | KSealed _ a b => sealedPrefix +:+ pad 8 a +:+ "-" +:+ pad 8 b +:+ ".manifest"
  | KGroup _ s => groupPrefix +:+ "g" +:+ pad 8 s
  | KRedacted _ s => redactedPrefix +:+ "g" +:+ pad 8 s
  end.

Definition key_epoch (k : objkey) : N :=
  match k with
  | KRoot => 0
  | KLog e | KHead e | KDelta e _ | KSealed e _ _ | KGroup e _ | KRedacted e _ => e
  end.

Definition render (track : TrackPath) (k : objkey) : string :=
  match k with
  | KRoot => track +:+ "/" +:+ rootObject
  | _ => track +:+ "/" +:+ epochDir (key_epoch k) +:+ "/" +:+ epoch_suffix k
  end.

Definition wf_key (k : objkey) : Prop :=
  match k with
  | KRoot => True
  | KLog e | KHead e => is_u64 e
  | KDelta e n | KGroup e n | KRedacted e n => is_u64 e ∧ is_u64 n
  | KSealed e a b => is_u64 e ∧ is_u64 a ∧ is_u64 b
  end.

Lemma wf_key_epoch k : wf_key k → is_u64 (key_epoch k).
Proof. destruct k; simpl; naive_solver. Qed.

(** Decimal texts that end at the same byte are the same. *)
Lemma pad_delim_inj w n m c t1 t2 :
  is_u64 n → is_u64 m → is_digit c = false →
  pad w n +:+ String c t1 = pad w m +:+ String c t2 → n = m ∧ t1 = t2.
Proof.
  intros Hn Hm Hc Heq.
  apply (split_at_delim is_digit) in Heq as (Heq & _ & ?); auto using pad_all_digits.
  split; [|done]. by apply (pad_inj w).
Qed.

(** The last path segment of a key, and the directory it is in. *)
Definition no_slash (c : ascii) : bool := negb (Ascii.eqb c "/").

Definition last_segment (k : objkey) : string :=
  match k with
  | KRoot => rootObject
  | KLog _ => logObject
  | KHead _ => "head"
  | KDelta _ n => pad 8 n +:+ ".manifest"
  | KSealed _ a b => "sealed-" +:+ pad 8 a +:+ "-" +:+ pad 8 b +:+ ".manifest"
  | KGroup _ s | KRedacted _ s => "g" +:+ pad 8 s
  end.

Definition subdir (k : objkey) : string :=
  match k with
  | KRoot | KLog _ => ""
  | KHead _ | KSealed _ _ _ => "/delta"
  | KDelta _ _ => "/delta/open"
  | KGroup _ _ => "/groups"
  | KRedacted _ _ => "/redacted"
  end.

Definition dir (track : TrackPath) (k : objkey) : string :=
  match k with
  | KRoot => track
  | _ => (track +:+ String "/" (epochDir (key_epoch k))) +:+ subdir k
  end.

Lemma render_dir track k : render track k = dir track k +:+ String "/" (last_segment k).
Proof. destruct k; unfold dir; simpl; by rewrite <-?string_app_assoc. Qed.

Lemma all_chars_impl (p q : ascii → bool) s :
  (∀ c, p c = true → q c = true) → all_chars p s = true → all_chars q s = true.
Proof. intros Hpq. induction s as [|c s IH]; simpl; [done|]. intros [??]%andb_prop. by rewrite Hpq, IH. Qed.

Lemma digit_no_slash c : is_digit c = true → no_slash c = true.
Proof. destruct c as [[][][][][][][][]]; done. Qed.

Lemma pad_no_slash w n : all_chars no_slash (pad w n) = true.
Proof. eapply all_chars_impl; [apply digit_no_slash|apply pad_all_digits]. Qed.

Lemma last_segment_no_slash k : all_chars no_slash (last_segment k) = true.
Proof. by destruct k; simpl; repeat (rewrite ?all_chars_app, ?pad_no_slash; simpl). Qed.

(** Splitting at the last delimiter. *)
Lemma split_at_last (p : ascii → bool) s1 s2 c1 c2 t1 t2 :
  all_chars p t1 = true → all_chars p t2 = true → p c1 = false → p c2 = false →
  s1 +:+ String c1 t1 = s2 +:+ String c2 t2 → s1 = s2 ∧ c1 = c2 ∧ t1 = t2.
Proof.
  revert s2. induction s1 as [|a s1 IH]; intros [|b s2] H1 H2 Hc1 Hc2 Heq; simpl in *; simplify_eq.
  - done.
  - rewrite all_chars_app in H1. simpl in H1. bool_to_prop. congruence.
  - rewrite all_chars_app in H2. simpl in H2. bool_to_prop. congruence.
  - edestruct (IH s2) as (->&->&->); eauto.
Qed.

Lemma split_segment d1 d2 t1 t2 :
  all_chars no_slash t1 = true → all_chars no_slash t2 = true →
  d1 +:+ String "/" t1 = d2 +:+ String "/" t2 → d1 = d2 ∧ t1 = t2.
Proof. intros H1 H2 Heq. apply (split_at_last no_slash) in Heq as (?&_&?); auto. Qed.

(** The last segment tells the kinds of objects apart, groups and their
    redaction markers excepted. *)
Lemma pad_head_ne w n c t u : is_digit c = false → pad w n +:+ t ≠ String c u.
Proof.
  intros Hc Heq. pose proof (pad_nonempty w n). pose proof (pad_all_digits w n) as Hd.
  destruct (pad w n) as [|d s]; [done|]. simpl in *. simplify_eq. bool_to_prop. congruence.
Qed.

Lemma last_segment_kind k1 k2 :
  wf_key k1 → wf_key k2 → last_segment k1 = last_segment k2 →
  (subdir k1 = subdir k2 ∧ (key_epoch k1 = key_epoch k2 → k1 = k2) ∧ (k1 = KRoot ↔ k2 = KRoot)) ∨
  (subdir k1 = "/groups" ∧ subdir k2 = "/redacted") ∨ (subdir k1 = "/redacted" ∧ subdir k2 = "/groups").
Proof.
  intros W1 W2 Heq. destruct k1, k2; simpl in *; destruct_and?; auto;
    try (by left; repeat split; intros; subst);
    try discriminate Heq;
    try (exfalso; by eapply pad_head_ne; [|exact Heq]);
    try (exfalso; by eapply pad_head_ne; [|symmetry; exact Heq]).
  - left. apply pad_delim_inj in Heq as [-> _]; [|done..]. repeat split; intros; by subst.
  - left. simplify_eq. apply pad_delim_inj in Heq as [-> Heq]; [|done..]. simpl in Heq.
    apply pad_delim_inj in Heq as [-> _]; [|done..]. repeat split; intros; by subst.
  - left. simplify_eq. apply (pad_inj 8) in Heq as ->; [|done..]. repeat split; intros; by subst.
  - left. simplify_eq. apply (pad_inj 8) in Heq as ->; [|done..]. repeat split; intros; by subst.
Qed.

Lemma render_inj t1 t2 k1 k2 :
  wf_key k1 → wf_key k2 → render t1 k1 = render t2 k2 → t1 = t2 ∧ k1 = k2.
Proof.
  intros W1 W2 Heq. rewrite !render_dir in Heq.
  apply split_segment in Heq as [Hdir Hseg]; [|apply last_segment_no_slash..].
  assert (∀ t k, k ≠ KRoot → dir t k = (t +:+ String "/" (epochDir (key_epoch k))) +:+ subdir k) as HD
    by by intros ? [].
  destruct (last_segment_kind _ _ W1 W2 Hseg) as [(Hsub & Hk & Hroot) | Hgr].
  - destruct (decide (k1 = KRoot)) as [->|N1]; [rewrite (proj1 Hroot eq_refl) in *; done|].
    assert (k2 ≠ KRoot) as N2 by tauto. rewrite !HD, Hsub in Hdir by done.
    apply string_app_inj_r, split_segment in Hdir as [-> He];
      [|simpl; by rewrite pad_no_slash..].
    unfold epochDir in He. simpl in He. simplify_eq.
    apply (pad_inj 6) in He; auto using wf_key_epoch.
  - exfalso. destruct Hgr as [[S1 S2] | [S1 S2]];
      (rewrite !HD, S1, S2 in Hdir by (by intros ->));
      by apply split_segment in Hdir as [_ ?].
Qed.

Lemma render_ne track k1 k2 :
  wf_key k1 → wf_key k2 → k1 ≠ k2 → render track k1 ≠ render track k2.
Proof. intros ??? [_ ?]%render_inj; auto. Qed.


(** C32 Manifests read back as written: every log root, delta and sealed manifest
    whose integers fit their Go types and whose strings are valid UTF-8 survives
    [encodeManifest] and [decodeManifest]; so do the track root and the head. A
    manifest of a later version than this code writes is refused, never read
    in part. *)
Theorem manifests_roundtrip :
  (∀ v : epochLogRoot, wf_manifest v →
     decodeManifest (encodeManifest v) =
       if (el_Version v <=? manifestVersion)%Z then Ok v else Err [ErrUnsupportedVersion]) ∧
  (∀ v : deltaManifest, wf_manifest v →
     decodeManifest (encodeManifest v) =
       if (d_Version v <=? manifestVersion)%Z then Ok v else Err [ErrUnsupportedVersion]) ∧
  (∀ v : sealedManifest, wf_manifest v →
     decodeManifest (encodeManifest v) =
       if (s_Version v <=? manifestVersion)%Z then Ok v else Err [ErrUnsupportedVersion]) ∧
  (∀ v : trackRoot, wf_manifest v →
     decodeManifest (encodeManifest v) =
       if (tr_Version v <=? manifestVersion)%Z then Ok v else Err [ErrUnsupportedVersion]) ∧
  (∀ v : head, wf_manifest v →
     decodeManifest (encodeManifest v) =
       if (h_Version v <=? manifestVersion)%Z then Ok v else Err [ErrUnsupportedVersion]).
Proof. split_and!; intros v Hv; exact (decode_encode_any v Hv). Qed.

(** * At concrete inputs *)


Definition sample_head : head := mkHead 1 7 (NewGroupID 3 42) 1700000000000000000.

Lemma manifests_roundtrip_witness :
  decodeManifest (encodeManifest sample_head) =
    if (h_Version sample_head <=? manifestVersion)%Z then Ok sample_head else Err [ErrUnsupportedVersion].
Proof.
  apply (proj2 (proj2 (proj2 (proj2 manifests_roundtrip))) sample_head).
  vm_compute. repeat split; discriminate.
Defined.
