(* ===== verification/Decode.v ===== *)
(** * What decodeManifest answers

    The manifests stored are bytes anyone may have written. Whatever they are, what
    [decodeManifest] makes of them fits the Go types of the manifest. *)

From S2P Require Import Prelude GoStd Json JsonProps Store Group Manifest.
#[local] Open Scope string_scope.
#[local] Open Scope list_scope.

(** ** Fields *)

Lemma parse_digits_u64 s : ∀ acc n, is_u64 acc → parse_digits acc s = Some n → is_u64 n.
Proof.
  induction s as [|c s IH]; intros acc n Ha; cbn [parse_digits]; [by intros [= <-]|].
  destruct (is_digit c); [|done]. cbv zeta. destruct (N.ltb_spec (10 * acc + digit_val c) two64); [|done].
  by apply IH.
Qed.

Lemma ParseUint_u64 s n : ParseUint s = Some n → is_u64 n.
Proof. unfold ParseUint. destruct (String.eqb s ""); [done|]. by apply parse_digits_u64. Qed.

Lemma ParseInt_i64 s z : ParseInt s = Some z → is_i64 z.
Proof.
  unfold ParseInt. destruct (match s with String "-" s' => _ | _ => _ end) as [neg digits].
  destruct (ParseUint digits) as [n|]; [|done]. unfold is_i64, MinInt64, MaxInt64.
  destruct neg; case_match eqn:E; try done; apply Z.leb_le in E; intros [= <-]; lia.
Qed.

Lemma decode_uint_bound bits j old n :
  (old < 2 ^ bits)%N → decode_uint bits j old = Some n → (n < 2 ^ bits)%N.
Proof.
  intros Ho. destruct j; cbn; try done; [by intros [= <-]|].
  destruct (ParseUint lit); [|done]. destruct (N.ltb_spec n0 (2 ^ bits)); [|done]. by intros [= <-].
Qed.

Lemma decode_u64 j old n : is_u64 old → decode_uint 64 j old = Some n → is_u64 n.
Proof. unfold is_u64. change two64 with (2 ^ 64)%N. apply decode_uint_bound. Qed.

Lemma decode_i64 j old z : is_i64 old → decode_int j old = Some z → is_i64 z.
Proof. intros Ho. destruct j; cbn; try done; [by intros [= <-]|apply ParseInt_i64]. Qed.

Lemma decode_utf8 j old s :
  utf8_json j → valid_utf8 old = true → decode_string j old = Some s → valid_utf8 s = true.
Proof. intros Hj Ho. destruct j; cbn; try done; [by intros [= <-]|]. intros [= <-]. by inversion Hj. Qed.

Lemma decode_list_all {A} (P : A → Prop) dec j old l :
  utf8_json j → (∀ j x, utf8_json j → dec j = Some x → P x) → decode_list dec j old = Some l → Forall P l.
Proof.
  intros Hj Hdec. destruct j as [| | | |js|]; cbn; try done; [intros [= <-]; constructor|].
  inversion_clear Hj as [| | | |? Hjs|]. revert l. induction Hjs as [|j js Hj _ IH]; intros l; cbn.
  - intros [= <-]. constructor.
  - destruct (dec j) as [x|] eqn:E; [|done]. destruct (decode_all dec js) as [xs|]; [|done].
    intros [= <-]. constructor; [by eapply Hdec|by apply IH].
Qed.

Lemma decode_struct_wf {A} (P : A → Prop) assign zero j x :
  utf8_json j → P zero →
  (∀ k v a a', utf8_json v → P a → assign k v a = Some a' → P a') →
  decode_struct assign zero j = Some x → P x.
Proof.
  intros Hj Hz Ha. destruct j as [| | | | |l]; cbn; try done; [by intros [= <-]|].
  inversion_clear Hj as [| | | | |? Hl]. revert zero Hz. induction Hl as [|[k v] l [_ Hv] _ IH]; intros zero Hz; cbn.
  - by intros [= <-].
  - destruct (assign k v zero) as [a|] eqn:E; [|done]. apply IH. by eapply Ha.
Qed.

Create HintDb typed.

(** The type of the member just decoded. *)
Ltac field_typed :=
  match goal with
  | E : decode_uint 64 _ _ = Some ?x |- is_u64 ?x => refine (decode_u64 _ _ _ _ E); assumption
  | E : decode_uint 32 _ _ = Some ?x |- (?x < _)%N => refine (decode_uint_bound 32 _ _ _ _ E); assumption
  | E : decode_int _ _ = Some ?x |- is_i64 ?x => refine (decode_i64 _ _ _ _ E); assumption
  | E : decode_string _ _ = Some ?x |- valid_utf8 ?x = true =>
      refine (decode_utf8 _ _ _ _ _ E); assumption
  | E : decode_list _ _ _ = Some ?x |- Forall _ ?x =>
      refine (decode_list_all _ _ _ _ _ _ _ E); eauto with typed
  end.

(** One member assigned keeps the struct's fields in their types. *)
Ltac assign_typed :=
  let H := fresh in
  intros ?k ?v ?a ?a' ? ? H;
  repeat match type of H with
  | (if ?b then _ else _) = _ => destruct b
  | fmap _ ?o = Some _ => let E := fresh in destruct o eqn:E; [|discriminate H]; cbn in H
  end;
  injection H as <-; simpl; simpl in *; destruct_and?; split_and?; first [assumption|field_typed].

(** ** The manifests *)

(** A manifest type whose decoder keeps to its Go types. *)
Class Typed (A : Type) `{Manifest A} := {
  of_json_typed j a : utf8_json j → of_json j = Some a → wf_manifest a;
}.

Lemma GroupInfo_typed j g : utf8_json j → GroupInfo_of_json j = Some g → wf_GroupInfo g.
Proof.
  intros Hj. apply (decode_struct_wf wf_GroupInfo); [done|by vm_compute|].
  unfold GroupInfo_assign, wf_GroupInfo, wf_group. assign_typed.
Qed.

Lemma sealedRef_typed j r : utf8_json j → sealedRef_of_json j = Some r → wf_sealedRef r.
Proof.
  intros Hj. apply (decode_struct_wf wf_sealedRef); [done|by vm_compute|].
  unfold sealedRef_assign, wf_sealedRef. assign_typed.
Qed.

#[export] Hint Resolve GroupInfo_typed sealedRef_typed : typed.

#[export] Instance trackRoot_typed : Typed trackRoot.
Proof.
  split. intros j a Hj. refine (decode_struct_wf (wf_manifest (A := trackRoot)) trackRoot_assign zeroTrackRoot j a Hj _ _);
    [by repeat split|].
  unfold trackRoot_assign. cbn [wf_manifest trackRoot_manifest]. assign_typed.
Qed.

#[export] Instance epochLogRoot_typed : Typed epochLogRoot.
Proof.
  split. intros j a Hj. refine (decode_struct_wf (wf_manifest (A := epochLogRoot)) epochLogRoot_assign zeroEpochLogRoot j a Hj _ _);
    [by repeat split|].
  unfold epochLogRoot_assign. cbn [wf_manifest epochLogRoot_manifest]. assign_typed.
Qed.

#[export] Instance deltaManifest_typed : Typed deltaManifest.
Proof.
  split. intros j a Hj. refine (decode_struct_wf (wf_manifest (A := deltaManifest)) deltaManifest_assign zeroDelta j a Hj _ _);
    [by repeat split|].
  unfold deltaManifest_assign. cbn [wf_manifest deltaManifest_manifest]. assign_typed.
Qed.

#[export] Instance sealedManifest_typed : Typed sealedManifest.
Proof.
  split. intros j a Hj. refine (decode_struct_wf (wf_manifest (A := sealedManifest)) sealedManifest_assign zeroSealed j a Hj _ _);
    [by repeat split|].
  unfold sealedManifest_assign. cbn [wf_manifest sealedManifest_manifest]. assign_typed.
Qed.

#[export] Instance head_typed : Typed head.
Proof.
  split. intros j a Hj. refine (decode_struct_wf (wf_manifest (A := head)) head_assign zeroHead j a Hj _ _);
    [by repeat split|].
  unfold head_assign. cbn [wf_manifest head_manifest]. assign_typed.
Qed.

Lemma decode_typed `{Typed A} data (v : A) :
  decodeManifest data = Ok v →
  wf_manifest v ∧ (version_of v <= manifestVersion)%Z ∧ decodeManifest (encodeManifest v) = Ok v.
Proof.
  intros Hd. assert (wf_manifest v ∧ (version_of v <= manifestVersion)%Z) as [Hwf Hv].
  { unfold decodeManifest in Hd. destruct (parse data) as [j|] eqn:Ep; [|done]. cbn in Hd.
    destruct (of_json j) as [a|] eqn:Ea; [|done].
    destruct (Z.ltb_spec manifestVersion (version_of a)); [done|]. injection Hd as <-.
    split; [|done]. eapply of_json_typed; [by eapply parse_utf8|done]. }
  split_and!; [done|done|]. by apply decode_encode.
Qed.

(** C33 Reading anything: whatever bytes are stored under the key of a manifest, what
    [decodeManifest] makes of them has every integer in the range of its Go type, every
    string valid UTF-8, a version this code understands, and is read back the same
    when it is written again. *)
Theorem decodeManifest_typed data :
  (∀ v : trackRoot, decodeManifest data = Ok v →
     wf_manifest v ∧ (tr_Version v <= manifestVersion)%Z ∧ decodeManifest (encodeManifest v) = Ok v) ∧
  (∀ v : epochLogRoot, decodeManifest data = Ok v →
     wf_manifest v ∧ (el_Version v <= manifestVersion)%Z ∧ decodeManifest (encodeManifest v) = Ok v) ∧
  (∀ v : deltaManifest, decodeManifest data = Ok v →
     wf_manifest v ∧ (d_Version v <= manifestVersion)%Z ∧ decodeManifest (encodeManifest v) = Ok v) ∧
  (∀ v : sealedManifest, decodeManifest data = Ok v →
     wf_manifest v ∧ (s_Version v <= manifestVersion)%Z ∧ decodeManifest (encodeManifest v) = Ok v) ∧
  (∀ v : head, decodeManifest data = Ok v →
     wf_manifest v ∧ (h_Version v <= manifestVersion)%Z ∧ decodeManifest (encodeManifest v) = Ok v).
Proof. split_and!; intros v Hv; exact (decode_typed data v Hv). Qed.

(** A head with its members in another order and case, and one it does not know. *)
Definition odd_head : bytes :=
  print (JObj [("DELTA", JNum "3"); ("extra", JArr [JNull; JObj []]); ("version", JNum "1")]).

Lemma decodeManifest_typed_witness :
  decodeManifest odd_head = Ok (mkHead 1 3 0 0) ∧ wf_manifest (mkHead 1 3 0 0) ∧
  decodeManifest (encodeManifest (mkHead 1 3 0 0)) = Ok (mkHead 1 3 0 0).
Proof.
  assert (decodeManifest odd_head = Ok (mkHead 1 3 0 0)) as Hd by by vm_compute.
  split; [exact Hd|]. destruct (decodeManifest_typed odd_head) as (_ & _ & _ & _ & H).
  destruct (H _ Hd) as (Hwf & _ & Hagain). split; [exact Hwf|exact Hagain].
Defined.
