(* ===== verification/Track.v ===== *)
(** * Tracks (ledger/track.go)

    Track paths and schemas, the handle a track is reached through, and the
    creation of tracks and of their epochs. The reads of the track root, an
    epoch's log root and its head pointer (ledger/reader.go) are here too, since
    every component uses them.

    A [Track]'s clock is the program's [now] and its logger is left out; its
    lock makes each method one step of the handle. *)

From S2P Require Import Prelude GoStd Store Group Manifest.
#[local] Open Scope string_scope.

(** ** Paths and schemas *)

(** [TrackPath.validate] *)
Definition TrackPath_validate (s : TrackPath) : option error :=
  if String.eqb s "" then Some [ErrInvalidTrackPath]
  else if HasPrefix s "/" then Some [ErrInvalidTrackPath]
  else if HasSuffix s "/" then Some [ErrInvalidTrackPath]
  else if ContainsChar s "\" then Some [ErrInvalidTrackPath]
  else if negb (String.eqb (Clean s) s) then Some [ErrInvalidTrackPath]
  else if String.eqb s ".." || HasPrefix s "../" then Some [ErrInvalidTrackPath]
  else None.

Definition TimeSourceFrame : string := "frame".
Definition TimeSourceIngest : string := "ingest".

Definition TimeSource_valid (s : string) : bool :=
  String.eqb s TimeSourceFrame || String.eqb s TimeSourceIngest.

(** [TrackSchema.validate] *)
Definition TrackSchema_validate (c : TrackSchema) : option error :=
  if (Timescale c =? 0)%N then Some [ErrInvalidGroup]
  else if negb (TimeSource_valid (TimeSource c)) then Some [ErrInvalidGroup]
  else None.

Record TrackInfo := mkTrackInfo {
  ti_Schema : TrackSchema;
  ti_Track : TrackPath;
  ti_LatestEpoch : N;
}.

(** ** Reading the roots *)

Definition fetchTrackRoot (track : TrackPath) : prog (result (trackRoot * Version)) :=
  r ← store_Get (rootKey track);
  mret match r with
  | Err e => if errors_Is e ErrNotExist then Err [ErrTrackNotFound] else Err e
  | Ok (data, version) =>
      match decodeManifest data with
      | Err e => Err e
      | Ok root =>
          if negb (String.eqb (tr_Track root) track) then Err [ErrManifestMismatch]
          else Ok (root, version)
      end
  end.

Definition fetchEpochLog (track : TrackPath) (epoch : N) : prog (result (epochLogRoot * Version)) :=
  r ← store_Get (epochLogKey track epoch);
  mret match r with
  | Err e => if errors_Is e ErrNotExist then Err [ErrEpochNotFound] else Err e
  | Ok (data, version) =>
      match decodeManifest data with
      | Err e => Err e
      | Ok root =>
          if negb (String.eqb (el_Track root) track) then Err [ErrManifestMismatch]
          else if negb (el_Epoch root =? epoch)%N then Err [ErrManifestMismatch]
          else Ok (root, version)
      end
  end.

Definition fetchHead (track : TrackPath) (epoch : N) : prog (result (head * Version)) :=
  r ← store_Get (headKey track epoch);
  mret match r with
  | Err e => Err e
  | Ok (data, version) =>
      match decodeManifest data with
      | Err e => Err e
      | Ok h => Ok (h, version)
      end
  end.

(** ** The handle *)

Definition DefaultSealThreshold : Z := 65536.

(** [Config], less its clock and logger. *)
Record Config := mkConfig { SealThreshold : Z }.

Record Track := mkTrack {
  t_path : TrackPath;
  t_sealThreshold : Z;
  t_root : trackRoot;
  t_rootVersion : Version;
}.

Definition resolveConfig (path : TrackPath) (cfg : Config) : Track :=
  mkTrack path
    (if (SealThreshold cfg <=? 0)%Z then DefaultSealThreshold else SealThreshold cfg)
    zeroTrackRoot NoVersion.

Definition Track_LatestEpoch (t : Track) : N := LatestEpoch (t_root t).

Definition Track_Root (t : Track) : TrackInfo :=
  mkTrackInfo (schema (t_root t)) (t_path t) (LatestEpoch (t_root t)).

(** [Reload]. *)
Definition Reload (t : Track) : prog (Track * option error) :=
  r ← fetchTrackRoot (t_path t);
  mret match r with
  | Err e => (t, Some e)
  | Ok (root, version) => ({| t with t_root := root; t_rootVersion := version |}, None)
  end.

(** ** Epochs *)

(** The [bump] of [advanceTrackRootLocked]: swap in [base] with its latest epoch
    raised. *)
Definition bump (path : TrackPath) (epoch : N) (base : trackRoot) (version : Version)
    : prog (result (trackRoot * Version)) :=
  let next := {| base with LatestEpoch := epoch |} in
  r ← store_Swap (rootKey path) (encodeManifest next) version;
  mret match r with
  | Err e => Err e
  | Ok v => Ok (next, v)
  end.

Definition advanceTrackRootLocked (t : Track) (epoch : N) : prog (Track * option error) :=
  if (epoch <=? LatestEpoch (t_root t))%N then mret (t, None)
  else
    let finish (t : Track) (r : result (trackRoot * Version)) : Track * option error :=
      match r with
      | Err e => (t, Some e)
      | Ok (next, version) => ({| t with t_root := next; t_rootVersion := version |}, None)
      end in
    r ← bump (t_path t) epoch (t_root t) (t_rootVersion t);
    match r with
    | Err e =>
        if errors_Is e ErrVersionMismatch || errors_Is e ErrNotExist then
          got ← fetchTrackRoot (t_path t);
          match got with
          | Err getErr => mret (t, Some getErr)
          | Ok (current, curVersion) =>
              let t := {| t with t_root := current; t_rootVersion := curVersion |} in
              if (epoch <=? LatestEpoch current)%N then mret (t, None)
              else
                r ← bump (t_path t) epoch current curVersion;
                mret (finish t r)
          end
        else mret (finish t r)
    | Ok _ => mret (finish t r)
    end.

Definition newEpochLog (path : TrackPath) (epoch : N) (createdAt : Z) : epochLogRoot :=
  mkEpochLogRoot manifestVersion path epoch [] 0 createdAt.

Definition createEpochLog (t : Track) (epoch : N) : prog (Track * option error) :=
  createdAt ← now;
  r ← store_Create (epochLogKey (t_path t) epoch)
        (encodeManifest (newEpochLog (t_path t) epoch createdAt));
  match r with
  | Err e => if errors_Is e ErrExist then advanceTrackRootLocked t epoch else mret (t, Some e)
  | Ok _ => advanceTrackRootLocked t epoch
  end.

Module ledger.
(** [ledger.Create] *)
Definition Create (path : TrackPath) (sch : TrackSchema) (cfg : Config) : prog (result Track) :=
  match TrackPath_validate path with
  | Some e => mret (Err e)
  | None =>
      match TrackSchema_validate sch with
      | Some e => mret (Err e)
      | None =>
          let t := resolveConfig path cfg in
          createdAt ← now;
          let root := mkTrackRoot manifestVersion path (Timescale sch) (TimeSource sch)
            (ts_MIME sch) (ts_Encoding sch) 1 createdAt in
          r ← store_Create (rootKey path) (encodeManifest root);
          match r with
          | Err e => mret (if errors_Is e ErrExist then Err [ErrTrackExists] else Err e)
          | Ok version =>
              let t := {| t with t_root := root; t_rootVersion := version |} in
              r ← createEpochLog t 1;
              let '(t, err) := r in
              mret match err with Some e => Err e | None => Ok t end
          end
      end
  end.

(** [ledger.Open] *)
Definition Open (path : TrackPath) (cfg : Config) : prog (result Track) :=
  match TrackPath_validate path with
  | Some e => mret (Err e)
  | None =>
      let t := resolveConfig path cfg in
      r ← fetchTrackRoot path;
      mret match r with
      | Err e => Err e
      | Ok (root, version) => Ok {| t with t_root := root; t_rootVersion := version |}
      end
  end.
End ledger.
