(* ===== verification/Paths.v ===== *)
(** * Paths

    What [path.Clean] does to a path of plain segments, and so which track paths
    [TrackPath.validate] accepts and what the keys under them look like. *)

From S2P Require Import Prelude GoStd Json Store Group Manifest Track.
#[local] Open Scope string_scope.
#[local] Open Scope list_scope.

(** ** Segments *)

Definition slash_free (s : string) : bool := all_chars no_slash s.

(** A segment [path.Clean] keeps as it is. *)
Definition plain (seg : string) : Prop := seg ≠ "" ∧ seg ≠ "." ∧ seg ≠ "..".

#[export] Instance plain_dec seg : Decision (plain seg).
Proof. unfold plain. apply _. Defined.

Lemma no_slash_eqb c : no_slash c = negb (Ascii.eqb c "/").
Proof. done. Qed.

Lemma segments_nonempty s : segments s ≠ [].
Proof. destruct s as [|c s]; simpl; [done|]. destruct (Ascii.eqb c "/"); [done|]. by destruct (segments s). Qed.

Lemma join_segments s : join (segments s) = s.
Proof.
  induction s as [|c s IH]; [done|]. simpl. pose proof (segments_nonempty s) as Hne.
  destruct (Ascii.eqb_spec c "/") as [->|Hc].
  - simpl. destruct (segments s) eqn:E; [done|]. by rewrite IH.
  - destruct (segments s) as [|seg [|seg' rest]]; [done|..]; simpl in *; by f_equal.
Qed.

Lemma segments_slash_free s : Forall (λ seg, slash_free seg = true) (segments s).
Proof.
  induction s as [|c s IH]; [by repeat constructor|]. simpl.
  destruct (Ascii.eqb c "/") eqn:Ec; [by constructor|].
  pose proof (segments_nonempty s) as Hne. destruct IH as [|seg rest Hseg Hrest]; [done|].
  constructor; [|done]. unfold slash_free. cbn [all_chars]. by rewrite no_slash_eqb, Ec.
Qed.

Lemma segments_one s : slash_free s = true → segments s = [s].
Proof.
  induction s as [|c s IH]; [done|]. unfold slash_free in *. simpl. rewrite no_slash_eqb.
  destruct (Ascii.eqb c "/"); [done|]. simpl. intros H. by rewrite (IH H).
Qed.

Lemma segments_app s t : segments (s +:+ String "/" t) = segments s ++ segments t.
Proof.
  induction s as [|c s IH]; [done|]. cbn [String.append segments]. destruct (Ascii.eqb c "/").
  - by rewrite IH.
  - rewrite IH. pose proof (segments_nonempty s). by destruct (segments s).
Qed.

Lemma segments_join segs :
  segs ≠ [] → Forall (λ seg, slash_free seg = true) segs → segments (join segs) = segs.
Proof.
  intros Hne H. induction H as [|seg rest Hseg Hrest IH]; [done|].
  destruct rest as [|seg' rest]; [by apply segments_one|].
  cbn [join]. rewrite segments_app, segments_one by done. simpl. f_equal. by apply IH.
Qed.

Lemma join_app a b : a ≠ [] → b ≠ [] → join (a ++ b) = join a +:+ String "/" (join b).
Proof.
  intros Ha Hb. induction a as [|x a IH]; [done|]. destruct a as [|y a].
  - cbn [app join]. by destruct b.
  - cbn [app]. change (join (x :: y :: a ++ b)) with (x +:+ String "/" (join (y :: a ++ b))).
    change (y :: a ++ b) with ((y :: a) ++ b). rewrite IH by done.
    change (join (x :: y :: a)) with (x +:+ String "/" (join (y :: a))).
    by rewrite <-string_app_assoc.
Qed.

(** ** Clean *)

Lemma clean_step_plain rooted stack seg : plain seg → clean_step rooted stack seg = seg :: stack.
Proof.
  intros (H1 & H2 & H3). unfold clean_step.
  by destruct (String.eqb_spec seg ""), (String.eqb_spec seg "."), (String.eqb_spec seg "..").
Qed.

Lemma clean_plain rooted segs : Forall plain segs → ∀ stack,
  foldl (clean_step rooted) stack segs = rev segs ++ stack.
Proof.
  induction 1 as [|seg segs Hseg _ IH]; intros stack; [done|]. cbn [foldl rev].
  by rewrite clean_step_plain, IH, <-app_assoc by done.
Qed.

Lemma HasPrefix_slash s : HasPrefix s "/" = true ↔ ∃ s', s = String "/" s'.
Proof.
  unfold HasPrefix. rewrite bool_decide_eq_true. destruct s as [|c s].
  - by split; intros [? ?].
  - cbn [CutPrefix]. destruct (Ascii.eqb_spec "/" c) as [<-|Hc].
    + split; intros _; by eexists.
    + split; [by intros [? ?]|intros [s' Heq]; congruence].
Qed.

Lemma plain_not_rooted s : Forall plain (segments s) → HasPrefix s "/" = false.
Proof.
  intros H. destruct (HasPrefix s "/") eqn:E; [|done]. apply HasPrefix_slash in E as [s' ->].
  simpl in H. inversion H as [|? ? [? _]]; subst. done.
Qed.

(** A path of plain segments is clean. *)
Lemma Clean_plain s : Forall plain (segments s) → Clean s = s.
Proof.
  intros H. unfold Clean. rewrite (plain_not_rooted s H), (clean_plain false _ H), app_nil_r, rev_involutive.
  rewrite join_segments. destruct (String.eqb_spec s "") as [->|]; [|done].
  simpl in H. inversion H as [|? ? [? _]]; subst. done.
Qed.

(** The segments a relative path keeps: parent segments first, then plain ones. *)
Definition clean_stack (stack : list string) : Prop :=
  ∃ k segs, Forall plain segs ∧ stack = rev segs ++ repeat ".." k.

Lemma clean_step_stack stack seg : clean_stack stack → clean_stack (clean_step false stack seg).
Proof.
  intros (k & segs & Hs & ->). unfold clean_step.
  destruct (String.eqb_spec seg ""); [by exists k, segs|].
  destruct (String.eqb_spec seg "."); [by exists k, segs|]. cbn [orb].
  destruct (String.eqb_spec seg "..") as [->|].
  - destruct (list_exists_last_or segs) as [->|(segs' & top & ->)]; simpl.
    + destruct k as [|k]; simpl; [by exists 1, []|]. by exists (S (S k)), [].
    + rewrite rev_app_distr. simpl. apply Forall_app in Hs as [Hs Ht].
      inversion_clear Ht as [|? ? (_ & _ & Hne) _].
      rewrite (proj2 (String.eqb_neq top "..") Hne). by exists k, segs'.
  - exists k, (segs ++ [seg]). split; [|by rewrite rev_app_distr].
    apply Forall_app. split; [done|]. by repeat constructor.
Qed.

Lemma clean_fold_stack segs : ∀ stack,
  clean_stack stack → clean_stack (foldl (clean_step false) stack segs).
Proof. induction segs as [|seg segs IH]; intros stack H; [done|]. by apply IH, clean_step_stack. Qed.

Lemma clean_step_slash rooted stack seg :
  slash_free seg = true → Forall (λ s, slash_free s = true) stack →
  Forall (λ s, slash_free s = true) (clean_step rooted stack seg).
Proof.
  intros Hseg Hs. unfold clean_step. destruct (_ || _); [done|].
  destruct (String.eqb seg ".."); [|by constructor].
  destruct Hs as [|top below Ht Hb]; [by destruct rooted; repeat constructor|].
  destruct (String.eqb top ".."); [|done]. by repeat constructor.
Qed.

Lemma clean_fold_slash rooted segs : Forall (λ s, slash_free s = true) segs → ∀ stack,
  Forall (λ s, slash_free s = true) stack →
  Forall (λ s, slash_free s = true) (foldl (clean_step rooted) stack segs).
Proof.
  induction 1 as [|seg segs Hseg _ IH]; intros stack Hs; [done|]. by apply IH, clean_step_slash.
Qed.

Lemma reverse_repeat_dots k : rev (repeat ".." k) = repeat ".." k.
Proof.
  assert (∀ n (x : string), repeat x n ++ [x] = x :: repeat x n) as H.
  { intros n x. induction n as [|n IH]; [done|]. cbn [repeat app]. by rewrite IH. }
  induction k as [|k IH]; [done|]. cbn [repeat rev]. by rewrite IH, H.
Qed.

(** A relative path that is clean and does not escape is ["."] or all plain. *)
Lemma Clean_fixed s :
  HasPrefix s "/" = false → Clean s = s → s ≠ ".." → HasPrefix s "../" = false →
  s = "." ∨ Forall plain (segments s).
Proof.
  intros Hr Hc H1 H2. unfold Clean in Hc. rewrite Hr in Hc.
  set (st := foldl (clean_step false) [] (segments s)) in *.
  assert (clean_stack st) as (k & segs & Hplain & Hst).
  { apply clean_fold_stack. by exists 0, []. }
  destruct (String.eqb_spec (join (rev st)) "") as [|Hne]; [by left|right].
  assert (rev st ≠ []) as Hrev by by intros E; rewrite E in Hne.
  assert (segments s = rev st) as Hseg.
  { rewrite <-Hc. apply segments_join; [done|]. apply Forall_rev, clean_fold_slash; [|done].
    apply segments_slash_free. }
  rewrite Hseg, Hst, rev_app_distr, rev_involutive in *.
  destruct k as [|k]; [done|exfalso].
  assert (rev (repeat ".." (S k)) = ".." :: repeat ".." k) as E by apply (reverse_repeat_dots (S k)).
  rewrite E in Hc. cbn [app join] in Hc. destruct (repeat ".." k ++ segs) as [|x rest] eqn:Er.
  - by subst s.
  - rewrite <-Hc in H2. cbn in H2. by destruct (join (x :: rest)).
Qed.

(** ** Track paths *)

Lemma HasSuffix_app s suf : HasSuffix s suf = true → ∃ t, s = t +:+ suf.
Proof.
  induction s as [|c s IH]; cbn [HasSuffix]; intros [H|H]%orb_prop.
  - apply String.eqb_eq in H as <-. by exists "".
  - done.
  - apply String.eqb_eq in H as <-. by exists "".
  - destruct (IH H) as [t ->]. by exists (String c t).
Qed.

Lemma CutPrefix_app s pre rest : CutPrefix s pre = Some rest → s = pre +:+ rest.
Proof.
  revert s. induction pre as [|c pre IH]; intros s; cbn [CutPrefix]; [by intros [= ->]|].
  destruct s as [|d s]; [done|]. destruct (Ascii.eqb_spec c d) as [->|]; [|done].
  intros H. by rewrite (IH _ H).
Qed.

Lemma HasPrefix_app s pre : HasPrefix s pre = true → ∃ rest, s = pre +:+ rest.
Proof.
  unfold HasPrefix. rewrite bool_decide_eq_true. intros [rest H]. exists rest. by apply CutPrefix_app.
Qed.

Lemma plain_no_suffix s : Forall plain (segments s) → HasSuffix s "/" = false.
Proof.
  intros H. destruct (HasSuffix s "/") eqn:E; [|done]. apply HasSuffix_app in E as [t ->].
  change "/" with (String "/" "") in H. rewrite segments_app in H.
  apply Forall_app in H as [_ H]. inversion H as [|? ? [? _]]. done.
Qed.

Lemma plain_no_parent s : Forall plain (segments s) → s ≠ ".." ∧ HasPrefix s "../" = false.
Proof.
  intros H. split.
  - intros ->. inversion H as [|? ? (_ & _ & ?)]. done.
  - destruct (HasPrefix s "../") eqn:E; [|done]. apply HasPrefix_app in E as [rest ->].
    change ("../" +:+ rest) with (".." +:+ String "/" rest) in H. rewrite segments_app in H.
    apply Forall_app in H as [H _]. inversion H as [|? ? (_ & _ & ?)]. done.
Qed.

Lemma validate_plain s :
  Forall plain (segments s) → ContainsChar s "\" = false → TrackPath_validate s = None.
Proof.
  intros H Hb. unfold TrackPath_validate. destruct (plain_no_parent s H) as [H1 H2].
  rewrite (plain_not_rooted s H), (plain_no_suffix s H), Hb, (Clean_plain s H), String.eqb_refl, H2.
  rewrite (proj2 (String.eqb_neq s "..") H1). destruct (String.eqb_spec s "") as [->|]; [|done].
  inversion H as [|? ? [? _]]. done.
Qed.

Lemma validate_inv s :
  TrackPath_validate s = None →
  (s = "." ∨ Forall plain (segments s)) ∧ ContainsChar s "\" = false.
Proof.
  unfold TrackPath_validate. intros H. repeat (case_match; [done|]).
  bool_to_prop. split; [|done]. by apply Clean_fixed.
Qed.

(** * Properties *)

(** [TrackPath.validate] accepts exactly the paths without a backslash whose
    segments between slashes are all non-empty and neither a dot nor a parent
    segment, and besides those the path of a single dot; every other path is
    [ErrInvalidTrackPath]. *)
Theorem TrackPath_validate_spec (p : TrackPath) :
  TrackPath_validate p =
    if decide ((p = "." ∨ Forall plain (segments p)) ∧ ContainsChar p "\" = false)
    then None else Some [ErrInvalidTrackPath].
Proof.
  case_decide as H.
  - destruct H as [[->|H] Hb]; [done|]. by apply validate_plain.
  - destruct (TrackPath_validate p) as [e|] eqn:E; [|by apply validate_inv in E].
    revert E. unfold TrackPath_validate. repeat (case_match; [by intros [= <-]|]). done.
Qed.
