(* ===== verification/FsStore.v ===== *)
(** * The filesystem backend (ledger/store/fs/fs.go)

    The tree under the store's root directory, the system calls [fs.go] makes on
    it, each with an outcome of its own, and the methods of [Store] as the
    sequences of calls they are. A name is a path relative to the root, which is
    what [resolve] puts behind [s.root]; the host is one whose separator is the
    slash. *)

From stdpp Require Import sorting.
From S2P Require Import Prelude GoStd Json Store MemStore Group Manifest Track Paths.
#[local] Open Scope string_scope.
#[local] Open Scope list_scope.

Module fs.

(** ** The tree and its system calls *)

Inductive errno : Type := ENOENT | EEXIST | EISDIR | ENOTDIR | ENOTEMPTY | EIO.

#[export] Instance errno_eq_dec : EqDecision errno.
Proof. solve_decision. Defined.

(** What becomes of a system call: it does its work, it fails without effect, or,
    a write, it fails with the first [n] bytes written. *)
Inductive outcome : Type := Done | Fails | Torn (n : nat).

(** [Store]: what is stored under its root. *)
Record Store := mkStore {
  files : gmap string bytes;
  dirs : gset string;
  (** the outcomes of the calls still to come; the rest do their work *)
  outcomes : list outcome;
  (** the random parts of the names [os.CreateTemp] tries *)
  temps : list string;
}.

Definition with_files (f : gmap string bytes → gmap string bytes) (s : Store) : Store :=
  mkStore (f (files s)) (dirs s) (outcomes s) (temps s).
Definition with_outcomes (os : list outcome) (s : Store) : Store :=
  mkStore (files s) (dirs s) os (temps s).

Definition New : Store := mkStore ∅ ∅ [] [].

(** The outcome of the next system call. *)
Definition next_outcome (s : Store) : outcome * Store :=
  match outcomes s with
  | [] => (Done, s)
  | o :: os => (o, with_outcomes os s)
  end.

(** A call that does [f] or, failing, nothing. *)
Definition sys (f : Store → option errno * Store) (s : Store) : option errno * Store :=
  match next_outcome s with
  | (Done, s) => f s
  | (_, s) => (Some EIO, s)
  end.

Definition is_dir (s : Store) (name : string) : bool :=
  String.eqb name "." || bool_decide (name ∈ dirs s).
Definition is_file (s : Store) (name : string) : bool := bool_decide (is_Some (files s !! name)).

(** The directories a name lies in below the root, outermost first: the joins of
    the proper prefixes of its segments. *)
Fixpoint prefixes (segs : list string) : list (list string) :=
  match segs with
  | [] | [_] => []
  | seg :: rest => [seg] :: (cons seg <$> prefixes rest)
  end.
Definition ancestors (name : string) : list string := join <$> prefixes (segments name).

(** [os.ReadFile] *)
Definition ReadFile (name : string) (s : Store) : (bytes + errno) * Store :=
  match next_outcome s with
  | (Done, s) =>
      (if is_dir s name then inr EISDIR
       else match files s !! name with
            | Some data => inl data
            | None => if existsb (is_file s) (ancestors name) then inr ENOTDIR else inr ENOENT
            end, s)
  | (_, s) => (inr EIO, s)
  end.

(** [os.MkdirAll] *)
Definition MkdirAll (dir : string) : Store → option errno * Store := sys (λ s,
  let ds := if String.eqb dir "." then [] else ancestors dir ++ [dir] in
  if existsb (is_file s) ds then (Some ENOTDIR, s)
  else (None, mkStore (files s) (list_to_set ds ∪ dirs s) (outcomes s) (temps s))).

(** [os.OpenFile] with [O_WRONLY|O_CREATE|O_EXCL] *)
Definition OpenExcl (name : string) : Store → option errno * Store := sys (λ s,
  if is_file s name || is_dir s name then (Some EEXIST, s)
  else if negb (is_dir s (Dir name)) then (Some ENOENT, s)
  else (None, with_files <[name := EmptyString]> s)).

(** [f.Write] of a file just created *)
Definition Write (name : string) (data : bytes) (s : Store) : option errno * Store :=
  match next_outcome s with
  | (Done, s) => (None, with_files <[name := data]> s)
  | (Fails, s) => (Some EIO, s)
  | (Torn n, s) => (Some EIO, with_files <[name := String.substring 0 n data]> s)
  end.

(** [f.Sync] and [f.Close]: what they can lose only a failure of the host shows. *)
Definition Sync : Store → option errno * Store := sys (λ s, (None, s)).
Definition Close : Store → option errno * Store := sys (λ s, (None, s)).

(** [os.CreateTemp(dir, ".swap-*")]: the first of the names tried that is free. *)
Definition temp_name (dir rand : string) : string := Clean (dir +:+ "/" +:+ ".swap-" +:+ rand).

Fixpoint free_temp (s : Store) (dir : string) (rands : list string)
    : option (string * list string) :=
  match rands with
  | [] => None
  | rand :: rest =>
      let name := temp_name dir rand in
      if is_file s name || is_dir s name then free_temp s dir rest else Some (name, rest)
  end.

Definition CreateTemp (dir : string) (s : Store) : (string + errno) * Store :=
  match next_outcome s with
  | (Done, s) =>
      match free_temp s dir (temps s) with
      | None => (inr EEXIST, s)
      | Some (name, rest) =>
          (inl name, mkStore (<[name := EmptyString]> (files s)) (dirs s) (outcomes s) rest)
      end
  | (_, s) => (inr EIO, s)
  end.

(** [os.Rename] of a file *)
Definition Rename (old new : string) : Store → option errno * Store := sys (λ s,
  match files s !! old with
  | None => (Some ENOENT, s)
  | Some data =>
      if is_dir s new then (Some EEXIST, s)
      else (None, with_files (λ m, <[new := data]> (delete old m)) s)
  end).

(** [os.Remove]: a file, or a directory that is empty. *)
Definition empty_dir (s : Store) (name : string) : bool :=
  forallb (λ other, negb (bool_decide (name ∈ ancestors other)))
    ((map_to_list (files s)).*1 ++ elements (dirs s)).

Definition Remove (name : string) : Store → option errno * Store := sys (λ s,
  if is_file s name then (None, with_files (delete name) s)
  else if String.eqb name "." then (Some ENOTEMPTY, s)
  else if is_dir s name then
    if empty_dir s name
    then (None, mkStore (files s) (dirs s ∖ {[name]}) (outcomes s) (temps s))
    else (Some ENOTEMPTY, s)
  else if existsb (is_file s) (ancestors name) then (Some ENOTDIR, s) else (Some ENOENT, s)).

(** ** The methods *)

(** [version] *)
Definition version (data : bytes) : Version := FormatHex (fnv64a fnv_offset data).

(** [resolve] *)
Definition resolve (key : string) : result string :=
  if String.eqb key "" then Err [ErrInvalidKey]
  else if ContainsChar key "\" then Err [ErrInvalidKey]
  else if negb (String.eqb (Clean key) key) then Err [ErrInvalidKey]
  else if negb (IsLocal key) then Err [ErrInvalidKey]
  else Ok key.

Definition Get (ctx : option error) (s : Store) (key : string)
    : result (bytes * Version) * Store :=
  match ctx with
  | Some err => (Err err, s)
  | None =>
      match resolve key with
      | Err e => (Err e, s)
      | Ok name =>
          let '(r, s) := ReadFile name s in
          (match r with
           | inr ENOENT => Err [ErrNotExist]
           | inr _ => Err []
           | inl data => Ok (data, version data)
           end, s)
      end
  end.

Definition Create (ctx : option error) (s : Store) (key : string) (data : bytes)
    : result Version * Store :=
  match ctx with
  | Some err => (Err err, s)
  | None =>
      match resolve key with
      | Err e => (Err e, s)
      | Ok name =>
          let '(err, s) := MkdirAll (Dir name) s in
          match err with
          | Some _ => (Err [], s)
          | None =>
              let '(err, s) := OpenExcl name s in
              match err with
              | Some EEXIST => (Err [ErrExist], s)
              | Some _ => (Err [], s)
              | None =>
                  let '(err, s) := Write name data s in
                  match err with
                  | Some _ => (Err [], s)
                  | None =>
                      let '(err, s) := Sync s in
                      match err with
                      | Some _ => (Err [], s)
                      | None => (Ok (version data), s)
                      end
                  end
              end
          end
      end
  end.

(** The calls of [Swap] between [os.CreateTemp] and the deferred [os.Remove]. *)
Definition replace (tmp name : string) (data : bytes) (s : Store) : result Version * Store :=
  let '(err, s) := Write tmp data s in
  match err with
  | Some _ => (Err [], s)
  | None =>
      let '(err, s) := Sync s in
      match err with
      | Some _ => (Err [], s)
      | None =>
          let '(err, s) := Close s in
          match err with
          | Some _ => (Err [], s)
          | None =>
              let '(err, s) := Rename tmp name s in
              match err with
              | Some _ => (Err [], s)
              | None => (Ok (version data), s)
              end
          end
      end
  end.

(** [Swap]'s comparison of the version stored with the one expected. *)
Definition refused (current : bytes + errno) (expect : Version) : option error :=
  match current with
  | inr ENOENT => if negb (String.eqb expect NoVersion) then Some [ErrNotExist] else None
  | inr _ => Some []
  | inl data => if negb (String.eqb (version data) expect) then Some [ErrVersionMismatch] else None
  end.

Definition Swap (ctx : option error) (s : Store) (key : string) (data : bytes) (expect : Version)
    : result Version * Store :=
  match ctx with
  | Some err => (Err err, s)
  | None =>
      match resolve key with
      | Err e => (Err e, s)
      | Ok name =>
          let '(current, s) := ReadFile name s in
          match refused current expect with
          | Some e => (Err e, s)
          | None =>
              let '(err, s) := MkdirAll (Dir name) s in
              match err with
              | Some _ => (Err [], s)
              | None =>
                  let '(tmp, s) := CreateTemp (Dir name) s in
                  match tmp with
                  | inr _ => (Err [], s)
                  | inl tmp =>
                      let '(r, s) := replace tmp name data s in
                      let '(_, s) := Remove tmp s in
                      (r, s)
                  end
              end
          end
      end
  end.

Definition Delete (ctx : option error) (s : Store) (key : string) : result unit * Store :=
  match ctx with
  | Some err => (Err err, s)
  | None =>
      match resolve key with
      | Err e => (Err e, s)
      | Ok name =>
          let '(err, s) := Remove name s in
          (match err with None | Some ENOENT => Ok tt | Some _ => Err [] end, s)
      end
  end.

(** [List]: [filepath.WalkDir] visits the files by segments; a canceled context
    ends it at the root already. *)
Fixpoint segs_leb (a b : list string) : bool :=
  match a, b with
  | [], _ => true
  | _, [] => false
  | x :: a', y :: b' => if String.eqb x y then segs_leb a' b' else String.leb x y
  end.
Definition walk_le (a b : string) : Prop := Is_true (segs_leb (segments a) (segments b)).
#[export] Instance walk_le_dec : RelDecision walk_le.
Proof. unfold walk_le. intros a b. apply _. Defined.

Definition List (ctx : option error) (s : Store) (prefix : string) : list (result string) :=
  match ctx with
  | Some err => [Err err]
  | None => Ok <$> filter (λ key, HasPrefix key prefix = true)
                     (merge_sort walk_le (map_to_list (files s)).*1)
  end.
End fs.

#[export] Instance fs_store : Store fs.Store := {
  Get := fs.Get; Create := fs.Create; Swap := fs.Swap; Delete := fs.Delete;
}.
