(* ===== verification/FsProps.v ===== *)
(** * The filesystem backend keeps the storage contract

    On a set of keys that can all be files of one tree ([keys_ok]), each method,
    whatever its system calls do, answers and changes the objects as the contract
    of the store interface says, except a [Create] whose write fails. *)

From S2P Require Import Prelude GoStd Json Store MemStore Group Manifest Track.
From S2P Require Import Paths FsStore.
Import fs.
#[local] Open Scope string_scope.
#[local] Open Scope list_scope.

(** ** Names *)

Lemma slash_free_contains t : slash_free t = true → ContainsChar t "/" = false.
Proof.
  induction t as [|c t IH]; [done|]. unfold slash_free in *. cbn [all_chars ContainsChar].
  rewrite no_slash_eqb, (Ascii.eqb_sym "/" c). by destruct (Ascii.eqb c "/").
Qed.

Lemma split_dir_free t : slash_free t = true → split_dir t = "".
Proof.
  intros Ht%slash_free_contains. destruct t as [|d t]; [done|]. cbn [split_dir]. by rewrite Ht.
Qed.

Lemma ContainsChar_app s t c : ContainsChar (s +:+ t) c = ContainsChar s c || ContainsChar t c.
Proof.
  induction s as [|d s IH]; [done|]. cbn [String.append ContainsChar]. by rewrite IH, orb_assoc.
Qed.

Lemma split_dir_app s t : slash_free t = true → split_dir (s +:+ String "/" t) = s +:+ "/".
Proof.
  intros Ht. induction s as [|c s IH]; cbn [String.append split_dir].
  - cbn [ContainsChar]. by rewrite Ascii.eqb_refl, split_dir_free.
  - assert (ContainsChar (String c (s +:+ String "/" t)) "/" = true) as ->; [|by rewrite IH].
    cbn [ContainsChar]. rewrite ContainsChar_app. cbn [ContainsChar]. rewrite Ascii.eqb_refl.
    by destruct (Ascii.eqb "/" c), (ContainsChar s "/").
Qed.

Lemma plain_nonempty s : Forall plain (segments s) → s ≠ "".
Proof. intros H ->. inversion H as [|? ? [? _]]. done. Qed.

Lemma Clean_trailing s : Forall plain (segments s) → Clean (s +:+ "/") = s.
Proof.
  intros H. pose proof (plain_not_rooted s H) as Hr. pose proof (plain_nonempty s H) as Hne.
  unfold Clean.
  assert (HasPrefix (s +:+ "/") "/" = false) as ->.
  { destruct (HasPrefix (s +:+ "/") "/") eqn:E; [|done]. apply HasPrefix_slash in E as [u Hu].
    destruct s as [|c s]; [done|]. cbn in Hu. injection Hu as -> _.
    rewrite <-Hr. symmetry. apply HasPrefix_slash. by eexists. }
  change "/" with (String "/" ""). rewrite segments_app, foldl_app, (clean_plain false _ H), app_nil_r.
  cbn [segments foldl]. assert (clean_step false (rev (segments s)) "" = rev (segments s)) as -> by done.
  rewrite rev_involutive, join_segments. by rewrite (proj2 (String.eqb_neq s "") Hne).
Qed.

(** A plain name is a plain directory and a last segment, or one segment. *)
Lemma Dir_one x : slash_free x = true → Dir x = ".".
Proof. intros H. unfold Dir. by rewrite split_dir_free. Qed.

Lemma Dir_snoc segs x :
  segs ≠ [] → Forall plain segs → Forall (λ seg, slash_free seg = true) segs →
  slash_free x = true → Dir (join (segs ++ [x])) = join segs.
Proof.
  intros Hne Hp Hs Hx. unfold Dir. rewrite join_app by done. cbn [join].
  rewrite split_dir_app by done. apply Clean_trailing. by rewrite segments_join.
Qed.

Lemma prefixes_snoc segs x : segs ≠ [] → prefixes (segs ++ [x]) = prefixes segs ++ [segs].
Proof.
  induction segs as [|y segs IH]; [done|]. intros _. destruct segs as [|z segs]; [done|].
  change ((y :: z :: segs) ++ [x]) with (y :: (z :: segs) ++ [x]).
  change (prefixes (y :: (z :: segs) ++ [x])) with ([y] :: (cons y <$> prefixes ((z :: segs) ++ [x]))).
  rewrite IH by done. by rewrite fmap_app.
Qed.

(** The directories [os.MkdirAll] makes for a plain name are its ancestors. *)
Lemma Dir_ancestors k :
  Forall plain (segments k) →
  (if String.eqb (Dir k) "." then [] else ancestors (Dir k) ++ [Dir k]) = ancestors k.
Proof.
  intros Hp. pose proof (segments_slash_free k) as Hs. pose proof (join_segments k) as Hk.
  destruct (list_exists_last_or (segments k)) as [E|(segs & x & E)].
  { by destruct (segments_nonempty k). }
  unfold ancestors at 2. rewrite E in *. apply Forall_app in Hp as [Hp _], Hs as [Hs Hx].
  inversion_clear Hx as [|? ? Hx' _]. destruct (decide (segs = [])) as [->|Hne].
  - cbn [app join] in Hk. subst x. by rewrite Dir_one.
  - rewrite <-Hk, Dir_snoc by done. rewrite prefixes_snoc, fmap_app by done.
    unfold ancestors. rewrite segments_join by done.
    destruct (String.eqb_spec (join segs) ".") as [Hdot|]; [|done].
    exfalso. apply (f_equal segments) in Hdot. rewrite segments_join in Hdot by done. subst segs.
    inversion Hp as [|? ? (_ & ? & _)]. done.
Qed.

Lemma prefixes_sublist segs pre : pre ∈ prefixes segs → pre ≠ [] ∧ ∃ rest, rest ≠ [] ∧ segs = pre ++ rest.
Proof.
  revert pre. induction segs as [|y segs IH]; intros pre; [by intros ?%elem_of_nil|].
  destruct segs as [|z segs]; [by intros ?%elem_of_nil|].
  change (prefixes (y :: z :: segs)) with ([y] :: (cons y <$> prefixes (z :: segs))).
  rewrite elem_of_cons, list_elem_of_fmap. intros [->|(pre' & -> & H)].
  - split; [done|]. by exists (z :: segs).
  - destruct (IH _ H) as (_ & rest & Hr & ->). split; [done|]. by exists rest.
Qed.

(** The segments of an ancestor are a proper prefix of the name's. *)
Lemma ancestors_segments k a :
  a ∈ ancestors k → ∃ rest, rest ≠ [] ∧ segments k = segments a ++ rest.
Proof.
  unfold ancestors. rewrite list_elem_of_fmap. intros (pre & -> & H).
  apply prefixes_sublist in H as (Hne & rest & Hr & E). exists rest. split; [done|].
  rewrite segments_join; [done|done|]. pose proof (segments_slash_free k) as Hs. rewrite E in Hs.
  by apply Forall_app in Hs as [? _].
Qed.

(** ** Keys one tree can hold *)

Definition temp_seg (seg : string) : bool := HasPrefix seg ".swap-".

(** Clean relative names, none lying below another, none like a temporary file. *)
Record keys_ok (K : string → Prop) : Prop := {
  ko_plain k : K k → Forall plain (segments k);
  ko_slash k : K k → ContainsChar k "\" = false;
  ko_temp k : K k → Forall (λ seg, temp_seg seg = false) (segments k);
  ko_apart k k' : K k → K k' → k' ∉ ancestors k;
}.

(** The name of a temporary file. *)
Definition is_temp (name : string) : Prop :=
  ∃ seg, last (segments name) = Some seg ∧ temp_seg seg = true.

(** The tree as the methods leave it: files under keys and temporary files, in
    directories that keys lie in. *)
Record disk_ok (K : string → Prop) (s : Store) : Prop := {
  do_files n : is_Some (files s !! n) → K n ∨ is_temp n;
  do_dirs n : n ∈ dirs s → ∃ k, K k ∧ n ∈ ancestors k;
  do_temps : Forall (λ rand, slash_free rand = true) (temps s);
}.

(** The objects stored under the keys are the files of these names. *)
Definition shows (K : string → Prop) (s : Store) (m : objs) : Prop :=
  ∀ k, K k → m !! k = (λ data, (data, version data)) <$> (files s !! k).

Lemma version_nonempty data : version data ≠ NoVersion.
Proof. apply format_hex_nonempty. Qed.

Section Keys.
Context (K : string → Prop) (HK : keys_ok K).

Lemma resolve_key k : K k → resolve k = Ok k.
Proof using HK.
  intros Hk. pose proof (ko_plain K HK k Hk) as Hp. unfold resolve.
  rewrite (ko_slash K HK k Hk), (Clean_plain k Hp), String.eqb_refl.
  rewrite (proj2 (String.eqb_neq k "") (plain_nonempty k Hp)). cbn [negb].
  unfold IsLocal. rewrite (plain_not_rooted k Hp), (proj2 (String.eqb_neq k "") (plain_nonempty k Hp)).
  cbn [orb]. destruct (plain_no_parent k Hp) as [H1 H2].
  destruct (existsb _ _); rewrite ?(Clean_plain k Hp), (proj2 (String.eqb_neq k "..") H1), H2; done.
Qed.

Lemma key_not_temp k : K k → ¬ is_temp k.
Proof using HK.
  intros Hk (seg & Hl & Ht). pose proof (ko_temp K HK k Hk) as H.
  rewrite Forall_forall in H. apply last_Some_elem_of in Hl. by rewrite (H _ Hl) in Ht.
Qed.

Lemma ancestor_not_temp k a : K k → a ∈ ancestors k → ¬ is_temp a.
Proof using HK.
  intros Hk (rest & _ & E)%ancestors_segments (seg & Hl & Ht).
  pose proof (ko_temp K HK k Hk) as H. rewrite E in H. apply Forall_app in H as [H _].
  rewrite Forall_forall in H. apply last_Some_elem_of in Hl. by rewrite (H _ Hl) in Ht.
Qed.

Lemma key_not_dir s k : disk_ok K s → K k → is_dir s k = false.
Proof using HK.
  intros Hs Hk. unfold is_dir. apply orb_false_iff. split.
  - apply String.eqb_neq. intros ->. pose proof (ko_plain K HK "." Hk) as H.
    inversion H as [|? ? (_ & ? & _)]. done.
  - apply bool_decide_eq_false. intros (k' & Hk' & H)%(do_dirs K s Hs). by apply (ko_apart K HK k' k).
Qed.

Lemma ancestors_not_files s k :
  disk_ok K s → K k → existsb (is_file s) (ancestors k) = false.
Proof using HK.
  intros Hs Hk. destruct (existsb (is_file s) (ancestors k)) eqn:E; [|done].
  apply existsb_exists in E as (a & Ha & Hf). apply list_elem_of_In in Ha.
  unfold is_file in Hf. apply bool_decide_eq_true, (do_files K s Hs) in Hf as [Hf|Hf].
  - by apply (ko_apart K HK k a) in Ha.
  - by apply (ancestor_not_temp k a) in Ha.
Qed.

(** ** The system calls on keys *)

Definition head_outcome (s : Store) : outcome :=
  match outcomes s with [] => Done | o :: _ => o end.
Definition advance (s : Store) : Store := with_outcomes (tail (outcomes s)) s.

Lemma next_outcome_eq s : next_outcome s = (head_outcome s, advance s).
Proof using. by destruct s as [f d [|o os] t]. Qed.

Lemma head_outcome_calm s : outcomes s = [] → head_outcome s = Done ∧ outcomes (advance s) = [].
Proof using. unfold head_outcome. destruct s as [f d os t]. cbn. by intros ->. Qed.

(** The tree once the directories a key lies in are made. *)
Definition mkdirs (k : string) (s : Store) : Store :=
  mkStore (files s) (list_to_set (ancestors k) ∪ dirs s) (outcomes s) (temps s).

Lemma MkdirAll_key s k : disk_ok K s → K k →
  MkdirAll (Dir k) s =
    match head_outcome s with Done => (None, mkdirs k (advance s)) | _ => (Some EIO, advance s) end.
Proof using HK.
  intros Hs Hk. unfold MkdirAll, sys. rewrite next_outcome_eq. destruct (head_outcome s); [|done..].
  rewrite (Dir_ancestors k (ko_plain K HK k Hk)).
  change (is_file (advance s)) with (is_file s). by rewrite (ancestors_not_files s k Hs Hk).
Qed.

Lemma mkdirs_is_dir s k : K k → is_dir (mkdirs k s) (Dir k) = true.
Proof using HK.
  intros Hk. pose proof (Dir_ancestors k (ko_plain K HK k Hk)) as E. unfold is_dir, mkdirs. simpl.
  destruct (String.eqb (Dir k) "."); [done|]. cbn [orb]. apply bool_decide_eq_true.
  rewrite elem_of_union, elem_of_list_to_set, <-E. left. set_solver.
Qed.

Lemma ReadFile_key s k : disk_ok K s → K k →
  ReadFile k s =
    (match head_outcome s with
     | Done => match files s !! k with Some data => inl data | None => inr ENOENT end
     | _ => inr EIO end, advance s).
Proof using HK.
  intros Hs Hk. unfold ReadFile. rewrite next_outcome_eq. destruct (head_outcome s); [|done..].
  change (is_dir (advance s)) with (is_dir s). change (is_file (advance s)) with (is_file s).
  rewrite (key_not_dir s k Hs Hk), (ancestors_not_files s k Hs Hk). done.
Qed.

Lemma OpenExcl_key s k : disk_ok K s → K k → is_dir s (Dir k) = true →
  OpenExcl k s =
    match head_outcome s with
    | Done => if is_file s k then (Some EEXIST, advance s)
              else (None, with_files <[k := ""]> (advance s))
    | _ => (Some EIO, advance s) end.
Proof using HK.
  intros Hs Hk Hd. unfold OpenExcl, sys. rewrite next_outcome_eq. destruct (head_outcome s); [|done..].
  change (is_dir (advance s)) with (is_dir s). change (is_file (advance s)) with (is_file s).
  rewrite (key_not_dir s k Hs Hk), Hd, orb_false_r. done.
Qed.

Lemma Remove_key s k : disk_ok K s → K k →
  Remove k s =
    match head_outcome s with
    | Done => if is_file s k then (None, with_files (delete k) (advance s))
              else (Some ENOENT, advance s)
    | _ => (Some EIO, advance s) end.
Proof using HK.
  intros Hs Hk. unfold Remove, sys. rewrite next_outcome_eq. destruct (head_outcome s); [|done..].
  change (is_dir (advance s)) with (is_dir s). change (is_file (advance s)) with (is_file s).
  rewrite (key_not_dir s k Hs Hk), (ancestors_not_files s k Hs Hk).
  destruct (is_file s k); [done|].
  destruct (String.eqb_spec k ".") as [->|]; [|done].
  pose proof (ko_plain K HK "." Hk) as H. inversion H as [|? ? (_ & ? & _)]. done.
Qed.

(** A plain name next to a key. *)
Lemma sibling_segments k t : K k → slash_free t = true → plain t →
  last (segments (Clean (Dir k +:+ String "/" t))) = Some t.
Proof using HK.
  intros Hk Hsf Hpl.
  pose proof (ko_plain K HK k Hk) as Hp. pose proof (segments_slash_free k) as Hs.
  pose proof (join_segments k) as Hj.
  destruct (list_exists_last_or (segments k)) as [E|(segs & x & E)].
  { by destruct (segments_nonempty k). }
  rewrite E in *. apply Forall_app in Hp as [Hp _], Hs as [Hs Hx]. inversion_clear Hx as [|? ? Hx' _].
  destruct (decide (segs = [])) as [->|Hne].
  - cbn [app join] in Hj. subst x. rewrite Dir_one by done.
    unfold Clean. change (HasPrefix ("." +:+ String "/" t) "/") with false.
    rewrite segments_app, (segments_one t Hsf), foldl_app.
    change (foldl (clean_step false) [] (segments ".")) with (@nil string).
    rewrite (clean_plain false [t]) by by apply Forall_singleton. cbn [rev app join].
    destruct (String.eqb_spec t "") as [->|]; [by destruct Hpl|]. by rewrite (segments_one t Hsf).
  - rewrite <-Hj, Dir_snoc by done.
    assert (segments (join segs +:+ String "/" t) = segs ++ [t]) as Hseg.
    { by rewrite segments_app, segments_join, (segments_one t Hsf). }
    rewrite Clean_plain, Hseg, last_snoc; [done|]. rewrite Hseg. apply Forall_app.
    split; [done|]. by apply Forall_singleton.
Qed.

(** A temporary file next to a key has a temporary name. *)
Lemma temp_name_temp k rand : K k → slash_free rand = true → is_temp (temp_name (Dir k) rand).
Proof using HK.
  intros Hk Hr. exists (".swap-" +:+ rand). split; [|done].
  by apply (sibling_segments k (".swap-" +:+ rand)).
Qed.

(** ** Trees kept, and what they show *)

Lemma disk_ok_with s fs ds os ts :
  disk_ok K s → (∀ n, is_Some (fs !! n) → is_Some (files s !! n) ∨ K n ∨ is_temp n) →
  (∀ n, n ∈ ds → n ∈ dirs s ∨ ∃ k, K k ∧ n ∈ ancestors k) → (∀ r, r ∈ ts → r ∈ temps s) →
  disk_ok K (mkStore fs ds os ts).
Proof using.
  intros [Hf Hd Ht] Hfs Hds Hts. constructor; simpl.
  - intros n [H|H]%Hfs; auto.
  - intros n [H|H]%Hds; auto.
  - rewrite Forall_forall in *. auto.
Qed.

Lemma disk_ok_advance s : disk_ok K s → disk_ok K (advance s).
Proof using. intros Hs. apply (disk_ok_with s); auto. Qed.

Lemma disk_ok_mkdirs s k : disk_ok K s → K k → disk_ok K (mkdirs k s).
Proof using.
  intros Hs Hk. apply (disk_ok_with s); auto. intros n. rewrite elem_of_union, elem_of_list_to_set.
  intros [H|H]; eauto.
Qed.

Lemma disk_ok_insert s n d : disk_ok K s → K n ∨ is_temp n → disk_ok K (with_files <[n := d]> s).
Proof using.
  intros Hs Hn. apply (disk_ok_with s); auto. intros n'. rewrite lookup_insert_is_Some.
  intros [->|[_ H]]; auto.
Qed.

Lemma disk_ok_delete s n : disk_ok K s → disk_ok K (with_files (delete n) s).
Proof using.
  intros Hs. apply (disk_ok_with s); auto. intros n'. rewrite lookup_delete_is_Some. intros [_ H]; auto.
Qed.

Lemma shows_insert s m k d os ds ts :
  shows K s m → shows K (mkStore (<[k := d]> (files s)) ds os ts) (<[k := (d, version d)]> m).
Proof using.
  intros H k' Hk'. simpl. rewrite !lookup_insert. case_decide; [done|]. by apply H.
Qed.

Lemma shows_delete s m k os ds ts :
  shows K s m → shows K (mkStore (delete k (files s)) ds os ts) (delete k m).
Proof using.
  intros H k' Hk'. simpl. rewrite !lookup_delete. case_decide; [done|]. by apply H.
Qed.

Lemma shows_agree s s' m :
  shows K s m → (∀ k, K k → files s' !! k = files s !! k) → shows K s' m.
Proof using. intros H Ha k Hk. rewrite Ha by done. by apply H. Qed.

Lemma shows_file s m k : shows K s m → K k → is_file s k = bool_decide (is_Some (m !! k)).
Proof using.
  intros H Hk. unfold is_file. rewrite (H k Hk). apply bool_decide_ext.
  by rewrite fmap_is_Some.
Qed.

(** ** One method *)

(** No call fails unless the contract is the one with failures. *)
Definition calm (fl : bool) (s : Store) : Prop := fl = false → outcomes s = [].

Lemma calm_advance fl s : calm fl s → calm fl (advance s).
Proof using. intros H Hfl. by apply head_outcome_calm, H. Qed.

Lemma calm_fails fl s : calm fl s → head_outcome s ≠ Done → fl = true.
Proof using. destruct fl; [done|]. intros H []. by apply head_outcome_calm, H. Qed.

(** What a method must do: keep the tree and the contract. *)
Definition keeps (fl : bool) (o : op) (m : objs) (rs : resp o * Store) : Prop :=
  disk_ok K rs.2 ∧ ∃ m', shows K rs.2 m' ∧ op_spec fl o m rs.1 m'.

Lemma Get_keeps fl s m k :
  disk_ok K s → shows K s m → K k → calm fl s → keeps fl (OGet k) m (fs.Get None s k).
Proof using HK.
  intros Hs Hm Hk Hc. unfold fs.Get. rewrite (resolve_key k Hk), (ReadFile_key s k Hs Hk).
  split; [by apply disk_ok_advance|]. exists m. split; [exact Hm|]. split; [done|].
  pose proof (Hm k Hk) as Hl. destruct (head_outcome s) eqn:Ho;
    [|split; [done|]; apply (calm_fails fl s Hc); by rewrite Ho..].
  destruct (files s !! k); simpl in *; [done|]. by rewrite Hl.
Qed.

Lemma Create_fails fl k d m : fl = true → op_spec fl (OCreate k d) m (Err []) m.
Proof using. intros ->. split_and!; [done|by left|done]. Qed.

(** The calls of [Create] after the directories are made. *)
Lemma Create_keeps fl s m k d :
  disk_ok K s → shows K s m → K k → calm fl s →
  head_outcome (advance (advance s)) = Done →
  keeps fl (OCreate k d) m (fs.Create None s k d).
Proof using HK.
  intros Hs Hm Hk Hc Hw. unfold fs.Create. rewrite (resolve_key k Hk), (MkdirAll_key s k Hs Hk).
  assert (∀ s' : Store, disk_ok K s' → files s' = files s → fl = true →
    keeps fl (OCreate k d) m (Err [], s')) as Hfail.
  { intros s' Hs' Hf' Hfl. split; [done|]. exists m. split; [|by apply Create_fails].
    apply (shows_agree s); [done|]. intros. simpl. by rewrite Hf'. }
  destruct (head_outcome s) eqn:Ho1;
    [|apply Hfail; [by apply disk_ok_advance|done|apply (calm_fails fl s Hc); by rewrite Ho1]..].
  set (s1 := mkdirs k (advance s)).
  assert (disk_ok K s1) as Hs1 by by apply disk_ok_mkdirs, Hk; apply disk_ok_advance.
  assert (calm fl s1) as Hc1 by apply (calm_advance fl s Hc).
  rewrite (OpenExcl_key s1 k Hs1 Hk (mkdirs_is_dir _ k Hk)).
  destruct (head_outcome s1) eqn:Ho2;
    [|apply Hfail; [by apply disk_ok_advance|done|apply (calm_fails fl s1 Hc1); by rewrite Ho2]..].
  change (is_file s1 k) with (is_file s k). rewrite (shows_file s m k Hm Hk). case_bool_decide as Hf.
  { split; [by apply disk_ok_advance|]. exists m. split; [exact Hm|]. split_and!; [done|by left|done]. }
  set (s2 := with_files <[k := ""]> (advance s1)). unfold Write. rewrite next_outcome_eq.
  change (head_outcome s2) with (head_outcome (advance (advance s))). rewrite Hw.
  unfold Sync, sys. rewrite next_outcome_eq. set (s3 := with_files <[k := d]> (advance s2)).
  assert (disk_ok K s3) as Hs3.
  { apply disk_ok_insert; [|by left]. apply disk_ok_advance, disk_ok_insert; [|by left].
    by apply disk_ok_advance. }
  assert (shows K (advance s3) (<[k := (d, version d)]> m)) as Hm3.
  { eapply shows_agree; [by apply (shows_insert s m k d [] ∅ [])|]. intros k' _. simpl.
    by rewrite insert_insert_eq. }
  assert (m !! k = None) as Hnone by by apply eq_None_not_Some.
  destruct (head_outcome s3) eqn:Ho4; (split; [by apply disk_ok_advance|]);
    exists (<[k := (d, version d)]> m); (split; [exact Hm3|]).
  - split; [done|]. split; [apply version_nonempty|done].
  - assert (fl = true) as -> by (apply (calm_fails fl s3); [by do 2 apply calm_advance|by rewrite Ho4]).
    split_and!; [done| |done]. right. split_and!; [done..|]. exists (version d).
    split; [apply version_nonempty|done].
  - assert (fl = true) as -> by (apply (calm_fails fl s3); [by do 2 apply calm_advance|by rewrite Ho4]).
    split_and!; [done| |done]. right. split_and!; [done..|]. exists (version d).
    split; [apply version_nonempty|done].
Qed.

(** The exception: the write fails part-way. *)
Lemma Create_write_fails s k d n :
  disk_ok K s → K k → files s !! k = None → head_outcome s = Done →
  head_outcome (advance s) = Done → head_outcome (advance (advance s)) = Torn n →
  ∃ s', fs.Create None s k d = (Err [], s') ∧ disk_ok K s' ∧
    files s' !! k = Some (String.substring 0 n d) ∧
    outcomes s' = outcomes (advance (advance (advance s))).
Proof using HK.
  intros Hs Hk Hnone H1 H2 H3. unfold fs.Create.
  rewrite (resolve_key k Hk), (MkdirAll_key s k Hs Hk), H1. set (s1 := mkdirs k (advance s)).
  assert (disk_ok K s1) as Hs1 by by apply disk_ok_mkdirs; [apply disk_ok_advance|].
  rewrite (OpenExcl_key s1 k Hs1 Hk (mkdirs_is_dir _ k Hk)).
  change (head_outcome s1) with (head_outcome (advance s)). rewrite H2.
  assert (is_file s1 k = false) as ->.
  { apply bool_decide_eq_false. change (files s1) with (files s). rewrite Hnone. by intros [? ?]. }
  set (s2 := with_files <[k := ""]> (advance s1)). unfold Write. rewrite next_outcome_eq.
  change (head_outcome s2) with (head_outcome (advance (advance s))). rewrite H3.
  eexists. split; [done|]. split_and!; [|apply lookup_insert_eq|done].
  apply disk_ok_insert; [|by left]. apply disk_ok_advance, disk_ok_insert; [|by left].
  by apply disk_ok_advance.
Qed.

Lemma Delete_keeps fl s m k :
  disk_ok K s → shows K s m → K k → calm fl s → keeps fl (ODelete k) m (fs.Delete None s k).
Proof using HK.
  intros Hs Hm Hk Hc. unfold fs.Delete. rewrite (resolve_key k Hk), (Remove_key s k Hs Hk).
  pose proof (disk_ok_advance s Hs) as Hs'. pose proof (shows_file s m k Hm Hk) as Hf.
  destruct (head_outcome s) eqn:Ho.
  - destruct (is_file s k).
    + split; [by apply disk_ok_delete|]. exists (delete k m). split; [by apply shows_delete|done].
    + split; [done|]. exists m. split; [exact Hm|]. simpl. symmetry in Hf.
      apply bool_decide_eq_false in Hf. symmetry. by apply delete_id, eq_None_not_Some.
  - split; [done|]. exists m. split; [exact Hm|]. split_and!; [done| |by left].
    apply (calm_fails fl s Hc). by rewrite Ho.
  - split; [done|]. exists m. split; [exact Hm|]. split_and!; [done| |by left].
    apply (calm_fails fl s Hc). by rewrite Ho.
Qed.

(** *** Temporary files *)

Lemma temp_not_dir s n : disk_ok K s → is_temp n → is_dir s n = false.
Proof using HK.
  intros Hs Ht. unfold is_dir. apply orb_false_iff. split.
  - apply String.eqb_neq. intros ->. by destruct Ht as (seg & [= <-] & ?).
  - apply bool_decide_eq_false. intros (k & Hk & H)%(do_dirs K s Hs). by apply (ancestor_not_temp k n).
Qed.

Lemma free_temp_spec s k rands :
  disk_ok K s → K k → Forall (λ rand, slash_free rand = true) rands →
  match free_temp s (Dir k) rands with
  | Some (tmp, rest) => is_temp tmp ∧ ∀ r, r ∈ rest → r ∈ rands
  | None => ∀ rand, rand ∈ rands → is_Some (files s !! temp_name (Dir k) rand)
  end.
Proof using HK.
  intros Hs Hk. induction 1 as [|rand rands Hr Hrs IH]; [by intros rand ?%elem_of_nil|].
  cbn [free_temp]. pose proof (temp_name_temp k rand Hk Hr) as Ht.
  rewrite (temp_not_dir s _ Hs Ht), orb_false_r. unfold is_file. case_bool_decide as Hf.
  - destruct (free_temp s (Dir k) rands) as [[tmp rest]|].
    + destruct IH as [? Hin]. split; [done|]. intros r Hin'. right. auto.
    + intros r [->|H]%elem_of_cons; auto.
  - split; [done|]. intros r Hin. by right.
Qed.

(** Removing a temporary file, or failing to, touches no key. *)
Lemma Remove_temp s n : disk_ok K s → is_temp n →
  disk_ok K (Remove n s).2 ∧ ∀ k, K k → files (Remove n s).2 !! k = files s !! k.
Proof using HK.
  intros Hs Ht. unfold Remove, sys. rewrite next_outcome_eq. pose proof (disk_ok_advance s Hs) as Hs'.
  destruct (head_outcome s); [|done..]. rewrite (temp_not_dir (advance s) n Hs' Ht).
  destruct (is_file (advance s) n); [|by destruct (String.eqb n "."); [|destruct (existsb _ _)]].
  split; [by apply disk_ok_delete|]. intros k Hk. simpl. apply lookup_delete_ne. intros ->.
  by apply (key_not_temp k).
Qed.

Definition file_kept (s s' : Store) : Prop :=
  disk_ok K s' ∧ ∀ k, K k → files s' !! k = files s !! k.

Lemma file_kept_trans s1 s2 s3 : file_kept s1 s2 → file_kept s2 s3 → file_kept s1 s3.
Proof using. intros [_ H1] [? H2]. split; [done|]. intros k Hk. by rewrite H2, H1. Qed.

Lemma file_kept_temp s n d : disk_ok K s → is_temp n → file_kept s (with_files <[n := d]> s).
Proof using HK.
  intros Hs Hn. split; [apply disk_ok_insert; auto|]. intros k Hk. simpl. apply lookup_insert_ne.
  intros ->. by apply (key_not_temp k).
Qed.

Lemma file_kept_advance s : disk_ok K s → file_kept s (advance s).
Proof using. intros Hs. split; [by apply disk_ok_advance|done]. Qed.

(** Writing the temporary file and renaming it replaces the key's file or changes
    no key's. *)
Lemma replace_spec fl s tmp k d :
  disk_ok K s → is_temp tmp → K k → calm fl s →
  match replace tmp k d s with
  | (Ok v, s') => v = version d ∧ disk_ok K s' ∧
      ∀ k', K k' → files s' !! k' = <[k := d]> (files s) !! k'
  | (Err e, s') => e = [] ∧ fl = true ∧ file_kept s s'
  end.
Proof using HK.
  intros Hs Ht Hk Hc. unfold replace, Write, Sync, Close, Rename, sys. rewrite next_outcome_eq.
  pose proof (file_kept_advance s Hs) as K1. pose proof (calm_fails fl s Hc) as F1.
  destruct (head_outcome s) as [| |n];
    [|by split_and!; [|apply F1|]|split_and!; [done|by apply F1|];
      eapply file_kept_trans; [exact K1|apply file_kept_temp; [apply K1|done]]].
  set (s2 := with_files <[tmp := d]> (advance s)). rewrite next_outcome_eq.
  assert (file_kept s s2) as K2.
  { eapply file_kept_trans; [exact K1|]. apply file_kept_temp; [apply K1|done]. }
  assert (∀ s', disk_ok K s' → files s' = files s2 → file_kept s s') as Kx.
  { intros s' ? E. split; [done|]. intros. rewrite E. by apply K2. }
  pose proof (calm_advance fl s Hc : calm fl s2) as C2. pose proof (calm_fails fl s2 C2) as F2.
  pose proof (disk_ok_advance s2 (proj1 K2)) as D3.
  destruct (head_outcome s2); [|by split_and!; [|apply F2|apply Kx]..]. rewrite next_outcome_eq.
  pose proof (calm_advance fl s2 C2) as C3. pose proof (calm_fails fl _ C3) as F3.
  pose proof (disk_ok_advance _ D3) as D4.
  destruct (head_outcome (advance s2)); [|by split_and!; [|apply F3|apply Kx]..]. rewrite next_outcome_eq.
  pose proof (calm_advance fl _ C3) as C4. pose proof (calm_fails fl _ C4) as F4.
  pose proof (disk_ok_advance _ D4) as D5.
  destruct (head_outcome (advance (advance s2))); [|by split_and!; [|apply F4|apply Kx]..].
  change (files (advance (advance (advance s2)))) with (<[tmp := d]> (files s)).
  rewrite lookup_insert_eq, (key_not_dir _ k D5 Hk). split; [done|]. split.
  - apply (disk_ok_with _ _ _ _ _ D5); auto. intros n. rewrite lookup_insert_is_Some.
    intros [->|[_ H]]; [auto|]. apply lookup_delete_is_Some in H as [_ H]. by left.
  - intros k' Hk'. simpl. rewrite !lookup_insert. case_decide; [done|].
    assert (tmp ≠ k') by by intros ->; apply (key_not_temp k').
    by rewrite lookup_delete_ne, lookup_insert_ne.
Qed.

(** A temporary name is left that no file next to the key has. *)
Definition temp_left (s : Store) (k : string) : Prop :=
  ∃ rand, rand ∈ temps s ∧ files s !! temp_name (Dir k) rand = None.

Lemma Swap_keeps fl s m k d expect :
  disk_ok K s → shows K s m → K k → calm fl s → (fl = false → temp_left s k) →
  keeps fl (OSwap k d expect) m (fs.Swap None s k d expect).
Proof using HK.
  intros Hs Hm Hk Hc Htl. unfold fs.Swap. rewrite (resolve_key k Hk), (ReadFile_key s k Hs Hk).
  assert (∀ s' e, file_kept s s' → backend_error e = true →
    (fl = true ∨ ¬ swap_allowed m k expect ∧ (errors_Is e ErrVersionMismatch || errors_Is e ErrNotExist = true)) →
    keeps fl (OSwap k d expect) m (Err e, s')) as Hfail.
  { intros s' e [Hs' Hf'] He Hfl. split; [done|]. exists m. split; [by apply (shows_agree s)|].
    split; [done|]. destruct Hfl as [Hfl|[? ?]]; [right|left]; auto. }
  pose proof (file_kept_advance s Hs) as K1. pose proof (calm_fails fl s Hc) as F1.
  pose proof (Hm k Hk) as Hl.
  destruct (head_outcome s); [|by apply Hfail; [done..|left; apply F1]|by apply Hfail; [done..|left; apply F1]].
  assert (match refused (match files s !! k with Some x => inl x | None => inr ENOENT end) expect with
    | Some e => backend_error e = true ∧ ¬ swap_allowed m k expect ∧
        (errors_Is e ErrVersionMismatch || errors_Is e ErrNotExist = true)
    | None => swap_allowed m k expect end) as Hr.
  { unfold swap_allowed. rewrite Hl. destruct (files s !! k) as [data|]; cbn [fmap option_fmap option_map refused].
    - by destruct (String.eqb_spec (version data) expect).
    - by destruct (String.eqb_spec expect NoVersion). }
  destruct (refused _ expect) as [e|]; [by destruct Hr as (? & ? & ?); apply Hfail; auto|].
  pose proof (calm_advance fl s Hc) as C1. pose proof (calm_fails fl _ C1) as F2.
  rewrite (MkdirAll_key _ k (proj1 K1) Hk).
  pose proof (file_kept_advance _ (proj1 K1)) as K2.
  destruct (head_outcome (advance s));
    [|by apply Hfail; [done..|left; apply F2]|by apply Hfail; [done..|left; apply F2]].
  set (s2 := mkdirs k (advance (advance s))).
  assert (disk_ok K s2) as D2 by by apply disk_ok_mkdirs; [apply K2|].
  assert (file_kept s s2) as K3 by by split.
  pose proof (calm_advance fl _ C1 : calm fl s2) as C2. pose proof (calm_fails fl _ C2) as F3.
  unfold CreateTemp. rewrite next_outcome_eq.
  destruct (head_outcome s2);
    [|by apply Hfail; [split; [apply disk_ok_advance|]|done|left; apply F3]..].
  change (temps (advance s2)) with (temps s).
  pose proof (free_temp_spec _ k (temps s) (disk_ok_advance s2 D2) Hk (do_temps K s Hs)) as Hft.
  destruct (free_temp (advance s2) (Dir k) (temps s)) as [[tmp rest]|].
  2: { apply Hfail; [by split; [apply disk_ok_advance|]|done|]. left. destruct fl; [done|].
       destruct (Htl eq_refl) as (rand & Hin & Hn). specialize (Hft rand Hin).
       change (files (advance s2)) with (files s) in Hft. rewrite Hn in Hft. by destruct Hft. }
  destruct Hft as [Htmp Hrest].
  set (s4 := mkStore (<[tmp := ""]> (files (advance s2))) (dirs (advance s2)) (outcomes (advance s2)) rest).
  assert (file_kept s s4) as K4.
  { split.
    - apply (disk_ok_with (advance s2)); [by apply disk_ok_advance| |auto|exact Hrest].
      intros n. rewrite lookup_insert_is_Some. intros [->|[_ ?]]; auto.
    - intros k' Hk'. simpl. apply lookup_insert_ne. intros ->. by apply (key_not_temp k'). }
  pose proof (calm_advance fl _ C2 : calm fl s4) as C4.
  pose proof (replace_spec fl s4 tmp k d (proj1 K4) Htmp Hk C4) as Hrep.
  destruct (replace tmp k d s4) as [[v|e] s5].
  - destruct Hrep as (-> & D5 & F5). pose proof (Remove_temp s5 tmp D5 Htmp) as [D6 F6].
    destruct (Remove tmp s5) as [err s6]. split; [done|]. exists (<[k := (d, version d)]> m).
    split; [|split; [done|split; [apply version_nonempty|done]]].
    eapply shows_agree; [by apply (shows_insert s m k d [] ∅ [])|]. intros k' Hk'. simpl in *.
    rewrite F6, F5 by done. destruct (decide (k = k')) as [->|Hne].
    + by rewrite !lookup_insert_eq.
    + rewrite (lookup_insert_ne _ k) by done. rewrite (lookup_insert_ne (files s) k) by done.
      by apply (proj2 K4).
  - destruct Hrep as (-> & Hfl & K5). pose proof (Remove_temp s5 tmp (proj1 K5) Htmp) as K6.
    destruct (Remove tmp s5) as [err s6]. apply Hfail; [|done|by left].
    eapply file_kept_trans; [exact K4|]. by eapply file_kept_trans; [exact K5|].
Qed.
End Keys.

(** The key a call is about. *)
Definition op_key (o : op) : option string :=
  match o with OGet k | OCreate k _ | OSwap k _ _ | ODelete k => Some k | ONow => None end.

(** The third system call of a [Create] is its write. *)
Definition written (o : op) (s : Store) : Prop :=
  match o with OCreate _ _ => head_outcome (advance (advance s)) = Done | _ => True end.

Definition on_key (K : string → Prop) (o : op) : Prop := ∀ k, op_key o = Some k → K k.

Lemma do_op_keeps K fl s m o t :
  keys_ok K → disk_ok K s → shows K s m → on_key K o → written o s → calm fl s →
  (∀ k, fl = false → op_key o = Some k → temp_left s k) → is_i64 t → keeps K fl o m (do_op None t o s).
Proof.
  intros HK Hs Hm Ho Hw Hc Ht Hi. unfold on_key in Ho. destruct o; simpl in Ho.
  - apply Get_keeps; auto.
  - apply Create_keeps; auto.
  - apply Swap_keeps; auto.
  - apply Delete_keeps; auto.
  - split; [done|]. by exists m.
Qed.

(** ** Executions *)

(** Every call an execution makes is about a key of [K], and the writes of its
    [Create]s succeed. *)
Fixpoint stays_on {A} (K : string → Prop) (p : prog A) (w : world Store) : Prop :=
  match p with
  | Ret _ | OutOfFuel => True
  | Do o k => on_key K o ∧ written o (w_store w) ∧ let '(r, w') := world_step o w in stays_on K (k r) w'
  end.

(** The same, decided for the keys of a list. *)
Fixpoint stays_onb {A} (ks : list string) (p : prog A) (w : world Store) : bool :=
  match p with
  | Ret _ | OutOfFuel => true
  | Do o k =>
      match op_key o with Some key => bool_decide (key ∈ ks) | None => true end &&
      match o with
      | OCreate _ _ => match head_outcome (advance (advance (w_store w))) with Done => true | _ => false end
      | _ => true
      end && let '(r, w') := world_step o w in stays_onb ks (k r) w'
  end.

Lemma stays_onb_sound {A} (K : string → Prop) ks (p : prog A) w :
  (∀ k, k ∈ ks → K k) → stays_onb ks p w = true → stays_on K p w.
Proof.
  intros HK. revert w. induction p as [a|o k IH|]; intros w H; [done| |done]. cbn [stays_onb stays_on] in *.
  apply andb_prop in H as [[Hk Hw]%andb_prop H]. split_and!.
  - intros key E. rewrite E in Hk. apply bool_decide_eq_true in Hk. by apply HK.
  - destruct o; try done. simpl in *. by destruct (head_outcome _).
  - destruct (world_step o w) as [r w']. by apply IH.
Qed.

Record disk_world (K : string → Prop) (w : world Store) (m : objs) : Prop := {
  dw_disk : disk_ok K (w_store w);
  dw_shows : shows K (w_store w) m;
  dw_clock : Forall is_i64 (w_clock w);
  dw_faults : forallb fault_ok (w_faults w) = true;
}.

Lemma disk_step K w m o :
  keys_ok K → disk_world K w m → on_key K o → written o (w_store w) →
  ∃ m', disk_world K (world_step o w).2 m' ∧ op_spec true o m (world_step o w).1 m'.
Proof.
  intros HK [Hs Hm Hc Hf] Ho Hw. destruct w as [s clock faults]; simpl in *.
  assert (is_i64 0) as H0 by by vm_compute.
  destruct (decide (o = ONow)) as [->|Hne].
  { unfold world_step. pose proof (next_now_ok clock Hc). simpl.
    destruct (next_now clock) as [t c]; simpl in *. destruct_and?. exists m. by split. }
  assert (calm true s) as Hcalm by done.
  destruct (do_op_keeps K true s m o 0 HK Hs Hm Ho Hw Hcalm ltac:(done) H0) as [Hs' (m' & Hm' & Hspec)].
  assert (match faults with [] => (NoFault, []) | f :: fs => (f, fs) end =
    (match faults with [] => NoFault | f :: _ => f end, tail faults)) as Ef by by destruct faults.
  assert (fault_ok (match faults with [] => NoFault | f :: _ => f end) = true ∧
    forallb fault_ok (tail faults) = true) as [Hfok Hfs].
  { destruct faults; [done|]. simpl in Hf. by bool_to_prop. }
  set (f := match faults with [] => NoFault | f :: _ => f end) in *.
  assert (world_step o (mkWorld s clock faults) =
    match f with
    | NoFault => let '(r, s') := do_op None 0 o s in (r, mkWorld s' clock (tail faults))
    | FailBefore e => let '(r, s') := do_op (Some e) 0 o s in (r, mkWorld s' clock (tail faults))
    | FailAfter e =>
        let '(r, s') := do_op None 0 o s in (set_resp o e r, mkWorld s' clock (tail faults))
    end) as ->.
  { unfold world_step. simpl. rewrite Ef. by destruct o. }
  destruct f as [|e|e].
  - exists m'. destruct (do_op None 0 o s); simpl in *. by split.
  - exists m. simpl in Hfok. apply opaque_error_spec in Hfok as (He & H1 & H2 & H3).
    destruct o; simpl; (split; [by split|]); rewrite ?H1, ?H2; naive_solver.
  - exists m'. destruct (do_op None 0 o s); simpl in *. split; [done|]. by apply faulty_after.
Qed.

Lemma run_disk {A} K (p : prog A) Q w m :
  keys_ok K → disk_world K w m → stays_on K p w → wp (op_spec true) p Q m →
  ∃ a w' m', run p w = Some (a, w') ∧ disk_world K w' m' ∧ Q a m'.
Proof.
  intros HK. revert w m. induction p as [a|o k IH|]; simpl; intros w m Hw Hon HQ; [eauto 6| |done].
  destruct Hon as (Ho & Hwr & Hon). destruct (disk_step K w m o HK Hw Ho Hwr) as (m1 & Hw1 & Hs).
  destruct (world_step o w) as [r w'] eqn:E; simpl in *. eauto.
Qed.

(** ** The keys of a track *)

(** The segments a key has behind its track's path. *)
Definition tail_segments (k : objkey) : list string :=
  match k with
  | KRoot => ["root.manifest"]
  | KLog e => [epochDir e; "log.manifest"]
  | KHead e => [epochDir e; "delta"; "head"]
  | KDelta e n => [epochDir e; "delta"; "open"; pad 8 n +:+ ".manifest"]
  | KSealed e a b => [epochDir e; "delta"; "sealed-" +:+ pad 8 a +:+ "-" +:+ pad 8 b +:+ ".manifest"]
  | KGroup e n => [epochDir e; "groups"; "g" +:+ pad 8 n]
  | KRedacted e n => [epochDir e; "redacted"; "g" +:+ pad 8 n]
  end.

(** A segment that is plain and starts with no dot. *)
Definition undotted (seg : string) : Prop :=
  slash_free seg = true ∧ ContainsChar seg "\" = false ∧
  match seg with EmptyString => False | String c _ => c ≠ "."%char end.

Lemma undotted_plain seg : undotted seg → plain seg ∧ temp_seg seg = false.
Proof.
  destruct seg as [|c seg]; intros (_ & _ & H); [done|]. split.
  - split_and!; [done| |]; intros [= -> _]; done.
  - unfold temp_seg, HasPrefix. apply bool_decide_eq_false. intros [rest E].
    cbn [CutPrefix] in E. destruct (Ascii.eqb_spec "." c) as [<-|]; done.
Qed.

Lemma no_backslash_digits s : all_chars is_digit s = true → ContainsChar s "\" = false.
Proof.
  induction s as [|c s IH]; [done|]. cbn [all_chars ContainsChar]. intros [Hc Hs]%andb_prop.
  rewrite (IH Hs), orb_false_r. by destruct c as [[][][][][][][][]].
Qed.

Lemma slash_free_app s t : slash_free (s +:+ t) = slash_free s && slash_free t.
Proof. apply all_chars_app. Qed.

Lemma slash_free_pad w n : slash_free (pad w n) = true.
Proof.
  eapply all_chars_impl; [|apply pad_all_digits]. intros c. by destruct c as [[][][][][][][][]].
Qed.

Lemma pad_head w n : match pad w n with EmptyString => False | String c _ => c ≠ "."%char end.
Proof.
  pose proof (pad_all_digits w n) as H. pose proof (pad_nonempty w n) as Hne.
  destruct (pad w n) as [|c s]; [done|]. intros ->. done.
Qed.

Ltac undotted_solve :=
  split_and!;
    [by rewrite ?slash_free_app, ?slash_free_pad
    |by rewrite ?ContainsChar_app, ?(no_backslash_digits _ (pad_all_digits _ _))|].

Lemma tail_undotted k : Forall undotted (tail_segments k).
Proof.
  assert (∀ e, undotted (epochDir e)) as He by (intros; unfold epochDir; by undotted_solve).
  assert (∀ n, undotted ("g" +:+ pad 8 n)) as Hg by (intros; by undotted_solve).
  destruct k; cbn [tail_segments]; repeat (apply Forall_cons_2; [first [apply He|apply Hg|done|idtac]|]);
    try apply Forall_nil_2.
  - undotted_solve. pose proof (pad_head 8 n) as H. by destruct (pad 8 n).
  - by undotted_solve.
Qed.

Lemma render_join p k : render p k = p +:+ String "/" (join (tail_segments k)).
Proof. by destruct k. Qed.

Lemma segments_render p k : segments (render p k) = segments p ++ tail_segments k.
Proof.
  rewrite render_join, segments_app, segments_join; [done|by destruct k|].
  eapply Forall_impl; [apply tail_undotted|]. by intros seg (H & _).
Qed.

Lemma ContainsChar_join segs :
  Forall undotted segs → ContainsChar (join segs) "\" = false.
Proof.
  induction 1 as [|seg segs (_ & Hb & _) Hs IH]; [done|]. destruct segs as [|seg' segs]; [done|].
  change (join (seg :: seg' :: segs)) with (seg +:+ String "/" (join (seg' :: segs))).
  rewrite ContainsChar_app, Hb. exact IH.
Qed.

(** No tail continues another. *)
Lemma tail_apart k k' rest : rest ≠ [] → tail_segments k ≠ tail_segments k' ++ rest.
Proof.
  assert (∀ e, epochDir e ≠ "root.manifest") as He by done.
  intros Hr. destruct k, k'; cbn [tail_segments app]; intros H; simplify_eq; try done;
    by destruct (He e).
Qed.

Definition track_key (p : TrackPath) (k : string) : Prop := ∃ key, wf_key key ∧ k = render p key.

(** A track's objects can be files of one tree. *)
Lemma track_keys_ok p :
  Forall plain (segments p) → ContainsChar p "\" = false →
  Forall (λ seg, temp_seg seg = false) (segments p) → keys_ok (track_key p).
Proof.
  intros Hp Hb Ht. constructor.
  - intros _ (k & _ & ->). rewrite segments_render. apply Forall_app. split; [done|].
    eapply Forall_impl; [apply tail_undotted|]. by intros seg [? _]%undotted_plain.
  - intros _ (k & _ & ->). rewrite render_join, ContainsChar_app, Hb.
    apply (ContainsChar_join _ (tail_undotted k)).
  - intros _ (k & _ & ->). rewrite segments_render. apply Forall_app. split; [done|].
    eapply Forall_impl; [apply tail_undotted|]. by intros seg [_ ?]%undotted_plain.
  - intros _ _ (k & _ & ->) (k' & _ & ->) (rest & Hr & E)%ancestors_segments.
    rewrite !segments_render, <-app_assoc in E. apply app_inv_head in E. by apply tail_apart in E.
Qed.
