(* ===== verification/Remote.v ===== *)
(** * Methods that call a server

    A backend whose objects are kept by a server reaches them by calls: SQL
    statements, HTTP requests. A method is a program over them. Between two calls
    of a method other clients may change what the server holds; a method is
    linearizable when one of its calls has the effect the store's contract gives
    it and the others none. *)

From S2P Require Import Prelude Store.
#[local] Open Scope list_scope.

(** ** Programs over calls *)

Inductive remote {Op : Type} (Ans : Op → Type) (A : Type) : Type :=
  | Return (a : A)
  | Send (o : Op) (k : Ans o → remote Ans A).
Arguments Return {Op Ans A} a.
Arguments Send {Op Ans A} o k.

Fixpoint remote_bind {Op} {Ans : Op → Type} {A B} (f : A → remote Ans B) (p : remote Ans A) : remote Ans B :=
  match p with
  | Return a => f a
  | Send o k => Send o (λ r, remote_bind f (k r))
  end.

#[export] Instance remote_ret {Op} (Ans : Op → Type) : MRet (remote Ans) := @Return Op Ans.
#[export] Instance remote_mbind {Op} (Ans : Op → Type) : MBind (remote Ans) := @remote_bind Op Ans.

Definition send {Op} {Ans : Op → Type} (o : Op) : remote Ans (Ans o) := Send o Return.

(** ** Servers *)

(** What answers the calls: the objects it holds, as the store's client sees them,
    and which answers are failures of the call. *)
Class Server {Op : Type} (Ans : Op → Type) (Sv : Type) := {
  exec : ∀ o : Op, Sv → Ans o * Sv;
  failed : ∀ o : Op, Ans o → bool;
  view : Sv → objs;
  sane : Sv → Prop;
}.

Section Runs.
Context {Op : Type} {Ans : Op → Type} {Sv : Type} {HSv : Server Ans Sv}.

(** A run: the server before and after each call. What lies between the end of one
    and the start of the next is up to other clients. With [fl = false] no call
    fails. *)
Fixpoint runs {A} (fl : bool) (p : remote Ans A) (tr : list (Sv * Sv)) (a : A) : Prop :=
  match p, tr with
  | Return b, [] => b = a
  | Send o k, (d, d') :: tr' => sane d ∧ d' = (exec o d).2 ∧ (fl = false → failed o (exec o d).1 = false) ∧
      runs fl (k (exec o d).1) tr' a
  | _, _ => False
  end.

(** The call changed no object. *)
Definition idle (dd : Sv * Sv) : Prop := view dd.1 = view dd.2.

(** One call has the effect, the others none. *)
Definition takes_effect (Q : objs → objs → Prop) (tr : list (Sv * Sv)) : Prop :=
  ∃ before d d' after, tr = before ++ (d, d') :: after ∧ Q (view d) (view d') ∧
    Forall idle before ∧ Forall idle after.

Lemma takes_effect_one (Q : objs → objs → Prop) d d' : Q (view d) (view d') → takes_effect Q [(d, d')].
Proof. intros HQ. by exists [], d, d', []. Qed.

(** An idle call in front. *)
Lemma takes_effect_cons (Q : objs → objs → Prop) dd tr :
  idle dd → takes_effect Q tr → takes_effect Q (dd :: tr).
Proof.
  intros Hi (before & d & d' & after & -> & HQ & Hb & Ha). exists (dd :: before), d, d', after.
  split_and!; [done|done|by constructor|done].
Qed.

(** Idle calls behind. *)
Lemma takes_effect_first (Q : objs → objs → Prop) d d' tr :
  Q (view d) (view d') → Forall idle tr → takes_effect Q ((d, d') :: tr).
Proof. intros HQ Htr. by exists [], d, d', tr. Qed.

Lemma takes_effect_mono (Q R : objs → objs → Prop) tr :
  (∀ m m', Q m m' → R m m') → takes_effect Q tr → takes_effect R tr.
Proof.
  intros HQR (before & d & d' & after & -> & HQ & Hb & Ha). exists before, d, d', after. split_and!; auto.
Qed.

Lemma runs_bind {A B} fl (p : remote Ans A) (f : A → remote Ans B) tr b :
  runs fl (p ≫= f) tr b ↔ ∃ tr1 a tr2, tr = tr1 ++ tr2 ∧ runs fl p tr1 a ∧ runs fl (f a) tr2 b.
Proof.
  unfold mbind, remote_mbind. revert tr. induction p as [a|o k IH]; intros tr; cbn [remote_bind].
  - split; [intros H; by exists [], a, tr|]. intros (tr1 & a' & tr2 & -> & H1 & H2).
    destruct tr1; [|done]. cbn in H1. by subst a'.
  - destruct tr as [|[d d'] tr]; cbn [runs].
    + split; [done|]. intros (tr1 & a & tr2 & Heq & H1 & _). symmetry in Heq.
      apply app_nil in Heq as [-> ->]. done.
    + rewrite IH. split.
      * intros (Hd & Hd' & Hfl & tr1 & a & tr2 & -> & H1 & H2). by exists ((d, d') :: tr1), a, tr2.
      * intros (tr1 & a & tr2 & Heq & H1 & H2). destruct tr1 as [|[d1 d1'] tr1]; [done|].
        injection Heq as <- <- ->. cbn [runs] in H1. destruct H1 as (Hd & Hd' & Hfl & H1).
        split_and!; [done..|]. by exists tr1, a, tr2.
Qed.

Lemma runs_send {A} fl o (k : Ans o → remote Ans A) tr b :
  runs fl (r ← send o; k r) tr b → ∃ d tr', tr = (d, (exec o d).2) :: tr' ∧ sane d ∧
    (fl = false → failed o (exec o d).1 = false) ∧ runs fl (k (exec o d).1) tr' b.
Proof.
  destruct tr as [|[d d'] tr]; [done|]. intros (Hd & -> & Hfl & H). by exists d, tr.
Qed.

Lemma runs_ret {A} fl (a b : A) tr : runs fl (mret a) tr b → tr = [] ∧ b = a.
Proof. by destruct tr as [|[]]; cbn. Qed.
End Runs.

(** ** Alone *)

Section Alone.
Context {Op : Type} {Ans : Op → Type} {Sv : Type} {HSv : Server Ans Sv}.
Context (Hsane : ∀ o d, sane d → sane (exec o d).2).

(** A method with no other client in between. *)
Fixpoint run_alone {A} (p : remote Ans A) (d : Sv) : A * Sv :=
  match p with
  | Return a => (a, d)
  | Send o k => let '(r, d') := exec o d in run_alone (k r) d'
  end.

Lemma run_alone_sane {A} (p : remote Ans A) d : sane d → sane (run_alone p d).2.
Proof using Hsane.
  revert d. induction p as [a|o k IH]; intros d Hd; cbn [run_alone]; [done|].
  pose proof (Hsane o d Hd). destruct (exec o d). by apply IH.
Qed.

(** The run, each call where the one before ended. *)
Fixpoint chained (d : Sv) (tr : list (Sv * Sv)) (dn : Sv) : Prop :=
  match tr with
  | [] => d = dn
  | (d1, d2) :: tr' => d = d1 ∧ chained d2 tr' dn
  end.

Lemma run_alone_runs {A} (p : remote Ans A) d :
  sane d → ∃ tr, runs true p tr (run_alone p d).1 ∧ chained d tr (run_alone p d).2.
Proof using Hsane.
  revert d. induction p as [a|o k IH]; intros d Hd; cbn [run_alone]; [by exists []|].
  pose proof (Hsane o d Hd) as Hd'. destruct (exec o d) as [r d'] eqn:E. cbn in Hd'.
  destruct (IH r d' Hd') as (tr & Htr & Hch). exists ((d, d') :: tr). cbn [runs chained]. rewrite E.
  by split_and!.
Qed.

Lemma chained_view d tr dn : chained d tr dn → Forall idle tr → view d = view dn.
Proof using.
  revert d. induction tr as [|[d1 d2] tr IH]; intros d; cbn [chained]; [by intros ->|].
  intros [-> Hch] [Hi Htr]%Forall_cons. unfold idle in Hi. cbn in Hi. rewrite Hi. by apply IH.
Qed.

Lemma chained_app d tr1 tr2 dn : chained d (tr1 ++ tr2) dn → ∃ dm, chained d tr1 dm ∧ chained dm tr2 dn.
Proof using.
  revert d. induction tr1 as [|[d1 d2] tr1 IH]; intros d; cbn [chained app]; [by exists d|].
  intros [-> (dm & ? & ?)%IH]. by exists dm.
Qed.

(** A linearizable method run alone has its effect. *)
Lemma alone_takes_effect {A} (p : remote Ans A) (Q : A → objs → objs → Prop) d :
  sane d → (∀ tr r, runs true p tr r → takes_effect (Q r) tr) →
  Q (run_alone p d).1 (view d) (view (run_alone p d).2).
Proof using Hsane.
  intros Hd Hp. destruct (run_alone_runs p d Hd) as (tr & Hruns & Hch).
  destruct (Hp tr _ Hruns) as (before & d1 & d2 & after & -> & HQ & Hb & Ha).
  apply chained_app in Hch as (dm & Hch1 & [-> Hch2]).
  by rewrite (chained_view _ _ _ Hch1 Hb), <-(chained_view _ _ _ Hch2 Ha).
Qed.
End Alone.
