(* ===== verification/DbStore.v ===== *)
(** * The SQL backend (ledger/store/db/db.go)

    A method of [Store] is a program over the SQL statements it sends; a
    constructor of [stmt] is a statement of the source with its parameters. The
    database is a parameter ([Database]); what its documentation says of the
    statements is [DatabaseLaws]. Between two statements of a method other
    sessions may change the table. *)

From S2P Require Import Prelude GoStd Store Group Remote.
#[local] Open Scope string_scope.
#[local] Open Scope list_scope.

Module db.

(** ** Statements *)

Inductive stmt : Type :=
  | CreateTable
  (** SELECT data, version FROM table WHERE key = $1 *)
  | SelectRow (key : string)
  (** INSERT INTO table VALUES ($1, $2, $3) ON CONFLICT (key) DO NOTHING *)
  | InsertRow (key : string) (data : bytes) (version : Z)
  (** UPDATE table SET data = $2, version = version + 1
      WHERE key = $1 AND version = $3 RETURNING version *)
  | UpdateRow (key : string) (data : bytes) (version : Z)
  (** SELECT EXISTS (SELECT 1 FROM table WHERE key = $1) *)
  | SelectExists (key : string)
  (** DELETE FROM table WHERE key = $1 *)
  | DeleteRow (key : string)
  (** SELECT key FROM table WHERE left(key, length($1)) = $1 ORDER BY key *)
  | SelectKeys (prefix : string).

(** What [Scan] of a row answers: the row, [sql.ErrNoRows], or another error. *)
Inductive scanned (A : Type) : Type :=
  | Row (a : A)
  | ErrNoRows
  | SqlErr (e : error).
Arguments Row {A} a.
Arguments ErrNoRows {A}.
Arguments SqlErr {A} e.

Definition answer (s : stmt) : Type :=
  match s with
  | CreateTable | DeleteRow _ => result unit
  | SelectRow _ => scanned (bytes * Z)
  | InsertRow _ _ _ => result Z  (* RowsAffected *)
  | UpdateRow _ _ _ => scanned Z
  | SelectExists _ => scanned bool
  | SelectKeys _ => list string * option error  (* the rows before an error *)
  end.

(** A method, as a program over statements. *)
Abbreviation sql := (remote answer).

(** ** The methods *)

Definition DefaultTable : string := "ledger_objects".
Definition firstVersion : Z := 1.

(** The regular expression [tableName] *)
Definition letter (c : ascii) : bool :=
  let b := byte_of c in
  ((65 <=? b) && (b <=? 90) || (97 <=? b) && (b <=? 122))%N || Ascii.eqb c "_".
Definition tableName (s : string) : bool :=
  match s with
  | EmptyString => false
  | String c s' => letter c && all_chars (λ c, letter c || is_digit c) s'
  end.

Record Store := mkStore { table : string; uri : string }.

(** [String], of a handle that may be nil *)
Definition StringOf (s : option Store) : string :=
  match s with
  | None => "<nil>"
  | Some s =>
      if negb (String.eqb (uri s) "") then uri s
      else "postgres:" +:+ (if negb (String.eqb (table s) "") then table s else DefaultTable)
  end.

(** [New]; [None] is a nil database. *)
Definition New (db : option unit) (table : string) : sql (result Store) :=
  match db with
  | None => mret (Err [])
  | Some _ =>
      let table := if String.eqb table "" then DefaultTable else table in
      if negb (tableName table) then mret (Err [])
      else
        r ← send CreateTable;
        mret match r with Err e => Err e | Ok _ => Ok (mkStore table "") end
  end.

Definition formatVersion (v : Z) : Version := FormatInt v.

(** [insert] *)
Definition insert (key : string) (data : bytes) : sql (result bool) :=
  r ← send (InsertRow key data firstVersion);
  mret match r with Err e => Err e | Ok n => Ok (n =? 1)%Z end.

Definition Get (key : string) : sql (result (bytes * Version)) :=
  r ← send (SelectRow key);
  mret match r with
       | ErrNoRows => Err [ErrNotExist]
       | SqlErr e => Err e
       | Row (data, version) => Ok (data, formatVersion version)
       end.

Definition Create (key : string) (data : bytes) : sql (result Version) :=
  created ← insert key data;
  mret match created with
       | Err e => Err e
       | Ok false => Err [ErrExist]
       | Ok true => Ok (formatVersion firstVersion)
       end.

(** [Swap] once nothing was replaced *)
Definition swap_refused (key : string) : sql (result Version) :=
  present ← send (SelectExists key);
  mret match present with
       | SqlErr e => Err e
       | ErrNoRows => Err []
       | Row false => Err [ErrNotExist]
       | Row true => Err [ErrVersionMismatch]
       end.

Definition Swap (key : string) (data : bytes) (expect : Version) : sql (result Version) :=
  if String.eqb expect NoVersion then
    created ← insert key data;
    mret match created with
         | Err e => Err e
         | Ok false => Err [ErrVersionMismatch]
         | Ok true => Ok (formatVersion firstVersion)
         end
  else match ParseInt expect with
  | None => swap_refused key
  | Some want =>
      next ← send (UpdateRow key data want);
      match next with
      | Row next => mret (Ok (formatVersion next))
      | SqlErr e => mret (Err e)
      | ErrNoRows => swap_refused key
      end
  end.

Definition Delete (key : string) : sql (result unit) :=
  r ← send (DeleteRow key);
  mret match r with Err e => Err e | Ok _ => Ok tt end.

(** [List]: what it yields to a caller that takes everything. *)
Definition List (prefix : string) : sql (list (result string)) :=
  r ← send (SelectKeys prefix);
  let '(keys, err) := r in
  mret ((Ok <$> keys) ++ match err with Some e => [Err e] | None => [] end).

(** The method an operation of the store calls. *)
Definition method (o : op) : sql (resp o) :=
  match o with
  | OGet key => Get key
  | OCreate key data => Create key data
  | OSwap key data expect => Swap key data expect
  | ODelete key => Delete key
  | ONow => mret 0%Z
  end.

(** ** The database *)

(** A table's rows: data and version by key. *)
Abbreviation rows := (gmap string (bytes * Z)).

(** What a statement may answer and do. An error may come before or after the
    statement took effect, and wraps none of the store's sentinels. *)
Definition stmt_spec (s : stmt) (m : rows) : answer s → rows → Prop :=
  match s with
  | CreateTable => λ r m', m' = m ∧ match r with Ok _ => True | Err e => opaque_error e = true end
  | SelectRow key => λ r m', m' = m ∧
      match r with
      | Row dv => m !! key = Some dv
      | ErrNoRows => m !! key = None
      | SqlErr e => opaque_error e = true
      end
  | InsertRow key data version => λ r m',
      match r with
      | Ok n => n = 1%Z ∧ m !! key = None ∧ m' = <[key := (data, version)]> m ∨
                n = 0%Z ∧ is_Some (m !! key) ∧ m' = m
      | Err e => opaque_error e = true ∧
                 (m' = m ∨ m !! key = None ∧ m' = <[key := (data, version)]> m)
      end
  | UpdateRow key data version => λ r m',
      let updated := (∃ old, m !! key = Some (old, version)) ∧ (version < MaxInt64)%Z ∧
                     m' = <[key := (data, version + 1)%Z]> m in
      match r with
      | Row next => next = (version + 1)%Z ∧ updated
      | ErrNoRows => (∀ old, m !! key ≠ Some (old, version)) ∧ m' = m
      | SqlErr e => opaque_error e = true ∧ (m' = m ∨ updated)
      end
  | SelectExists key => λ r m', m' = m ∧
      match r with
      | Row present => present = bool_decide (is_Some (m !! key))
      | ErrNoRows => False
      | SqlErr e => opaque_error e = true
      end
  | DeleteRow key => λ r m',
      match r with
      | Ok _ => m' = delete key m
      | Err e => opaque_error e = true ∧ (m' = m ∨ m' = delete key m)
      end
  | SelectKeys prefix => λ r m', m' = m ∧
      match r.2 with
      | None => r.1 ≡ₚ filter (λ key, HasPrefix key prefix = true) (map_to_list m).*1
      | Some e => opaque_error e = true
      end
  end.

(** Whether the answer is an error of the statement. *)
Definition failed (s : stmt) : answer s → bool :=
  match s with
  | CreateTable | DeleteRow _ => λ r, match r with Err _ => true | Ok _ => false end
  | SelectRow _ => λ r, match r with SqlErr _ => true | _ => false end
  | InsertRow _ _ _ => λ r, match r with Err _ => true | Ok _ => false end
  | UpdateRow _ _ _ => λ r, match r with SqlErr _ => true | _ => false end
  | SelectExists _ => λ r, match r with SqlErr _ => true | _ => false end
  | SelectKeys _ => λ r, match r.2 with Some _ => true | None => false end
  end.

Class Database (Db : Type) := {
  query : ∀ s : stmt, Db → answer s * Db;
  (** the rows of the table the store uses, and that its columns hold their types *)
  table_rows : Db → rows;
  well_typed : Db → Prop;
}.

Class DatabaseLaws (Db : Type) `{Database Db} := {
  typed_bigint d : well_typed d → map_Forall (λ _ dv, is_i64 dv.2) (table_rows d);
  query_sound s d : well_typed d →
    well_typed (query s d).2 ∧ stmt_spec s (table_rows d) (query s d).1 (table_rows (query s d).2);
}.

(** The objects a table holds. *)
Definition objects_of (m : rows) : objs := (λ dv, (dv.1, formatVersion dv.2)) <$> m.

#[global] Instance db_server {Db} `{Database Db} : Server answer Db := {
  exec := query; failed := failed; view d := objects_of (table_rows d); sane := well_typed;
}.
End db.
