(* ===== verification/DbProps.v ===== *)
(** * The SQL backend takes effect at one statement

    However other sessions change the table between the statements of a method,
    the method does to the objects, at one of its statements, what the store's
    contract says, and nothing at the others. *)

From S2P Require Import Prelude GoStd Store Group Remote DbStore.
#[local] Open Scope string_scope.
#[local] Open Scope list_scope.

(** A version in the one form this backend issues, if it is a number at all: an
    ETag is, [+1] and [01] are not. *)
Definition plain_version (expect : Version) : Prop :=
  ∀ n, ParseInt expect = Some n → expect = db.formatVersion n.

Definition op_plain (o : op) : Prop :=
  match o with OSwap _ _ expect => plain_version expect | ONow => False | _ => True end.

Lemma formatVersion_nonempty n : db.formatVersion n ≠ NoVersion.
Proof.
  unfold db.formatVersion, FormatInt, NoVersion. destruct (_ <? 0)%Z; [done|].
  apply format_digits_nonempty.
Qed.

Section Objects.
Context (m : db.rows).

Lemma objects_none key : m !! key = None → db.objects_of m !! key = None.
Proof. unfold db.objects_of. rewrite lookup_fmap. by intros ->. Qed.

Lemma objects_some key data n :
  m !! key = Some (data, n) → db.objects_of m !! key = Some (data, db.formatVersion n).
Proof. unfold db.objects_of. rewrite lookup_fmap. by intros ->. Qed.

Lemma objects_is_Some key : is_Some (m !! key) → is_Some (db.objects_of m !! key).
Proof. intros [[data n] H]. eexists. by apply objects_some. Qed.

Lemma objects_insert key data n :
  stored (db.objects_of m) key data (db.objects_of (<[key := (data, n)]> m)) (db.formatVersion n).
Proof. split; [apply formatVersion_nonempty|]. unfold db.objects_of. by rewrite fmap_insert. Qed.

Lemma objects_delete key : db.objects_of (delete key m) = delete key (db.objects_of m).
Proof. unfold db.objects_of. by rewrite fmap_delete. Qed.

(** A version expected that is not the row's. *)
Lemma not_allowed key expect :
  map_Forall (λ _ dv, is_i64 dv.2) m → expect ≠ NoVersion →
  (∀ old n, m !! key = Some (old, n) → ParseInt expect ≠ Some n) →
  ¬ swap_allowed (db.objects_of m) key expect.
Proof.
  intros Hm He Hno. unfold swap_allowed, db.objects_of. rewrite lookup_fmap.
  destruct (m !! key) as [[data n]|] eqn:E; simpl; [|done].
  intros <-. apply (Hno data n eq_refl). apply FormatInt_parse. by apply (Hm key _ E).
Qed.

Lemma allowed key expect old n :
  plain_version expect → ParseInt expect = Some n → m !! key = Some (old, n) →
  swap_allowed (db.objects_of m) key expect.
Proof.
  intros Hp Hn Hk. unfold swap_allowed. rewrite (objects_some key old n Hk). symmetry. by apply Hp.
Qed.
End Objects.

Lemma opaque_backend e : opaque_error e = true → backend_error e = true.
Proof. intros (H & _)%opaque_error_spec. exact H. Qed.

Section Runs.
Context {Db : Type} {HDb : db.Database Db} {HLaws : db.DatabaseLaws Db}.

Lemma idle_of (d d' : Db) : db.table_rows d' = db.table_rows d → idle (d, d').
Proof. unfold idle. cbn. by intros ->. Qed.

(** A method of one statement. *)
Lemma send_runs {A} fl s (f : db.answer s → A) tr a :
  runs fl (r ← send s; mret (f r)) tr a →
  ∃ d d' : Db, tr = [(d, d')] ∧ sane d ∧ a = f (db.query s d).1 ∧
    db.stmt_spec s (db.table_rows d) (db.query s d).1 (db.table_rows d') ∧
    (fl = false → db.failed s (db.query s d).1 = false).
Proof.
  intros (d & tr' & -> & Hd & Hfl & (-> & ->)%runs_ret)%runs_send.
  exists d, (exec s d).2. split_and!; [done|done|done| |done]. by apply db.query_sound.
Qed.

Lemma db_Get_effect fl key tr r :
  runs fl (db.Get key) tr r → takes_effect (λ m m', op_spec fl (OGet key) m r m') tr.
Proof.
  intros (d & d' & -> & Hd & -> & Hs & Hfl)%send_runs. apply takes_effect_one.
  destruct (db.query (db.SelectRow key) d).1 as [[data n]| |e]; cbn in *; destruct Hs as [-> Hs].
  - split; [done|]. by apply objects_some.
  - split; [done|]. split; [done|]. by apply objects_none.
  - apply opaque_error_spec in Hs as (? & -> & _). by destruct fl; [|discriminate Hfl].
Qed.

Lemma db_Delete_effect fl key tr r :
  runs fl (db.Delete key) tr r → takes_effect (λ m m', op_spec fl (ODelete key) m r m') tr.
Proof.
  intros (d & d' & -> & Hd & -> & Hs & Hfl)%send_runs. apply takes_effect_one.
  destruct (db.query (db.DeleteRow key) d).1 as [[]|e]; cbn in *.
  - by rewrite Hs, objects_delete.
  - destruct Hs as [He Hs]. apply opaque_backend in He. destruct fl; [|by discriminate Hfl].
    split_and!; [done|done|]. destruct Hs as [-> | ->]; [by left|right; apply objects_delete].
Qed.

(** The insert of [Create] and of [Swap] with [NoVersion], [taken] being what is
    answered when a row is there. *)
Lemma insert_effect fl key data (taken : sentinel) tr r (Q : objs → objs → Prop) :
  runs fl (created ← db.insert key data;
        mret match created with
             | Err e => Err e
             | Ok false => Err [taken]
             | Ok true => Ok (db.formatVersion db.firstVersion)
             end) tr r →
  (∀ m m' v, m !! key = None → stored m key data m' v → r = Ok v → Q m m') →
  (∀ m data' v, m !! key = Some (data', v) → v ≠ NoVersion → r = Err [taken] → Q m m) →
  (∀ m m' e, fl = true → opaque_error e = true → (m' = m ∨ m !! key = None ∧ ∃ v, stored m key data m' v) →
     r = Err e → Q m m') →
  takes_effect Q tr.
Proof.
  intros H HOk Htaken HErr. destruct tr as [|[d d'] tr]; [done|]. destruct H as (Hd & -> & Hfl & H).
  destruct tr; [|done]. simpl in H. apply takes_effect_one.
  destruct (db.query_sound (db.InsertRow key data db.firstVersion) d Hd) as [_ Hs].
  change (exec (db.InsertRow key data db.firstVersion) d) with (db.query (db.InsertRow key data db.firstVersion) d) in *.
  destruct (db.query (db.InsertRow key data db.firstVersion) d) as [[n|e] d1]; cbn in Hs, H, Hfl; subst r.
  - destruct Hs as [(-> & Hk & Hm)|(-> & Hk & Hm)]; cbn; rewrite Hm.
    + eapply HOk; [by apply objects_none|apply objects_insert|done].
    + destruct Hk as [[old n] Hk]. eapply Htaken; [by apply objects_some|apply formatVersion_nonempty|done].
  - destruct Hs as [He Hs]. destruct fl; [|by discriminate Hfl]. eapply HErr; [done|exact He| |done]. cbn.
    destruct Hs as [-> |[Hk ->]]; [by left|right]. split; [by apply objects_none|].
    eexists. apply objects_insert.
Qed.

Lemma db_Create_effect fl key data tr r :
  runs fl (db.Create key data) tr r → takes_effect (λ m m', op_spec fl (OCreate key data) m r m') tr.
Proof.
  intros H. eapply insert_effect; [exact H|..]; clear H.
  - intros m m' v Hk Hst ->. done.
  - intros m data' v Hk _ ->. cbn. split_and!; [done|by left|by eexists].
  - intros m m' e -> He Hm ->. apply opaque_error_spec in He as (? & _ & HE & _). cbn. rewrite HE.
    split_and!; [done| |done]. destruct Hm as [-> |[? ?]]; [by left|by right].
Qed.

(** The last statement of [Swap] when nothing was replaced. *)
Lemma swap_refused_runs fl key tr r :
  runs fl (db.swap_refused key) tr r →
  ∃ d d', tr = [(d, d')] ∧ db.well_typed d ∧ db.table_rows d' = db.table_rows d ∧ ∃ e, r = Err e ∧ backend_error e = true ∧
    (errors_Is e ErrVersionMismatch || errors_Is e ErrNotExist = true ∨ fl = true).
Proof.
  intros (d & d' & -> & Hd & -> & Hs & Hfl)%send_runs. exists d, d'.
  destruct (db.query (db.SelectExists key) d).1 as [[]| |e]; cbn in Hs; destruct Hs as [Hm Hs]; try done;
    (do 3 (split; [done|]); eexists; split; [done|]).
  - split; [done|by left].
  - split; [done|by left].
  - split; [by apply opaque_backend|right]. by destruct fl; [|discriminate Hfl].
Qed.

Lemma db_Swap_effect fl key data expect tr r :
  plain_version expect →
  runs fl (db.Swap key data expect) tr r → takes_effect (λ m m', op_spec fl (OSwap key data expect) m r m') tr.
Proof.
  intros Hp H. unfold db.Swap in H. destruct (String.eqb_spec expect NoVersion) as [->|He].
  { eapply insert_effect; [exact H|..]; clear H.
    - intros m m' v Hk Hst ->. cbn. unfold swap_allowed. by rewrite Hk.
    - intros m data' v Hk Hv ->. cbn. split; [done|]. left. split_and!; [done| |done].
      unfold swap_allowed. by rewrite Hk.
    - intros m m' e -> Hop Hm ->. apply opaque_backend in Hop. cbn. split; [done|]. right. split; [done|].
      destruct Hm as [-> |[Hk ?]]; [by left|right]. split; [|done]. unfold swap_allowed. by rewrite Hk. }
  assert (∀ (m : objs) e, ¬ swap_allowed m key expect → backend_error e = true →
    errors_Is e ErrVersionMismatch || errors_Is e ErrNotExist = true ∨ fl = true →
    op_spec fl (OSwap key data expect) m (Err e) m) as Hrefused.
  { intros m e Hno Hb He'. cbn. split; [done|]. destruct He' as [?|?]; [by left|right]. split; [done|by left]. }
  destruct (ParseInt expect) as [want|] eqn:Hwant.
  - destruct tr as [|[d d'] tr]; [done|]. destruct H as (Hd & -> & Hfl & H).
    destruct (db.query_sound (db.UpdateRow key data want) d Hd) as [_ Hs].
    pose proof (db.typed_bigint d Hd) as Hbig. cbn in H.
    change (exec (db.UpdateRow key data want) d) with (db.query (db.UpdateRow key data want) d) in *.
    destruct (db.query (db.UpdateRow key data want) d) as [[next| |e] d1]; cbn in Hs, H, Hfl.
    + destruct tr; [|done]. simpl in H. subst r. apply takes_effect_one. cbn.
      destruct Hs as (-> & (old & Hk) & _ & ->). split; [by eapply allowed|apply objects_insert].
    + destruct Hs as [Hno Hm]. apply swap_refused_runs in H as (d2 & d3 & -> & _ & Hm2 & e & -> & Hb & Hcase).
      exists [], d, d1, [(d2, d3)]. split_and!; [done| |done|repeat constructor; by apply idle_of].
      cbn. rewrite Hm. apply Hrefused; [|done|done].
      apply not_allowed; [done|done|]. intros old n Hk. rewrite Hwant. intros [= ->]. by apply (Hno old).
    + destruct tr; [|done]. simpl in H. subst r. apply takes_effect_one. cbn.
      destruct Hs as [Hop Hm]. destruct fl; [|by discriminate Hfl].
      split; [by apply opaque_backend|]. right. split; [done|].
      destruct Hm as [-> |((old & Hk) & _ & ->)]; [by left|right].
      split; [by eapply allowed|eexists; apply objects_insert].
  - apply swap_refused_runs in H as (d & d' & -> & Hd & Hm & e & -> & Hb & Hcase). apply takes_effect_one.
    cbn. rewrite Hm. apply Hrefused; [|done|done].
    apply not_allowed; [by apply db.typed_bigint|done|]. intros old n _. congruence.
Qed.

(** Every method takes effect at one of its statements. *)
Lemma db_method_effect fl o tr r :
  op_plain o → runs fl (db.method o) tr r → takes_effect (λ m m', op_spec fl o m r m') tr.
Proof.
  destruct o as [key|key data|key data expect|key|]; cbn [op_plain db.method]; intros Hp H.
  - by apply db_Get_effect.
  - by apply db_Create_effect.
  - by apply db_Swap_effect.
  - by apply db_Delete_effect.
  - done.
Qed.
End Runs.

(** Run alone, a method keeps the contract. *)
Lemma db_alone_keeps_contract {Db} `{!db.Database Db, !db.DatabaseLaws Db} o (d : Db) :
  sane d → op_plain o →
  op_spec true o (view d) (run_alone (db.method o) d).1 (view (run_alone (db.method o) d).2).
Proof.
  intros Hd Ho. apply (alone_takes_effect (Sv := Db)) with (Q := λ r m m', op_spec true o m r m'); [|done|].
  - intros s d0 Hd0. by apply db.query_sound.
  - intros tr r. by apply db_method_effect.
Qed.

(** * Properties *)

(** C16 The SQL backend is linearizable: however other sessions change the table
    between the statements a method sends, the method changes the objects, and
    answers, as the store's contract says at the instant of one of its
    statements, and none of its other statements changes an object; and where no
    statement fails, the contract without failures. The version a [Swap] expects
    is one of this backend's, none, or no number. *)
Theorem db_linearizable {Db} `{!db.Database Db, !db.DatabaseLaws Db} fl o (tr : list (Db * Db)) r :
  op_plain o → runs fl (db.method o) tr r → takes_effect (λ m m', op_spec fl o m r m') tr.
Proof. apply db_method_effect. Qed.

(** ** A database *)

(** A table, and whether the statements still to come fail. *)
Record demo := mkDemo { d_rows : db.rows; d_fails : list bool }.

Definition demo_exec (s : db.stmt) (m : db.rows) : db.answer s * db.rows :=
  match s with
  | db.CreateTable => (Ok tt, m)
  | db.SelectRow key => (match m !! key with Some dv => db.Row dv | None => db.ErrNoRows end, m)
  | db.InsertRow key data version =>
      if bool_decide (is_i64 version) then
        match m !! key with
        | Some _ => (Ok 0%Z, m)
        | None => (Ok 1%Z, <[key := (data, version)]> m)
        end
      else (Err [], m)
  | db.UpdateRow key data version =>
      match m !! key with
      | Some (_, v) =>
          if bool_decide (v = version) then
            if bool_decide (version < MaxInt64)%Z
            then (db.Row (version + 1)%Z, <[key := (data, version + 1)%Z]> m) else (db.SqlErr [], m)
          else (db.ErrNoRows, m)
      | None => (db.ErrNoRows, m)
      end
  | db.SelectExists key => (db.Row (bool_decide (is_Some (m !! key))), m)
  | db.DeleteRow key => (Ok tt, delete key m)
  | db.SelectKeys prefix =>
      ((filter (λ key, HasPrefix key prefix = true) (map_to_list m).*1, None), m)
  end.

Definition demo_error (s : db.stmt) : db.answer s :=
  match s with
  | db.CreateTable | db.DeleteRow _ => Err []
  | db.SelectRow _ => db.SqlErr []
  | db.InsertRow _ _ _ => Err []
  | db.UpdateRow _ _ _ => db.SqlErr []
  | db.SelectExists _ => db.SqlErr []
  | db.SelectKeys _ => ([], Some [])
  end.

#[export] Instance demo_db : db.Database demo := {
  query s d :=
    match d_fails d with
    | true :: rest => (demo_error s, mkDemo (d_rows d) rest)
    | _ => let '(r, m) := demo_exec s (d_rows d) in (r, mkDemo m (tail (d_fails d)))
    end;
  table_rows := d_rows;
  well_typed d := map_Forall (λ _ dv, is_i64 dv.2) (d_rows d);
}.

Definition bigints (m : db.rows) : Prop := map_Forall (λ _ dv, is_i64 dv.2) m.

Lemma demo_exec_sound s m :
  bigints m → bigints (demo_exec s m).2 ∧ db.stmt_spec s m (demo_exec s m).1 (demo_exec s m).2.
Proof.
  intros Hm. destruct s as [|key|key data v|key data v|key|key|prefix]; cbn.
  - done.
  - split; [done|]. split; [done|]. by destruct (m !! key).
  - case_bool_decide; [|split; [done|]; split; [done|by left]].
    destruct (m !! key) eqn:E; cbn; (split; [|naive_solver]); [done|by apply map_Forall_insert_2].
  - destruct (m !! key) as [[old n]|] eqn:E; cbn; [|split; [done|]; by split].
    case_bool_decide as Hn; cbn; [subst n|split; [done|]; split; [intros ? [= _ ?]; done|done]].
    case_bool_decide; cbn; [|split; [done|]; split; [done|by left]].
    split; [|split_and!; [done|by exists old|done|done]].
    apply map_Forall_insert_2; [|done]. specialize (Hm key _ E). unfold is_i64 in *. cbn in *. lia.
  - split; [done|]. by split.
  - split; [|done]. by apply map_Forall_delete.
  - split; [done|]. by split.
Qed.

#[export] Program Instance demo_laws : db.DatabaseLaws demo.
Next Obligation. done. Qed.
Next Obligation.
  intros s d Hd. cbn. destruct (d_fails d) as [|[] rest].
  - pose proof (demo_exec_sound s (d_rows d) Hd) as H. by destruct (demo_exec s (d_rows d)).
  - cbn. split; [done|]. destruct s; cbn; naive_solver.
  - pose proof (demo_exec_sound s (d_rows d) Hd) as H. by destruct (demo_exec s (d_rows d)).
Qed.

(** A [Swap] that finds the object changed, and, when it asks why, gone. *)
Definition swap_raced : list (demo * demo) :=
  [(mkDemo {["head" := ("b", 2%Z)]} [], mkDemo {["head" := ("b", 2%Z)]} []); (mkDemo ∅ [], mkDemo ∅ [])].

Lemma db_linearizable_witness :
  takes_effect (λ m m', op_spec false (OSwap "head" "c" "1") m (Err [ErrNotExist]) m') swap_raced.
Proof.
  apply (db_linearizable false (OSwap "head" "c" "1") swap_raced (Err [ErrNotExist])).
  - intros n [= <-]. reflexivity.
  - cbn [runs swap_raced]. split_and!; try done; apply map_Forall_singleton || apply map_Forall_empty; done.
Defined.
