(* ===== verification/Sha256.v ===== *)
(** * SHA-256 and HMAC

    What ledger/store/bucket/sign.go uses of crypto/sha256, crypto/hmac and
    encoding/hex: FIPS 180-4 over words kept to 32 bits, and RFC 2104. *)

From S2P Require Import Prelude GoStd.
#[local] Open Scope string_scope.
#[local] Open Scope list_scope.
#[local] Open Scope N_scope.

(** ** SHA-256 *)

Definition mask32 : N := 4294967295.
Definition add32 (a b : N) : N := N.land (a + b) mask32.
Definition rotr (n x : N) : N := N.lor (N.shiftr x n) (N.land (N.shiftl x (32 - n)) mask32).
Definition not32 (x : N) : N := N.lxor x mask32.

Definition sigma0 (x : N) : N := N.lxor (N.lxor (rotr 7 x) (rotr 18 x)) (N.shiftr x 3).
Definition sigma1 (x : N) : N := N.lxor (N.lxor (rotr 17 x) (rotr 19 x)) (N.shiftr x 10).
Definition Sigma0 (x : N) : N := N.lxor (N.lxor (rotr 2 x) (rotr 13 x)) (rotr 22 x).
Definition Sigma1 (x : N) : N := N.lxor (N.lxor (rotr 6 x) (rotr 11 x)) (rotr 25 x).
Definition Ch (x y z : N) : N := N.lxor (N.land x y) (N.land (not32 x) z).
Definition Maj (x y z : N) : N := N.lxor (N.lxor (N.land x y) (N.land x z)) (N.land y z).

Definition round_constants : list N := [
  1116352408; 1899447441; 3049323471; 3921009573; 961987163; 1508970993; 2453635748; 2870763221;
  3624381080; 310598401; 607225278; 1426881987; 1925078388; 2162078206; 2614888103; 3248222580;
  3835390401; 4022224774; 264347078; 604807628; 770255983; 1249150122; 1555081692; 1996064986;
  2554220882; 2821834349; 2952996808; 3210313671; 3336571891; 3584528711; 113926993; 338241895;
  666307205; 773529912; 1294757372; 1396182291; 1695183700; 1986661051; 2177026350; 2456956037;
  2730485921; 2820302411; 3259730800; 3345764771; 3516065817; 3600352804; 4094571909; 275423344;
  430227734; 506948616; 659060556; 883997877; 958139571; 1322822218; 1537002063; 1747873779;
  1955562222; 2024104815; 2227730452; 2361852424; 2428436474; 2756734187; 3204031479; 3329325298].

Definition initial_hash : list N := [
  1779033703; 3144134277; 1013904242; 2773480762; 1359893119; 2600822924; 528734635; 1541459225].

(** The message schedule, newest word first. *)
Fixpoint extend (n : nat) (w : list N) : list N :=
  match n with
  | O => w
  | S n' =>
      extend n' (add32 (add32 (sigma1 (nth 1 w 0)) (nth 6 w 0))
                       (add32 (sigma0 (nth 14 w 0)) (nth 15 w 0)) :: w)
  end.

Definition round (st : list N) (kw : N * N) : list N :=
  match st with
  | [a; b; c; d; e; f; g; h] =>
      let t1 := add32 (add32 (add32 h (Sigma1 e)) (Ch e f g)) (add32 kw.1 kw.2) in
      let t2 := add32 (Sigma0 a) (Maj a b c) in
      [add32 t1 t2; a; b; c; add32 d t1; e; f; g]
  | _ => st
  end.

Definition block (h : list N) (words : list N) : list N :=
  let w := rev (extend 48 (rev words)) in
  zip_with add32 h (foldl round h (zip round_constants w)).

Fixpoint bytes_of (s : string) : list N :=
  match s with EmptyString => [] | String c s' => byte_of c :: bytes_of s' end.
Definition string_of (l : list N) : string := foldr (λ b s, String (ascii_of_N b) s) "" l.

(** A number's low bytes, high one first. *)
Fixpoint big_endian (n : nat) (x : N) : list N :=
  match n with O => [] | S n' => N.shiftr x (8 * N.of_nat n') mod 256 :: big_endian n' x end.

Definition padding (len : nat) : list N :=
  128 :: repeat 0 ((119 - len mod 64) mod 64) ++ big_endian 8 (8 * N.of_nat len).

Fixpoint words (l : list N) : list N :=
  match l with
  | a :: b :: c :: d :: l' => (((a * 256 + b) * 256 + c) * 256 + d) :: words l'
  | _ => []
  end.

Fixpoint blocks (fuel : nat) (h : list N) (w : list N) : list N :=
  match fuel, w with
  | S fuel', _ :: _ => blocks fuel' (block h (take 16 w)) (drop 16 w)
  | _, _ => h
  end.

Definition sha256_bytes (l : list N) : list N :=
  let w := words (l ++ padding (length l)) in
  mjoin (big_endian 4 <$> blocks (length w) initial_hash w).

(** [sha256.Sum256] *)
Definition Sum256 (s : bytes) : bytes := string_of (sha256_bytes (bytes_of s)).

(** [hmac.New(sha256.New, key)] over one message *)
Definition hmac_bytes (key msg : list N) : list N :=
  let key := if (64 <? length key)%nat then sha256_bytes key else key in
  let key := key ++ repeat 0 (64 - length key)%nat in
  sha256_bytes ((N.lxor 92 <$> key) ++ sha256_bytes ((N.lxor 54 <$> key) ++ msg)).

Definition hmac_Sum (key msg : bytes) : bytes := string_of (hmac_bytes (bytes_of key) (bytes_of msg)).

(** [hex.EncodeToString] *)
Fixpoint hex_Encode (s : bytes) : string :=
  match s with
  | EmptyString => ""
  | String c s' => String (hex_char (byte_of c / 16)) (String (hex_char (byte_of c mod 16)) (hex_Encode s'))
  end.

(** ** Test vectors *)

Example sha256_empty :
  hex_Encode (Sum256 "") = "e3b0c44298fc1c149afbf4c8996fb92427ae41e4649b934ca495991b7852b855".
Proof. vm_compute. reflexivity. Qed.

Example sha256_abc :
  hex_Encode (Sum256 "abc") = "ba7816bf8f01cfea414140de5dae2223b00361a396177a9cb410ff61f20015ad".
Proof. vm_compute. reflexivity. Qed.

Example sha256_two_blocks :
  hex_Encode (Sum256 "abcdbcdecdefdefgefghfghighijhijkijkljklmklmnlmnomnopnopq") =
  "248d6a61d20638b8e5c026930c3e6039a33ce45964ff2167f6ecedd419db06c1".
Proof. vm_compute. reflexivity. Qed.

Example hmac_jefe :
  hex_Encode (hmac_Sum "Jefe" "what do ya want for nothing?") =
  "5bdcc146bf60754e6a042426089575c75a003f089d2739839dec58b964ec3843".
Proof. vm_compute. reflexivity. Qed.

