(* ===== verification/Dates.v ===== *)
(** * Dates (the part of Go's package time the program uses)

    The civil date of an instant and its text forms. [civil_next] ties the
    arithmetic to the calendar: it counts the days from 1970-01-01. *)

From S2P Require Import Prelude GoStd.
#[local] Open Scope string_scope.
#[local] Open Scope Z_scope.

(** The civil date of a day counted from 1970-01-01. *)
Definition civil (days : Z) : Z * Z * Z :=
  let z := days + 719468 in
  let era := z / 146097 in
  let doe := z - era * 146097 in
  let yoe := (doe - doe / 1460 + doe / 36524 - doe / 146096) / 365 in
  let doy := doe - (365 * yoe + yoe / 4 - yoe / 100) in
  let mp := (5 * doy + 2) / 153 in
  let d := doy - (153 * mp + 2) / 5 + 1 in
  let m := if mp <? 10 then mp + 3 else mp - 9 in
  (yoe + era * 400 + (if m <=? 2 then 1 else 0), m, d).

(** [now.UTC().Format("20060102")] and [Format("20060102T150405Z")] of an instant
    in nanoseconds since 1970. *)
Definition format_day (now : Z) : string :=
  let '(y, m, d) := civil (now / 1000000000 / 86400) in
  pad 4 (Z.to_N y) +:+ pad 2 (Z.to_N m) +:+ pad 2 (Z.to_N d).

Definition format_date (now : Z) : string :=
  let s := now / 1000000000 mod 86400 in
  format_day now +:+ "T" +:+ pad 2 (Z.to_N (s / 3600)) +:+ pad 2 (Z.to_N (s / 60 mod 60)) +:+
    pad 2 (Z.to_N (s mod 60)) +:+ "Z".

(** [time.Unix(0, nanos).UTC().Format(time.RFC3339Nano)]: the fraction without
    trailing zeros, and no fraction if it is zero. *)
Fixpoint trim_zeros (s : string) : string :=
  match s with
  | EmptyString => EmptyString
  | String c s' =>
      match trim_zeros s' with
      | EmptyString => if Ascii.eqb c "0" then EmptyString else String c EmptyString
      | rest => String c rest
      end
  end.

Definition RFC3339Nano (nanos : Z) : string :=
  let '(y, m, d) := civil (nanos / 1000000000 / 86400) in
  let s := nanos / 1000000000 mod 86400 in
  let fraction := trim_zeros (pad 9 (Z.to_N (nanos mod 1000000000))) in
  pad 4 (Z.to_N y) +:+ "-" +:+ pad 2 (Z.to_N m) +:+ "-" +:+ pad 2 (Z.to_N d) +:+ "T" +:+
    pad 2 (Z.to_N (s / 3600)) +:+ ":" +:+ pad 2 (Z.to_N (s / 60 mod 60)) +:+ ":" +:+
    pad 2 (Z.to_N (s mod 60)) +:+
    (if String.eqb fraction "" then "" else "." +:+ fraction) +:+ "Z".

(** ** The calendar *)

(** The Gregorian calendar. *)
Definition leap (y : Z) : bool := (y mod 4 =? 0) && (negb (y mod 100 =? 0) || (y mod 400 =? 0)).

Definition month_length (y m : Z) : Z :=
  if m =? 2 then if leap y then 29 else 28
  else if (m =? 4) || (m =? 6) || (m =? 9) || (m =? 11) then 30 else 31.

Definition next_day (date : Z * Z * Z) : Z * Z * Z :=
  let '(y, m, d) := date in
  if d <? month_length y m then (y, m, d + 1) else if m <? 12 then (y, m + 1, 1) else (y + 1, 1, 1).

(** The day of a year that begins in March. *)
Definition month_day (doy : Z) : Z * Z :=
  let mp := (5 * doy + 2) / 153 in
  (if mp <? 10 then mp + 3 else mp - 9, doy - (153 * mp + 2) / 5 + 1).

Definition march (y : Z) : Z := 365 * y + y / 4 - y / 100.
Definition year_of (doe : Z) : Z := (doe - doe / 1460 + doe / 36524 - doe / 146096) / 365.

Lemma year_of_spec doe : 0 <= doe < 146097 →
  0 <= year_of doe < 400 ∧ march (year_of doe) <= doe ∧ (doe < march (year_of doe + 1) ∨ year_of doe = 399).
Proof. intros H. unfold year_of, march. Z.to_euclidean_division_equations; lia. Qed.

Lemma year_of_unique doe y : 0 <= doe < 146097 → 0 <= y < 400 → march y <= doe → (doe < march (y + 1) ∨ y = 399) → year_of doe = y.
Proof. intros H Hy H1 H2. pose proof (year_of_spec doe H) as (Hr & Hlo & Hhi).
  destruct (Z.lt_trichotomy (year_of doe) y) as [Hlt|[?|Hlt]]; [|done|].
  - assert (march (year_of doe + 1) <= march y). { clear -Hlt. unfold march. Z.to_euclidean_division_equations; nia. } lia.
  - assert (march (y + 1) <= march (year_of doe)). { clear -Hlt. unfold march. Z.to_euclidean_division_equations; nia. } lia.
Qed.
Definition in_year (doy : Z) : bool :=
  let '(m, d) := month_day doy in let '(m', d') := month_day (doy + 1) in
  (1 <=? m) && (m <=? 12) && (1 <=? d) &&
  if m =? 2 then (d <? 28) && (m' =? 2) && (d' =? d + 1)
  else if d <? month_length 1 m then (m' =? m) && (d' =? d + 1)
  else (d =? month_length 1 m) && (m' =? if m =? 12 then 1 else m + 1) && (d' =? 1).

Lemma in_year_ok doy : 0 <= doy < 364 → in_year doy = true.
Proof.
  assert (forallb (λ i, in_year (Z.of_nat i)) (seq 0 364) = true) as H by by vm_compute.
  intros Hd. rewrite forallb_forall in H. specialize (H (Z.to_nat doy)). rewrite Z2Nat.id in H by lia.
  apply H, in_seq. lia.
Qed.


(** Day [doy] of the [y]th year of [era], years that begin in March. *)
Definition of_year (era y doy : Z) : Z := era * 146097 + march y + doy - 719468.

Definition year_has (y doy : Z) : Prop :=
  0 <= y < 400 ∧ 0 <= doy ∧ (march y + doy < march (y + 1) ∨ y = 399 ∧ doy <= 365).

Lemma march_range y : 0 <= y < 400 → 0 <= march y ∧ march y + 365 <= march (y + 1) ∧ march y <= 145731.
Proof. intros H. unfold march. Z.to_euclidean_division_equations; lia. Qed.

Lemma civil_at era y doy :
  year_has y doy → let '(m, d) := month_day doy in
  civil (of_year era y doy) = (y + era * 400 + (if m <=? 2 then 1 else 0), m, d).
Proof.
  intros (Hy & Hd & Hin). pose proof (march_range y Hy) as (H0 & H1 & H2).
  assert (march (y + 1) <= 146096) as H3.
  { destruct (decide (y = 399)) as [->|]; [done|]. pose proof (march_range (y + 1) ltac:(lia)). lia. }
  set (doe := march y + doy). assert (0 <= doe < 146097) as Hdoe by (unfold doe; lia).
  assert (year_of doe = y) as Hy' by (apply year_of_unique; unfold doe; lia).
  assert ((of_year era y doy + 719468) / 146097 = era) as Hera.
  { symmetry. apply (Z.div_unique _ _ _ doe); unfold of_year, doe; lia. }
  unfold civil. rewrite Hera. replace (of_year era y doy + 719468 - era * 146097) with doe by (unfold of_year, doe; lia).
  fold (year_of doe). rewrite Hy'. replace (doe - _) with doy by (unfold doe, march; lia). done.
Qed.

Lemma civil_split n : ∃ era y doy, n = of_year era y doy ∧ year_has y doy.
Proof.
  set (doe := (n + 719468) mod 146097). pose proof (Z.mod_pos_bound (n + 719468) 146097 ltac:(lia)) as H.
  destruct (year_of_spec doe H) as (Hy & Hlo & Hhi).
  exists ((n + 719468) / 146097), (year_of doe), (doe - march (year_of doe)).
  pose proof (Z.div_mod (n + 719468) 146097 ltac:(lia)). split; [unfold of_year, doe in *; lia|].
  split_and!; [lia|lia|lia|]. destruct Hhi as [?|E]; [left; lia|right]. split; [done|]. rewrite E. fold doe in H.
  change (march 399) with 145731. lia.
Qed.

Lemma march_leap y era : 0 <= y < 399 → march (y + 1) = march y + if leap (y + era * 400 + 1) then 366 else 365.
Proof.
  intros H. assert (leap (y + era * 400 + 1) = leap (y + 1)) as ->.
  { unfold leap. replace (y + era * 400 + 1) with (y + 1 + (era * 100) * 4) at 1 by lia. rewrite Z.mod_add by done.
    replace (y + era * 400 + 1) with (y + 1 + (era * 4) * 100) at 1 by lia. rewrite Z.mod_add by done.
    replace (y + era * 400 + 1) with (y + 1 + era * 400) by lia. by rewrite Z.mod_add. }
  unfold march, leap. destruct (Z.eqb_spec ((y + 1) mod 4) 0), (Z.eqb_spec ((y + 1) mod 100) 0),
    (Z.eqb_spec ((y + 1) mod 400) 0); cbn; Z.to_euclidean_division_equations; lia.
Qed.

Lemma date_eq (y y' m d : Z) : y = y' → (y, m, d) = (y', m, d).
Proof. by intros ->. Qed.

Section Next.
Context (era y doy : Z) (Hin : year_has y doy).

Lemma of_year_succ : of_year era y doy + 1 = of_year era y (doy + 1).
Proof using. unfold of_year. lia. Qed.

(** The last day of a year that begins in March. *)
Lemma civil_turn :
  y < 399 → march y + doy + 1 = march (y + 1) → civil (of_year era y doy + 1) = (y + era * 400 + 1, 3, 1).
Proof using Hin.
  intros Hy He. replace (of_year era y doy + 1) with (of_year era (y + 1) 0) by (unfold of_year; lia).
  destruct Hin as (Hy0 & _ & _). assert (year_has (y + 1) 0) as Hh.
  { split_and!; [lia..|left]. pose proof (march_range (y + 1) ltac:(lia)). lia. }
  pose proof (civil_at era (y + 1) 0 Hh) as H. change (month_day 0) with (3, 1) in H.
  rewrite H. change (if 3 <=? 2 then 1 else 0) with 0. apply date_eq. lia.
Qed.

Lemma civil_next_early : doy < 364 → civil (of_year era y doy + 1) = next_day (civil (of_year era y doy)).
Proof using Hin.
  intros Hlt. pose proof (civil_at era y doy Hin) as Hat. destruct Hin as (Hy & Hd & _).
  pose proof (march_range y Hy) as (_ & H1 & _).
  assert (year_has y (doy + 1)) as Hh by (split_and!; [lia..|left; lia]).
  pose proof (civil_at era y (doy + 1) Hh) as Hat'. pose proof (in_year_ok doy ltac:(lia)) as Hok.
  unfold in_year in Hok. rewrite of_year_succ. destruct (month_day doy) as [m d], (month_day (doy + 1)) as [m' d'].
  rewrite Hat, Hat'. unfold next_day, month_length in *. bool_to_prop. destruct (Z.eqb_spec m 2) as [->|Hm].
  - bool_to_prop. subst m' d'. rewrite (proj2 (Z.ltb_lt d _)); [done|]. destruct (leap _); lia.
  - destruct (d <? _); bool_to_prop; subst m' d'; [done|]. destruct (Z.eqb_spec m 12) as [->|Hm'].
    + change (12 <? 12) with false. apply date_eq. change (1 <=? 2) with true. change (12 <=? 2) with false. cbn iota. lia.
    + rewrite (proj2 (Z.ltb_lt m 12)) by lia. apply date_eq.
      destruct (Z.leb_spec m 2), (Z.leb_spec (m + 1) 2); lia.
Qed.

(** 28 and 29 February. *)
Lemma civil_february : 364 <= doy →
  (doy = 364 ∨ doy = 365) ∧ civil (of_year era y doy) = (y + era * 400 + 1, 2, doy - 336) ∧
  (y < 399 → march (y + 1) = march y + if leap (y + era * 400 + 1) then 366 else 365) ∧
  (y = 399 → leap (y + era * 400 + 1) = true).
Proof using Hin.
  intros Hge. pose proof (civil_at era y doy Hin) as Hat. destruct Hin as (Hy & _ & Hlt).
  assert (doy = 364 ∨ doy = 365) as Hdoy.
  { destruct Hlt as [Hlt|?]; [|lia]. destruct (decide (y = 399)) as [->|].
    - change (march (399 + 1)) with 146096 in Hlt. change (march 399) with 145731 in Hlt. lia.
    - rewrite (march_leap y era) in Hlt by lia. destruct (leap _); lia. }
  split_and!; [done| |intros; apply march_leap; lia|intros ->; unfold leap].
  - destruct Hdoy as [-> | ->]; exact Hat.
  - replace (399 + era * 400 + 1) with (0 + (era + 1) * 100 * 4) at 1 by lia. rewrite Z.mod_add by done.
    replace (399 + era * 400 + 1) with (0 + (era + 1) * 400) by lia.
    rewrite (Z.mod_add 0 (era + 1) 400) by done. by rewrite orb_true_r.
Qed.

Lemma civil_next_february : 364 <= doy → civil (of_year era y doy + 1) = next_day (civil (of_year era y doy)).
Proof using Hin.
  intros Hge. destruct (civil_february Hge) as (Hdoy & -> & Hl & Hl'). destruct Hin as (Hy & _ & Hlt).
  unfold next_day, month_length. change (2 =? 2) with true. change (2 <? 12) with true. cbn iota.
  assert (doy = 364 → year_has y 365 → civil (of_year era y doy + 1) = (y + era * 400 + 1, 2, 29)) as Hleap.
  { intros Hd Hh. rewrite of_year_succ, Hd. exact (civil_at era y 365 Hh). }
  destruct (decide (y = 399)) as [Hy'|Hy'].
  - rewrite (Hl' Hy'). destruct Hdoy as [Hd|Hd].
    + rewrite (Hleap Hd), Hd; [done|]. split_and!; [lia..|right; lia].
    + rewrite Hd, Hy'. replace (of_year era 399 365 + 1) with (of_year (era + 1) 0 0) by
        (unfold of_year; change (march 399) with 145731; change (march 0) with 0; lia).
      assert (year_has 0 0) as Hh by (split_and!; [lia..|left; by vm_compute]).
      pose proof (civil_at (era + 1) 0 0 Hh) as H. change (month_day 0) with (3, 1) in H. rewrite H.
      change (365 - 336 <? 29) with false. cbn iota. apply date_eq. change (3 <=? 2) with false. cbn iota. lia.
  - specialize (Hl ltac:(lia)). destruct (leap _), Hdoy as [Hd|Hd]; try lia.
    + rewrite (Hleap Hd), Hd; [done|]. split_and!; [lia..|left; lia].
    + rewrite civil_turn by lia. by rewrite Hd.
    + rewrite civil_turn by lia. by rewrite Hd.
Qed.
End Next.

(** The date of a day is the calendar's: day zero is 1970-01-01, and each day's is
    the successor of the date of the day before. *)
Theorem civil_next n : civil 0 = (1970, 1, 1) ∧ civil (n + 1) = next_day (civil n).
Proof.
  split; [done|]. destruct (civil_split n) as (era & y & doy & -> & Hin).
  destruct (Z.lt_ge_cases doy 364); [by apply civil_next_early|by apply civil_next_february].
Qed.

Example time_whole : RFC3339Nano 1700000000000000000 = "2023-11-14T22:13:20Z".
Proof. vm_compute. reflexivity. Qed.

Example time_fraction : RFC3339Nano 951782399120000000 = "2000-02-28T23:59:59.12Z".
Proof. vm_compute. reflexivity. Qed.

Example time_before : RFC3339Nano (-1) = "1969-12-31T23:59:59.999999999Z".
Proof. vm_compute. reflexivity. Qed.

Example time_bounds :
  RFC3339Nano MinInt64 = "1677-09-21T00:12:43.145224192Z" ∧
  RFC3339Nano MaxInt64 = "2262-04-11T23:47:16.854775807Z".
Proof. vm_compute. done. Qed.

Example date_2013 : format_date 1369353600000000000 = "20130524T000000Z".
Proof. vm_compute. reflexivity. Qed.
