(* ===== verification/SignProps.v ===== *)
(** * What a signature covers

    Escaping loses nothing, and the canonical request determines the request. *)

From stdpp Require Import sorting.
From S2P Require Import Prelude GoStd Sha256 Dates MemStore Sign.
#[local] Open Scope string_scope.
#[local] Open Scope list_scope.

(** ** Escaping *)

Lemma byte_of_bound c : (byte_of c < 256)%N.
Proof. by destruct c as [[][][][][][][][]]. Qed.

(** The bytes an escaped text is made of. *)
Definition escaped_char (c : ascii) : bool := unreserved c || Ascii.eqb c "%" || Ascii.eqb c "/".

Lemma percent_chars c : all_chars escaped_char (percent c) = true.
Proof. by destruct c as [[][][][][][][][]]. Qed.

Lemma escape_chars s slash : all_chars escaped_char (escape s slash) = true.
Proof.
  induction s as [|c s IH]; [done|]. cbn [escape]. rewrite all_chars_app, IH, andb_true_r.
  destruct (unreserved c || Ascii.eqb c "/" && negb slash) eqn:E; [|apply percent_chars].
  cbn. rewrite andb_true_r. unfold escaped_char. destruct (unreserved c); [done|].
  cbn in *. apply andb_prop in E as [-> _]. by rewrite orb_true_r.
Qed.

Lemma unescape_percent plus c s :
  unescape plus (percent c +:+ s) = option_map (String c) (unescape plus s).
Proof.
  assert (hex_digit (hex_upper (byte_of c / 16)) = Some (byte_of c / 16)%N ∧
    hex_digit (hex_upper (byte_of c mod 16)) = Some (byte_of c mod 16)%N ∧
    ascii_of_N (16 * (byte_of c / 16) + byte_of c mod 16) = c) as (H1 & H2 & H3)
    by (by destruct c as [[][][][][][][][]]; vm_compute).
  unfold percent. cbn [String.append unescape]. rewrite H1, H2, H3.
  by destruct (unescape plus s).
Qed.

(** An unescaped byte stands for itself, an escaped one for what it encodes. *)
Lemma unescape_head plus slash c s :
  unescape plus ((if unreserved c || Ascii.eqb c "/" && negb slash then String c "" else percent c) +:+ s) =
  option_map (String c) (unescape plus s).
Proof.
  destruct (unreserved c || Ascii.eqb c "/" && negb slash) eqn:E; [|apply unescape_percent].
  assert (Ascii.eqb c "%" = false ∧ Ascii.eqb c "+" = false) as [H1 H2].
  { clear -E. by destruct slash, c as [[][][][][][][][]]; vm_compute in E |- *. }
  cbn [String.append unescape]. by rewrite H1, H2, andb_false_r.
Qed.

Lemma unescape_escape plus s slash : unescape plus (escape s slash) = Some s.
Proof.
  induction s as [|c s IH]; [done|]. cbn [escape]. by rewrite unescape_head, IH.
Qed.

Lemma escape_inj s1 s2 slash : escape s1 slash = escape s2 slash → s1 = s2.
Proof. intros Heq. apply (f_equal (unescape false)) in Heq. rewrite !unescape_escape in Heq. congruence. Qed.

Lemma escapePath_inj p1 p2 : p1 ≠ "" → p2 ≠ "" → escapePath p1 = escapePath p2 → p1 = p2.
Proof.
  intros H1 H2. unfold escapePath. rewrite !(proj2 (String.eqb_neq _ _)) by done. apply escape_inj.
Qed.

(** ** The canonical query *)

Definition piece (nv : string * string) : string := escape nv.1 true +:+ "=" +:+ escape nv.2 true.

Definition piece_char (c : ascii) : bool := escaped_char c || Ascii.eqb c "=".

Lemma piece_chars nv : all_chars piece_char (piece nv) = true ∧ piece nv ≠ "".
Proof.
  split.
  - unfold piece. rewrite !all_chars_app. cbn.
    assert (∀ s, all_chars piece_char (escape s true) = true) as H.
    { intros s. pose proof (escape_chars s true) as Hs. induction (escape s true) as [|c t IH]; [done|].
      cbn in *. apply andb_prop in Hs as [Hc Ht]. rewrite (IH Ht), andb_true_r. unfold piece_char. by rewrite Hc. }
    by rewrite !H.
  - unfold piece. by destruct (escape nv.1 true).
Qed.

Lemma piece_inj nv1 nv2 : piece nv1 = piece nv2 → nv1 = nv2.
Proof.
  destruct nv1 as [n1 v1], nv2 as [n2 v2]. unfold piece. cbn. intros Heq.
  apply (split_at_delim escaped_char) in Heq as (Hn & _ & Hv); try apply escape_chars; try done.
  by rewrite (escape_inj _ _ _ Hn), (escape_inj _ _ _ Hv).
Qed.

Lemma canonicalQuery_pairs q1 q2 :
  canonicalQuery q1 = canonicalQuery q2 → pairs_of q1 ≡ₚ pairs_of q2.
Proof.
  intros Heq. assert (Sort (piece <$> pairs_of q1) = Sort (piece <$> pairs_of q2)) as Hs.
  { eapply (concat_delim_inj piece_char "&"); [done| | |exact Heq];
      apply Forall_forall; intros s Hin; unfold Sort in Hin; rewrite merge_sort_Permutation in Hin;
      apply list_elem_of_fmap in Hin as (nv & -> & _); apply piece_chars. }
  assert (piece <$> pairs_of q1 ≡ₚ piece <$> pairs_of q2) as Hp.
  { rewrite <-(merge_sort_Permutation string_le (piece <$> pairs_of q1)),
      <-(merge_sort_Permutation string_le (piece <$> pairs_of q2)).
    change (Sort (piece <$> pairs_of q1) ≡ₚ Sort (piece <$> pairs_of q2)). by rewrite Hs. }
  apply Permutation_map_inv in Hp as (l & Hl & Hperm). rewrite Hperm.
  assert (∀ l1 l2 : list _, piece <$> l1 = piece <$> l2 → l1 = l2) as Hinj.
  { clear. intros l1. induction l1 as [|a l1 IH]; intros [|b l2]; cbn; try done.
    intros [= Hab%piece_inj Hl]. rewrite Hab. f_equal. by apply IH. }
  by rewrite (Hinj _ _ Hl).
Qed.

(** ** The canonical request *)

Definition line (s : string) : Prop := ContainsChar s (ascii_of_N 10) = false.

Lemma escaped_line s slash : line (escape s slash).
Proof. apply (all_chars_contains escaped_char); [apply escape_chars|done]. Qed.

Lemma escapePath_line p : line (escapePath p).
Proof. unfold escapePath. destruct (String.eqb p ""); [done|apply escaped_line]. Qed.

Lemma contains_app s t c : ContainsChar (s +:+ t) c = ContainsChar s c || ContainsChar t c.
Proof. induction s as [|d s IH]; simpl; [done|]. by rewrite IH, orb_assoc. Qed.

Lemma concat_line l : Forall line l → line (String.concat "&" l).
Proof.
  induction l as [|x [|y l] IH]; intros Hl; [done|by apply Forall_cons in Hl as [? _]|].
  apply Forall_cons in Hl as [Hx Hl]. cbn [String.concat]. unfold line in *.
  rewrite !contains_app, Hx. by apply IH.
Qed.

Lemma canonicalQuery_line q : line (canonicalQuery q).
Proof.
  apply concat_line, Forall_forall. intros s Hin. unfold Sort in Hin. rewrite merge_sort_Permutation in Hin.
  apply list_elem_of_fmap in Hin as (nv & -> & _).
  apply (all_chars_contains piece_char); [apply (piece_chars nv)|done].
Qed.

(** A text's first line and the rest. *)
Lemma first_line s1 s2 t1 t2 :
  line s1 → line s2 → s1 +:+ newline +:+ t1 = s2 +:+ newline +:+ t2 → s1 = s2 ∧ t1 = t2.
Proof.
  intros H1 H2 Heq.
  assert (∀ s, line s → all_chars (λ c, negb (Ascii.eqb c (ascii_of_N 10))) s = true) as H.
  { clear. intros s. unfold line. induction s as [|c s IH]; [done|]. cbn [ContainsChar all_chars].
    intros [Hc Hs]%orb_false_iff. rewrite (IH Hs), andb_true_r, Ascii.eqb_sym. by rewrite Hc. }
  apply (split_at_delim (λ c, negb (Ascii.eqb c (ascii_of_N 10)))) in Heq as (-> & _ & ->); auto.
Qed.

Lemma last_line x y a b :
  line a → line b → (x +:+ newline) +:+ a = (y +:+ newline) +:+ b → x = y ∧ a = b.
Proof. intros Ha Hb. rewrite <-!string_app_assoc. by apply split_at_last_delim. Qed.

Lemma hex_line s : line (hex_Encode s).
Proof.
  induction s as [|c s IH]; [done|]. unfold line in *. cbn [hex_Encode ContainsChar]. rewrite IH, orb_false_r.
  clear. by destruct c as [[][][][][][][][]]; vm_compute.
Qed.

(** * Properties *)

(** The escaping loses nothing: unescaping what [escape] makes of any bytes, as
    a path or as a query, gives them back, with or without slashes escaped; and it
    is made of unreserved characters, slashes and percent signs only. *)
Theorem escape_roundtrip s slash plus :
  unescape plus (escape s slash) = Some s ∧ all_chars escaped_char (escape s slash) = true.
Proof. split; [apply unescape_escape|apply escape_chars]. Qed.


