(* ===== verification/BucketStore.v ===== *)
(** * The object-store backend (ledger/store/bucket/bucket.go)

    A method of [Store] is a program over the signed HTTP requests it sends and the
    clock it signs them by. The service is a parameter; what the documentation of
    the S3 REST API says of the requests is [ServiceLaws]. Between two requests
    other clients may change the bucket. *)

From S2P Require Import Prelude GoStd Store Sha256 Dates MemStore Sign Remote.
#[local] Open Scope string_scope.
#[local] Open Scope list_scope.

Module bucket.

(** ** Requests and responses *)

(** What the code reads of an [http.Response]: the body, or the error reading it,
    and the page an XML body of a listing decodes to. *)
Record listResult := mkListResult {
  Contents : list string;
  IsTruncated : bool;
  NextContinuationToken : string;
}.

Record Response := mkResponse {
  StatusCode : N;
  ETag : string;
  resp_Body : result bytes;
  resp_Page : result listResult;
}.

Inductive call : Type :=
  | Exchange (req : Request)  (* client.Do *)
  | Clock.                    (* time.Now *)

Definition answer (c : call) : Type :=
  match c with Exchange _ => result Response | Clock => Z end.

Abbreviation http := (remote answer).
Definition client_Do (req : Request) : http (result Response) := @send _ answer (Exchange req).
Definition time_Now : http Z := @send _ answer Clock.

(** ** The store *)

(** [Config] without its [HTTPClient] *)
Record Config := mkConfig {
  Bucket : string;
  Prefix : string;
  Region : string;
  Endpoint : string;
  AccessKeyID : string;
  SecretAccessKey : string;
  SessionToken : string;
}.

(** What the code uses of a [url.URL]. *)
Record URL := mkURL { Scheme : string; url_Host : string; Path : string }.

Record Store := mkStore {
  bucket : URL;
  prefix : string;
  sign_with : signer;
  uri : string;
}.

Definition conflictAttempts : nat := 3.

(** [strings.Trim(s, "/")] and [strings.TrimPrefix(s, "/")] *)
Fixpoint trim_slashes_left (s : string) : string :=
  match s with
  | String c s' => if Ascii.eqb c "/" then trim_slashes_left s' else s
  | EmptyString => ""
  end.
Fixpoint trim_slashes_right (s : string) : string :=
  match s with
  | EmptyString => ""
  | String c s' =>
      let r := trim_slashes_right s' in
      if Ascii.eqb c "/" && String.eqb r "" then "" else String c r
  end.
Definition Trim (s : string) : string := trim_slashes_right (trim_slashes_left s).
Definition TrimPrefix (s pre : string) : string := default s (CutPrefix s pre).

(** [New]; [Parse] is [url.Parse] followed by the bucket's [JoinPath]. *)
Definition New (Parse : string → string → option URL) (cfg : Config) : result Store :=
  if String.eqb (Bucket cfg) "" then Err []
  else if String.eqb (Region cfg) "" then Err []
  else if String.eqb (AccessKeyID cfg) "" || String.eqb (SecretAccessKey cfg) "" then Err []
  else
    let url :=
      if String.eqb (Endpoint cfg) ""
      then Some (mkURL "https" (Bucket cfg +:+ ".s3." +:+ Region cfg +:+ ".amazonaws.com") "/")
      else match Parse (Endpoint cfg) (Bucket cfg) with
           | Some u =>
               if String.eqb (url_Host u) "" ||
                  (negb (String.eqb (Scheme u) "http") && negb (String.eqb (Scheme u) "https"))
               then None
               else Some {| u with Path := "/" +:+ TrimPrefix (Path u) "/" +:+ "/" |}
           | None => None
           end in
    match url with
    | None => Err []
    | Some url =>
        let pre := Trim (Prefix cfg) in
        let named := negb (String.eqb pre "") in
        Ok (mkStore url (if named then pre +:+ "/" else pre)
              (mkSigner (Region cfg) (AccessKeyID cfg) (SecretAccessKey cfg) (SessionToken cfg))
              ("s3://" +:+ Bucket cfg +:+ (if named then "/" +:+ pre else "")))
    end.

(** [String], of a handle that may be nil *)
Definition StringOf (s : option Store) : string :=
  match s with
  | None => "<nil>"
  | Some s => if negb (String.eqb (uri s) "") then uri s else "s3"
  end.

(** The request [do] builds, before it is signed. *)
Definition request (s : Store) (method key : string) (query : option Values) (body : bytes)
    (header : gmap string (list string)) : Request :=
  mkRequest method (Path (bucket s) +:+ key) "" (Encode (default ∅ query)) (url_Host (bucket s))
    (url_Host (bucket s)) header body.

(** [do] *)
Definition do (s : Store) (method key : string) (query : option Values) (body : bytes)
    (header : gmap string (list string)) : http (result Response) :=
  if String.eqb key "" && match query with None => true | Some _ => false end then mret (Err [])
  else
    now ← time_Now;
    client_Do (sign (sign_with s) (request s method key query body header) body now).

Definition Get (s : Store) (key : string) : http (result (bytes * Version)) :=
  r ← do s "GET" (prefix s +:+ key) None "" ∅;
  mret match r with
       | Err e => Err e
       | Ok resp =>
           if (StatusCode resp =? 200)%N then
             match resp_Body resp with
             | Err e => Err e
             | Ok data => Ok (data, ETag resp)
             end
           else if (StatusCode resp =? 404)%N then Err [ErrNotExist]
           else Err []
       end.

(** [put]: the version and the status, or an error. *)
Fixpoint put_attempts (left : nat) (s : Store) (key : string) (data : bytes)
    (header : gmap string (list string)) : http (result (Version * N)) :=
  r ← do s "PUT" (prefix s +:+ key) None data header;
  match r with
  | Err e => mret (Err e)
  | Ok resp =>
      if (StatusCode resp =? 200)%N then mret (Ok (ETag resp, StatusCode resp))
      else if (StatusCode resp =? 412)%N || (StatusCode resp =? 404)%N then
        mret (Ok (NoVersion, StatusCode resp))
      else
        match left with
        | S left' => if (StatusCode resp =? 409)%N then put_attempts left' s key data header
                     else mret (Err [])
        | O => mret (Err [])
        end
  end.

Definition put : Store → string → bytes → gmap string (list string) → http (result (Version * N)) :=
  put_attempts (conflictAttempts - 1).

Definition if_none_match : gmap string (list string) := {["If-None-Match" := ["*"]]}.
Definition if_match (expect : Version) : gmap string (list string) := {["If-Match" := [expect]]}.

Definition Create (s : Store) (key : string) (data : bytes) : http (result Version) :=
  r ← put s key data if_none_match;
  mret match r with
       | Err e => Err e
       | Ok (version, status) => if (status =? 412)%N then Err [ErrExist] else Ok version
       end.

Definition Swap (s : Store) (key : string) (data : bytes) (expect : Version) : http (result Version) :=
  r ← put s key data (if String.eqb expect NoVersion then if_none_match else if_match expect);
  mret match r with
       | Err e => Err e
       | Ok (version, status) =>
           if (status =? 412)%N then Err [ErrVersionMismatch]
           else if (status =? 404)%N then Err [ErrNotExist]
           else Ok version
       end.

Definition Delete (s : Store) (key : string) : http (result unit) :=
  r ← do s "DELETE" (prefix s +:+ key) None "" ∅;
  mret match r with
       | Err e => Err e
       | Ok resp =>
           if (StatusCode resp =? 200)%N || (StatusCode resp =? 204)%N || (StatusCode resp =? 404)%N
           then Ok tt else Err []
       end.

(** [listPage] *)
Definition listPage (s : Store) (query : Values) : http (result listResult) :=
  r ← do s "GET" "" (Some query) "" ∅;
  mret match r with
       | Err e => Err e
       | Ok resp => if (StatusCode resp =? 200)%N then resp_Page resp else Err []
       end.

Definition list_query (s : Store) (pre : string) : Values :=
  {["list-type" := ["2"]; "prefix" := [prefix s +:+ pre]]}.

(** [List]: what it yields to a caller that takes everything, in [pages] pages at
    most; [None] when there are more. *)
Fixpoint list_pages (pages : nat) (s : Store) (query : Values) : http (option (list (result string))) :=
  match pages with
  | O => mret None
  | S pages' =>
      page ← listPage s query;
      match page with
      | Err e => mret (Some [Err e])
      | Ok page =>
          let found := (λ key, Ok (TrimPrefix key (prefix s))) <$> Contents page in
          if negb (IsTruncated page) || String.eqb (NextContinuationToken page) "" then mret (Some found)
          else
            rest ← list_pages pages' s (<["continuation-token" := [NextContinuationToken page]]> query);
            mret match rest with Some rest => Some (found ++ rest) | None => None end
      end
  end.

Definition List (pages : nat) (s : Store) (pre : string) : http (option (list (result string))) :=
  list_pages pages s (list_query s pre).

(** The method an operation of the store calls. *)
Definition method (s : Store) (o : op) : http (resp o) :=
  match o with
  | OGet key => Get s key
  | OCreate key data => Create s key data
  | OSwap key data expect => Swap s key data expect
  | ODelete key => Delete s key
  | ONow => mret 0%Z
  end.
End bucket.
