(* ===== verification/BucketProps.v ===== *)
(** * The object-store backend takes effect at one request

    However other clients change the bucket between the requests of a method, the
    method does to the objects, at one of its requests, what the store's contract
    says, and nothing at the others. *)

From S2P Require Import Prelude GoStd Store Sha256 Dates MemStore Sign Remote BucketStore.
#[local] Open Scope string_scope.
#[local] Open Scope list_scope.
Import bucket.

(** ** The service *)

(** The objects of the bucket by their path: data and ETag. *)
Abbreviation held_objects := (gmap string (bytes * string)).

Class Service (Sv : Type) := {
  handle : Request → Sv → result Response * Sv;
  clock : Sv → Z;
  held : Sv → held_objects;
  in_order : Sv → Prop;
}.

(** The condition headers of a PUT. *)
Definition condition (req : Request) (m : held_objects) : Prop :=
  (Header req !! "If-None-Match" = Some ["*"] → m !! URL_Path req = None) ∧
  (∀ v, Header req !! "If-Match" = Some [v] → ∃ d, m !! URL_Path req = Some (d, v)).

Definition put_done (req : Request) (m m' : held_objects) : Prop :=
  condition req m ∧ ∃ tag, tag ≠ "" ∧ m' = <[URL_Path req := (Body req, tag)]> m.

(** What the service may answer to a request for an object, and do. An error of
    the exchange may come before or after the request took effect. *)
Definition get_spec (req : Request) (m : held_objects) (a : result Response) (m' : held_objects) : Prop :=
  m' = m ∧
  match a with
  | Ok resp =>
      (StatusCode resp = 200%N →
        match resp_Body resp with
        | Ok d => m !! URL_Path req = Some (d, ETag resp)
        | Err e => opaque_error e = true
        end) ∧
      (StatusCode resp = 404%N → m !! URL_Path req = None)
  | Err e => opaque_error e = true
  end.

Definition put_spec (req : Request) (m : held_objects) (a : result Response) (m' : held_objects) : Prop :=
  match a with
  | Ok resp =>
      if (StatusCode resp =? 200)%N then
        condition req m ∧ ETag resp ≠ "" ∧ m' = <[URL_Path req := (Body req, ETag resp)]> m
      else if (StatusCode resp =? 412)%N then ¬ condition req m ∧ m' = m
      else if (StatusCode resp =? 404)%N then
        (∃ v, Header req !! "If-Match" = Some [v]) ∧ m !! URL_Path req = None ∧ m' = m
      else if (StatusCode resp =? 409)%N then m' = m
      else m' = m ∨ put_done req m m'
  | Err e => opaque_error e = true ∧ (m' = m ∨ put_done req m m')
  end.

Definition delete_done (status : N) : bool := (status =? 200)%N || (status =? 204)%N || (status =? 404)%N.

Definition delete_spec (req : Request) (m : held_objects) (a : result Response) (m' : held_objects) : Prop :=
  match a with
  | Ok resp =>
      if delete_done (StatusCode resp) then m' = delete (URL_Path req) m
      else m' = m ∨ m' = delete (URL_Path req) m
  | Err e => opaque_error e = true ∧ (m' = m ∨ m' = delete (URL_Path req) m)
  end.

Class ServiceLaws (Sv : Type) `{Service Sv} := {
  etags_nonempty d : in_order d → map_Forall (λ _ dv, dv.2 ≠ "") (held d);
  handle_in_order req d : in_order d → in_order (handle req d).2;
  handle_get req d : in_order d → Method req = "GET" → URL_RawQuery req = "" →
    get_spec req (held d) (handle req d).1 (held (handle req d).2);
  handle_put req d : in_order d → Method req = "PUT" → URL_RawQuery req = "" →
    put_spec req (held d) (handle req d).1 (held (handle req d).2);
  handle_delete req d : in_order d → Method req = "DELETE" → URL_RawQuery req = "" →
    delete_spec req (held d) (handle req d).1 (held (handle req d).2);
}.

(** ** Objects under a prefix *)

Definition under {A} (pre : string) (m : gmap string A) : gmap string A :=
  list_to_map (omap (λ kv, (λ k, (k, kv.2)) <$> CutPrefix kv.1 pre) (map_to_list m)).

Lemma CutPrefix_Some s pre k : CutPrefix s pre = Some k ↔ s = pre +:+ k.
Proof.
  revert s. induction pre as [|c pre IH]; intros s; cbn [CutPrefix String.append].
  - split; [by intros [= ->]|by intros ->].
  - destruct s as [|d s]; [done|]. destruct (Ascii.eqb_spec c d) as [->|Hne].
    + rewrite IH. split; [by intros ->|by intros [= ->]].
    + split; [done|]. by intros [= -> _].
Qed.

Lemma NoDup_stripped {A} pre (l : list (string * A)) :
  NoDup l.*1 → NoDup (omap (λ kv, (λ k, (k, kv.2)) <$> CutPrefix kv.1 pre) l).*1.
Proof.
  induction l as [|[key a] l IH]; cbn; [constructor|]. intros [Hkey Hl]%NoDup_cons.
  destruct (CutPrefix key pre) as [k|] eqn:E; cbn; [|by apply IH].
  apply CutPrefix_Some in E as ->. constructor; [|by apply IH]. intros Hin.
  apply list_elem_of_fmap in Hin as ([k' a'] & [= <-] & Hin).
  apply list_elem_of_omap in Hin as ([key' a2] & Hin & Hk). cbn in Hk.
  destruct (CutPrefix key' pre) as [k'|] eqn:E; [|done]. injection Hk as -> _.
  apply CutPrefix_Some in E as ->. apply Hkey. apply list_elem_of_fmap. by eexists (_, _).
Qed.

Lemma lookup_under {A} pre (m : gmap string A) k : under pre m !! k = m !! (pre +:+ k).
Proof.
  assert (∀ a, under pre m !! k = Some a ↔ m !! (pre +:+ k) = Some a) as H.
  { intros a. unfold under. rewrite <-elem_of_list_to_map by apply NoDup_stripped, NoDup_fst_map_to_list.
    rewrite list_elem_of_omap. split.
    - intros ([key a'] & Hin%elem_of_map_to_list & Hk). cbn in Hk.
      destruct (CutPrefix key pre) as [k'|] eqn:E; [|done]. injection Hk as -> ->.
      by apply CutPrefix_Some in E as ->.
    - intros Hk. exists (pre +:+ k, a). split; [by apply elem_of_map_to_list|]. cbn.
      by rewrite (proj2 (CutPrefix_Some _ pre k) eq_refl). }
  destruct (m !! (pre +:+ k)) as [a|]; [by apply H|].
  destruct (under pre m !! k) as [a|] eqn:E; [|done]. exfalso. destruct (H a) as [Hn _]. by specialize (Hn eq_refl).
Qed.

Lemma under_insert {A} pre (m : gmap string A) k a :
  under pre (<[pre +:+ k := a]> m) = <[k := a]> (under pre m).
Proof.
  apply map_eq. intros j. rewrite lookup_under. destruct (decide (j = k)) as [->|Hne].
  - by rewrite !lookup_insert_eq.
  - rewrite !lookup_insert_ne by (done || intros H%string_app_inj_l; congruence). by rewrite lookup_under.
Qed.

Lemma under_delete {A} pre (m : gmap string A) k :
  under pre (delete (pre +:+ k) m) = delete k (under pre m).
Proof.
  apply map_eq. intros j. rewrite lookup_under. destruct (decide (j = k)) as [->|Hne].
  - by rewrite !lookup_delete_eq.
  - rewrite !lookup_delete_ne by (done || intros H%string_app_inj_l; congruence). by rewrite lookup_under.
Qed.

(** ** What signing keeps of a request *)

Definition condition_headers : list string := ["If-None-Match"; "If-Match"].

Record same_request (req signed : Request) : Prop := {
  sm_method : Method signed = Method req;
  sm_path : URL_Path signed = URL_Path req;
  sm_body : Body signed = Body req;
  sm_query : URL_RawQuery signed = canonicalQuery (Query (URL_RawQuery req));
  sm_conditions name : name ∈ condition_headers → Header signed !! name = Header req !! name;
}.

Lemma prepare_keeps sg req hash now : same_request req (prepare sg req hash now).
Proof.
  unfold prepare, Header_Set. generalize (format_date now). intros date.
  destruct (String.eqb (sessionToken sg) ""); constructor; try reflexivity;
    intros name Hname; cbn [Header]; rewrite !lookup_insert_ne; try done;
    intros <-; unfold condition_headers in Hname; set_solver.
Qed.

Lemma sign_keeps sg req body now : same_request req (sign sg req body now).
Proof.
  unfold sign. generalize (hashHex body). intros hash. destruct (prepare_keeps sg req hash now).
  generalize (authorization sg (prepare sg req hash now) hash now). intros auth.
  constructor; [done..|]. intros name Hname. unfold Header_Set. cbn [Header].
  rewrite lookup_insert_ne; [auto|]. intros <-. unfold condition_headers in Hname. set_solver.
Qed.

(** ** Runs *)

Section Runs.
Context {Sv : Type} {HSv : Service Sv} {HLaws : ServiceLaws Sv} (s : Store).

(** The statuses that are an outcome of a request. *)
Definition expected (meth : string) (status : N) : bool :=
  (status =? 200)%N || (status =? 404)%N ||
  (if String.eqb meth "PUT" then (status =? 412)%N
   else if String.eqb meth "DELETE" then (status =? 204)%N else false).

(** An answer that is not an outcome, or whose body is lost. *)
Definition call_failed (c : call) : answer c → bool :=
  match c with
  | Exchange req => λ a,
      match a with
      | Ok resp =>
          negb (expected (Method req) (StatusCode resp)) ||
          (String.eqb (Method req) "GET" && match resp_Body resp with Err _ => true | Ok _ => false end)
      | Err _ => true
      end
  | Clock => λ _, false
  end.

Definition call_exec (c : call) (d : Sv) : answer c * Sv :=
  match c with Exchange req => handle req d | Clock => (clock d, d) end.

#[local] Instance bucket_server : Server answer Sv := {
  exec := call_exec;
  failed := call_failed;
  view d := under (Path (bucket s) +:+ prefix s) (held d);
  sane := in_order;
}.

Definition root : string := Path (bucket s) +:+ prefix s.

(** The run of [do] for an object: the clock, then the request. *)
Lemma do_runs {B} fl meth key body header (f : result Response → http B) tr b :
  prefix s +:+ key ≠ "" →
  runs fl (r ← do s meth (prefix s +:+ key) None body header; f r) tr b →
  ∃ d0 d req tr', tr = (d0, d0) :: (d, (handle req d).2) :: tr' ∧ in_order d ∧
    Method req = meth ∧ URL_Path req = root +:+ key ∧ Body req = body ∧ URL_RawQuery req = "" ∧
    (∀ name, name ∈ condition_headers → Header req !! name = header !! name) ∧
    (fl = false → call_failed (Exchange req) (handle req d).1 = false) ∧
    runs fl (f (handle req d).1) tr' b.
Proof using HLaws.
  intros Hkey H. unfold do in H. rewrite (proj2 (String.eqb_neq _ _) Hkey) in H. cbn [andb] in H.
  apply runs_bind in H as (tr1 & r & tr2 & -> & H1 & H2).
  apply runs_send in H1 as (d0 & tr' & -> & _ & _ & H1). cbn [exec bucket_server call_exec fst snd] in H1.
  set (req := sign _ _ _ _) in H1.
  destruct tr' as [|[d d'] tr']; [done|]. destruct H1 as (Hd & -> & Hfl & H1).
  destruct tr'; [|done]. cbn in H1. subst r.
  destruct (sign_keeps (sign_with s) (request s meth (prefix s +:+ key) None body header) body (clock d0))
    as [Hm Hp Hb Hq Hh].
  exists d0, d, req, tr2. split_and!; [done..| |exact Hb|exact Hq|exact Hh|done|done].
  etrans; [exact Hp|]. apply string_app_assoc.
Qed.

Lemma view_lookup d key : view d !! key = held d !! (root +:+ key).
Proof using. apply lookup_under. Qed.

Lemma view_insert d d' key data tag :
  tag ≠ "" → held d' = <[root +:+ key := (data, tag)]> (held d) → stored (view d) key data (view d') tag.
Proof using. intros Ht Hd. split; [done|]. cbn. rewrite Hd. apply under_insert. Qed.

Lemma view_same d d' : held d' = held d → view d' = view d.
Proof using. cbn. by intros ->. Qed.

Lemma view_delete d d' key : held d' = delete (root +:+ key) (held d) → view d' = delete key (view d).
Proof using. cbn. intros ->. apply under_delete. Qed.

(** A clock reading and then the request. *)
Lemma takes_effect_do (Q : objs → objs → Prop) (d0 d d' : Sv) tr :
  Q (view d) (view d') → Forall idle tr → takes_effect Q ((d0, d0) :: (d, d') :: tr).
Proof using. intros HQ Htr. apply takes_effect_cons; [done|]. by apply takes_effect_first. Qed.

Lemma bucket_Get_effect fl key tr r :
  prefix s +:+ key ≠ "" →
  runs fl (Get s key) tr r → takes_effect (λ m m', op_spec fl (OGet key) m r m') tr.
Proof using HLaws.
  intros Hkey (d0 & d & req & tr' & -> & Hd & Hm & Hp & _ & Hq & _ & Hfl & (-> & ->)%runs_ret)%do_runs; [|done].
  apply takes_effect_do; [|done].
  destruct (handle_get req d Hd Hm Hq) as [Hsame Ha]. rewrite (view_same d _ Hsame). rewrite Hp in Ha.
  cbn in Hfl. rewrite Hm in Hfl. destruct (handle req d).1 as [resp|e].
  - destruct Ha as [H200 H404]. destruct (N.eqb_spec (StatusCode resp) 200) as [E|N200].
    + specialize (H200 E). destruct (resp_Body resp) as [data|e].
      * split; [done|]. by rewrite view_lookup.
      * apply opaque_error_spec in H200 as (? & HE & _). split; [done|]. rewrite HE. split; [done|].
        destruct fl; [done|]. specialize (Hfl eq_refl). by rewrite orb_true_r in Hfl.
    + destruct (N.eqb_spec (StatusCode resp) 404) as [E|N404].
      * split; [done|]. split; [done|]. cbn. rewrite <-(H404 E). apply view_lookup.
      * split; [done|]. split; [done|]. cbn. destruct fl; [done|]. specialize (Hfl eq_refl).
        apply orb_false_iff in Hfl as [Hfl _]. unfold expected in Hfl.
        by rewrite (proj2 (N.eqb_neq _ _) N200), (proj2 (N.eqb_neq _ _) N404) in Hfl.
  - apply opaque_error_spec in Ha as (? & HE & _). split; [done|]. rewrite HE. split; [done|].
    by destruct fl; [|discriminate (Hfl eq_refl)].
Qed.

Lemma bucket_Delete_effect fl key tr r :
  prefix s +:+ key ≠ "" →
  runs fl (Delete s key) tr r → takes_effect (λ m m', op_spec fl (ODelete key) m r m') tr.
Proof using HLaws.
  intros Hkey (d0 & d & req & tr' & -> & Hd & Hm & Hp & _ & Hq & _ & Hfl & (-> & ->)%runs_ret)%do_runs; [|done].
  apply takes_effect_do; [|done].
  pose proof (handle_delete req d Hd Hm Hq) as Ha. unfold delete_spec in Ha. rewrite Hp in Ha.
  cbn in Hfl. rewrite Hm in Hfl. destruct (handle req d) as [[resp|e] d']; cbn [fst snd] in *.
  - unfold delete_done in Ha. destruct (_ || _ || _) eqn:E; [by apply view_delete|].
    cbn [op_spec]. split; [done|]. split.
    + destruct fl; [done|]. specialize (Hfl eq_refl). cbn in Hfl. rewrite orb_false_r in Hfl.
      apply negb_false_iff in Hfl. unfold expected in Hfl. cbn in Hfl.
      destruct (StatusCode resp =? 200)%N, (StatusCode resp =? 404)%N, (StatusCode resp =? 204)%N; done.
    + destruct Ha as [Ha|Ha]; [left; by apply view_same|right; by apply view_delete].
  - destruct Ha as [He Ha]. apply opaque_error_spec in He as (He & _). cbn [op_spec].
    split; [done|]. split; [by destruct fl; [|discriminate (Hfl eq_refl)]|].
    destruct Ha as [Ha|Ha]; [left; by apply view_same|right; by apply view_delete].
Qed.

(** The operation names an object: its key under the prefix is not empty. *)
Definition op_named (o : op) : Prop :=
  match o with
  | OGet key | OCreate key _ | OSwap key _ _ | ODelete key => prefix s +:+ key ≠ ""
  | ONow => False
  end.

#[export] Instance op_named_dec o : Decision (op_named o).
Proof. destruct o; cbn [op_named]; apply _. Defined.

(** ** Conditional PUTs *)

Definition conditional (expect : Version) : gmap string (list string) :=
  if String.eqb expect NoVersion then if_none_match else if_match expect.

Lemma condition_allowed req d key expect :
  in_order d → URL_Path req = root +:+ key →
  (∀ name, name ∈ condition_headers → Header req !! name = conditional expect !! name) →
  condition req (held d) ↔ swap_allowed (view d) key expect.
Proof using HLaws.
  intros Hd Hp Hh. unfold condition, swap_allowed. rewrite Hp, view_lookup.
  rewrite !Hh by (unfold condition_headers; set_solver). unfold conditional.
  destruct (String.eqb_spec expect NoVersion) as [->|Hne]; unfold if_none_match, if_match; simpl_map.
  - destruct (held d !! (root +:+ key)) as [[data v]|] eqn:E; [|naive_solver].
    split; [intros [H _]; by specialize (H eq_refl)|]. intros ->. by destruct (etags_nonempty d Hd _ _ E).
  - destruct (held d !! (root +:+ key)) as [[data v]|]; [|naive_solver].
    split; [intros [_ H]; destruct (H expect eq_refl) as [? [= _ <-]]; done|].
    intros ->. split; [done|]. intros ? [= <-]. by exists data.
Qed.

(** What [put] does at one of its requests. *)
Definition put_effect (fl : bool) (key : string) (data : bytes) (expect : Version)
    (r : result (Version * N)) (m m' : objs) : Prop :=
  match r with
  | Ok (v, status) =>
      status = 200%N ∧ swap_allowed m key expect ∧ stored m key data m' v ∨
      status = 412%N ∧ ¬ swap_allowed m key expect ∧ m' = m ∨
      status = 404%N ∧ expect ≠ NoVersion ∧ m !! key = None ∧ m' = m
  | Err e => fl = true ∧ opaque_error e = true ∧
      (m' = m ∨ swap_allowed m key expect ∧ ∃ v, stored m key data m' v)
  end.

Lemma put_failed fl key data expect d d' e :
  fl = true → opaque_error e = true →
  held d' = held d ∨ swap_allowed (view d) key expect ∧
    (∃ tag, tag ≠ "" ∧ held d' = <[root +:+ key := (data, tag)]> (held d)) →
  put_effect fl key data expect (Err e) (view d) (view d').
Proof using.
  intros -> He Hd'. split_and!; [done|done|].
  destruct Hd' as [Hd'|(? & tag & ? & Hd')]; [left; by apply view_same|right].
  split; [done|]. exists tag. by apply view_insert.
Qed.

(** One attempt: it is over, with an effect, or the service reported a conflict. *)
Lemma put_attempt fl req key data expect d :
  in_order d → Method req = "PUT" → URL_Path req = root +:+ key → Body req = data →
  URL_RawQuery req = "" →
  (∀ name, name ∈ condition_headers → Header req !! name = conditional expect !! name) →
  (fl = false → call_failed (Exchange req) (handle req d).1 = false) →
  let d' := (handle req d).2 in
  match (handle req d).1 with
  | Err e => put_effect fl key data expect (Err e) (view d) (view d')
  | Ok resp =>
      if (StatusCode resp =? 200)%N
      then put_effect fl key data expect (Ok (ETag resp, StatusCode resp)) (view d) (view d')
      else if (StatusCode resp =? 412)%N || (StatusCode resp =? 404)%N
      then put_effect fl key data expect (Ok (NoVersion, StatusCode resp)) (view d) (view d')
      else (StatusCode resp = 409%N → view d' = view d) ∧
           put_effect fl key data expect (Err []) (view d) (view d')
  end.
Proof using HLaws.
  intros Hd Hm Hp Hb Hq Hh Hfl. pose proof (handle_put req d Hd Hm Hq) as Ha.
  pose proof (condition_allowed req d key expect Hd Hp Hh) as Hc.
  unfold put_spec, put_done in Ha. rewrite Hp, Hb in Ha.
  cbn in Hfl. rewrite Hm in Hfl. destruct (handle req d) as [[resp|e] d']; cbn [fst snd] in *.
  - destruct (N.eqb_spec (StatusCode resp) 200) as [E|N200].
    { destruct Ha as (Ha & Ht & Hd'). left. split_and!; [done|by apply Hc|by apply view_insert]. }
    destruct (N.eqb_spec (StatusCode resp) 412) as [E|N412]; cbn [orb].
    { destruct Ha as [Ha Hd']. right. left. split_and!; [done|by rewrite <-Hc|by apply view_same]. }
    destruct (N.eqb_spec (StatusCode resp) 404) as [E|N404].
    { destruct Ha as ([v Hv] & Hk & Hd'). right. right. split_and!; [done| |by rewrite view_lookup|by apply view_same].
      intros ->. rewrite Hh in Hv by (unfold condition_headers; set_solver). done. }
    assert (fl = true) as ->.
    { destruct fl; [done|]. specialize (Hfl eq_refl). cbn in Hfl. rewrite orb_false_r in Hfl.
      unfold expected in Hfl. cbn in Hfl.
      by rewrite (proj2 (N.eqb_neq _ _) N200), (proj2 (N.eqb_neq _ _) N404), (proj2 (N.eqb_neq _ _) N412) in Hfl. }
    destruct (N.eqb_spec (StatusCode resp) 409) as [E|N409]; (split; [|apply put_failed; [done|done|rewrite <-Hc; auto]]).
    + intros _. by apply view_same.
    + done.
  - destruct Ha as [He Ha]. apply put_failed; [by destruct fl; [|discriminate (Hfl eq_refl)]|done|by rewrite <-Hc].
Qed.

Definition versioned (m : objs) : Prop := map_Forall (λ _ dv, dv.2 ≠ NoVersion) m.

Lemma view_versioned d : in_order d → versioned (view d).
Proof using HLaws.
  intros Hd key dv Hk. rewrite view_lookup in Hk. by apply (etags_nonempty d Hd _ _ Hk).
Qed.

Lemma takes_effect_put (Q : objs → objs → Prop) (d0 d d' : Sv) tr :
  in_order d → Q (view d) (view d') → Forall idle tr →
  takes_effect (λ m m', versioned m ∧ Q m m') ((d0, d0) :: (d, d') :: tr).
Proof using HLaws. intros Hd HQ Htr. apply takes_effect_do; [|done]. split; [by apply view_versioned|done]. Qed.

Lemma versioned_allowed m key : versioned m → swap_allowed m key NoVersion ↔ m !! key = None.
Proof using.
  intros Hm. unfold swap_allowed. destruct (m !! key) as [[data v]|] eqn:E; [|done].
  split; [|done]. intros ->. by destruct (Hm _ _ E).
Qed.

Lemma put_runs fl key data expect left : ∀ tr r,
  prefix s +:+ key ≠ "" →
  runs fl (put_attempts left s key data (conditional expect)) tr r →
  takes_effect (λ m m', versioned m ∧ put_effect fl key data expect r m m') tr.
Proof using HLaws.
  induction left as [|left IH]; intros tr r Hkey H; cbn [put_attempts] in H;
    apply do_runs in H as (d0 & d & req & tr' & -> & Hd & Hm & Hp & Hb & Hq & Hh & Hfl & H); try done;
    pose proof (put_attempt fl req key data expect d Hd Hm Hp Hb Hq Hh Hfl) as Ha; cbn zeta in Ha;
    (destruct (handle req d) as [[resp|e] d'] eqn:Ed; cbn [fst snd] in *;
      [|apply runs_ret in H as [-> ->]; by apply takes_effect_put]);
    (destruct (StatusCode resp =? 200)%N; [apply runs_ret in H as [-> ->]; by apply takes_effect_put|]);
    (destruct (_ || _); [apply runs_ret in H as [-> ->]; by apply takes_effect_put|]);
    destruct Ha as [H409 Ha].
  - apply runs_ret in H as [-> ->]. by apply takes_effect_put.
  - destruct (N.eqb_spec (StatusCode resp) 409) as [E|_].
    + apply takes_effect_cons; [done|]. apply takes_effect_cons; [|by apply IH]. unfold idle. cbn [fst snd].
      by rewrite H409.
    + apply runs_ret in H as [-> ->]. by apply takes_effect_put.
Qed.

Lemma bucket_Create_effect fl key data tr r :
  prefix s +:+ key ≠ "" →
  runs fl (Create s key data) tr r → takes_effect (λ m m', op_spec fl (OCreate key data) m r m') tr.
Proof using HLaws.
  intros Hkey H. unfold Create in H. apply runs_bind in H as (tr1 & r0 & tr2 & -> & H & (-> & ->)%runs_ret).
  rewrite app_nil_r. apply (put_runs fl key data NoVersion) in H; [|done].
  eapply takes_effect_mono; [|exact H]. intros m m' [Hm He]. unfold put_effect in He.
  destruct r0 as [[v status]|e]; rewrite (versioned_allowed m key Hm) in He.
  - destruct He as [(-> & Hk & Hst)|[(-> & Hk & ->)|(_ & ? & _)]]; [by split| |done].
    split_and!; [done|by left|]. cbn. by apply not_eq_None_Some.
  - destruct He as (-> & He & Hm'). apply opaque_error_spec in He as (He & _ & HE & _). cbn [op_spec].
    rewrite HE. split_and!; [done| |done]. destruct Hm' as [->|[? ?]]; [by left|by right].
Qed.

Lemma bucket_Swap_effect fl key data expect tr r :
  prefix s +:+ key ≠ "" →
  runs fl (Swap s key data expect) tr r → takes_effect (λ m m', op_spec fl (OSwap key data expect) m r m') tr.
Proof using HLaws.
  intros Hkey H. unfold Swap in H. fold (conditional expect) in H.
  apply runs_bind in H as (tr1 & r0 & tr2 & -> & H & (-> & ->)%runs_ret).
  rewrite app_nil_r. apply put_runs in H; [|done].
  eapply takes_effect_mono; [|exact H]. intros m m' [Hm He]. unfold put_effect in He.
  destruct r0 as [[v status]|e].
  - destruct He as [(-> & Hk & Hst)|[(-> & Hk & ->)|(-> & He & Hk & ->)]]; cbn.
    + by split.
    + split; [done|]. by left.
    + split; [done|]. left. split_and!; [done| |done]. unfold swap_allowed. by rewrite Hk.
  - destruct He as (-> & (He & _)%opaque_error_spec & Hm'). cbn. split; [done|]. by right.
Qed.

Lemma bucket_method_effect fl o tr r :
  op_named o → runs fl (method s o) tr r → takes_effect (λ m m', op_spec fl o m r m') tr.
Proof using HLaws.
  destruct o; cbn [op_named method]; intros Hkey H.
  - by apply bucket_Get_effect.
  - by apply bucket_Create_effect.
  - by apply bucket_Swap_effect.
  - by apply bucket_Delete_effect.
  - done.
Qed.

(** The method of an operation that names no object sends nothing and fails. *)
Lemma method_unnamed o :
  o ≠ ONow → ¬ op_named o → ∃ r, method s o = mret r ∧ ∀ m, op_spec true o m r m.
Proof using.
  assert (∀ meth key body header, ¬ prefix s +:+ key ≠ "" →
    do s meth (prefix s +:+ key) None body header = mret (Err [])) as Hdo.
  { intros meth key body header Hkey%dec_stable. unfold do. by rewrite Hkey. }
  assert (∀ key data header, ¬ prefix s +:+ key ≠ "" → put s key data header = mret (Err [])) as Hput.
  { intros key data header Hkey. unfold put. cbn [conflictAttempts Nat.sub put_attempts]. by rewrite Hdo. }
  destruct o as [key|key data|key data expect|key|]; cbn [op_named method]; intros Hne Hkey; [..|done].
  - exists (Err []). unfold Get. rewrite Hdo by done. split; [done|]. intros m. by repeat split; auto.
  - exists (Err []). unfold Create. rewrite Hput by done. split; [done|]. intros m. by repeat split; auto.
  - exists (Err []). unfold Swap. rewrite Hput by done. split; [done|]. intros m. by repeat split; auto.
  - exists (Err []). unfold Delete. rewrite Hdo by done. split; [done|]. intros m. by repeat split; auto.
Qed.
End Runs.

Lemma handle_sane {Sv} `{!Service Sv, !ServiceLaws Sv} c (d : Sv) : in_order d → in_order (call_exec c d).2.
Proof. destruct c; [apply handle_in_order|done]. Qed.

(** Run alone, a method keeps the contract, one that names no object included. *)
Lemma bucket_alone_keeps_contract {Sv} `{!Service Sv, !ServiceLaws Sv} s o (d : Sv) :
  in_order d → o ≠ ONow →
  let '(r, d') := run_alone (HSv := bucket_server s) (method s o) d in
  in_order d' ∧ op_spec true o (view (Server := bucket_server s) d) r (view (Server := bucket_server s) d').
Proof.
  intros Hd Hne. destruct (run_alone _ d) as [r d'] eqn:E. split.
  { change d' with (r, d').2. rewrite <-E. by apply (run_alone_sane (HSv := bucket_server s) handle_sane). }
  destruct (decide (op_named s o)) as [Ho|Ho].
  - pose proof (alone_takes_effect (HSv := bucket_server s) handle_sane (method s o)
      (λ r m m', op_spec true o m r m') d Hd) as H.
    rewrite E in H. apply H. intros tr r0. by apply bucket_method_effect.
  - destruct (method_unnamed s o Hne Ho) as (r0 & Hm & Hr). rewrite Hm in E. injection E as <- <-. apply Hr.
Qed.

(** * Properties *)

(** C17 The object-store backend is linearizable: however other clients change the
    bucket between the requests a method sends, and however often the service
    answers a conditional PUT with a conflict, the method changes the objects,
    and answers, as the store's contract says at the instant of one of its
    requests, and none of its other requests changes an object; and where no
    request fails, the contract without failures. The key must not be empty under
    the store's prefix. *)
Theorem bucket_linearizable {Sv} `{!Service Sv, !ServiceLaws Sv} s fl o (tr : list (Sv * Sv)) r :
  op_named s o →
  runs (HSv := bucket_server s) fl (method s o) tr r →
  takes_effect (HSv := bucket_server s) (λ m m', op_spec fl o m r m') tr.
Proof. apply bucket_method_effect. Qed.

(** ** A service *)

(** Objects, their ETags made from the contents, and whether the requests still
    to come meet a conflict. *)
Record demo := mkDemo { d_held : held_objects; d_busy : list bool }.

Definition demo_etag (data : bytes) : string := "etag " +:+ data.

Definition demo_condition (req : Request) (m : held_objects) : bool :=
  match Header req !! "If-None-Match" with
  | Some ["*"] => bool_decide (m !! URL_Path req = None)
  | _ => true
  end &&
  match Header req !! "If-Match" with
  | Some [v] => match m !! URL_Path req with Some (_, v') => String.eqb v' v | None => false end
  | _ => true
  end.

Definition demo_answer (status : N) (data : bytes) (etag : string) : result Response :=
  Ok (mkResponse status etag (Ok data) (Err [])).

(** An If-Match of an object that is not there. *)
Definition demo_missing (req : Request) (m : held_objects) : bool :=
  match Header req !! "If-Match" with Some [_] => bool_decide (m !! URL_Path req = None) | _ => false end.

Definition demo_handle (req : Request) (m : held_objects) : result Response * held_objects :=
  if String.eqb (Method req) "GET" then
    match m !! URL_Path req with
    | Some (data, v) => (demo_answer 200 data v, m)
    | None => (demo_answer 404 "" "", m)
    end
  else if String.eqb (Method req) "PUT" then
    if demo_condition req m then
      (demo_answer 200 "" (demo_etag (Body req)), <[URL_Path req := (Body req, demo_etag (Body req))]> m)
    else (demo_answer (if demo_missing req m then 404 else 412) "" "", m)
  else (demo_answer 204 "" "", delete (URL_Path req) m).

#[export] Instance demo_service : Service demo := {
  handle req d :=
    match d_busy d with
    | true :: rest => (demo_answer 409 "" "", mkDemo (d_held d) rest)
    | _ => let '(r, m) := demo_handle req (d_held d) in (r, mkDemo m (tail (d_busy d)))
    end;
  clock _ := 0%Z;
  held := d_held;
  in_order d := map_Forall (λ _ dv, dv.2 ≠ "") (d_held d);
}.

Lemma demo_condition_spec req m : demo_condition req m = true ↔ condition req m.
Proof.
  unfold demo_condition, condition. rewrite andb_true_iff. f_equiv.
  - destruct (Header req !! "If-None-Match") as [l|]; [|naive_solver].
    destruct (decide (l = ["*"])) as [->|Hne].
    + rewrite bool_decide_eq_true. naive_solver.
    + split; [intros _ [= ->]; done|intros _].
      repeat case_match; subst; try done; by destruct Hne.
  - destruct (Header req !! "If-Match") as [l|]; [|naive_solver].
    destruct l as [|v [|]]; [naive_solver| |naive_solver].
    destruct (m !! URL_Path req) as [[data v']|].
    + rewrite String.eqb_eq. split; [intros -> ? [= <-]; by exists data|].
      intros H. by destruct (H v eq_refl) as [? [= _ ->]].
    + split; [done|]. intros H. by destruct (H v eq_refl).
Qed.

Lemma demo_missing_spec req m :
  demo_missing req m = true → (∃ v, Header req !! "If-Match" = Some [v]) ∧ m !! URL_Path req = None.
Proof.
  unfold demo_missing. destruct (Header req !! "If-Match") as [[|v [|]]|]; try done.
  intros H%bool_decide_eq_true. split; [by exists v|done].
Qed.

#[export] Program Instance demo_laws : ServiceLaws demo.
Next Obligation. done. Qed.
Next Obligation.
  intros req d Hd. cbn. destruct (d_busy d) as [|[] rest]; [|done|];
    unfold demo_handle; repeat case_match; cbn in *; simplify_eq; cbn; try done;
    by apply map_Forall_insert_2 || by apply map_Forall_delete.
Qed.
Next Obligation.
  intros req d Hd Hm _. cbn. unfold demo_handle. rewrite Hm. cbn.
  destruct (d_busy d) as [|[] rest]; [|done|];
    destruct (d_held d !! URL_Path req) as [[data v]|] eqn:E; cbn; by rewrite ?E.
Qed.
Next Obligation.
  intros req d Hd Hm _. cbn. unfold demo_handle. rewrite Hm. cbn.
  destruct (d_busy d) as [|[] rest]; [|done|];
    (destruct (demo_condition req (d_held d)) eqn:E; cbn;
      [split; [by rewrite <-demo_condition_spec, E|done]|]);
    (destruct (demo_missing req (d_held d)) eqn:Em; cbn;
      [by destruct (demo_missing_spec _ _ Em)|by rewrite <-demo_condition_spec, E]).
Qed.
Next Obligation.
  intros req d Hd Hm _. cbn. unfold demo_handle. rewrite Hm. cbn.
  destruct (d_busy d) as [|[] rest]; cbn; [done|by left|done].
Qed.

Definition demo_store : Store :=
  mkStore (mkURL "http" "localhost:9000" "/media/") "live/" (mkSigner "r" "k" "secret" "") "s3://media/live".

Definition demo_bucket (data : bytes) (busy : list bool) : demo :=
  mkDemo {["/media/live/head" := (data, demo_etag data)]} busy.

(** A [Swap] that meets a conflict, and whose object another client changes
    before the second attempt. *)
Definition swap_raced : list (demo * demo) :=
  let d0 := demo_bucket "a" [true] in
  let d1 := demo_bucket "a" [] in
  let d2 := demo_bucket "b" [] in
  [(d0, d0); (d0, d1); (d2, d2); (d2, d2)].

Lemma demo_in_order data busy : in_order (demo_bucket data busy).
Proof. by apply map_Forall_singleton. Qed.

Lemma bucket_linearizable_witness :
  takes_effect (HSv := bucket_server demo_store)
    (λ m m', op_spec true (OSwap "head" "c" "etag a") m (Err [ErrVersionMismatch]) m') swap_raced.
Proof.
  apply (bucket_linearizable demo_store true (OSwap "head" "c" "etag a") swap_raced (Err [ErrVersionMismatch])).
  - vm_compute. discriminate.
  - do 4 (refine (conj (demo_in_order _ _) (conj _ (conj (λ H : true = false, ltac:(discriminate H)) _)));
      [vm_compute; reflexivity|]).
    vm_compute. reflexivity.
Defined.
