(* ===== verification/Conformance.v ===== *)
(** * The conformance suite of backends (ledger/store/storetest/storetest.go)

    Each subtest is a program over a fresh backend that checks what a method answers:
    [require] ends the subtest where it fails, [assert] notes the failure and goes on.
    Contents are values, so a caller's copy is its own; [Get_ReturnsIndependentCopy]
    can only fail of a backend that answers something else the second time.

    [Conforming] is the contract of store.go without failures, as exact as the suite
    asks for it: a backend that keeps it passes ([Run_passes]), and so does the
    in-memory one, which keeps it. The others are run. *)

From S2P Require Import Prelude GoStd Store MemStore Remote.
From S2P Require Import Paths FsStore DbStore DbProps Sha256 Dates Sign BucketStore BucketProps.
#[local] Open Scope string_scope.
#[local] Open Scope list_scope.

Module storetest.

(** [store.Lister] *)
Class Lister (St : Type) := List : option error → St → string → list (result string).

(** ** Subtests *)

(** A subtest so far: its value, unless a [require] failed; whether every check so far
    held; the backend. *)
Definition test (St A : Type) : Type := St → option A * bool * St.

#[export] Instance test_ret {St} : MRet (test St) := λ A a s, (Some a, true, s).
#[export] Instance test_bind {St} : MBind (test St) := λ A B f t s,
  match t s with
  | (Some a, ok, s') => let '(b, ok', s'') := f a s' in (b, ok && ok', s'')
  | (None, ok, s') => (None, ok, s')
  end.

Section Suite.
Context {St : Type} `{!Store St}.

(** A method call, under [t.Context()] or a canceled context. *)
Definition call (o : op) : test St (resp o) := λ s, let '(r, s') := do_op None 0 o s in (Some r, true, s').
Definition call_canceled (o : op) : test St (resp o) := λ s,
  let '(r, s') := do_op (Some [Canceled]) 0 o s in (Some r, true, s').

Definition assert_that (b : bool) : test St unit := λ s, (Some tt, b, s).
(** [require.NoError] on a call's answer *)
Definition NoError {A} (r : result A) : test St A := λ s,
  match r with Ok a => (Some a, true, s) | Err _ => (None, false, s) end.

Definition ErrorIs {A} (r : result A) (target : sentinel) : test St unit :=
  assert_that match r with Ok _ => false | Err e => errors_Is e target end.
Definition IsError {A} (r : result A) : test St unit :=
  assert_that match r with Ok _ => false | Err _ => true end.
Definition Equal (a b : string) : test St unit := assert_that (String.eqb a b).
Definition NotEqual (a b : string) : test St unit := assert_that (negb (String.eqb a b)).

Definition passes (t : test St unit) (backend : St) : bool := (t backend).1.2.

(** ** [Run] *)

Definition Get_Missing : test St unit :=
  r ← call (OGet "absent");
  ErrorIs r ErrNotExist.

Definition Create_ThenGet : test St unit :=
  let payload := "frames" in
  r ← call (OCreate "live/cam1/groups/e000001-g00000001" payload);
  version ← NoError (A := Version) r;
  r ← call (OGet "live/cam1/groups/e000001-g00000001");
  got ← NoError (A := bytes * Version) r;
  Equal payload got.1;;
  Equal version got.2.

Definition Create_Empty : test St unit :=
  r ← call (OCreate "empty" "");
  NoError (A := Version) r;;
  r ← call (OGet "empty");
  got ← NoError (A := bytes * Version) r;
  Equal "" got.1.

Definition Create_Existing : test St unit :=
  r ← call (OCreate "key" "first");
  NoError (A := Version) r;;
  r ← call (OCreate "key" "second");
  ErrorIs (A := Version) r ErrExist;;
  r ← call (OGet "key");
  got ← NoError (A := bytes * Version) r;
  Equal "first" got.1.

Definition Swap_MatchingVersion : test St unit :=
  r ← call (OCreate "head" "v1");
  version ← NoError (A := Version) r;
  r ← call (OSwap "head" "v2" version);
  next ← NoError (A := Version) r;
  NotEqual version next;;
  r ← call (OGet "head");
  got ← NoError (A := bytes * Version) r;
  Equal "v2" got.1.

Definition Swap_StaleVersion : test St unit :=
  r ← call (OCreate "head" "v1");
  stale ← NoError (A := Version) r;
  r ← call (OSwap "head" "v2" stale);
  NoError (A := Version) r;;
  r ← call (OSwap "head" "v3" stale);
  ErrorIs (A := Version) r ErrVersionMismatch;;
  r ← call (OGet "head");
  got ← NoError (A := bytes * Version) r;
  Equal "v2" got.1.

Definition Swap_AbsentWithNoVersion : test St unit :=
  r ← call (OSwap "head" "v1" NoVersion);
  NoError (A := Version) r;;
  r ← call (OGet "head");
  got ← NoError (A := bytes * Version) r;
  Equal "v1" got.1.

Definition Swap_AbsentWithVersion : test St unit :=
  r ← call (OSwap "head" "v1" "bogus");
  ErrorIs (A := Version) r ErrNotExist.

Definition Delete_ : test St unit :=
  r ← call (OCreate "key" "data");
  NoError (A := Version) r;;
  r ← call (ODelete "key");
  NoError (A := unit) r;;
  r ← call (OGet "key");
  ErrorIs (A := bytes * Version) r ErrNotExist.

Definition Delete_Absent : test St unit :=
  r ← call (ODelete "never-existed");
  assert_that match r with Ok _ => true | Err _ => false end.

Definition Create_AfterDelete : test St unit :=
  r ← call (OCreate "key" "first");
  NoError (A := Version) r;;
  r ← call (ODelete "key");
  NoError (A := unit) r;;
  r ← call (OCreate "key" "second");
  assert_that match r with Ok _ => true | Err _ => false end.

(** [data[0] = 'X'] on the copy answered, which nothing else reads *)
Definition set_first (data : bytes) : bytes := match data with String _ rest => String "X" rest | "" => "" end.

Definition Get_ReturnsIndependentCopy : test St unit :=
  r ← call (OCreate "key" "original");
  NoError (A := Version) r;;
  r ← call (OGet "key");
  got ← NoError (A := bytes * Version) r;
  let _ := set_first got.1 in
  r ← call (OGet "key");
  again ← NoError (A := bytes * Version) r;
  Equal "original" again.1.

Definition ContextCancelled : test St unit :=
  r ← call_canceled (OGet "key");
  IsError (A := bytes * Version) r;;
  r ← call_canceled (OCreate "key" "x");
  IsError (A := Version) r.

(** The subtests of [Run], each on a store of its own. *)
Definition Run : list (test St unit) :=
  [Get_Missing; Create_ThenGet; Create_Empty; Create_Existing; Swap_MatchingVersion; Swap_StaleVersion;
   Swap_AbsentWithNoVersion; Swap_AbsentWithVersion; Delete_; Delete_Absent; Create_AfterDelete;
   Get_ReturnsIndependentCopy; ContextCancelled].

(** ** [RunLister] *)

Context `{!Lister St}.

Fixpoint create_all (keys : list string) : test St unit :=
  match keys with
  | [] => mret tt
  | key :: keys' => r ← call (OCreate key "x"); NoError (A := Version) r;; create_all keys'
  end.

(** [for key, err := range backend.List(ctx, prefix) { require.NoError(t, err); ... }] *)
Fixpoint collect_keys (l : list (result string)) : test St (list string) :=
  match l with
  | [] => mret []
  | r :: l' => key ← NoError r; found ← collect_keys l'; mret (key :: found)
  end.

Definition found_under (prefix : string) : test St (list string) := λ s, collect_keys (List None s prefix) s.

(** [assert.ElementsMatch] *)
Definition ElementsMatch (a b : list string) : test St unit :=
  assert_that (Nat.eqb (length a) (length b) &&
    forallb (λ x, Nat.eqb (count_occ String.string_dec a x) (count_occ String.string_dec b x)) a).

Definition Keys_ByPrefix : test St unit :=
  create_all ["live/cam1/groups/a"; "live/cam1/groups/b"; "live/cam1/root.manifest"; "live/cam2/groups/a"];;
  found ← found_under "live/cam1/groups/";
  ElementsMatch ["live/cam1/groups/a"; "live/cam1/groups/b"] found.

Definition Keys_NoMatches : test St unit :=
  create_all ["live/cam1/root.manifest"];;
  found ← found_under "no/such/prefix/";
  assert_that match found with [] => true | _ :: _ => false end.

Definition RunLister : list (test St unit) := [Keys_ByPrefix; Keys_NoMatches].

End Suite.
End storetest.
Import storetest.

(** ** The exact contract *)

Definition refused {A} (r : result A) (s : sentinel) : Prop :=
  ∃ e, r = Err e ∧ backend_error e = true ∧ errors_Is e s = true.

(** What a call answers and does when nothing fails. *)
Definition exact (o : op) (m : objs) : resp o → objs → Prop :=
  match o with
  | OGet k => λ r m', m' = m ∧
      match m !! k with
      | Some dv => r = Ok dv
      | None => refused r ErrNotExist
      end
  | OCreate k d => λ r m',
      match m !! k with
      | Some _ => m' = m ∧ refused r ErrExist
      | None => ∃ v, r = Ok v ∧ stored m k d m' v
      end
  | OSwap k d expect => λ r m',
      match m !! k with
      | Some (_, v) =>
          if String.eqb v expect then ∃ v', r = Ok v' ∧ v' ≠ v ∧ stored m k d m' v'
          else m' = m ∧ refused r ErrVersionMismatch
      | None =>
          if String.eqb expect NoVersion then ∃ v', r = Ok v' ∧ stored m k d m' v'
          else m' = m ∧ refused r ErrNotExist
      end
  | ODelete k => λ r m', r = Ok tt ∧ m' = delete k m
  | ONow => λ _ m', m' = m
  end.

(** It is the contract of [Store], and more. *)
Lemma exact_contract o m r m' : o ≠ ONow → exact o m r m' → op_spec false o m r m'.
Proof.
  unfold exact, op_spec, swap_allowed, refused. intros Ho.
  destruct o as [k|k d|k d expect|k|]; [| | | |done].
  - intros [-> H]. split; [done|]. destruct (m !! k) as [dv|]; [by subst r|].
    destruct H as (e & -> & Hb & Hi). by rewrite Hi.
  - destruct (m !! k) as [[d0 v0]|] eqn:E.
    + intros (-> & e & -> & Hb & Hi). split_and!; [done|by left|]. rewrite Hi. eauto.
    + by intros (v & -> & Hst).
  - destruct (m !! k) as [[d0 v0]|].
    + destruct (String.eqb_spec v0 expect) as [->|Hne]; [by intros (v & -> & _ & Hst)|].
      intros (-> & e & -> & Hb & Hi). split; [done|]. left. by rewrite Hi.
    + destruct (String.eqb_spec expect NoVersion) as [->|Hne]; [by intros (v & -> & Hst)|].
      intros (-> & e & -> & Hb & Hi). split; [done|]. left. by rewrite Hi, orb_true_r.
  - by intros [-> ->].
Qed.

(** A backend that answers so for as many calls as it is good for, and nothing to a
    canceled context. *)
Class Conforming (St : Type) `{!Store St} := {
  held : St → objs;
  good_for : nat → St → Prop;
  call_exact n o s : good_for (S n) s →
    good_for n (do_op None 0 o s).2 ∧ exact o (held s) (do_op None 0 o s).1 (held (do_op None 0 o s).2);
  call_refused n o s e : good_for n s →
    (do_op (Some e) 0 o s).2 = s ∧
    match o return resp o → Prop with
    | ONow => λ _, True | OGet _ | OCreate _ _ | OSwap _ _ _ | ODelete _ => λ r, r = Err e
    end (do_op (Some e) 0 o s).1;
}.

(** One that lists the keys it holds, each once. *)
Class ConformingLister (St : Type) `{Conforming St, !Lister St} := {
  list_exact n s prefix : good_for n s →
    ∃ keys, List None s prefix = Ok <$> keys ∧
      keys ≡ₚ filter (λ k, HasPrefix k prefix = true) (map_to_list (held s)).*1;
}.

(** ** Passing *)

Section Passing.
Context {St : Type} `{Conforming St}.

(** No check fails, and every [require] is passed. *)
Definition checks {A} (t : test St A) (s : St) (Q : A → St → Prop) : Prop :=
  match t s with (Some a, ok, s') => ok = true ∧ Q a s' | (None, _, _) => False end.

Lemma checks_ret {A} (a : A) s (Q : A → St → Prop) : Q a s → checks (mret a) s Q.
Proof using. by split. Qed.

Lemma checks_bind {A B} (t : test St A) (f : A → test St B) s Q :
  checks t s (λ a s', checks (f a) s' Q) → checks (t ≫= f) s Q.
Proof using.
  unfold checks, mbind, test_bind. destruct (t s) as [[[a|] ok] s']; [|done]. intros [-> Hf].
  destruct (f a s') as [[[b|] ok'] s'']; [|done]. by destruct Hf as [-> ?].
Qed.

Lemma checks_call n o s (Q : resp o → St → Prop) :
  good_for (S n) s →
  (∀ r s', good_for n s' → exact o (held s) r (held s') → Q r s') → checks (call o) s Q.
Proof using.
  intros Hs HQ. destruct (call_exact n o s Hs) as [Hg Hex]. unfold checks, call.
  destruct (do_op None 0 o s) as [r s']. split; [done|]. by apply HQ.
Qed.

Lemma checks_assert b s (Q : unit → St → Prop) : b = true → Q tt s → checks (assert_that b) s Q.
Proof using. by intros ->. Qed.

Lemma checks_NoError {A} (a : A) s (Q : A → St → Prop) : Q a s → checks (NoError (Ok a)) s Q.
Proof using. by split. Qed.

Lemma checks_passes (t : test St unit) s : checks t s (λ _ _, True) → passes t s = true.
Proof using. unfold checks, passes. by destruct (t s) as [[[[]|] ok] s']; [intros [-> _]|]. Qed.

End Passing.

(** One call, on the objects known so far. *)
Ltac call_step :=
  apply checks_bind;
  match goal with |- checks (call ?o) ?s ?Q => refine (checks_call _ o s Q _ _); [eassumption|] end;
  intros ? ? ? Hcall;
  match goal with Hm : held _ = _ |- _ => rewrite Hm in Hcall; clear Hm end;
  cbn [exact] in Hcall; unfold stored, refused in Hcall;
  repeat (rewrite lookup_insert_eq in Hcall || (rewrite lookup_insert_ne in Hcall by done));
  rewrite ?lookup_delete_eq, ?lookup_empty in Hcall; cbn [String.eqb NoVersion] in Hcall;
  rewrite ?String.eqb_refl in Hcall;
  try match type of Hcall with context [String.eqb ?a ?b] =>
    rewrite (proj2 (String.eqb_neq a b)) in Hcall by assumption end;
  repeat match goal with H : _ ∧ _ |- _ => destruct H | H : ∃ _, _ |- _ => destruct H end;
  try match goal with r : result _ |- _ => subst r end; subst.

Ltac suite_step :=
  cbn [fst snd];
  match goal with
  | |- checks (call _ ≫= _) _ _ => call_step
  | |- checks (NoError _ ≫= _) _ _ => apply checks_bind, checks_NoError
  | |- checks (assert_that _ ≫= _) _ _ => apply checks_bind, checks_assert
  | |- checks (mret _) _ _ => apply checks_ret
  | |- checks (assert_that _) _ _ => apply checks_assert
  | |- String.eqb ?a ?a = true => apply String.eqb_refl
  | |- negb _ = true => apply negb_true_iff, String.eqb_neq; congruence
  | |- _ => done
  end.

Ltac subtest := intros; apply checks_passes; unfold ErrorIs, IsError, Equal, NotEqual; repeat suite_step.

Section Passing.
Context {St : Type} `{Conforming St}.

Context (s : St) (Hs : good_for 4 s) (Hm : held s = ∅).

Lemma Get_Missing_passes : passes Get_Missing s = true.
Proof using Hs Hm. unfold Get_Missing. subtest. Qed.

Lemma Create_ThenGet_passes : passes Create_ThenGet s = true.
Proof using Hs Hm. unfold Create_ThenGet. subtest. Qed.

Lemma Create_Empty_passes : passes Create_Empty s = true.
Proof using Hs Hm. unfold Create_Empty. subtest. Qed.

Lemma Create_Existing_passes : passes Create_Existing s = true.
Proof using Hs Hm. unfold Create_Existing. subtest. Qed.

Lemma Swap_MatchingVersion_passes : passes Swap_MatchingVersion s = true.
Proof using Hs Hm. unfold Swap_MatchingVersion. subtest. Qed.

Lemma Swap_StaleVersion_passes : passes Swap_StaleVersion s = true.
Proof using Hs Hm. unfold Swap_StaleVersion. subtest. Qed.

Lemma Swap_AbsentWithNoVersion_passes : passes Swap_AbsentWithNoVersion s = true.
Proof using Hs Hm. unfold Swap_AbsentWithNoVersion. subtest. Qed.

Lemma Swap_AbsentWithVersion_passes : passes Swap_AbsentWithVersion s = true.
Proof using Hs Hm. unfold Swap_AbsentWithVersion. subtest. Qed.

Lemma Delete_passes : passes Delete_ s = true.
Proof using Hs Hm. unfold Delete_. subtest. Qed.

Lemma Delete_Absent_passes : passes Delete_Absent s = true.
Proof using Hs Hm. unfold Delete_Absent. subtest. Qed.

Lemma Create_AfterDelete_passes : passes Create_AfterDelete s = true.
Proof using Hs Hm. unfold Create_AfterDelete. subtest. Qed.

Lemma Get_ReturnsIndependentCopy_passes : passes Get_ReturnsIndependentCopy s = true.
Proof using Hs Hm. unfold Get_ReturnsIndependentCopy. subtest. Qed.

Lemma ContextCancelled_passes : passes ContextCancelled s = true.
Proof using Hs.
  unfold passes, ContextCancelled, call_canceled, mbind, test_bind.
  destruct (call_refused 4 (OGet "key") s [Canceled] Hs) as [E1 R1].
  destruct (do_op (Some [Canceled]) 0 (OGet "key") s) as [r1 s1]. cbn in E1, R1. subst r1 s1.
  destruct (call_refused 4 (OCreate "key" "x") s [Canceled] Hs) as [E2 R2]. cbn [IsError assert_that].
  destruct (do_op (Some [Canceled]) 0 (OCreate "key" "x") s) as [r2 s2]. cbn in E2, R2. by subst r2 s2.
Qed.
End Passing.

Section Listing.
Context {St : Type} `{!Store St, !Conforming St, !Lister St, HL : !ConformingLister St} (s : St) (Hs : good_for 4 s) (Hm : held s = ∅).

Lemma checks_collect (keys : list string) (s' : St) (Q : list string → St → Prop) :
  Q keys s' → checks (collect_keys (Ok <$> keys)) s' Q.
Proof using.
  revert Q. induction keys as [|k keys IH]; intros Q HQ; [by apply checks_ret|].
  cbn [fmap list_fmap collect_keys]. apply checks_bind, checks_NoError, checks_bind, IH. by apply checks_ret.
Qed.

Lemma checks_found n (s' : St) prefix (Q : list string → St → Prop) :
  good_for n s' →
  (∀ keys, keys ≡ₚ filter (λ k, HasPrefix k prefix = true) (map_to_list (held s')).*1 → Q keys s') →
  checks (found_under prefix) s' Q.
Proof using HL.
  intros Hg HQ. destruct (list_exact n s' prefix Hg) as (keys & Hl & Hp). unfold checks, found_under.
  rewrite Hl. apply checks_collect. by apply HQ.
Qed.

Lemma elements_match a b : a ≡ₚ b → 
  Nat.eqb (length a) (length b) &&
    forallb (λ x, Nat.eqb (count_occ String.string_dec a x) (count_occ String.string_dec b x)) a = true.
Proof using.
  intros Hp. rewrite (Permutation_length Hp), Nat.eqb_refl. apply forallb_forall. intros x _. apply Nat.eqb_eq.
  by apply Permutation_count_occ.
Qed.

Lemma Keys_ByPrefix_passes : passes Keys_ByPrefix s = true.
Proof using Hs Hm HL.
  apply checks_passes. unfold Keys_ByPrefix. cbn [create_all]. apply checks_bind. repeat suite_step.
  match goal with Hg : good_for _ ?s1 |- checks _ ?s1 _ => apply checks_bind; eapply checks_found; [exact Hg|] end.
  intros keys Hkeys. match goal with Hh : held _ = _ |- _ => rewrite Hh in Hkeys end.
  apply checks_assert, I. apply elements_match. rewrite Hkeys. by vm_compute.
Qed.

Lemma Keys_NoMatches_passes : passes Keys_NoMatches s = true.
Proof using Hs Hm HL.
  apply checks_passes. unfold Keys_NoMatches. cbn [create_all]. apply checks_bind. repeat suite_step.
  match goal with Hg : good_for _ ?s1 |- checks _ ?s1 _ => apply checks_bind; eapply checks_found; [exact Hg|] end.
  intros keys Hkeys. match goal with Hh : held _ = _ |- _ => rewrite Hh in Hkeys end.
  apply checks_assert, I. vm_compute in Hkeys. by apply Permutation_nil_r in Hkeys as ->.
Qed.
End Listing.

(** ** The memory backend *)

(** Every version stored was issued by the counter, which has [n] more to issue. *)
Definition mem_issued (n : nat) (s : mem.Store) : Prop :=
  (mem.nextVersion s + N.of_nat n < two64)%N ∧
  ∀ k d v, mem.objects s !! k = Some (d, v) → ∃ j, (j <= mem.nextVersion s)%N ∧ v = FormatUint j.

#[export] Instance mem_lister : Lister mem.Store := mem.List.

Lemma mem_issued_less n s : mem_issued (S n) s → mem_issued n s.
Proof. intros [? ?]. split; [lia|done]. Qed.

(** A version just issued is one no object has. *)
Lemma mem_store_fresh n s k d :
  mem_issued (S n) s →
  let r := mem.storeLocked s k d in
  mem_issued n r.2 ∧ stored (mem.objects s) k d (mem.objects r.2) r.1 ∧
  ∀ k' d' v, mem.objects s !! k' = Some (d', v) → r.1 ≠ v.
Proof.
  intros [Hn Hv]. cbn. rewrite u64_small by (unfold is_u64; lia). split_and!.
  - split; [cbn; lia|]. cbn. intros k' d' v'. rewrite lookup_insert_Some. intros [[_ [= <- <-]]|[_ Hk]].
    + eexists. split; [|done]. lia.
    + destruct (Hv _ _ _ Hk) as (j & ? & ->). exists j. split; [lia|done].
  - split; [apply FormatUint_nonempty|done].
  - intros k' d' v Hk E. destruct (Hv _ _ _ Hk) as (j & Hj & ->).
    pose proof (FormatUint_parse (mem.nextVersion s + 1) ltac:(unfold is_u64; lia)) as Hp.
    change (FormatUint (mem.nextVersion s + 1) = FormatUint j) in E.
    rewrite E, FormatUint_parse in Hp by (unfold is_u64; lia). injection Hp. lia.
Qed.

#[export] Program Instance mem_conforming : Conforming mem.Store := {
  held := mem.objects;
  good_for := mem_issued;
}.
Next Obligation.
  intros n o s Hs. pose proof (mem_issued_less n s Hs) as Hs'.
  destruct o as [k|k d|k d expect|k|]; cbn [do_op Get Create Swap Delete mem_store exact].
  - split; [done|]. split; [done|]. unfold mem.Get. destruct (_ !! k) as [[d v]|]; [done|]. by exists [ErrNotExist].
  - unfold mem.Create. pose proof (mem_store_fresh n s k d Hs) as (Hg & Hst & _).
    destruct (mem.storeLocked s k d) as [v s'].
    destruct (mem.objects s !! k) as [[d0 v0]|]; cbn [fst snd] in *; (split; [done|]); [|by exists v].
    split; [done|]. by exists [ErrExist].
  - unfold mem.Swap. pose proof (mem_store_fresh n s k d Hs) as (Hg & Hst & Hfresh).
    destruct (mem.storeLocked s k d) as [v s']. destruct (mem.objects s !! k) as [[d0 v0]|] eqn:E; cbn [fst snd] in *.
    + destruct (String.eqb v0 expect); cbn [fst snd negb]; (split; [done|]).
      * exists v. split_and!; [done| |done]. by eapply Hfresh.
      * split; [done|]. by exists [ErrVersionMismatch].
    + destruct (String.eqb expect NoVersion); cbn [fst snd negb]; (split; [done|]); [by exists v|].
      split; [done|]. by exists [ErrNotExist].
  - split; [|done]. split; [apply Hs'|]. cbn. intros k' d' v. rewrite lookup_delete_Some. intros [_ Hk].
    by eapply (proj2 Hs).
  - done.
Qed.
Next Obligation. intros n o s e _. by destruct o. Qed.

#[export] Program Instance mem_conforming_lister : ConformingLister mem.Store.
Next Obligation.
  intros n s prefix _. exists (filter (λ key, HasPrefix key prefix = true) (mem.sorted_keys s)). split.
  - cbn. unfold List, mem_lister, mem.List. by destruct (mem.sorted_keys s).
  - cbn. by rewrite sorted_keys_perm.
Qed.

(** ** The other backends, run *)

#[local] Instance fs_lister : Lister fs.Store := fs.List.

(** A server's only client; a canceled context reaches no server. *)
Section Client.
Context {Op : Type} {Ans : Op → Type} {Sv : Type} `{!Server Ans Sv} (method : ∀ o : op, remote Ans (resp o)).

Definition calling {A} (ctx : option error) (d : Sv) (p : remote Ans (result A)) : result A * Sv :=
  match ctx with Some e => (Err e, d) | None => run_alone p d end.

Definition client : Store Sv := {|
  Get ctx d key := calling ctx d (method (OGet key));
  Create ctx d key data := calling ctx d (method (OCreate key data));
  Swap ctx d key data expect := calling ctx d (method (OSwap key data expect));
  Delete ctx d key := calling ctx d (method (ODelete key));
|}.
End Client.

#[local] Instance db_client : Store DbProps.demo := client db.method.
#[local] Instance db_lister : Lister DbProps.demo := λ ctx d prefix,
  match ctx with Some e => [Err e] | None => (run_alone (db.List prefix) d).1 end.
#[local] Instance bucket_client : Store BucketProps.demo :=
  client (Server0 := bucket_server demo_store) (bucket.method demo_store).

Definition fs_fresh : fs.Store := fs.mkStore ∅ ∅ [] ["1"; "2"; "3"].

Example fs_passes : forallb (λ t, passes t fs_fresh) (Run ++ RunLister) = true.
Proof. vm_compute. reflexivity. Qed.

Example db_passes : forallb (λ t, passes t (DbProps.mkDemo ∅ [])) (Run ++ RunLister) = true.
Proof. vm_compute. reflexivity. Qed.

Example bucket_passes : forallb (λ t, passes t (BucketProps.mkDemo ∅ [])) Run = true.
Proof. vm_compute. reflexivity. Qed.

(** ** What the suite catches *)

(** The memory backend with one method wrong. *)
Definition overwrites : Store mem.Store := {|
  Get := Get; Swap := Swap; Delete := Delete;
  Create ctx s key data :=
    match ctx with
    | Some e => (Err e, s)
    | None => let '(version, s') := mem.storeLocked s key data in (Ok version, s')
    end;
|}.

Definition ignores_version : Store mem.Store := {|
  Get := Get; Create := Create; Delete := Delete;
  Swap ctx s key data expect :=
    match Get ctx s key with
    | (Ok (_, version), s') => Swap ctx s' key data version
    | (Err _, s') => Swap ctx s' key data expect
    end;
|}.

Definition keeps_version : Store mem.Store := {|
  Get := Get; Create := Create; Delete := Delete;
  Swap ctx s key data expect :=
    match Swap ctx s key data expect with
    | (Ok v, s') => (Ok (if String.eqb expect NoVersion then v else expect), s')
    | refused => refused
    end;
|}.

Definition ignores_context : Store mem.Store := {|
  Get _ := Get None; Create _ := Create None; Swap _ := Swap None; Delete _ := Delete None;
|}.

(** The subtests that fail of a backend, by their place in [Run]. *)
Definition failing (backend : Store mem.Store) : list nat :=
  omap (λ it, if passes it.2 mem.New then None else Some it.1) (imap pair (Run (Store0 := backend))).

Example defects_caught :
  map failing [mem_store; overwrites; ignores_version; keeps_version; ignores_context] =
  [[]; [3]; [5]; [4]; [12]].
Proof. vm_compute. reflexivity. Qed.

(** * Properties *)


