(* ===== verification/Open.v ===== *)
(** * Opening stores (ledger/store/open.go and the backends' open.go)

    The registry of URI schemes, and what each backend makes of a URI. [url.Parse],
    [URL.String] and [URL.Redacted] are parameters. *)

From stdpp Require Import sorting.
From S2P Require Import Prelude GoStd Store MemStore Sha256 Dates Sign Remote DbStore BucketStore.
#[local] Open Scope string_scope.
#[local] Open Scope list_scope.

Module open.

(** What the code reads of a [url.URL]; [User] is [None] when it is nil. *)
Record URL := mkURL {
  Scheme : string;
  Opaque : string;
  User : option string;
  Host : string;
  Path : string;
  RawQuery : string;
}.

(** [Values.Get] and [Values.Del] *)
Definition Values_Get (q : Values) (name : string) : string :=
  match q !! name with Some (v :: _) => v | _ => "" end.
Definition Values_Del (q : Values) (name : string) : Values := delete name q.

(** ** The registry (ledger/store/open.go) *)

Section Registry.
Context {Opened : Type}.

Definition Opener : Type := URL → Opened.

Definition MemoryScheme : string := "mem".

(** [None] is a panic. *)
Definition Register (scheme : string) (open : option Opener) (openers : gmap string Opener) : option (gmap string Opener) :=
  match open with
  | None => None
  | Some open =>
      match openers !! scheme with
      | Some _ => None
      | None => Some (<[scheme := open]> openers)
      end
  end.

Definition Schemes (openers : gmap string Opener) : list string := merge_sort string_le (map_to_list openers).*1.

Inductive open_error : Type :=
  | ParseError
  | ErrUnknownScheme (scheme : string) (registered : list string).

Definition Open (Parse : string → option URL) (openers : gmap string Opener) (uri : string) : open_error + Opened :=
  let uri := if String.eqb uri "" then MemoryScheme +:+ ":" else uri in
  match Parse uri with
  | None => inl ParseError
  | Some u =>
      match openers !! Scheme u with
      | None => inl (ErrUnknownScheme (Scheme u) (Schemes openers))
      | Some open => inr (open u)
      end
  end.

(** The [init] functions of the packages imported, in some order. *)
Definition init (calls : list (string * option Opener)) : option (gmap string Opener) :=
  foldl (λ r c, r ≫= Register c.1 c.2) (Some ∅) calls.
End Registry.
Arguments Opener : clear implicits.

(** ** The backends *)

(** [filepath.FromSlash] keeps a path on a host whose separator is a slash. *)
Definition uriPath (u : URL) : result string :=
  if negb (String.eqb (Host u) "") && negb (String.eqb (Host u) "localhost") then Err []
  else
    let dir := if String.eqb (Opaque u) "" then Path u else Opaque u in
    if String.eqb dir "" then Err []
    else
      Ok (match dir with
          | String "/" (String _ (String ":" _) as dir') => dir'
          | _ => dir
          end).

Definition configFromURI (u : URL) (getenv : string → string) : result bucket.Config :=
  if String.eqb (Host u) "" then Err []
  else match User u with
  | Some _ => Err []
  | None =>
      let query := Query (RawQuery u) in
      let region := foldl (λ region name, if String.eqb region "" then getenv name else region)
        (Values_Get query "region") ["AWS_REGION"; "AWS_DEFAULT_REGION"] in
      Ok (bucket.mkConfig (Host u) (bucket.Trim (Path u)) region (Values_Get query "endpoint")
        (getenv "AWS_ACCESS_KEY_ID") (getenv "AWS_SECRET_ACCESS_KEY") (getenv "AWS_SESSION_TOKEN"))
  end.

Section Backends.
Context (Parse : string → option URL) (StringOf Redacted : URL → string) (getenv : string → string).
Context (ParseEndpoint : string → string → option bucket.URL).

(** The connection URI without its [table] parameter, and that parameter. *)
Definition splitTable (uri : string) : result (string * string) :=
  match Parse uri with
  | None => Err []
  | Some u =>
      let query := Query (RawQuery u) in
      Ok (StringOf {| u with RawQuery := Encode (Values_Del query "table") |}, Values_Get query "table")
  end.

(** [db.Open]; [sql_Open] is [sql.Open] of the driver. *)
Definition db_Open (sql_Open : string → option unit) (uri : string) : db.sql (result db.Store) :=
  match splitTable uri with
  | Err e => mret (Err e)
  | Ok (dsn, table) =>
      match sql_Open dsn with
      | None => mret (Err [])
      | Some d =>
          s ← db.New (Some d) table;
          mret match s with
               | Err e => Err e
               | Ok s => Ok match Parse uri with
                            | Some u => {| s with db.uri := Redacted u |}
                            | None => s
                            end
               end
      end
  end.

(** What opening a URI comes to: a store, a call of [fs.New] or the statements that
    open the database. *)
Inductive opening : Type :=
  | OpensMem (s : mem.Store)
  | OpensFs (dir : string)
  | OpensBucket (s : bucket.Store)
  | OpensDb (s : db.sql (result db.Store))
  | Fails (e : error).

Definition open_mem (u : URL) : opening := OpensMem mem.New.

Definition open_fs (u : URL) : opening :=
  match uriPath u with Err e => Fails e | Ok dir => OpensFs dir end.

Definition open_bucket (u : URL) : opening :=
  match configFromURI u getenv with
  | Err e => Fails e
  | Ok cfg =>
      match bucket.New ParseEndpoint cfg with
      | Err e => Fails e
      | Ok s => OpensBucket {| s with bucket.uri := Redacted u |}
      end
  end.

Definition open_db (sql_Open : string → option unit) (u : URL) : opening := OpensDb (db_Open sql_Open (StringOf u)).

(** The schemes ledger/backends.go makes available. *)
Definition backends (sql_Open : string → option unit) : list (string * option (Opener opening)) :=
  [("s3", Some open_bucket); ("postgres", Some (open_db sql_Open)); ("postgresql", Some (open_db sql_Open));
   ("file", Some open_fs); (MemoryScheme, Some open_mem)].
End Backends.
End open.
