(* ===== verification/OpenProps.v ===== *)
(** * What opening a store keeps

    The registry does not depend on the order of its registrations, and the SQL
    backend passes every parameter of a URI on except its own. *)

From stdpp Require Import sorting.
From S2P Require Import Prelude GoStd Store MemStore Sha256 Dates Sign SignProps Remote DbStore BucketStore Open.
#[local] Open Scope string_scope.
#[local] Open Scope list_scope.

Import open.

(** ** The registry *)

Section Registry.
Context {Opened : Type}.
Implicit Types (r : gmap string (Opener Opened)) (c : string * option (Opener Opened)).

Definition register_all (l : list (string * option (Opener Opened))) (o : option (gmap string (Opener Opened))) :
  option (gmap string (Opener Opened)) := foldl (λ o c, o ≫= λ r, Register c.1 c.2 r) o l.

Lemma Register_comm c1 c2 (o : option (gmap string (Opener Opened))) :
  ((o ≫= λ r, Register c1.1 c1.2 r) ≫= λ r, Register c2.1 c2.2 r) =
  ((o ≫= λ r, Register c2.1 c2.2 r) ≫= λ r, Register c1.1 c1.2 r).
Proof.
  destruct o as [r|]; [|done]. destruct c1 as [s1 [o1|]], c2 as [s2 [o2|]]; cbn.
  - destruct (decide (s1 = s2)) as [->|Hne].
    { destruct (r !! s2) eqn:E; cbn; by rewrite ?E, ?lookup_insert_eq. }
    destruct (r !! s1) eqn:E1, (r !! s2) eqn:E2; cbn;
      rewrite ?lookup_insert_ne, ?E1, ?E2 by congruence; try done.
    by rewrite insert_insert_ne.
  - by destruct (r !! s1).
  - by destruct (r !! s2).
  - done.
Qed.

Lemma register_perm l l' o : l ≡ₚ l' → register_all l o = register_all l' o.
Proof.
  intros Hp. revert o. induction Hp as [|c l l' _ IH|c1 c2 l|l1 l2 l3 _ IH1 _ IH2]; intros o; cbn.
  - done.
  - apply IH.
  - by rewrite Register_comm.
  - by rewrite IH1.
Qed.

Lemma register_none l : register_all l None = None.
Proof. by induction l. Qed.

(** The registry holds what was there and the openers registered, each once. *)
Lemma register_all_spec l r r' :
  register_all l (Some r) = Some r' →
  NoDup l.*1 ∧ (∀ s o, (s, o) ∈ l → r !! s = None ∧ o ≠ None) ∧
  (∀ s f, r' !! s = Some f ↔ r !! s = Some f ∨ (s, Some f) ∈ l).
Proof.
  revert r. induction l as [|[s [f|]] l IH]; intros r Hr; cbn in Hr.
  - injection Hr as <-. split; [constructor|]. split; intros s ?; [by rewrite elem_of_nil|].
    rewrite elem_of_nil. tauto.
  - destruct (r !! s) as [g|] eqn:E.
    { change (register_all l None = Some r') in Hr. by rewrite register_none in Hr. }
    apply IH in Hr as (Hnd & Hin & Hget).
    assert (∀ o, (s, o) ∉ l) as Hs.
    { intros o Ho. destruct (Hin _ _ Ho) as [Hn _]. by rewrite lookup_insert_eq in Hn. }
    split_and!.
    + cbn. constructor; [|done]. intros ([s' o] & Heq & Hl)%list_elem_of_fmap. cbn in Heq. subst s'. by apply (Hs o).
    + intros s' o [[= -> ->]|Ho]%elem_of_cons; [done|]. destruct (Hin _ _ Ho) as [Hn Ho'].
      split; [|done]. by apply lookup_insert_None in Hn as [? _].
    + intros s' h. rewrite Hget, elem_of_cons. destruct (decide (s = s')) as [<-|Hne].
      * rewrite lookup_insert_eq. split; [intros [[= ->]|?]; auto|].
        intros [?|[[= ->]|?]]; [congruence|auto..].
      * rewrite lookup_insert_ne by done. naive_solver.
  - change (register_all l None = Some r') in Hr. by rewrite register_none in Hr.
Qed.

Lemma init_spec (l : list (string * option (Opener Opened))) r :
  init l = Some r → NoDup l.*1 ∧ (∀ s f, r !! s = Some f ↔ (s, Some f) ∈ l).
Proof.
  intros Hr. apply (register_all_spec l ∅ r) in Hr as (Hnd & _ & Hget). split; [done|].
  intros s f. rewrite Hget, lookup_empty. naive_solver.
Qed.

(** Whatever the order of the imports, the same registry results, or the same
    panic; it lists exactly the schemes registered, sorted; and [Open] hands a URI to
    the opener registered for its scheme, an empty one to that of memory, and refuses a
    scheme without one. *)
Theorem registration_order_free (l l' : list (string * option (Opener Opened))) :
  l ≡ₚ l' →
  init l' = init l ∧
  ∀ r, init l = Some r →
    (StronglySorted string_le (Schemes r) ∧ ∀ s, s ∈ Schemes r ↔ s ∈ l'.*1) ∧
    ∀ Parse uri u, Parse (if String.eqb uri "" then MemoryScheme +:+ ":" else uri) = Some u →
      (∀ f, (Scheme u, Some f) ∈ l' → open.Open Parse r uri = inr (f u)) ∧
      (Scheme u ∉ l'.*1 → open.Open Parse r uri = inl (ErrUnknownScheme (Scheme u) (Schemes r))).
Proof.
  intros Hp. split; [symmetry; exact (register_perm l l' (Some ∅) Hp)|]. intros r Hr.
  pose proof (register_all_spec l ∅ r Hr) as (_ & Hsome & _).
  apply init_spec in Hr as [Hnd Hget].
  assert (∀ s, (∃ f, r !! s = Some f) ↔ s ∈ l'.*1) as Hdom.
  { intros s. rewrite <-Hp, list_elem_of_fmap. split.
    - intros [f Hf]. apply Hget in Hf. by exists (s, Some f).
    - intros ([s' [f|]] & -> & Hin); [exists f; by apply Hget|]. by destruct (Hsome _ _ Hin). }
  split; [split|].
  - apply StronglySorted_merge_sort; apply _.
  - intros s. unfold Schemes. rewrite merge_sort_Permutation, list_elem_of_fmap, <-Hdom. split.
    + intros ([s' f] & -> & Hin). apply elem_of_map_to_list in Hin. by exists f.
    + intros [f Hf]. exists (s, f). by rewrite elem_of_map_to_list.
  - intros Parse uri u Hu. unfold open.Open, Opener in *. rewrite Hu. split.
    + intros f Hin. rewrite <-Hp in Hin. apply Hget in Hin. by rewrite Hin.
    + intros Hout. destruct (r !! Scheme u) as [f|] eqn:E; [|done]. destruct Hout. apply Hdom. by exists f.
Qed.
End Registry.

(** ** The query of a URI *)

(** The bytes [QueryEscape] writes. *)
Definition query_char (c : ascii) : bool := unreserved c || Ascii.eqb c "%" || Ascii.eqb c "+".

Lemma QueryEscape_chars s : all_chars query_char (QueryEscape s) = true.
Proof.
  induction s as [|c s IH]; [done|]. cbn [QueryEscape]. rewrite all_chars_app, IH, andb_true_r.
  by destruct c as [[][][][][][][][]]; vm_compute.
Qed.

Lemma unescape_QueryEscape s : unescape true (QueryEscape s) = Some s.
Proof.
  induction s as [|c s IH]; [done|]. cbn [QueryEscape].
  destruct (Ascii.eqb_spec c " ") as [->|Hc]; [cbn; by rewrite IH|].
  destruct (unreserved c) eqn:E; [|by rewrite unescape_percent, IH].
  assert (Ascii.eqb c "%" = false ∧ Ascii.eqb c "+" = false) as [H1 H2]
    by (clear -E; by destruct c as [[][][][][][][][]]; vm_compute in E |- *).
  cbn [String.append unescape]. by rewrite H1, H2, IH.
Qed.

Lemma split_amp_plain s : ContainsChar s "&" = false → split_amp s = [s].
Proof.
  induction s as [|c s IH]; [done|]. intros [Hc Hs]%orb_false_iff. cbn [split_amp].
  rewrite Ascii.eqb_sym in Hc. by rewrite Hc, (IH Hs).
Qed.

Lemma split_amp_app s t : ContainsChar s "&" = false → split_amp (s +:+ String "&" t) = s :: split_amp t.
Proof.
  induction s as [|c s IH]; [done|]. intros [Hc Hs]%orb_false_iff. cbn [String.append split_amp].
  rewrite Ascii.eqb_sym in Hc. by rewrite Hc, (IH Hs).
Qed.

Lemma split_amp_concat l :
  Forall (λ s, ContainsChar s "&" = false) l → l ≠ [] → split_amp (String.concat "&" l) = l.
Proof.
  induction l as [|s l IH]; intros Hl Hne; [done|]. apply Forall_cons in Hl as [Hs Hl].
  destruct l as [|s' l]; [by apply split_amp_plain|].
  change (split_amp (s +:+ String "&" (String.concat "&" (s' :: l))) = s :: s' :: l).
  rewrite split_amp_app by done. by rewrite IH.
Qed.

Lemma Cut_plain a b : ContainsChar a "=" = false → Cut (a +:+ String "=" b) "=" = Some (a, b).
Proof.
  induction a as [|c a IH].
  - intros _. by destruct b.
  - intros [Hc Ha]%orb_false_iff. cbn [String.append Cut CutPrefix]. rewrite Hc. by rewrite (IH Ha).
Qed.

Definition pair_text (n v : string) : string := QueryEscape n +:+ "=" +:+ QueryEscape v.

Lemma pair_text_plain n v c :
  query_char c = false → Ascii.eqb c "=" = false → ContainsChar (pair_text n v) c = false.
Proof.
  intros Hc He. unfold pair_text.
  assert (∀ s t, ContainsChar (s +:+ t) c = ContainsChar s c || ContainsChar t c) as Happ.
  { intros s t. induction s as [|d s IH]; [done|]. cbn. by rewrite IH, orb_assoc. }
  rewrite !Happ, !(λ s, all_chars_contains query_char (QueryEscape s) c) by (apply QueryEscape_chars || done).
  cbn. by rewrite He.
Qed.

Lemma add_pair_text q n v : add_pair q (pair_text n v) = <[n := default [] (q !! n) ++ [v]]> q.
Proof.
  unfold add_pair. rewrite pair_text_plain by done.
  assert (String.eqb (pair_text n v) "" = false) as ->.
  { unfold pair_text. by destruct (QueryEscape n). }
  cbn [orb]. unfold pair_text. change ("=" +:+ ?t) with (String "=" t).
  rewrite Cut_plain by (by apply (all_chars_contains query_char); [apply QueryEscape_chars|]).
  by rewrite !unescape_QueryEscape.
Qed.

(** The texts of one name's values, one after the other. *)
Lemma add_values q n vs ws :
  q !! n = Some ws → foldl add_pair q (pair_text n <$> vs) = <[n := ws ++ vs]> q.
Proof.
  revert q ws. induction vs as [|v vs IH]; intros q ws Hq; cbn.
  - by rewrite app_nil_r, insert_id.
  - rewrite add_pair_text, Hq. cbn. rewrite (IH _ (ws ++ [v])) by apply lookup_insert_eq.
    by rewrite insert_insert_eq, <-app_assoc.
Qed.

Definition texts (l : list (string * list string)) : list string := nv ← l; pair_text nv.1 <$> nv.2.

Lemma add_texts l q :
  NoDup l.*1 → Forall (λ nv, nv.2 ≠ [] ∧ q !! nv.1 = None) l →
  foldl add_pair q (texts l) = list_to_map l ∪ q.
Proof.
  revert q. induction l as [|[n [|v vs]] l IH]; intros q Hnd Hl; cbn.
  - by rewrite (left_id_L ∅ (∪)).
  - apply Forall_cons in Hl as [[? _] _]. done.
  - apply Forall_cons in Hl as [[_ Hn] Hl]. cbn in Hnd, Hn. apply NoDup_cons in Hnd as [Hnl Hnd].
    change (foldl add_pair (add_pair q (pair_text n v)) ((pair_text n <$> vs) ++ texts l) =
      list_to_map ((n, v :: vs) :: l) ∪ q).
    rewrite add_pair_text, Hn, foldl_app. cbn [default app].
    rewrite (add_values _ n vs [v]) by apply lookup_insert_eq. rewrite insert_insert_eq. cbn [app].
    rewrite IH; [|done|].
    + rewrite list_to_map_cons, <-insert_union_l, insert_union_r; [done|]. by apply not_elem_of_list_to_map_1.
    + apply Forall_forall. intros nv Hin. rewrite Forall_forall in Hl. destruct (Hl _ Hin) as [? ?].
      split; [done|]. rewrite lookup_insert_ne; [done|]. intros ->. apply Hnl. apply list_elem_of_fmap. by exists nv.
Qed.

(** Every name of a query has a value. *)
Definition proper (q : Values) : Prop := map_Forall (λ _ vs, vs ≠ []) q.

Lemma Query_proper raw : proper (Query raw).
Proof.
  unfold Query. assert (∀ l q, proper q → proper (foldl add_pair q l)) as H; [|by apply H; intros ??].
  intros l. induction l as [|p l IH]; intros q Hq; [done|]. cbn. apply IH. unfold add_pair.
  destruct (_ || _); [done|]. destruct (match Cut p "=" with Some nv => nv | None => _ end) as [n v].
  destruct (unescape true n) as [n'|]; [|done]. destruct (unescape true v) as [v'|]; [|done].
  apply map_Forall_insert_2; [|done]. by destruct (default [] _).
Qed.

Lemma Query_Encode q : proper q → Query (Encode q) = q.
Proof.
  intros Hq. unfold Encode.
  set (l := merge_sort (λ a b : string * list string, string_le a.1 b.1) (map_to_list q)).
  assert (l ≡ₚ map_to_list q) as Hp by apply merge_sort_Permutation.
  change (Query (String.concat "&" (texts l)) = q).
  assert (Forall (λ s, ContainsChar s "&" = false) (texts l)) as Hamp.
  { apply Forall_forall. intros s (nv & Hs & _)%list_elem_of_bind.
    apply list_elem_of_fmap in Hs as (v & -> & _). by apply pair_text_plain. }
  assert (foldl add_pair ∅ (texts l) = q) as Hfold.
  { rewrite add_texts.
    - rewrite (right_id_L ∅ (∪)), (list_to_map_proper l (map_to_list q)); [apply list_to_map_to_list| |done].
      rewrite Hp. apply NoDup_fst_map_to_list.
    - rewrite Hp. apply NoDup_fst_map_to_list.
    - apply Forall_forall. intros [n vs] Hin. rewrite Hp in Hin. apply elem_of_map_to_list in Hin.
      split; [exact (Hq _ _ Hin)|apply lookup_empty]. }
  unfold Query. destruct (texts l) as [|t ts] eqn:E; [exact Hfold|]. rewrite <-E, split_amp_concat by (by rewrite E).
  by rewrite E.
Qed.

(** The SQL backend takes its own parameter from a connection URI and no
    other: the URI it passes on has every other parameter, with all its values in
    order, and [table] not at all. *)
Theorem splitTable_keeps_parameters (Parse : string → option URL) (StringOf : URL → string) uri u :
  Parse uri = Some u →
  ∃ u', splitTable Parse StringOf uri = Ok (StringOf u', Values_Get (Query (RawQuery u)) "table") ∧
    u' = {| u with RawQuery := RawQuery u' |} ∧
    Query (RawQuery u') !! "table" = None ∧
    ∀ name, name ≠ "table" → Query (RawQuery u') !! name = Query (RawQuery u) !! name.
Proof.
  intros Hu. unfold splitTable. rewrite Hu. cbn.
  exists {| u with RawQuery := Encode (Values_Del (Query (RawQuery u)) "table") |}. cbn [RawQuery]. split; [done|].
  assert (proper (delete "table" (Query (RawQuery u)))) as Hp by (apply map_Forall_delete, Query_proper).
  split; [done|]. unfold Values_Del. rewrite (Query_Encode _ Hp). split; [apply lookup_delete_eq|].
  intros name Hne. by rewrite lookup_delete_ne.
Qed.

(** ** Both at a concrete URI *)

Definition parsed : URL := mkURL "postgres" "" (Some "ledger") "db.example" "/qumo" "table=media&sslmode=disable&a=x%26y&a=2".

Lemma splitTable_keeps_parameters_witness :
  ∃ u', splitTable (λ _, Some parsed) RawQuery "postgres:" = Ok (RawQuery u', "media") ∧
    RawQuery u' = "a=x%26y&a=2&sslmode=disable" ∧ Query (RawQuery u') !! "a" = Some ["x&y"; "2"].
Proof.
  destruct (splitTable_keeps_parameters (λ _, Some parsed) RawQuery "postgres:" parsed eq_refl)
    as (u' & Heq & _ & _ & Hkeep).
  exists u'. rewrite Heq, (Hkeep "a") by done. split; [done|]. split; [|by vm_compute].
  vm_compute in Heq |- *. congruence.
Defined.

(** The schemes of ledger/backends.go, imported in either order. *)
Lemma registration_order_free_witness :
  let l := [("s3", Some (λ _ : URL, 0)); ("postgres", Some (λ _, 1)); ("file", Some (λ _, 2)); ("mem", Some (λ _, 3))] in
  init (reverse l) = init l ∧
  (Schemes <$> init l) = Some ["file"; "mem"; "postgres"; "s3"] ∧
  (init l ≫= λ r, Some (open.Open (λ _, Some parsed) r "postgres://db.example/qumo")) = Some (inr 1).
Proof.
  intros l. destruct (registration_order_free l (reverse l) (symmetry (reverse_Permutation l))) as [Hinit Hr].
  split; [exact Hinit|]. split; [by vm_compute|].
  destruct (init l) as [r|] eqn:E; [|by vm_compute in E]. cbn. f_equal.
  destruct (Hr r eq_refl) as [_ Hopen].
  destruct (Hopen (λ _, Some parsed) "postgres://db.example/qumo" parsed eq_refl) as [Hf _].
  apply (Hf (λ _, 1)). cbn. set_solver.
Defined.
