(* ===== verification/Writer.v ===== *)
(** * Writers (ledger/writer.go, and [Track.Writer] of ledger/track.go)

    A writer appends groups to one epoch of a track. Its methods return the
    writer as they leave it; its lock makes each a single step of the handle.
    [NewEpoch] also works on the shared [Track], which is passed in and out.

    [fuel] bounds the iterations of the two loops that are not bounded in the
    source: the probe of [recover] and the reclaiming of sealed deltas. *)

From S2P Require Import Prelude GoStd Store Group Manifest Track.
#[local] Open Scope string_scope.

Record Writer := mkWriter {
  w_path : TrackPath;
  w_epoch : N;
  w_schema : TrackSchema;
  sealThreshold : Z;
  logRoot : epochLogRoot;
  logVersion : Version;
  headVersion : Version;
  nextDelta : N;
  openGroups : list GroupInfo;
  openBytes : Z;
  last : GroupInfo;
  hasLast : bool;
  stale : bool;
}.

(** [Writer.Track], [Writer.Epoch] and [Writer.Root]. *)
Definition Writer_Track (w : Writer) : TrackPath := w_path w.
Definition Writer_Epoch (w : Writer) : N := w_epoch w.
Definition Writer_Root (w : Writer) : TrackInfo :=
  mkTrackInfo (w_schema w) (w_path w) (w_epoch w).

(** ** Recovery *)

(** [len(data)] as an [int64]. *)
Definition len64 (data : bytes) : Z := Z.of_nat (String.length data).

(** What one delta found open adds to the writer. *)
Definition recover_delta (w : Writer) (delta : deltaManifest) (data : bytes) : Writer :=
  let w := {| w with
    openGroups := openGroups w ++ d_Groups delta;
    openBytes := i64 (openBytes w + len64 data) |} in
  match list.last (d_Groups delta) with
  | Some g => {| w with last := g; hasLast := true |}
  | None => w
  end.

(** The loop of [recover]: probe from delta [n] until one is absent. *)
Fixpoint recover_loop (fuel : nat) (from n : N) (w : Writer) : prog (Writer * option error) :=
  match fuel with
  | O => OutOfFuel
  | S fuel' =>
      r ← store_Get (deltaKey (w_path w) (w_epoch w) n);
      match r with
      | Err e =>
          mret (if errors_Is e ErrNotExist then
                  if (n <? from)%N then (w, Some [])
                  else ({| w with nextDelta := n |}, None)
                else (w, Some e))
      | Ok (data, _) =>
          match decodeManifest data with
          | Err e => mret (w, Some e)
          | Ok delta => recover_loop fuel' from (u64 (n + 1)) (recover_delta w delta data)
          end
      end
  end.

(** After the loop: with no open group, the newest sealed run stands in for the
    last committed group. *)
Definition recover_last (w : Writer) : Writer :=
  if negb (hasLast w) then
    match list.last (Sealed (logRoot w)) with
    | Some newest =>
        {| w with
          last := {| zeroGroupInfo with ID := Last newest; MediaTime := MediaEnd newest |};
          hasLast := true |}
    | None => w
    end
  else w.

Definition recover (fuel : nat) (w : Writer) : prog (Writer * option error) :=
  r ← fetchHead (w_path w) (w_epoch w);
  let probe (from : N) (w : Writer) :=
    r ← recover_loop fuel from (OpenFrom (logRoot w)) w;
    let '(w, err) := r in
    mret match err with
    | Some e => (w, Some e)
    | None => (recover_last w, None)
    end in
  match r with
  | Ok (h, version) =>
      let w := {| w with headVersion := version |} in
      let from := OpenFrom (logRoot w) in
      probe (if (from <=? Delta h)%N then Delta h else from) w
  | Err e => if errors_Is e ErrNotExist then probe (OpenFrom (logRoot w)) w else mret (w, Some e)
  end.

Definition reloadIfStale (fuel : nat) (w : Writer) : prog (Writer * option error) :=
  if negb (stale w) then mret (w, None)
  else
    r ← fetchEpochLog (w_path w) (w_epoch w);
    match r with
    | Err e => mret (w, Some e)
    | Ok (root, version) =>
        let w := {| w with
          logRoot := root; logVersion := version;
          openGroups := []; openBytes := 0; last := zeroGroupInfo; hasLast := false |} in
        r ← recover fuel w;
        let '(w, err) := r in
        mret match err with
        | Some e => (w, Some e)
        | None => ({| w with stale := false |}, None)
        end
    end.

(** ** Head, log root and sealing *)

Definition publishHead (w : Writer) (latest : GroupID) : prog (Writer * option error) :=
  updatedAt ← now;
  let data := encodeManifest (mkHead manifestVersion (u64_sub (nextDelta w) 1) latest updatedAt) in
  let key := headKey (w_path w) (w_epoch w) in
  let finish (r : result Version) : Writer * option error :=
    match r with
    | Err e => (w, Some e)
    | Ok version => ({| w with headVersion := version |}, None)
    end in
  r ← store_Swap key data (headVersion w);
  match r with
  | Err e =>
      if errors_Is e ErrVersionMismatch || errors_Is e ErrNotExist then
        got ← fetchHead (w_path w) (w_epoch w);
        match got with
        | Ok (_, current) => r ← store_Swap key data current; mret (finish r)
        | Err getErr =>
            if errors_Is getErr ErrNotExist then
              r ← store_Swap key data NoVersion; mret (finish r)
            else mret (finish r)
        end
      else mret (finish r)
  | Ok _ => mret (finish r)
  end.

Definition updateLogRoot (w : Writer) (mutate : epochLogRoot → epochLogRoot)
    : prog (Writer * option error) :=
  let next := mutate (logRoot w) in
  r ← store_Swap (epochLogKey (w_path w) (w_epoch w)) (encodeManifest next) (logVersion w);
  mret match r with
  | Err e => (w, Some e)
  | Ok version => ({| w with logRoot := next; logVersion := version |}, None)
  end.

(** Reclaiming the sealed deltas; a failed delete is logged and passed over. *)
Fixpoint reclaim (fuel : nat) (path : TrackPath) (epoch n lastDelta : N) : prog unit :=
  if (n <=? lastDelta)%N then
    match fuel with
    | O => OutOfFuel
    | S fuel' =>
        _ ← store_Delete (deltaKey path epoch n);
        reclaim fuel' path epoch (u64 (n + 1)) lastDelta
    end
  else mret tt.

(** [seal] once the sealed manifest is stored: publish it, then reclaim the
    deltas it replaces. *)
Definition seal_publish (fuel : nat) (w : Writer) (sealed : sealedManifest) (key : string)
    : prog (Writer * option error) :=
  r ← updateLogRoot w (λ root, {| root with
    Sealed := Sealed root ++ [summarize sealed key];
    OpenFrom := u64 (s_LastDelta sealed + 1) |});
  let '(w, err) := r in
  match err with
  | Some e => mret (w, Some e)
  | None =>
      let w := {| w with openGroups := []; openBytes := 0 |} in
      _ ← reclaim fuel (w_path w) (w_epoch w) (s_FirstDelta sealed) (s_LastDelta sealed);
      mret (w, None)
  end.

Definition seal (fuel : nat) (w : Writer) : prog (Writer * option error) :=
  match openGroups w with
  | [] => mret (w, None)
  | _ :: _ =>
      let firstDelta := OpenFrom (logRoot w) in
      let lastDelta := u64_sub (nextDelta w) 1 in
      let seq := u64 (N.of_nat (length (Sealed (logRoot w))) + 1) in
      let key := sealedKey (w_path w) (w_epoch w) firstDelta lastDelta in
      sealedAt ← now;
      let sealed := mkSealed manifestVersion (w_path w) (w_epoch w) seq firstDelta lastDelta
        (openGroups w) sealedAt in
      r ← store_Create key (encodeManifest sealed);
      match r with
      | Err e => if errors_Is e ErrExist then seal_publish fuel w sealed key else mret (w, Some e)
      | Ok _ => seal_publish fuel w sealed key
      end
  end.

(** [Writer.Seal] *)
Definition Seal (fuel : nat) (w : Writer) : prog (Writer * option error) := seal fuel w.

(** ** Appending *)

Definition checkOrder (w : Writer) (meta : GroupInfo) : option error :=
  if negb (hasLast w) then None
  else if (MediaTime meta <? mediaEnd (last w))%Z then Some [ErrGroupOutOfOrder]
  else None.

(** [holds]: whether the object at [key] is [data]. *)
Definition holds (key : string) (data : bytes) : prog bool :=
  r ← store_Get key;
  mret match r with
  | Ok (got, _) => String.eqb got data
  | Err _ => false
  end.

(** What follows the commit of [meta]: the writer's state, the head pointer, and
    a seal once the open region is large enough. *)
Definition afterCommit (fuel : nat) (w : Writer) (meta : GroupInfo) (data : bytes)
    : prog (Writer * (GroupInfo * option error)) :=
  let w := {| w with
    nextDelta := u64 (nextDelta w + 1);
    openGroups := openGroups w ++ [meta];
    openBytes := i64 (openBytes w + len64 data);
    last := meta; hasLast := true |} in
  r ← publishHead w (ID meta);
  let '(w, _) := r in
  if (sealThreshold w <=? openBytes w)%Z then
    r ← seal fuel w;
    let '(w, err) := r in
    mret match err with
    | Some e => ({| w with stale := true |}, (meta, Some e))
    | None => (w, (meta, None))
    end
  else mret (w, (meta, None)).

(** [AppendGroup] from the creation of the group object on: the payload, then
    the delta that commits it. *)
Definition commitGroup (fuel : nat) (w : Writer) (meta : GroupInfo) (payload : bytes)
    : prog (Writer * (GroupInfo * option error)) :=
  let meta := {| meta with ObjectKey := groupKey (w_path w) (ID meta); Size := len64 payload |} in
  r ← store_Create (ObjectKey meta) payload;
  match r with
  | Err e =>
      mret (if errors_Is e ErrExist
            then ({| w with stale := true |}, (zeroGroupInfo, Some (ErrGroupExists :: e)))
            else (w, (zeroGroupInfo, Some e)))
  | Ok _ =>
      committedAt ← now;
      let data := encodeManifest (mkDelta manifestVersion (nextDelta w) [meta] committedAt) in
      let key := deltaKey (w_path w) (w_epoch w) (nextDelta w) in
      r ← store_Create key data;
      match r with
      | Ok _ => afterCommit fuel w meta data
      | Err e =>
          held ← holds key data;
          if held : bool then afterCommit fuel w meta data
          else mret ({| w with stale := true |}, (zeroGroupInfo, Some e))
      end
  end.

(** The part of [AppendGroup] after the reload: stamping, the duplicate and the
    ordering checks, then the commit. *)
Definition appendLocked (fuel : nat) (w : Writer) (meta : GroupInfo) (payload : bytes)
    : prog (Writer * (GroupInfo * option error)) :=
  if hasLast w && (ID meta =? ID (last w))%N then mret (w, (zeroGroupInfo, Some [ErrGroupExists]))
  else match checkOrder w meta with
  | Some e => mret (w, (zeroGroupInfo, Some e))
  | None => commitGroup fuel w meta payload
  end.

Definition AppendGroup (fuel : nat) (w : Writer) (meta : GroupInfo) (payload : bytes)
    : prog (Writer * (GroupInfo * option error)) :=
  let meta := {| meta with ID := NewGroupID (w_epoch w) (Sequence (ID meta)) |} in
  match GroupInfo_validate meta with
  | Some e => mret (w, (zeroGroupInfo, Some e))
  | None =>
      r ← reloadIfStale fuel w;
      let '(w, err) := r in
      match err with
      | Some e => mret (w, (zeroGroupInfo, Some e))
      | None =>
          if (Wallclock meta =? 0)%Z && String.eqb (TimeSource (w_schema w)) TimeSourceIngest then
            wallclock ← now;
            appendLocked fuel w {| meta with Wallclock := wallclock |} payload
          else appendLocked fuel w meta payload
      end
  end.

Definition maxSkippedSequences : nat := 16.

Definition isGroupObjectCollision (err : option error) : bool :=
  match err with
  | None => false
  | Some e => errors_Is e ErrGroupExists && errors_Is e ErrExist
  end.

(** [Append]'s loop; [left] is how many more attempts [maxSkippedSequences]
    allows after this one. *)
Fixpoint Append_loop (fuel left : nat) (floor : N) (wallclock duration : Z) (w : Writer)
    (payload : bytes) : prog (Writer * (GroupInfo * option error)) :=
  r ← reloadIfStale fuel w;
  let '(w, err) := r in
  match err with
  | Some e => mret (w, (zeroGroupInfo, Some e))
  | None =>
      let seq := if hasLast w then u64 (Sequence (ID (last w)) + 1) else 0%N in
      let mediaStart := if hasLast w then mediaEnd (last w) else 0%Z in
      let seq := N.max seq floor in
      r ← AppendGroup fuel w {| zeroGroupInfo with
            ID := NewGroupID 0 seq; MediaTime := mediaStart;
            Duration := duration; Wallclock := wallclock |} payload;
      let '(w, (group, err)) := r in
      if negb (isGroupObjectCollision err) then mret (w, (group, err))
      else match left with
      | O => mret (w, (group, err))
      | S left' => Append_loop fuel left' (u64 (seq + 1)) wallclock duration w payload
      end
  end.

Definition Append (fuel : nat) (w : Writer) (duration : Z) (payload : bytes)
    : prog (Writer * (GroupInfo * option error)) :=
  wallclock ← now;
  Append_loop fuel maxSkippedSequences 0 wallclock duration w payload.

(** ** Epochs *)

Definition NewEpoch (t : Track) (w : Writer) : prog (Track * Writer * option error) :=
  let next := u64 (w_epoch w + 1) in
  if (maxGroupEpoch <? next)%N then mret (t, w, Some [])
  else
    r ← createEpochLog t next;
    let '(t, err) := r in
    match err with
    | Some e => mret (t, w, Some e)
    | None =>
        r ← fetchEpochLog (w_path w) next;
        mret match r with
        | Err e => (t, w, Some e)
        | Ok (root, version) =>
            (t, {| w with
              w_epoch := next; logRoot := root; logVersion := version;
              headVersion := NoVersion; nextDelta := 0; openGroups := []; openBytes := 0;
              last := zeroGroupInfo; hasLast := false |}, None)
        end
    end.

Definition newWriter (t : Track) (epoch : N) (sch : TrackSchema) : Writer :=
  mkWriter (t_path t) epoch sch (t_sealThreshold t) zeroEpochLogRoot NoVersion NoVersion
    0 [] 0 zeroGroupInfo false false.

(** [Track.Writer] *)
Definition Track_Writer (fuel : nat) (t : Track) : prog (Track * result Writer) :=
  let latest := LatestEpoch (t_root t) in
  if (latest =? 0)%N then mret (t, Err [ErrEpochNotFound])
  else
    let w := newWriter t latest (schema (t_root t)) in
    let finish (t : Track) (r : result (epochLogRoot * Version)) : prog (Track * result Writer) :=
      match r with
      | Err e => mret (t, Err e)
      | Ok (root, version) =>
          r ← recover fuel {| w with logRoot := root; logVersion := version |};
          let '(w, err) := r in
          mret (t, match err with Some e => Err e | None => Ok w end)
      end in
    r ← fetchEpochLog (t_path t) latest;
    match r with
    | Err e =>
        if errors_Is e ErrEpochNotFound then
          r ← createEpochLog t latest;
          let '(t, err) := r in
          match err with
          | Some e => mret (t, Err e)
          | None => r ← fetchEpochLog (t_path t) latest; finish t r
          end
        else finish t r
    | Ok _ => finish t r
    end.
