(* ===== verification/Redact.v ===== *)
(** * Redaction (ledger/redact.go)

    A group's payload is taken out by recording a marker object beside the
    epoch's groups and deleting the payload; its manifest row stays. *)

From S2P Require Import Prelude GoStd Store Group Manifest Track.
#[local] Open Scope string_scope.

(** [strings.Contains(s, "/")] *)
Definition contains_slash (s : string) : bool := ContainsChar s "/".

(** [redactedKey]: the marker key of a group's object key. *)
Definition redactedKey (objectKey : string) : option string :=
  match Cut objectKey ("/" +:+ groupPrefix) with
  | None => None
  | Some (dir, name) =>
      if String.eqb name "" || contains_slash name then None
      else Some (dir +:+ "/" +:+ redactedPrefix +:+ name)
  end.

(** [Track.redactedKey] *)
Definition Track_redactedKey (t : Track) (g : GroupInfo) : result string :=
  match redactedKey (ObjectKey g) with
  | Some marker =>
      if HasPrefix (ObjectKey g) (t_path t +:+ "/") then Ok marker else Err [ErrInvalidGroup]
  | None => Err [ErrInvalidGroup]
  end.

Definition markerExists (key : string) : prog (result bool) :=
  r ← store_Get key;
  mret match r with
  | Ok _ => Ok true
  | Err e => if errors_Is e ErrNotExist then Ok false else Err e
  end.

Definition Redact (t : Track) (g : GroupInfo) : prog (option error) :=
  match Track_redactedKey t g with
  | Err e => mret (Some e)
  | Ok marker =>
      r ← store_Create marker "";
      match r with
      | Err e => if errors_Is e ErrExist then
                   r ← store_Delete (ObjectKey g);
                   mret match r with Err e => Some e | Ok _ => None end
                 else mret (Some e)
      | Ok _ =>
          r ← store_Delete (ObjectKey g);
          mret match r with Err e => Some e | Ok _ => None end
      end
  end.

Definition Redacted (t : Track) (g : GroupInfo) : prog (result bool) :=
  match Track_redactedKey t g with
  | Err e => mret (Err e)
  | Ok marker => markerExists marker
  end.
