(* ===== verification/Reader.v ===== *)
(** * Readers (ledger/reader.go and ledger/before.go)

    A reader needs nothing but the store. Bounded queries ([Lookup], the ranges,
    [Before]) leave its cursor alone; the seeks position it and [Next] streams
    from it. Methods that move the cursor return the reader as they leave it.

    The source walks an epoch's open region with the same loop in five places
    (probe delta after delta until one is not committed); here that loop is
    [forOpen], with the body of each place as its argument. [fuel] bounds the
    iterations of the unbounded loops. *)

From S2P Require Import Prelude GoStd Store Group Manifest Track Redact.
#[local] Open Scope string_scope.

Record Reader := mkReader {
  r_path : TrackPath;
  r_schema : TrackSchema;
  latest : N;
  epoch1Log : epochLogRoot;
  r_epoch : N;
  r_logRoot : epochLogRoot;
  next : N;
  idx : nat;
  batch : list GroupInfo;
  misses : N;
  r_last : GroupID;
}.

Definition Reader_Track (r : Reader) : TrackPath := r_path r.

Definition Reader_Root (r : Reader) : TrackInfo :=
  mkTrackInfo (r_schema r) (r_path r) (latest r).

Definition loadEpoch (r : Reader) (epoch : N) : prog (Reader * option error) :=
  got ← fetchEpochLog (r_path r) epoch;
  mret match got with
  | Err e => (r, Some e)
  | Ok (root, _) =>
      ({| r with r_epoch := epoch; r_logRoot := root;
          next := 0; idx := 0; batch := []; misses := 0 |}, None)
  end.

(** [Track.Reader] *)
Definition Track_Reader (t : Track) : prog (result Reader) :=
  let lat := LatestEpoch (t_root t) in
  if (lat =? 0)%N then mret (Err [ErrEpochNotFound])
  else
    let r := mkReader (t_path t) (schema (t_root t)) lat zeroEpochLogRoot 0 zeroEpochLogRoot
      0 0 [] 0 0 in
    got ← loadEpoch r 1;
    let '(r, err) := got in
    mret match err with
    | Some e => Err e
    | None => Ok {| r with epoch1Log := r_logRoot r |}
    end.

Definition Refresh (r : Reader) : prog (Reader * option error) :=
  got ← fetchTrackRoot (r_path r);
  match got with
  | Err e => mret (r, Some e)
  | Ok (root, _) =>
      let r := {| r with latest := LatestEpoch root |} in
      got ← fetchEpochLog (r_path r) (r_epoch r);
      mret match got with
      | Err e => (r, Some e)
      | Ok (root, _) =>
          let r := {| r with r_logRoot := root |} in
          (if (r_epoch r =? 1)%N then {| r with epoch1Log := root |} else r, None)
      end
  end.

(** ** Fetching *)

(** [Reader.delta] *)
Definition delta (path : TrackPath) (epoch n : N) : prog (result deltaManifest) :=
  r ← store_Get (deltaKey path epoch n);
  mret match r with
  | Err e => if errors_Is e ErrNotExist then Err [ErrNotCommitted] else Err e
  | Ok (data, _) => decodeManifest data
  end.

(** [Reader.sealed] *)
Definition sealed (path : TrackPath) (epoch : N) (ref : sealedRef) : prog (result sealedManifest) :=
  r ← store_Get (Key ref);
  mret match r with
  | Err e => Err e
  | Ok (data, _) =>
      match decodeManifest data with
      | Err e => Err e
      | Ok sm =>
          if negb (String.eqb (s_Track sm) path) then Err [ErrManifestMismatch]
          else if negb (s_Epoch sm =? epoch)%N then Err [ErrManifestMismatch]
          else if negb (s_FirstDelta sm =? FirstDelta ref)%N || negb (s_LastDelta sm =? LastDelta ref)%N
          then Err [ErrManifestMismatch]
          else Ok sm
      end
  end.

(** [Reader.ReadGroup] *)
Definition ReadGroup (objectKey : string) : prog (result bytes) :=
  r ← store_Get objectKey;
  match r with
  | Ok (data, _) => mret (Ok data)
  | Err e =>
      if errors_Is e ErrNotExist then
        match redactedKey objectKey with
        | None => mret (Err e)
        | Some marker =>
            got ← markerExists marker;
            mret match got with
            | Err merr => Err merr
            | Ok true => Err [ErrGroupRedacted]
            | Ok false => Err e
            end
        end
      else mret (Err e)
  end.

(** How a loop over stored manifests ended: it ran to the end (the open region's
    at the delta number given), its body stopped it, or a fetch failed. *)
Inductive loop_end : Type :=
  | LDone (n : N)
  | LStop
  | LErr (e : error).

(** [for n := ...; ; n++ { delta, err := r.delta(ctx, epoch, n); ... }] *)
Fixpoint forOpen {S} (fuel : nat) (path : TrackPath) (epoch n : N)
    (body : N → list GroupInfo → S → S * bool) (s : S) : prog (S * loop_end) :=
  match fuel with
  | O => OutOfFuel
  | Datatypes.S fuel' =>
      r ← delta path epoch n;
      match r with
      | Err e => mret (s, if errors_Is e ErrNotCommitted then LDone n else LErr e)
      | Ok d =>
          let '(s, continue) := body n (d_Groups d) s in
          if continue : bool then forOpen fuel' path epoch (u64 (n + 1)) body s
          else mret (s, LStop)
      end
  end.

(** A loop over sealed runs, skipping those [include] rejects in the current
    state. *)
Fixpoint forSealed {S} (path : TrackPath) (epoch : N) (refs : list sealedRef)
    (include : sealedRef → S → bool) (body : sealedRef → list GroupInfo → S → S * bool) (s : S)
    : prog (S * loop_end) :=
  match refs with
  | [] => mret (s, LDone 0)
  | ref :: refs' =>
      if negb (include ref s) then forSealed path epoch refs' include body s
      else
        r ← sealed path epoch ref;
        match r with
        | Err e => mret (s, LErr e)
        | Ok sm =>
            let '(s, continue) := body ref (s_Groups sm) s in
            if continue : bool then forSealed path epoch refs' include body s
            else mret (s, LStop)
        end
  end.

(** ** Lookup *)

Definition find_group (id : GroupID) (gs : list GroupInfo) : option GroupInfo :=
  list_find (λ g, ID g = id) gs ≫= λ p, Some p.2.

Definition lookup_body (id : GroupID) (gs : list GroupInfo) (s : option GroupInfo)
    : option GroupInfo * bool :=
  match find_group id gs with
  | Some g => (Some g, false)
  | None => (s, true)
  end.

Definition Lookup (fuel : nat) (r : Reader) (id : GroupID) : prog (result GroupInfo) :=
  let epoch := Epoch id in
  if (epoch =? 0)%N || (latest r <? epoch)%N then mret (Err [ErrGroupNotFound])
  else
    got ← fetchEpochLog (r_path r) epoch;
    match got with
    | Err e => mret (Err e)
    | Ok (root, _) =>
        got ← forOpen fuel (r_path r) epoch (OpenFrom root) (λ _, lookup_body id) None;
        match got with
        | (Some g, LStop) => mret (Ok g)
        | (_, LErr e) => mret (Err e)
        | _ =>
            got ← forSealed (r_path r) epoch (Sealed root) (λ _ _, true) (λ _, lookup_body id) None;
            mret match got with
            | (Some g, LStop) => Ok g
            | (_, LErr e) => Err e
            | _ => Err [ErrGroupNotFound]
            end
        end
    end.

(** ** Iteration

    An [iter.Seq2[GroupInfo, error]] calls [yield] with each value until it
    answers false. [yield]'s own state is threaded through. *)

Definition Seq2 : Type := ∀ S : Type, (S → result GroupInfo → S * bool) → S → prog S.

(** Yield every group of a segment; false when [yield] stopped. *)
Fixpoint yield_all {S} (yield : S → result GroupInfo → S * bool) (gs : list GroupInfo) (s : S)
    : S * bool :=
  match gs with
  | [] => (s, true)
  | g :: gs' =>
      let '(s, continue) := yield s (Ok g) in
      if continue : bool then yield_all yield gs' s else (s, false)
  end.

(** [walk]'s epoch loop. *)
Fixpoint walk_epochs {S} (fuel : nat) (r : Reader) (include : sealedRef → bool)
    (yield : S → result GroupInfo → S * bool) (n : nat) (epoch : N) (s : S) : prog S :=
  match n with
  | O => mret s
  | Datatypes.S n' =>
      got ← fetchEpochLog (r_path r) epoch;
      match got with
      | Err e => mret (yield s (Err e)).1
      | Ok (root, _) =>
          got ← forSealed (r_path r) epoch (Sealed root) (λ ref _, include ref)
                  (λ _, yield_all yield) s;
          match got with
          | (s, LErr e) => mret (yield s (Err e)).1
          | (s, LStop) => mret s
          | (s, LDone _) =>
              got ← forOpen fuel (r_path r) epoch (OpenFrom root) (λ _, yield_all yield) s;
              match got with
              | (s, LErr e) => mret (yield s (Err e)).1
              | (s, LStop) => mret s
              | (s, LDone _) => walk_epochs fuel r include yield n' (u64 (epoch + 1)) s
              end
          end
      end
  end.

Definition walk (fuel : nat) (r : Reader) (include : sealedRef → bool) : Seq2 :=
  λ S yield s, walk_epochs fuel r include yield (N.to_nat (latest r)) 1 s.

Definition filterGroups (seq : Seq2) (keep : GroupInfo → bool) : Seq2 :=
  λ S yield s, seq S (λ s r,
    match r with
    | Err e => ((yield s (Err e)).1, false)
    | Ok g => if negb (keep g) then (s, true) else yield s (Ok g)
    end) s.

Definition emptyGroups : Seq2 := λ S yield s, mret s.

Definition RangeMedia (fuel : nat) (r : Reader) (from to : Z) : Seq2 :=
  if (to <=? from)%Z then emptyGroups
  else filterGroups
    (walk fuel r (λ ref, (MediaStart ref <? to)%Z && (from <? MediaEnd ref)%Z))
    (λ g, overlapsMedia g from to).

Definition RangeWallclock (fuel : nat) (r : Reader) (from to : Z) : Seq2 :=
  if (to <=? from)%Z then emptyGroups
  else
    let timescale := Timescale (r_schema r) in
    filterGroups
      (walk fuel r (λ ref, (WallclockStart ref =? 0)%Z || (WallclockStart ref <? to)%Z))
      (λ g, overlapsWallclock g from to timescale).

(** A caller that takes everything: the groups in order, and the terminal error. *)
Definition collect (seq : Seq2) : prog (list GroupInfo * option error) :=
  seq _ (λ s r,
    match r with
    | Ok g => (((s.1 ++ [g])%list, s.2), true)
    | Err e => ((s.1, Some e), true)
    end) ([], None).

(** ** Streaming *)

Definition rootRecheckEvery : N := 8.

Definition SeekStart (r : Reader) : Reader :=
  {| r with r_epoch := 1; r_logRoot := epoch1Log r;
     next := 0; idx := 0; batch := []; r_last := 0; misses := 0 |}.

Definition SeekTip (r : Reader) : prog (Reader * option error) :=
  got ← loadEpoch r (latest r);
  let '(r, err) := got in
  match err with
  | Some e => mret (r, Some e)
  | None =>
      got ← fetchHead (r_path r) (latest r);
      let rest (r : Reader) := {| r with idx := 0; batch := []; r_last := 0; misses := 0 |} in
      mret match got with
      | Err e =>
          if errors_Is e ErrNotExist then (rest {| r with next := 0 |}, None) else (r, Some e)
      | Ok (h, _) => (rest {| r with next := u64 (Delta h + 1) |}, None)
      end
  end.

(** The first index of a segment whose sequence exceeds [seq]. *)
Definition first_after (seq : N) (gs : list GroupInfo) : option nat :=
  list_find (λ g, (seq < Sequence (ID g))%N) gs ≫= λ p, Some p.1.

Definition locate_body (seq : N) (after : N) (gs : list GroupInfo)
    (s : option (list GroupInfo * nat * N)) : option (list GroupInfo * nat * N) * bool :=
  match first_after seq gs with
  | Some i => (Some (gs, i, after), false)
  | None => (s, true)
  end.

(** [locateAfter]: the segment, the index in it and the delta to resume at; an
    empty segment parks at the tip. *)
Definition locateAfter (fuel : nat) (r : Reader) (root : epochLogRoot) (seq : N)
    : prog (result (list GroupInfo * nat * N)) :=
  got ← forSealed (r_path r) (r_epoch r) (Sealed root)
          (λ sref _, negb (Sequence (Last sref) <=? seq)%N)
          (λ sref, locate_body seq (u64 (LastDelta sref + 1))) None;
  match got with
  | (_, LErr e) => mret (Err e)
  | (Some found, LStop) => mret (Ok found)
  | _ =>
      got ← forOpen fuel (r_path r) (r_epoch r) (OpenFrom root)
              (λ n, locate_body seq (u64 (n + 1))) None;
      mret match got with
      | (_, LErr e) => Err e
      | (Some found, LStop) => Ok found
      | (_, LDone n) => Ok ([], 0, n)
      | (None, LStop) => Ok ([], 0, 0%N)
      end
  end.

Definition SeekAfter (fuel : nat) (r : Reader) (id : GroupID) : prog (Reader * option error) :=
  if (id =? 0)%N then mret (SeekStart r, None)
  else
    let epoch := if (latest r <? Epoch id)%N then latest r else Epoch id in
    got ← loadEpoch r epoch;
    let '(r, err) := got in
    match err with
    | Some e => mret (r, Some e)
    | None =>
        got ← locateAfter fuel r (r_logRoot r) (Sequence id);
        mret match got with
        | Err e => (r, Some e)
        | Ok (seg, i, after) =>
            ({| r with batch := seg; idx := i; next := after; r_last := 0; misses := 0 |}, None)
        end
    end.

(** [Reader.position] *)
Definition position (r : Reader) (epoch : N) (seg : list GroupInfo) (i : nat) (after : N) : Reader :=
  {| r with r_epoch := epoch; batch := seg; idx := i; next := after; r_last := 0; misses := 0 |}.

Fixpoint sealedCovering_in (refs : list sealedRef) (d : N) : option sealedRef :=
  match refs with
  | [] => None
  | ref :: refs' =>
      if (FirstDelta ref <=? d)%N && (d <=? LastDelta ref)%N then Some ref
      else sealedCovering_in refs' d
  end.

Definition sealedCovering (root : epochLogRoot) (d : N) : option sealedRef :=
  sealedCovering_in (Sealed root) d.

Fixpoint Next (fuel : nat) (r : Reader) : prog (Reader * result GroupInfo) :=
  match fuel with
  | O => OutOfFuel
  | Datatypes.S fuel' =>
      match batch r !! idx r with
      | Some group =>
          mret ({| r with idx := Datatypes.S (idx r); r_last := ID group |}, Ok group)
      | None =>
          if (next r <? OpenFrom (r_logRoot r))%N then
            match sealedCovering (r_logRoot r) (next r) with
            | None => Next fuel' {| r with next := OpenFrom (r_logRoot r) |}
            | Some ref =>
                got ← sealed (r_path r) (r_epoch r) ref;
                match got with
                | Err e => mret (r, Err e)
                | Ok sm =>
                    Next fuel' {| r with batch := s_Groups sm; idx := 0;
                      next := u64 (LastDelta ref + 1); misses := 0 |}
                end
            end
          else
            got ← delta (r_path r) (r_epoch r) (next r);
            match got with
            | Ok d =>
                Next fuel' {| r with batch := d_Groups d; idx := 0;
                  next := u64 (next r + 1); misses := 0 |}
            | Err e =>
                if errors_Is e ErrNotCommitted then
                  if (r_epoch r <? latest r)%N then
                    got ← loadEpoch r (u64 (r_epoch r + 1));
                    let '(r, err) := got in
                    match err with
                    | Some e => mret (r, Err e)
                    | None => Next fuel' r
                    end
                  else
                    let r := {| r with misses := (misses r + 1)%N |} in
                    if (misses r =? 1)%N || (misses r mod rootRecheckEvery =? 0)%N then
                      got ← Refresh r;
                      let '(r, err) := got in
                      mret (r, match err with Some e => Err e | None => Err [EOF] end)
                    else mret (r, Err [EOF])
                else mret (r, Err e)
            end
      end
  end.

(** [Reader.Position] *)
Definition Position (r : Reader) : GroupID := r_last r.

(** ** Seeking by time *)

(** What [seekWithinEpoch] has found so far: the group, its segment, its index
    in it, the delta to resume at, and its anchor. *)
Record candidate := mkCandidate {
  c_group : GroupInfo;
  c_seg : list GroupInfo;
  c_idx : nat;
  c_next : N;
  c_at : Z;
}.

(** [consider] on the group at index [i] of [seg]. *)
Definition consider (anchor : GroupInfo → option Z) (target : Z) (seg : list GroupInfo) (after : N)
    (best : option candidate) (i : nat) (group : GroupInfo) : option candidate :=
  match anchor group with
  | None => best
  | Some at_ =>
      if (target <? at_)%Z then best
      else match best with
      | None => Some (mkCandidate group seg i after at_)
      | Some b => if (c_at b <=? at_)%Z then Some (mkCandidate group seg i after at_) else best
      end
  end.

Fixpoint consider_all (anchor : GroupInfo → option Z) (target : Z) (seg : list GroupInfo) (after : N)
    (i : nat) (gs : list GroupInfo) (best : option candidate) : option candidate :=
  match gs with
  | [] => best
  | g :: gs' =>
      consider_all anchor target seg after (Datatypes.S i) gs'
        (consider anchor target seg after best i g)
  end.

Definition seekWithinEpoch (fuel : nat) (path : TrackPath) (epoch : N) (root : epochLogRoot)
    (target : Z) (anchor : GroupInfo → option Z) (start : sealedRef → option Z)
    : prog (result (option candidate)) :=
  got ← forOpen fuel path epoch (OpenFrom root)
          (λ n gs best, (consider_all anchor target gs (u64 (n + 1)) 0 gs best, true)) None;
  match got with
  | (_, LErr e) => mret (Err e)
  | (best, _) =>
      got ← forSealed path epoch (rev (Sealed root))
        (λ ref best, match best with
                     | Some _ => false
                     | None => match start ref with Some at_ => (at_ <=? target)%Z | None => true end
                     end)
        (λ ref gs best,
          (consider_all anchor target gs (u64 (LastDelta ref + 1)) 0 gs best, true)) best;
      mret match got with
      | (_, LErr e) => Err e
      | (best, _) => Ok best
      end
  end.

(** [seekTime]'s epoch loop, newest first; [n] epochs are left, [n] itself next. *)
Fixpoint seekTime_epochs (fuel : nat) (r : Reader) (target : Z) (anchor : GroupInfo → option Z)
    (stop : GroupInfo → N → option Z) (start : sealedRef → option Z) (n : nat)
    : prog (Reader * result GroupInfo) :=
  match n with
  | O => mret (r, Err [ErrGroupNotFound])
  | Datatypes.S n' =>
      let epoch := N.of_nat n in
      got ← fetchEpochLog (r_path r) epoch;
      match got with
      | Err e => mret (r, Err e)
      | Ok (root, _) =>
          got ← seekWithinEpoch fuel (r_path r) epoch root target anchor start;
          match got with
          | Err e => mret (r, Err e)
          | Ok None => seekTime_epochs fuel r target anchor stop start n'
          | Ok (Some best) =>
              let past := match stop (c_group best) (Timescale (r_schema r)) with
                          | Some at_ => (at_ <=? target)%Z
                          | None => false
                          end in
              mret (if past then (r, Err [ErrGroupNotFound])
                    else (position r epoch (c_seg best) (c_idx best) (c_next best), Ok (c_group best)))
          end
      end
  end.

Definition seekTime (fuel : nat) (r : Reader) (target : Z) (anchor : GroupInfo → option Z)
    (stop : GroupInfo → N → option Z) (start : sealedRef → option Z)
    : prog (Reader * result GroupInfo) :=
  seekTime_epochs fuel r target anchor stop start (N.to_nat (latest r)).

Definition SeekWallclock (fuel : nat) (r : Reader) (unixNano : Z) : prog (Reader * result GroupInfo) :=
  seekTime fuel r unixNano
    (λ g, if hasWallclock g then Some (Wallclock g) else None)
    wallclockEnd
    (λ ref, if (WallclockStart ref =? 0)%Z then None else Some (WallclockStart ref)).

Definition SeekMedia (fuel : nat) (r : Reader) (mediaTime : Z) : prog (Reader * result GroupInfo) :=
  seekTime fuel r mediaTime
    (λ g, Some (MediaTime g))
    (λ g _, if hasDuration g then Some (mediaEnd g) else None)
    (λ ref, Some (MediaStart ref)).

(** ** Reading backwards (ledger/before.go) *)

Definition noDelta : N := 18446744073709551615.

(** The probe of [lastDelta] past the head pointer. *)
Fixpoint lastDelta_loop (fuel : nat) (path : TrackPath) (epoch last nxt : N) : prog (result N) :=
  match fuel with
  | O => OutOfFuel
  | Datatypes.S fuel' =>
      r ← store_Get (deltaKey path epoch nxt);
      match r with
      | Err e => mret (if errors_Is e ErrNotExist then Ok last else Err e)
      | Ok _ => lastDelta_loop fuel' path epoch nxt (u64 (nxt + 1))
      end
  end.

Definition lastDelta (fuel : nat) (path : TrackPath) (epoch openFrom : N) : prog (result N) :=
  let probe (last : N) :=
    lastDelta_loop fuel path epoch last (if (last =? noDelta)%N then openFrom else u64 (last + 1)) in
  r ← fetchHead path epoch;
  match r with
  | Err e => if errors_Is e ErrNotExist then probe noDelta else mret (Err e)
  | Ok (h, _) => probe (if (openFrom <=? Delta h)%N then Delta h else noDelta)
  end.

(** [take]: newest group first, those at or after [id] skipped, true once [n]
    are held. The accumulator is newest first. *)
Fixpoint take (id : GroupID) (n : nat) (newest_first : list GroupInfo) (groups : list GroupInfo)
    : list GroupInfo * bool :=
  match newest_first with
  | [] => (groups, false)
  | g :: rest =>
      if negb (id =? 0)%N && (0 <=? Compare (ID g) id)%Z then take id n rest groups
      else
        let groups := (groups ++ [g])%list in
        if Nat.eqb (length groups) n then (groups, true) else take id n rest groups
  end.

(** How [beforeIn] ended, with the groups taken. *)
Inductive before_end : Type :=
  | BFull
  | BResealed
  | BDone
  | BErr (e : error).

Fixpoint before_deltas (fuel : nat) (path : TrackPath) (epoch openFrom d : N) (id : GroupID) (n : nat)
    (groups : list GroupInfo) : prog (list GroupInfo * before_end) :=
  match fuel with
  | O => OutOfFuel
  | Datatypes.S fuel' =>
      if (openFrom <=? d)%N && negb (d =? noDelta)%N then
        r ← delta path epoch d;
        match r with
        | Err e =>
            mret (groups, if errors_Is e ErrNotCommitted then BResealed else BErr e)
        | Ok dm =>
            let '(groups, full) := take id n (rev (d_Groups dm)) groups in
            if full : bool then mret (groups, BFull)
            else before_deltas fuel' path epoch openFrom (u64_sub d 1) id n groups
        end
      else mret (groups, BDone)
  end.

Definition beforeIn (fuel : nat) (r : Reader) (epoch : N) (id : GroupID) (n : nat)
    (groups : list GroupInfo) : prog (list GroupInfo * before_end) :=
  got ← fetchEpochLog (r_path r) epoch;
  match got with
  | Err e => mret (groups, BErr e)
  | Ok (root, _) =>
      got ← lastDelta fuel (r_path r) epoch (OpenFrom root);
      match got with
      | Err e => mret (groups, BErr e)
      | Ok last =>
          got ← before_deltas fuel (r_path r) epoch (OpenFrom root) last id n groups;
          match got with
          | (groups, BDone) =>
              got ← forSealed (r_path r) epoch (rev (Sealed root))
                (λ ref _, negb (negb (id =? 0)%N && (0 <=? Compare (First ref) id)%Z))
                (λ _ gs groups, let '(groups, full) := take id n (rev gs) groups in
                                (groups, negb full)) groups;
              mret match got with
              | (groups, LErr e) => (groups, BErr e)
              | (groups, LStop) => (groups, BFull)
              | (groups, LDone _) => (groups, BDone)
              end
          | ended => mret ended
          end
      end
  end.

Definition beforeAttempts : nat := 3.

(** The attempts at one epoch: [Before] reads it again, from the groups held
    when it began, while a seal moves its groups under it. *)
Fixpoint before_attempts (fuel : nat) (r : Reader) (epoch : N) (id : GroupID) (n : nat)
    (start : list GroupInfo) (left : nat) : prog (list GroupInfo * before_end) :=
  got ← beforeIn fuel r epoch id n start;
  match got with
  | (_, BResealed) =>
      match left with
      | O => mret (start, BErr [])
      | Datatypes.S left' => before_attempts fuel r epoch id n start left'
      end
  | ended => mret ended
  end.

Fixpoint before_epochs (fuel : nat) (r : Reader) (id : GroupID) (n : nat) (epochs : nat)
    (groups : list GroupInfo) : prog (result (list GroupInfo)) :=
  match epochs with
  | O => mret (Ok (rev groups))
  | Datatypes.S epochs' =>
      got ← before_attempts fuel r (N.of_nat epochs) id n groups (beforeAttempts - 1);
      match got with
      | (_, BErr e) => mret (Err e)
      | (groups, BFull) => mret (Ok (rev groups))
      | (groups, _) => before_epochs fuel r id n epochs' groups
      end
  end.

Definition Before (fuel : nat) (r : Reader) (id : GroupID) (n : Z) : prog (result (list GroupInfo)) :=
  if (n <=? 0)%Z then mret (Ok [])
  else
    let epoch := if negb (id =? 0)%N && (Epoch id <? latest r)%N then Epoch id else latest r in
    before_epochs fuel r id (Z.to_nat n) (N.to_nat epoch) [].
