(* ===== verification/Inspect.v ===== *)
(** * The example reader (examples/inspect-follow/main.go) and the build it reports
    (internal/version/version.go)

    A command prints lines and ends: by returning, by [os.Exit] or in a panic. Its
    poll loop waits for a tick of its ticker; [ticks] is how many come before the
    context is canceled. What [fs.New] answers, [time.ParseDuration] and the build
    information are parameters. *)

From S2P Require Import Prelude GoStd Dates Json Store Group Manifest Track Reader.
#[local] Open Scope string_scope.
#[local] Open Scope list_scope.

(** ** Package flag *)

Module flag.

(** The flags given, the last of a name counting; [None] is a bad command line. *)
Definition values : Type := gmap string string.

Inductive parsed : Type :=
  | Parsed (vs : values)
  | Help
  | Bad.

(** [strconv.ParseBool] *)
Definition ParseBool (s : string) : option bool :=
  if bool_decide (s ∈ ["1"; "t"; "T"; "TRUE"; "true"; "True"]) then Some true
  else if bool_decide (s ∈ ["0"; "f"; "F"; "FALSE"; "false"; "False"]) then Some false
  else None.

(** What a flag takes: [-name] alone sets a boolean. *)
Inductive kind : Type := KBool | KValue (valid : string → bool).

(** Whether an argument is a flag: what follows the dashes. *)
Definition dash (s : string) : option string :=
  match s with
  | String "-" (String "-" name) => Some name
  | String "-" (String c name) => Some (String c name)
  | _ => None
  end.

Definition split_value (name : string) : string * option string :=
  match name with
  | EmptyString => ("", None)
  | String c rest =>
      match Cut rest "=" with
      | Some (n, v) => (String c n, Some v)
      | None => (name, None)
      end
  end.

Definition bad_name (name : string) : bool :=
  match name with EmptyString | String "-" _ | String "=" _ => true | _ => false end.

(** [FlagSet.Parse]: up to the first argument that is not a flag, or past ["--"]. *)
Fixpoint Parse (formal : list (string * kind)) (args : list string) (vs : values) : parsed :=
  match args with
  | [] => Parsed vs
  | arg :: args' =>
      match dash arg with
      | None => Parsed vs
      | Some text =>
          if String.eqb arg "--" then Parsed vs
          else if bad_name text then Bad
          else
            let '(name, value) := split_value text in
            match List.find (λ f, String.eqb f.1 name) formal with
            | None => if String.eqb name "help" || String.eqb name "h" then Help else Bad
            | Some (_, KBool) =>
                match ParseBool (default "true" value) with
                | Some b => Parse formal args' (<[name := if b then "true" else "false"]> vs)
                | None => Bad
                end
            | Some (_, KValue valid) =>
                match value, args' with
                | Some v, _ => if valid v then Parse formal args' (<[name := v]> vs) else Bad
                | None, v :: args'' => if valid v then Parse formal args'' (<[name := v]> vs) else Bad
                | None, [] => Bad
                end
            end
      end
  end.

Definition get (vs : values) (name fallback : string) : string := default fallback (vs !! name).
Definition get_bool (vs : values) (name : string) : bool := bool_decide (vs !! name = Some "true").
End flag.

(** ** Package text/tabwriter

    [NewWriter(out, 0, 0, 2, ' ', 0)] over rows that all have the same number of
    cells: every cell but a row's last is padded to two past the widest of its
    column. *)

Module tabwriter.
Definition width (rows : list (list string)) (i : nat) : nat :=
  list_max (map (λ row, String.length (nth i row "")) rows).

Fixpoint line (rows : list (list string)) (i : nat) (cells : list string) : string :=
  match cells with
  | [] => ""
  | [last] => last
  | cell :: cells' =>
      cell +:+ repeat_char " " (width rows i + 2 - String.length cell) +:+ line rows (S i) cells'
  end.

Definition lines (rows : list (list string)) : list string := map (line rows 0) rows.
End tabwriter.

(** ** Package version *)

Module version.
Record Info := mkInfo { Version : string; Commit : string; Date : string; Go : string }.

(** The variables, as they are when the linker sets none. *)
Definition unstamped : string * string * string := ("dev", "none", "unknown").

(** What [debug.ReadBuildInfo] answers. *)
Record BuildInfo := mkBuildInfo { GoVersion : string; Settings : list (string * string) }.

Definition setting (info : Info) (s : string * string) : Info :=
  if String.eqb s.1 "vcs.revision" then
    if String.eqb (Commit info) "none" then {| info with Commit := s.2 |} else info
  else if String.eqb s.1 "vcs.time" then
    if String.eqb (Date info) "unknown" then {| info with Date := s.2 |} else info
  else info.

Definition Get (stamps : string * string * string) (build : option BuildInfo) : Info :=
  let '(version, commit, date) := stamps in
  let info := mkInfo version commit date "unknown" in
  match build with
  | None => info
  | Some b => foldl setting {| info with Go := GoVersion b |} (Settings b)
  end.
End version.

(** ** The commands *)

Module inspect_follow.

(** How a command ends. *)
Inductive ending : Type :=
  | Returns (err : option error)
  | Exits (code : Z)
  | Panics.

(** The lines printed on standard output, and the end. *)
Abbreviation command := (prog (list string * ending)).

Definition failed (e : error) : command := mret ([], Returns (Some e)).

Definition openTrack (fs_New : string → option error) (root path : string) : prog (result Track) :=
  match fs_New root with
  | Some e => mret (Err e)
  | None => ledger.Open path (mkConfig 0)
  end.

Definition inspect_header (info : TrackInfo) : list string :=
  let sch := ti_Schema info in
  ["track       " +:+ ti_Track info;
   "timescale   " +:+ FormatUint (Timescale sch) +:+ " units/sec (" +:+ TimeSource sch +:+ ")";
   "encoding    " +:+ ts_Encoding sch +:+ " " +:+ ts_MIME sch;
   "epochs      " +:+ FormatUint (ti_LatestEpoch info)].

Definition column_names : list string := ["GROUP"; "MEDIA"; "WALLCLOCK"; "OBJECTS"; "SIZE"].

Definition inspect_cells (group : GroupInfo) : list string :=
  let media := FormatInt (MediaTime group) in
  let media := if (0 <? Duration group)%Z
    then media +:+ ".." +:+ FormatInt (i64 (MediaTime group + Duration group)) else media in
  let wallclock := if negb (Wallclock group =? 0)%Z then RFC3339Nano (Wallclock group) else "-" in
  [GroupID_String (ID group); media; wallclock; FormatUint (ObjectCount group); FormatInt (Size group)].

(** The loop of [inspect]: the rows written when it leaves it, and the error it
    leaves it with. *)
Fixpoint inspect_loop (n fuel : nat) (r : Reader) : prog (list (list string) * option error) :=
  match n with
  | O => OutOfFuel
  | S n' =>
      got ← Next fuel r;
      let '(r, res) := got in
      match res with
      | Err e => mret ([], if errors_Is e EOF then None else Some e)
      | Ok group =>
          rest ← inspect_loop n' fuel r;
          mret (inspect_cells group :: rest.1, rest.2)
      end
  end.

Section Commands.
Context (fs_New : string → option error) (ParseDuration : string → option Z).

Definition inspect_flags : list (string * flag.kind) :=
  [("root", flag.KValue (λ _, true)); ("track", flag.KValue (λ _, true)); ("groups", flag.KBool)].

Definition inspect (fuel : nat) (args : list string) : command :=
  match flag.Parse inspect_flags args ∅ with
  | flag.Help => mret ([], Exits 0)
  | flag.Bad => mret ([], Exits 2)
  | flag.Parsed vs =>
      let track := flag.get vs "track" "" in
      if String.eqb track "" then failed []
      else
        got ← openTrack fs_New (flag.get vs "root" ".") track;
        match got with
        | Err e => failed e
        | Ok track_ =>
            let header := inspect_header (Track_Root track_) in
            if negb (flag.get_bool vs "groups") then mret (header, Returns None)
            else
              let header := header ++ [""] in
              got ← Track_Reader track_;
              match got with
              | Err e => mret (header, Returns (Some e))
              | Ok reader =>
                  out ← inspect_loop fuel fuel (SeekStart reader);
                  mret (header ++ tabwriter.lines (column_names :: out.1), Returns out.2)
              end
        end
  end.

Definition DefaultPollInterval : Z := 500000000.

Definition follow_flags : list (string * flag.kind) :=
  [("root", flag.KValue (λ _, true)); ("track", flag.KValue (λ _, true)); ("group", flag.KValue (λ _, true));
   ("tip", flag.KBool);
   ("interval", flag.KValue (λ s, bool_decide (is_Some (ParseDuration s))))].

Definition follow_line (group : GroupInfo) : string :=
  "group " +:+ GroupID_String (ID group) +:+ "  media " +:+ FormatInt (MediaTime group) +:+ "+" +:+
  FormatInt (Duration group) +:+ "  " +:+ FormatUint (ObjectCount group) +:+ " objects  " +:+
  FormatInt (Size group) +:+ " bytes".

(** The poll loop; [n] counts the calls of [Next], [ticks] those of the ticker before
    the context is canceled. *)
Fixpoint follow_loop (n fuel ticks : nat) (r : Reader) : command :=
  match n with
  | O => OutOfFuel
  | S n' =>
      got ← Next fuel r;
      let '(r, res) := got in
      match res with
      | Err e =>
          if errors_Is e EOF then
            match ticks with
            | O => failed [Canceled]
            | S ticks' => follow_loop n' fuel ticks' r
            end
          else failed e
      | Ok group =>
          rest ← follow_loop n' fuel ticks r;
          mret (follow_line group :: rest.1, rest.2)
      end
  end.

(** Where [follow] starts. *)
Definition follow_seek (fuel : nat) (group : string) (tip : bool) (reader : Reader)
    : prog (Reader * option error) :=
  if negb (String.eqb group "") then
    match ParseGroupID group with
    | Err e => mret (reader, Some e)
    | Ok id => SeekAfter fuel reader id
    end
  else if tip then SeekTip reader
  else mret (SeekStart reader, None).

Definition follow (n fuel ticks : nat) (args : list string) : command :=
  match flag.Parse follow_flags args ∅ with
  | flag.Help => mret ([], Exits 0)
  | flag.Bad => mret ([], Exits 2)
  | flag.Parsed vs =>
      let track := flag.get vs "track" "" in
      if String.eqb track "" then failed []
      else
        got ← openTrack fs_New (flag.get vs "root" ".") track;
        match got with
        | Err e => failed e
        | Ok track_ =>
            got ← Track_Reader track_;
            match got with
            | Err e => failed e
            | Ok reader =>
                got ← follow_seek fuel (flag.get vs "group" "") (flag.get_bool vs "tip") reader;
                match got with
                | (_, Some e) => failed e
                | (reader, None) =>
                    let interval := default DefaultPollInterval (vs !! "interval" ≫= ParseDuration) in
                    (* time.NewTicker panics on a non-positive interval *)
                    if (interval <=? 0)%Z then mret ([], Panics)
                    else follow_loop n fuel ticks reader
                end
            end
        end
  end.

Definition version_line (info : version.Info) : string :=
  "inspect-follow " +:+ version.Version info +:+ " (" +:+ version.Commit info +:+ ", built " +:+
  version.Date info +:+ ", " +:+ version.Go info +:+ ")".

Definition run (info : version.Info) (n fuel ticks : nat) (args : list string) : command :=
  match args with
  | [] => mret ([], Returns None)
  | arg :: args' =>
      if String.eqb arg "inspect" then inspect fuel args'
      else if String.eqb arg "follow" then follow n fuel ticks args'
      else if String.eqb arg "version" then mret ([version_line info], Returns None)
      else if bool_decide (arg ∈ ["help"; "-h"; "--help"]) then mret ([], Returns None)
      else failed []
  end.

(** [main]: the status the process ends with. A panic is status 2. *)
Definition main (info : version.Info) (n fuel ticks : nat) (args : list string) : prog (list string * Z) :=
  out ← run info n fuel ticks args;
  mret (out.1, match out.2 with
    | Returns None => 0%Z
    | Returns (Some _) => 1%Z
    | Exits code => code
    | Panics => 2%Z
    end).
End Commands.
End inspect_follow.
