(* ===== verification/EpochLog.v ===== *)
(** * The committed log of an epoch

    What the objects of one epoch mean: the sequence of committed groups. The
    delta numbered [n] holds the group at index [n] of the sequence; a sealed
    manifest over deltas [f] to [l] holds the groups from [f] to [l]; the log root
    lists consecutive sealed runs from delta 0 up to [OpenFrom], and the deltas
    from there to the end of the sequence are stored.

    [epoch_log m root gs] is that reading of the objects [m]. The lemmas of the
    last part are the writes of the ledger, each with what it does to the log;
    only the creation of the delta past the end extends it. *)

From S2P Require Import Prelude GoStd Json Store Group Manifest Track.

(** The object at [k] holds [a]. *)
Definition holds_manifest `{Manifest A} (o : bytes * Version) (a : A) : Prop :=
  decodeManifest o.1 = Ok a.

Definition stored_as `{Manifest A} (m : objs) (k : string) (a : A) : Prop :=
  ∃ o, m !! k = Some o ∧ holds_manifest o a.

(** The groups with numbers [f] to [l]. *)
Definition span (f l : N) (gs : list GroupInfo) : list GroupInfo :=
  list.take (N.to_nat (l + 1 - f)) (drop (N.to_nat f) gs).

(** Each group starts at or after the end of the one before it. *)
Fixpoint serial (gs : list GroupInfo) : Prop :=
  match gs with
  | a :: (b :: _) as rest => (mediaEnd a <= MediaTime b)%Z ∧ serial rest
  | _ => True
  end.

(** The extent does not leave the timeline. *)
Definition extent_ok (g : GroupInfo) : Prop :=
  (0 <= Duration g)%Z ∧ is_i64 (MediaTime g + Duration g)%Z.

Definition log_size (gs : list GroupInfo) : N := N.of_nat (length gs).

(** Bounds on the log that leave its numbering within a [uint64]. *)
Definition room (gs : list GroupInfo) : Prop := (log_size gs < 2 ^ 62)%N.

Section EpochLog.
Context (p : TrackPath) (e : N).

(** A row as the writer commits it. *)
Definition row_ok (g : GroupInfo) : Prop :=
  wf_GroupInfo g ∧ extent_ok g ∧ Epoch (ID g) = e ∧ ObjectKey g = groupKey p (ID g).

(** The log root's entry for the run of deltas [f] to [l]. *)
Definition run_ref (f l : N) (gs : list GroupInfo) : sealedRef :=
  summarize (mkSealed manifestVersion p e 0 f l (span f l gs) 0) (sealedKey p e f l).

(** Consecutive runs from delta [f] up to, not including, delta [n]. *)
Inductive runs (gs : list GroupInfo) : N → list sealedRef → N → Prop :=
  | runs_nil n : runs gs n [] n
  | runs_cons f l refs n :
      (f <= l)%N → runs gs (l + 1) refs n → runs gs f (run_ref f l gs :: refs) n.

Definition sealed_ok (sm : sealedManifest) (f l : N) (gs : list GroupInfo) : Prop :=
  s_Track sm = p ∧ s_Epoch sm = e ∧ s_FirstDelta sm = f ∧ s_LastDelta sm = l ∧
  s_Groups sm = span f l gs.

(** A log root that describes the log: the one stored, or an older one. *)
Record root_ok (m : objs) (root : epochLogRoot) (gs : list GroupInfo) : Prop := {
  ro_track : el_Track root = p;
  ro_epoch : el_Epoch root = e;
  ro_version : el_Version root = manifestVersion;
  ro_created : is_i64 (el_CreatedAt root);
  ro_runs : runs gs 0 (Sealed root) (OpenFrom root);
  ro_open : (OpenFrom root <= log_size gs)%N;
  ro_stored : Forall (λ ref, is_Some (m !! Key ref)) (Sealed root);
}.

Record epoch_log (m : objs) (root : epochLogRoot) (gs : list GroupInfo) : Prop := {
  log_root : stored_as m (epochLogKey p e) root;
  log_root_ok : root_ok m root gs;
  log_sealed f l o : is_u64 f → is_u64 l → m !! sealedKey p e f l = Some o →
    (f <= l < log_size gs)%N ∧ ∃ sm, holds_manifest o sm ∧ sealed_ok sm f l gs;
  log_delta n o : is_u64 n → m !! deltaKey p e n = Some o →
    ∃ g d, gs !! N.to_nat n = Some g ∧ holds_manifest o d ∧ d_Groups d = [g];
  log_open n : (OpenFrom root <= n < log_size gs)%N → is_Some (m !! deltaKey p e n);
  log_head o : m !! headKey p e = Some o →
    ∃ h, holds_manifest o h ∧ (Delta h < log_size gs)%N;
  log_rows : Forall row_ok gs;
  log_serial : serial gs;
  log_room : room gs;
}.

(** The marker of a redacted group. *)
Definition marker (id : GroupID) : string := render p (KRedacted (Epoch id) (Sequence id)).

(** Every committed group has its payload, and no two share an identity, but for
    groups that are marked redacted. *)
Record payloads (m : objs) (gs : list GroupInfo) : Prop := {
  pl_stored g : g ∈ gs →
    (∃ data v, m !! ObjectKey g = Some (data, v) ∧ Z.of_nat (String.length data) = Size g) ∨
    is_Some (m !! marker (ID g));
  pl_ids i j a b : gs !! i = Some a → gs !! j = Some b → ID a = ID b → i = j ∨ is_Some (m !! marker (ID a));
}.

End EpochLog.

(** The path and epoch of a log that can be stored and read back. *)
Record log_params (p : TrackPath) (e : N) : Prop := {
  lp_path : valid_utf8 p = true;
  lp_epoch : (0 < e <= maxGroupEpoch)%N;
}.

(** ** Keys *)

Lemma pad_ascii w n : all_chars (λ c, byte_of c <? 128)%N (pad w n) = true.
Proof.
  eapply all_chars_impl; [|apply pad_all_digits]. intros c. by destruct c as [[][][][][][][][]].
Qed.

Lemma epoch_suffix_ascii k : all_chars (λ c, byte_of c <? 128)%N (epoch_suffix k) = true.
Proof. destruct k; try done; simpl; repeat (rewrite ?all_chars_app, ?pad_ascii; simpl); done. Qed.

Lemma render_utf8 p k : valid_utf8 p = true → valid_utf8 (render p k) = true.
Proof.
  intros Hp.
  destruct k; unfold render; apply valid_utf8_app; try done; apply valid_utf8_ascii; try done;
    unfold epochDir; repeat (rewrite ?all_chars_app, ?pad_ascii, ?epoch_suffix_ascii; simpl); done.
Qed.

Lemma render_insert_ne (m : objs) p k1 k2 x :
  wf_key k1 → wf_key k2 → k1 ≠ k2 → <[render p k1 := x]> m !! render p k2 = m !! render p k2.
Proof. intros. apply lookup_insert_ne. by apply render_ne. Qed.

Lemma render_delete_ne (m : objs) p k1 k2 :
  wf_key k1 → wf_key k2 → k1 ≠ k2 → delete (render p k1) m !! render p k2 = m !! render p k2.
Proof. intros. apply lookup_delete_ne. by apply render_ne. Qed.

(** ** Spans and runs *)

Lemma span_all f l gs :
  (l + 1 = log_size gs)%N → span f l gs = drop (N.to_nat f) gs.
Proof.
  unfold span, log_size. intros Hl. rewrite take_ge; [done|]. rewrite length_drop. lia.
Qed.

Lemma span_length f l gs :
  (f <= l < log_size gs)%N → length (span f l gs) = N.to_nat (l + 1 - f).
Proof. unfold span, log_size. intros. rewrite length_take, length_drop. lia. Qed.

Lemma span_snoc f l gs g : (f <= l < log_size gs)%N → span f l (gs ++ [g]) = span f l gs.
Proof.
  unfold span, log_size. intros H. rewrite drop_app_le by lia. apply take_app_le.
  rewrite length_drop. lia.
Qed.

Lemma log_size_snoc gs g : log_size (gs ++ [g]) = (log_size gs + 1)%N.
Proof. unfold log_size. rewrite length_app. simpl. lia. Qed.

Lemma runs_le p e gs f refs n : runs p e gs f refs n → (f <= n)%N.
Proof. induction 1; lia. Qed.

Lemma runs_snoc p e gs f refs n l :
  runs p e gs f refs n → (n <= l)%N → runs p e gs f (refs ++ [run_ref p e n l gs]) (l + 1).
Proof. induction 1; intros; simpl; constructor; auto. constructor. Qed.

Lemma runs_extend p e gs g f refs n :
  runs p e gs f refs n → (n <= log_size gs)%N → runs p e (gs ++ [g]) f refs n.
Proof.
  induction 1 as [|f l refs n Hfl Hr IH]; intros Hn; [constructor|].
  apply runs_le in Hr as Hle. assert (run_ref p e f l gs = run_ref p e f l (gs ++ [g])) as ->.
  { unfold run_ref. rewrite span_snoc; [done|lia]. }
  constructor; auto.
Qed.

Lemma runs_elem p e gs f refs n ref :
  runs p e gs f refs n → ref ∈ refs →
  ∃ a b, (f <= a <= b)%N ∧ (b < n)%N ∧ ref = run_ref p e a b gs.
Proof.
  induction 1 as [|f l refs n Hfl Hr IH]; intros Hin; [by apply not_elem_of_nil in Hin|].
  apply runs_le in Hr. apply elem_of_cons in Hin as [->|Hin].
  - exists f, l. split; [lia|]. split; [lia|done].
  - destruct (IH Hin) as (a & b & ? & ? & ->). exists a, b. split; [lia|]. done.
Qed.

(** The groups of the sealed runs, in order, are the groups below [n]. *)
Lemma runs_groups p e gs f refs n :
  runs p e gs f refs n → (n <= log_size gs)%N →
  concat (map (λ ref, span (FirstDelta ref) (LastDelta ref) gs) refs) ++ drop (N.to_nat n) gs =
  drop (N.to_nat f) gs.
Proof.
  unfold log_size. induction 1 as [|f l refs n Hfl Hr IH]; intros Hn; [done|].
  apply runs_le in Hr. simpl.
  assert (∀ (A B : list GroupInfo) r, (FirstDelta r, LastDelta r) = (f, l) →
    A ++ B = drop (N.to_nat (l + 1)) gs →
    (span (FirstDelta r) (LastDelta r) gs ++ A) ++ B = drop (N.to_nat f) gs) as H.
  { intros A B r [= -> ->] HAB. rewrite <-app_assoc, HAB. unfold span.
    replace (N.to_nat (l + 1)) with (N.to_nat f + N.to_nat (l + 1 - f)) by lia.
    rewrite <-drop_drop. apply take_drop. }
  apply H; [|by apply IH]. unfold run_ref, summarize. simpl. repeat case_match; done.
Qed.

Lemma run_ref_fields p e f l gs :
  Key (run_ref p e f l gs) = sealedKey p e f l ∧ FirstDelta (run_ref p e f l gs) = f ∧
  LastDelta (run_ref p e f l gs) = l.
Proof. unfold run_ref, summarize. simpl. repeat case_match; done. Qed.

Lemma runs_last p e gs f refs n :
  runs p e gs f refs n → (f < n)%N →
  ∃ a b, list.last refs = Some (run_ref p e a b gs) ∧ (a <= b)%N ∧ (b + 1 = n)%N.
Proof.
  induction 1 as [|f l refs n Hfl Hr IH]; intros Hn; [lia|].
  destruct (decide (l + 1 < n)%N) as [Hl|Hl].
  - destruct (IH Hl) as (a & b & Hlast & ? & ?). exists a, b. split; [|done].
    destruct refs; [done|]. done.
  - apply runs_le in Hr as Hle. assert (n = l + 1)%N as -> by lia.
    assert (refs = []) as ->.
    { inversion Hr as [|? l' ? ? Hl' Hr']; [done|]. apply runs_le in Hr'. lia. }
    by exists f, l.
Qed.

(** The summary of a run that holds groups: its last identity and media end. *)
Lemma run_ref_last p e f l gs g :
  (f <= l)%N → gs !! N.to_nat l = Some g →
  Last (run_ref p e f l gs) = ID g ∧ MediaEnd (run_ref p e f l gs) = mediaEnd g.
Proof.
  intros Hfl Hg. apply lookup_lt_Some in Hg as Hlt.
  assert (list.last (span f l gs) = Some g) as Hlast.
  { rewrite last_lookup, span_length by (unfold log_size; lia). unfold span.
    rewrite lookup_take_lt by lia. rewrite lookup_drop. rewrite <-Hg. f_equal. lia. }
  unfold run_ref, summarize. cbn [s_Groups]. destruct (span f l gs) as [|a rest] eqn:E; [done|].
  rewrite Hlast. simpl. by destruct (foldl _ _ _).
Qed.

(** ** What is stored can be read back *)

Lemma summarize_wallclock_range b g :
  is_i64 b.1 → is_i64 b.2 → wf_GroupInfo g →
  is_i64 (summarize_wallclock b g).1 ∧ is_i64 (summarize_wallclock b g).2.
Proof.
  destruct b as [s t]. unfold wf_GroupInfo, wf_group, is_i64. simpl. intros Hs Ht Hg. destruct_and!.
  destruct (hasWallclock g); simpl; [|by split]. split; [case_match|]; lia.
Qed.

Lemma summarize_bounds_range gs : Forall wf_GroupInfo gs → ∀ b,
  is_i64 b.1 → is_i64 b.2 →
  is_i64 (foldl summarize_wallclock b gs).1 ∧ is_i64 (foldl summarize_wallclock b gs).2.
Proof.
  induction 1 as [|g gs Hg Hgs IH]; intros b Hs Ht; simpl; [done|].
  destruct (summarize_wallclock_range b g); auto.
Qed.

Lemma wf_summarize sm key :
  valid_utf8 key = true → is_u64 (s_FirstDelta sm) → is_u64 (s_LastDelta sm) →
  room (s_Groups sm) → Forall wf_GroupInfo (s_Groups sm) → wf_sealedRef (summarize sm key).
Proof.
  intros Hk Hf Hl Hroom Hgs. unfold summarize, wf_sealedRef, room, log_size in *.
  assert (is_i64 0) as H0 by done. assert (is_u64 0) as H0' by done.
  assert (is_i64 (Z.of_nat (length (s_Groups sm)))) as Hlen.
  { unfold is_i64, MinInt64, MaxInt64. lia. }
  destruct (s_Groups sm) as [|g gs] eqn:E; [simpl; auto 20|].
  pose proof (summarize_bounds_range _ Hgs (0, 0)%Z H0 H0) as [Hs Ht].
  destruct (foldl _ _ _) as [s t]. simpl in Hs, Ht.
  assert (wf_GroupInfo (default g (list.last (g :: gs)))) as Hlast.
  { destruct (list.last (g :: gs)) eqn:E'; simpl; [|by inversion Hgs].
    apply last_Some_elem_of in E'. by eapply Forall_forall in Hgs. }
  inversion Hgs as [|? ? Hg]. unfold wf_GroupInfo, wf_group in Hg, Hlast. destruct_and!.
  simpl. unfold mediaEnd. auto 20 with ledger_range.
Qed.

Lemma room_u64 gs n : room gs → (n <= log_size gs)%N → is_u64 n.
Proof. unfold room, is_u64, two64. lia. Qed.

Lemma room_span gs f l : room gs → room (span f l gs).
Proof. unfold room, log_size, span. rewrite length_take, length_drop. lia. Qed.

Lemma row_ok_wf p e gs : Forall (row_ok p e) gs → Forall wf_GroupInfo gs.
Proof. intros H. apply (List.Forall_impl _) with (2 := H). by intros g [? _]. Qed.

Lemma Forall_span (P : GroupInfo → Prop) f l gs : Forall P gs → Forall P (span f l gs).
Proof. intros. by apply Forall_take, Forall_drop. Qed.

Lemma wf_run_ref p e gs f l :
  log_params p e → room gs → Forall (row_ok p e) gs → (f <= l < log_size gs)%N →
  wf_sealedRef (run_ref p e f l gs).
Proof.
  intros [Hp _] Hroom Hgs Hl. apply wf_summarize; simpl.
  - by apply (render_utf8 p (KSealed e f l)).
  - apply (room_u64 gs); [done|lia].
  - apply (room_u64 gs); [done|lia].
  - by apply room_span.
  - by eapply Forall_span, row_ok_wf.
Qed.

Lemma epoch_u64 e : (e <= maxGroupEpoch)%N → is_u64 e.
Proof. change maxGroupEpoch with 16777215%N. unfold is_u64, two64. lia. Qed.

Lemma root_encodable p e m root gs :
  log_params p e → room gs → Forall (row_ok p e) gs → root_ok p e m root gs →
  decodeManifest (encodeManifest root) = Ok root.
Proof.
  intros Hpar Hroom Hgs []. apply decode_encode; simpl; [|lia].
  rewrite ro_track0, ro_epoch0, ro_version0. destruct Hpar as [Hp He].
  split_and!; try done; [by apply epoch_u64, He| |by eapply room_u64].
  apply Forall_forall. intros ref Hin. eapply runs_elem in Hin as (a & b & ? & ? & ->); [|done].
  apply wf_run_ref; [done..|lia].
Qed.

Lemma delta_encodable n g t :
  is_u64 n → wf_GroupInfo g → is_i64 t →
  decodeManifest (encodeManifest (mkDelta manifestVersion n [g] t)) =
    Ok (mkDelta manifestVersion n [g] t).
Proof. intros. apply decode_encode; simpl; [|done]. split_and!; auto; done. Qed.

Lemma head_encodable d id t :
  is_u64 d → is_u64 id → is_i64 t →
  decodeManifest (encodeManifest (mkHead manifestVersion d id t)) = Ok (mkHead manifestVersion d id t).
Proof. intros. apply decode_encode; simpl; [|done]. split_and!; auto; done. Qed.

Lemma sealed_encodable p e s f l gs t :
  log_params p e → is_u64 s → is_u64 f → is_u64 l → Forall wf_GroupInfo gs → is_i64 t →
  decodeManifest (encodeManifest (mkSealed manifestVersion p e s f l gs t)) =
    Ok (mkSealed manifestVersion p e s f l gs t).
Proof.
  intros [Hp He] **. apply decode_encode; simpl; [|done]. split_and!; try done.
  by apply epoch_u64, He.
Qed.

(** ** The writes of the ledger *)

Lemma render_lookup_insert (m : objs) p k1 k2 x :
  wf_key k1 → wf_key k2 →
  <[render p k1 := x]> m !! render p k2 = if decide (k1 = k2) then Some x else m !! render p k2.
Proof.
  intros. case_decide as Hk; [subst; apply lookup_insert_eq|by apply render_insert_ne].
Qed.

Lemma render_lookup_delete (m : objs) p k1 k2 :
  wf_key k1 → wf_key k2 →
  delete (render p k1) m !! render p k2 = if decide (k1 = k2) then None else m !! render p k2.
Proof.
  intros. case_decide as Hk; [subst; apply lookup_delete_eq|by apply render_delete_ne].
Qed.

(** Write the keys of a goal as [render]s. *)
Ltac to_render :=
  change rootKey with (λ p, render p KRoot) in *;
  change epochLogKey with (λ p e, render p (KLog e)) in *;
  change headKey with (λ p e, render p (KHead e)) in *;
  change deltaKey with (λ p e n, render p (KDelta e n)) in *;
  change sealedKey with (λ p e f l, render p (KSealed e f l)) in *;
  cbv beta in *.

(** The objects [epoch_log] is about. *)
Definition log_key (e : N) (k : objkey) : bool :=
  match k with
  | KLog e' | KHead e' | KDelta e' _ | KSealed e' _ _ => (e' =? e)%N
  | KRoot | KGroup _ _ | KRedacted _ _ => false
  end.

Lemma serial_snoc gs g :
  serial gs → (∀ a, list.last gs = Some a → (mediaEnd a <= MediaTime g)%Z) → serial (gs ++ [g]).
Proof.
  induction gs as [|a [|b rest] IH]; intros Hs Hlast; [done|simpl; auto|].
  destruct Hs as [Hab Hs]. split; [done|]. apply IH; auto.
Qed.

Section Writes.
Context (p : TrackPath) (e : N) (Hpar : log_params p e).

#[local] Lemma He : is_u64 e.
Proof. apply epoch_u64, Hpar. Qed.

#[local] Hint Resolve He : ledger_keys.

Lemma root_ok_mono m m' root gs :
  room gs →
  (∀ f l, is_u64 f → is_u64 l → is_Some (m !! sealedKey p e f l) →
     is_Some (m' !! sealedKey p e f l)) →
  root_ok p e m root gs → root_ok p e m' root gs.
Proof.
  intros Hroom Hk []. constructor; auto. rewrite Forall_forall in *. intros ref Hin.
  pose proof (ro_stored0 _ Hin) as Hs.
  eapply runs_elem in Hin as (a & b & ? & ? & Href); [|done].
  destruct (run_ref_fields p e a b gs) as [HK _]. rewrite <-Href in HK. rewrite HK in *.
  apply Hk; [..|done];
    apply (room_u64 gs); auto; lia.
Qed.

Lemma root_ok_snoc m root gs g : root_ok p e m root gs → root_ok p e m root (gs ++ [g]).
Proof.
  intros []. constructor; auto; [by apply runs_extend|]. rewrite log_size_snoc. lia.
Qed.

Lemma epoch_log_frame m m' root gs :
  (∀ k, wf_key k → log_key e k = true → m' !! render p k = m !! render p k) →
  epoch_log p e m root gs → epoch_log p e m' root gs.
Proof.
  intros Hf [].
  assert (∀ k, wf_key k → log_key e k = true → m' !! render p k = m !! render p k) as F by done.
  pose proof He as HE. pose proof (F (KLog e) HE (N.eqb_refl e)) as FL.
  pose proof (F (KHead e) HE (N.eqb_refl e)) as FH.
  assert (∀ n, is_u64 n → m' !! deltaKey p e n = m !! deltaKey p e n) as FD.
  { intros n Hn. by apply (F (KDelta e n)); [|apply N.eqb_refl]. }
  assert (∀ f l, is_u64 f → is_u64 l → m' !! sealedKey p e f l = m !! sealedKey p e f l) as FS.
  { intros f l ??. by apply (F (KSealed e f l)); [|apply N.eqb_refl]. }
  constructor; auto.
  - destruct log_root0 as (o & Ho & ?). exists o. split; [|done].
    by rewrite <-Ho.
  - eapply root_ok_mono; [done| |done]. intros f l ??. by rewrite FS.
  - intros f l o Hfu Hlu. rewrite FS by done. by apply log_sealed0.
  - intros n o Hn. rewrite FD by done. by apply log_delta0.
  - intros n Hn. rewrite FD; [by apply log_open0|]. apply (room_u64 gs); [done|lia].
  - intros o Ho. apply log_head0. by rewrite <-Ho.
Qed.

(** Writing an object that is none of the log's. *)
Lemma epoch_log_insert_other m root gs k x :
  wf_key k → log_key e k = false → epoch_log p e m root gs →
  epoch_log p e (<[render p k := x]> m) root gs.
Proof.
  intros Hk Hl. apply epoch_log_frame. intros k' Hk' Hl'. apply render_insert_ne; auto.
  intros ->. congruence.
Qed.

Lemma epoch_log_delete_other m root gs k :
  wf_key k → log_key e k = false → epoch_log p e m root gs →
  epoch_log p e (delete (render p k) m) root gs.
Proof.
  intros Hk Hl. apply epoch_log_frame. intros k' Hk' Hl'. apply render_delete_ne; auto.
  intros ->. congruence.
Qed.

(** Publishing a head pointer. *)
Lemma epoch_log_head m root gs h o :
  holds_manifest o h → (Delta h < log_size gs)%N → epoch_log p e m root gs →
  epoch_log p e (<[headKey p e := o]> m) root gs.
Proof.
  intros Ho Hh [].
  assert (∀ k, wf_key k → k ≠ KHead e →
    <[headKey p e := o]> m !! render p k = m !! render p k) as F.
  { intros. apply (render_insert_ne m p (KHead e)); auto. apply He. }
  pose proof He as HE. constructor; auto; to_render.
  - destruct log_root0 as (x & Hx & ?). exists x. split; [|done].
    by rewrite (F (KLog e)).
  - eapply root_ok_mono; [done| |done]. intros f l ??. to_render. by rewrite (F (KSealed e f l)).
  - intros f l x ??. rewrite (F (KSealed e f l)) by done. by apply log_sealed0.
  - intros n x Hn. rewrite (F (KDelta e n)) by done. by apply log_delta0.
  - intros n Hn. rewrite (F (KDelta e n)); [by apply log_open0| |done].
    split; [done|]. apply (room_u64 gs); [done|lia].
  - intros x. rewrite lookup_insert_eq. intros [= <-]. eauto.
Qed.

(** Storing the sealed manifest of a run of deltas. *)
Lemma epoch_log_seal_object m root gs f l sm o :
  holds_manifest o sm → sealed_ok p e sm f l gs → (f <= l < log_size gs)%N →
  epoch_log p e m root gs → epoch_log p e (<[sealedKey p e f l := o]> m) root gs.
Proof.
  intros Ho Hsm Hfl [].
  assert (is_u64 f ∧ is_u64 l) as [Hf Hl] by (split; apply (room_u64 gs); auto; lia).
  pose proof He as HE.
  assert (∀ k, wf_key k → <[sealedKey p e f l := o]> m !! render p k =
    if decide (KSealed e f l = k) then Some o else m !! render p k) as F.
  { intros. by apply (render_lookup_insert m p (KSealed e f l)). }
  assert (∀ a b, is_u64 a → is_u64 b → is_Some (m !! sealedKey p e a b) →
    is_Some (<[sealedKey p e f l := o]> m !! sealedKey p e a b)) as FS.
  { intros a b ???. to_render. rewrite (F (KSealed e a b)) by done. by case_decide. }
  constructor; auto; to_render.
  - destruct log_root0 as (x & Hx & ?). exists x. split; [|done].
    by rewrite (F (KLog e)).
  - by eapply root_ok_mono.
  - intros a b x ??. rewrite (F (KSealed e a b)) by done.
    case_decide; [|by apply log_sealed0]. intros [= <-]. simplify_eq. eauto.
  - intros n x Hn. rewrite (F (KDelta e n)) by done. by apply log_delta0.
  - intros n Hn. rewrite (F (KDelta e n)); [by apply log_open0|].
    split; [done|]. apply (room_u64 gs); [done|lia].
  - intros x Hx. apply log_head0. rewrite <-Hx. by rewrite (F (KHead e)).
Qed.

(** Swapping in a log root that counts every delta as sealed. *)
Lemma epoch_log_swap_root m root next gs o :
  holds_manifest o next → root_ok p e m next gs → OpenFrom next = log_size gs →
  epoch_log p e m root gs → epoch_log p e (<[epochLogKey p e := o]> m) next gs.
Proof.
  intros Ho Hnext Hopen [].
  assert (∀ k, wf_key k → k ≠ KLog e →
    <[epochLogKey p e := o]> m !! render p k = m !! render p k) as F.
  { intros. apply (render_insert_ne m p (KLog e)); auto. apply He. }
  pose proof He as HE. constructor; auto; to_render.
  - exists o. by rewrite lookup_insert_eq.
  - eapply root_ok_mono; [done| |done]. intros f l ??. to_render. by rewrite (F (KSealed e f l)).
  - intros f l x ??. rewrite (F (KSealed e f l)) by done. by apply log_sealed0.
  - intros n x Hn. rewrite (F (KDelta e n)) by done. by apply log_delta0.
  - intros n Hn. lia.
  - intros x Hx. apply log_head0. rewrite <-Hx. by rewrite (F (KHead e)).
Qed.

(** Reclaiming a sealed delta. *)
Lemma epoch_log_reclaim m root gs n :
  (n < OpenFrom root)%N → epoch_log p e m root gs →
  epoch_log p e (delete (deltaKey p e n) m) root gs.
Proof.
  intros Hn [].
  assert (is_u64 n) as Hnu.
  { destruct log_root_ok0. apply (room_u64 gs); [done|lia]. }
  pose proof He as HE.
  assert (∀ k, wf_key k → delete (deltaKey p e n) m !! render p k =
    if decide (KDelta e n = k) then None else m !! render p k) as F.
  { intros. by apply (render_lookup_delete m p (KDelta e n)). }
  constructor; auto; to_render.
  - destruct log_root0 as (x & Hx & ?). exists x. split; [|done].
    by rewrite (F (KLog e)).
  - eapply root_ok_mono; [done| |done]. intros f l ??. to_render. by rewrite (F (KSealed e f l)).
  - intros f l x ??. rewrite (F (KSealed e f l)) by done. by apply log_sealed0.
  - intros k x Hk. rewrite (F (KDelta e k)) by done. case_decide; [done|]. by apply log_delta0.
  - intros k Hk. rewrite (F (KDelta e k)).
    + case_decide; [simplify_eq; lia|]. by apply log_open0.
    + split; [done|]. apply (room_u64 gs); [done|lia].
  - intros x Hx. apply log_head0. rewrite <-Hx. by rewrite (F (KHead e)).
Qed.

(** Creating the delta past the end: the commit of [g]. *)
Lemma epoch_log_commit m root gs g d o :
  holds_manifest o d → d_Groups d = [g] → row_ok p e g → room (gs ++ [g]) →
  (∀ a, list.last gs = Some a → (mediaEnd a <= MediaTime g)%Z) →
  epoch_log p e m root gs →
  epoch_log p e (<[deltaKey p e (log_size gs) := o]> m) root (gs ++ [g]).
Proof.
  intros Ho Hd Hg Hroom Hser [].
  assert (is_u64 (log_size gs)) as Hn by (by apply (room_u64 gs)).
  pose proof He as HE.
  assert (∀ k, wf_key k → <[deltaKey p e (log_size gs) := o]> m !! render p k =
    if decide (KDelta e (log_size gs) = k) then Some o else m !! render p k) as F.
  { intros. by apply (render_lookup_insert m p (KDelta e (log_size gs))). }
  constructor; auto; to_render.
  - destruct log_root0 as (x & Hx & ?). exists x. split; [|done].
    by rewrite (F (KLog e)).
  - eapply root_ok_mono; [done| |by apply root_ok_snoc].
    intros f l ??. to_render. by rewrite (F (KSealed e f l)).
  - intros f l x ??. rewrite (F (KSealed e f l)) by done. intros Hx.
    apply log_sealed0 in Hx as (Hfl & sm & Hsm & Hok); [|done..]. rewrite log_size_snoc.
    split; [lia|]. exists sm. split; [done|]. destruct Hok as (?&?&?&?&Hs). split_and!; auto.
    by rewrite span_snoc.
  - intros k x Hk. rewrite (F (KDelta e k)) by done. case_decide.
    + intros [= <-]. simplify_eq. exists g, d. split; [|done]. unfold log_size.
      rewrite Nat2N.id, lookup_app_r, Nat.sub_diag by done. done.
    + intros Hx. apply log_delta0 in Hx as (a & b & Ha & ?); [|done].
      exists a, b. split; [|done]. by apply lookup_app_l_Some.
  - intros k Hk. rewrite log_size_snoc in Hk. rewrite (F (KDelta e k)).
    + case_decide as Hne; [done|]. apply log_open0.
      assert (k ≠ log_size gs) by congruence. lia.
    + split; [done|]. unfold is_u64, room, two64 in *. lia.
  - intros x Hx. rewrite (F (KHead e)) in Hx by done. case_decide; [done|].
    apply log_head0 in Hx as (h & ? & ?). exists h. split; [done|]. rewrite log_size_snoc. lia.
  - apply Forall_app. auto.
  - by apply serial_snoc.
Qed.

End Writes.

(** ** Payloads *)

Section Payloads.
Context (p : TrackPath) (e : N) (Hpar : log_params p e).

(** What a crash at any point leaves: the log and the payloads it names. *)
Record durable (m : objs) (root : epochLogRoot) (gs : list GroupInfo) : Prop := {
  du_log : epoch_log p e m root gs;
  du_payloads : payloads p m gs;
}.

Lemma Sequence_u64 g : is_u64 (Sequence g).
Proof.
  pose proof (Sequence_bound g) as H. change groupSeqMask with 1099511627775%N in H.
  unfold is_u64, two64. lia.
Qed.

Lemma Epoch_u64 g : is_u64 g → is_u64 (Epoch g).
Proof. intros. by apply epoch_u64, Epoch_bound. Qed.

Lemma payloads_mono m m' gs :
  Forall (row_ok p e) gs →
  (∀ s x, is_u64 s → m !! render p (KGroup e s) = Some x → m' !! render p (KGroup e s) = Some x) →
  (∀ s, is_u64 s → is_Some (m !! render p (KRedacted e s)) → is_Some (m' !! render p (KRedacted e s))) →
  payloads p m gs → payloads p m' gs.
Proof.
  intros Hgs Hm Hmark [Hst Hids]. rewrite Forall_forall in Hgs.
  assert (∀ g, g ∈ gs → is_Some (m !! marker p (ID g)) → is_Some (m' !! marker p (ID g))) as Hmk.
  { intros g (_ & _ & HE & _)%Hgs. unfold marker. rewrite HE. apply Hmark, Sequence_u64. }
  constructor.
  - intros g Hg. destruct (Hst g Hg) as [(data & v & Hd & Hsize)|]; [left|right; auto].
    exists data, v. split; [|done]. destruct (Hgs g Hg) as (_ & _ & HE & HK). rewrite HK in *.
    unfold groupKey in *. rewrite HE in *. apply (Hm (Sequence (ID g))); [|done]. apply Sequence_u64.
  - intros i j a b Ha Hb Hab. destruct (Hids i j a b Ha Hb Hab); [by left|right].
    apply Hmk; [by eapply list_elem_of_lookup_2|done].
Qed.

Lemma payloads_insert m gs k x :
  Forall (row_ok p e) gs → wf_key k →
  (∀ s, k ≠ KGroup e s) ∨ m !! render p k = None →
  payloads p m gs → payloads p (<[render p k := x]> m) gs.
Proof.
  intros Hgs Hk Hne. pose proof (epoch_u64 e (proj2 (lp_epoch _ _ Hpar))).
  apply payloads_mono; [done|..].
  - intros s y Hs Hy. rewrite render_lookup_insert by done. case_decide; [|done]. subst k.
    destruct Hne as [Hne|Hne]; [by destruct (Hne s)|congruence].
  - intros s Hs Hy. rewrite render_lookup_insert by done. by case_decide.
Qed.

Lemma payloads_delete m gs k :
  Forall (row_ok p e) gs → wf_key k → (∀ s, k ≠ KGroup e s ∧ k ≠ KRedacted e s) →
  payloads p m gs → payloads p (delete (render p k) m) gs.
Proof.
  intros Hgs Hk Hne. pose proof (epoch_u64 e (proj2 (lp_epoch _ _ Hpar))).
  apply payloads_mono; [done|..]; intros s; intros; rewrite render_lookup_delete by done;
    (case_decide; [subst k; by destruct (Hne s)|done]).
Qed.

(** An identity whose payload key is free is not committed, unless it is redacted. *)
Lemma payloads_fresh m gs id g :
  Forall (row_ok p e) gs → payloads p m gs → m !! groupKey p id = None → g ∈ gs → ID g = id →
  is_Some (m !! marker p id).
Proof.
  intros Hgs [Hst _] Hnone Hg <-. destruct (Hst g Hg) as [(data & v & Hd & _)|]; [|done].
  rewrite Forall_forall in Hgs. destruct (Hgs g Hg) as (_ & _ & _ & HK). rewrite HK in Hd. congruence.
Qed.

Lemma group_key_render id : groupKey p id = render p (KGroup (Epoch id) (Sequence id)).
Proof. done. Qed.

Lemma durable_payload m root gs id x :
  is_u64 id → m !! groupKey p id = None → durable m root gs →
  durable (<[groupKey p id := x]> m) root gs.
Proof.
  intros Hid Hnone [Hl Hp]. rewrite group_key_render in *.
  assert (wf_key (KGroup (Epoch id) (Sequence id))) by (split; auto using Epoch_u64, Sequence_u64).
  split; [by apply epoch_log_insert_other|]. apply payloads_insert; auto. by eapply log_rows.
Qed.

Lemma durable_head m root gs h o :
  holds_manifest o h → (Delta h < log_size gs)%N → durable m root gs →
  durable (<[headKey p e := o]> m) root gs.
Proof.
  intros Ho Hh [Hl Hp]. split; [by eapply epoch_log_head|].
  apply (payloads_insert _ _ (KHead e)); auto; [by eapply log_rows|by eapply He].
Qed.

Lemma durable_seal_object m root gs f l sm o :
  holds_manifest o sm → sealed_ok p e sm f l gs → (f <= l < log_size gs)%N →
  durable m root gs → durable (<[sealedKey p e f l := o]> m) root gs.
Proof.
  intros Ho Hsm Hfl [Hl Hp]. split; [by eapply epoch_log_seal_object|].
  pose proof (log_room _ _ _ _ _ Hl).
  apply (payloads_insert _ _ (KSealed e f l)); auto; [by eapply log_rows|].
  split_and!; [by eapply He|..]; apply (room_u64 gs); auto; lia.
Qed.

Lemma durable_swap_root m root next gs o :
  holds_manifest o next → root_ok p e m next gs → OpenFrom next = log_size gs →
  durable m root gs → durable (<[epochLogKey p e := o]> m) next gs.
Proof.
  intros Ho Hn Hopen [Hl Hp]. split; [by eapply epoch_log_swap_root|].
  apply (payloads_insert _ _ (KLog e)); auto; [by eapply log_rows|by eapply He].
Qed.

Lemma durable_reclaim m root gs n :
  (n < OpenFrom root)%N → durable m root gs → durable (delete (deltaKey p e n) m) root gs.
Proof.
  intros Hn [Hl Hp]. split; [by apply epoch_log_reclaim|].
  pose proof (log_room _ _ _ _ _ Hl). pose proof (ro_open _ _ _ _ _ (log_root_ok _ _ _ _ _ Hl)).
  apply (payloads_delete _ _ (KDelta e n)); auto; [by eapply log_rows|].
  split; [by eapply He|apply (room_u64 gs); auto; lia].
Qed.

Lemma durable_commit m root gs g d o payload v :
  holds_manifest o d → d_Groups d = [g] → row_ok p e g → room (gs ++ [g]) →
  (∀ a, list.last gs = Some a → (mediaEnd a <= MediaTime g)%Z) →
  m !! ObjectKey g = Some (payload, v) → Z.of_nat (String.length payload) = Size g →
  (∀ a, a ∈ gs → ID a = ID g → is_Some (m !! marker p (ID g))) → durable m root gs →
  durable (<[deltaKey p e (log_size gs) := o]> m) root (gs ++ [g]).
Proof.
  intros Ho Hd Hg Hroom Hser Hpay Hsize Hid [Hl Hp]. split; [by eapply epoch_log_commit|].
  apply (payloads_insert _ _ (KDelta e (log_size gs))); [| |by left|].
  - apply Forall_app. split; [by eapply log_rows|auto].
  - split; [by eapply He|]. apply (room_u64 gs); [by eapply log_room|lia].
  - destruct Hp as [Hst Hids]. constructor.
    + intros a [Ha|Ha]%elem_of_app; [by apply Hst|]. apply list_elem_of_singleton in Ha as ->. eauto.
    + intros i j a b Ha Hb Hab. apply lookup_snoc_Some in Ha, Hb.
      destruct Ha as [[Hi Ha]|[-> <-]], Hb as [[Hj Hb]|[-> <-]]; [by eapply Hids| | |by left]; right.
      * rewrite Hab. apply (Hid a); [by eapply list_elem_of_lookup_2|done].
      * apply (Hid b); [by eapply list_elem_of_lookup_2|done].
Qed.

End Payloads.

(** ** The empty log *)

Section Empty.
Context (p : TrackPath) (e : N) (Hpar : log_params p e).

Lemma newEpochLog_encodable t :
  is_i64 t → decodeManifest (encodeManifest (newEpochLog p e t)) = Ok (newEpochLog p e t).
Proof.
  intros Ht. destruct Hpar as [Hp He]. apply decode_encode; simpl; [|done].
  split_and!; try done. by apply epoch_u64, He.
Qed.

(** A fresh log root, with nothing else of the epoch stored. *)
Lemma durable_new m t v :
  is_i64 t → m !! epochLogKey p e = Some (encodeManifest (newEpochLog p e t), v) →
  (∀ k, wf_key k → log_key e k = true → k ≠ KLog e → m !! render p k = None) →
  durable p e m (newEpochLog p e t) [].
Proof.
  intros Ht Hm Hnone. pose proof (epoch_u64 e (proj2 (lp_epoch _ _ Hpar))) as He.
  assert (∀ k, wf_key k → log_key e k = true → k ≠ KLog e → ∀ o, m !! render p k ≠ Some o) as H.
  { intros k ??? o. by rewrite Hnone. }
  split; [constructor|constructor]; simpl; try done.
  - eexists. split; [exact Hm|]. by apply newEpochLog_encodable.
  - constructor; try done; constructor.
  - intros f l o ?? Ho. by destruct (H (KSealed e f l) ltac:(done) (N.eqb_refl e) ltac:(done) o).
  - intros n o ? Ho. by destruct (H (KDelta e n) ltac:(done) (N.eqb_refl e) ltac:(done) o).
  - unfold log_size. simpl. lia.
  - intros o Ho. by destruct (H (KHead e) ltac:(done) (N.eqb_refl e) ltac:(done) o).
  - intros g Hg. by apply not_elem_of_nil in Hg.
Qed.

(** The objects of an epoch just created. *)
Definition fresh_epoch (t : Z) (v : Version) : objs :=
  {[epochLogKey p e := (encodeManifest (newEpochLog p e t), v)]}.

Lemma durable_fresh t v : is_i64 t → durable p e (fresh_epoch t v) (newEpochLog p e t) [].
Proof.
  intros Ht. pose proof (epoch_u64 e (proj2 (lp_epoch _ _ Hpar))) as He.
  eapply durable_new; [done|apply lookup_singleton_eq|].
  intros k Hk _ Hne. apply lookup_singleton_ne. apply (render_ne p (KLog e)); auto.
Qed.

End Empty.
