(* ===== verification/WriterLog.v ===== *)
(** * The writer and the log

    A single writer of an epoch, run against a store that may fail any call
    before or after it takes effect ([fl = true]) or never fails ([fl = false]).
    Each method is shown to keep [durable], to leave the writer agreeing with the
    log unless it marked itself stale, and to extend the log by the row it
    reports and by nothing else. [wp] is total, so the same lemmas show that the
    methods end, given fuel for one probe of the open region. *)

From S2P Require Import Prelude GoStd Json Store Group Manifest Track Writer EpochLog.

(** The parts of a writer no method but [NewEpoch] changes. *)
Definition config (w : Writer) : TrackPath * N * TrackSchema * Z :=
  (w_path w, w_epoch w, w_schema w, sealThreshold w).

(** What the writer remembers of the group committed last. *)
Definition last_ok (w : Writer) (gs : list GroupInfo) : Prop :=
  match list.last gs with
  | None => hasLast w = false
  | Some g => hasLast w = true ∧ ID (last w) = ID g ∧ mediaEnd (last w) = mediaEnd g
  end.

(** What reading does not change either. *)
Definition kept (w w' : Writer) : Prop :=
  config w' = config w ∧
  logRoot w' = logRoot w ∧ logVersion w' = logVersion w ∧ stale w' = stale w.

Ltac solve_kept := unfold kept, config in *; simpl in *; split_and?; congruence.

Lemma kept_trans w1 w2 w3 : kept w1 w2 → kept w2 w3 → kept w1 w3.
Proof. unfold kept. intros (?&?&?&?) (?&?&?&?). split_and!; congruence. Qed.

Lemma kept_fields w w' :
  kept w w' → w_path w' = w_path w ∧ w_epoch w' = w_epoch w ∧ logRoot w' = logRoot w.
Proof. unfold kept, config. intros (Hc & -> & _). by injection Hc as -> -> _ _. Qed.

Lemma backend_not_ledger er s :
  backend_error er = true → backend_sentinel s = false → errors_Is er s = false.
Proof.
  unfold backend_error, errors_Is. intros Hb Hs. apply bool_decide_eq_false. intros Hin.
  rewrite forallb_forall in Hb. apply list_elem_of_In in Hin. apply Hb in Hin. congruence.
Qed.

Section WriterLog.
Context (p : TrackPath) (e : N) (Hpar : log_params p e).

(** A writer whose beliefs are those of the log; its log root may be an older
    one than that stored. *)
Record synced (m : objs) (gs : list GroupInfo) (w : Writer) : Prop := {
  sy_root : root_ok p e m (logRoot w) gs;
  sy_next : nextDelta w = log_size gs;
  sy_open : openGroups w = drop (N.to_nat (OpenFrom (logRoot w))) gs;
  sy_last : last_ok w gs;
}.

Record writer_ok (m : objs) (gs : list GroupInfo) (w : Writer) : Prop := {
  wr_path : w_path w = p;
  wr_epoch : w_epoch w = e;
  wr_synced : stale w = false → synced m gs w;
}.

(** The version the writer expects of the log root is the one stored. *)
Definition current (m : objs) (w : Writer) : Prop :=
  ∃ d, m !! epochLogKey p e = Some (d, logVersion w).

(** ** Reading the roots *)

Lemma wp_fetchEpochLog fl m root gs :
  epoch_log p e m root gs →
  wp (op_spec fl) (fetchEpochLog p e) (λ r m', m' = m ∧
    match r with
    | Ok (rt, v) => rt = root ∧ ∃ d, m !! epochLogKey p e = Some (d, v)
    | Err er => fl = true ∧ errors_Is er ErrEpochNotFound = false
    end) m.
Proof.
  intros Hlog. destruct (log_root _ _ _ _ _ Hlog) as ([d0 v0] & Ho & Hd).
  pose proof (log_root_ok _ _ _ _ _ Hlog) as [Rtrack Repoch Rver Rcre Rruns Ropen Rst].
  apply wp_bind, wp_Get.
  - intros d v Hd'. rewrite Ho in Hd'. injection Hd' as -> ->. unfold holds_manifest in Hd. simpl in *. rewrite Hd.
    rewrite Rtrack, Repoch, String.eqb_refl, N.eqb_refl. simpl. eauto.
  - congruence.
  - intros er -> Hb Hn. simpl. rewrite Hn. split_and!; auto. by eapply backend_not_ledger.
Qed.

Lemma wp_fetchHead fl m root gs :
  epoch_log p e m root gs →
  wp (op_spec fl) (fetchHead p e) (λ r m', m' = m ∧
    match r with
    | Ok (h, v) => (Delta h < log_size gs)%N ∧ ∃ d, m !! headKey p e = Some (d, v)
    | Err er => if errors_Is er ErrNotExist then m !! headKey p e = None else fl = true
    end) m.
Proof.
  intros Hlog. apply wp_bind, wp_Get.
  - intros d v Hd. destruct (log_head _ _ _ _ _ Hlog _ Hd) as (h & Hh & ?).
    unfold holds_manifest in Hh. simpl in *. rewrite Hh. eauto.
  - intros er Hn Hnone. simpl. by rewrite Hn.
  - intros er -> Hb Hn. simpl. by rewrite Hn.
Qed.

(** ** Recovery *)

Section Recover.
Context (m : objs) (root : epochLogRoot) (gs : list GroupInfo) (Hlog : epoch_log p e m root gs).

(** What the probe from delta [n] makes of [w]. *)
Definition probed (n : N) (w w' : Writer) : Prop :=
  nextDelta w' = log_size gs ∧ openGroups w' = openGroups w ++ drop (N.to_nat n) gs ∧
  (if decide (n = log_size gs) then hasLast w' = hasLast w ∧ last w' = last w
   else last_ok w' gs).

Lemma wp_recover_loop fl from fuel : ∀ n w,
  w_path w = p → w_epoch w = e → (OpenFrom root <= n <= log_size gs)%N → (from <= log_size gs)%N →
  (N.to_nat (log_size gs - n) < fuel) →
  wp (op_spec fl) (recover_loop fuel from n w) (λ r m',
    m' = m ∧ kept w r.1 ∧ (fl = false → r.2 = None) ∧ (r.2 = None → probed n w r.1)) m.
Proof.
  induction fuel as [|fuel IH]; intros n w Hp He Hn Hfrom Hfuel; [lia|].
  assert (is_u64 n) as Hnu by (apply (room_u64 gs); [by eapply log_room|lia]).
  cbn [recover_loop]. rewrite Hp, He. apply wp_bind, wp_Get.
  - intros d v Hd. destruct (log_delta _ _ _ _ _ Hlog n _ Hnu Hd) as (g & dm & Hg & Hdm & Hgr).
    unfold holds_manifest in Hdm. simpl in Hdm. rewrite Hdm.
    assert (n < log_size gs)%N as Hlt.
    { apply lookup_lt_Some in Hg. unfold log_size. lia. }
    assert (u64 (n + 1) = n + 1)%N as ->.
    { apply u64_small, (room_u64 gs); [by eapply log_room|lia]. }
    assert (recover_delta w dm d = {| w with openGroups := openGroups w ++ [g];
      openBytes := i64 (openBytes w + len64 d); last := g; hasLast := true |}) as ->.
    { unfold recover_delta. by rewrite Hgr. }
    eapply wp_mono; [|apply IH; simpl; auto; lia].
    intros [w' err] m' (-> & Hk & Hf & Hpr). split_and!; [done|done|done|].
    intros Herr. destruct (Hpr Herr) as (Hnd & Hog & Hl). simpl in *.
    assert (drop (N.to_nat n) gs = g :: drop (N.to_nat (n + 1)) gs) as Hdrop.
    { replace (N.to_nat (n + 1)) with (S (N.to_nat n)) by lia. by apply drop_S. }
    split_and!; [done|by rewrite Hog, Hdrop, <-app_assoc|].
    rewrite decide_False by lia. case_decide as Hend; [|done].
    destruct Hl as [Hh Hl]. unfold last_ok.
    assert (list.last gs = Some g) as ->; [|by rewrite Hh, Hl].
    rewrite last_lookup, <-Hg. f_equal. unfold log_size in Hend. lia.
  - intros er Hne Hnone. rewrite Hne.
    assert (n = log_size gs) as ->.
    { destruct (decide (n = log_size gs)); [done|].
      destruct (log_open _ _ _ _ _ Hlog n ltac:(lia)) as [? ?]. congruence. }
    rewrite (proj2 (N.ltb_ge _ _)) by lia. simpl.
    split_and!; try done; [solve_kept|].
    intros _. split_and!; try done; simpl.
    + rewrite drop_ge by (unfold log_size; lia). by rewrite app_nil_r.
    + by rewrite decide_True.
  - intros er Hfl Hb Hne. rewrite Hne. simpl. split_and!; [done|done| |done]. congruence.
Qed.

(** With no open delta, the newest run's summary stands in for the group. *)
Lemma recover_last_ok w :
  logRoot w = root → openGroups w = drop (N.to_nat (OpenFrom root)) gs →
  (if decide (OpenFrom root = log_size gs) then hasLast w = false else last_ok w gs) →
  last_ok (recover_last w) gs.
Proof.
  intros Hroot Hopen Hl. unfold recover_last.
  pose proof (log_root_ok _ _ _ _ _ Hlog) as [Rtrack Repoch Rver Rcre Rruns Ropen Rst]. case_decide as Hend.
  - rewrite Hl, Hroot. simpl. unfold last_ok. destruct (decide (log_size gs = 0%N)) as [H0|H0].
    + assert (gs = []) as -> by (apply nil_length_inv; unfold log_size in H0; lia).
      assert (Sealed root = []) as ->; [|done].
      destruct Rruns as [|? ? ? ? Hfl Hr]; [done|]. apply runs_le in Hr.
      unfold log_size in *. simpl in *. lia.
    + rewrite Hend in Rruns. apply runs_last in Rruns as (a & b & Hlast & Hab & Hb); [|lia].
      rewrite Hlast. destruct (lookup_lt_is_Some_2 gs (N.to_nat b)) as [g Hg].
      { unfold log_size in *. lia. }
      destruct (run_ref_last p e a b gs g Hab Hg) as [HL HM].
      assert (list.last gs = Some g) as ->.
      { rewrite last_lookup, <-Hg. f_equal. unfold log_size in *. lia. }
      simpl. rewrite HL, HM. split_and!; [done|done|].
      unfold mediaEnd at 1. simpl. rewrite Z.add_0_r. apply i64_small. apply i64_is_i64.
  - destruct (hasLast w) eqn:Eh; [done|]. exfalso. unfold last_ok in Hl.
    destruct (list.last gs) eqn:El; [by destruct Hl as [? _]; congruence|].
    apply last_None in El as ->. unfold log_size in *. simpl in *. lia.
Qed.

Lemma recover_last_kept w :
  kept w (recover_last w) ∧ nextDelta (recover_last w) = nextDelta w ∧
  openGroups (recover_last w) = openGroups w.
Proof. unfold recover_last. repeat case_match; done. Qed.

Lemma wp_recover fl fuel w :
  w_path w = p → w_epoch w = e → logRoot w = root → openGroups w = [] → hasLast w = false →
  length gs < fuel →
  wp (op_spec fl) (recover fuel w) (λ r m', m' = m ∧ kept w r.1 ∧
    (fl = false → r.2 = None) ∧ (r.2 = None → synced m gs r.1)) m.
Proof.
  intros Hp He Hroot Hopen Hlast Hfuel. unfold recover. rewrite Hp, He.
  pose proof (log_root_ok _ _ _ _ _ Hlog) as Hrok.
  assert (∀ from w1, (from <= log_size gs)%N → kept w w1 → openGroups w1 = [] →
    hasLast w1 = false →
    wp (op_spec fl)
      (r ← recover_loop fuel from (OpenFrom (logRoot w1)) w1;
       let '(w', err) := r in
       mret match err with Some er => (w', Some er) | None => (recover_last w', None) end)
      (λ r m', m' = m ∧ kept w r.1 ∧ (fl = false → r.2 = None) ∧
        (r.2 = None → synced m gs r.1)) m) as Hprobe.
  { intros from w1 Hfrom Hk1 Ho Hh. destruct (kept_fields _ _ Hk1) as (Hp1 & He1 & Hr1).
    rewrite Hr1, Hroot. apply wp_bind.
    eapply wp_mono; [|apply wp_recover_loop; try done; try congruence].
    - intros [w2 err] m' (-> & Hk & Hf & Hpr). simpl in *.
      destruct err as [er|]; simpl; [split_and!; try done; by eapply kept_trans|].
      destruct (recover_last_kept w2) as (Hk' & Hn' & Ho').
      destruct (Hpr eq_refl) as (Hn & Hog & Hl). rewrite Ho in Hog. simpl in Hog.
      assert (kept w (recover_last w2)) as Hkw by eauto using kept_trans.
      destruct (kept_fields _ _ Hkw) as (_ & _ & Hr').
      assert (logRoot w2 = root) as Hr2.
      { destruct (kept_fields _ _ Hk) as (_ & _ & ->). congruence. }
      split_and!; try done. intros _. constructor; rewrite ?Hr', ?Hroot; try done.
      + congruence.
      + congruence.
      + apply recover_last_ok; [done|done|]. case_decide; [|done]. destruct Hl. congruence.
    - split; [done|]. by destruct Hrok.
    - unfold log_size. lia. }
  apply wp_bind. eapply wp_mono; [|by eapply wp_fetchHead].
  intros [[h v]|er] m' [-> H].
  - destruct H as [Hh _]. apply Hprobe; try done. simpl. rewrite Hroot.
    2: solve_kept. destruct (_ <=? _)%N; [lia|by destruct Hrok].
  - destruct (errors_Is er ErrNotExist).
    + apply Hprobe; try done. rewrite Hroot. by destruct Hrok.
    + simpl. split_and!; try done. congruence.
Qed.

Lemma wp_reloadIfStale fl fuel w :
  writer_ok m gs w → length gs < fuel →
  wp (op_spec fl) (reloadIfStale fuel w) (λ r m', m' = m ∧ config r.1 = config w ∧
    writer_ok m gs r.1 ∧ (fl = false → r.2 = None) ∧ (r.2 = None → stale r.1 = false) ∧
    (r.2 = None → stale w = true ∨ current m w → current m r.1)) m.
Proof.
  intros [Hp He Hsy] Hfuel. unfold reloadIfStale. destruct (stale w) eqn:Est; cbn [negb].
  - rewrite Hp, He. apply wp_bind. eapply wp_mono; [|by eapply wp_fetchEpochLog].
    intros [[rt v]|er] m' [-> H].
    + destruct H as (-> & d & Hd). apply wp_bind.
      eapply wp_mono; [|by apply wp_recover].
      intros [w' err] m' (-> & (Hc & Hr & Hv & Hs) & Hf & Hok). unfold config in Hc. simpl in *.
      destruct err as [er|]; simpl.
      * split_and!; try done; [solve_kept|].
        constructor; [congruence|congruence|]. intros. congruence.
      * split_and!; try done; [solve_kept| |].
        { constructor; simpl; [congruence|congruence|]. intros _.
          destruct (Hok eq_refl). by constructor. }
        intros _ _. exists d. simpl. by rewrite Hv.
    + destruct H as [-> _]. simpl. split_and!; try done.
      constructor; [done|done|congruence].
  - split_and!; try done; [|by intros _ [?|?]]. constructor; auto.
Qed.

End Recover.
(** ** Publishing the head pointer *)

(** [m'] differs from [m] only at keys of kind [P]. *)
Definition changes (P : objkey → Prop) (m m' : objs) : Prop :=
  ∀ k, wf_key k → ¬ P k → m' !! render p k = m !! render p k.

Lemma changes_refl P m : changes P m m.
Proof. by intros k. Qed.

Lemma changes_insert P m m' k x :
  wf_key k → P k → changes P m m' → changes P m (<[render p k := x]> m').
Proof.
  intros Hk HP Hc k' Hk' HP'. rewrite render_insert_ne; [by apply Hc|done|done|]. by intros ->.
Qed.

Lemma changes_delete P m m' k :
  wf_key k → P k → changes P m m' → changes P m (delete (render p k) m').
Proof.
  intros Hk HP Hc k' Hk' HP'. rewrite render_delete_ne; [by apply Hc|done|done|]. by intros ->.
Qed.

#[local] Lemma epoch_is_u64 : is_u64 e.
Proof. apply epoch_u64, Hpar. Qed.

Lemma synced_mono m m' gs w :
  room gs →
  (∀ f l, is_u64 f → is_u64 l → is_Some (m !! sealedKey p e f l) →
     is_Some (m' !! sealedKey p e f l)) →
  synced m gs w → synced m' gs w.
Proof. intros ?? []. constructor; auto. by eapply root_ok_mono. Qed.

Lemma synced_changes P m m' gs w :
  room gs → changes P m m' → (∀ f l, ¬ P (KSealed e f l)) → synced m gs w → synced m' gs w.
Proof.
  intros Hr Hc HP. apply synced_mono; [done|]. intros f l Hf Hl Hs.
  to_render. rewrite (Hc (KSealed e f l)); [done| |done]. split_and!; auto using epoch_is_u64.
Qed.

Lemma current_changes P m m' w :
  changes P m m' → ¬ P (KLog e) → current m w → current m' w.
Proof.
  intros Hc HP [d Hd]. exists d. rewrite <-Hd. apply (Hc (KLog e)); [apply epoch_is_u64|done].
Qed.

Definition is_head (k : objkey) : Prop := k = KHead e.

(** Any swap of a head that names a committed delta. *)
Lemma wp_swap_head fl m m1 root gs n id t expect :
  durable p e m1 root gs → changes is_head m m1 → (n < log_size gs)%N → is_u64 id → is_i64 t →
  wp (op_spec fl) (store_Swap (headKey p e) (encodeManifest (mkHead manifestVersion n id t)) expect)
    (λ _ m', durable p e m' root gs ∧ changes is_head m m') m1.
Proof.
  intros Hd Hc Hn Hid Ht. pose proof (log_room _ _ _ _ _ (du_log _ _ _ _ _ Hd)) as Hroom.
  set (data := encodeManifest _).
  assert (∀ v, durable p e (<[headKey p e := (data, v)]> m1) root gs ∧
    changes is_head m (<[headKey p e := (data, v)]> m1)) as Hins.
  { intros v. split.
    - apply durable_head with (h := mkHead manifestVersion n id t); auto.
      apply head_encodable; auto. apply (room_u64 gs); [done|lia].
    - by apply (changes_insert _ _ _ (KHead e)); [apply epoch_is_u64|..]. }
  apply wp_Swap; auto.
Qed.

Lemma wp_publishHead fl m root gs w id :
  durable p e m root gs → w_path w = p → w_epoch w = e → nextDelta w = log_size gs →
  (0 < log_size gs)%N → is_u64 id →
  wp (op_spec fl) (publishHead w id) (λ r m', durable p e m' root gs ∧ changes is_head m m' ∧
    ∃ v, r.1 = {| w with headVersion := v |}) m.
Proof.
  intros Hd Hp He Hn Hpos Hid.
  pose proof (log_room _ _ _ _ _ (du_log _ _ _ _ _ Hd)) as Hroom.
  assert (is_u64 (log_size gs)) as Hu by (by apply (room_u64 gs)).
  destruct w as [wpath wepoch ws wt wroot wlv whv nd wog wob wl wh wst]. simpl in Hp, He, Hn.
  subst wpath wepoch nd. unfold publishHead. cbn [w_path w_epoch nextDelta headVersion].
  rewrite u64_sub_small by (done || lia).
  apply wp_bind, wp_now. intros t Ht.
  set (data := encodeManifest _).
  set (w := mkWriter _ _ _ _ _ _ _ _ _ _ _ _ _).
  set (finish := λ r : result Version, match r with
    | Ok version => ({| w with headVersion := version |}, None)
    | Err er => (w, Some er) end : Writer * option error).
  assert (∀ m1 expect, durable p e m1 root gs → changes is_head m m1 →
    wp (op_spec fl) (store_Swap (headKey p e) data expect)
      (λ _ m', durable p e m' root gs ∧ changes is_head m m') m1) as Hswap.
  { intros. eapply wp_swap_head; eauto. lia. }
  assert (∀ r, ∃ v, (finish r).1 = {| w with headVersion := v |}) as Hfin.
  { intros [v|er]; [by exists v|]. by exists (headVersion w). }
  apply wp_bind. eapply wp_mono; [|apply Hswap; [done|apply changes_refl]].
  intros [v|er] m1 [Hd1 Hc1]; [simpl; eauto|].
  destruct (errors_Is er ErrVersionMismatch || errors_Is er ErrNotExist);
    [|split_and!; [done|done|apply (Hfin (Err er))]].
  apply wp_bind. eapply wp_mono; [|by eapply wp_fetchHead, du_log].
  intros [[h cur]|ger] m2 [-> _].
  - apply wp_bind. eapply wp_mono; [|by apply Hswap]. intros r m3 [Hd3 Hc3].
    split_and!; [done|done|apply Hfin].
  - destruct (errors_Is ger ErrNotExist); [|split_and!; [done|done|apply (Hfin (Err er))]].
    apply wp_bind. eapply wp_mono; [|by apply Hswap]. intros r m3 [Hd3 Hc3].
    split_and!; [done|done|apply Hfin].
Qed.

(** ** Sealing *)

Definition is_delta (k : objkey) : Prop := ∃ n, k = KDelta e n.

Lemma wp_reclaim fl root gs l m0 fuel : ∀ n m,
  durable p e m root gs → changes is_delta m0 m → (l < OpenFrom root)%N →
  (N.to_nat (l + 1 - n) <= fuel) →
  wp (op_spec fl) (reclaim fuel p e n l)
    (λ _ m', durable p e m' root gs ∧ changes is_delta m0 m') m.
Proof.
  induction fuel as [|fuel IH]; intros n m Hd Hc Hl Hfuel; cbn [reclaim];
    (destruct (N.leb_spec n l) as [Hn|Hn]; [|by split]); [lia|].
  pose proof (log_room _ _ _ _ _ (du_log _ _ _ _ _ Hd)) as Hroom.
  pose proof (ro_open _ _ _ _ _ (log_root_ok _ _ _ _ _ (du_log _ _ _ _ _ Hd))) as Ho.
  assert (is_u64 n ∧ u64 (n + 1) = n + 1)%N as [Hnu Hn1].
  { split; [|apply u64_small]; apply (room_u64 gs); auto; lia. }
  assert (wp (op_spec fl) (reclaim fuel p e (n + 1) l)
    (λ _ m', durable p e m' root gs ∧ changes is_delta m0 m') m) as Hkeep by (apply IH; auto; lia).
  assert (wp (op_spec fl) (reclaim fuel p e (n + 1) l)
    (λ _ m', durable p e m' root gs ∧ changes is_delta m0 m') (delete (deltaKey p e n) m)) as Hdel.
  { apply IH; auto; [|..|lia].
    - apply durable_reclaim; [done|lia|done].
    - apply (changes_delete _ _ _ (KDelta e n)); [|by exists n|done]. split; [apply epoch_is_u64|done]. }
  rewrite Hn1. apply wp_bind, wp_Delete; auto.
Qed.

Lemma root_ok_seal m root gs l :
  root_ok p e m root gs → (OpenFrom root <= l)%N → (l + 1 = log_size gs)%N →
  is_Some (m !! sealedKey p e (OpenFrom root) l) →
  root_ok p e m {| root with
    Sealed := Sealed root ++ [run_ref p e (OpenFrom root) l gs]; OpenFrom := (l + 1)%N |} gs.
Proof.
  intros [] Hl Hend Hs. constructor; simpl; auto; [by apply runs_snoc|lia|].
  apply Forall_app. split; [done|]. constructor; [|done].
  by destruct (run_ref_fields p e (OpenFrom root) l gs) as [-> _].
Qed.

Lemma log_size_length gs : N.to_nat (log_size gs) = length gs.
Proof. unfold log_size. lia. Qed.

Definition from_backend (err : option error) : Prop :=
  match err with Some er => backend_error er = true | None => True end.

(** What a seal leaves behind, however it ends. *)
Definition sealed_post (fl : bool) (m : objs) (gs : list GroupInfo) (w : Writer)
    (r : Writer * option error) (m' : objs) : Prop :=
  ∃ root', durable p e m' root' gs ∧ synced m' gs r.1 ∧ config r.1 = config w ∧
    stale r.1 = stale w ∧ from_backend r.2 ∧
    (fl = false → current m w → r.2 = None ∧ current m' r.1 ∧ openGroups r.1 = []).

Definition is_log_or_delta (k : objkey) : Prop := k = KLog e ∨ is_delta k.

Lemma changes_weaken (P Q : objkey → Prop) m m' :
  (∀ k, P k → Q k) → changes P m m' → changes Q m m'.
Proof. intros HPQ Hc k Hk HQ. apply Hc; auto. Qed.

Lemma changes_trans P m1 m2 m3 : changes P m1 m2 → changes P m2 m3 → changes P m1 m3.
Proof. intros H1 H2 k Hk HP. rewrite H2, H1; done. Qed.

Lemma wp_seal_publish fl fuel w m root gs sm l :
  durable p e m root gs → w_path w = p → w_epoch w = e → synced m gs w →
  s_FirstDelta sm = OpenFrom (logRoot w) → s_LastDelta sm = l → s_Groups sm = openGroups w →
  (OpenFrom (logRoot w) <= l)%N → (l + 1 = log_size gs)%N →
  is_Some (m !! sealedKey p e (OpenFrom (logRoot w)) l) → length gs <= fuel →
  wp (op_spec fl) (seal_publish fuel w sm (sealedKey p e (OpenFrom (logRoot w)) l))
    (sealed_post fl m gs w) m.
Proof.
  intros Hd Hp He Hsy Hf Hl Hgr Hle Hend Hs Hfuel.
  pose proof (log_room _ _ _ _ _ (du_log _ _ _ _ _ Hd)) as Hroom.
  destruct w as [wp_ we ws wt wroot wlv whv nd wog wob wl wh wst].
  cbn [w_path w_epoch logRoot openGroups] in *. subst wp_ we.
  set (w := mkWriter _ _ _ _ _ _ _ _ _ _ _ _ _) in *.
  pose proof Hsy as [Hrok Hnext Hopen Hlast]. simpl in Hrok, Hnext, Hopen.
  set (f := OpenFrom wroot) in *.
  assert (summarize sm (sealedKey p e f l) = run_ref p e f l gs) as Hsum.
  { unfold run_ref, summarize. simpl. by rewrite Hgr, Hopen, Hf, Hl, span_all by done. }
  set (next := {| wroot with Sealed := Sealed wroot ++ [run_ref p e f l gs];
                             OpenFrom := (l + 1)%N |}).
  assert (root_ok p e m next gs) as Hnext_ok by (by apply root_ok_seal).
  unfold seal_publish, updateLogRoot. cbv zeta beta. rewrite Hf.
  assert (u64 (s_LastDelta sm + 1) = l + 1)%N as ->.
  { rewrite Hl. apply u64_small, (room_u64 gs); [done|lia]. }
  rewrite Hl. change (logRoot w) with wroot. rewrite Hsum. fold next.
  assert (∀ v, durable p e (<[epochLogKey p e := (encodeManifest next, v)]> m) next gs) as Hswap.
  { intros v. eapply durable_swap_root; [done| |done|done|done].
    eapply root_encodable; [done|done| |done]. by eapply log_rows, du_log. }
  assert (∀ v, changes (λ k, k = KLog e) m (<[epochLogKey p e := (encodeManifest next, v)]> m)) as Hch.
  { intros v. apply (changes_insert _ _ _ (KLog e)); [apply epoch_is_u64|done|apply changes_refl]. }
  apply wp_bind, wp_bind, wp_Swap.
  - intros v Hv Hal. simpl. apply wp_bind.
    eapply wp_mono; [|apply (wp_reclaim fl next gs l (<[epochLogKey p e := (encodeManifest next, v)]> m))];
      [|done|apply changes_refl|simpl; lia|unfold log_size in *; lia].
    intros _ m' [Hd' Hc']. exists next. split_and!; [done| |done|done|done|].
    + assert (changes is_log_or_delta m m') as Hcm.
      { eapply changes_trans; eapply changes_weaken; [|apply Hch| |exact Hc'];
          unfold is_log_or_delta; auto. }
      constructor; simpl; auto.
      * eapply root_ok_mono; [done| |done]. intros a b Ha Hb. to_render.
        rewrite (Hcm (KSealed e a b)); [done| |].
        -- split_and!; auto using epoch_is_u64.
        -- by intros [?|[? ?]].
      * rewrite drop_ge; [done|]. unfold log_size in *. lia.
    + intros _ _. split_and!; [done| |done]. exists (encodeManifest next). simpl.
      etrans; [apply (Hc' (KLog e) epoch_is_u64); by intros [? ?]|]. apply lookup_insert_eq.
  - intros er Hb Hno _. simpl. exists root. split_and!; try done.
    intros _ [d Hcur]. exfalso. apply Hno. unfold swap_allowed.
    change (epochLogKey (w_path w) (w_epoch w)) with (epochLogKey p e). by rewrite Hcur.
  - intros er v -> Hb Hv Hal. simpl. exists next. split_and!; try done.
    eapply synced_changes; [done|apply Hch| |done]. done.
  - intros er -> Hb. simpl. exists root. split_and!; try done.
Qed.

Lemma wp_seal fl fuel w m root gs :
  durable p e m root gs → w_path w = p → w_epoch w = e → synced m gs w → length gs <= fuel →
  wp (op_spec fl) (seal fuel w) (sealed_post fl m gs w) m.
Proof.
  intros Hd Hp He Hsy Hfuel. unfold seal. pose proof Hsy as [Hrok Hnext Hopen Hlast].
  pose proof (log_room _ _ _ _ _ (du_log _ _ _ _ _ Hd)) as Hroom.
  destruct (openGroups w) as [|g og] eqn:Eo.
  { simpl. exists root. by split_and!. }
  set (f := OpenFrom (logRoot w)) in *.
  assert (is_u64 (log_size gs)) as Hu by (by apply (room_u64 gs)).
  assert (f < log_size gs)%N as Hf.
  { apply (f_equal length) in Hopen. rewrite length_drop in Hopen. simpl in Hopen.
    unfold log_size. lia. }
  rewrite <-Eo in *. clear g og Eo. rewrite Hp, He, Hnext, u64_sub_small by (done || lia).
  set (l := (log_size gs - 1)%N). assert (l + 1 = log_size gs)%N as Hend by (unfold l; lia).
  cbv zeta. apply wp_bind, wp_now. intros t Ht.
  set (sm := mkSealed _ _ _ _ _ _ _ _).
  assert (sealed_ok p e sm f l gs) as Hok.
  { split_and!; try done. simpl. by rewrite span_all. }
  assert (holds_manifest (encodeManifest sm, NoVersion) sm) as Henc.
  { apply sealed_encodable; auto using u64_is_u64.
    - apply (room_u64 gs); [done|lia].
    - apply (room_u64 gs); [done|lia].
    - rewrite Hopen. eapply Forall_drop, row_ok_wf, log_rows, du_log, Hd. }
  assert (∀ v, durable p e (<[sealedKey p e f l := (encodeManifest sm, v)]> m) root gs) as Hins.
  { intros v. by eapply durable_seal_object; [done|exact Henc|exact Hok|lia|]. }
  assert (∀ v, changes (λ k, k = KSealed e f l) m
    (<[sealedKey p e f l := (encodeManifest sm, v)]> m)) as Hch.
  { intros v. apply (changes_insert _ _ _ (KSealed e f l)); [|done|apply changes_refl].
    split_and!; [apply epoch_is_u64|..]; apply (room_u64 gs); auto; lia. }
  assert (∀ m1, durable p e m1 root gs → changes (λ k, k = KSealed e f l) m m1 →
    is_Some (m1 !! sealedKey p e f l) →
    wp (op_spec fl) (seal_publish fuel w sm (sealedKey p e f l)) (sealed_post fl m gs w) m1) as Hpub.
  { intros m1 Hd1 Hc1 Hs1.
    assert (synced m1 gs w) as Hsy1.
    { eapply synced_mono; [done| |done]. intros a b Ha Hb. to_render.
      destruct (decide (KSealed e a b = KSealed e f l)) as [Heq|Hne]; [by rewrite Heq|].
      rewrite (Hc1 (KSealed e a b)); [done| |done]. split_and!; auto using epoch_is_u64. }
    eapply wp_mono; [|eapply wp_seal_publish; eauto; lia].
    intros r m' (root' & ? & ? & ? & ? & ? & Hcur). exists root'. split_and!; try done.
    intros Hfl Hc. apply Hcur; [done|]. by eapply current_changes. }
  assert (∀ v, synced (<[sealedKey p e f l := (encodeManifest sm, v)]> m) gs w) as Hsyi.
  { intros v. eapply synced_mono; [done| |done]. intros a b Ha Hb. to_render.
    rewrite render_lookup_insert; [by case_decide|..];
      (split_and!; [apply epoch_is_u64|..]; auto; apply (room_u64 gs); auto; lia). }
  assert (∀ v, is_Some (<[sealedKey p e f l := (encodeManifest sm, v)]> m !! sealedKey p e f l))
    as Hsome by (intros; by rewrite lookup_insert_eq).
  apply wp_bind, wp_Create.
  - intros v Hv Hnone. by apply Hpub.
  - intros er Hb Hex Hsome'. rewrite Hex. by apply Hpub; [|apply changes_refl|].
  - intros er v -> Hb Hv Hnone. destruct (errors_Is er ErrExist); [by apply Hpub|].
    simpl. exists root. by split_and!.
  - intros er -> Hb Hex. rewrite Hex. simpl. exists root. by split_and!.
Qed.

(** ** Appending *)

Lemma wp_holds fl m key data :
  wp (op_spec fl) (holds key data)
    (λ b m', m' = m ∧ (b = true → ∃ v, m !! key = Some (data, v))) m.
Proof.
  apply wp_bind, wp_Get; simpl; [|by intros; split..].
  intros d v Hd. split; [done|]. intros ->%String.eqb_eq. eauto.
Qed.

Lemma synced_head m gs w v : synced m gs w → synced m gs {| w with headVersion := v |}.
Proof. intros []. by constructor. Qed.

(** The writer that has just committed [g]. *)
Lemma synced_commit m gs w g data :
  room (gs ++ [g]) → synced m gs w →
  synced m (gs ++ [g]) {| w with
    nextDelta := u64 (nextDelta w + 1); openGroups := openGroups w ++ [g];
    openBytes := i64 (openBytes w + len64 data); last := g; hasLast := true |}.
Proof.
  intros Hroom [Hr Hn Ho _]. constructor; simpl.
  - by apply root_ok_snoc.
  - rewrite log_size_snoc, Hn. apply u64_small, (room_u64 _ _ Hroom). by rewrite log_size_snoc.
  - rewrite Ho, drop_app_le; [done|]. destruct Hr. unfold log_size in *. lia.
  - unfold last_ok. by rewrite last_app_one.
Qed.

(** What a method that appended [row] leaves behind. *)
Definition committed_post (fl : bool) (m : objs) (gs : list GroupInfo) (w : Writer) (row : GroupInfo)
    (r : Writer * (GroupInfo * option error)) (m' : objs) : Prop :=
  ∃ root', durable p e m' root' (gs ++ [row]) ∧ writer_ok m' (gs ++ [row]) r.1 ∧
    config r.1 = config w ∧ r.2.1 = row ∧ from_backend r.2.2 ∧
    (fl = false → current m w → r.2.2 = None ∧ stale r.1 = false ∧ current m' r.1).

Lemma wp_afterCommit fl fuel w m root gs g data :
  durable p e m root (gs ++ [g]) → w_path w = p → w_epoch w = e → synced m gs w →
  stale w = false → is_u64 (ID g) → length gs < fuel →
  wp (op_spec fl) (afterCommit fuel w g data) (committed_post fl m gs w g) m.
Proof.
  intros Hd Hp He Hsy Hst Hid Hfuel. unfold afterCommit.
  pose proof (log_room _ _ _ _ _ (du_log _ _ _ _ _ Hd)) as Hroom.
  apply (synced_commit _ _ _ _ data Hroom) in Hsy as Hsy1.
  set (w1 := mkWriter _ _ _ _ _ _ _ _ _ _ _ _ _) in *.
  assert (w_path w1 = p ∧ w_epoch w1 = e ∧ config w1 = config w ∧ stale w1 = false ∧
    logVersion w1 = logVersion w) as (Hp1 & He1 & Hc1 & Hst1 & Hv1) by done.
  clearbody w1. apply wp_bind.
  eapply wp_mono; [|apply wp_publishHead; try done; [by destruct Hsy1|]].
  2: { rewrite log_size_snoc. lia. }
  intros [w2 err] m2 (Hd2 & Hch2 & v & Hw2). simpl in Hw2. subst w2.
  assert (synced m2 (gs ++ [g]) w1) as Hsy2 by by eapply synced_changes.
  apply (synced_head _ _ _ v) in Hsy2.
  set (w2 := {| w1 with headVersion := v |}) in *.
  assert (w_path w2 = p ∧ w_epoch w2 = e ∧ config w2 = config w ∧ stale w2 = false ∧
    logVersion w2 = logVersion w) as (Hp2 & He2 & Hc2 & Hst2 & Hv2) by done.
  clearbody w2.
  assert (fl = false → current m w → current m2 w2) as Hcur2.
  { intros _ Hcur. eapply current_changes in Hcur; [|done|done]. unfold current in *. by rewrite Hv2. }
  destruct (sealThreshold w2 <=? openBytes w2)%Z.
  - apply wp_bind. eapply wp_mono; [|eapply wp_seal; try done].
    2: { rewrite length_app. simpl. lia. }
    intros [w3 serr] m3 (root3 & Hd3 & Hsy3 & Hc3 & Hst3 & Hb3 & Hex). simpl in *.
    assert (w_path w3 = p ∧ w_epoch w3 = e) as [Hp3 He3].
    { unfold config in *. split; congruence. }
    destruct serr as [er|]; simpl; exists root3; simpl; (split_and!; try done; try congruence).
    + solve_kept.
    + intros Hfl Hcur. by destruct (Hex Hfl (Hcur2 Hfl Hcur)).
    + intros Hfl Hcur. destruct (Hex Hfl (Hcur2 Hfl Hcur)) as (? & ? & ?). split_and!; [done|congruence|done].
  - simpl. exists root. simpl. split_and!; try done; auto.
Qed.

(** The row committed for [meta], once its identity and wallclock are settled. *)
Definition row_of (meta : GroupInfo) (payload : bytes) : GroupInfo :=
  {| meta with ObjectKey := groupKey p (ID meta); Size := len64 payload |}.

(** Either nothing was appended and an error reports it, or [row] was; an error
    may hide that, but never as a group object already stored. *)
Definition append_post (fl : bool) (m : objs) (gs : list GroupInfo) (w : Writer) (row : GroupInfo)
    (r : Writer * (GroupInfo * option error)) (m' : objs) : Prop :=
  ∃ root' gs', durable p e m' root' gs' ∧ writer_ok m' gs' r.1 ∧ config r.1 = config w ∧
    (gs' = gs ∧ r.2.1 = zeroGroupInfo ∧ r.2.2 ≠ None ∨
     gs' = gs ++ [row] ∧ from_backend r.2.2 ∧ (r.2.1 = row ∨ r.2.1 = zeroGroupInfo ∧ r.2.2 ≠ None)) ∧
    (fl = false → current m w → m !! groupKey p (ID row) = None →
     r.2 = (row, None) ∧ stale r.1 = false ∧ current m' r.1).

Lemma append_unchanged fl m m1 root gs w w1 row err :
  durable p e m1 root gs → writer_ok m1 gs w1 → config w1 = config w →
  (fl = false → current m w → m !! groupKey p (ID row) ≠ None) →
  append_post fl m gs w row (w1, (zeroGroupInfo, Some err)) m1.
Proof.
  intros Hd Hw Hc Hex. exists root, gs. split_and!; try done; [by left|].
  intros Hfl Hcur Hnone. by destruct (Hex Hfl Hcur).
Qed.

#[local] Ltac solve_unchanged :=
  eapply append_unchanged; try done; try solve_kept; try (constructor; simpl; done || congruence).

Lemma append_committed fl m m1 gs w row r m' :
  (fl = false → current m w → current m1 w) →
  committed_post fl m1 gs w row r m' → append_post fl m gs w row r m'.
Proof.
  intros Hcur (root' & Hd & Hw & Hc & Hrow & Hb & Hex). exists root', (gs ++ [row]).
  split_and!; try done; [right; split_and!; auto|]. intros Hfl Hc0 _.
  destruct (Hex Hfl (Hcur Hfl Hc0)) as (? & ? & ?). destruct r as [? [? ?]]. simpl in *. by subst.
Qed.

(** A failed commit that took effect: the row is in the log, unreported. *)
Lemma append_hidden m m1 root gs w w1 row err :
  durable p e m1 root (gs ++ [row]) → w_path w1 = p → w_epoch w1 = e → stale w1 = true →
  config w1 = config w → backend_error err = true →
  append_post true m gs w row (w1, (zeroGroupInfo, Some err)) m1.
Proof.
  intros Hd Hp He Hst Hc Hb. exists root, (gs ++ [row]). split_and!; try done.
  - constructor; [done|done|]. simpl. congruence.
  - right. split_and!; [done|done|]. by right.
Qed.

Lemma wp_commitGroup fl fuel w m root gs meta payload :
  durable p e m root gs → w_path w = p → w_epoch w = e → synced m gs w → stale w = false →
  row_ok p e (row_of meta payload) → room (gs ++ [row_of meta payload]) →
  (∀ a, list.last gs = Some a → (mediaEnd a <= MediaTime meta)%Z) → length gs < fuel →
  wp (op_spec fl) (commitGroup fuel w meta payload) (append_post fl m gs w (row_of meta payload)) m.
Proof.
  intros Hd Hp He Hsy Hst Hrow Hroom Hser Hfuel. set (row := row_of meta payload) in *.
  assert (is_u64 (ID meta)) as Hid by apply Hrow.
  pose proof (log_room _ _ _ _ _ (du_log _ _ _ _ _ Hd)) as Hroom0.
  assert (is_u64 (log_size gs)) as Hu by (by apply (room_u64 gs)).
  assert (writer_ok m gs w) as Hwok by by constructor.
  assert (nextDelta w = log_size gs) as Hn by apply Hsy.
  unfold commitGroup. rewrite Hp. change {| meta with ObjectKey := _; Size := _ |} with row.
  change (ObjectKey row) with (groupKey p (ID meta)).
  set (gk := groupKey p (ID meta)).
  assert (wf_key (KGroup (Epoch (ID meta)) (Sequence (ID meta)))) as Hwk
    by (split; auto using Epoch_u64, Sequence_u64).
  assert (∀ v, m !! gk = None → durable p e (<[gk := (payload, v)]> m) root gs ∧
    changes (λ k, k = KGroup (Epoch (ID meta)) (Sequence (ID meta))) m (<[gk := (payload, v)]> m))
    as Hpay.
  { intros v Hnone. split; [by apply durable_payload|].
    by apply (changes_insert _ _ _ (KGroup (Epoch (ID meta)) (Sequence (ID meta))));
      [| |apply changes_refl]. }
  assert (∀ v, m !! gk = None → synced (<[gk := (payload, v)]> m) gs w) as Hsy1.
  { intros v Hnone. by eapply synced_changes; [|apply Hpay| |]. }
  apply wp_bind, wp_Create.
  - intros v Hv Hnone. destruct (Hpay v Hnone) as [Hd1 Hc1]. specialize (Hsy1 v Hnone).
    assert (<[gk := (payload, v)]> m !! ObjectKey row = Some (payload, v)) as Hpl
      by apply lookup_insert_eq.
    assert (∀ a, a ∈ gs → ID a = ID row → is_Some (<[gk := (payload, v)]> m !! marker p (ID row))) as Hfresh.
    { intros a Ha Hid'. unfold gk. rewrite group_key_render. unfold marker.
      rewrite lookup_insert_ne by (apply render_ne; [done|split; auto using Epoch_u64, Sequence_u64|done]).
      eapply payloads_fresh; [|by apply (du_payloads _ _ _ _ _ Hd)|done|exact Ha|done].
      by eapply log_rows, du_log. }
    assert (current m w → current (<[gk := (payload, v)]> m) w) as Hcur
      by (by intros; eapply current_changes).
    set (m1 := <[gk := (payload, v)]> m) in *. clearbody m1.
    apply wp_bind, wp_now. intros t Ht. rewrite He, Hn.
    set (data := encodeManifest _). cbv zeta. set (dk := deltaKey p e (log_size gs)).
    assert (m1 !! dk = None) as Hdk.
    { destruct (m1 !! dk) as [o|] eqn:Eo; [|done].
      destruct (log_delta _ _ _ _ _ (du_log _ _ _ _ _ Hd1) _ _ Hu Eo) as (g & d & Hg & _).
      apply lookup_lt_Some in Hg. unfold log_size in Hg. lia. }
    assert (∀ v, durable p e (<[dk := (data, v)]> m1) root (gs ++ [row])) as Hcommit.
    { intros v2. eapply durable_commit; try done;
        [apply delta_encodable; [done|apply Hrow|done]|done]. }
    assert (∀ v, changes is_delta m1 (<[dk := (data, v)]> m1)) as Hch.
    { intros v2. apply (changes_insert _ _ _ (KDelta e (log_size gs))); [|by eexists|apply changes_refl].
      split; [apply epoch_is_u64|done]. }
    assert (∀ v, wp (op_spec fl) (afterCommit fuel w row data) (append_post fl m gs w row)
      (<[dk := (data, v)]> m1)) as Hafter.
    { intros v2. eapply wp_mono; [|eapply wp_afterCommit; try done].
      2: { by eapply synced_changes; [|apply Hch|intros ?? [? ?]|]. }
      intros r m'. apply append_committed. intros _ Hc0.
      by eapply current_changes; [apply Hch|intros [? ?]|apply Hcur]. }
    apply wp_bind, wp_Create.
    + intros v2 Hv2 _. apply Hafter.
    + intros er _ _ [o Ho]. congruence.
    + intros er v2 -> Hb Hv2 _. apply wp_bind. eapply wp_mono; [|apply wp_holds].
      intros [] m' [-> _]; [apply Hafter|]. apply append_hidden with (root := root); try done. solve_kept.
    + intros er -> Hb Hex. apply wp_bind. eapply wp_mono; [|apply wp_holds].
      intros [] m' [-> Hh]; [destruct (Hh eq_refl); congruence|].
      solve_unchanged.
  - intros er Hb Hex [o Ho]. rewrite Hex. solve_unchanged.
    intros _ _ Hnone. subst gk. simpl in *. congruence.
  - intros er v -> Hb Hv Hnone. destruct (Hpay v Hnone) as [Hd1 _].
    destruct (errors_Is er ErrExist); solve_unchanged. constructor; auto.
  - intros er -> Hb Hex. rewrite Hex. solve_unchanged.
Qed.

(** The caller's part of a row: values of their Go types, texts that JSON keeps. *)
Definition meta_ok (meta : GroupInfo) (payload : bytes) : Prop :=
  is_i64 (MediaTime meta) ∧ is_i64 (Duration meta) ∧ is_i64 (Wallclock meta) ∧
  is_u64 (ObjectCount meta) ∧ is_i64 (Size meta) ∧ is_i64 (len64 payload) ∧
  valid_utf8 (MIME meta) = true ∧ valid_utf8 (Encoding meta) = true.

(** [meta] as [AppendGroup] stamps it, with the wallclock it settles on. *)
Definition stamped (w : Writer) (meta : GroupInfo) (wallclock : Z) : GroupInfo :=
  {| meta with ID := NewGroupID (w_epoch w) (Sequence (ID meta)); Wallclock := wallclock |}.

Definition is_wallclock (w : Writer) (meta : GroupInfo) (t : Z) : Prop :=
  if (Wallclock meta =? 0)%Z && String.eqb (TimeSource (w_schema w)) TimeSourceIngest
  then is_i64 t else t = Wallclock meta.

Lemma row_of_ok w meta payload t :
  w_epoch w = e → meta_ok meta payload → is_i64 t → GroupInfo_validate (stamped w meta (Wallclock meta)) = None →
  row_ok p e (row_of (stamped w meta t) payload).
Proof.
  intros He (Hmt & Hd & Hw & Hc & Hs & Hlen & Hmi & Hen) Ht Hv.
  assert (is_u64 (NewGroupID (w_epoch w) (Sequence (ID meta)))) as Hid by apply NewGroupID_u64.
  apply validate_mediaEnd in Hv as (H1 & _ & _ & _ & _ & H2); [|by split_and!].
  unfold row_ok, wf_GroupInfo, wf_group. split_and!; try done.
  - by apply (render_utf8 p (KGroup _ _)), Hpar.
  - simpl. rewrite Epoch_NewGroupID, He. destruct Hpar as [_ H].
    change maxGroupEpoch with 16777215%N in H. apply N.mod_small. lia.
Qed.

Lemma checkOrder_spec w gs meta :
  last_ok w gs → checkOrder w meta = None →
  ∀ a, list.last gs = Some a → (mediaEnd a <= MediaTime meta)%Z.
Proof.
  unfold last_ok, checkOrder. intros Hl Hc a Ha. rewrite Ha in Hl.
  destruct Hl as (Hh & _ & Hm). rewrite Hh in Hc. simpl in Hc.
  destruct (Z.ltb_spec (MediaTime meta) (mediaEnd (last w))); [done|lia].
Qed.

(** [AppendGroup]'s checks pass: the group is valid, is not the one committed
    last and does not start before its end. *)
Definition admissible (gs : list GroupInfo) (row : GroupInfo) : Prop :=
  ∀ a, list.last gs = Some a → ID a ≠ ID row ∧ (mediaEnd a <= MediaTime row)%Z.

Lemma checkOrder_admissible w gs meta :
  last_ok w gs → admissible gs meta →
  hasLast w && (ID meta =? ID (last w))%N = false ∧ checkOrder w meta = None.
Proof.
  unfold last_ok, admissible, checkOrder. intros Hl Ha.
  destruct (list.last gs) as [a|]; [|by rewrite Hl].
  destruct Hl as (-> & -> & ->). destruct (Ha a eq_refl) as [Hne Hle]. simpl.
  rewrite (proj2 (N.eqb_neq _ _)) by congruence. by rewrite (proj2 (Z.ltb_ge _ _)).
Qed.

Lemma wp_appendLocked fl fuel w m root gs meta payload :
  durable p e m root gs → w_path w = p → w_epoch w = e → synced m gs w → stale w = false →
  row_ok p e (row_of meta payload) → room (gs ++ [row_of meta payload]) → length gs < fuel →
  wp (op_spec fl) (appendLocked fuel w meta payload) (λ r m',
    ∃ root' gs', durable p e m' root' gs' ∧ writer_ok m' gs' r.1 ∧ config r.1 = config w ∧
    (gs' = gs ∧ r.2.1 = zeroGroupInfo ∧ r.2.2 ≠ None ∨
     gs' = gs ++ [row_of meta payload] ∧ from_backend r.2.2 ∧
       (r.2.1 = row_of meta payload ∨ r.2.1 = zeroGroupInfo ∧ r.2.2 ≠ None)) ∧
    (fl = false → current m w → m !! groupKey p (ID meta) = None → admissible gs meta →
     r.2 = (row_of meta payload, None) ∧ stale r.1 = false ∧ current m' r.1)) m.
Proof.
  intros Hd Hp He Hsy Hst Hrow Hroom Hfuel. unfold appendLocked.
  assert (writer_ok m gs w) as Hwok by by constructor.
  pose proof (sy_last _ _ _ Hsy) as Hl.
  destruct (hasLast w && (ID meta =? ID (last w))%N) eqn:Edup; [|destruct (checkOrder w meta) as [er|] eqn:Eord].
  - simpl. exists root, gs. split_and!; try done; [by left|]. intros _ _ _ Ha.
    eapply checkOrder_admissible in Hl as [??]; [|exact Ha]. congruence.
  - simpl. exists root, gs. split_and!; try done; [by left|]. intros _ _ _ Ha.
    eapply checkOrder_admissible in Hl as [??]; [|exact Ha]. congruence.
  - eapply wp_mono; [|eapply wp_commitGroup; try done; by eapply checkOrder_spec].
    intros r m' (root' & gs' & ? & ? & ? & ? & Hex). exists root', gs'. split_and!; auto.
Qed.

(** What [AppendGroup] and [Append] leave behind: the log as it was and an
    error, or the log extended by one row of the kind [R]. *)
Definition appended (R : GroupInfo → Prop) (gs : list GroupInfo) (w : Writer)
    (r : Writer * (GroupInfo * option error)) (m' : objs) : Prop :=
  ∃ root' gs', durable p e m' root' gs' ∧ writer_ok m' gs' r.1 ∧ config r.1 = config w ∧
    (gs' = gs ∧ r.2.1 = zeroGroupInfo ∧ r.2.2 ≠ None ∨
     ∃ row, R row ∧ gs' = gs ++ [row] ∧ from_backend r.2.2 ∧
       (r.2.1 = row ∨ r.2.1 = zeroGroupInfo ∧ r.2.2 ≠ None)).

(** The row was appended and reported, and the writer is up to date. *)
Definition appended_ok (R : GroupInfo → Prop) (gs : list GroupInfo)
    (r : Writer * (GroupInfo * option error)) (m' : objs) : Prop :=
  ∃ row root', R row ∧ r.2 = (row, None) ∧ durable p e m' root' (gs ++ [row]) ∧
    writer_ok m' (gs ++ [row]) r.1 ∧ stale r.1 = false ∧ current m' r.1.

Definition group_row (w : Writer) (meta : GroupInfo) (payload : bytes) (row : GroupInfo) : Prop :=
  ∃ t, is_wallclock w meta t ∧ row = row_of (stamped w meta t) payload.

Lemma config_eq w w' :
  config w' = config w → w_path w' = w_path w ∧ w_epoch w' = w_epoch w ∧ w_schema w' = w_schema w.
Proof. unfold config. by intros [= -> -> -> _]. Qed.

Lemma wp_AppendGroup fl fuel w m root gs meta payload :
  durable p e m root gs → writer_ok m gs w → meta_ok meta payload →
  (log_size gs + 1 < 2 ^ 62)%N → length gs < fuel →
  wp (op_spec fl) (AppendGroup fuel w meta payload) (λ r m',
    appended (group_row w meta payload) gs w r m' ∧
    (fl = false → stale w = true ∨ current m w →
     GroupInfo_validate (stamped w meta (Wallclock meta)) = None →
     m !! groupKey p (ID (stamped w meta 0)) = None → admissible gs (stamped w meta 0) →
     appended_ok (group_row w meta payload) gs r m')) m.
Proof.
  intros Hd Hw Hmeta Hroom Hfuel. unfold AppendGroup.
  set (meta1 := {| meta with ID := NewGroupID (w_epoch w) (Sequence (ID meta)) |}).
  change (stamped w meta (Wallclock meta)) with meta1.
  assert (∀ w' er, writer_ok m gs w' → config w' = config w →
    appended (group_row w meta payload) gs w (w', (zeroGroupInfo, Some er)) m) as Hfail.
  { intros w' er Hw' Hc. exists root, gs. split_and!; try done. by left. }
  destruct (GroupInfo_validate meta1) as [er|] eqn:Ev; [split; [by apply Hfail|done]|].
  apply wp_bind. eapply wp_mono; [|apply (wp_reloadIfStale m root); [apply Hd|done|done]].
  intros [w1 err] m' (-> & Hc & Hw1 & Hf & Hst & Hcur). simpl in Hc, Hw1, Hf, Hst, Hcur.
  destruct err as [er|]; [split; [by apply Hfail|]; intros Hfl; by apply Hf in Hfl|].
  specialize (Hst eq_refl). specialize (Hcur eq_refl).
  apply config_eq in Hc as Hc'. destruct Hc' as (Hcp & Hce & Hcs).
  assert (∀ t, is_i64 t → is_wallclock w meta t →
    wp (op_spec fl) (appendLocked fuel w1 (stamped w meta t) payload) (λ r m',
      appended (group_row w meta payload) gs w r m' ∧
      (fl = false → stale w = true ∨ current m w → None = None (A:=error) →
       m !! groupKey p (ID (stamped w meta 0)) = None → admissible gs (stamped w meta 0) →
       appended_ok (group_row w meta payload) gs r m')) m) as Hlocked.
  { intros t Ht Hwall. destruct Hw1 as [Hp1 He1 Hs1].
    assert (group_row w meta payload (row_of (stamped w meta t) payload)) as HR by by exists t.
    eapply wp_mono; [|eapply wp_appendLocked; try done; [by apply Hs1| |]].
    - intros r m' (root' & gs' & Hd' & Hw' & Hc' & Hcase & Hex). split.
      + exists root', gs'. split_and!; [done|done|congruence|].
        destruct Hcase as [?|(-> & ? & ?)]; [by left|right]. by eexists.
      + intros Hfl Hwc _ Hfree Hadm. destruct (Hex Hfl (Hcur Hwc) Hfree Hadm) as (Hr & ? & ?).
        exists (row_of (stamped w meta t) payload), root'. rewrite Hr in Hcase. simpl in Hcase.
        destruct Hcase as [(_ & _ & ?)|(-> & _ & _)]; done.
    - apply row_of_ok; auto. congruence.
    - unfold room. by rewrite log_size_snoc. }
  rewrite Hcs. unfold is_wallclock in Hlocked.
  change (Wallclock meta1) with (Wallclock meta).
  destruct ((Wallclock meta =? 0)%Z && String.eqb (TimeSource (w_schema w)) TimeSourceIngest).
  - apply wp_bind, wp_now. intros t Ht. by apply Hlocked.
  - apply (Hlocked (Wallclock meta)); [apply Hmeta|done].
Qed.

(** ** A sequence already taken *)

(** The answer to a group object already stored under the sequence. *)
Definition collided (gs : list GroupInfo) (w : Writer) (m : objs)
    (r : Writer * (GroupInfo * option error)) (m' : objs) : Prop :=
  m' = m ∧ writer_ok m gs r.1 ∧ config r.1 = config w ∧ stale r.1 = true ∧
  r.2.1 = zeroGroupInfo ∧
  ∃ er, r.2.2 = Some (ErrGroupExists :: er) ∧ errors_Is er ErrExist = true.

Lemma wp_commitGroup_taken fuel gs w m meta payload :
  writer_ok m gs w → is_Some (m !! groupKey p (ID meta)) →
  wp (op_spec false) (commitGroup fuel w meta payload) (collided gs w m) m.
Proof.
  intros [Hp He _] [o Ho]. unfold commitGroup. rewrite Hp. apply wp_bind.
  change (ObjectKey {| meta with ObjectKey := _; Size := _ |}) with (groupKey p (ID meta)).
  apply wp_Create; try done; [congruence|].
  intros er _ Hex _. rewrite Hex. simpl. split_and!; try done; [solve_kept|eauto].
Qed.

Lemma wp_AppendGroup_taken fuel w m root gs meta payload :
  durable p e m root gs → writer_ok m gs w → length gs < fuel →
  GroupInfo_validate (stamped w meta (Wallclock meta)) = None →
  is_Some (m !! groupKey p (ID (stamped w meta 0))) → admissible gs (stamped w meta 0) →
  wp (op_spec false) (AppendGroup fuel w meta payload) (collided gs w m) m.
Proof.
  intros Hd Hw Hfuel Hv Htaken Hadm. unfold AppendGroup.
  set (meta1 := {| meta with ID := NewGroupID (w_epoch w) (Sequence (ID meta)) |}).
  change (stamped w meta (Wallclock meta)) with meta1 in Hv. rewrite Hv.
  apply wp_bind. eapply wp_mono; [|apply (wp_reloadIfStale m root); [apply Hd|done|done]].
  intros [w1 err] m' (-> & Hc & Hw1 & Hf & Hst & _). simpl in Hc, Hw1, Hf, Hst.
  rewrite (Hf eq_refl) in *. specialize (Hst eq_refl).
  apply config_eq in Hc as Hc'. destruct Hc' as (Hcp & Hce & Hcs).
  assert (∀ t, wp (op_spec false) (appendLocked fuel w1 (stamped w meta t) payload)
    (collided gs w m) m) as Hlocked.
  { intros t. destruct (wr_synced _ _ _ Hw1 Hst). unfold appendLocked.
    destruct (checkOrder_admissible w1 gs (stamped w meta t)) as [-> ->]; [done|exact Hadm|].
    eapply wp_mono; [|by apply (wp_commitGroup_taken fuel gs w1)].
    intros r m' (? & ? & ? & ? & ? & ?). split_and!; try done. congruence. }
  change (Wallclock meta1) with (Wallclock meta).
  destruct ((Wallclock meta =? 0)%Z && String.eqb (TimeSource (w_schema w1)) TimeSourceIngest).
  - apply wp_bind, wp_now. intros t Ht. apply Hlocked.
  - apply (Hlocked (Wallclock meta)).
Qed.

(** ** Append *)

(** The sequence and the anchor that follow the last committed group. *)
Definition next_seq (gs : list GroupInfo) : N :=
  match list.last gs with Some a => Sequence (ID a) + 1 | None => 0 end.

Definition next_media (gs : list GroupInfo) : Z :=
  match list.last gs with Some a => mediaEnd a | None => 0 end.

Definition append_meta (gs : list GroupInfo) (seq : N) (wallclock duration : Z) : GroupInfo :=
  {| zeroGroupInfo with ID := NewGroupID 0 seq; MediaTime := next_media gs;
     Duration := duration; Wallclock := wallclock |}.

(** A row [Append] commits: back to back with the last group, at one of the
    sequences that follow it. *)
Definition append_row (gs : list GroupInfo) (skipped : N) (duration : Z) (payload : bytes)
    (row : GroupInfo) : Prop :=
  ID row = NewGroupID e (next_seq gs + skipped) ∧ MediaTime row = next_media gs ∧
  Duration row = duration ∧ Size row = len64 payload ∧ ObjectKey row = groupKey p (ID row).

Lemma next_seq_bound gs : (next_seq gs <= 2 ^ 40)%N.
Proof.
  unfold next_seq. destruct (list.last gs) as [a|]; [|lia].
  pose proof (Sequence_bound (ID a)) as H. change groupSeqMask with 1099511627775%N in H. lia.
Qed.

(** What the loop reads off the writer. *)
Lemma next_of_writer w gs :
  last_ok w gs →
  (if hasLast w then u64 (Sequence (ID (last w)) + 1) else 0%N) = next_seq gs ∧
  (if hasLast w then mediaEnd (last w) else 0%Z) = next_media gs.
Proof.
  unfold last_ok, next_seq, next_media. destruct (list.last gs) as [a|]; [|by intros ->].
  intros (-> & -> & ->). split; [|done]. apply u64_small.
  pose proof (Sequence_bound (ID a)) as H. change groupSeqMask with 1099511627775%N in H.
  unfold is_u64, two64. lia.
Qed.

Lemma next_media_i64 gs : is_i64 (next_media gs).
Proof. unfold next_media, mediaEnd. destruct (list.last gs); auto with ledger_range. done. Qed.

Lemma append_meta_row w gs seq wallclock duration payload row skipped :
  w_epoch w = e → (seq = next_seq gs + skipped)%N →
  group_row w (append_meta gs seq wallclock duration) payload row →
  append_row gs skipped duration payload row.
Proof.
  intros He -> (t & _ & ->). split_and!; try done. simpl.
  rewrite Sequence_NewGroupID, He, !NewGroupID_add, N.Div0.mod_mod. done.
Qed.

Lemma collision_not_backend er : isGroupObjectCollision er = true → ¬ from_backend er.
Proof.
  destruct er as [er|]; [|done]. simpl. intros [H _]%andb_prop Hb.
  by rewrite (backend_not_ledger er ErrGroupExists) in H.
Qed.

Section Append.
Context (gs : list GroupInfo) (wallclock duration : Z) (payload : bytes) (fuel : nat).
Context (Hroom : (log_size gs + 1 < 2 ^ 62)%N) (Hfuel : length gs < fuel).
Context (Hwall : is_i64 wallclock) (Hdur : is_i64 duration) (Hlen : is_i64 (len64 payload)).

Lemma append_meta_ok seq : meta_ok (append_meta gs seq wallclock duration) payload.
Proof. split_and!; try done. apply next_media_i64. Qed.

Lemma wp_Append_loop fl left : ∀ k floor w m root,
  durable p e m root gs → writer_ok m gs w → (floor <= next_seq gs + k)%N →
  (k + N.of_nat left <= 16)%N →
  wp (op_spec fl) (Append_loop fuel left floor wallclock duration w payload)
    (appended (λ row, ∃ s, (s <= 16)%N ∧ append_row gs s duration payload row) gs w) m.
Proof.
  pose proof (next_seq_bound gs) as Hns.
  induction left as [|left IH]; intros k floor w m root Hd Hw Hfloor Hk; cbn [Append_loop];
    (apply wp_bind; eapply wp_mono; [|apply (wp_reloadIfStale m root); [apply Hd|done|done]]);
    intros [w1 err] m' (-> & Hc & Hw1 & Hf & Hst & _); simpl in Hc, Hw1, Hf, Hst;
    (destruct err as [er|]; [exists root, gs; split_and!; try done; by left|]);
    specialize (Hst eq_refl); destruct (wr_synced _ _ _ Hw1 Hst) as [_ _ _ Hl];
    destruct (next_of_writer w1 gs Hl) as [-> ->]; cbv zeta;
    set (seq := N.max (next_seq gs) floor);
    fold (append_meta gs seq wallclock duration);
    destruct (config_eq _ _ Hc) as (Hcp & Hce & _);
    assert (∃ s, seq = next_seq gs + s ∧ s <= k)%N as (sk & Hseq & Hsk)
      by (exists (seq - next_seq gs)%N; lia);
    (apply wp_bind; eapply wp_mono; [|apply (wp_AppendGroup fl fuel w1 m root gs); try done;
      apply append_meta_ok]).
  all: intros [w2 [row err]] m2 [(root2 & gs2 & Hd2 & Hw2 & Hc2 & Hcase) _]; simpl in Hw2, Hc2, Hcase.
  all: assert (appended (λ row, ∃ s, (s <= 16)%N ∧ append_row gs s duration payload row) gs w
    (w2, (row, err)) m2) as Hret.
  1, 3: exists root2, gs2; split_and!; try done; [simpl; congruence|];
    destruct Hcase as [?|(rw & HR & ?)]; [by left|right; exists rw; split; [|done]];
    exists sk; split; [lia|]; eapply append_meta_row; [|done|done]; rewrite Hce; apply Hw.
  all: destruct (isGroupObjectCollision err) eqn:Ecol; cbn [negb]; try exact Hret.
  destruct Hcase as [(-> & _)|(_ & _ & _ & Hb & _)]; [|by apply collision_not_backend in Ecol].
  rewrite u64_small by (unfold is_u64, two64; lia).
  eapply wp_mono; [|eapply (IH (k + 1)%N); [done|done|lia|lia]].
  intros r m3 (root3 & gs3 & ? & ? & ? & ?). exists root3, gs3. split_and!; try done. congruence.
Qed.

(** Without failures: the first free sequence among the next seventeen. *)
Section Free.
Context (Hseq : (next_seq gs + 16 < 2 ^ 40)%N).
Context (Hwall0 : (0 <= wallclock)%Z) (Hdur0 : (0 <= duration)%Z).
Context (Hend : is_i64 (next_media gs + duration)).

Lemma append_meta_valid w seq :
  w_epoch w = e →
  GroupInfo_validate (stamped w (append_meta gs seq wallclock duration) wallclock) = None.
Proof.
  intros He. destruct Hpar as [_ Hpe]. change maxGroupEpoch with 16777215%N in Hpe.
  apply validate_intro; try done; [|apply next_media_i64].
  unfold stamped. cbn [ID]. rewrite Epoch_NewGroupID, He, N.mod_small; lia.
Qed.

Lemma append_meta_admissible w s t :
  w_epoch w = e → (s <= 16)%N →
  admissible gs (stamped w (append_meta gs (next_seq gs + s) wallclock duration) t).
Proof.
  intros He Hs a Ha. simpl. unfold next_media. rewrite Ha. split; [|lia].
  intros Heq. apply (f_equal Sequence) in Heq. rewrite !Sequence_NewGroupID, N.Div0.mod_mod in Heq.
  unfold next_seq in *. rewrite Ha in *. rewrite N.mod_small in Heq by lia. lia.
Qed.

Lemma append_meta_key w s t :
  w_epoch w = e →
  ID (stamped w (append_meta gs s wallclock duration) t) = NewGroupID e s.
Proof.
  intros He. simpl. rewrite Sequence_NewGroupID, He, !NewGroupID_add, N.Div0.mod_mod. done.
Qed.

(** One attempt of the loop, at the sequence [skipped] past the next. *)
Lemma wp_Append_attempt w m root skipped (Q : Writer * (GroupInfo * option error) → objs → Prop) :
  durable p e m root gs → writer_ok m gs w → stale w = true ∨ current m w → (skipped <= 16)%N →
  let key := groupKey p (NewGroupID e (next_seq gs + skipped)) in
  (m !! key = None → ∀ r m', appended_ok (append_row gs skipped duration payload) gs r m' → Q r m') →
  (is_Some (m !! key) → ∀ r m', collided gs w m r m' → Q r m') →
  wp (op_spec false)
    (AppendGroup fuel w (append_meta gs (next_seq gs + skipped) wallclock duration) payload) Q m.
Proof.
  intros Hd Hw Hcur Hs key HQ1 HQ2.
  assert (w_epoch w = e) as He by apply Hw.
  pose proof (append_meta_valid w (next_seq gs + skipped) He) as Hv.
  pose proof (append_meta_admissible w skipped 0 He Hs) as Hadm.
  pose proof (append_meta_key w (next_seq gs + skipped) 0 He) as Hkey.
  destruct (m !! key) as [o|] eqn:Eo.
  - eapply wp_mono; [|eapply wp_AppendGroup_taken; try done].
    + intros r m' Hc. apply HQ2; [done|done].
    + rewrite Hkey. by exists o.
  - eapply wp_mono; [|eapply (wp_AppendGroup false); try done; apply append_meta_ok].
    intros r m' [_ Hok]. apply HQ1; [done|].
    destruct Hok as (row & root' & HR & ?); [done|done|done|by rewrite Hkey|done|].
    exists row, root'. split; [|done]. by eapply append_meta_row.
Qed.

Lemma wp_Append_loop_free left : ∀ k j floor w m root,
  durable p e m root gs → writer_ok m gs w → stale w = true ∨ current m w →
  N.max (next_seq gs) floor = (next_seq gs + k)%N →
  (k + N.of_nat left <= 16)%N → j <= left →
  (∀ i, i < j → is_Some (m !! groupKey p (NewGroupID e (next_seq gs + (k + N.of_nat i))))) →
  m !! groupKey p (NewGroupID e (next_seq gs + (k + N.of_nat j))) = None →
  wp (op_spec false) (Append_loop fuel left floor wallclock duration w payload)
    (appended_ok (append_row gs (k + N.of_nat j) duration payload) gs) m.
Proof.
  induction left as [|left IH]; intros k j floor w m root Hd Hw Hcur Hfl Hk Hj Htaken Hfree;
    cbn [Append_loop];
    (apply wp_bind; eapply wp_mono; [|apply (wp_reloadIfStale m root); [apply Hd|done|done]]);
    intros [w1 err] m' (-> & Hc & Hw1 & Hf & Hst & Hcur1); simpl in Hc, Hw1, Hf, Hst, Hcur1;
    rewrite (Hf eq_refl) in *; specialize (Hst eq_refl); specialize (Hcur1 eq_refl Hcur);
    destruct (wr_synced _ _ _ Hw1 Hst) as [_ _ _ Hl];
    destruct (next_of_writer w1 gs Hl) as [-> ->]; cbv zeta; rewrite Hfl;
    fold (append_meta gs (next_seq gs + k) wallclock duration);
    apply wp_bind; (eapply wp_Append_attempt; try done; [by right|lia|..]).
  all: intros Hkey [w2 [row er]] m2 Hpost.
  1, 3: assert (j = 0) as -> by
    (destruct j as [|j]; [done|]; destruct (Htaken 0 ltac:(lia)) as [o Ho];
     rewrite N.add_0_r in Ho; congruence);
    rewrite N.add_0_r; pose proof Hpost as (row' & root' & _ & [= _ ->] & _); exact Hpost.
  all: assert (j ≠ 0) as Hj0 by (intros ->; rewrite N.add_0_r in Hfree; destruct Hkey; congruence).
  - lia.
  - destruct Hpost as (-> & Hw2 & Hc2 & Hst2 & _ & er' & Her & Hex). simpl in *. subst er.
    assert (isGroupObjectCollision (Some (ErrGroupExists :: er')) = true) as ->.
    { unfold isGroupObjectCollision, errors_Is in *. apply bool_decide_eq_true in Hex.
      rewrite !bool_decide_eq_true_2; [done|set_solver..]. }
    cbn [negb]. pose proof (next_seq_bound gs).
    rewrite u64_small by (unfold is_u64, two64; lia). destruct j as [|j]; [done|].
    replace (k + N.of_nat (S j))%N with (k + 1 + N.of_nat j)%N in * by lia.
    eapply IH; try done; [by left|lia|lia|lia|].
    intros i Hi. replace (k + 1 + N.of_nat i)%N with (k + N.of_nat (S i))%N by lia. apply Htaken. lia.
Qed.

End Free.
End Append.

End WriterLog.
