(* ===== verification/Isolation.v ===== *)
(** * What a writer writes

    Whatever the store answers, a writer's methods write and delete only objects
    of its own epoch's directory, so the track root and the other epochs of the
    track are left alone. *)

From S2P Require Import Prelude GoStd Store Group Manifest Track Writer EpochLog WriterLog.
#[local] Open Scope string_scope.

(** An object under [<track>/e<epoch>/]. *)
Definition epoch_object (p : TrackPath) (e : N) (key : string) : Prop :=
  ∃ s, key = p +:+ "/" +:+ epochDir e +:+ "/" +:+ s.

(** The root object and the objects of other epochs are none of those. *)
Lemma other_object p e k :
  is_u64 e → wf_key k → k = KRoot ∨ key_epoch k ≠ e → ¬ epoch_object p e (render p k).
Proof.
  intros He Hk Hne [s Hs].
  assert (∃ t, render p k = p +:+ "/" +:+ t ∧
    (k = KRoot ∧ t = rootObject ∨ k ≠ KRoot ∧ t = epochDir (key_epoch k) +:+ "/" +:+ epoch_suffix k))
    as (t & Ht & Hkind).
  { destruct k; (eexists; split; [reflexivity|]); (by left) || by right. }
  rewrite Ht in Hs. apply string_app_inj_l in Hs. simpl in Hs. injection Hs as Hs.
  destruct Hkind as [[-> ->]|[Hroot ->]]; [discriminate Hs|].
  destruct Hne as [?|Hne]; [done|]. unfold epochDir in Hs. simpl in Hs. injection Hs as Hs.
  apply pad_delim_inj in Hs as [Hs _]; [done|by apply wf_key_epoch|done|done].
Qed.

(** [w'] is the writer [w], of epoch [e] of track [p], later. *)
Definition same_epoch (w w' : Writer) : Prop := config w' = config w.


Lemma writes_Get P k (Q : result (bytes * Version) → Prop) :
  (∀ r, Q r) → writes P Q (store_Get k).
Proof. intros H. by split. Qed.

Lemma writes_now P (Q : Z → Prop) : (∀ t, Q t) → writes P Q now.
Proof. intros H. by split. Qed.

Lemma writes_Create (P : string → Prop) k d (Q : result Version → Prop) :
  P k → (∀ r, Q r) → writes P Q (store_Create k d).
Proof. intros Hk H. by split. Qed.

Lemma writes_Swap (P : string → Prop) k d v (Q : result Version → Prop) :
  P k → (∀ r, Q r) → writes P Q (store_Swap k d v).
Proof. intros Hk H. by split. Qed.

Lemma writes_Delete (P : string → Prop) k (Q : result unit → Prop) :
  P k → (∀ r, Q r) → writes P Q (store_Delete k).
Proof. intros Hk H. by split. Qed.

Definition any {A} (_ : A) : Prop := True.


(** Programs that only read. *)
Lemma writes_fetchEpochLog P path epoch : writes P any (fetchEpochLog path epoch).
Proof. unfold fetchEpochLog. eapply (writes_bind P any); [by apply writes_Get|]. done. Qed.

Lemma writes_fetchHead P path epoch : writes P any (fetchHead path epoch).
Proof. unfold fetchHead. eapply (writes_bind P any); [by apply writes_Get|]. done. Qed.

Lemma writes_holds P key data : writes P any (holds key data).
Proof. unfold holds. eapply (writes_bind P any); [by apply writes_Get|]. done. Qed.

Lemma writes_recover_loop P fuel from : ∀ n w,
  writes P (λ r, same_epoch w r.1) (recover_loop fuel from n w).
Proof.
  induction fuel as [|fuel IH]; intros n w; [done|]. cbn [recover_loop].
  eapply (writes_bind P any); [by apply writes_Get|]. intros [[data v]|er] _.
  - destruct (decodeManifest data) as [d|er]; [|done].
    eapply writes_mono; [|apply IH]. intros [w' err] Hw. unfold same_epoch in *. simpl in *. rewrite Hw.
    unfold recover_delta. by case_match.
  - destruct (errors_Is er ErrNotExist); [|done]. by destruct (n <? from)%N.
Qed.

Lemma writes_recover P fuel w : writes P (λ r, same_epoch w r.1) (recover fuel w).
Proof.
  unfold recover. eapply (writes_bind P any); [by apply writes_fetchHead|].
  assert (∀ from w1, same_epoch w w1 → writes P (λ r, same_epoch w r.1)
    (r ← recover_loop fuel from (OpenFrom (logRoot w1)) w1;
     let '(w', err) := r in
     mret match err with Some er => (w', Some er) | None => (recover_last w', None) end)) as H.
  { intros from w1 Hw1. eapply writes_bind; [apply writes_recover_loop|].
    intros [w2 [er|]] Hw2; unfold same_epoch in *; simpl in *; [congruence|].
    destruct (recover_last_kept w2) as [(Hk & _) _]. congruence. }
  intros [[h v]|er] _; [by apply H|]. destruct (errors_Is er ErrNotExist); [by apply H|done].
Qed.

Lemma writes_reloadIfStale P fuel w : writes P (λ r, same_epoch w r.1) (reloadIfStale fuel w).
Proof.
  unfold reloadIfStale. destruct (negb (stale w)); [done|].
  eapply (writes_bind P any); [by apply writes_fetchEpochLog|]. intros [[root v]|er] _; [|done].
  eapply writes_bind; [apply writes_recover|]. intros [w' [er|]] Hw; exact Hw.
Qed.

Section Writes.
Context (p : TrackPath) (e : N).

(** The objects of the log: all of the epoch's but the groups. *)
Context (P : string → Prop) (HP : ∀ s, HasPrefix s groupPrefix = false →
  P (p +:+ "/" +:+ epochDir e +:+ "/" +:+ s)).

#[local] Abbreviation epoch_writes := (writes P).

Lemma log_object key s :
  key = p +:+ "/" +:+ epochDir e +:+ "/" +:+ s → HasPrefix s groupPrefix = false → P key.
Proof using HP. intros ->. apply HP. Qed.

Lemma writes_publishHead w id :
  w_path w = p → w_epoch w = e → epoch_writes (λ r, same_epoch w r.1) (publishHead w id).
Proof.
  intros Hp He. unfold publishHead. eapply (writes_bind _ any); [by apply writes_now|]. intros t _.
  assert (P (headKey (w_path w) (w_epoch w))) as Hkey
    by (rewrite Hp, He; by eapply log_object).
  assert (∀ d v (f : result Version → Writer * option error), (∀ r, same_epoch w (f r).1) →
    epoch_writes (λ r, same_epoch w r.1)
      (r ← store_Swap (headKey (w_path w) (w_epoch w)) d v; mret (f r))) as Hswap.
  { intros d v f Hf. eapply (writes_bind _ any); [by apply writes_Swap|]. intros r _. apply Hf. }
  set (finish := λ r : result Version, match r with
    | Ok version => ({| w with headVersion := version |}, None)
    | Err er => (w, Some er) end : Writer * option error).
  assert (∀ r, same_epoch w (finish r).1) as Hfin by by intros [].
  eapply (writes_bind _ any); [by apply writes_Swap|]. intros [v|er] _; [done|].
  destruct (errors_Is er _ || errors_Is er _); [|done].
  eapply (writes_bind _ any); [by apply writes_fetchHead|].
  intros [[h cur]|ger] _; [by apply (Hswap _ _ finish)|].
  destruct (errors_Is ger ErrNotExist); [by apply (Hswap _ _ finish)|done].
Qed.

Lemma writes_reclaim l fuel : ∀ n, epoch_writes any (reclaim fuel p e n l).
Proof.
  induction fuel as [|fuel IH]; intros n; cbn [reclaim]; destruct (n <=? l)%N; try done.
  eapply (writes_bind _ any); [apply writes_Delete; [by eapply log_object|done]|].
  intros _ _. apply IH.
Qed.

Lemma writes_seal fuel w :
  w_path w = p → w_epoch w = e → epoch_writes (λ r, same_epoch w r.1) (seal fuel w).
Proof.
  intros Hp He. unfold seal. destruct (openGroups w) as [|g og]; [done|]. cbv zeta.
  set (key := sealedKey _ _ _ _).
  assert (∀ sm, epoch_writes (λ r, same_epoch w r.1) (seal_publish fuel w sm key)) as Hpub.
  { intros sm. unfold seal_publish.
    eapply (writes_bind _ (λ r, same_epoch w r.1)).
    - unfold updateLogRoot. cbv zeta. eapply (writes_bind _ any).
      + apply writes_Swap; [rewrite Hp, He; by eapply log_object|done].
      + by intros [].
    - intros [w1 [er|]] Hw1; [done|]. destruct (config_eq _ _ Hw1) as (Hp1 & He1 & _).
      cbn [w_path w_epoch]. simpl in Hp1, He1.
      assert (reclaim fuel (w_path w1) (w_epoch w1) = reclaim fuel p e) as -> by (f_equal; congruence).
      eapply (writes_bind _ any); [apply writes_reclaim|]. intros _ _. exact Hw1. }
  eapply (writes_bind _ any); [by apply writes_now|]. intros t _.
  eapply (writes_bind _ any).
  - apply writes_Create; [|done]. unfold key. rewrite Hp, He. by eapply log_object.
  - intros [v|er] _; [apply Hpub|]. destruct (errors_Is er ErrExist); [apply Hpub|done].
Qed.

Lemma writes_afterCommit fuel w g data :
  w_path w = p → w_epoch w = e → epoch_writes (λ r, same_epoch w r.1) (afterCommit fuel w g data).
Proof.
  intros Hp He. unfold afterCommit. cbv zeta.
  set (w1 := mkWriter _ _ _ _ _ _ _ _ _ _ _ _ _).
  assert (same_epoch w w1 ∧ w_path w1 = p ∧ w_epoch w1 = e) as (Hw1 & Hp1 & He1) by done.
  clearbody w1. eapply writes_bind; [by apply writes_publishHead|].
  intros [w2 err] Hw2. destruct (config_eq _ _ Hw2) as (Hp2 & He2 & _). simpl in *.
  assert (same_epoch w w2) as Hw by (unfold same_epoch in *; congruence).
  destruct (sealThreshold w2 <=? openBytes w2)%Z; [|done].
  eapply writes_bind; [apply writes_seal; congruence|].
  intros [w3 [er|]] Hw3; unfold same_epoch in *; simpl in *; [|congruence].
  rewrite <-Hw, <-Hw3. done.
Qed.

End Writes.

Section Appends.
Context (p : TrackPath) (e : N).

#[local] Abbreviation epoch_writes := (writes (epoch_object p e)).

Lemma epoch_key_object key s : key = p +:+ "/" +:+ epochDir e +:+ "/" +:+ s → epoch_object p e key.
Proof. intros ->. by eexists. Qed.

Lemma epoch_log_object s : HasPrefix s groupPrefix = false →
  epoch_object p e (p +:+ "/" +:+ epochDir e +:+ "/" +:+ s).
Proof. intros _. by eapply epoch_key_object. Qed.

Lemma writes_commitGroup fuel w meta payload :
  w_path w = p → w_epoch w = e → Epoch (ID meta) = e →
  epoch_writes (λ r, same_epoch w r.1) (commitGroup fuel w meta payload).
Proof.
  intros Hp He Hid. unfold commitGroup. cbv zeta. eapply (writes_bind _ any).
  { apply writes_Create; [|done]. simpl. unfold groupKey. rewrite Hp, Hid. by eapply epoch_key_object. }
  intros [v|er] _; [|by destruct (errors_Is er ErrExist)].
  eapply (writes_bind _ any); [by apply writes_now|]. intros t _.
  eapply (writes_bind _ any).
  { apply writes_Create; [rewrite Hp, He; by eapply epoch_key_object|done]. }
  intros [v2|er] _; [by apply (writes_afterCommit p e _ epoch_log_object)|].
  eapply (writes_bind _ any); [by apply writes_holds|]. intros [] _; [by apply (writes_afterCommit p e _ epoch_log_object)|done].
Qed.

Lemma writes_AppendGroup fuel w meta payload :
  w_path w = p → w_epoch w = e → (e <= maxGroupEpoch)%N →
  epoch_writes (λ r, same_epoch w r.1) (AppendGroup fuel w meta payload).
Proof.
  intros Hp He Hmax. unfold AppendGroup. cbv zeta. set (meta1 := mkGroupInfo _ _ _ _ _ _ _ _ _).
  assert (Epoch (ID meta1) = e) as Hid.
  { simpl. rewrite Epoch_NewGroupID, He. apply N.mod_small.
    change maxGroupEpoch with 16777215%N in Hmax. lia. }
  destruct (GroupInfo_validate meta1); [done|].
  eapply writes_bind; [by apply writes_reloadIfStale|]. intros [w1 [er|]] Hw1; [done|].
  destruct (config_eq _ _ Hw1) as (Hp1 & He1 & _). simpl in Hp1, He1.
  assert (∀ mt, Epoch (ID mt) = e →
    epoch_writes (λ r, same_epoch w r.1) (appendLocked fuel w1 mt payload)) as H.
  { intros mt Hmt. unfold appendLocked. destruct (hasLast w1 && _); [done|].
    destruct (checkOrder w1 mt); [done|].
    eapply writes_mono; [|apply writes_commitGroup; congruence].
    intros r Hr. unfold same_epoch in *. simpl in *. congruence. }
  destruct (_ && _); [|by apply H]. eapply (writes_bind _ any); [by apply writes_now|].
  intros t _. by apply H.
Qed.

Lemma writes_Append fuel w duration payload :
  w_path w = p → w_epoch w = e → (e <= maxGroupEpoch)%N →
  epoch_writes (λ r, same_epoch w r.1) (Append fuel w duration payload).
Proof.
  intros Hp He Hmax. unfold Append. eapply (writes_bind _ any); [by apply writes_now|].
  intros wallclock _. generalize maxSkippedSequences as left. generalize 0%N as floor.
  revert w Hp He.
  assert (∀ left floor w, w_path w = p → w_epoch w = e →
    epoch_writes (λ r, same_epoch w r.1)
      (Append_loop fuel left floor wallclock duration w payload)) as H; [|auto].
  induction left as [|left IH]; intros floor w Hp He; cbn [Append_loop];
    (eapply writes_bind; [apply writes_reloadIfStale|]); (intros [w1 [er|]] Hw1; [exact Hw1|]);
    destruct (config_eq _ _ Hw1) as (Hp1 & He1 & _); cbv zeta; simpl in Hp1, He1;
    (eapply writes_bind; [apply writes_AppendGroup; congruence|]);
    intros [w2 [row err]] Hw2; unfold same_epoch in *; simpl in Hw1, Hw2;
    (destruct (negb (isGroupObjectCollision err)); [cbn; congruence|]); [cbn; congruence|].
  destruct (config_eq _ _ Hw2) as (Hp2 & He2 & _).
  eapply writes_mono; [|apply IH; congruence]. intros r Hr. congruence.
Qed.
End Appends.
