(* ===== verification/Payload.v ===== *)
(** * The payload of a reported group

    A row [AppendGroup] or [Append] answers has its payload stored under its key,
    byte for byte. *)

From S2P Require Import Prelude GoStd Store Group Manifest Track Writer EpochLog WriterLog Isolation.
#[local] Open Scope string_scope.

(** The row answered, if any, has the payload. *)
Definition reported (payload : bytes) (r : Writer * (GroupInfo * option error)) (m' : objs) : Prop :=
  ObjectKey r.2.1 = "" ∨ ∃ v, m' !! ObjectKey r.2.1 = Some (payload, v).

Section Payload.
Context (p : TrackPath) (e : N) (Hmax : (e <= maxGroupEpoch)%N).

Lemma log_object_ne id s :
  Epoch id = e → HasPrefix s groupPrefix = false → p +:+ "/" +:+ epochDir e +:+ "/" +:+ s ≠ groupKey p id.
Proof.
  intros He Hs Heq. unfold groupKey in Heq. rewrite He in Heq. repeat apply string_app_inj_l in Heq.
  subst s. done.
Qed.

Lemma writes_any {A} (q : prog A) : writes any any q.
Proof. induction q as [a|o k IH|]; [done| |done]. split; [by destruct o|exact IH]. Qed.

Lemma writes_afterCommit_row fuel w g data : writes any (λ r, r.2.1 = g) (afterCommit fuel w g data).
Proof.
  unfold afterCommit. eapply (writes_bind any any); [apply writes_any|]. intros [w1 err] _.
  destruct (sealThreshold w1 <=? openBytes w1)%Z; [|reflexivity].
  eapply (writes_bind any any); [apply writes_any|]. intros [w2 [er|]] _; reflexivity.
Qed.

Lemma wlp_afterCommit fl fuel w g data payload m :
  w_path w = p → w_epoch w = e → Epoch (ID g) = e → ObjectKey g = groupKey p (ID g) →
  (∃ v, m !! ObjectKey g = Some (payload, v)) →
  wlp (op_spec fl) (afterCommit fuel w g data) (reported payload) m.
Proof.
  intros Hp He Hg Hk Hm.
  pose proof (writes_afterCommit p e (λ k, k ≠ groupKey p (ID g))) as Hw.
  eapply wlp_mono; [|apply wlp_and; [apply wlp_writes, (Hw (λ s, log_object_ne (ID g) s Hg) fuel w g data Hp He)
    |apply wlp_writes, (writes_afterCommit_row fuel w g data)]].
  intros r m' [[_ Hf] [Hr _]]. right. rewrite Hr, Hk, Hf by naive_solver. by rewrite <-Hk.
Qed.

Lemma reported_none w err payload m : reported payload (w, (zeroGroupInfo, err)) m.
Proof. by left. Qed.

Lemma wlp_commitGroup fl fuel w m meta payload :
  w_path w = p → w_epoch w = e → Epoch (ID meta) = e →
  wlp (op_spec fl) (commitGroup fuel w meta payload) (reported payload) m.
Proof.
  intros Hp He Hid. unfold commitGroup. rewrite Hp.
  set (row := {| meta with ObjectKey := _; Size := _ |}). apply wlp_bind, wlp_of_wp, wp_Create.
  2-4: intros; destruct (errors_Is _ _); left; reflexivity.
  intros v _ _. change (ObjectKey row) with (groupKey p (ID meta)).
  set (m1 := <[groupKey p (ID meta) := (payload, v)]> m).
  assert (∀ m2 data, m2 !! groupKey p (ID meta) = Some (payload, v) →
    wlp (op_spec fl) (afterCommit fuel w row data) (reported payload) m2) as Hafter.
  { intros m2 data Hm2. apply wlp_afterCommit; try done. by exists v. }
  assert (m1 !! groupKey p (ID meta) = Some (payload, v)) as Hm1 by apply lookup_insert_eq.
  clearbody m1. apply wlp_bind, wlp_of_wp, wp_now. intros t _. rewrite He. set (data := encodeManifest _).
  change (deltaKey p e (nextDelta w)) with (render p (KDelta e (nextDelta w))).
  assert (render p (KDelta e (nextDelta w)) ≠ groupKey p (ID meta)) as Hne.
  { apply (log_object_ne (ID meta) (openPrefix +:+ pad 8 (nextDelta w) +:+ ".manifest") Hid). done. }
  set (key := render p (KDelta e (nextDelta w))) in *. clearbody key data.
  apply wlp_bind, wlp_of_wp, wp_Create.
  - intros v2 _ _. apply Hafter. by rewrite lookup_insert_ne.
  - intros er _ _ _. apply wlp_bind. eapply wlp_mono; [|apply wlp_writes, (writes_holds (λ _, False))].
    intros [] m' [_ Hf]; [|left; reflexivity]. apply Hafter. rewrite Hf; [exact Hm1|auto].
  - intros er v2 _ _ _ _. apply wlp_bind.
    eapply wlp_mono; [|apply wlp_writes, (writes_holds (λ _, False))].
    intros [] m' [_ Hf]; [|left; reflexivity]. apply Hafter. rewrite Hf; [by rewrite lookup_insert_ne|auto].
  - intros er _ _ _. apply wlp_bind. eapply wlp_mono; [|apply wlp_writes, (writes_holds (λ _, False))].
    intros [] m' [_ Hf]; [|left; reflexivity]. apply Hafter. rewrite Hf; [exact Hm1|auto].
Qed.

Lemma wlp_AppendGroup fl fuel w m meta payload :
  w_path w = p → w_epoch w = e →
  wlp (op_spec fl) (AppendGroup fuel w meta payload) (reported payload) m.
Proof.
  intros Hp He. unfold AppendGroup. set (meta1 := {| meta with ID := NewGroupID _ _ |}).
  assert (Epoch (ID meta1) = e) as Hid.
  { simpl. rewrite Epoch_NewGroupID, He. apply N.mod_small.
    change maxGroupEpoch with 16777215%N in Hmax. lia. }
  clearbody meta1. destruct (GroupInfo_validate meta1); [apply reported_none|].
  apply wlp_bind. eapply wlp_mono; [|apply wlp_writes, (writes_reloadIfStale any)].
  intros [w1 [er|]] m1 [Hw1 _]; [apply reported_none|].
  destruct (config_eq _ _ Hw1) as (Hp1 & He1 & _). cbn [fst] in Hp1, He1.
  assert (∀ mt m2, Epoch (ID mt) = e →
    wlp (op_spec fl) (appendLocked fuel w1 mt payload) (reported payload) m2) as H.
  { intros mt m2 Hmt. unfold appendLocked. destruct (hasLast w1 && _); [apply reported_none|].
    destruct (checkOrder w1 mt); [apply reported_none|]. apply wlp_commitGroup; congruence. }
  destruct (_ && _); [|by apply H]. apply wlp_bind, wlp_of_wp, wp_now. intros t _. by apply H.
Qed.

Lemma wlp_Append fl fuel w m duration payload :
  w_path w = p → w_epoch w = e →
  wlp (op_spec fl) (Append fuel w duration payload) (reported payload) m.
Proof.
  intros Hp He. unfold Append. apply wlp_bind, wlp_of_wp, wp_now. intros wallclock _.
  generalize maxSkippedSequences as left. generalize 0%N as floor. intros floor left.
  revert floor w m Hp He. induction left as [|left IH]; intros floor w m Hp He; cbn [Append_loop];
    (apply wlp_bind; eapply wlp_mono; [|apply wlp_writes, (writes_reloadIfStale any)]);
    (intros [w1 [er|]] m1 [Hw1 _]; [apply reported_none|]);
    destruct (config_eq _ _ Hw1) as (Hp1 & He1 & _); cbn [fst] in Hp1, He1;
    set (meta := {| zeroGroupInfo with ID := _; MediaTime := _; Duration := _; Wallclock := _ |});
    (apply wlp_bind; eapply wlp_mono; [|apply wlp_and;
      [apply (wlp_AppendGroup fl fuel w1 m1 meta payload); congruence
      |apply wlp_writes, (writes_AppendGroup p e fuel w1 meta payload); congruence]]);
    intros [w2 [row err]] m2 (Hrep & Hw2 & _);
    (destruct (negb (isGroupObjectCollision err)); [exact Hrep|]); [exact Hrep|].
  destruct (config_eq _ _ Hw2) as (Hp2 & He2 & _). cbn [fst] in Hp2, He2. apply IH; congruence.
Qed.

(** ** Payloads are immutable

    Appending overwrites and deletes objects of the epoch's log only. *)

Section Alters.
Context (P : string → Prop) (HP : ∀ s, HasPrefix s groupPrefix = false →
  P (p +:+ "/" +:+ epochDir e +:+ "/" +:+ s)).

Lemma alters_commitGroup fuel w meta payload :
  w_path w = p → w_epoch w = e → alters P (λ r, same_epoch w r.1) (commitGroup fuel w meta payload).
Proof using HP.
  intros Hp He. unfold commitGroup.
  assert (∀ g data, alters P (λ r, same_epoch w r.1) (afterCommit fuel w g data)) as Hafter.
  { intros g data. by apply writes_alters, (writes_afterCommit p e P HP). }
  eapply (alters_bind P any); [done|]. intros [v|er] _; [|by destruct (errors_Is er ErrExist)].
  eapply (alters_bind P any); [done|]. intros t _. eapply (alters_bind P any); [done|].
  intros [v2|er] _; [apply Hafter|]. eapply (alters_bind P any); [apply writes_alters, writes_holds|].
  intros [] _; [apply Hafter|done].
Qed.

Lemma alters_AppendGroup fuel w meta payload :
  w_path w = p → w_epoch w = e → alters P (λ r, same_epoch w r.1) (AppendGroup fuel w meta payload).
Proof using HP.
  intros Hp He. unfold AppendGroup. set (meta1 := {| meta with ID := NewGroupID _ _ |}). clearbody meta1.
  destruct (GroupInfo_validate meta1); [done|].
  eapply alters_bind; [apply writes_alters, writes_reloadIfStale|]. intros [w1 [er|]] Hw1; [done|].
  destruct (config_eq _ _ Hw1) as (Hp1 & He1 & _). cbn [fst] in Hp1, He1.
  assert (∀ mt, alters P (λ r, same_epoch w r.1) (appendLocked fuel w1 mt payload)) as H.
  { intros mt. unfold appendLocked. destruct (hasLast w1 && _); [done|].
    destruct (checkOrder w1 mt); [done|].
    assert (same_epoch w = same_epoch w1) as -> by (unfold same_epoch in *; simpl in *; by rewrite Hw1).
    apply alters_commitGroup; congruence. }
  destruct (_ && _); [|by apply H]. eapply (alters_bind P any); [done|]. intros t _. by apply H.
Qed.

Lemma alters_Append fuel w duration payload :
  w_path w = p → w_epoch w = e → alters P (λ r, same_epoch w r.1) (Append fuel w duration payload).
Proof using HP.
  intros Hp He. unfold Append. eapply (alters_bind P any); [done|].
  intros wallclock _. generalize maxSkippedSequences as left. generalize 0%N as floor.
  intros floor left. revert floor w Hp He.
  induction left as [|left IH]; intros floor w Hp He; cbn [Append_loop];
    (eapply alters_bind; [apply writes_alters, writes_reloadIfStale|]); (intros [w1 [er|]] Hw1; [exact Hw1|]);
    destruct (config_eq _ _ Hw1) as (Hp1 & He1 & _); cbn [fst] in Hp1, He1;
    set (meta := {| zeroGroupInfo with ID := _; MediaTime := _; Duration := _; Wallclock := _ |});
    (eapply alters_bind; [apply (alters_AppendGroup fuel w1 meta payload); congruence|]);
    intros [w2 [row err]] Hw2; unfold same_epoch in *; cbn [fst] in Hw1, Hw2;
    (destruct (negb (isGroupObjectCollision err)); [cbn; congruence|]); [cbn; congruence|].
  destruct (config_eq _ _ Hw2) as (Hp2 & He2 & _).
  assert (∀ q : prog (Writer * (GroupInfo * option error)), alters P (λ r, config r.1 = config w2) q →
    alters P (λ r, config r.1 = config w) q) as H by by rewrite <-Hw1, <-Hw2.
  apply H, IH; congruence.
Qed.
End Alters.

(** The group objects of [m] are in [m'] as they were. *)
Definition keeps_payloads (m m' : objs) : Prop :=
  ∀ id x, Epoch id = e → m !! groupKey p id = Some x → m' !! groupKey p id = Some x.

Lemma wlp_Append_payloads fl fuel w m duration payload :
  w_path w = p → w_epoch w = e →
  wlp (op_spec fl) (Append fuel w duration payload) (λ _ m', keeps_payloads m m') m.
Proof.
  intros Hp He. set (P := λ k, ∀ id, Epoch id = e → k ≠ groupKey p id).
  eapply wlp_mono; [|apply wlp_alters, (alters_Append P)]; [|intros s Hs id Hid; by apply log_object_ne|done..].
  intros r m' [_ H] id x Hid. apply H. intros Hne. by apply (Hne id Hid).
Qed.
End Payload.
