(* ===== verification/ReaderLog.v ===== *)
(** * The reader and the log

    What the reader's loops compute on objects that hold a log. [open_fold] and
    [sealed_fold] are the loops with the store taken away; the reader's methods
    are shown to compute them, or to end in an error when a call failed. Reading
    never changes an object. *)

From S2P Require Import Prelude GoStd Json Store Group Manifest Track Redact Reader EpochLog.
From S2P Require Import WriterLog.

Section Folds.
Context {S : Type}.

(** [forOpen] over the groups [l] of the deltas from [n] on. *)
Fixpoint open_fold (body : N → list GroupInfo → S → S * bool) (n : N) (l : list GroupInfo) (s : S)
    : S * loop_end :=
  match l with
  | [] => (s, LDone n)
  | g :: l' =>
      let '(s, continue) := body n [g] s in
      if continue : bool then open_fold body (n + 1) l' s else (s, LStop)
  end.

(** [forSealed] over runs of the log [gs]. *)
Fixpoint sealed_fold (gs : list GroupInfo) (include : sealedRef → S → bool)
    (body : sealedRef → list GroupInfo → S → S * bool) (refs : list sealedRef) (s : S)
    : S * loop_end :=
  match refs with
  | [] => (s, LDone 0)
  | ref :: refs' =>
      if negb (include ref s) then sealed_fold gs include body refs' s
      else
        let '(s, continue) := body ref (span (FirstDelta ref) (LastDelta ref) gs) s in
        if continue : bool then sealed_fold gs include body refs' s else (s, LStop)
  end.
End Folds.

Definition stopped {S} (r : S * loop_end) : bool :=
  match r.2 with LErr _ => true | _ => false end.

Section ReaderLog.
Context (p : TrackPath) (e : N) (m : objs) (root : epochLogRoot) (gs : list GroupInfo).
Context (Hlog : epoch_log p e m root gs).

Lemma wp_delta fl n :
  is_u64 n →
  wp (op_spec fl) (delta p e n) (λ r m', m' = m ∧
    match r with
    | Ok d => ∃ g, gs !! N.to_nat n = Some g ∧ d_Groups d = [g]
    | Err er => if errors_Is er ErrNotCommitted then m !! deltaKey p e n = None else fl = true
    end) m.
Proof.
  intros Hn. apply wp_bind, wp_Get.
  - intros d v Hd. destruct (log_delta _ _ _ _ _ Hlog n _ Hn Hd) as (g & dm & Hg & Hdm & Hgr).
    unfold holds_manifest in Hdm. simpl in *. rewrite Hdm. eauto.
  - intros er Hne Hnone. simpl. by rewrite Hne.
  - intros er -> Hb Hne. simpl. rewrite Hne. split; [done|].
    by rewrite (backend_not_ledger er ErrNotCommitted).
Qed.

(** A run of the log root, with its object stored. *)
Definition run_stored (ref : sealedRef) : Prop :=
  ∃ f l, (f <= l < log_size gs)%N ∧ ref = run_ref p e f l gs ∧ is_Some (m !! sealedKey p e f l).

Lemma root_runs_stored rt : root_ok p e m rt gs → Forall run_stored (Sealed rt).
Proof.
  intros [_ _ _ _ Hruns Hopen Hst]. rewrite Forall_forall in *. intros ref Hin.
  pose proof (Hst _ Hin) as Hs. eapply runs_elem in Hin as (f & l & ? & ? & Href); [|done].
  exists f, l. split_and!; [lia|lia|done|]. rewrite Href in Hs.
  by destruct (run_ref_fields p e f l gs) as [<- _].
Qed.

Lemma wp_sealed fl ref :
  run_stored ref →
  wp (op_spec fl) (sealed p e ref) (λ r m', m' = m ∧
    match r with
    | Ok sm => s_Groups sm = span (FirstDelta ref) (LastDelta ref) gs
    | Err er => fl = true
    end) m.
Proof.
  intros (f & l & Hfl & -> & o & Ho). destruct (run_ref_fields p e f l gs) as (HK & HF & HL).
  pose proof (log_room _ _ _ _ _ Hlog) as Hroom.
  unfold sealed. rewrite HK, HF, HL. apply wp_bind, wp_Get.
  - intros d v Hd. apply (log_sealed _ _ _ _ _ Hlog) in Hd as (_ & sm & Hsm & Hok);
      [|apply (room_u64 gs); [done|lia]..].
    destruct Hok as (Ht & He & Hf & Hl & Hg). unfold holds_manifest in Hsm. simpl in *.
    by rewrite Hsm, Ht, He, Hf, Hl, String.eqb_refl, !N.eqb_refl.
  - congruence.
  - intros er -> _ _. done.
Qed.

Section Loops.
Context {S : Type}.
Implicit Types s : S.

(** The loop ends as its fold, or in an error after some of the deltas. *)
Definition open_ends (fl : bool) (body : N → list GroupInfo → S → S * bool) (n : N)
    (l : list GroupInfo) (s : S) (r : S * loop_end) : Prop :=
  r = open_fold body n l s ∨
  fl = true ∧ ∃ k n' s' er, open_fold body n (list.take k l) s = (s', LDone n') ∧ r = (s', LErr er).

Lemma wp_forOpen fl body fuel : ∀ n s,
  (OpenFrom root <= n <= log_size gs)%N → N.to_nat (log_size gs - n) < fuel →
  wp (op_spec fl) (forOpen fuel p e n body s)
    (λ r m', m' = m ∧ open_ends fl body n (drop (N.to_nat n) gs) s r) m.
Proof.
  induction fuel as [|fuel IH]; intros n s Hn Hfuel; [lia|]. cbn [forOpen].
  pose proof (log_room _ _ _ _ _ Hlog) as Hroom.
  assert (is_u64 n) as Hnu by (apply (room_u64 gs); [done|lia]).
  apply wp_bind. eapply wp_mono; [|by apply wp_delta].
  intros [d|er] m' [-> H].
  - destruct H as (g & Hg & Hd). rewrite Hd.
    assert (n < log_size gs)%N as Hlt by (apply lookup_lt_Some in Hg; unfold log_size; lia).
    assert (drop (N.to_nat n) gs = g :: drop (N.to_nat (n + 1)) gs) as Hdrop.
    { replace (N.to_nat (n + 1)) with (Datatypes.S (N.to_nat n)) by lia. by apply drop_S. }
    rewrite u64_small by (apply (room_u64 gs); [done|lia]). unfold open_ends. rewrite Hdrop.
    destruct (body n [g] s) as [s1 c] eqn:Eb. destruct c.
    + eapply wp_mono; [|apply IH; lia]. intros r m' [-> [-> |(-> & k & n' & s' & er & Hk & ->)]].
      * split; [done|]. left. simpl. by rewrite Eb.
      * split; [done|]. right. split; [done|]. exists (Datatypes.S k), n', s', er.
        simpl. by rewrite Eb.
    + split; [done|]. left. simpl. by rewrite Eb.
  - destruct (errors_Is er ErrNotCommitted).
    + assert (n = log_size gs) as ->.
      { destruct (decide (n = log_size gs)); [done|].
        destruct (log_open _ _ _ _ _ Hlog n ltac:(lia)) as [? ?]. congruence. }
      split; [done|]. left. by rewrite drop_ge by (unfold log_size; lia).
    + split; [done|]. right. split; [done|]. by exists 0, n, s, er.
Qed.

Definition sealed_ends (fl : bool) (include : sealedRef → S → bool)
    (body : sealedRef → list GroupInfo → S → S * bool) (refs : list sealedRef) (s : S)
    (r : S * loop_end) : Prop :=
  r = sealed_fold gs include body refs s ∨
  fl = true ∧ ∃ k s' er, sealed_fold gs include body (list.take k refs) s = (s', LDone 0) ∧
    r = (s', LErr er).

Lemma wp_forSealed fl include body refs : ∀ s,
  Forall run_stored refs →
  wp (op_spec fl) (forSealed p e refs include body s)
    (λ r m', m' = m ∧ sealed_ends fl include body refs s r) m.
Proof.
  induction refs as [|ref refs IH]; intros s Hrefs; [split; [done|by left]|].
  inversion_clear Hrefs as [|? ? Href Hrefs']. cbn [forSealed].
  destruct (include ref s) eqn:Ei; cbn [negb].
  - apply wp_bind. eapply wp_mono; [|by apply wp_sealed].
    intros [sm|er] m' [-> H].
    + rewrite H. destruct (body ref _ s) as [s1 c] eqn:Eb. destruct c.
      * eapply wp_mono; [|by apply IH]. intros r m' [-> [-> |(-> & k & s' & er & Hk & ->)]].
        -- split; [done|]. left. simpl. by rewrite Ei, Eb.
        -- split; [done|]. right. split; [done|]. exists (Datatypes.S k), s', er. simpl.
           by rewrite Ei, Eb.
      * split; [done|]. left. simpl. by rewrite Ei, Eb.
    + split; [done|]. right. split; [done|]. by exists 0, s, er.
  - eapply wp_mono; [|by apply IH]. intros r m' [-> [-> |(-> & k & s' & er & Hk & ->)]].
    + split; [done|]. left. simpl. by rewrite Ei.
    + split; [done|]. right. split; [done|]. exists (Datatypes.S k), s', er. simpl. by rewrite Ei.
Qed.

End Loops.
End ReaderLog.

(** ** Lookup *)

Lemma find_group_cons id g gs :
  find_group id (g :: gs) = if decide (ID g = id) then Some g else find_group id gs.
Proof.
  unfold find_group. simpl. case_decide; [done|].
  by destruct (list_find _ gs) as [[]|].
Qed.

Lemma find_group_app id gs1 gs2 :
  find_group id (gs1 ++ gs2) =
  match find_group id gs1 with Some g => Some g | None => find_group id gs2 end.
Proof.
  induction gs1 as [|g gs1 IH]; [done|]. cbn [app]. rewrite !find_group_cons. by case_decide.
Qed.

Lemma find_group_some id gs g : find_group id gs = Some g → g ∈ gs ∧ ID g = id.
Proof.
  induction gs as [|a gs IH]; [done|]. rewrite find_group_cons, elem_of_cons.
  case_decide; [intros [= <-]; auto|]. intros ?%IH. naive_solver.
Qed.

Lemma find_group_none id gs : find_group id gs = None ↔ id ∉ ID <$> gs.
Proof.
  induction gs as [|a gs IH]; [by split; [intros _ ?%not_elem_of_nil|]|].
  rewrite find_group_cons, fmap_cons, not_elem_of_cons. case_decide; naive_solver.
Qed.

(** With distinct identities the order of the search is immaterial. *)
Lemma find_group_swap id gs1 gs2 :
  NoDup (ID <$> gs1 ++ gs2) → find_group id (gs1 ++ gs2) = find_group id (gs2 ++ gs1).
Proof.
  intros Hnd. rewrite !find_group_app.
  destruct (find_group id gs1) as [g1|] eqn:E1, (find_group id gs2) as [g2|] eqn:E2; try done.
  apply find_group_some in E1 as [H1 <-], E2 as [H2 E2]. rewrite fmap_app in Hnd.
  apply NoDup_app in Hnd as (_ & Hd & _). destruct (Hd (ID g1)).
  - by apply list_elem_of_fmap_2.
  - rewrite <-E2. by apply list_elem_of_fmap_2.
Qed.

Lemma lookup_open_fold id n l :
  open_fold (λ _, lookup_body id) n l None =
  (find_group id l, if find_group id l is Some _ then LStop else LDone (n + N.of_nat (length l))).
Proof.
  revert n. induction l as [|g l IH]; intros n; [by rewrite N.add_0_r|].
  cbn [open_fold]. unfold lookup_body at 1. rewrite !find_group_cons. case_decide; [done|].
  change (find_group id []) with (@None GroupInfo). cbv iota beta. rewrite IH. cbn [length].
  by replace (n + 1 + N.of_nat (length l))%N with (n + N.of_nat (Datatypes.S (length l)))%N by lia.
Qed.

(** The groups of the runs that [include] keeps. *)
Definition run_groups (gs : list GroupInfo) (include : sealedRef → bool) (refs : list sealedRef)
    : list GroupInfo :=
  concat (map (λ ref, if include ref then span (FirstDelta ref) (LastDelta ref) gs else []) refs).

Lemma lookup_sealed_fold gs id refs :
  sealed_fold gs (λ _ _, true) (λ _, lookup_body id) refs None =
  (find_group id (run_groups gs (λ _, true) refs),
   if find_group id (run_groups gs (λ _, true) refs) is Some _ then LStop else LDone 0).
Proof.
  induction refs as [|ref refs IH]; [done|]. cbn [sealed_fold negb run_groups map concat].
  fold (run_groups gs (λ _, true) refs). unfold lookup_body at 1. rewrite find_group_app.
  by destruct (find_group id (span _ _ gs)).
Qed.

(** Every run and the open region together are the log. *)
Lemma log_split p e m root gs :
  epoch_log p e m root gs →
  run_groups gs (λ _, true) (Sealed root) ++ drop (N.to_nat (OpenFrom root)) gs = gs.
Proof.
  intros Hlog. destruct (log_root_ok _ _ _ _ _ Hlog) as [_ _ _ _ Hruns Hopen _].
  by apply (runs_groups p e gs 0).
Qed.

(** The group [Lookup] comes to first: it looks at the open region, then at the
    runs. *)
Definition found_first (root : epochLogRoot) (gs : list GroupInfo) (id : GroupID) : option GroupInfo :=
  match find_group id (drop (N.to_nat (OpenFrom root)) gs) with
  | Some g => Some g
  | None => find_group id (run_groups gs (λ _, true) (Sealed root))
  end.

Lemma found_first_some p m root gs id g :
  epoch_log p (Epoch id) m root gs → found_first root gs id = Some g → g ∈ gs ∧ ID g = id.
Proof.
  intros Hlog. rewrite <-(log_split _ _ _ _ _ Hlog) at 2. unfold found_first.
  destruct (find_group id (drop _ gs)) as [g'|] eqn:E.
  - intros [= ->]. apply find_group_some in E as [Hg ?]. split; [|done]. apply elem_of_app. by right.
  - intros [Hg ?]%find_group_some. split; [|done]. apply elem_of_app. by left.
Qed.

Lemma wp_Lookup_first fl fuel p m root gs r id :
  epoch_log p (Epoch id) m root gs → r_path r = p → (0 < Epoch id <= latest r)%N → length gs < fuel →
  wp (op_spec fl) (Lookup fuel r id) (λ res m', m' = m ∧
    match res with
    | Ok g => found_first root gs id = Some g
    | Err er => fl = true ∨ er = [ErrGroupNotFound] ∧ found_first root gs id = None
    end) m.
Proof.
  intros Hlog Hp He Hfuel. unfold Lookup. rewrite Hp.
  rewrite (proj2 (N.eqb_neq (Epoch id) 0)), (proj2 (N.ltb_ge (latest r) (Epoch id))) by lia. cbn [orb].
  apply wp_bind. eapply wp_mono; [|by eapply wp_fetchEpochLog].
  intros [[rt v]|er] m' [-> H]; [destruct H as [-> _]|by split; [|left; apply H]].
  pose proof (log_root_ok _ _ _ _ _ Hlog) as Hrok. unfold found_first.
  apply wp_bind. eapply wp_mono; [|eapply wp_forOpen; [done|by destruct Hrok|unfold log_size; lia]].
  intros [s ended] m' [-> Hopen].
  destruct Hopen as [Hr|(-> & k & n' & s' & er & _ & [= -> ->])].
  2: by destruct s'; (split; [done|by left]).
  rewrite lookup_open_fold in Hr. injection Hr as -> ->.
  destruct (find_group id (drop _ gs)) as [g|]; [done|].
  apply wp_bind. eapply wp_mono; [|eapply wp_forSealed; [done|by apply root_runs_stored]].
  intros [s ended] m' [-> Hsealed].
  destruct Hsealed as [Hr|(-> & k & s' & er & _ & [= -> ->])].
  2: by destruct s'; (split; [done|by left]).
  rewrite lookup_sealed_fold in Hr. injection Hr as -> ->.
  destruct (find_group id (run_groups _ _ _)) as [g|]; [done|]. split; [done|by right].
Qed.

Lemma wp_Lookup fl fuel p m root gs r id :
  epoch_log p (Epoch id) m root gs → NoDup (ID <$> gs) → r_path r = p →
  (0 < Epoch id <= latest r)%N → length gs < fuel →
  wp (op_spec fl) (Lookup fuel r id) (λ res m', m' = m ∧
    match res with
    | Ok g => find_group id gs = Some g
    | Err er => fl = true ∨ er = [ErrGroupNotFound] ∧ find_group id gs = None
    end) m.
Proof.
  intros Hlog Hnd Hp He Hfuel. pose proof (log_split _ _ _ _ _ Hlog) as Hsplit.
  assert (find_group id gs = found_first root gs id) as ->.
  { unfold found_first. rewrite <-find_group_app, <-Hsplit at 1. apply find_group_swap. by rewrite Hsplit. }
  by eapply wp_Lookup_first.
Qed.

(** ** Iteration *)

Lemma yield_all_app {S} (yield : S → result GroupInfo → S * bool) l1 l2 s :
  yield_all yield (l1 ++ l2) s =
  let '(s', c) := yield_all yield l1 s in
  if c : bool then yield_all yield l2 s' else (s', false).
Proof.
  revert s. induction l1 as [|g l1 IH]; intros s; simpl; [by destruct (yield_all yield l2 s)|].
  destruct (yield s (Ok g)) as [s1 []]; [apply IH|done].
Qed.

Lemma yield_open_fold {S} (yield : S → result GroupInfo → S * bool) n l s :
  open_fold (λ _, yield_all yield) n l s =
  let '(s', c) := yield_all yield l s in
  (s', if c : bool then LDone (n + N.of_nat (length l)) else LStop).
Proof.
  revert n s. induction l as [|g l IH]; intros n s; simpl; [by rewrite N.add_0_r|].
  destruct (yield s (Ok g)) as [s1 []]; [|done]. rewrite IH.
  by replace (n + 1 + N.of_nat (length l))%N with (n + N.pos (Pos.of_succ_nat (length l)))%N by lia.
Qed.

Lemma yield_sealed_fold {S} (yield : S → result GroupInfo → S * bool) gs include refs s :
  sealed_fold gs (λ ref _, include ref) (λ _, yield_all yield) refs s =
  let '(s', c) := yield_all yield (run_groups gs include refs) s in
  (s', if c : bool then LDone 0 else LStop).
Proof.
  revert s. induction refs as [|ref refs IH]; intros s; [done|].
  cbn [sealed_fold run_groups map concat]. fold (run_groups gs include refs).
  destruct (include ref); cbn [negb]; [|apply IH].
  rewrite yield_all_app. destruct (yield_all yield (span _ _ gs) s) as [s1 []]; [apply IH|done].
Qed.

(** The logs of consecutive epochs, each with its log root. *)
Definition epoch_logs (p : TrackPath) (m : objs) (first : N)
    (logs : list (epochLogRoot * list GroupInfo)) : Prop :=
  ∀ i root gs, logs !! i = Some (root, gs) → epoch_log p (first + N.of_nat i) m root gs.

(** What an iteration over a log yields of it, runs [include] rejects left out. *)
Definition included (include : sealedRef → bool) (log : epochLogRoot * list GroupInfo)
    : list GroupInfo :=
  run_groups log.2 include (Sealed log.1) ++ drop (N.to_nat (OpenFrom log.1)) log.2.

(** An iteration yielded [all] in order, or a prefix of it and then the error. *)
Definition iterated {S} (fl : bool) (yield : S → result GroupInfo → S * bool)
    (all : list GroupInfo) (s s' : S) : Prop :=
  s' = (yield_all yield all s).1 ∨
  fl = true ∧ ∃ pre s1 er, pre `prefix_of` all ∧ yield_all yield pre s = (s1, true) ∧
    s' = (yield s1 (Err er)).1.

Lemma iterated_app {S} fl (yield : S → result GroupInfo → S * bool) l1 l2 s s1 s' :
  yield_all yield l1 s = (s1, true) → iterated fl yield l2 s1 s' → iterated fl yield (l1 ++ l2) s s'.
Proof.
  intros H1 [-> |(-> & pre & s2 & er & Hpre & H2 & ->)].
  - left. by rewrite yield_all_app, H1.
  - right. split; [done|]. exists (l1 ++ pre), s2, er. split_and!; [by apply prefix_app| |done].
    by rewrite yield_all_app, H1.
Qed.

Lemma iterated_stop {S} fl (yield : S → result GroupInfo → S * bool) l1 l2 s s1 :
  yield_all yield l1 s = (s1, false) → iterated fl yield (l1 ++ l2) s s1.
Proof. intros H1. left. by rewrite yield_all_app, H1. Qed.

Lemma iterated_error {S} (yield : S → result GroupInfo → S * bool) l1 l2 s s1 er :
  yield_all yield l1 s = (s1, true) → iterated true yield (l1 ++ l2) s (yield s1 (Err er)).1.
Proof.
  intros H1. right. split; [done|]. exists l1, s1, er. split_and!; [|done|done]. by apply prefix_app_r.
Qed.

Lemma run_groups_take gs include k refs :
  ∃ rest, run_groups gs include refs = run_groups gs include (list.take k refs) ++ rest.
Proof.
  exists (run_groups gs include (drop k refs)). unfold run_groups.
  by rewrite <-concat_app, <-map_app, take_drop.
Qed.

Lemma epoch_logs_tail p m first log logs :
  epoch_logs p m first (log :: logs) → epoch_logs p m (first + 1) logs.
Proof.
  intros H i root gs Hi. replace (first + 1 + N.of_nat i)%N with (first + N.of_nat (S i))%N by lia.
  by apply H.
Qed.

Lemma wp_walk_epochs {A} fl fuel r m include (yield : A → result GroupInfo → A * bool) logs :
  ∀ epoch s,
  epoch_logs (r_path r) m epoch logs → is_u64 (epoch + N.of_nat (length logs)) →
  Forall (λ log, length log.2 < fuel) logs →
  wp (op_spec fl) (walk_epochs fuel r include yield (length logs) epoch s)
    (λ s' m', m' = m ∧ iterated fl yield (concat (map (included include) logs)) s s') m.
Proof.
  induction logs as [|[root gs] logs IH]; intros epoch s Hlogs Hu Hfuel.
  { split; [done|by left]. }
  cbn [length walk_epochs map concat] in *. inversion_clear Hfuel as [|? ? Hf Hfs]. simpl in Hf.
  pose proof (Hlogs 0 root gs eq_refl) as Hlog. rewrite N.add_0_r in Hlog.
  set (rest := concat (map (included include) logs)) in *.
  change (included include (root, gs))
    with (run_groups gs include (Sealed root) ++ drop (N.to_nat (OpenFrom root)) gs).
  rewrite <-app_assoc. set (opened := drop _ gs).
  apply wp_bind. eapply wp_mono; [|by eapply wp_fetchEpochLog].
  intros [[rt v]|er] m' [-> H].
  2: { destruct H as [-> _]. split; [done|]. by apply (iterated_error yield []). }
  destruct H as [-> _]. pose proof (log_root_ok _ _ _ _ _ Hlog) as Hrok.
  apply wp_bind. eapply wp_mono; [|eapply wp_forSealed; [done|by apply root_runs_stored]].
  intros [s1 ended] m' [-> Hsealed]. destruct Hsealed as [Hr|(-> & k & s' & er & Hk & [= -> ->])].
  2: { rewrite yield_sealed_fold in Hk.
       destruct (yield_all yield (run_groups gs include (list.take k _)) s) as [s2 []] eqn:Ey; [|done].
       injection Hk as ->. destruct (run_groups_take gs include k (Sealed root)) as [tl ->].
       rewrite <-app_assoc. split; [done|]. by apply iterated_error. }
  rewrite yield_sealed_fold in Hr.
  destruct (yield_all yield (run_groups gs include (Sealed root)) s) as [s2 []] eqn:Ey;
    injection Hr as -> ->; [|split; [done|by apply iterated_stop]].
  apply wp_bind. eapply wp_mono; [|eapply wp_forOpen; [done|split; [done|by destruct Hrok]|]].
  2: { unfold log_size. lia. }
  intros [s3 ended] m' [-> Hopen]. destruct Hopen as [Hr|(-> & k & n' & s' & er & Hk & [= -> ->])].
  2: { rewrite yield_open_fold in Hk.
       destruct (yield_all yield (list.take k _) s2) as [s3 []] eqn:Ey2; [|done].
       injection Hk as ->. split; [done|]. eapply iterated_app; [done|].
       rewrite <-(take_drop k opened), <-app_assoc. by apply iterated_error. }
  rewrite yield_open_fold in Hr. fold opened in Hr.
  destruct (yield_all yield opened s2) as [s4 []] eqn:Ey2; injection Hr as -> ->.
  2: { split; [done|]. eapply iterated_app; [done|]. by apply iterated_stop. }
  rewrite u64_small by (unfold is_u64, two64 in *; lia).
  eapply wp_mono; [|apply IH; [by eapply epoch_logs_tail| |done]].
  2: { replace (epoch + 1 + N.of_nat (length logs))%N
         with (epoch + N.of_nat (S (length logs)))%N by lia. done. }
  intros s5 m' [-> Hit]. split; [done|]. by do 2 (eapply iterated_app; [done|]).
Qed.

(** ** Filters and collectors *)

Definition kept_by {S} (keep : GroupInfo → bool) (yield : S → result GroupInfo → S * bool)
    (s : S) (r : result GroupInfo) : S * bool :=
  match r with
  | Err e => ((yield s (Err e)).1, false)
  | Ok g => if negb (keep g) then (s, true) else yield s (Ok g)
  end.

Lemma yield_all_kept {S} keep (yield : S → result GroupInfo → S * bool) l s :
  yield_all (kept_by keep yield) l s = yield_all yield (List.filter keep l) s.
Proof.
  revert s. induction l as [|g l IH]; intros s; [done|]. simpl.
  destruct (keep g); simpl; [|apply IH]. destruct (yield s (Ok g)) as [s1 []]; [apply IH|done].
Qed.

Lemma prefix_filter (keep : GroupInfo → bool) l1 l2 :
  l1 `prefix_of` l2 → List.filter keep l1 `prefix_of` List.filter keep l2.
Proof. intros [k ->]. rewrite List.filter_app. by apply prefix_app_r. Qed.

Lemma iterated_kept {S} fl keep (yield : S → result GroupInfo → S * bool) all s s' :
  iterated fl (kept_by keep yield) all s s' → iterated fl yield (List.filter keep all) s s'.
Proof.
  intros [-> |(-> & pre & s1 & er & Hpre & H1 & ->)]; rewrite yield_all_kept in *; [by left|].
  right. split; [done|]. exists (List.filter keep pre), s1, er.
  split_and!; [by apply prefix_filter|done|done].
Qed.

(** What a caller that takes everything gets: all of it, or a prefix and the
    error that ended it. *)
Definition collected (fl : bool) (all : list GroupInfo) (r : list GroupInfo * option error) : Prop :=
  r = (all, None) ∨ fl = true ∧ ∃ pre er, pre `prefix_of` all ∧ r = (pre, Some er).

Definition collector (s : list GroupInfo * option error) (r : result GroupInfo)
    : (list GroupInfo * option error) * bool :=
  match r with
  | Ok g => ((s.1 ++ [g], s.2), true)
  | Err e => ((s.1, Some e), true)
  end.

Lemma yield_all_collector l s : yield_all collector l s = ((s.1 ++ l, s.2), true).
Proof.
  revert s. induction l as [|g l IH]; intros [acc err]; simpl; [by rewrite app_nil_r|].
  rewrite IH. simpl. by rewrite <-app_assoc.
Qed.

Lemma iterated_collected fl all r : iterated fl collector all ([], None) r → collected fl all r.
Proof.
  intros [-> |(-> & pre & s1 & er & Hpre & H1 & ->)].
  - left. by rewrite yield_all_collector.
  - right. split; [done|]. rewrite yield_all_collector in H1. injection H1 as <-. simpl. by exists pre, er.
Qed.

(** ** Pruned runs hold nothing of the range *)

Lemma filter_none (keep : GroupInfo → bool) l : (∀ g, g ∈ l → keep g = false) → List.filter keep l = [].
Proof.
  induction l as [|a l IH]; intros H; [done|]. simpl. rewrite (H a) by (apply elem_of_cons; auto).
  apply IH. intros g Hg. apply H, elem_of_cons. auto.
Qed.

Lemma included_filter p e m root gs keep include :
  epoch_log p e m root gs →
  (∀ f l, (f <= l < log_size gs)%N → include (run_ref p e f l gs) = false →
     ∀ g, g ∈ span f l gs → keep g = false) →
  List.filter keep (included include (root, gs)) = List.filter keep gs.
Proof.
  intros Hlog Hprune. rewrite <-(log_split _ _ _ _ _ Hlog) at 2.
  unfold included. cbn [fst snd]. rewrite !List.filter_app. f_equal.
  pose proof (root_runs_stored p e m gs _ (log_root_ok _ _ _ _ _ Hlog)) as Hrefs.
  induction Hrefs as [|ref refs (f & l & Hfl & -> & _) _ IH]; [done|].
  cbn [run_groups map concat]. fold (run_groups gs include refs) (run_groups gs (λ _, true) refs).
  rewrite !List.filter_app, IH. f_equal.
  destruct (include (run_ref p e f l gs)) eqn:Ei; [done|].
  destruct (run_ref_fields p e f l gs) as (_ & -> & ->). symmetry. apply filter_none. by apply Hprune.
Qed.

(** [WallclockStart] is the least anchor of the run, zero when it has none. *)
Lemma summarize_wallclock_least gs : ∀ b,
  (foldl summarize_wallclock b gs).1 = b.1 ∧ Forall (λ g, Wallclock g = 0%Z) gs ∨
  (foldl summarize_wallclock b gs).1 ≠ 0%Z ∧
  (b.1 ≠ 0%Z → (foldl summarize_wallclock b gs).1 <= b.1)%Z ∧
  ∀ g, g ∈ gs → Wallclock g ≠ 0%Z → ((foldl summarize_wallclock b gs).1 <= Wallclock g)%Z.
Proof.
  induction gs as [|a gs IH]; intros [s t]; [by left|]. cbn [foldl].
  set (b' := summarize_wallclock (s, t) a).
  assert (Wallclock a = 0%Z ∧ b' = (s, t) ∨ Wallclock a ≠ 0%Z ∧ b'.1 ≠ 0%Z ∧
    (b'.1 <= Wallclock a)%Z ∧ (s ≠ 0%Z → b'.1 <= s)%Z) as Hb.
  { unfold b', summarize_wallclock, hasWallclock. destruct (Z.eqb_spec (Wallclock a) 0); simpl; [by left|].
    right. destruct (Z.eqb_spec s 0), (Z.ltb_spec (Wallclock a) s); simpl; (split_and!; [done|..]; lia). }
  clearbody b'. destruct Hb as [[H0 ->]|(H0 & Hb1 & Hb2 & Hb3)].
  - destruct (IH (s, t)) as [[-> Hall]|(H1 & H2 & H3)]; [left; auto|right].
    split_and!; [done|done|]. intros g [-> |Hg]%elem_of_cons Hne; [done|by apply H3].
  - right. destruct (IH b') as [[-> Hall]|(H1 & H2 & H3)]; simpl.
    + split_and!; [done|done|]. intros g [-> |Hg]%elem_of_cons Hne; [done|].
      rewrite Forall_forall in Hall. by apply Hall in Hg.
    + specialize (H2 Hb1). split_and!; [done|intros Hs; specialize (Hb3 Hs); lia|].
      intros g [-> |Hg]%elem_of_cons Hne; [lia|by apply H3].
Qed.

Lemma run_ref_wallclock p e f l gs g :
  g ∈ span f l gs → WallclockStart (run_ref p e f l gs) ≠ 0%Z → Wallclock g ≠ 0%Z →
  (WallclockStart (run_ref p e f l gs) <= Wallclock g)%Z.
Proof.
  unfold run_ref, summarize. cbn [s_Groups]. destruct (span f l gs) as [|a sp]; [by intros ?%not_elem_of_nil|].
  intros Hg. destruct (foldl summarize_wallclock (0%Z, 0%Z) (a :: sp)) as [st en] eqn:E. simpl.
  intros Hs Hw. destruct (summarize_wallclock_least (a :: sp) (0%Z, 0%Z)) as [[H _]|(_ & _ & H)];
    rewrite E in H; simpl in H; [done|]. by apply H.
Qed.

(** On a serial timeline the first group of a run starts first and the last
    ends last. *)
Lemma extent_end g : extent_ok g → mediaEnd g = (MediaTime g + Duration g)%Z ∧ (MediaTime g <= mediaEnd g)%Z.
Proof. intros [Hd Hr]. unfold mediaEnd. rewrite i64_small by done. lia. Qed.

Lemma serial_head a l :
  Forall extent_ok (a :: l) → serial (a :: l) → ∀ g, g ∈ l → (mediaEnd a <= MediaTime g)%Z.
Proof.
  revert a. induction l as [|b l IH]; intros a Hx Hs g Hg; [by apply not_elem_of_nil in Hg|].
  destruct Hs as [Hab Hs]. inversion_clear Hx as [|? ? Ha Hx'].
  apply elem_of_cons in Hg as [-> |Hg]; [done|]. pose proof (IH b Hx' Hs g Hg).
  inversion_clear Hx' as [|? ? Hb _]. pose proof (extent_end b Hb). lia.
Qed.

Lemma serial_last l b :
  Forall extent_ok (l ++ [b]) → serial (l ++ [b]) → ∀ g, g ∈ l ++ [b] → (mediaEnd g <= mediaEnd b)%Z.
Proof.
  induction l as [|a l IH]; intros Hx Hs g Hg.
  { apply list_elem_of_singleton in Hg as ->. lia. }
  cbn [app] in *. apply elem_of_cons in Hg as [-> |Hg].
  - pose proof (serial_head _ _ Hx Hs b) as H. rewrite Forall_app in *. 
    assert (b ∈ l ++ [b]) as Hb by (apply elem_of_app; right; by apply list_elem_of_singleton).
    specialize (H Hb). inversion_clear Hx as [|? ? Ha Hx'].
    assert (extent_ok b) as Hbx by (rewrite Forall_forall in Hx'; by apply Hx').
    pose proof (extent_end b Hbx). lia.
  - inversion_clear Hx. apply IH; [done| |done]. destruct l; [done|apply Hs].
Qed.

Lemma serial_app_r l1 l2 : serial (l1 ++ l2) → serial l2.
Proof.
  induction l1 as [|a l1 IH]; [done|]. intros Hs. apply IH.
  cbn [app] in Hs. by destruct (l1 ++ l2); [|apply Hs].
Qed.

Lemma serial_app_l l1 l2 : serial (l1 ++ l2) → serial l1.
Proof.
  induction l1 as [|a [|b l1] IH]; [done..|]. intros [Hab Hs]. split; [done|]. by apply IH.
Qed.

Lemma serial_span f l gs : serial gs → serial (span f l gs).
Proof.
  unfold span. intros Hs. apply serial_app_l with (l2 := drop (N.to_nat (l + 1 - f)) (drop (N.to_nat f) gs)).
  rewrite take_drop. apply serial_app_r with (l1 := list.take (N.to_nat f) gs). by rewrite take_drop.
Qed.

Lemma run_ref_media p e f l gs g :
  Forall extent_ok gs → serial gs → g ∈ span f l gs →
  (MediaStart (run_ref p e f l gs) <= MediaTime g)%Z ∧ (mediaEnd g <= MediaEnd (run_ref p e f l gs))%Z.
Proof.
  intros Hx Hs Hg. apply (serial_span f l) in Hs. apply (Forall_span _ f l) in Hx.
  unfold run_ref, summarize. cbn [s_Groups].
  destruct (span f l gs) as [|a sp]; [by apply not_elem_of_nil in Hg|].
  destruct (foldl _ _ _) as [st en]. simpl MediaStart. simpl MediaEnd. split.
  - apply elem_of_cons in Hg as [-> |Hg]; [done|].
    pose proof (serial_head _ _ Hx Hs g Hg). inversion_clear Hx as [|? ? Ha _].
    pose proof (extent_end a Ha). lia.
  - destruct (exists_last (l := a :: sp)) as (sp' & b & Heq); [done|]. rewrite Heq in *.
    rewrite last_snoc. simpl. by eapply serial_last.
Qed.

(** ** Ranges *)

(** The objects of a whole track: its root and the log of every epoch. *)
Record track_view (p : TrackPath) (m : objs) (tr : trackRoot)
    (logs : list (epochLogRoot * list GroupInfo)) : Prop := {
  tv_root : stored_as m (rootKey p) tr;
  tv_track : tr_Track tr = p;
  tv_latest : LatestEpoch tr = N.of_nat (length logs);
  tv_logs : epoch_logs p m 1 logs;
  tv_size : is_u64 (1 + N.of_nat (length logs));
}.

(** Every committed group of the track, in commit order. *)
Definition groups_of (logs : list (epochLogRoot * list GroupInfo)) : list GroupInfo :=
  concat (map snd logs).

Lemma elem_of_groups logs i root gs g :
  logs !! i = Some (root, gs) → g ∈ gs → g ∈ groups_of logs.
Proof.
  intros Hi Hg. apply list_elem_of_In, in_concat. exists gs. split; [|by apply list_elem_of_In].
  apply (in_map snd logs (root, gs)). apply list_elem_of_In. by eapply list_elem_of_lookup_2.
Qed.

Lemma log_le_groups logs i root gs : logs !! i = Some (root, gs) → length gs <= length (groups_of logs).
Proof.
  intros Hi. unfold groups_of. rewrite <-(take_drop_middle logs i _ Hi), map_app, concat_app, length_app.
  simpl. rewrite length_app. lia.
Qed.

Definition probes (logs : list (epochLogRoot * list GroupInfo)) (fuel : nat) : Prop :=
  Forall (λ log, length log.2 < fuel) logs.

Lemma wp_filtered_walk {A} fl fuel r m tr logs keep include
    (yield : A → result GroupInfo → A * bool) s :
  track_view (r_path r) m tr logs → latest r = N.of_nat (length logs) → probes logs fuel →
  (∀ i root gs f l, logs !! i = Some (root, gs) → (f <= l < log_size gs)%N →
     include (run_ref (r_path r) (1 + N.of_nat i) f l gs) = false →
     ∀ g, g ∈ span f l gs → keep g = false) →
  wp (op_spec fl) (filterGroups (walk fuel r include) keep A yield s)
    (λ s' m', m' = m ∧ iterated fl yield (List.filter keep (groups_of logs)) s s') m.
Proof.
  intros [_ _ _ Hlogs Hu] Hlat Hfuel Hprune. unfold filterGroups, walk. rewrite Hlat, Nat2N.id.
  eapply wp_mono; [|by apply wp_walk_epochs]. intros s' m' [-> Hit]. split; [done|].
  assert (List.filter keep (concat (map (included include) logs)) =
    List.filter keep (groups_of logs)) as <-; [|by apply iterated_kept].
  clear Hit Hfuel Hlat Hu. unfold groups_of. generalize dependent 1%N.
  induction logs as [|[root gs] logs IH]; intros first Hlogs Hprune; [done|].
  cbn [map concat]. rewrite !List.filter_app. f_equal.
  - pose proof (Hlogs 0 root gs eq_refl) as Hlog. rewrite N.add_0_r in Hlog.
    eapply included_filter; [done|]. intros f l Hfl Hi. eapply (Hprune 0 root gs); [done|done|].
    by rewrite N.add_0_r.
  - apply (IH (first + 1)%N); [by eapply epoch_logs_tail|].
    intros i root' gs' f l Hi Hfl Hinc. apply (Hprune (S i) root' gs' f l Hi Hfl).
    by replace (first + N.of_nat (S i))%N with (first + 1 + N.of_nat i)%N by lia.
Qed.

Lemma wp_RangeWallclock fl fuel r m tr logs from to :
  track_view (r_path r) m tr logs → latest r = N.of_nat (length logs) → probes logs fuel →
  wp (op_spec fl) (collect (RangeWallclock fuel r from to)) (λ res m', m' = m ∧
    collected fl (if (to <=? from)%Z then []
                  else List.filter (λ g, overlapsWallclock g from to (Timescale (r_schema r)))
                         (groups_of logs)) res) m.
Proof.
  intros Hv Hlat Hfuel. unfold RangeWallclock. destruct (to <=? from)%Z; [split; [done|by left]|].
  eapply wp_mono; [|eapply (wp_filtered_walk fl fuel r m tr logs _ _ collector); try done].
  - intros res m' [-> Hit]. split; [done|]. by apply iterated_collected.
  - intros i root gs f l _ Hfl Hinc g Hg. bool_to_prop. unfold overlapsWallclock, hasWallclock.
    destruct (Z.eqb_spec (Wallclock g) 0) as [|Hw]; [done|]. cbn [negb].
    pose proof (run_ref_wallclock _ _ _ _ _ g Hg ltac:(done) Hw).
    rewrite (proj2 (Z.ltb_ge (Wallclock g) to)) by lia.
    destruct (wallclockEnd _ _); [done|]. by rewrite andb_false_r.
Qed.

Lemma wp_RangeMedia fl fuel r m tr logs from to :
  track_view (r_path r) m tr logs → latest r = N.of_nat (length logs) → probes logs fuel →
  (∀ g, g ∈ groups_of logs → Duration g = 0%Z → MediaTime g ≠ from) →
  wp (op_spec fl) (collect (RangeMedia fuel r from to)) (λ res m', m' = m ∧
    collected fl (if (to <=? from)%Z then []
                  else List.filter (λ g, overlapsMedia g from to) (groups_of logs)) res) m.
Proof.
  intros Hv Hlat Hfuel Hpoint. unfold RangeMedia. destruct (to <=? from)%Z; [split; [done|by left]|].
  eapply wp_mono; [|eapply (wp_filtered_walk fl fuel r m tr logs _ _ collector); try done].
  - intros res m' [-> Hit]. split; [done|]. by apply iterated_collected.
  - intros i root gs f l Hi Hfl Hinc g Hg.
    pose proof (tv_logs _ _ _ _ Hv i root gs Hi) as Hlog.
    pose proof (log_rows _ _ _ _ _ Hlog) as Hrows.
    assert (Forall extent_ok gs) as Hx.
    { rewrite Forall_forall in *. intros a Ha. by destruct (Hrows a Ha) as (_ & ? & _). }
    destruct (run_ref_media (r_path r) (1 + N.of_nat i) f l gs g Hx (log_serial _ _ _ _ _ Hlog) Hg)
      as [Hms Hme].
    assert (g ∈ gs) as Hin.
    { by eapply subseteq_drop, subseteq_take. }
    assert (extent_ok g) as Hgx by (rewrite Forall_forall in Hx; by apply Hx).
    pose proof (extent_end g Hgx) as [He Hle]. destruct Hgx as [Hd _].
    unfold overlapsMedia, hasDuration. apply andb_false_iff in Hinc as [Hinc|Hinc]; bool_to_prop.
    + rewrite (proj2 (Z.ltb_ge (MediaTime g) to)) by lia. rewrite andb_false_r.
      by destruct (0 <? Duration g)%Z.
    + destruct (Z.ltb_spec 0 (Duration g)); cbn [negb].
      * rewrite (proj2 (Z.ltb_ge from (mediaEnd g))) by lia. by rewrite andb_false_r.
      * assert (MediaTime g ≠ from) as Hne.
        { apply Hpoint; [by eapply elem_of_groups|lia]. }
        rewrite (proj2 (Z.leb_gt from (MediaTime g))) by lia. done.
Qed.

(** ** Streaming *)

(** Delta [n] is in the open region or begins a run. *)
Definition aligned (p : TrackPath) (e : N) (root : epochLogRoot) (gs : list GroupInfo) (n : N) : Prop :=
  (OpenFrom root <= n <= log_size gs)%N ∨
  ∃ refs1 refs2, Sealed root = refs1 ++ refs2 ∧ runs p e gs 0 refs1 n ∧
    runs p e gs n refs2 (OpenFrom root).

(** The reader stands before [rest], the groups it has still to yield. *)
Record cursor (p : TrackPath) (logs : list (epochLogRoot * list GroupInfo)) (r : Reader)
    (rest : list GroupInfo) : Prop := {
  cu_path : r_path r = p;
  cu_latest : latest r = N.of_nat (length logs);
  cu_at : ∃ i gs, r_epoch r = (1 + N.of_nat i)%N ∧ logs !! i = Some (r_logRoot r, gs) ∧
    aligned p (r_epoch r) (r_logRoot r) gs (next r) ∧
    rest = drop (idx r) (batch r) ++ drop (N.to_nat (next r)) gs ++ groups_of (drop (S i) logs);
}.

Lemma covering_skip p e gs f refs1 refs2 n :
  runs p e gs f refs1 n → sealedCovering_in (refs1 ++ refs2) n = sealedCovering_in refs2 n.
Proof.
  induction 1 as [|f l refs n Hfl Hr IH]; [done|]. cbn [app sealedCovering_in].
  destruct (run_ref_fields p e f l gs) as (_ & -> & ->). apply runs_le in Hr.
  rewrite (proj2 (N.leb_gt n l)) by lia. by rewrite andb_false_r.
Qed.

Lemma runs_app p e gs f refs1 n refs2 k :
  runs p e gs f refs1 n → runs p e gs n refs2 k → runs p e gs f (refs1 ++ refs2) k.
Proof. induction 1; [done|]. intros. cbn [app]. by constructor; [|auto]. Qed.

(** Below the open region an aligned reader finds the run it is to read. *)
Lemma aligned_covering p e m root gs n :
  root_ok p e m root gs → aligned p e root gs n → (n < OpenFrom root)%N →
  ∃ l, sealedCovering root n = Some (run_ref p e n l gs) ∧ (n <= l < log_size gs)%N ∧
    run_ref p e n l gs ∈ Sealed root ∧ aligned p e root gs (l + 1).
Proof.
  intros Hrok [?|(refs1 & refs2 & Hs & H1 & H2)] Hn; [lia|].
  pose proof (ro_open _ _ _ _ _ Hrok) as Hopen.
  inversion H2 as [|? l refs ? Hnl H2' Hn0 Hrefs]; subst; [lia|].
  apply runs_le in H2' as Hle. exists l. unfold sealedCovering. rewrite Hs.
  erewrite covering_skip by done. cbn [sealedCovering_in].
  destruct (run_ref_fields p e n l gs) as (_ & HF & HL). rewrite HF, HL.
  rewrite (proj2 (N.leb_le n n)), (proj2 (N.leb_le n l)) by lia. split_and!; [done|lia|lia| |].
  - apply elem_of_app. right. apply elem_of_cons. by left.
  - right. exists (refs1 ++ [run_ref p e n l gs]), refs. rewrite Hs, <-app_assoc. split_and!; [done| |done].
    eapply runs_app; [done|]. constructor; [done|constructor].
Qed.

Lemma wp_fetchTrackRoot fl p m tr logs :
  track_view p m tr logs →
  wp (op_spec fl) (fetchTrackRoot p) (λ r m', m' = m ∧
    match r with Ok (t, v) => t = tr ∧ ∃ d, m !! rootKey p = Some (d, v) | Err _ => fl = true end) m.
Proof.
  intros Hv. destruct (tv_root _ _ _ _ Hv) as ([d0 v0] & Ho & Hd). apply wp_bind, wp_Get.
  - intros d v Hd'. rewrite Ho in Hd'. injection Hd' as -> ->. unfold holds_manifest in Hd. simpl in *.
    rewrite Hd. rewrite (tv_track _ _ _ _ Hv), String.eqb_refl. simpl. eauto.
  - congruence.
  - intros er -> Hb Hne. simpl. by rewrite Hne.
Qed.

(** ** Errors of fetches *)

(** No fetch answers [io.EOF]. *)
Definition no_EOF {A} (r : result A) : Prop :=
  match r with Ok _ => True | Err er => errors_Is er EOF = false end.

Lemma decodeManifest_no_EOF {A} `{Manifest A} data : no_EOF (decodeManifest (A:=A) data).
Proof. unfold decodeManifest. repeat case_match; done. Qed.

Lemma wlp_Get_no_EOF {A} fl k (f : result (bytes * Version) → result A) m :
  (∀ d v, no_EOF (f (Ok (d, v)))) → (∀ er, errors_Is er EOF = false → no_EOF (f (Err er))) →
  wlp (op_spec fl) (r ← store_Get k; mret (f r)) (λ r _, no_EOF r) m.
Proof.
  intros HOk HErr. apply wlp_bind. intros [[d v]|er] m' Hr; cbn; [apply HOk|]. apply HErr.
  destruct Hr as [_ [Hb _]]. by apply backend_not_ledger.
Qed.

#[local] Ltac solve_no_EOF :=
  lazymatch goal with
  | |- no_EOF (decodeManifest _) => apply decodeManifest_no_EOF
  | |- no_EOF (if ?b then _ else _) => destruct b; solve_no_EOF
  | |- no_EOF (match ?x with Ok _ => _ | Err _ => _ end) =>
      let H := fresh in assert (no_EOF x) as H by apply decodeManifest_no_EOF; destruct x; solve_no_EOF
  | |- no_EOF (Ok _) => exact I
  | |- no_EOF (Err [_]) => reflexivity
  | |- no_EOF (Err _) => assumption
  end.
#[local] Ltac fetch_no_EOF :=
  unfold fetchTrackRoot, fetchEpochLog, delta, sealed;
  lazymatch goal with
  | |- wlp (op_spec ?fl) (mbind (λ r, mret (@?f r)) (store_Get ?k)) _ ?m => apply (wlp_Get_no_EOF fl k f m)
  end; [intros d v|intros er Her]; cbv beta iota; solve_no_EOF.

Lemma wlp_fetchTrackRoot_EOF fl path m : wlp (op_spec fl) (fetchTrackRoot path) (λ r _, no_EOF r) m.
Proof. fetch_no_EOF. Qed.

Lemma wlp_fetchEpochLog_EOF fl path epoch m : wlp (op_spec fl) (fetchEpochLog path epoch) (λ r _, no_EOF r) m.
Proof. fetch_no_EOF. Qed.

Lemma wlp_delta_EOF fl path epoch n m : wlp (op_spec fl) (delta path epoch n) (λ r _, no_EOF r) m.
Proof. fetch_no_EOF. Qed.

Lemma wlp_sealed_EOF fl path epoch ref m : wlp (op_spec fl) (sealed path epoch ref) (λ r _, no_EOF r) m.
Proof. fetch_no_EOF. Qed.

Section Next.
Context (p : TrackPath) (m : objs) (tr : trackRoot) (logs : list (epochLogRoot * list GroupInfo)).
Context (Hv : track_view p m tr logs).

(** What a call of [Next] answers: the next group, [io.EOF] when there is none;
    or a failed call's error, and then nothing is lost. *)
Definition next_post (fl : bool) (rest : list GroupInfo) (a : Reader * result GroupInfo) (m' : objs)
    : Prop :=
  m' = m ∧
  (match rest with
   | g :: rest' => a.2 = Ok g ∧ r_last a.1 = ID g ∧ cursor p logs a.1 rest'
   | [] => a.2 = Err [EOF] ∧ cursor p logs a.1 []
   end ∨ fl = true ∧ (∃ er, a.2 = Err er ∧ errors_Is er EOF = false) ∧ cursor p logs a.1 rest).

Lemma cursor_batch r rest g :
  cursor p logs r rest → batch r !! idx r = Some g →
  ∃ rest', rest = g :: rest' ∧ cursor p logs {| r with idx := S (idx r); r_last := ID g |} rest'.
Proof.
  intros [Hp Hl (i & gs & He & Hi & Ha & ->)] Hg. rewrite (drop_S _ g) by done.
  eexists. split; [done|]. constructor; simpl; [done|done|]. by exists i, gs.
Qed.

Lemma wp_Refresh fl r rest :
  cursor p logs r rest →
  wp (op_spec fl) (Refresh r) (λ a m', m' = m ∧ cursor p logs a.1 rest ∧
    match a.2 with None => True | Some er => fl = true ∧ errors_Is er EOF = false end) m.
Proof.
  intros [Hp Hl (i & gs & He & Hi & Ha & ->)]. unfold Refresh. rewrite Hp.
  pose proof (tv_logs _ _ _ _ Hv i _ gs Hi) as Hlog. rewrite <-He in Hlog.
  assert (∀ r', r_path r' = p → latest r' = N.of_nat (length logs) → r_epoch r' = r_epoch r →
    r_logRoot r' = r_logRoot r → next r' = next r → idx r' = idx r → batch r' = batch r →
    cursor p logs r' (drop (idx r) (batch r) ++ drop (N.to_nat (next r)) gs ++ groups_of (drop (S i) logs)))
    as Hcur.
  { intros r' Hp' Hl' He' Hr' Hn' Hi' Hb'. constructor; [done|done|]. exists i, gs.
    by rewrite He', Hr', Hn', Hi', Hb'. }
  apply wp_bind. eapply wp_mono; [|apply wp_wlp; [by eapply wp_fetchTrackRoot|apply wlp_fetchTrackRoot_EOF]].
  intros [[t v]|er] m' [[-> H] HE]; [|split; [done|split; [by apply Hcur|by split]]].
  destruct H as [-> _]. apply wp_bind. simpl (r_epoch _).
  eapply wp_mono; [|apply wp_wlp; [by eapply wp_fetchEpochLog|apply wlp_fetchEpochLog_EOF]].
  intros [[rt v']|er] m' [[-> H] HE']; simpl.
  - destruct H as [-> _]. split; [done|]. split; [|done].
    assert (LatestEpoch tr = N.of_nat (length logs)) by apply Hv.
    destruct (r_epoch r =? 1)%N; by apply Hcur.
  - destruct H as [-> _]. split; [done|]. split; [|by split].
    assert (LatestEpoch tr = N.of_nat (length logs)) by apply Hv. by apply Hcur.
Qed.

Lemma wp_Next_batch fl fuel r rest g :
  cursor p logs r rest → batch r !! idx r = Some g → 0 < fuel →
  wp (op_spec fl) (Next fuel r) (next_post fl rest) m.
Proof.
  intros Hc Hg Hf. destruct fuel as [|fuel]; [lia|]. cbn [Next]. rewrite Hg.
  destruct (cursor_batch r rest g Hc Hg) as (rest' & -> & Hc'). split; [done|]. by left.
Qed.

(** A cursor moved to a segment it has just fetched. *)
Lemma cursor_segment r root gs i seg n later :
  r_path r = p → latest r = N.of_nat (length logs) → r_epoch r = (1 + N.of_nat i)%N →
  logs !! i = Some (root, gs) → r_logRoot r = root → aligned p (r_epoch r) root gs n →
  later = groups_of (drop (S i) logs) →
  cursor p logs {| r with batch := seg; idx := 0; next := n; misses := 0 |}
    (seg ++ drop (N.to_nat n) gs ++ later).
Proof.
  intros Hp Hl He Hi Hr Ha ->. constructor; simpl; [done|done|]. exists i, gs. by rewrite Hr.
Qed.

Lemma fail_next fl rest r er :
  cursor p logs r rest → fl = true → errors_Is er EOF = false → next_post fl rest (r, Err er) m.
Proof. intros Hc -> HE. split; [done|]. right. split_and!; [done|by exists er|done]. Qed.

(** Fetching the run or the delta that comes next. *)
Lemma wp_Next_sealed fl fuel r rest l i gs :
  cursor p logs r rest → drop (idx r) (batch r) = [] → r_epoch r = (1 + N.of_nat i)%N →
  logs !! i = Some (r_logRoot r, gs) →
  rest = drop (N.to_nat (next r)) gs ++ groups_of (drop (S i) logs) →
  (next r <= l < log_size gs)%N → run_ref p (r_epoch r) (next r) l gs ∈ Sealed (r_logRoot r) →
  aligned p (r_epoch r) (r_logRoot r) gs (l + 1) → 0 < fuel →
  wp (op_spec fl) (got ← sealed (r_path r) (r_epoch r) (run_ref p (r_epoch r) (next r) l gs);
    match got with
    | Err er => mret (r, Err er)
    | Ok sm => Next fuel {| r with batch := s_Groups sm; idx := 0;
        next := u64 (LastDelta (run_ref p (r_epoch r) (next r) l gs) + 1); misses := 0 |}
    end) (next_post fl rest) m.
Proof.
  intros Hc Hb He Hi Hrest Hl Hin Ha Hf. pose proof Hc as [Hp Hlat _].
  pose proof (tv_logs _ _ _ _ Hv i _ gs Hi) as Hlog. rewrite <-He in Hlog.
  pose proof (log_room _ _ _ _ _ Hlog) as Hroom.
  destruct (run_ref_fields p (r_epoch r) (next r) l gs) as (_ & HF & HL). rewrite HL.
  assert (sealed (r_path r) = sealed p) as -> by (by rewrite Hp).
  rewrite u64_small by (apply (room_u64 gs); [done|lia]).
  apply wp_bind. eapply wp_mono; [|apply wp_wlp; [eapply wp_sealed; [done|]|apply wlp_sealed_EOF]].
  2: { pose proof (root_runs_stored _ _ _ _ _ (log_root_ok _ _ _ _ _ Hlog)) as H.
       rewrite Forall_forall in H. by apply H. }
  intros [sm|er] m' [[-> Hs] HE]; [|by apply fail_next].
  rewrite HF, HL in Hs. rewrite Hs.
  assert (drop (N.to_nat (next r)) gs = span (next r) l gs ++ drop (N.to_nat (l + 1)) gs) as Hsplit.
  { unfold span. replace (N.to_nat (l + 1)) with (N.to_nat (next r) + N.to_nat (l + 1 - next r)) by lia.
    by rewrite <-drop_drop, take_drop. }
  rewrite Hsplit, <-app_assoc in Hrest. subst rest.
  destruct (span (next r) l gs) as [|g sp] eqn:Esp.
  { apply (f_equal length) in Esp. rewrite span_length in Esp by lia. simpl in Esp. lia. }
  eapply wp_Next_batch; [|done|done]. by eapply cursor_segment.
Qed.

Lemma wp_Next_delta fl fuel r rest g i gs :
  cursor p logs r rest → r_epoch r = (1 + N.of_nat i)%N → logs !! i = Some (r_logRoot r, gs) →
  rest = drop (N.to_nat (next r)) gs ++ groups_of (drop (S i) logs) →
  (OpenFrom (r_logRoot r) <= next r)%N → gs !! N.to_nat (next r) = Some g → 0 < fuel →
  wp (op_spec fl) (Next fuel {| r with batch := [g]; idx := 0; next := u64 (next r + 1); misses := 0 |})
    (next_post fl rest) m.
Proof.
  intros Hc He Hi Hrest Hn Hg Hf. pose proof Hc as [Hp Hlat _].
  pose proof (tv_logs _ _ _ _ Hv i _ gs Hi) as Hlog.
  pose proof (log_room _ _ _ _ _ Hlog) as Hroom. apply lookup_lt_Some in Hg as Hlt.
  rewrite u64_small by (apply (room_u64 gs); [done|unfold log_size; lia]).
  rewrite (drop_S _ g) in Hrest by done. subst rest.
  replace (S (N.to_nat (next r))) with (N.to_nat (next r + 1)) by lia.
  eapply wp_Next_batch; [|done|done].
  eapply (cursor_segment r _ gs i [g]); try done. left. unfold log_size. lia.
Qed.

Lemma wp_Next fl fuel : ∀ r rest,
  cursor p logs r rest → N.to_nat (latest r - r_epoch r) + 2 <= fuel →
  wp (op_spec fl) (Next fuel r) (next_post fl rest) m.
Proof.
  induction fuel as [|fuel IH]; intros r rest Hc Hfuel; [lia|].
  destruct (batch r !! idx r) as [g|] eqn:Eb; [by eapply wp_Next_batch; [| |lia]|].
  pose proof Hc as [Hp Hlat (i & gs & He & Hi & Ha & Hrest)].
  apply lookup_ge_None in Eb as Hb. apply drop_ge in Hb. rewrite Hb in Hrest. cbn [app] in Hrest.
  pose proof (tv_logs _ _ _ _ Hv i _ gs Hi) as Hlog. rewrite <-He in Hlog.
  pose proof (log_root_ok _ _ _ _ _ Hlog) as Hrok. pose proof (log_room _ _ _ _ _ Hlog) as Hroom.
  apply lookup_lt_Some in Hi as Hilen. cbn [Next]. rewrite Eb.
  destruct (N.ltb_spec (next r) (OpenFrom (r_logRoot r))) as [Hn|Hn].
  { destruct (aligned_covering _ _ _ _ _ _ Hrok Ha Hn) as (l & -> & Hl & Hin & Ha').
    eapply wp_Next_sealed; try done. lia. }
  assert (next r <= log_size gs)%N as Hnle.
  { destruct Ha as [?|(refs1 & refs2 & _ & _ & H2)]; [lia|]. apply runs_le in H2.
    pose proof (ro_open _ _ _ _ _ Hrok). lia. }
  assert (delta (r_path r) = delta p) as -> by (by rewrite Hp).
  apply wp_bind. eapply wp_mono; [|apply wp_wlp; [eapply wp_delta; [done|by apply (room_u64 gs)]|apply wlp_delta_EOF]].
  intros [d|er] m' [[-> H] HE].
  { destruct H as (g & Hg & ->). eapply wp_Next_delta; try done. lia. }
  destruct (errors_Is er ErrNotCommitted); [|by apply fail_next].
  assert (next r = log_size gs) as Hend.
  { destruct (decide (next r = log_size gs)); [done|].
    destruct (log_open _ _ _ _ _ Hlog (next r) ltac:(lia)) as [? ?]. congruence. }
  rewrite drop_ge in Hrest by (unfold log_size in Hend; lia). cbn [app] in Hrest.
  destruct (N.ltb_spec (r_epoch r) (latest r)) as [Hlt|Hge].
  - destruct (lookup_lt_is_Some_2 logs (S i)) as [[root2 gs2] Hi2]; [lia|].
    pose proof (tv_logs _ _ _ _ Hv (S i) _ _ Hi2) as Hlog2.
    replace (1 + N.of_nat (S i))%N with (r_epoch r + 1)%N in Hlog2 by lia.
    pose proof (tv_size _ _ _ _ Hv) as Hsz. unfold is_u64 in Hsz.
    rewrite u64_small by (unfold is_u64; lia). unfold loadEpoch. rewrite Hp. apply wp_bind, wp_bind.
    eapply wp_mono; [|apply wp_wlp; [by eapply wp_fetchEpochLog|apply wlp_fetchEpochLog_EOF]].
    intros [[rt v]|er'] m' [[-> H'] HE']; [|by apply fail_next; [|apply H'|]].
    destruct H' as [-> _]. simpl. apply IH; [|simpl; lia].
    constructor; simpl; [done|done|]. exists (S i), gs2. split_and!; [lia|done| |].
    + right. exists [], (Sealed root2). split_and!; [done|constructor|apply Hlog2].
    + rewrite Hrest, (drop_S _ _ _ Hi2). done.
  - assert (rest = []) as ->.
    { rewrite Hrest, drop_ge by lia. done. }
    assert (∀ r', r' = {| r with misses := misses r' |} → cursor p logs r' []) as Hmiss.
    { intros r' ->. constructor; simpl; [done|done|]. exists i, gs. split_and!; [done|done|done|].
      rewrite Hb, drop_ge by (unfold log_size in Hend; lia). by rewrite <-Hrest. }
    cbv zeta. set (r' := {| r with misses := _ |}).
    assert (cursor p logs r' []) as Hc' by by apply Hmiss.
    destruct ((misses r' =? 1)%N || (misses r' mod rootRecheckEvery =? 0)%N).
    + apply wp_bind. eapply wp_mono; [|by apply wp_Refresh].
      intros [r2 [er2|]] m' (-> & Hc2 & Herr); simpl in *.
      * destruct Herr. by apply fail_next.
      * split; [done|]. by left.
    + split; [done|]. by left.
Qed.

End Next.
