(* ===== verification/TailLog.v ===== *)
(** * A reader that tails a growing track

    A reader keeps the log root it last read while producers append, seal and
    begin epochs. [tails] says where it stands in the log all the same: [Next] never
    steps over a group, though it may go back to the start of a run that was
    sealed around it, and once nothing changes it catches up. *)

From S2P Require Import Prelude GoStd Json Store Group Manifest Track Redact Reader EpochLog.
From S2P Require Import WriterLog ReaderLog.

(** ** Logs that grow *)

(** Epochs are added, and only the last one grows. *)
Definition later (logs logs' : list (epochLogRoot * list GroupInfo)) : Prop :=
  ∀ i root gs, logs !! i = Some (root, gs) → ∃ root' new,
    logs' !! i = Some (root', gs ++ new) ∧ (S i < length logs → root' = root ∧ new = []).

(** Sealed manifests are there for good. *)
Definition runs_kept (p : TrackPath) (m m' : objs) : Prop :=
  ∀ e f l, is_Some (m !! sealedKey p e f l) → is_Some (m' !! sealedKey p e f l).

Lemma later_length logs logs' : later logs logs' → length logs <= length logs'.
Proof.
  intros H. destruct (decide (length logs' < length logs)) as [Hlt|]; [|lia].
  destruct (lookup_lt_is_Some_2 logs (length logs')) as [[root gs] Hi]; [done|].
  destruct (H _ _ _ Hi) as (root' & new & Hi' & _). apply lookup_lt_Some in Hi'. lia.
Qed.

Lemma later_refl logs : later logs logs.
Proof. intros i root gs Hi. exists root, []. by rewrite app_nil_r. Qed.

Lemma later_trans l1 l2 l3 : later l1 l2 → later l2 l3 → later l1 l3.
Proof.
  intros H1 H2 i root gs Hi. destruct (H1 _ _ _ Hi) as (root2 & new2 & Hi2 & Hf2).
  destruct (H2 _ _ _ Hi2) as (root3 & new3 & Hi3 & Hf3). exists root3, (new2 ++ new3).
  rewrite app_assoc. split; [done|]. intros Hlt. pose proof (later_length _ _ H1).
  destruct (Hf2 Hlt) as [-> ->], (Hf3 ltac:(lia)) as [-> ->]. done.
Qed.

(** A new epoch, and more groups of the last one. *)
Lemma later_epoch logs log : later logs (logs ++ [log]).
Proof.
  intros i root gs Hi. exists root, []. rewrite app_nil_r. split; [|done].
  rewrite lookup_app_l; [done|]. by eapply lookup_lt_Some.
Qed.

Lemma later_last older root gs root' new :
  later (older ++ [(root, gs)]) (older ++ [(root', gs ++ new)]).
Proof.
  intros i rt g Hi. rewrite length_app. simpl. destruct (decide (i < length older)) as [Hlt|Hge].
  - rewrite lookup_app_l in Hi by done. exists rt, []. rewrite app_nil_r, lookup_app_l by done. done.
  - rewrite lookup_app_r in Hi by lia. apply list_lookup_singleton_Some in Hi as [Hi [= <- <-]].
    exists root', new. split; [|lia]. rewrite lookup_app_r by lia. by rewrite Hi.
Qed.

(** The groups of the epochs before epoch [1 + i]. *)
Definition offset (logs : list (epochLogRoot * list GroupInfo)) (i : nat) : nat :=
  length (groups_of (list.take i logs)).

Lemma offset_S logs i root gs : logs !! i = Some (root, gs) → offset logs (S i) = offset logs i + length gs.
Proof.
  intros Hi. unfold offset, groups_of. rewrite (take_S_r _ _ _ Hi), map_app, concat_app, length_app. simpl.
  by rewrite app_nil_r.
Qed.

Lemma offset_all logs : offset logs (length logs) = length (groups_of logs).
Proof. unfold offset. by rewrite firstn_all. Qed.

Lemma lookup_groups logs i root gs j g :
  logs !! i = Some (root, gs) → gs !! j = Some g → groups_of logs !! (offset logs i + j) = Some g.
Proof.
  intros Hi Hj. unfold offset, groups_of. rewrite <-(take_drop_middle _ _ _ Hi) at 2.
  rewrite map_app, concat_app. simpl. rewrite lookup_app_r by lia.
  replace (_ + j - _) with j by lia. by apply lookup_app_l_Some.
Qed.

Lemma offset_mono logs i k : i <= k → offset logs i <= offset logs k.
Proof.
  intros Hik. unfold offset, groups_of. replace (list.take i logs) with (list.take i (list.take k logs)).
  - rewrite <-(take_drop i (list.take k logs)) at 2. rewrite map_app, concat_app, length_app. lia.
  - rewrite take_take. f_equal. lia.
Qed.

Lemma offset_bound logs i root gs j :
  logs !! i = Some (root, gs) → j <= length gs → offset logs i + j <= length (groups_of logs).
Proof.
  intros Hi Hj. rewrite <-offset_all. apply lookup_lt_Some in Hi as Hlt.
  pose proof (offset_mono logs (S i) (length logs) ltac:(lia)). rewrite (offset_S _ _ _ _ Hi) in *. lia.
Qed.

Lemma take_later logs logs' i : later logs logs' → i < length logs → list.take i logs' = list.take i logs.
Proof.
  intros H Hi. apply list_eq. intros k. destruct (decide (k < i)) as [Hk|]; [|by rewrite !lookup_take_ge by lia].
  rewrite !lookup_take_lt by done. destruct (lookup_lt_is_Some_2 logs k) as [[root gs] Hl]; [lia|].
  destruct (H _ _ _ Hl) as (root' & new & Hl' & Hf). destruct Hf as [-> ->]; [lia|]. by rewrite Hl, Hl', app_nil_r.
Qed.

(** ** Where a reader stands *)

(** Position [c] of the log is the next the reader yields, unless the run that
    holds it has been sealed since. *)
Record tails (p : TrackPath) (m : objs) (logs : list (epochLogRoot * list GroupInfo)) (r : Reader)
    (c : nat) : Prop := {
  ta_path : r_path r = p;
  ta_latest : (r_epoch r <= latest r <= N.of_nat (length logs))%N;
  ta_at : ∃ i j root gs, r_epoch r = (1 + N.of_nat i)%N ∧ logs !! i = Some (root, gs) ∧
    root_ok p (r_epoch r) m (r_logRoot r) gs ∧ (next r <= log_size gs)%N ∧
    ((r_epoch r < latest r)%N → r_logRoot r = root) ∧ j <= N.to_nat (next r) ∧
    drop (idx r) (batch r) = drop j (list.take (N.to_nat (next r)) gs) ∧ c = offset logs i + j;
}.

Lemma tails_bound p m logs r c : tails p m logs r c → c <= length (groups_of logs).
Proof.
  intros [_ _ (i & j & root & gs & _ & Hi & _ & Hn & _ & Hj & _ & ->)].
  eapply offset_bound; [exact Hi|]. unfold log_size in Hn. lia.
Qed.

Lemma root_ok_app p e m root gs new : root_ok p e m root gs → root_ok p e m root (gs ++ new).
Proof.
  revert gs. induction new as [|g new IH]; intros gs H; [by rewrite app_nil_r|].
  replace (gs ++ g :: new) with ((gs ++ [g]) ++ new) by by rewrite <-app_assoc. by apply IH, root_ok_snoc.
Qed.

(** Producers move the track under the reader. *)
Lemma tails_later p m logs r c m' logs' :
  (∀ i root gs, logs' !! i = Some (root, gs) → room gs) →
  later logs logs' → runs_kept p m m' → tails p m logs r c → tails p m' logs' r c.
Proof.
  intros Hroom Hl Hk [Hp Hlat (i & j & root & gs & He & Hi & Hok & Hn & Hroot & Hj & Hb & ->)].
  destruct (Hl _ _ _ Hi) as (root' & new & Hi' & Hf). apply lookup_lt_Some in Hi as Hlt.
  pose proof (later_length _ _ Hl) as Hlen. constructor; [done|lia|].
  exists i, j, root', (gs ++ new). split; [done|]. split; [done|]. split_and!.
  - apply (root_ok_mono p _ m); [by eapply Hroom| |by apply root_ok_app]. intros f l _ _. apply Hk.
  - unfold log_size in *. rewrite length_app. lia.
  - intros Hel. destruct Hf as [-> _]; [lia|]. by apply Hroot.
  - done.
  - rewrite Hb. f_equal. rewrite take_app_le; [done|]. unfold log_size in Hn. lia.
  - unfold offset. by rewrite (take_later _ _ _ Hl Hlt).
Qed.

(** The reader has the newest root of its epoch, and knows the newest epoch. *)
Definition fresh (logs : list (epochLogRoot * list GroupInfo)) (r : Reader) : Prop :=
  latest r = N.of_nat (length logs) ∧
  ∃ i gs, r_epoch r = (1 + N.of_nat i)%N ∧ logs !! i = Some (r_logRoot r, gs).

(** The delta it reads next is open, or begins a run, in the root it has. *)
Definition at_run (p : TrackPath) (logs : list (epochLogRoot * list GroupInfo)) (r : Reader) : Prop :=
  ∃ i root gs, r_epoch r = (1 + N.of_nat i)%N ∧ logs !! i = Some (root, gs) ∧
    aligned p (r_epoch r) (r_logRoot r) gs (next r).

(** Whether the [misses]th empty poll re-reads the roots. *)
Definition rechecks (misses : N) : bool := (misses =? 1)%N || (misses mod rootRecheckEvery =? 0)%N.

(** What [Next] answers: the group at [c], or one of the run around it; or
    [io.EOF], and then a reader that has the newest roots is at the end. *)
Definition tailed (p : TrackPath) (m : objs) (logs : list (epochLogRoot * list GroupInfo)) (r : Reader)
    (c : nat) (a : Reader * result GroupInfo) (m' : objs) : Prop :=
  m' = m ∧ (fresh logs r → fresh logs a.1) ∧
  match a.2 with
  | Ok g => ∃ c', c' <= c ∧ groups_of logs !! c' = Some g ∧ tails p m logs a.1 (S c') ∧
      (c' = c ∨ at_run p logs a.1) ∧ (at_run p logs r → c' = c ∧ at_run p logs a.1)
  | Err er => er = [EOF] ∧ tails p m logs a.1 c ∧ (fresh logs r → c = length (groups_of logs)) ∧
      (at_run p logs r → fresh logs a.1 ∨ at_run p logs a.1) ∧
      (fresh logs a.1 ∨ rechecks (misses r + 1) = false ∧ misses a.1 = (misses r + 1)%N)
  end.

(** The run of a root that holds a delta. *)
Lemma covering p e m root gs n :
  root_ok p e m root gs → (n < OpenFrom root)%N →
  ∃ f l, sealedCovering root n = Some (run_ref p e f l gs) ∧ (f <= n <= l)%N ∧ (l < log_size gs)%N ∧
    run_ref p e f l gs ∈ Sealed root ∧ aligned p e root gs (l + 1).
Proof.
  intros Hrok Hn. pose proof (ro_runs _ _ _ _ _ Hrok) as Hruns. pose proof (ro_open _ _ _ _ _ Hrok) as Hopen.
  assert (∀ refs0 f0, Sealed root = refs0 ++ drop (length refs0) (Sealed root) →
    runs p e gs 0 refs0 f0 → (f0 <= n)%N → ∀ refs, drop (length refs0) (Sealed root) = refs →
    runs p e gs f0 refs (OpenFrom root) →
    ∃ f l, sealedCovering_in refs n = Some (run_ref p e f l gs) ∧ (f <= n <= l)%N ∧ (l < log_size gs)%N ∧
      run_ref p e f l gs ∈ refs ∧ aligned p e root gs (l + 1)) as H.
  { intros refs0 f0 Hsplit H0 Hf0 refs. revert refs0 f0 Hsplit H0 Hf0.
    induction refs as [|ref refs IH]; intros refs0 f0 Hsplit H0 Hf0 Hrefs H1; [inversion H1; subst; lia|].
    inversion H1 as [|? l ? ? Hfl H2]; subst. destruct (run_ref_fields p e f0 l gs) as (_ & HF & HL).
    pose proof (runs_le _ _ _ _ _ _ H2) as Hle. cbn [sealedCovering_in]. rewrite HF, HL.
    rewrite (proj2 (N.leb_le f0 n)) by done.
    assert (Sealed root = (refs0 ++ [run_ref p e f0 l gs]) ++ refs) as Hs.
    { rewrite Hsplit, Hrefs, <-app_assoc. done. }
    assert (runs p e gs 0 (refs0 ++ [run_ref p e f0 l gs]) (l + 1)) as H0'.
    { eapply runs_app; [done|]. constructor; [done|constructor]. }
    destruct (N.leb_spec n l) as [Hnl|Hnl]; cbn [andb].
    - exists f0, l. split_and!; [done|done|done|lia|by left|]. right. by eexists _, refs.
    - destruct (IH (refs0 ++ [run_ref p e f0 l gs]) (l + 1)%N) as (f & l' & ? & ? & ? & ? & ?); try done.
      + rewrite Hs at 2. rewrite drop_app_length. exact Hs.
      + lia.
      + rewrite Hs, drop_app_length. done.
      + exists f, l'. split_and!; try done; try lia. by right. }
  destruct (H [] 0%N eq_refl ltac:(constructor) ltac:(lia) (Sealed root)) as (f & l & ? & ? & ? & ? & ?);
    [by rewrite drop_0|done|]. exists f, l. done.
Qed.

Section Next.
Context (p : TrackPath) (m : objs) (tr : trackRoot) (logs : list (epochLogRoot * list GroupInfo)).
Context (Hv : track_view p m tr logs).

(** A group of the segment the reader holds. *)
Lemma tail_batch fuel r c g :
  tails p m logs r c → batch r !! idx r = Some g → 0 < fuel →
  wp (op_spec false) (Next fuel r) (λ a m', m' = m ∧ ∃ r', a = (r', Ok g) ∧
    r' = {| r with idx := S (idx r); r_last := ID g |} ∧
    groups_of logs !! c = Some g ∧ tails p m logs r' (S c)) m.
Proof using.
  intros [Hp Hlat (i & j & root & gs & He & Hi & Hok & Hn & Hroot & Hj & Hb & ->)] Hg Hf.
  destruct fuel as [|fuel]; [lia|]. cbn [Next]. rewrite Hg. split; [done|].
  eexists. split; [done|]. split; [done|].
  rewrite (drop_S _ g) in Hb by done.
  assert (gs !! j = Some g ∧ j < N.to_nat (next r)) as [Hjg Hjn].
  { assert (list.take (N.to_nat (next r)) gs !! j = Some g) as Ht.
    { rewrite <-(Nat.add_0_r j), <-lookup_drop, <-Hb. done. }
    apply lookup_take_Some in Ht. done. }
  split; [by eapply lookup_groups|]. constructor; simpl; [done|done|].
  exists i, (S j), root, gs. split_and!; try done.
  rewrite (drop_S (list.take _ _) g) in Hb by (by rewrite lookup_take_lt). by injection Hb.
Qed.

Lemma tailed_batch fuel r c g :
  tails p m logs r c → batch r !! idx r = Some g → 0 < fuel →
  wp (op_spec false) (Next fuel r) (tailed p m logs r c) m.
Proof using.
  intros Ht Hg Hf. eapply wp_mono; [|by eapply tail_batch].
  intros a m' (-> & r' & -> & -> & Hc & Ht'). split; [done|]. split; [done|]. cbn [snd fst].
  exists c. split_and!; [done|done|done|by left|]. intros H. by split.
Qed.

(** A segment just fetched, its groups from position [c'] on. *)
Lemma tailed_segment fuel r r0 c c' g seg :
  tails p m logs r c' → c' <= c → batch r = g :: seg → idx r = 0 → 0 < fuel →
  (fresh logs r0 → fresh logs r) → at_run p logs r → (at_run p logs r0 → c' = c) →
  wp (op_spec false) (Next fuel r) (tailed p m logs r0 c) m.
Proof using.
  intros Ht Hc Hb Hi Hf Hfresh Hrun Heq. eapply wp_mono; [|eapply tail_batch; [exact Ht| |exact Hf]].
  2: by rewrite Hb, Hi.
  intros a m' (-> & r' & -> & -> & Hg & Ht'). split; [done|]. split; [exact Hfresh|]. cbn [snd fst].
  exists c'. split_and!; [done|done|done|by right|]. intros H. split; [by apply Heq|exact Hrun].
Qed.

(** A reader whose batch is exhausted stands before delta [next]. *)
Lemma tails_exhausted r c :
  tails p m logs r c → batch r !! idx r = None →
  ∃ i root gs, r_epoch r = (1 + N.of_nat i)%N ∧ logs !! i = Some (root, gs) ∧
    root_ok p (r_epoch r) m (r_logRoot r) gs ∧ (next r <= log_size gs)%N ∧
    ((r_epoch r < latest r)%N → r_logRoot r = root) ∧ c = offset logs i + N.to_nat (next r).
Proof using.
  intros [_ _ (i & j & root & gs & He & Hi & Hok & Hn & Hroot & Hj & Hb & ->)] Hnone.
  exists i, root, gs. split_and!; try done. apply lookup_ge_None in Hnone.
  rewrite drop_ge in Hb by done. apply (f_equal length) in Hb.
  rewrite length_drop, length_take in Hb. unfold log_size in Hn. simpl in Hb. lia.
Qed.

(** Moved to a segment of the epoch it is in. *)
Lemma tails_segment r i root gs f l :
  r_path r = p → (r_epoch r <= latest r <= N.of_nat (length logs))%N →
  r_epoch r = (1 + N.of_nat i)%N → logs !! i = Some (root, gs) →
  root_ok p (r_epoch r) m (r_logRoot r) gs → ((r_epoch r < latest r)%N → r_logRoot r = root) →
  (f <= l < log_size gs)%N →
  tails p m logs {| r with batch := span f l gs; idx := 0; next := (l + 1)%N; misses := 0 |}
    (offset logs i + N.to_nat f).
Proof using.
  intros Hp Hlat He Hi Hok Hroot Hfl. constructor; simpl; [done|done|].
  exists i, (N.to_nat f), root, gs. split_and!; try done; [lia|lia|].
  unfold span. rewrite drop_0, take_drop_commute. f_equal. f_equal. lia.
Qed.

Lemma at_run_inv r i root gs :
  at_run p logs r → r_epoch r = (1 + N.of_nat i)%N → logs !! i = Some (root, gs) →
  aligned p (r_epoch r) (r_logRoot r) gs (next r).
Proof using.
  intros (i' & root' & gs' & He' & Hi' & Ha) He Hi. assert (i' = i) as -> by lia. by rewrite Hi in Hi'; simplify_eq.
Qed.

Lemma wp_tail_sealed fuel r c i root gs :
  tails p m logs r c → r_epoch r = (1 + N.of_nat i)%N → logs !! i = Some (root, gs) →
  root_ok p (r_epoch r) m (r_logRoot r) gs → ((r_epoch r < latest r)%N → r_logRoot r = root) →
  c = offset logs i + N.to_nat (next r) → (next r < OpenFrom (r_logRoot r))%N → 0 < fuel →
  wp (op_spec false)
    (match sealedCovering (r_logRoot r) (next r) with
     | None => Next fuel {| r with next := OpenFrom (r_logRoot r) |}
     | Some ref =>
         got ← sealed (r_path r) (r_epoch r) ref;
         match got with
         | Err e => mret (r, Err e)
         | Ok sm => Next fuel {| r with batch := s_Groups sm; idx := 0;
             next := u64 (LastDelta ref + 1); misses := 0 |}
         end
     end) (tailed p m logs r c) m.
Proof using Hv.
  intros Ht He Hi Hok Hroot Hc Hn Hf. destruct Ht as [Hp Hlat _].
  pose proof (tv_logs _ _ _ _ Hv i _ gs Hi) as Hlog. rewrite <-He in Hlog.
  pose proof (log_room _ _ _ _ _ Hlog) as Hroom.
  destruct (covering _ _ _ _ _ _ Hok Hn) as (f & l & Hcov & Hfl & Hl & Hin & Ha). rewrite Hcov.
  destruct (run_ref_fields p (r_epoch r) f l gs) as (_ & HF & HL). rewrite HL.
  assert (sealed (r_path r) = sealed p) as -> by (by rewrite Hp).
  rewrite u64_small by (apply (room_u64 gs); [done|lia]).
  apply wp_bind. eapply wp_mono; [|eapply wp_sealed; [done|]].
  2: { pose proof (root_runs_stored p (r_epoch r) m gs _ Hok) as H. rewrite Forall_forall in H. by apply H. }
  intros [sm|er] m' [-> Hs]; [|done]. rewrite HF, HL in Hs. rewrite Hs.
  destruct (span f l gs) as [|g sp] eqn:Esp.
  { apply (f_equal length) in Esp. rewrite span_length in Esp by lia. simpl in Esp. lia. }
  eapply (tailed_segment fuel _ r c (offset logs i + N.to_nat f)); [|lia|done|done|done|done| |].
  - rewrite <-Esp. eapply tails_segment; done || lia.
  - exists i, root, gs. done.
  - intros Hrun. pose proof (at_run_inv r i root gs Hrun He Hi) as Ha0.
    destruct (aligned_covering _ _ _ _ _ _ Hok Ha0 Hn) as (l' & Hcov' & _). rewrite Hcov in Hcov'.
    injection Hcov' as Heq. apply (f_equal FirstDelta) in Heq.
    destruct (run_ref_fields p (r_epoch r) (next r) l' gs) as (_ & HF' & _). rewrite HF, HF' in Heq. by subst f.
Qed.

Lemma wp_tail_delta fuel r c i root gs g :
  tails p m logs r c → r_epoch r = (1 + N.of_nat i)%N → logs !! i = Some (root, gs) →
  root_ok p (r_epoch r) m (r_logRoot r) gs → ((r_epoch r < latest r)%N → r_logRoot r = root) →
  c = offset logs i + N.to_nat (next r) → (OpenFrom (r_logRoot r) <= next r)%N →
  gs !! N.to_nat (next r) = Some g → 0 < fuel →
  wp (op_spec false) (Next fuel {| r with batch := [g]; idx := 0; next := u64 (next r + 1); misses := 0 |})
    (tailed p m logs r c) m.
Proof using Hv.
  intros [Hp Hlat _] He Hi Hok Hroot Hc Hn Hg Hf. apply lookup_lt_Some in Hg as Hlt.
  pose proof (tv_logs _ _ _ _ Hv i _ gs Hi) as Hlog. pose proof (log_room _ _ _ _ _ Hlog) as Hroom.
  rewrite u64_small by (apply (room_u64 gs); [done|unfold log_size; lia]).
  assert ([g] = span (next r) (next r) gs) as Hspan.
  { unfold span. replace (N.to_nat (next r + 1 - next r)) with 1 by lia. by rewrite (drop_S _ g). }
  eapply (tailed_segment fuel _ r c (offset logs i + N.to_nat (next r)) g []); [|lia|done|done|done|done| |done].
  - rewrite Hspan. eapply tails_segment; try done. unfold log_size. lia.
  - exists i, root, gs. split_and!; [done|done|]. left. simpl. unfold log_size. lia.
Qed.

Lemma wp_tail_Refresh r c :
  tails p m logs r c →
  wp (op_spec false) (Refresh r) (λ a m', m' = m ∧ a.2 = None ∧ tails p m logs a.1 c ∧ fresh logs a.1) m.
Proof using Hv.
  intros [Hp Hlat (i & j & root & gs & He & Hi & Hok & Hn & Hroot & Hj & Hb & ->)]. unfold Refresh. rewrite Hp.
  pose proof (tv_logs _ _ _ _ Hv i _ gs Hi) as Hlog. rewrite <-He in Hlog.
  apply wp_bind. eapply wp_mono; [|by eapply wp_fetchTrackRoot].
  intros [[t v]|er] m' [-> H]; [|done]. destruct H as [-> _].
  assert (LatestEpoch tr = N.of_nat (length logs)) as Hlatest by apply Hv. rewrite Hlatest.
  apply wp_bind. simpl (r_epoch _). eapply wp_mono; [|by eapply wp_fetchEpochLog].
  intros [[rt v']|er] m' [-> H]; simpl; [|by destruct H]. destruct H as [-> _].
  assert (∀ r', r_path r' = p → latest r' = N.of_nat (length logs) → r_epoch r' = r_epoch r →
    r_logRoot r' = root → next r' = next r → idx r' = idx r → batch r' = batch r →
    tails p m logs r' (offset logs i + j) ∧ fresh logs r') as H.
  { intros r' Hp' Hl' He' Hr' Hn' Hi' Hb'. split.
    - constructor; [done|rewrite He', Hl'; lia|]. exists i, j, root, gs.
      rewrite He', Hr', Hn', Hi', Hb'. split_and!; try done. apply Hlog.
    - split; [done|]. exists i, gs. by rewrite He', Hr'. }
  split; [done|]. split; [done|]. destruct (r_epoch r =? 1)%N; by apply H.
Qed.

(** An empty poll at the end of the newest epoch known. *)
Lemma wp_tail_miss r c :
  tails p m logs r c → (fresh logs r → c = length (groups_of logs)) →
  let r' := {| r with misses := (misses r + 1)%N |} in
  wp (op_spec false)
    (if rechecks (misses r') then
       got ← Refresh r';
       let '(r, err) := got in
       mret (r, match err with Some e => Err e | None => Err [EOF] end)
     else mret (r', Err [EOF])) (tailed p m logs r c) m.
Proof using Hv.
  intros Ht Hend r'. assert (tails p m logs r' c) as Ht' by by destruct Ht.
  destruct (rechecks (misses r')) eqn:E.
  - apply wp_bind. eapply wp_mono; [|by apply wp_tail_Refresh].
    intros [r2 err] m' (-> & Herr & Ht2 & Hf2). cbn [fst snd] in *. subst err.
    split; [done|]. split; [done|]. cbn [fst snd].
    split; [done|]. split; [done|]. split; [done|]. split; by left.
  - split; [done|]. split; [by intros ?|]. cbn [fst snd]. split; [done|]. split; [done|]. split; [done|].
    split; by right.
Qed.

(** The reader steps into the next epoch. *)
Lemma wp_tail_step r c i root gs :
  tails p m logs r c → r_epoch r = (1 + N.of_nat i)%N → logs !! i = Some (root, gs) →
  c = offset logs i + length gs → (r_epoch r < latest r)%N →
  wp (op_spec false) (loadEpoch r (u64 (r_epoch r + 1))) (λ a m', m' = m ∧ a.2 = None ∧
    tails p m logs a.1 c ∧ at_run p logs a.1 ∧ (fresh logs r → fresh logs a.1) ∧
    misses a.1 = 0%N ∧ r_epoch a.1 = (r_epoch r + 1)%N ∧ latest a.1 = latest r) m.
Proof using Hv.
  intros [Hp Hlat _] He Hi Hc Hlt.
  destruct (lookup_lt_is_Some_2 logs (S i)) as [[root2 gs2] Hi2]; [lia|].
  pose proof (tv_logs _ _ _ _ Hv (S i) _ _ Hi2) as Hlog.
  replace (1 + N.of_nat (S i))%N with (r_epoch r + 1)%N in Hlog by lia.
  pose proof (tv_size _ _ _ _ Hv) as Hsz. unfold is_u64 in Hsz.
  rewrite u64_small by (unfold is_u64; lia). unfold loadEpoch. rewrite Hp. apply wp_bind.
  eapply wp_mono; [|by eapply wp_fetchEpochLog].
  intros [[rt v]|er'] m' [-> H']; [|by destruct H']. destruct H' as [-> _].
  split; [done|]. split; [done|]. cbn [fst]. split_and!; [|  |  |done|done|done].
  - constructor; simpl; [done|lia|]. exists (S i), 0, root2, gs2.
    rewrite (offset_S _ _ _ _ Hi). split_and!; done || lia || apply Hlog.
  - exists (S i), root2, gs2. simpl. split_and!; [lia|done|]. right. exists [], (Sealed root2).
    split_and!; [done|constructor|apply Hlog].
  - intros [Hl _]. split; [done|]. exists (S i), gs2. simpl. split; [lia|done].
Qed.

Lemma wp_tail fuel : ∀ r c,
  tails p m logs r c → N.to_nat (latest r - r_epoch r) + 2 <= fuel →
  wp (op_spec false) (Next fuel r) (tailed p m logs r c) m.
Proof using Hv.
  induction fuel as [|fuel IH]; intros r c Ht Hfuel; [lia|].
  destruct (batch r !! idx r) as [g|] eqn:Eb; [by eapply tailed_batch; [| |lia]|].
  destruct (tails_exhausted r c Ht Eb) as (i & root & gs & He & Hi & Hok & Hn & Hroot & Hc).
  pose proof (ta_path _ _ _ _ _ Ht) as Hp.
  pose proof (tv_logs _ _ _ _ Hv i _ gs Hi) as Hlog. rewrite <-He in Hlog.
  pose proof (log_room _ _ _ _ _ Hlog) as Hroom. cbn [Next]. rewrite Eb.
  destruct (N.ltb_spec (next r) (OpenFrom (r_logRoot r))) as [Hlt|Hge].
  { eapply wp_tail_sealed; try done. lia. }
  assert (delta (r_path r) = delta p) as -> by (by rewrite Hp).
  apply wp_bind. eapply wp_mono; [|eapply wp_delta; [done|by apply (room_u64 gs)]].
  intros [d|er] m' [-> H].
  { destruct H as (g & Hg & ->). eapply wp_tail_delta; try done. lia. }
  destruct (errors_Is er ErrNotCommitted); [|done].
  (* a root as new as the log's says that the epoch is at its end *)
  assert (r_logRoot r = root → next r = log_size gs) as Hend.
  { intros Hr. destruct (decide (next r = log_size gs)); [done|]. rewrite Hr in Hge.
    destruct (log_open _ _ _ _ _ Hlog (next r) ltac:(lia)) as [? ?]. congruence. }
  destruct (N.ltb_spec (r_epoch r) (latest r)) as [Hle|Hle].
  - specialize (Hend (Hroot Hle)). apply wp_bind.
    eapply wp_mono; [|eapply wp_tail_step; [exact Ht|exact He|exact Hi| |exact Hle]].
    2: { unfold log_size in Hend. lia. }
    intros [r2 err] m' (-> & Herr & Ht2 & Hrun2 & Hf2 & Hm2 & He2 & Hl2). cbn [fst snd] in *. subst err.
    eapply wp_mono; [|apply (IH r2 c Ht2); lia]. intros [r3 [g|er3]] m' (-> & Hf3 & H3); cbn [fst snd] in *.
    + destruct H3 as (c' & ? & ? & ? & ? & Hrun). destruct (Hrun Hrun2) as [-> ?].
      split; [done|]. split; [auto|]. exists c. split_and!; try done; by left.
    + destruct H3 as (-> & ? & ? & _ & Hmiss). rewrite Hm2 in Hmiss.
      destruct Hmiss as [?|[? _]]; [|done]. split; [done|]. split; [auto|]. cbn [fst snd].
      split_and!; try done; auto.
  - eapply (wp_tail_miss r c Ht). intros [Hl (i' & gs' & He' & Hi')].
    assert (i' = i) as -> by lia. rewrite Hi in Hi'. injection Hi' as -> ->.
    specialize (Hend eq_refl). rewrite <-offset_all. apply lookup_lt_Some in Hi as Hilt.
    assert (length logs = S i) as -> by lia. rewrite (offset_S _ _ _ _ Hi). unfold log_size in Hend. lia.
Qed.
End Next.

(** ** Catching up *)

(** [n] polls: what they yield, and an error that ends them early. *)
Fixpoint follow (n fuel : nat) (r : Reader) : prog (list GroupInfo * option error) :=
  match n with
  | O => mret ([], None)
  | S n' =>
      got ← Next fuel r;
      let '(r, res) := got in
      match res with
      | Err e => if errors_Is e EOF then follow n' fuel r else mret ([], Some e)
      | Ok g =>
          rest ← follow n' fuel r;
          let '(gs, err) := rest in
          mret (g :: gs, err)
      end
  end.

(** How many empty polls there can be before the roots are read again. *)
Definition polls_left (misses : N) : nat :=
  if (misses =? 0)%N then 1 else N.to_nat (rootRecheckEvery - misses mod rootRecheckEvery).

Lemma polls_left_bound misses : 0 < polls_left misses <= 8.
Proof.
  unfold polls_left, rootRecheckEvery. destruct (N.eqb_spec misses 0); [lia|].
  pose proof (N.mod_lt misses 8 ltac:(done)) as H. generalize dependent (misses mod 8)%N. lia.
Qed.

Lemma polls_left_miss misses :
  rechecks (misses + 1) = false → polls_left (misses + 1) + 1 = polls_left misses.
Proof.
  unfold rechecks, polls_left, rootRecheckEvery. intros [H1 H2]%orb_false_iff.
  apply N.eqb_neq in H1, H2. rewrite (proj2 (N.eqb_neq (misses + 1) 0)), (proj2 (N.eqb_neq misses 0)) by lia.
  zify. Z.to_euclidean_division_equations. lia.
Qed.

(** Enough polls to catch up with [size] groups. *)
Definition enough_polls (size : nat) : nat := 20 * size + 18.

Section CatchUp.
Context (p : TrackPath) (m : objs) (tr : trackRoot) (logs : list (epochLogRoot * list GroupInfo)).
Context (Hv : track_view p m tr logs) (fuel : nat) (Hfuel : length logs + 1 <= fuel).

Abbreviation all := (groups_of logs).

(** Everything from [c] on is yielded, and the objects are left alone. *)
Definition caught_up (c : nat) (out : list GroupInfo * option error) (m' : objs) : Prop :=
  m' = m ∧ out.2 = None ∧ drop c all `sublist_of` out.1.

(** One poll, then the others. *)
Lemma follow_poll n r c (Q : list GroupInfo * option error → objs → Prop) :
  tails p m logs r c →
  (∀ r' g c', c' <= c → all !! c' = Some g → tails p m logs r' (S c') → (fresh logs r → fresh logs r') →
     (c' = c ∨ at_run p logs r') → (at_run p logs r → c' = c ∧ at_run p logs r') →
     wp (op_spec false) (follow n fuel r') (λ out m', Q (g :: out.1, out.2) m') m) →
  (∀ r', tails p m logs r' c → (fresh logs r → c = length all) → (fresh logs r → fresh logs r') →
     (at_run p logs r → fresh logs r' ∨ at_run p logs r') →
     (fresh logs r' ∨ rechecks (misses r + 1) = false ∧ misses r' = (misses r + 1)%N) →
     wp (op_spec false) (follow n fuel r') Q m) →
  wp (op_spec false) (follow (S n) fuel r) Q m.
Proof using Hv Hfuel.
  intros Ht HOk HEnd. cbn [follow]. apply wp_bind.
  pose proof (ta_latest _ _ _ _ _ Ht) as Hlat.
  pose proof (ta_at _ _ _ _ _ Ht) as (i & _ & _ & _ & He & _).
  eapply wp_mono; [|eapply (wp_tail p m tr logs Hv fuel r c Ht); lia].
  intros [r' [g|er]] m' (-> & Hf & H); cbn [fst snd] in *.
  - destruct H as (c' & ? & ? & ? & ? & ?). apply wp_bind. eapply wp_mono; [|by eapply HOk].
    by intros [gs err] m' HQ.
  - destruct H as (-> & ? & ? & ? & ?). by apply HEnd.
Qed.

Lemma follow_any n : ∀ r c, tails p m logs r c →
  wp (op_spec false) (follow n fuel r) (λ out m', m' = m ∧ out.2 = None) m.
Proof using Hv Hfuel.
  induction n as [|n IH]; intros r c Ht; [done|]. eapply follow_poll; [exact Ht| |].
  - intros r' g c' _ _ Ht' _ _ _. by eapply IH.
  - intros r' Ht' _ _ _ _. by eapply IH.
Qed.

(** At the end nothing is left to yield. *)
Lemma follow_end n r c : tails p m logs r c → length all <= c →
  wp (op_spec false) (follow n fuel r) (caught_up c) m.
Proof using Hv Hfuel.
  intros Ht Hc. eapply wp_mono; [|by eapply follow_any]. intros out m' [-> ?].
  split; [done|]. split; [done|]. rewrite drop_ge by done. apply sublist_nil_l.
Qed.

Lemma caught_up_cons c c' g out m' :
  c' <= c → all !! c' = Some g → caught_up (S c') out m' → caught_up c (g :: out.1, out.2) m'.
Proof using.
  clear Hfuel. intros Hc Hg (-> & ? & Hs). split; [done|]. split; [done|]. cbn [fst].
  destruct (decide (c' = c)) as [->|Hne]; [rewrite (drop_S _ g) by done; by apply sublist_skip|].
  apply sublist_cons. etrans; [|exact Hs]. replace c with (S c' + (c - S c')) by lia.
  rewrite <-drop_drop. apply sublist_drop.
Qed.

(** With the newest roots, at a run or not. *)
Lemma follow_fresh_run n : ∀ r c,
  tails p m logs r c → fresh logs r → at_run p logs r → length all - c <= n →
  wp (op_spec false) (follow n fuel r) (caught_up c) m.
Proof using Hv Hfuel.
  induction n as [|n IH]; intros r c Ht Hf Hrun Hn; [eapply follow_end; [done|lia]|].
  eapply follow_poll; [exact Ht| |].
  - intros r' g c' Hc' Hg Ht' Hf' _ Hr'. destruct (Hr' Hrun) as [-> ?].
    eapply wp_mono; [|apply (IH r' (S c)); [done|auto|done|lia]]. intros out m' Hq. by eapply caught_up_cons.
  - intros r' Ht' Hend _ _ _. eapply follow_end; [done|]. rewrite (Hend Hf). done.
Qed.

Lemma follow_fresh n : ∀ r c,
  tails p m logs r c → fresh logs r → length all + (length all - c) <= n →
  wp (op_spec false) (follow n fuel r) (caught_up c) m.
Proof using Hv Hfuel.
  induction n as [|n IH]; intros r c Ht Hf Hn; [eapply follow_end; [done|lia]|].
  eapply follow_poll; [exact Ht| |].
  - intros r' g c' Hc' Hg Ht' Hf' Hr' _. apply lookup_lt_Some in Hg as Hlt.
    eapply wp_mono; [intros out m' Hq; by eapply caught_up_cons|]. destruct Hr' as [->|Hrun].
    + apply (IH r' (S c)); [done|auto|lia].
    + apply (follow_fresh_run n r' (S c')); [done|auto|done|lia].
  - intros r' Ht' Hend _ _ _. eapply follow_end; [done|]. rewrite (Hend Hf). done.
Qed.

(** With roots that may be old. *)
Lemma follow_run n : ∀ r c,
  tails p m logs r c → at_run p logs r →
  2 * length all + 9 * (length all - c) + polls_left (misses r) <= n →
  wp (op_spec false) (follow n fuel r) (caught_up c) m.
Proof using Hv Hfuel.
  induction n as [|n IH]; intros r c Ht Hrun Hn; pose proof (polls_left_bound (misses r)); [lia|].
  eapply follow_poll; [exact Ht| |].
  - intros r' g c' Hc' Hg Ht' _ _ Hr'. destruct (Hr' Hrun) as [-> ?]. apply lookup_lt_Some in Hg as Hlt.
    pose proof (polls_left_bound (misses r')).
    eapply wp_mono; [intros out m' Hq; by eapply caught_up_cons|]. apply (IH r' (S c)); [done|done|lia].
  - intros r' Ht' _ _ Hr' Hmiss. destruct (Hr' Hrun) as [Hf|Hrun'].
    { apply follow_fresh; [done|done|lia]. }
    destruct Hmiss as [Hf|[Hre Hm]]; [apply follow_fresh; [done|done|lia]|].
    apply IH; [done|done|]. rewrite Hm. pose proof (polls_left_miss _ Hre). lia.
Qed.

Lemma follow_tails n : ∀ r c,
  tails p m logs r c →
  11 * length all + 9 * (length all - c) + 9 + polls_left (misses r) <= n →
  wp (op_spec false) (follow n fuel r) (caught_up c) m.
Proof using Hv Hfuel.
  induction n as [|n IH]; intros r c Ht Hn; [lia|]. pose proof (polls_left_bound (misses r)).
  eapply follow_poll; [exact Ht| |].
  - intros r' g c' Hc' Hg Ht' _ Hr' _. apply lookup_lt_Some in Hg as Hlt.
    pose proof (polls_left_bound (misses r')).
    eapply wp_mono; [intros out m' Hq; by eapply caught_up_cons|]. destruct Hr' as [->|Hrun].
    + apply (IH r' (S c)); [done|lia].
    + apply (follow_run n r' (S c')); [done|done|lia].
  - intros r' Ht' _ _ _ [Hf|[Hre Hm]]; [apply follow_fresh; [done|done|lia]|].
    apply IH; [done|]. rewrite Hm. pose proof (polls_left_miss _ Hre). lia.
Qed.

Lemma wp_catch_up n r c :
  tails p m logs r c → enough_polls (length all) <= n →
  wp (op_spec false) (follow n fuel r) (caught_up c) m.
Proof using Hv Hfuel.
  intros Ht Hn. apply follow_tails; [done|]. pose proof (polls_left_bound (misses r)).
  unfold enough_polls in Hn. lia.
Qed.
End CatchUp.
