(* ===== verification/Fixtures.v ===== *)
(** * A concrete log

    The objects of a track with one epoch and one committed group, still open,
    and a writer and a track handle on it: the input the theorems about logs are
    shown at. *)

From S2P Require Import Prelude GoStd Json Store Group Manifest Track Writer EpochLog WriterLog.
#[local] Open Scope string_scope.

Definition cam : TrackPath := "site/cam".

Definition cam_schema : TrackSchema := mkTrackSchema 90000 TimeSourceIngest "video/mp4" "".

Definition cam_row : GroupInfo :=
  mkGroupInfo (NewGroupID 1 0) 0 180000 1000 0 (groupKey cam (NewGroupID 1 0)) 5 "" "".

Definition cam_root : epochLogRoot := newEpochLog cam 1 7.

Definition cam_empty : objs := fresh_epoch cam 1 7 "1".

Definition cam_payload : objs := <[groupKey cam (NewGroupID 1 0) := ("hello", "2")]> cam_empty.

Definition cam_delta : bytes := encodeManifest (mkDelta manifestVersion 0 [cam_row] 1001).

(** One group committed. *)
Definition cam_objs : objs := <[deltaKey cam 1 (log_size []) := (cam_delta, "3")]> cam_payload.

(** The same with the group object of an append that did not commit. *)
Definition cam_orphan : objs := <[groupKey cam (NewGroupID 1 1) := ("lost", "4")]> cam_objs.

Definition cam_track : Track :=
  mkTrack cam 65536 (mkTrackRoot manifestVersion cam 90000 TimeSourceIngest "video/mp4" "" 1 7) "0".

Definition cam_writer : Writer :=
  mkWriter cam 1 cam_schema 65536 cam_root "1" NoVersion 1 [cam_row] 200 cam_row true false.

(** The next group: two seconds after the first. *)
Definition cam_meta : GroupInfo :=
  {| zeroGroupInfo with ID := NewGroupID 0 1; MediaTime := 180000; Duration := 90000 |}.

Lemma cam_params : log_params cam 1.
Proof. split; [reflexivity|]. by vm_compute. Qed.

Lemma cam_row_ok : row_ok cam 1 cam_row.
Proof. vm_compute. repeat split; done. Qed.

Lemma cam_payload_durable : durable cam 1 cam_payload cam_root [].
Proof.
  apply durable_payload; [apply cam_params|apply NewGroupID_u64| |apply durable_fresh;
    [apply cam_params|by vm_compute]].
  apply lookup_singleton_ne. unfold cam. by vm_compute.
Qed.

Lemma cam_durable : durable cam 1 cam_objs cam_root [cam_row].
Proof.
  apply (durable_commit cam 1 cam_params cam_payload cam_root [] cam_row
    (mkDelta manifestVersion 0 [cam_row] 1001) (cam_delta, "3") "hello" "2").
  - apply delta_encodable; [by vm_compute|apply cam_row_ok|by vm_compute].
  - reflexivity.
  - apply cam_row_ok.
  - by vm_compute.
  - intros a Ha. discriminate Ha.
  - apply lookup_insert_eq.
  - reflexivity.
  - by intros a Ha%not_elem_of_nil.
  - apply cam_payload_durable.
Qed.

Lemma cam_free : cam_objs !! groupKey cam (NewGroupID 1 1) = None.
Proof. by vm_compute. Qed.

Lemma cam_orphan_durable : durable cam 1 cam_orphan cam_root [cam_row].
Proof.
  apply durable_payload; [apply cam_params|apply NewGroupID_u64|apply cam_free|apply cam_durable].
Qed.

Lemma cam_writer_synced m :
  durable cam 1 m cam_root [cam_row] → synced cam 1 m [cam_row] cam_writer.
Proof.
  intros Hd. constructor; simpl; [apply Hd|done..].
Qed.

Lemma cam_writer_ok m : durable cam 1 m cam_root [cam_row] → writer_ok cam 1 m [cam_row] cam_writer.
Proof. intros Hd. constructor; [done..|]. intros _. by apply cam_writer_synced. Qed.

Lemma cam_current : current cam 1 cam_objs cam_writer.
Proof. eexists. vm_compute. reflexivity. Qed.

Lemma cam_orphan_current : current cam 1 cam_orphan cam_writer.
Proof. eexists. vm_compute. reflexivity. Qed.
