(* ===== verification/WriterProps.v ===== *)
(** * Properties of the writer

    The theorems about [AppendGroup], [Append], [Seal], recovery and sessions of
    calls by one writer, each at a concrete log. [durable p e m root gs] says
    what the objects [m] mean: the epoch's committed groups are [gs]. *)

From S2P Require Import Prelude GoStd Json Store Group Manifest Track Writer.
From S2P Require Import EpochLog WriterLog Isolation Fixtures.

(** ** Lifetimes *)

(** The calls of a producer. *)
Inductive call : Type :=
  | CAppendGroup (meta : GroupInfo) (payload : bytes)
  | CAppend (duration : Z) (payload : bytes).

Definition do_call (fuel : nat) (c : call) (w : Writer) : prog (Writer * (GroupInfo * option error)) :=
  match c with
  | CAppendGroup meta payload => AppendGroup fuel w meta payload
  | CAppend duration payload => Append fuel w duration payload
  end.

(** The calls in order, with the rows they reported as committed, in order. *)
Fixpoint session (fuel : nat) (calls : list call) (w : Writer) : prog (list GroupInfo) :=
  match calls with
  | [] => mret []
  | c :: calls' =>
      r ← do_call fuel c w;
      let '(w, (row, err)) := r in
      rows ← session fuel calls' w;
      mret match err with None => row :: rows | Some _ => rows end
  end.

(** Processes one after the other, each taking up the track's latest epoch; one
    that cannot makes no call. *)
Fixpoint lifetimes (fuel : nat) (t : Track) (ls : list (list call)) : prog (list GroupInfo) :=
  match ls with
  | [] => mret []
  | calls :: ls' =>
      r ← Track_Writer fuel t;
      let '(t, r) := r in
      rows ← match r with Ok w => session fuel calls w | Err _ => mret [] end;
      rest ← lifetimes fuel t ls';
      mret (rows ++ rest)
  end.

Definition call_ok (c : call) : Prop :=
  match c with
  | CAppendGroup meta payload => meta_ok meta payload
  | CAppend duration payload => is_i64 duration ∧ is_i64 (len64 payload)
  end.

Section Props.
Context (p : TrackPath) (e : N) (Hpar : log_params p e).

Lemma wp_Append fl fuel gs w m root duration payload :
  durable p e m root gs → writer_ok p e m gs w → is_i64 duration → is_i64 (len64 payload) →
  (log_size gs + 1 < 2 ^ 62)%N → length gs < fuel →
  wp (op_spec fl) (Append fuel w duration payload)
    (appended p e (λ row, ∃ s, (s <= 16)%N ∧ append_row p e gs s duration payload row) gs w) m.
Proof.
  intros. unfold Append. apply wp_bind, wp_now. intros t Ht.
  eapply (wp_Append_loop p e Hpar) with (k := 0%N); try done; lia.
Qed.

Lemma wp_Append_free fuel gs w m root duration payload j :
  durable p e m root gs → writer_ok p e m gs w → stale w = true ∨ current p e m w →
  (0 <= duration)%Z → is_i64 duration → is_i64 (len64 payload) →
  is_i64 (next_media gs + duration) → (next_seq gs + 16 < 2 ^ 40)%N → j <= 16 →
  (∀ i, i < j → is_Some (m !! groupKey p (NewGroupID e (next_seq gs + N.of_nat i)))) →
  m !! groupKey p (NewGroupID e (next_seq gs + N.of_nat j)) = None →
  (log_size gs + 1 < 2 ^ 62)%N → length gs < fuel →
  wp (clock_after_1970 (op_spec false)) (Append fuel w duration payload)
    (appended_ok p e (append_row p e gs (N.of_nat j) duration payload) gs) m.
Proof.
  intros. unfold Append. apply wp_bind. intros t m' [[-> Ht] Ht0].
  apply (wp_clock (op_spec false) (Append_loop _ _ _ _ _ _ _)).
  change (N.of_nat j) with (0 + N.of_nat j)%N.
  eapply (wp_Append_loop_free p e Hpar); try done; lia.
Qed.

Lemma wp_Seal fl fuel gs w m root :
  durable p e m root gs → writer_ok p e m gs w → stale w = false → length gs <= fuel →
  wp (op_spec fl) (Seal fuel w) (sealed_post p e fl m gs w) m.
Proof. intros Hd [Hp He Hs] Hst Hf. eapply wp_seal; eauto. Qed.

Lemma wp_Track_Writer fl fuel gs m root t :
  durable p e m root gs → t_path t = p → LatestEpoch (t_root t) = e → length gs < fuel →
  wp (op_spec fl) (Track_Writer fuel t) (λ r m', m' = m ∧ r.1 = t ∧
    match r.2 with
    | Ok w => writer_ok p e m gs w ∧ stale w = false ∧ current p e m w ∧ logRoot w = root
    | Err _ => fl = true
    end) m.
Proof.
  intros Hd Hp He Hfuel. unfold Track_Writer. rewrite He.
  rewrite (proj2 (N.eqb_neq e 0)) by (destruct Hpar as [_ ?]; lia). rewrite Hp.
  apply wp_bind. eapply wp_mono; [|eapply wp_fetchEpochLog, Hd; done].
  intros [[rt v]|er] m' [-> H].
  - destruct H as (-> & d & Hv). apply wp_bind.
    eapply wp_mono; [|eapply wp_recover; [apply Hd|..]]; simpl; try done.
    intros [w err] m' (-> & (Hc & Hr & Hlv & Hst) & Hf & Hok). simpl in *.
    apply config_eq in Hc as (Hcp & Hce & _). simpl in Hcp, Hce.
    destruct err as [er|]; simpl; (split; [done|split; [done|]]).
    + destruct fl; [done|]. by specialize (Hf eq_refl).
    + split_and!; [constructor; [congruence|done|auto]|done| |done]. exists d. by rewrite Hlv.
  - destruct H as [-> Hne]. rewrite Hne. simpl. done.
Qed.

(** What a sequence of calls did to the log: it was extended, by at most one row
    a call, and the rows reported are among them in order; objects outside the
    epoch are as they were. *)
Definition extended (n : nat) (gs : list GroupInfo) (m : objs) (rows : list GroupInfo) (m' : objs)
    : Prop :=
  (∃ root' new, durable p e m' root' (gs ++ new) ∧ length new <= n ∧ rows `sublist_of` new) ∧
  ∀ k, ¬ epoch_object p e k → m' !! k = m !! k.

Lemma writes_session fuel calls : ∀ w,
  w_path w = p → w_epoch w = e → writes (epoch_object p e) any (session fuel calls w).
Proof.
  destruct Hpar as [_ Hmax]. induction calls as [|c calls IH]; intros w Hp He; [done|].
  cbn [session]. eapply (writes_bind _ (λ r, same_epoch w r.1)).
  - destruct c; cbn [do_call]; [apply writes_AppendGroup|apply writes_Append]; (done || apply Hmax).
  - intros [w1 [row err]] Hw1. destruct (config_eq _ _ Hw1) as (Hp1 & He1 & _). simpl in Hp1, He1.
    eapply (writes_bind _ any); [apply IH; congruence|]. intros rows _. destruct err; exact I.
Qed.

Lemma wp_do_call fl fuel gs w m root c :
  durable p e m root gs → writer_ok p e m gs w → call_ok c →
  (log_size gs + 1 < 2 ^ 62)%N → length gs < fuel →
  wp (op_spec fl) (do_call fuel c w) (appended p e (λ _, True) gs w) m.
Proof.
  intros Hd Hw Hc Hroom Hfuel.
  assert (∀ R r m', appended p e R gs w r m' → appended p e (λ _, True) gs w r m') as Hmono.
  { intros R r m' (root' & gs' & ? & ? & ? & H). exists root', gs'. split_and!; try done.
    destruct H as [?|(row & ? & ?)]; [by left|right; by exists row]. }
  destruct c as [meta payload|duration payload]; cbn [do_call call_ok] in *.
  - eapply wp_mono; [|eapply (wp_AppendGroup p e Hpar); eassumption]. intros r m' [H _]. by eapply Hmono.
  - destruct Hc. eapply wp_mono; [|eapply wp_Append; eassumption]. intros r m'. apply Hmono.
Qed.

Lemma wp_session_log fl fuel calls : ∀ gs w m root,
  durable p e m root gs → writer_ok p e m gs w → Forall call_ok calls →
  (log_size gs + N.of_nat (length calls) < 2 ^ 62)%N → length gs + length calls < fuel →
  wp (op_spec fl) (session fuel calls w) (λ rows m', ∃ root' new, durable p e m' root' (gs ++ new) ∧
    length new <= length calls ∧ rows `sublist_of` new) m.
Proof.
  induction calls as [|c calls IH]; intros gs w m root Hd Hw Hc Hroom Hfuel; cbn [session].
  { exists root, []. by rewrite app_nil_r. }
  inversion_clear Hc as [|? ? Hc1 Hcs]. cbn [length] in *.
  apply wp_bind. eapply wp_mono; [|eapply wp_do_call; try done; lia].
  intros [w1 [row err]] m1 (root1 & gs1 & Hd1 & Hw1 & _ & Hcase). simpl in Hw1, Hcase.
  apply wp_bind. destruct Hcase as [(-> & _ & Herr)|(row' & _ & -> & _ & Hrow)].
  - eapply wp_mono; [|eapply IH; try done; lia].
    intros rows m2 (root2 & new & ? & ? & ?). destruct err as [er|]; [|done].
    exists root2, new. split_and!; [done|lia|done].
  - eapply wp_mono; [|eapply IH; try done; [rewrite log_size_snoc|rewrite length_app; simpl]; lia].
    intros rows m2 (root2 & new & Hd2 & ? & ?). exists root2, (row' :: new).
    rewrite <-app_assoc in Hd2. split_and!; [done|simpl; lia|].
    destruct err as [er|]; [by apply sublist_cons|]. destruct Hrow as [-> |[_ ?]]; [|done].
    by apply sublist_skip.
Qed.

Lemma wp_session fl fuel calls gs w m root :
  durable p e m root gs → writer_ok p e m gs w → Forall call_ok calls →
  (log_size gs + N.of_nat (length calls) < 2 ^ 62)%N → length gs + length calls < fuel →
  wp (op_spec fl) (session fuel calls w) (extended (length calls) gs m) m.
Proof.
  intros Hd Hw Hc Hroom Hfuel. destruct Hw as [Hp He Hs] eqn:E. clear E.
  eapply wp_mono; [|eapply wp_frame; [by apply writes_session|by eapply wp_session_log]].
  intros rows m' (Hlog & _ & Hframe). by split.
Qed.

Lemma wp_lifetimes fl fuel ls : ∀ gs m root t,
  durable p e m root gs → t_path t = p → LatestEpoch (t_root t) = e →
  Forall (Forall call_ok) ls →
  (log_size gs + N.of_nat (length (concat ls)) < 2 ^ 62)%N → length gs + length (concat ls) < fuel →
  wp (op_spec fl) (lifetimes fuel t ls) (extended (length (concat ls)) gs m) m.
Proof.
  induction ls as [|calls ls IH]; intros gs m root t Hd Hp He Hc Hroom Hfuel; cbn [lifetimes].
  { split; [|done]. exists root, []. by rewrite app_nil_r. }
  inversion_clear Hc as [|? ? Hc1 Hcs]. cbn [concat] in *. rewrite length_app in *.
  apply wp_bind. eapply wp_mono; [|eapply wp_Track_Writer; try done; lia].
  intros [t1 r] m1 (-> & Ht & Hr). simpl in Ht, Hr. subst t1. apply wp_bind.
  assert (∀ rows m1, extended (length calls) gs m rows m1 →
    wp (op_spec fl) (lifetimes fuel t ls ≫= λ rest, mret (rows ++ rest))
      (extended (length calls + length (concat ls)) gs m) m1) as Hrest.
  { intros rows m1 [(root1 & new1 & Hd1 & Hlen1 & Hsub1) Hfr1]. apply wp_bind.
    eapply wp_mono; [|eapply IH; try done].
    - intros rest m2 [(root2 & new2 & Hd2 & ? & ?) Hfr2]. split; [|intros k Hk; by rewrite Hfr2, Hfr1].
      exists root2, (new1 ++ new2). rewrite app_assoc, length_app.
      split_and!; [done|lia|by apply sublist_app].
    - unfold log_size in *. rewrite length_app. lia.
    - rewrite length_app. lia. }
  destruct r as [w|er].
  - eapply wp_mono; [|eapply wp_session; [done|apply Hr|done|lia|lia]]. intros; by apply Hrest.
  - apply Hrest. split; [|done]. exists root, []. rewrite app_nil_r. split_and!; [done|simpl; lia|done].
Qed.

End Props.

(** * Properties *)

Section Theorems.
Context (p : TrackPath) (e : N) (Hpar : log_params p e).

(** Crash safety of a producer's whole life: however many processes take up
    the track's epoch one after the other, and whichever of their store calls
    fail before or after taking effect, the committed log only grows, and every
    row a call reported as committed stays in it, in the order reported. Objects
    outside the epoch's directory are not touched. With fuel for one probe of the
    open region every process ends. *)
Theorem lifetimes_keep_acknowledged fuel ls gs m root t :
  durable p e m root gs → t_path t = p → LatestEpoch (t_root t) = e →
  Forall (Forall call_ok) ls →
  (log_size gs + N.of_nat (length (concat ls)) < 2 ^ 62)%N → length gs + length (concat ls) < fuel →
  wp (op_spec true) (lifetimes fuel t ls) (λ rows m',
    (∃ root' new, durable p e m' root' (gs ++ new) ∧
       length new <= length (concat ls) ∧ rows `sublist_of` new) ∧
    ∀ k, ¬ epoch_object p e k → m' !! k = m !! k) m.
Proof. intros. by eapply wp_lifetimes. Qed.

(** C4 [AppendGroup] under failures: it leaves a well-formed log, either the one
    it found, with an error, or that log and the one row it was given, stamped;
    a row it reports is in the log. *)
Theorem AppendGroup_crash_safe fuel gs w m root meta payload :
  durable p e m root gs → writer_ok p e m gs w → meta_ok meta payload →
  (log_size gs + 1 < 2 ^ 62)%N → length gs < fuel →
  wp (op_spec true) (AppendGroup fuel w meta payload)
    (appended p e (group_row p w meta payload) gs w) m.
Proof.
  intros. eapply wp_mono; [|eapply (wp_AppendGroup p e Hpar); eassumption]. by intros r m' [? _].
Qed.

(** C8 [AppendGroup] without failures: a valid group that does not start before
    the end of the last one, under a sequence with no group object, is committed
    and its row returned. *)
Theorem AppendGroup_commits fuel gs w m root meta payload :
  durable p e m root gs → writer_ok p e m gs w → stale w = true ∨ current p e m w →
  meta_ok meta payload → GroupInfo_validate (stamped w meta (Wallclock meta)) = None →
  admissible gs (stamped w meta 0) → m !! groupKey p (ID (stamped w meta 0)) = None →
  (log_size gs + 1 < 2 ^ 62)%N → length gs < fuel →
  wp (op_spec false) (AppendGroup fuel w meta payload)
    (appended_ok p e (group_row p w meta payload) gs) m.
Proof.
  intros. eapply wp_mono; [|eapply (wp_AppendGroup p e Hpar); eassumption].
  intros r m' [_ H']. by apply H'.
Qed.

(** Immutability of group objects: appending under a sequence whose group
    object is stored changes no object and reports [ErrGroupExists] and
    [store.ErrExist]; the next call re-reads the epoch. *)
Theorem AppendGroup_collides fuel gs w m root meta payload :
  durable p e m root gs → writer_ok p e m gs w → length gs < fuel →
  GroupInfo_validate (stamped w meta (Wallclock meta)) = None →
  admissible gs (stamped w meta 0) → is_Some (m !! groupKey p (ID (stamped w meta 0))) →
  wp (op_spec false) (AppendGroup fuel w meta payload) (λ r m',
    m' = m ∧ stale r.1 = true ∧ r.2.1 = zeroGroupInfo ∧
    ∃ er, r.2.2 = Some (ErrGroupExists :: er) ∧ errors_Is er ErrExist = true) m.
Proof.
  intros. eapply wp_mono; [|eapply wp_AppendGroup_taken; eassumption].
  by intros r m' (? & _ & _ & ? & ? & ?).
Qed.

(** [Append] under failures: the log is extended by at most the one row, back
    to back with the group before it, at one of the seventeen sequences after
    it. *)
Theorem Append_crash_safe fuel gs w m root duration payload :
  durable p e m root gs → writer_ok p e m gs w → is_i64 duration → is_i64 (len64 payload) →
  (log_size gs + 1 < 2 ^ 62)%N → length gs < fuel →
  wp (op_spec true) (Append fuel w duration payload)
    (appended p e (λ row, ∃ s, (s <= 16)%N ∧ append_row p e gs s duration payload row) gs w) m.
Proof. intros. by eapply wp_Append. Qed.

(** C10 [Append] without failures steps past the group objects earlier failures
    left: when the first [j <= 16] sequences after the last group are taken and
    the next is free, the group is committed there. *)
Theorem Append_steps_past_orphans fuel gs w m root duration payload j :
  durable p e m root gs → writer_ok p e m gs w → stale w = true ∨ current p e m w →
  (0 <= duration)%Z → is_i64 duration → is_i64 (len64 payload) →
  is_i64 (next_media gs + duration) → (next_seq gs + 16 < 2 ^ 40)%N → j <= 16 →
  (∀ i, i < j → is_Some (m !! groupKey p (NewGroupID e (next_seq gs + N.of_nat i)))) →
  m !! groupKey p (NewGroupID e (next_seq gs + N.of_nat j)) = None →
  (log_size gs + 1 < 2 ^ 62)%N → length gs < fuel →
  wp (clock_after_1970 (op_spec false)) (Append fuel w duration payload)
    (appended_ok p e (append_row p e gs (N.of_nat j) duration payload) gs) m.
Proof. intros. by eapply wp_Append_free. Qed.

(** C12 [Seal] on a writer that is up to date rotates the open region without
    changing the log, whichever of its store calls fail; without failures it
    succeeds and leaves no open group. *)
Theorem Seal_keeps_log fl fuel gs w m root :
  durable p e m root gs → writer_ok p e m gs w → stale w = false → length gs <= fuel →
  wp (op_spec fl) (Seal fuel w) (λ r m', ∃ root',
    durable p e m' root' gs ∧ writer_ok p e m' gs r.1 ∧ stale r.1 = false ∧
    (fl = false → current p e m w → r.2 = None ∧ current p e m' r.1 ∧ openGroups r.1 = [])) m.
Proof.
  intros Hd Hw Hst Hf. eapply wp_mono; [|eapply wp_Seal; eassumption].
  intros r m' (root' & ? & ? & Hc & Hst' & ? & ?). exists root'.
  apply config_eq in Hc as (? & ? & _). destruct Hw.
  split_and!; [done|by constructor; [congruence..|]|congruence|done].
Qed.

(** Recovery: from whatever a crash left, opening a writer changes nothing and,
    when no call fails, gives a writer that knows the whole log: the next delta,
    the open groups and the last committed group. *)
Theorem Writer_resumes fl fuel gs m root t :
  durable p e m root gs → t_path t = p → LatestEpoch (t_root t) = e → length gs < fuel →
  wp (op_spec fl) (Track_Writer fuel t) (λ r m', m' = m ∧ r.1 = t ∧
    match r.2 with
    | Ok w => stale w = false ∧ nextDelta w = log_size gs ∧ logRoot w = root ∧
        openGroups w = drop (N.to_nat (OpenFrom root)) gs ∧ last_ok w gs ∧ current p e m w
    | Err _ => fl = true
    end) m.
Proof.
  intros Hd Hp He Hf. eapply wp_mono; [|eapply wp_Track_Writer; eassumption].
  intros [t' [w|er]] m' (-> & -> & Hr); simpl in *;
    (split; [done|split; [done|]]); [|done].
  destruct Hr as ([_ _ Hsy] & Hst & Hcur & Hroot). destruct (Hsy Hst) as [_ ? Ho ?].
  rewrite Hroot in Ho. by split_and!.
Qed.

End Theorems.

(** * At a concrete log *)

Lemma lifetimes_keep_acknowledged_witness :
  wp (op_spec true) (lifetimes 9 cam_track [[CAppend 90000 "a"; CAppendGroup cam_meta "b"]; [CAppend 1 "c"]])
    (λ rows m', (∃ root' new, durable cam 1 m' root' ([cam_row] ++ new) ∧
       length new <= 3 ∧ rows `sublist_of` new) ∧
       ∀ k, ¬ epoch_object cam 1 k → m' !! k = cam_objs !! k) cam_objs.
Proof.
  eapply (lifetimes_keep_acknowledged cam 1 cam_params 9
    [[CAppend 90000 "a"; CAppendGroup cam_meta "b"]; [CAppend 1 "c"]] [cam_row] cam_objs cam_root cam_track).
  - apply cam_durable.
  - reflexivity.
  - reflexivity.
  - repeat (apply Forall_cons_2 || apply Forall_nil_2); vm_compute; repeat split; discriminate.
  - vm_compute. reflexivity.
  - simpl. lia.
Defined.

Lemma AppendGroup_crash_safe_witness :
  wp (op_spec true) (AppendGroup 2 cam_writer cam_meta "b")
    (appended cam 1 (group_row cam cam_writer cam_meta "b") [cam_row] cam_writer) cam_objs.
Proof.
  eapply (AppendGroup_crash_safe cam 1 cam_params).
  - apply cam_durable.
  - apply cam_writer_ok, cam_durable.
  - vm_compute. repeat split; discriminate.
  - vm_compute. reflexivity.
  - simpl. lia.
Defined.

Lemma AppendGroup_commits_witness :
  wp (op_spec false) (AppendGroup 2 cam_writer cam_meta "b")
    (appended_ok cam 1 (group_row cam cam_writer cam_meta "b") [cam_row]) cam_objs.
Proof.
  eapply (AppendGroup_commits cam 1 cam_params).
  - apply cam_durable.
  - apply cam_writer_ok, cam_durable.
  - right. apply cam_current.
  - vm_compute. repeat split; discriminate.
  - vm_compute. reflexivity.
  - intros a [= <-]. split; [discriminate|vm_compute; discriminate].
  - apply cam_free.
  - vm_compute. reflexivity.
  - simpl. lia.
Defined.

Lemma AppendGroup_collides_witness :
  wp (op_spec false) (AppendGroup 2 cam_writer cam_meta "b") (λ r m',
    m' = cam_orphan ∧ stale r.1 = true ∧ r.2.1 = zeroGroupInfo ∧
    ∃ er, r.2.2 = Some (ErrGroupExists :: er) ∧ errors_Is er ErrExist = true) cam_orphan.
Proof.
  eapply (AppendGroup_collides cam 1).
  - apply cam_orphan_durable.
  - apply cam_writer_ok, cam_orphan_durable.
  - simpl. lia.
  - vm_compute. reflexivity.
  - intros a [= <-]. split; [discriminate|vm_compute; discriminate].
  - eexists. vm_compute. reflexivity.
Defined.

Lemma Append_crash_safe_witness :
  wp (op_spec true) (Append 2 cam_writer 90000 "b")
    (appended cam 1 (λ row, ∃ s, (s <= 16)%N ∧ append_row cam 1 [cam_row] s 90000 "b" row)
       [cam_row] cam_writer) cam_orphan.
Proof.
  eapply (Append_crash_safe cam 1 cam_params).
  - apply cam_orphan_durable.
  - apply cam_writer_ok, cam_orphan_durable.
  - by vm_compute.
  - by vm_compute.
  - by vm_compute.
  - simpl. lia.
Defined.

Lemma Append_steps_past_orphans_witness :
  wp (clock_after_1970 (op_spec false)) (Append 2 cam_writer 90000 "b")
    (appended_ok cam 1 (append_row cam 1 [cam_row] 1 90000 "b") [cam_row]) cam_orphan.
Proof.
  eapply (Append_steps_past_orphans cam 1 cam_params _ _ _ _ _ _ _ 1).
  - apply cam_orphan_durable.
  - apply cam_writer_ok, cam_orphan_durable.
  - right. apply cam_orphan_current.
  - lia.
  - by vm_compute.
  - by vm_compute.
  - by vm_compute.
  - by vm_compute.
  - lia.
  - intros i Hi. assert (i = 0) as -> by lia. eexists. vm_compute. reflexivity.
  - vm_compute. reflexivity.
  - by vm_compute.
  - simpl. lia.
Defined.

Lemma Seal_keeps_log_witness :
  wp (op_spec false) (Seal 1 cam_writer) (λ r m', ∃ root',
    durable cam 1 m' root' [cam_row] ∧ writer_ok cam 1 m' [cam_row] r.1 ∧ stale r.1 = false ∧
    (false = false → current cam 1 cam_objs cam_writer →
     r.2 = None ∧ current cam 1 m' r.1 ∧ openGroups r.1 = [])) cam_objs.
Proof.
  eapply (Seal_keeps_log cam 1 cam_params).
  - apply cam_durable.
  - apply cam_writer_ok, cam_durable.
  - reflexivity.
  - simpl. lia.
Defined.

Lemma Writer_resumes_witness :
  wp (op_spec false) (Track_Writer 2 cam_track) (λ r m', m' = cam_objs ∧ r.1 = cam_track ∧
    match r.2 with
    | Ok w => stale w = false ∧ nextDelta w = 1%N ∧ logRoot w = cam_root ∧
        openGroups w = [cam_row] ∧ last_ok w [cam_row] ∧ current cam 1 cam_objs w
    | Err _ => false = true
    end) cam_objs.
Proof.
  eapply (Writer_resumes cam 1 cam_params false 2 [cam_row]).
  - apply cam_durable.
  - reflexivity.
  - reflexivity.
  - simpl. lia.
Defined.
