(* ===== verification/ReaderProps.v ===== *)
(** * Properties of the reader

    [Lookup], the ranges and the stream, on the objects of a whole track
    ([track_view]); and a producer's life followed by a replay. *)

From S2P Require Import Prelude GoStd Json Store Group Manifest Track Writer Reader.
From S2P Require Import EpochLog WriterLog Isolation ReaderLog Fixtures WriterProps.

(** ** Replays *)

(** Call [Next] until it answers an error, [n] times at most. *)
Fixpoint drain (fuel n : nat) (r : Reader) : prog (list GroupInfo * option error) :=
  match n with
  | O => mret ([], None)
  | S n' =>
      a ← Next fuel r;
      let '(r, res) := a in
      match res with
      | Err e => mret ([], Some e)
      | Ok g =>
          rest ← drain fuel n' r;
          mret (g :: rest.1, rest.2)
      end
  end.

(** Open a reader on the track and stream it from the start. *)
Definition replay (fuel n : nat) (t : Track) : prog (list GroupInfo * option error) :=
  got ← Track_Reader t;
  match got with
  | Err e => mret ([], Some e)
  | Ok r => drain fuel n (SeekStart r)
  end.

Section Replay.
Context (p : TrackPath) (m : objs) (tr : trackRoot) (logs : list (epochLogRoot * list GroupInfo)).
Context (Hv : track_view p m tr logs).

Definition drained (fl : bool) (n : nat) (rest : list GroupInfo) (out : list GroupInfo * option error)
    : Prop :=
  out = (list.take n rest, if decide (n <= length rest) then None else Some [EOF]) ∨
  fl = true ∧ ∃ pre er, pre `prefix_of` rest ∧ errors_Is er EOF = false ∧ out = (pre, Some er).

Lemma wp_drain fl fuel n : ∀ r rest,
  cursor p logs r rest → length logs + 2 <= fuel →
  wp (op_spec fl) (drain fuel n r) (λ out m', m' = m ∧ drained fl n rest out) m.
Proof.
  induction n as [|n IH]; intros r rest Hc Hfuel; cbn [drain].
  { split; [done|]. left. by rewrite decide_True by lia. }
  apply wp_bind. eapply wp_mono; [|eapply wp_Next; [done|done|]].
  2: { rewrite (cu_latest _ _ _ _ Hc). lia. }
  intros [r' res] m' [-> [Hok|(-> & (er & Her & HE) & _)]]; cbn [fst snd] in *.
  - destruct rest as [|g rest].
    + destruct Hok as [-> _]. split; [done|]. left. by rewrite decide_False by (simpl; lia).
    + destruct Hok as (-> & _ & Hc'). apply wp_bind. eapply wp_mono; [|by apply IH].
      intros [gs err] m' [-> [[= -> ->]|(-> & pre & er & Hpre & HE & [= -> ->])]]; (split; [done|]).
      * left. simpl. repeat case_decide; (done || lia).
      * right. split; [done|]. exists (g :: pre), er. split; [by apply prefix_cons|done].
  - rewrite Her. split; [done|]. right. split; [done|]. exists [], er. split; [apply prefix_nil|done].
Qed.

(** A reader opened on the track, once it is put at its start. *)
Lemma wp_Track_Reader fl t :
  t_path t = p → LatestEpoch (t_root t) = N.of_nat (length logs) → logs ≠ [] →
  wp (op_spec fl) (Track_Reader t) (λ res m', m' = m ∧
    match res with
    | Ok r => r_path r = p ∧ latest r = N.of_nat (length logs) ∧ cursor p logs (SeekStart r) (groups_of logs)
    | Err er => fl = true ∧ errors_Is er EOF = false
    end) m.
Proof.
  intros Hp Hl Hne.
  assert (0 < length logs) as Hpos by (destruct logs; simpl; [done|lia]).
  destruct (lookup_lt_is_Some_2 logs 0 Hpos) as [[root gs] H0].
  pose proof (tv_logs _ _ _ _ Hv 0 root gs H0) as Hlog.
  unfold Track_Reader. cbv zeta. rewrite Hl, Hp, (proj2 (N.eqb_neq _ 0)) by lia.
  apply wp_bind. unfold loadEpoch. simpl (r_path _). apply wp_bind.
  eapply wp_mono; [|apply wp_wlp; [by eapply wp_fetchEpochLog|apply wlp_fetchEpochLog_EOF]].
  intros [[rt v]|er] m' [[-> H] HE]; simpl; (split; [done|]); [|by split; [apply H|]].
  destruct H as [-> _]. split; [done|]. split; [done|]. constructor; [done|done|].
  exists 0, gs. simpl. split_and!; [done|done| |].
  - right. exists [], (Sealed root). split_and!; [done|constructor|apply Hlog].
  - unfold groups_of at 1. rewrite <-(take_drop_middle logs 0 _ H0). done.
Qed.

Lemma wp_replay fl fuel n t :
  t_path t = p → LatestEpoch (t_root t) = N.of_nat (length logs) → logs ≠ [] →
  length logs + 2 <= fuel →
  wp (op_spec fl) (replay fuel n t) (λ out m', m' = m ∧ drained fl n (groups_of logs) out) m.
Proof.
  intros Hp Hl Hne Hfuel. unfold replay. apply wp_bind.
  eapply wp_mono; [|by apply wp_Track_Reader]. intros [r|er] m' [-> H]; [by apply wp_drain; [apply H|]|].
  destruct H. split; [done|]. right. split; [done|]. exists [], er. split; [apply prefix_nil|done].
Qed.
End Replay.

(** ** The track after a producer's life *)

Lemma frame_other_epoch p e m m' e' root gs :
  is_u64 e → is_u64 e' → e' ≠ e → (∀ k, ¬ epoch_object p e k → m' !! k = m !! k) →
  epoch_log p e' m root gs → log_params p e' → epoch_log p e' m' root gs.
Proof.
  intros He He' Hne Hframe Hlog Hpar. eapply epoch_log_frame; [done| |done].
  intros k Hk Hlk. apply Hframe, other_object; [done|done|right].
  destruct k; simpl in *; (done || apply N.eqb_eq in Hlk; congruence).
Qed.

Lemma track_view_extended p e m m' tr older root gs root' gs' :
  log_params p e → e = N.of_nat (S (length older)) →
  track_view p m tr (older ++ [(root, gs)]) → epoch_log p e m' root' gs' →
  (∀ k, ¬ epoch_object p e k → m' !! k = m !! k) →
  track_view p m' tr (older ++ [(root', gs')]).
Proof.
  intros [Hp He] Hlen [Hroot Ht Hl Hlogs Hu] Hlog Hframe. pose proof (epoch_u64 e (proj2 He)) as Heu.
  rewrite !length_app in *. simpl in *. constructor; rewrite ?length_app; simpl; auto.
  - destruct Hroot as (o & Ho & ?). exists o. split; [|done]. rewrite <-Ho. apply Hframe.
    apply (other_object p e KRoot); auto. done.
  - intros i rt g Hi. destruct (decide (i < length older)) as [Hlt|Hge].
    + rewrite lookup_app_l in Hi by done.
      assert (1 + N.of_nat i < e)%N by lia.
      eapply (frame_other_epoch p e m m'); [done|apply epoch_u64; lia|lia|done| |by split; [|lia]].
      apply (Hlogs i). by rewrite lookup_app_l.
    + rewrite lookup_app_r in Hi by lia. destruct (i - length older) as [|j] eqn:Ej; [|done].
      simpl in Hi. injection Hi as <- <-. by replace (1 + N.of_nat i)%N with e by lia.
Qed.

Lemma wp_produce_then_replay p e m tr older root gs t fuel ls :
  log_params p e → e = N.of_nat (S (length older)) →
  track_view p m tr (older ++ [(root, gs)]) → payloads p m gs →
  t_path t = p → LatestEpoch (t_root t) = e → Forall (Forall call_ok) ls →
  (log_size gs + N.of_nat (length (concat ls)) < 2 ^ 62)%N →
  length gs + length (concat ls) < fuel → length older + 3 <= fuel →
  wp (op_spec true) (lifetimes fuel t ls) (λ rows m', ∃ new,
    rows `sublist_of` new ∧ length new <= length (concat ls) ∧
    let all := groups_of older ++ gs ++ new in
    ∀ n, wp (op_spec false) (replay fuel n t) (λ out m'', m'' = m' ∧
      out = (list.take n all, if decide (n <= length all) then None else Some [EOF])) m') m.
Proof.
  intros Hpar He Hv Hpay Hp Hl Hcalls Hroom Hfuel Hfuel2.
  assert (epoch_log p e m root gs) as Hlog.
  { pose proof (tv_logs _ _ _ _ Hv (length older) root gs) as H.
    rewrite lookup_app_r, Nat.sub_diag in H by done.
    replace (1 + N.of_nat (length older))%N with e in H by lia. by apply H. }
  eapply wp_mono; [|eapply (wp_lifetimes p e Hpar); try done; by split].
  intros rows m' [(root' & new & [Hlog' _] & Hlen & Hsub) Hframe]. exists new.
  split_and!; [done|done|]. cbv zeta. intros n.
  pose proof (track_view_extended _ _ _ _ _ _ _ _ _ _ Hpar He Hv Hlog' Hframe) as Hv'.
  eapply wp_mono; [|eapply (wp_replay p m' tr _ Hv' false fuel n t); try done].
  - intros out m'' [-> [-> |[? _]]]; [|done]. unfold groups_of. rewrite map_app, concat_app. simpl.
    by rewrite app_nil_r.
  - rewrite length_app. simpl. lia.
  - by destruct older.
  - rewrite length_app. simpl. lia.
Qed.

(** * Properties *)

(** Acknowledged groups reach readers: after any life of producers on the
    track's latest epoch, with any store calls failing before or after taking
    effect, a reader streaming from the start is given every group of the earlier
    epochs, then the groups the epoch held, then new ones among which are all
    those acknowledged, in order, then [io.EOF]. *)
Theorem produce_then_replay p e m tr older root gs t fuel ls :
  log_params p e → e = N.of_nat (S (length older)) →
  track_view p m tr (older ++ [(root, gs)]) → payloads p m gs →
  t_path t = p → LatestEpoch (t_root t) = e → Forall (Forall call_ok) ls →
  (log_size gs + N.of_nat (length (concat ls)) < 2 ^ 62)%N →
  length gs + length (concat ls) < fuel → length older + 3 <= fuel →
  wp (op_spec true) (lifetimes fuel t ls) (λ rows m', ∃ new,
    rows `sublist_of` new ∧ length new <= length (concat ls) ∧
    let all := groups_of older ++ gs ++ new in
    ∀ n, wp (op_spec false) (replay fuel n t) (λ out m'', m'' = m' ∧
      out = (list.take n all, if decide (n <= length all) then None else Some [EOF])) m') m.
Proof. intros. by eapply wp_produce_then_replay. Qed.

(** C9 Streaming: [Next] answers the groups of the track one by one in commit
    order, across runs, deltas and epochs, and [io.EOF] past the last; when a
    store call fails it answers an error that is not [io.EOF] and no group is lost
    or repeated. *)
Theorem Next_streams_log p m tr logs r rest fl fuel :
  track_view p m tr logs → cursor p logs r rest → N.to_nat (latest r - r_epoch r) + 2 <= fuel →
  wp (op_spec fl) (Next fuel r) (λ a m', m' = m ∧
    (match rest with
     | g :: rest' => a.2 = Ok g ∧ Position a.1 = ID g ∧ cursor p logs a.1 rest'
     | [] => a.2 = Err [EOF] ∧ cursor p logs a.1 []
     end ∨ fl = true ∧ (∃ er, a.2 = Err er ∧ errors_Is er EOF = false) ∧ cursor p logs a.1 rest)) m.
Proof. intros Hv Hc Hf. exact (wp_Next p m tr logs Hv fl fuel r rest Hc Hf). Qed.

(** C25 [Lookup] returns the committed row with the identity asked for, or
    [ErrGroupNotFound] when no committed row has it. *)
Theorem Lookup_exact fl fuel p m root gs r id :
  epoch_log p (Epoch id) m root gs → NoDup (ID <$> gs) → r_path r = p →
  (0 < Epoch id <= latest r)%N → length gs < fuel →
  wp (op_spec fl) (Lookup fuel r id) (λ res m', m' = m ∧
    match res with
    | Ok g => g ∈ gs ∧ ID g = id
    | Err er => fl = true ∨ er = [ErrGroupNotFound] ∧ id ∉ ID <$> gs
    end) m.
Proof.
  intros. eapply wp_mono; [|by eapply wp_Lookup]. intros [g|er] m' [-> H']; (split; [done|]).
  - by apply find_group_some.
  - destruct H' as [?|[-> ?]]; [by left|right]. split; [done|]. by apply find_group_none.
Qed.

(** C26 [RangeWallclock] yields exactly the committed groups whose wallclock extent
    meets the range, in commit order; skipping sealed runs by their summary loses
    none of them. A failed call ends it with the error, after a prefix. *)
Theorem RangeWallclock_exact fl fuel r m tr logs from to :
  track_view (r_path r) m tr logs → latest r = N.of_nat (length logs) → probes logs fuel →
  wp (op_spec fl) (collect (RangeWallclock fuel r from to)) (λ res m', m' = m ∧
    let all := if (to <=? from)%Z then []
               else List.filter (λ g, overlapsWallclock g from to (Timescale (r_schema r)))
                      (groups_of logs) in
    res = (all, None) ∨ fl = true ∧ ∃ pre er, pre `prefix_of` all ∧ res = (pre, Some er)) m.
Proof. intros. by eapply wp_RangeWallclock. Qed.

(** [RangeMedia] yields exactly the committed groups whose media extent meets
    the range, in commit order, on a track where no group without a duration is
    anchored at the start of the range. *)
Theorem RangeMedia_exact fl fuel r m tr logs from to :
  track_view (r_path r) m tr logs → latest r = N.of_nat (length logs) → probes logs fuel →
  (∀ g, g ∈ groups_of logs → Duration g = 0%Z → MediaTime g ≠ from) →
  wp (op_spec fl) (collect (RangeMedia fuel r from to)) (λ res m', m' = m ∧
    let all := if (to <=? from)%Z then []
               else List.filter (λ g, overlapsMedia g from to) (groups_of logs) in
    res = (all, None) ∨ fl = true ∧ ∃ pre er, pre `prefix_of` all ∧ res = (pre, Some er)) m.
Proof. intros. by eapply wp_RangeMedia. Qed.

(** * At a concrete track *)

Definition cam_view : objs :=
  <[rootKey cam := (encodeManifest (t_root cam_track), "0"%string)]> cam_objs.

Definition cam_logs : list (epochLogRoot * list GroupInfo) := [(cam_root, [cam_row])].

Lemma cam_track_view : track_view cam cam_view (t_root cam_track) cam_logs.
Proof.
  constructor.
  - eexists. split; [apply lookup_insert_eq|]. vm_compute. reflexivity.
  - reflexivity.
  - reflexivity.
  - intros [|i] root gs; [|done]. intros [= <- <-].
    apply (epoch_log_insert_other cam 1 cam_params _ _ _ KRoot); [done|done|].
    apply cam_durable.
  - by vm_compute.
Qed.

Definition cam_reader : Reader :=
  mkReader cam cam_schema 1 cam_root 1 cam_root 0 0 [] 0 0.

Lemma cam_cursor : cursor cam cam_logs cam_reader [cam_row].
Proof.
  constructor; [done|done|]. exists 0, [cam_row]. split_and!; [done|done| |done].
  left. vm_compute. by split.
Qed.

Lemma produce_then_replay_witness :
  wp (op_spec true) (lifetimes 9 cam_track [[CAppend 90000 "a"; CAppend 1 "b"]; [CAppendGroup cam_meta "c"]])
    (λ rows m', ∃ new, rows `sublist_of` new ∧ length new <= 3 ∧
      let all := [] ++ [cam_row] ++ new in
      ∀ n, wp (op_spec false) (replay 9 n cam_track) (λ out m'', m'' = m' ∧
        out = (list.take n all, if decide (n <= length all) then None else Some [EOF])) m') cam_view.
Proof.
  eapply (produce_then_replay cam 1 cam_view (t_root cam_track) [] cam_root [cam_row] cam_track 9
    [[CAppend 90000 "a"; CAppend 1 "b"]; [CAppendGroup cam_meta "c"]]).
  - apply cam_params.
  - reflexivity.
  - apply cam_track_view.
  - apply (payloads_insert cam 1 cam_params _ _ KRoot); [by repeat constructor|done|by left|].
    apply cam_durable.
  - reflexivity.
  - reflexivity.
  - repeat (apply Forall_cons_2 || apply Forall_nil_2); vm_compute; repeat split; discriminate.
  - vm_compute. reflexivity.
  - simpl. lia.
  - simpl. lia.
Defined.

Lemma Next_streams_log_witness :
  wp (op_spec true) (Next 2 cam_reader) (λ a m', m' = cam_view ∧
    (a.2 = Ok cam_row ∧ Position a.1 = ID cam_row ∧ cursor cam cam_logs a.1 [] ∨
     true = true ∧ (∃ er, a.2 = Err er ∧ errors_Is er EOF = false) ∧ cursor cam cam_logs a.1 [cam_row])) cam_view.
Proof.
  eapply (Next_streams_log cam cam_view (t_root cam_track) cam_logs cam_reader [cam_row]).
  - apply cam_track_view.
  - apply cam_cursor.
  - simpl. lia.
Defined.

Lemma Lookup_exact_witness :
  wp (op_spec false) (Lookup 2 cam_reader (ID cam_row)) (λ res m', m' = cam_view ∧
    match res with
    | Ok g => g ∈ [cam_row] ∧ ID g = ID cam_row
    | Err er => false = true ∨ er = [ErrGroupNotFound] ∧ ID cam_row ∉ ID <$> [cam_row]
    end) cam_view.
Proof.
  eapply (Lookup_exact false 2 cam cam_view cam_root [cam_row]).
  - apply (tv_logs _ _ _ _ cam_track_view 0). reflexivity.
  - apply NoDup_singleton.
  - reflexivity.
  - by vm_compute.
  - simpl. lia.
Defined.

Lemma RangeWallclock_exact_witness :
  wp (op_spec false) (collect (RangeWallclock 2 cam_reader 0 2000)) (λ res m', m' = cam_view ∧
    let all := [cam_row] in
    res = (all, None) ∨ false = true ∧ ∃ pre er, pre `prefix_of` all ∧ res = (pre, Some er)) cam_view.
Proof.
  eapply (RangeWallclock_exact false 2 cam_reader cam_view (t_root cam_track) cam_logs 0 2000).
  - apply cam_track_view.
  - reflexivity.
  - repeat constructor.
Defined.

Lemma RangeMedia_exact_witness :
  wp (op_spec false) (collect (RangeMedia 2 cam_reader 0 2000)) (λ res m', m' = cam_view ∧
    let all := [cam_row] in
    res = (all, None) ∨ false = true ∧ ∃ pre er, pre `prefix_of` all ∧ res = (pre, Some er)) cam_view.
Proof.
  eapply (RangeMedia_exact false 2 cam_reader cam_view (t_root cam_track) cam_logs 0 2000).
  - apply cam_track_view.
  - reflexivity.
  - repeat constructor.
  - intros g [-> |Hg%not_elem_of_nil]%elem_of_cons; [discriminate|done].
Defined.
