(* ===== verification/ReaderSeek.v ===== *)
(** * Resuming and paging

    Where [SeekAfter] puts the cursor and what [Before] returns, on the objects of
    a whole track. Both compare identities, so they are shown on logs whose
    sequences increase. *)

From S2P Require Import Prelude GoStd Json Store Group Manifest Track Redact Reader EpochLog.
From S2P Require Import WriterLog ReaderLog Fixtures WriterProps ReaderProps.
From Stdlib Require Import Sorting.Sorted.

(** Sequences increase in commit order. *)
Definition ordered (gs : list GroupInfo) : Prop :=
  StronglySorted (λ a b, (Sequence (ID a) < Sequence (ID b))%N) gs.

(** The groups after sequence [seq]. *)
Definition past (seq : N) (g : GroupInfo) : bool := (seq <? Sequence (ID g))%N.

Definition upto (seq : N) (gs : list GroupInfo) : Prop := Forall (λ g, past seq g = false) gs.

Lemma take_span f l gs :
  (f <= l)%N → list.take (N.to_nat (l + 1)) gs = list.take (N.to_nat f) gs ++ span f l gs.
Proof.
  intros Hfl. unfold span. rewrite take_take_drop. f_equal. lia.
Qed.

Lemma span_drop f l gs :
  (f <= l)%N → drop (N.to_nat f) gs = span f l gs ++ drop (N.to_nat (l + 1)) gs.
Proof.
  intros Hfl. unfold span. replace (N.to_nat (l + 1)) with (N.to_nat f + N.to_nat (l + 1 - f)) by lia.
  by rewrite <-drop_drop, take_drop.
Qed.

Lemma filter_upto seq gs : upto seq gs → List.filter (past seq) gs = [].
Proof. induction 1 as [|g gs Hg _ IH]; [done|]. cbn [List.filter]. by rewrite Hg. Qed.

Lemma ordered_past seq g rest :
  ordered (g :: rest) → past seq g = true → List.filter (past seq) (g :: rest) = g :: rest.
Proof.
  unfold past. intros Hord Hg. apply N.ltb_lt in Hg.
  inversion_clear Hord as [|? ? _ Hrest]. cbn [List.filter]. rewrite (proj2 (N.ltb_lt _ _) Hg). f_equal.
  induction Hrest as [|h rest Hh _ IH]; [done|]. cbn [List.filter].
  rewrite (proj2 (N.ltb_lt _ _)) by lia. by f_equal.
Qed.

Lemma ordered_app a b : ordered (a ++ b) → ordered b.
Proof. induction a as [|x a IH]; [done|]. intros H. inversion_clear H. auto. Qed.

Lemma ordered_prefix a b : ordered (a ++ b) → ordered a.
Proof.
  unfold ordered. induction a as [|x a IH]; intros H; [constructor|].
  inversion_clear H as [|? ? H1 H2]. constructor; [auto|]. by apply Forall_app in H2 as [? _].
Qed.

(** The groups past [seq] are those from the first one on. *)
Lemma filter_from seq a g b :
  ordered (a ++ g :: b) → upto seq a → past seq g = true →
  List.filter (past seq) (a ++ g :: b) = g :: b.
Proof.
  intros Hord Ha Hg. rewrite List.filter_app, filter_upto by done.
  apply ordered_past; [by eapply ordered_app|done].
Qed.

(** Up to a group that is not past [seq], none is. *)
Lemma ordered_upto seq gs n g :
  ordered gs → gs !! n = Some g → past seq g = false → upto seq (list.take (S n) gs).
Proof.
  unfold past, upto. intros Hord. revert n. induction Hord as [|h gs _ IH Hh]; intros n; [done|].
  destruct n as [|n]; cbn [lookup list_lookup list.take]; intros Hg Hs.
  - injection Hg as ->. repeat constructor. done.
  - constructor; [|by apply IH]. apply N.ltb_ge. apply N.ltb_ge in Hs.
    apply list_elem_of_lookup_2 in Hg. rewrite Forall_forall in Hh. specialize (Hh g Hg). lia.
Qed.

Lemma first_after_some seq gs i :
  first_after seq gs = Some i →
  ∃ g, drop i gs = g :: drop (S i) gs ∧ past seq g = true ∧ upto seq (list.take i gs).
Proof.
  unfold first_after. destruct (list_find _ gs) as [[j g]|] eqn:E; [|done]. intros [= <-].
  apply list_find_Some in E as (Hg & Hs & Hbefore). exists g. split; [by apply drop_S|].
  split; [by apply N.ltb_lt|]. apply Forall_lookup. intros k h Hh.
  apply lookup_take_Some in Hh as [Hh Hk]. apply N.ltb_ge. pose proof (Hbefore k h Hh Hk). lia.
Qed.

Lemma first_after_none seq gs : first_after seq gs = None → upto seq gs.
Proof.
  unfold first_after. destruct (list_find _ gs) as [[j g]|] eqn:E; [done|]. intros _.
  apply list_find_None in E. eapply Forall_impl; [exact E|]. intros g Hg. apply N.ltb_ge.
  simpl in Hg. lia.
Qed.

(** ** SeekAfter *)

Section Locate.
Context (p : TrackPath) (e : N) (gs : list GroupInfo) (seq : N).
Context (Hroom : room gs) (Hord : ordered gs).

(** The segment located: it, the index in it, and what follows it are the groups
    past [seq]. *)
Definition located (found : list GroupInfo * nat * N) (next : N) : Prop :=
  let '(seg, i, after) := found in
  after = next ∧ List.filter (past seq) gs = drop i seg ++ drop (N.to_nat next) gs.

Lemma locate_run f l i :
  (f <= l)%N → upto seq (list.take (N.to_nat f) gs) →
  first_after seq (span f l gs) = Some i → located (span f l gs, i, (l + 1)%N) (l + 1).
Proof.
  intros Hfl Hup Hi. split; [done|]. apply first_after_some in Hi as (g & Hd & Hg & Hbefore).
  rewrite Hd. cbn [app].
  assert (gs = (list.take (N.to_nat f) gs ++ list.take i (span f l gs)) ++
    g :: drop (S i) (span f l gs) ++ drop (N.to_nat (l + 1)) gs) as Hgs.
  { rewrite app_comm_cons, <-Hd, <-app_assoc, (app_assoc (list.take i _)), take_drop, <-span_drop by done.
    by rewrite take_drop. }
  rewrite Hgs at 1. apply filter_from; [by rewrite <-Hgs|by apply Forall_app|done].
Qed.

(** The outcome of the loop over the runs [refs], from delta [f] to delta [n]. *)
Definition sealed_located (f n : N) (refs : list sealedRef)
    (r : option (list GroupInfo * nat * N) * loop_end) : Prop :=
  r = (None, LDone 0) ∧ upto seq (list.take (N.to_nat n) gs) ∨
  ∃ found k refs1 refs2, r = (Some found, LStop) ∧ located found k ∧ refs = refs1 ++ refs2 ∧
    runs p e gs f refs1 k ∧ runs p e gs k refs2 n.

Lemma sealed_located_skip f l n refs r :
  (f <= l)%N → sealed_located (l + 1) n refs r → sealed_located f n (run_ref p e f l gs :: refs) r.
Proof.
  intros Hfl [?|(found & k & refs1 & refs2 & ? & ? & -> & ? & ?)]; [by left|right].
  exists found, k, (run_ref p e f l gs :: refs1), refs2. split_and!; try done. by constructor.
Qed.

Lemma locate_sealed refs : ∀ f n,
  runs p e gs f refs n → (n <= log_size gs)%N → upto seq (list.take (N.to_nat f) gs) →
  sealed_located f n refs
    (sealed_fold gs (λ sref _, negb (Sequence (Last sref) <=? seq)%N)
       (λ sref, locate_body seq (u64 (LastDelta sref + 1))) refs None).
Proof using Hroom Hord.
  induction refs as [|ref refs IH]; intros f n Hr Hn Hup.
  { inversion Hr; subst. by left. }
  inversion Hr as [|? l ? ? Hfl Hr' Hf Href]; subst. apply runs_le in Hr' as Hle.
  destruct (run_ref_fields p e f l gs) as (_ & HF & HL).
  assert (l < log_size gs)%N as Hl by lia. unfold log_size in Hl.
  destruct (lookup_lt_is_Some_2 gs (N.to_nat l) ltac:(lia)) as [g Hg].
  destruct (run_ref_last p e f l gs g Hfl Hg) as [Hlast _].
  cbn [sealed_fold]. rewrite Hlast, HF, HL.
  destruct (N.leb_spec (Sequence (ID g)) seq) as [Hs|Hs]; cbn [negb].
  { apply sealed_located_skip; [done|]. apply IH; [done|done|].
    replace (N.to_nat (l + 1)) with (S (N.to_nat l)) by lia.
    eapply ordered_upto; [done|done|]. by apply N.ltb_ge. }
  assert (∀ k, locate_body seq k (span f l gs) None = match first_after seq (span f l gs) with
    | Some i => (Some (span f l gs, i, k), false) | None => (None, true) end) as -> by done.
  destruct (first_after seq (span f l gs)) as [i|] eqn:Ei.
  - right. exists (span f l gs, i, u64 (l + 1)), (l + 1)%N, [run_ref p e f l gs], refs.
    rewrite u64_small by (apply (room_u64 gs); [done|unfold log_size; lia]).
    split_and?; [done|by apply locate_run|done|by constructor; [|constructor]|done].
  - apply sealed_located_skip; [done|]. apply IH; [done|done|].
    rewrite (take_span f) by done. apply Forall_app. split; [done|]. by apply first_after_none.
Qed.

Lemma locate_open l : ∀ n,
  drop (N.to_nat n) gs = l → (n <= log_size gs)%N → upto seq (list.take (N.to_nat n) gs) →
  let r := open_fold (λ n, locate_body seq (u64 (n + 1))) n l None in
  r = (None, LDone (log_size gs)) ∧ upto seq gs ∨
  ∃ found k, r = (Some found, LStop) ∧ located found k ∧ (n <= k <= log_size gs)%N.
Proof using Hroom Hord.
  induction l as [|g l IH]; intros n Hd Hn Hup; cbv zeta.
  - left. apply (f_equal length) in Hd as Hlen. rewrite length_drop in Hlen. simpl in Hlen.
    unfold log_size in *. rewrite take_ge in Hup by lia. split; [|done]. cbn [open_fold].
    by replace n with (N.of_nat (length gs)) by lia.
  - assert (gs !! N.to_nat n = Some g) as Hg.
    { rewrite <-(take_drop (N.to_nat n) gs), Hd, lookup_app_r by (rewrite length_take; lia).
      rewrite length_take_le by (unfold log_size in Hn; lia). by rewrite Nat.sub_diag. }
    apply lookup_lt_Some in Hg as Hlt.
    assert (span n n gs = [g]) as Hspan.
    { unfold span. replace (N.to_nat (n + 1 - n)) with 1 by lia. by rewrite Hd. }
    cbn [open_fold].
    assert (locate_body seq (u64 (n + 1)) [g] None = match first_after seq [g] with
      | Some i => (Some ([g], i, u64 (n + 1)), false) | None => (None, true) end) as -> by done.
    destruct (first_after seq [g]) as [i|] eqn:Ei.
    + right. exists ([g], i, u64 (n + 1)), (n + 1)%N. unfold log_size in *.
      rewrite u64_small by (apply (room_u64 gs); [done|unfold log_size; lia]).
      split_and?; [done| |lia|lia]. rewrite <-Hspan in Ei |- *. by apply locate_run.
    + assert (upto seq (list.take (N.to_nat (n + 1)) gs)) as Hup'.
      { rewrite (take_span n), Hspan by done. apply Forall_app. split; [done|].
        by apply first_after_none. }
      destruct (IH (n + 1)%N) as [?|(found & k & ? & ? & ?)]; [|unfold log_size; lia|done|by left|].
      * replace (N.to_nat (n + 1)) with (S (N.to_nat n)) by lia.
        rewrite (drop_S _ g) in Hd by done. by simplify_eq.
      * right. exists found, k. split_and!; (done || lia).
Qed.
End Locate.

Lemma wp_locateAfter fl fuel p e m root gs r seq :
  epoch_log p e m root gs → ordered gs → r_path r = p → r_epoch r = e → length gs < fuel →
  wp (op_spec fl) (locateAfter fuel r root seq) (λ res m', m' = m ∧
    match res with
    | Ok (seg, i, after) =>
        List.filter (past seq) gs = drop i seg ++ drop (N.to_nat after) gs ∧ aligned p e root gs after
    | Err _ => fl = true
    end) m.
Proof.
  intros Hlog Hord Hp He Hfuel. unfold locateAfter. rewrite Hp, He.
  pose proof (log_root_ok _ _ _ _ _ Hlog) as Hrok. pose proof (log_room _ _ _ _ _ Hlog) as Hroom.
  pose proof (ro_open _ _ _ _ _ Hrok) as Hopen. pose proof (ro_runs _ _ _ _ _ Hrok) as Hruns.
  apply wp_bind. eapply wp_mono; [|eapply wp_forSealed; [done|by apply root_runs_stored]].
  intros [s ended] m' [-> [Hr|(-> & k & s' & er & _ & [= -> ->])]]; [|by destruct s'].
  destruct (locate_sealed p e gs seq Hroom Hord (Sealed root) 0 (OpenFrom root) Hruns Hopen ltac:(constructor))
    as [[Hf Hup]|(found & k & refs1 & refs2 & Hf & Hloc & Hs & H1 & H2)];
    rewrite <-Hr in Hf; injection Hf as -> ->.
  2: { destruct found as [[seg i] after]. destruct Hloc as [-> Hloc]. split; [done|]. split; [done|].
    right. by exists refs1, refs2. }
  apply wp_bind. eapply wp_mono; [|eapply wp_forOpen; [done|lia|unfold log_size; lia]].
  intros [s ended] m' [-> [Hr2|(-> & k & n' & s' & er & _ & [= -> ->])]]; [|by destruct s'].
  destruct (locate_open gs seq Hroom Hord _ (OpenFrom root) eq_refl Hopen Hup)
    as [[Hf Hall]|(found & k & Hf & Hloc & Hk)]; rewrite <-Hr2 in Hf; injection Hf as -> ->.
  - split; [done|]. rewrite filter_upto by done. split; [|left; lia].
    by rewrite (drop_ge gs) by (unfold log_size; lia).
  - destruct found as [[seg i] after]. destruct Hloc as [-> Hloc]. split; [done|]. split; [done|].
    left. lia.
Qed.

(** Each epoch's sequences increase, and its identities name it. *)
Definition ordered_logs (logs : list (epochLogRoot * list GroupInfo)) : Prop :=
  Forall (λ log, ordered log.2) logs.

Section Track.
Context (p : TrackPath) (m : objs) (tr : trackRoot) (logs : list (epochLogRoot * list GroupInfo)).
Context (Hv : track_view p m tr logs) (Hord : ordered_logs logs).

(** The identities of an epoch's rows. *)
Lemma row_epoch i root gs g :
  logs !! i = Some (root, gs) → g ∈ gs → Epoch (ID g) = (1 + N.of_nat i)%N.
Proof using Hv.
  intros Hi Hg. pose proof (log_rows _ _ _ _ _ (tv_logs _ _ _ _ Hv i root gs Hi)) as Hrows.
  rewrite Forall_forall in Hrows. by destruct (Hrows g Hg) as (_ & _ & ? & _).
Qed.

Lemma after_same_epoch g id :
  Epoch (ID g) = Epoch id → (id <? ID g)%N = past (Sequence id) g.
Proof.
  intros He. unfold past. rewrite !N.ltb_compare, GroupID_lex, He, N.compare_refl. done.
Qed.

Lemma groups_split i root gs :
  logs !! i = Some (root, gs) →
  groups_of logs = groups_of (list.take i logs) ++ gs ++ groups_of (drop (S i) logs).
Proof.
  intros Hi. unfold groups_of. rewrite <-(take_drop_middle logs i _ Hi) at 1.
  by rewrite map_app, concat_app.
Qed.

Lemma elem_of_groups_of l g :
  g ∈ groups_of l → ∃ i root gs, l !! i = Some (root, gs) ∧ g ∈ gs.
Proof.
  unfold groups_of. intros Hg. apply list_elem_of_In, in_concat in Hg as (gs & Hgs & Hg).
  apply in_map_iff in Hgs as ([root gs'] & <- & Hin). apply list_elem_of_In in Hin, Hg.
  apply list_elem_of_lookup in Hin as [i Hi]. by exists i, root, gs'.
Qed.

Lemma filter_all {A} (P : A → bool) l : (∀ x, x ∈ l → P x = true) → List.filter P l = l.
Proof.
  induction l as [|x l IH]; intros H; [done|]. cbn [List.filter].
  rewrite H by (apply elem_of_cons; by left). f_equal. apply IH. intros y Hy. apply H.
  apply elem_of_cons. by right.
Qed.

Lemma filter_nothing {A} (P : A → bool) l : (∀ x, x ∈ l → P x = false) → List.filter P l = [].
Proof.
  induction l as [|x l IH]; intros H; [done|]. cbn [List.filter].
  rewrite H by (apply elem_of_cons; by left). apply IH. intros y Hy. apply H.
  apply elem_of_cons. by right.
Qed.

(** The groups of the track after an identity: those of its epoch past its
    sequence, and those of the later epochs. *)
Lemma filter_after i root gs id :
  logs !! i = Some (root, gs) → Epoch id = (1 + N.of_nat i)%N →
  List.filter (λ g, id <? ID g)%N (groups_of logs) =
    List.filter (past (Sequence id)) gs ++ groups_of (drop (S i) logs).
Proof using Hv.
  intros Hi He. rewrite (groups_split i root gs Hi), !List.filter_app.
  rewrite (filter_nothing _ (groups_of (list.take i logs))), (filter_all _ (groups_of (drop _ logs))).
  - cbn [app]. f_equal. apply List.filter_ext_in. intros g Hg. apply after_same_epoch.
    rewrite He. eapply row_epoch; [done|]. by apply list_elem_of_In.
  - intros g (j & rt & l & Hj & Hg)%elem_of_groups_of. rewrite lookup_drop in Hj.
    pose proof (row_epoch _ _ _ _ Hj Hg) as Heg.
    rewrite N.ltb_compare, GroupID_lex, He, Heg. by rewrite (proj2 (N.compare_lt_iff _ _)) by lia.
  - intros g (j & rt & l & Hj & Hg)%elem_of_groups_of. apply lookup_take_Some in Hj as [Hj Hlt].
    pose proof (row_epoch _ _ _ _ Hj Hg) as Heg.
    rewrite N.ltb_compare, GroupID_lex, He, Heg. by rewrite (proj2 (N.compare_gt_iff _ _)) by lia.
Qed.

Lemma wp_SeekAfter fl fuel r id :
  r_path r = p → latest r = N.of_nat (length logs) → (0 < Epoch id <= latest r)%N → probes logs fuel →
  wp (op_spec fl) (SeekAfter fuel r id) (λ a m', m' = m ∧
    match a.2 with
    | None => cursor p logs a.1 (List.filter (λ g, id <? ID g)%N (groups_of logs))
    | Some _ => fl = true
    end) m.
Proof using Hv Hord.
  intros Hp Hlat He Hfuel. unfold SeekAfter.
  destruct (N.eqb_spec id 0) as [->|_]; [by destruct He|].
  rewrite (proj2 (N.ltb_ge _ _)) by lia.
  destruct (lookup_lt_is_Some_2 logs (N.to_nat (Epoch id - 1)) ltac:(lia)) as [[root gs] Hi].
  pose proof (tv_logs _ _ _ _ Hv _ root gs Hi) as Hlog.
  assert (Epoch id = (1 + N.of_nat (N.to_nat (Epoch id - 1)))%N) as Hei by lia.
  rewrite <-Hei in Hlog.
  assert (ordered gs ∧ length gs < fuel) as [Hog Hfg].
  { unfold ordered_logs, probes in *. rewrite Forall_lookup in Hord, Hfuel. split.
    - by apply (Hord _ _ Hi).
    - by apply (Hfuel _ _ Hi). }
  apply wp_bind. unfold loadEpoch. rewrite Hp. apply wp_bind.
  eapply wp_mono; [|by eapply wp_fetchEpochLog].
  intros [[rt v]|er] m' [-> H]; [|by split; [|apply H]]. destruct H as [-> _].
  cbn [mret prog_ret wp]. apply wp_bind.
  eapply wp_mono; [|eapply (wp_locateAfter fl fuel p (Epoch id) m root gs); done].
  intros [[[seg i] after]|er] m' [-> H]; (split; [done|]); [|exact H]. destruct H as [Hf Ha].
  constructor; [done|done|]. exists (N.to_nat (Epoch id - 1)), gs. cbn.
  split_and?; [done|done|done|]. rewrite app_assoc, <-Hf. by eapply filter_after.
Qed.
End Track.

(** ** Before *)

Section LastDelta.
Context (p : TrackPath) (e : N) (m : objs) (root : epochLogRoot) (gs : list GroupInfo).
Context (Hlog : epoch_log p e m root gs).

(** The newest committed delta, as [lastDelta] names it. *)
Definition newest : N :=
  if (OpenFrom root <? log_size gs)%N then (log_size gs - 1)%N else noDelta.

Lemma wp_lastDelta_loop fl fuel : ∀ nxt,
  (OpenFrom root <= nxt <= log_size gs)%N → N.to_nat (log_size gs - nxt) < fuel →
  wp (op_spec fl)
    (lastDelta_loop fuel p e (if (OpenFrom root <? nxt)%N then (nxt - 1)%N else noDelta) nxt)
    (λ r m', m' = m ∧ match r with Ok d => d = newest | Err _ => fl = true end) m.
Proof.
  induction fuel as [|fuel IH]; intros nxt Hnxt Hfuel; [lia|]. cbn [lastDelta_loop].
  pose proof (log_room _ _ _ _ _ Hlog) as Hroom.
  assert (is_u64 nxt) as Hu by (apply (room_u64 gs); [done|lia]).
  apply wp_bind, wp_Get.
  - intros d v Hd. destruct (log_delta _ _ _ _ _ Hlog nxt _ Hu Hd) as (g & _ & Hg & _ & _).
    apply lookup_lt_Some in Hg. unfold log_size in *.
    rewrite u64_small by (apply (room_u64 gs); [done|unfold log_size; lia]).
    specialize (IH (nxt + 1)%N ltac:(lia) ltac:(lia)).
    rewrite (proj2 (N.ltb_lt _ (nxt + 1))) in IH by lia.
    by replace (nxt + 1 - 1)%N with nxt in IH by lia.
  - intros er Hne Hnone. rewrite Hne. split; [done|].
    assert (nxt = log_size gs) as ->; [|done].
    destruct (decide (nxt = log_size gs)); [done|].
    destruct (log_open _ _ _ _ _ Hlog nxt ltac:(lia)) as [? ?]. congruence.
  - intros er Hfl _ Hne. by rewrite Hne.
Qed.

Lemma wp_lastDelta fl fuel :
  length gs < fuel →
  wp (op_spec fl) (lastDelta fuel p e (OpenFrom root))
    (λ r m', m' = m ∧ match r with Ok d => d = newest | Err _ => fl = true end) m.
Proof.
  intros Hfuel. pose proof (log_room _ _ _ _ _ Hlog) as Hroom.
  pose proof (ro_open _ _ _ _ _ (log_root_ok _ _ _ _ _ Hlog)) as Hopen.
  unfold room, log_size in *.
  assert (∀ nxt, (OpenFrom root <= nxt <= log_size gs)%N →
    wp (op_spec fl)
      (let last := if (OpenFrom root <? nxt)%N then (nxt - 1)%N else noDelta in
       lastDelta_loop fuel p e last (if (last =? noDelta)%N then OpenFrom root else u64 (last + 1)))
      (λ r m', m' = m ∧ match r with Ok d => d = newest | Err _ => fl = true end) m) as Hprobe.
  { intros nxt Hnxt. cbv zeta. unfold log_size in *. unfold noDelta.
    pose proof (wp_lastDelta_loop fl fuel nxt Hnxt ltac:(unfold log_size; lia)) as H.
    unfold noDelta in H. destruct (N.ltb_spec (OpenFrom root) nxt).
    - rewrite (proj2 (N.eqb_neq _ _)) by lia. rewrite u64_small by (unfold is_u64, two64; lia).
      by replace (nxt - 1 + 1)%N with nxt by lia.
    - rewrite N.eqb_refl. by replace (OpenFrom root) with nxt by lia. }
  unfold lastDelta. apply wp_bind. eapply wp_mono; [|by eapply wp_fetchHead].
  intros [[h v]|er] m' [-> H].
  - destruct H as [Hh _]. destruct (N.leb_spec (OpenFrom root) (Delta h)).
    + specialize (Hprobe (Delta h + 1)%N ltac:(lia)). rewrite (proj2 (N.ltb_lt _ (_ + 1))) in Hprobe by lia.
      by replace (Delta h + 1 - 1)%N with (Delta h) in Hprobe by lia.
    + specialize (Hprobe (OpenFrom root) ltac:(unfold log_size; lia)). by rewrite N.ltb_irrefl in Hprobe.
  - destruct (errors_Is er ErrNotExist); [|done].
    specialize (Hprobe (OpenFrom root) ltac:(unfold log_size; lia)). by rewrite N.ltb_irrefl in Hprobe.
Qed.
End LastDelta.

Lemma u64_sub_one d : is_u64 d → u64_sub d 1 = if (d =? 0)%N then noDelta else (d - 1)%N.
Proof.
  intros Hd. destruct (N.eqb_spec d 0) as [->|]; [done|]. apply u64_sub_small; [done|lia].
Qed.

(** The groups a page before [id] may hold. *)
Definition before_id (id : GroupID) (g : GroupInfo) : bool := (id =? 0)%N || (ID g <? id)%N.

Section Before.
Context (id : GroupID) (n : nat) (Hn : 0 < n).

(** The groups of [l], newest first, that the page may hold. *)
Definition kept_rev (l : list GroupInfo) : list GroupInfo := List.filter (before_id id) (rev l).

Lemma kept_rev_app a b : kept_rev (a ++ b) = kept_rev b ++ kept_rev a.
Proof. unfold kept_rev. by rewrite rev_app_distr, List.filter_app. Qed.

Lemma take_spec l : ∀ acc,
  length acc < n →
  take id n l acc = (list.take n (acc ++ List.filter (before_id id) l),
    bool_decide (n <= length (acc ++ List.filter (before_id id) l))).
Proof.
  induction l as [|g l IH]; intros acc Hacc; cbn [take List.filter].
  { rewrite app_nil_r, take_ge by lia. by rewrite bool_decide_false by lia. }
  assert (negb (id =? 0)%N && (0 <=? Compare (ID g) id)%Z = negb (before_id id g)) as ->.
  { unfold before_id. rewrite negb_orb. f_equal. unfold Compare. rewrite N.ltb_compare.
    by destruct (ID g ?= id)%N. }
  destruct (before_id id g); cbn [negb]; [|by apply IH].
  destruct (Nat.eqb_spec (length (acc ++ [g])) n) as [Hl|Hl].
  - replace (acc ++ g :: List.filter (before_id id) l) with ((acc ++ [g]) ++ List.filter (before_id id) l)
      by (by rewrite <-app_assoc).
    rewrite take_app_length' by done.
    by rewrite bool_decide_true by (rewrite !length_app in *; simpl in *; lia).
  - rewrite IH by (rewrite length_app in *; simpl in *; lia). by rewrite <-app_assoc.
Qed.

(** A page in the making: what has been read so far, newest first, is held; or the
    page is full. [rest] is what has not been read. *)
Definition paging (acc0 read : list GroupInfo) (acc : list GroupInfo) : Prop :=
  acc = acc0 ++ read ∧ length acc < n.

Definition page_full (acc0 all : list GroupInfo) (acc : list GroupInfo) : Prop :=
  acc = list.take n (acc0 ++ all) ∧ n <= length (acc0 ++ all).

Lemma page_full_more acc0 a b acc : page_full acc0 a acc → page_full acc0 (a ++ b) acc.
Proof.
  intros [-> Hlen]. unfold page_full. rewrite app_assoc. split; [by rewrite (take_app_le (acc0 ++ a)) by done|].
  rewrite (length_app (acc0 ++ a)). lia.
Qed.

(** Reading one more batch. *)
Lemma take_paging acc0 read seg acc :
  paging acc0 read acc →
  let r := take id n (rev seg) acc in
  if r.2 then page_full acc0 (read ++ kept_rev seg) r.1 else paging acc0 (read ++ kept_rev seg) r.1.
Proof.
  intros [-> Hlen]. cbv zeta. rewrite take_spec by done. cbn [fst snd]. fold (kept_rev seg).
  rewrite <-app_assoc. case_bool_decide as Hd; [by split|].
  split; [|rewrite take_ge by lia; lia]. rewrite take_ge by lia. done.
Qed.

Section Epoch.
Context (p : TrackPath) (e : N) (m : objs) (root : epochLogRoot) (gs : list GroupInfo).
Context (Hlog : epoch_log p e m root gs) (Hord : ordered gs) (acc0 : list GroupInfo).

Lemma page_full_epoch k acc :
  page_full acc0 (kept_rev (drop k gs)) acc → page_full acc0 (kept_rev gs) acc.
Proof using Hn. rewrite <-(take_drop k gs) at 2. rewrite kept_rev_app. apply page_full_more. Qed.

(** How reading the open region ends. *)
Definition open_read (fl : bool) (r : list GroupInfo * before_end) : Prop :=
  match r.2 with
  | BFull => page_full acc0 (kept_rev gs) r.1
  | BDone => paging acc0 (kept_rev (drop (N.to_nat (OpenFrom root)) gs)) r.1
  | BErr _ => fl = true
  | BResealed => False
  end.

Lemma wp_before_deltas fl fuel : ∀ k d acc,
  (OpenFrom root <= k <= log_size gs)%N → N.to_nat (k - OpenFrom root) < fuel →
  (OpenFrom root < k ∧ d = k - 1)%N ∨
    k = OpenFrom root ∧ (OpenFrom root <=? d)%N && negb (d =? noDelta)%N = false →
  paging acc0 (kept_rev (drop (N.to_nat k) gs)) acc →
  wp (op_spec fl) (before_deltas fuel p e (OpenFrom root) d id n acc)
    (λ r m', m' = m ∧ open_read fl r) m.
Proof using Hlog Hn.
  induction fuel as [|fuel IH]; intros k d acc Hk Hfuel Hd Hacc; [lia|]. cbn [before_deltas].
  destruct Hd as [[Hlt ->]|[-> ->]]; [|by split].
  pose proof (log_room _ _ _ _ _ Hlog) as Hroom. unfold room, log_size in Hroom, Hk.
  rewrite (proj2 (N.leb_le _ _)), (proj2 (N.eqb_neq _ _)) by (unfold noDelta; lia). cbn [andb negb].
  assert (is_u64 (k - 1)) as Hu by (unfold is_u64, two64; lia).
  apply wp_bind. eapply wp_mono; [|by eapply wp_delta].
  intros [dm|er] m' [-> H].
  - destruct H as (g & Hg & ->). change (rev [g]) with (rev [g] : list GroupInfo).
    pose proof (take_paging acc0 _ [g] acc Hacc) as Htake. cbv zeta in Htake.
    assert (kept_rev (drop (N.to_nat (k - 1)) gs) = kept_rev (drop (N.to_nat k) gs) ++ kept_rev [g]) as Hk1.
    { rewrite (drop_S _ g) by done. replace (S (N.to_nat (k - 1))) with (N.to_nat k) by lia.
      by rewrite <-kept_rev_app. }
    rewrite <-Hk1 in Htake. destruct (take id n (rev [g]) acc) as [acc' full]. cbn [fst snd] in Htake.
    destruct full.
    + split; [done|]. by apply page_full_epoch in Htake.
    + rewrite u64_sub_one by done. apply (IH (k - 1)%N); [unfold log_size; lia|lia| |done].
      destruct (decide (k - 1 = OpenFrom root)%N) as [E|E].
      * right. split; [done|]. rewrite <-E. case_match; [|].
        -- apply N.eqb_eq in H. rewrite H. done.
        -- apply N.eqb_neq in H. by rewrite (proj2 (N.leb_gt _ _)) by lia.
      * left. case_match; [apply N.eqb_eq in H; lia|]. lia.
  - assert (is_Some (m !! deltaKey p e (k - 1))) as [o Ho].
    { apply (log_open _ _ _ _ _ Hlog). unfold log_size. lia. }
    destruct (errors_Is er ErrNotCommitted); [congruence|]. by split.
Qed.

(** A run that starts at or after [id] holds nothing of the page. *)
Lemma before_run_skipped f l :
  (f <= l < log_size gs)%N → (id ≠ 0)%N → (0 <= Compare (First (run_ref p e f l gs)) id)%Z →
  kept_rev (span f l gs) = [].
Proof using Hlog Hord Hn.
  intros Hfl Hid Hc. apply filter_nothing. intros g Hg. apply list_elem_of_In, List.in_rev, list_elem_of_In in Hg.
  assert (span f l gs ≠ []) as Hne by (intros E; rewrite E in Hg; by apply not_elem_of_nil in Hg).
  assert (∃ a sp, span f l gs = a :: sp ∧ First (run_ref p e f l gs) = ID a) as (a & sp & Hsp & HF).
  { unfold run_ref, summarize. cbn [s_Groups]. destruct (span f l gs) as [|a sp]; [done|].
    exists a, sp. split; [done|]. by destruct (foldl _ _ _). }
  rewrite HF in Hc. rewrite Hsp in Hg.
  assert (∀ x, x ∈ a :: sp → Epoch (ID x) = e) as Hep.
  { intros x Hx. pose proof (Forall_span _ f l gs (log_rows _ _ _ _ _ Hlog)) as Hrows.
    rewrite Hsp, Forall_forall in Hrows. by destruct (Hrows x Hx) as (_ & _ & ? & _). }
  assert (Sequence (ID a) <= Sequence (ID g))%N as Hseq.
  { assert (ordered (a :: sp)) as Ho.
    { rewrite <-Hsp. rewrite <-(take_drop (N.to_nat f) gs) in Hord.
      apply ordered_app in Hord. unfold span.
      rewrite <-(take_drop (N.to_nat (l + 1 - f)) (drop (N.to_nat f) gs)) in Hord. by apply ordered_prefix in Hord. }
    inversion_clear Ho as [|? ? _ Hall]. apply elem_of_cons in Hg as [->|Hg]; [lia|].
    rewrite Forall_forall in Hall. specialize (Hall g Hg). lia. }
  unfold before_id. rewrite (proj2 (N.eqb_neq id 0)) by done. cbn [orb]. apply N.ltb_ge.
  assert (id <= ID a)%N as Hia.
  { unfold Compare in Hc. destruct (N.compare_spec (ID a) id); lia. }
  assert (ID a <= ID g)%N; [|lia].
  destruct (N.le_gt_cases (ID a) (ID g)) as [|Hlt]; [done|]. apply N.compare_lt_iff in Hlt.
  rewrite GroupID_lex, (Hep g), (Hep a), N.compare_refl in Hlt by (done || (apply elem_of_cons; by left)).
  apply N.compare_lt_iff, N.lt_nge in Hlt. done.
Qed.

Lemma sealed_fold_app {S} include (body : sealedRef → list GroupInfo → S → S * bool) a b s :
  sealed_fold gs include body (a ++ b) s =
  match sealed_fold gs include body a s with
  | (s', LDone _) => sealed_fold gs include body b s'
  | ended => ended
  end.
Proof using Type.
  revert s. induction a as [|ref a IH]; intros s; [done|]. cbn [app sealed_fold].
  destruct (negb (include ref s)); [apply IH|]. destruct (body _ _ s) as [s' []]; [apply IH|done].
Qed.

(** The loop over the sealed runs, newest first. *)
Definition sealed_page (acc : list GroupInfo) (refs : list sealedRef) : list GroupInfo * loop_end :=
  sealed_fold gs (λ ref _, negb (negb (id =? 0)%N && (0 <=? Compare (First ref) id)%Z))
    (λ _ gs groups, let '(groups, full) := take id n (rev gs) groups in (groups, negb full)) refs acc.

Lemma before_sealed f refs k :
  runs p e gs f refs k → (k <= log_size gs)%N → ∀ acc,
  paging acc0 (kept_rev (drop (N.to_nat k) gs)) acc →
  let r := sealed_page acc (rev refs) in
  match r.2 with
  | LStop => page_full acc0 (kept_rev (drop (N.to_nat f) gs)) r.1
  | LDone _ => paging acc0 (kept_rev (drop (N.to_nat f) gs)) r.1
  | LErr _ => False
  end.
Proof using Hlog Hord Hn.
  induction 1 as [k|f l refs k Hfl Hr IH]; intros Hk acc Hacc; cbv zeta; [exact Hacc|].
  specialize (IH Hk acc Hacc). cbv zeta in IH. unfold sealed_page in *. cbn [rev].
  rewrite sealed_fold_app. apply runs_le in Hr.
  assert (kept_rev (drop (N.to_nat f) gs) =
    kept_rev (drop (N.to_nat (l + 1)) gs) ++ kept_rev (span f l gs)) as ->.
  { by rewrite (span_drop f l), kept_rev_app by done. }
  destruct (sealed_fold _ _ _ (rev refs) acc) as [acc1 [k1| |er]]; cbn [fst snd] in *;
    [|by apply page_full_more|done].
  cbn [sealed_fold]. destruct (run_ref_fields p e f l gs) as (_ & HF & HL). rewrite HF, HL, negb_involutive.
  destruct (negb (id =? 0)%N && (0 <=? Compare (First (run_ref p e f l gs)) id)%Z) eqn:Eskip.
  - bool_to_prop. rewrite before_run_skipped by (done || lia). by rewrite app_nil_r.
  - pose proof (take_paging acc0 _ (span f l gs) acc1 IH) as Htake. cbv zeta in Htake.
    by destruct (take id n (rev (span f l gs)) acc1) as [acc2 []].
Qed.

(** How reading a whole epoch ends. *)
Definition epoch_read (fl : bool) (r : list GroupInfo * before_end) : Prop :=
  match r.2 with
  | BFull => page_full acc0 (kept_rev gs) r.1
  | BDone => paging acc0 (kept_rev gs) r.1
  | BErr _ => fl = true
  | BResealed => False
  end.

Lemma wp_beforeIn fl fuel r :
  r_path r = p → length acc0 < n → length gs < fuel →
  wp (op_spec fl) (beforeIn fuel r e id n acc0) (λ a m', m' = m ∧ epoch_read fl a) m.
Proof using Hlog Hord Hn.
  intros Hp Hacc Hfuel. unfold beforeIn. rewrite Hp.
  pose proof (log_root_ok _ _ _ _ _ Hlog) as Hrok. pose proof (ro_open _ _ _ _ _ Hrok) as Hopen.
  apply wp_bind. eapply wp_mono; [|by eapply wp_fetchEpochLog].
  intros [[rt v]|er] m' [-> H]; [|by split; [|apply H]]. destruct H as [-> _].
  apply wp_bind. eapply wp_mono; [|by eapply wp_lastDelta]. intros [d|er] m' [-> Hd]; [|by split].
  subst d. apply wp_bind.
  assert (paging acc0 (kept_rev (drop (N.to_nat (log_size gs)) gs)) acc0) as Hstart.
  { rewrite drop_ge by (unfold log_size; lia). split; [by rewrite app_nil_r|done]. }
  eapply wp_mono; [|eapply (wp_before_deltas fl fuel (log_size gs)); [lia|unfold log_size; lia| |exact Hstart]].
  2: { unfold newest. destruct (N.ltb_spec (OpenFrom root) (log_size gs)); [by left|right].
       split; [lia|]. by rewrite N.eqb_refl, andb_false_r. }
  intros [acc [| | |er]] m' [-> Hr]; cbn [open_read fst snd] in Hr; try done.
  apply wp_bind. eapply wp_mono; [|eapply wp_forSealed; [done|]].
  2: { apply Forall_rev. by apply root_runs_stored. }
  intros [acc2 ended] m' [-> [Hf|(-> & k & s' & er & _ & [= -> ->])]]; [|done].
  pose proof (before_sealed 0 (Sealed root) (OpenFrom root) (ro_runs _ _ _ _ _ Hrok) Hopen acc Hr) as Hs.
  cbv zeta in Hs. unfold sealed_page in Hs. rewrite <-Hf in Hs. cbn [fst snd] in Hs.
  destruct ended; done.
Qed.

Lemma wp_before_attempts fl fuel r left :
  r_path r = p → length acc0 < n → length gs < fuel →
  wp (op_spec fl) (before_attempts fuel r e id n acc0 left) (λ a m', m' = m ∧ epoch_read fl a) m.
Proof using Hlog Hord Hn.
  intros Hp Hacc Hfuel. destruct left; cbn [before_attempts]; apply wp_bind;
    (eapply wp_mono; [|by apply wp_beforeIn]); by intros [acc [| | |er]] m' [-> Hr].
Qed.
End Epoch.

Section Track.
Context (p : TrackPath) (m : objs) (tr : trackRoot) (logs : list (epochLogRoot * list GroupInfo)).
Context (Hv : track_view p m tr logs) (Hord : ordered_logs logs).

Lemma wp_before_epochs fl fuel r k : ∀ acc,
  r_path r = p → k <= length logs → probes logs fuel → length acc < n →
  wp (op_spec fl) (before_epochs fuel r id n k acc) (λ res m', m' = m ∧
    match res with
    | Ok page => page = rev (list.take n (acc ++ kept_rev (groups_of (list.take k logs))))
    | Err _ => fl = true
    end) m.
Proof using Hv Hord Hn.
  induction k as [|k IH]; intros acc Hp Hk Hfuel Hacc; cbn [before_epochs].
  { split; [done|]. cbn. rewrite app_nil_r, take_ge by lia. done. }
  destruct (lookup_lt_is_Some_2 logs k ltac:(lia)) as [[root gs] Hi].
  pose proof (tv_logs _ _ _ _ Hv _ root gs Hi) as Hlog.
  replace (1 + N.of_nat k)%N with (N.of_nat (S k)) in Hlog by lia.
  assert (ordered gs ∧ length gs < fuel) as [Hog Hfg].
  { unfold ordered_logs, probes in *. rewrite Forall_lookup in Hord, Hfuel. split.
    - by apply (Hord _ _ Hi).
    - by apply (Hfuel _ _ Hi). }
  assert (kept_rev (groups_of (list.take (S k) logs)) =
    kept_rev gs ++ kept_rev (groups_of (list.take k logs))) as ->.
  { rewrite <-kept_rev_app, (take_S_r _ _ _ Hi). unfold groups_of. rewrite map_app, concat_app. simpl.
    by rewrite app_nil_r. }
  apply wp_bind. eapply wp_mono; [|by eapply wp_before_attempts].
  intros [acc' [| | |er]] m' [-> Hr]; cbn [epoch_read fst snd] in Hr.
  - split; [done|]. by apply (page_full_more _ _ (kept_rev (groups_of (list.take k logs)))) in Hr as [-> _].
  - done.
  - destruct Hr as [-> Hlen]. eapply wp_mono; [|apply IH; (done || lia)].
    intros res m' [-> Hres]. split; [done|]. destruct res; [|done]. by rewrite app_assoc.
  - by split.
Qed.

(** The epochs after [id]'s hold nothing of the page. *)
Lemma kept_epochs k :
  (id ≠ 0)%N → N.of_nat k = Epoch id → k <= length logs →
  kept_rev (groups_of logs) = kept_rev (groups_of (list.take k logs)).
Proof using Hv Hn.
  intros Hid Hk Hlen. rewrite <-(take_drop k logs) at 1.
  unfold groups_of at 1. rewrite map_app, concat_app. fold (groups_of (list.take k logs)).
  fold (groups_of (drop k logs)). rewrite kept_rev_app. 
  unfold kept_rev at 1. rewrite filter_nothing; [done|]. intros g Hg.
  apply list_elem_of_In, List.in_rev, list_elem_of_In in Hg.
  apply elem_of_groups_of in Hg as (j & rt & l & Hj & Hg). rewrite lookup_drop in Hj.
  pose proof (row_epoch _ _ _ _ Hv _ _ _ _ Hj Hg) as He.
  unfold before_id. rewrite (proj2 (N.eqb_neq id 0)) by done. cbn [orb].
  rewrite N.ltb_compare, GroupID_lex, He, <-Hk. by rewrite (proj2 (N.compare_gt_iff _ _)) by lia.
Qed.
End Track.
End Before.

Lemma wp_Before fl fuel p m tr logs r id n :
  track_view p m tr logs → ordered_logs logs → r_path r = p → latest r = N.of_nat (length logs) →
  probes logs fuel →
  wp (op_spec fl) (Before fuel r id n) (λ res m', m' = m ∧
    match res with
    | Ok page =>
        let all := List.filter (before_id id) (groups_of logs) in
        page = drop (length all - Z.to_nat n) all
    | Err _ => fl = true
    end) m.
Proof.
  intros Hv Hord Hp Hlat Hfuel. unfold Before. destruct (Z.leb_spec n 0) as [Hn|Hn].
  { split; [done|]. cbv zeta. rewrite drop_ge by lia. done. }
  assert (∀ k, k <= length logs → kept_rev id (groups_of logs) = kept_rev id (groups_of (list.take k logs)) →
    wp (op_spec fl) (before_epochs fuel r id (Z.to_nat n) k []) (λ res m', m' = m ∧
      match res with
      | Ok page =>
          let all := List.filter (before_id id) (groups_of logs) in
          page = drop (length all - Z.to_nat n) all
      | Err _ => fl = true
      end) m) as Hgo.
  { intros k Hk Hkept. eapply wp_mono; [|eapply (wp_before_epochs id (Z.to_nat n) ltac:(lia) p m tr logs Hv Hord);
      (done || simpl; lia)].
    intros [page|er] m' [-> Hpage]; (split; [done|]); [|exact Hpage]. subst page. cbv zeta. cbn [app].
    rewrite <-Hkept. unfold kept_rev. by rewrite List.filter_rev, List.firstn_rev, rev_involutive. }
  destruct (negb (id =? 0)%N && (Epoch id <? latest r)%N) eqn:E.
  - bool_to_prop. apply Hgo; [lia|]. apply (kept_epochs id (Z.to_nat n) ltac:(lia) p m tr logs Hv); lia.
  - rewrite Hlat, Nat2N.id. apply Hgo; [done|]. by rewrite firstn_all.
Qed.

(** * Properties *)

(** Resuming: on a track whose sequences increase, [SeekAfter] puts the cursor
    before exactly the groups with a greater identity, across runs, deltas and
    epochs, so streaming on repeats and skips none. *)
Theorem SeekAfter_resumes fl fuel p m tr logs r id :
  track_view p m tr logs → ordered_logs logs → r_path r = p → latest r = N.of_nat (length logs) →
  (0 < Epoch id <= latest r)%N → probes logs fuel →
  wp (op_spec fl) (SeekAfter fuel r id) (λ a m', m' = m ∧
    match a.2 with
    | None => cursor p logs a.1 (List.filter (λ g, id <? ID g)%N (groups_of logs))
    | Some _ => fl = true
    end) m.
Proof. intros. by eapply wp_SeekAfter. Qed.

(** C28 Paging backwards: on a track whose sequences increase, [Before] returns the
    last [n] groups with an identity less than [id], in commit order, or of all
    the groups when [id] is zero. *)
Theorem Before_pages fl fuel p m tr logs r id n :
  track_view p m tr logs → ordered_logs logs → r_path r = p → latest r = N.of_nat (length logs) →
  probes logs fuel →
  wp (op_spec fl) (Before fuel r id n) (λ res m', m' = m ∧
    match res with
    | Ok page =>
        let all := List.filter (λ g, (id =? 0)%N || (ID g <? id)%N) (groups_of logs) in
        page = drop (length all - Z.to_nat n) all
    | Err _ => fl = true
    end) m.
Proof. intros. by eapply wp_Before. Qed.

(** * At a concrete track *)

Lemma cam_ordered : ordered_logs cam_logs.
Proof. repeat constructor. Qed.

Lemma SeekAfter_resumes_witness :
  wp (op_spec false) (SeekAfter 2 cam_reader (ID cam_row)) (λ a m', m' = cam_view ∧
    match a.2 with
    | None => cursor cam cam_logs a.1 (List.filter (λ g, ID cam_row <? ID g)%N (groups_of cam_logs))
    | Some _ => false = true
    end) cam_view.
Proof.
  apply (SeekAfter_resumes false 2 cam cam_view (t_root cam_track) cam_logs cam_reader (ID cam_row)).
  - apply cam_track_view.
  - apply cam_ordered.
  - reflexivity.
  - reflexivity.
  - by vm_compute.
  - repeat constructor.
Defined.

Lemma Before_pages_witness :
  wp (op_spec false) (Before 2 cam_reader 0 5) (λ res m', m' = cam_view ∧
    match res with
    | Ok page =>
        let all := List.filter (λ g, (0 =? 0)%N || (ID g <? 0)%N) (groups_of cam_logs) in
        page = drop (length all - 5) all
    | Err _ => false = true
    end) cam_view.
Proof.
  apply (Before_pages false 2 cam cam_view (t_root cam_track) cam_logs cam_reader 0 5).
  - apply cam_track_view.
  - apply cam_ordered.
  - reflexivity.
  - reflexivity.
  - repeat constructor.
Defined.
