(* ===== verification/ReaderTime.v ===== *)
(** * Seeking by time

    [SeekMedia] and [SeekWallclock] are one search over two clocks. The search is
    shown against what a clock promises ([ClockLaws]): anchors do not go back along
    a log, and a run begins no later than its groups. *)

From S2P Require Import Prelude GoStd Json Store Group Manifest Track Redact Reader EpochLog.
From S2P Require Import WriterLog ReaderLog Fixtures WriterProps ReaderProps ReaderSeek.
From Stdlib Require Import Sorting.Sorted.

(** ** Clocks *)

(** What [seekTime] is called with. *)
Record clock := mkClock {
  anchor : GroupInfo → option Z;
  stop : GroupInfo → N → option Z;
  start : sealedRef → option Z;
}.

Definition media : clock :=
  mkClock (λ g, Some (MediaTime g)) (λ g _, if hasDuration g then Some (mediaEnd g) else None)
    (λ ref, Some (MediaStart ref)).

Definition wallclock : clock :=
  mkClock (λ g, if hasWallclock g then Some (Wallclock g) else None) wallclockEnd
    (λ ref, if (WallclockStart ref =? 0)%Z then None else Some (WallclockStart ref)).

(** Anchors do not go back. *)
Definition no_later (c : clock) (a b : GroupInfo) : Prop :=
  match anchor c a, anchor c b with Some x, Some y => (x <= y)%Z | _, _ => True end.

Definition steady (c : clock) (gs : list GroupInfo) : Prop := StronglySorted (no_later c) gs.

Class ClockLaws (c : clock) (p : TrackPath) (e : N) (gs : list GroupInfo) : Prop := {
  clock_steady : steady c gs;
  clock_start f l g x y : (f <= l)%N → g ∈ span f l gs →
    start c (run_ref p e f l gs) = Some x → anchor c g = Some y → (x <= y)%Z;
}.

(** A group anchored at or before [target]. *)
Definition anchored (c : clock) (target : Z) (g : GroupInfo) : bool :=
  match anchor c g with Some x => (x <=? target)%Z | None => false end.

(** The newest such group of a log, and of the newest log that has one. *)
Definition last_before (c : clock) (target : Z) (gs : list GroupInfo) : option GroupInfo :=
  list.last (List.filter (anchored c target) gs).

Fixpoint sought (c : clock) (target : Z) (newest_first : list (list GroupInfo)) : option GroupInfo :=
  match newest_first with
  | [] => None
  | gs :: older =>
      match last_before c target gs with
      | Some g => Some g
      | None => sought c target older
      end
  end.

(** A target past the group's known end. *)
Definition past_end (c : clock) (timescale : N) (target : Z) (g : GroupInfo) : bool :=
  match stop c g timescale with Some x => (x <=? target)%Z | None => false end.

(** ** The media clock keeps the laws, the wallclock where producers keep it *)

Lemma serial_steady gs : Forall extent_ok gs → serial gs → steady media gs.
Proof.
  unfold steady. induction gs as [|a gs IH]; intros Hx Hs; [constructor|].
  inversion Hx as [|? ? Ha Hx']; subst. constructor.
  - apply IH; [done|]. destruct gs; [done|apply Hs].
  - apply Forall_forall. intros g Hg. pose proof (serial_head a gs Hx Hs g Hg).
    pose proof (extent_end a Ha). unfold no_later. cbn. lia.
Qed.

Lemma steady_app c a b : steady c (a ++ b) → steady c a ∧ steady c b ∧ Forall (λ g, Forall (no_later c g) b) a.
Proof.
  unfold steady. induction a as [|g a IH]; intros H; [by repeat constructor|].
  inversion_clear H as [|? ? H1 H2]. apply Forall_app in H2 as [H2 H3].
  destruct (IH H1) as (? & ? & ?). split_and!; [by constructor|done|by constructor].
Qed.

Lemma steady_span c f l gs : steady c gs → steady c (span f l gs).
Proof.
  intros H. rewrite <-(take_drop (N.to_nat f) gs) in H. apply steady_app in H as (_ & H & _).
  rewrite <-(take_drop (N.to_nat (l + 1 - f)) (drop _ gs)) in H. by apply steady_app in H as (H & _).
Qed.

Lemma media_laws p e m root gs : epoch_log p e m root gs → ClockLaws media p e gs.
Proof.
  intros Hlog. assert (steady media gs) as Hst.
  { apply serial_steady; [|by eapply log_serial]. eapply Forall_impl; [by eapply log_rows|]. by intros g (_ & ? & _). }
  split; [done|]. intros f l g x y Hfl Hg. cbn. intros [= <-] [= <-].
  apply (steady_span _ f l) in Hst. unfold run_ref, summarize. cbn [s_Groups].
  destruct (span f l gs) as [|a sp]; [by apply not_elem_of_nil in Hg|].
  destruct (foldl _ _ _). cbn. apply elem_of_cons in Hg as [->|Hg]; [done|].
  inversion_clear Hst as [|? ? _ Ha]. rewrite Forall_forall in Ha. exact (Ha g Hg).
Qed.

Lemma wallclock_laws p e gs : steady wallclock gs → ClockLaws wallclock p e gs.
Proof.
  intros Hst. split; [done|]. intros f l g x y _ Hg. cbn.
  destruct (Z.eqb_spec (WallclockStart (run_ref p e f l gs)) 0) as [|Hs]; [done|].
  unfold hasWallclock. destruct (Z.eqb_spec (Wallclock g) 0) as [|Hw]; [done|].
  cbn. intros [= <-] [= <-]. by apply run_ref_wallclock.
Qed.

(** ** The newest anchored group of a segment *)

Section Search.
Context (c : clock) (target : Z).

Fixpoint newest (gs : list GroupInfo) : option nat :=
  match gs with
  | [] => None
  | g :: gs' =>
      match newest gs' with
      | Some k => Some (S k)
      | None => if anchored c target g then Some 0 else None
      end
  end.

Lemma newest_app a b :
  newest (a ++ b) = match newest b with Some k => Some (length a + k) | None => newest a end.
Proof.
  induction a as [|g a IH]; cbn; [by destruct (newest b)|]. rewrite IH. by destruct (newest b).
Qed.

Lemma newest_lookup gs k : newest gs = Some k → ∃ g, gs !! k = Some g ∧ anchored c target g = true.
Proof.
  revert k. induction gs as [|g gs IH]; intros k; [done|]. cbn [newest].
  destruct (newest gs) as [j|]; [intros [= <-]; by apply IH|].
  destruct (anchored c target g) eqn:E; [|done]. intros [= <-]. by exists g.
Qed.

Lemma newest_none gs : (∀ g, g ∈ gs → anchored c target g = false) → newest gs = None.
Proof.
  induction gs as [|g gs IH]; intros H; [done|]. cbn. rewrite IH, (H g); [done| |].
  - apply elem_of_cons. by left.
  - intros h Hh. apply H, elem_of_cons. by right.
Qed.

Lemma newest_filter gs :
  match newest gs with
  | None => List.filter (anchored c target) gs = []
  | Some k => ∃ l g, List.filter (anchored c target) gs = l ++ [g] ∧ gs !! k = Some g
  end.
Proof.
  induction gs as [|g gs IH]; [done|]. cbn [newest List.filter].
  destruct (newest gs) as [k|].
  - destruct IH as (l & h & -> & Hh). destruct (anchored c target g); [by exists (g :: l), h|by exists l, h].
  - rewrite IH. destruct (anchored c target g); [|done]. by exists [], g.
Qed.

Lemma last_before_newest gs : last_before c target gs = newest gs ≫= λ k, gs !! k.
Proof.
  unfold last_before. pose proof (newest_filter gs) as H. destruct (newest gs) as [k|]; [|by rewrite H].
  destruct H as (l & g & -> & Hg). cbn. by rewrite last_snoc, Hg.
Qed.

(** [consider] over a segment: its newest anchored group, when nothing found
    before is anchored later. *)
Definition candidate_of (seg : list GroupInfo) (after : N) (i : nat) (g : GroupInfo) : candidate :=
  mkCandidate g seg i after (default 0%Z (anchor c g)).

Definition found_before (best : option candidate) (gs : list GroupInfo) : Prop :=
  ∀ b, best = Some b → Forall (λ g, match anchor c g with Some x => c_at b <= x | None => True end)%Z gs.

Lemma consider_all_newest seg after gs : ∀ i best,
  steady c gs → found_before best gs →
  consider_all (anchor c) target seg after i gs best =
  match newest gs with
  | Some k => candidate_of seg after (i + k) <$> gs !! k
  | None => best
  end.
Proof.
  induction gs as [|g gs IH]; intros i best Hs Hb; [done|]. cbn [consider_all newest].
  inversion_clear Hs as [|? ? Hs' Hg].
  assert (consider (anchor c) target seg after best i g =
    if anchored c target g then Some (candidate_of seg after i g) else best) as Hc.
  { unfold consider, anchored, candidate_of. destruct (anchor c g) as [x|] eqn:E; [|done]. cbn.
    destruct (Z.ltb_spec target x), (Z.leb_spec x target); try lia; [done|].
    destruct best as [b|]; [|done]. specialize (Hb b eq_refl). inversion_clear Hb as [|? ? Hx _].
    rewrite E in Hx. by rewrite (proj2 (Z.leb_le _ _)). }
  rewrite Hc, IH; [|done|].
  - destruct (newest gs) as [k|]; [by rewrite Nat.add_succ_r|].
    destruct (anchored c target g); [|done]. cbn. by rewrite Nat.add_0_r.
  - intros b. destruct (anchored c target g) eqn:Ea.
    + intros [= <-]. cbn. unfold anchored in Ea. destruct (anchor c g) as [x|] eqn:E; [|done].
      eapply Forall_impl; [exact Hg|]. intros h. unfold no_later. by rewrite E.
    + intros ->. specialize (Hb b eq_refl). by inversion Hb.
Qed.
End Search.

(** ** An epoch *)

Section Epoch.
Context (p : TrackPath) (e : N) (m : objs) (root : epochLogRoot) (gs : list GroupInfo).
Context (c : clock) (target : Z).
Context (Hlog : epoch_log p e m root gs) {HC : ClockLaws c p e gs}.

(** The candidate is group number [k] of the log: resuming at it yields the groups
    from there on. *)
Definition found_at (k : nat) (b : candidate) : Prop :=
  gs !! k = Some (c_group b) ∧ aligned p e root gs (c_next b) ∧
  drop (c_idx b) (c_seg b) ++ drop (N.to_nat (c_next b)) gs = drop k gs.

(** The groups of the deltas from [f] up to, not including, [n]. *)
Definition between (f n : nat) : list GroupInfo := drop f (list.take n gs).

Lemma between_snoc f n g : f <= n → gs !! n = Some g → between f (S n) = between f n ++ [g].
Proof using Type.
  intros Hf Hg. unfold between. rewrite (take_S_r _ _ _ Hg), drop_app_le; [done|].
  apply lookup_lt_Some in Hg. rewrite length_take. lia.
Qed.

Lemma between_elem f n g : g ∈ between f n → ∃ j, gs !! j = Some g ∧ j < n.
Proof using Type.
  unfold between. intros [j Hj]%list_elem_of_lookup. rewrite lookup_drop in Hj.
  apply lookup_take_Some in Hj as [Hj Hlt]. by exists (f + j).
Qed.

(** The open region: the candidate among the deltas before [n]. *)
Definition open_best (n : nat) : option candidate :=
  newest c target (between (N.to_nat (OpenFrom root)) n) ≫= λ k,
    let k := N.to_nat (OpenFrom root) + k in
    gs !! k ≫= λ g, Some (candidate_of c [g] (N.of_nat (S k)) 0 g).

Lemma steady_lookup i j a b : i < j → gs !! i = Some a → gs !! j = Some b → no_later c a b.
Proof using HC.
  intros Hij Ha Hb. pose proof clock_steady as Hs. rewrite <-(take_drop j gs) in Hs.
  apply steady_app in Hs as (_ & _ & Hs). rewrite Forall_forall in Hs.
  assert (a ∈ list.take j gs) as Ha'.
  { apply list_elem_of_lookup_2 with i. by rewrite lookup_take_lt. }
  assert (b ∈ drop j gs) as Hb'.
  { apply list_elem_of_lookup_2 with 0. by rewrite lookup_drop, Nat.add_0_r. }
  specialize (Hs a Ha'). rewrite Forall_forall in Hs. by apply Hs.
Qed.

Lemma seek_open l : ∀ n,
  drop n gs = l → N.to_nat (OpenFrom root) <= n <= length gs →
  open_fold (λ n gs best, (consider_all (anchor c) target gs (u64 (n + 1)) 0 gs best, true))
    (N.of_nat n) l (open_best n) = (open_best (length gs), LDone (log_size gs)).
Proof using Hlog HC.
  pose proof (log_room _ _ _ _ _ Hlog) as Hroom. unfold room, log_size in Hroom.
  induction l as [|g l IH]; intros n Hd Hn.
  - apply (f_equal length) in Hd. rewrite length_drop in Hd. simpl in Hd.
    by replace n with (length gs) by lia.
  - assert (gs !! n = Some g) as Hg.
    { rewrite <-(take_drop n gs), Hd, lookup_app_r by (rewrite length_take; lia).
      rewrite length_take_le by lia. by rewrite Nat.sub_diag. }
    apply lookup_lt_Some in Hg as Hlt. cbn [open_fold].
    rewrite u64_small by (unfold is_u64, two64; lia).
    replace (N.of_nat n + 1)%N with (N.of_nat (S n)) by lia.
    rewrite (consider_all_newest c target [g]).
    + assert (open_best (S n) = match newest c target [g] with
        | Some k => candidate_of c [g] (N.of_nat (S n)) (0 + k) <$> [g] !! k | None => open_best n end) as <-.
      { unfold open_best. rewrite (between_snoc _ n g) by (done || lia). rewrite newest_app. cbn [newest].
        destruct (anchored c target g); [|done]. cbn [mbind option_bind].
        unfold between. rewrite length_drop, length_take_le, Nat.add_0_r by lia.
        replace (_ + (n - _)) with n by lia. by rewrite Hg. }
      apply IH; [|lia]. rewrite (drop_S _ g) in Hd by done. by simplify_eq.
    + repeat constructor.
    + intros b Hb. unfold open_best in Hb.
      destruct (newest c target _) as [k|] eqn:Ek; [|done]. cbn in Hb.
      destruct (gs !! (N.to_nat (OpenFrom root) + k)) as [h|] eqn:Eh; [|done]. injection Hb as <-. repeat constructor. cbn.
      apply newest_lookup in Ek as (h' & Hh' & Ha). unfold between in Hh'. rewrite lookup_drop in Hh'.
      apply lookup_take_Some in Hh' as [Hh' Hlt']. rewrite Eh in Hh'. injection Hh' as <-.
      pose proof (steady_lookup _ _ _ _ Hlt' Eh Hg) as Hst. unfold no_later, anchored in *.
      by destruct (anchor c h), (anchor c g).
Qed.

Definition found_newest (f n : nat) (best : option candidate) : Prop :=
  match newest c target (between f n) with
  | Some k => ∃ b, best = Some b ∧ found_at (f + k) b
  | None => best = None
  end.

Lemma open_best_found :
  (OpenFrom root <= log_size gs)%N →
  found_newest (N.to_nat (OpenFrom root)) (length gs) (open_best (length gs)).
Proof using Type.
  intros Hopen. unfold found_newest, open_best. destruct (newest c target _) as [k|] eqn:Ek; [|done].
  apply newest_lookup in Ek as (g & Hg & _). unfold between in Hg. rewrite lookup_drop, firstn_all in Hg.
  cbn [mbind option_bind]. rewrite Hg. cbn [mbind option_bind]. eexists. split; [done|].
  apply lookup_lt_Some in Hg as Hlt. split; [done|]. split; cbn [candidate_of c_next c_idx c_seg].
  - left. unfold log_size in *. lia.
  - by rewrite (drop_S _ g _ Hg), Nat2N.id.
Qed.

(** The sealed runs, newest first. *)
Definition sealed_search (refs : list sealedRef) (best : option candidate)
    : option candidate * loop_end :=
  sealed_fold gs
    (λ ref best, match best with
                 | Some _ => false
                 | None => match start c ref with Some at_ => (at_ <=? target)%Z | None => true end
                 end)
    (λ ref gs best, (consider_all (anchor c) target gs (u64 (LastDelta ref + 1)) 0 gs best, true))
    refs best.

Lemma between_span f l : (f <= l)%N → between (N.to_nat f) (N.to_nat (l + 1)) = span f l gs.
Proof using Type. intros. unfold between, span. rewrite skipn_firstn_comm. f_equal. lia. Qed.

Lemma between_run f l n :
  (f <= l)%N → (l + 1 <= n)%N → (n <= log_size gs)%N →
  between (N.to_nat f) (N.to_nat n) = span f l gs ++ between (N.to_nat (l + 1)) (N.to_nat n).
Proof using Type.
  intros Hf Hl Hn. unfold log_size in Hn. rewrite <-between_span by done. unfold between.
  rewrite <-(take_drop (N.to_nat (l + 1)) (list.take (N.to_nat n) gs)) at 1.
  rewrite take_take, Nat.min_l by lia. apply drop_app_le. rewrite length_take. lia.
Qed.

(** A run that begins after the target holds no group anchored before it. *)
Lemma run_skipped f l x :
  (f <= l)%N → start c (run_ref p e f l gs) = Some x → (target < x)%Z → newest c target (span f l gs) = None.
Proof using HC.
  intros Hfl Hx Ht. apply newest_none. intros g Hg. unfold anchored.
  destruct (anchor c g) as [y|] eqn:Ey; [|done]. pose proof (clock_start f l g x y Hfl Hg Hx Ey).
  by apply Z.leb_gt; lia.
Qed.

Lemma run_found f l k :
  (f <= l)%N → (l < log_size gs)%N → aligned p e root gs (l + 1) → newest c target (span f l gs) = Some k →
  ∃ b, candidate_of c (span f l gs) (l + 1) (0 + k) <$> span f l gs !! k = Some b ∧ found_at (N.to_nat f + k) b.
Proof using Type.
  intros Hfl Hl Ha Hk. apply newest_lookup in Hk as (g & Hg & _). rewrite Hg. eexists. split; [done|].
  apply lookup_lt_Some in Hg as Hkl. unfold found_at. cbn. split_and!; [|done|].
  - rewrite <-between_span in Hg by done. unfold between in Hg. rewrite lookup_drop in Hg.
    by apply lookup_take_Some in Hg as [? _].
  - rewrite <-drop_drop, (span_drop f l gs) by lia. by rewrite drop_app_le by lia.
Qed.

Lemma seek_sealed refs : ∀ f n pre post,
  runs p e gs f refs n → (n <= log_size gs)%N → Sealed root = pre ++ refs ++ post →
  runs p e gs 0 pre f → runs p e gs n post (OpenFrom root) →
  ∃ best, sealed_search (rev refs) None = (best, LDone 0) ∧ found_newest (N.to_nat f) (N.to_nat n) best.
Proof using Hlog HC.
  induction refs as [|ref refs IH]; intros f n pre post Hr Hn Hs Hpre Hpost.
  { inversion Hr; subst. exists None. split; [done|]. unfold found_newest, between.
    by rewrite drop_ge by (rewrite length_take; lia). }
  inversion Hr as [|? l ? ? Hfl Hr' Hf Href]; subst. apply runs_le in Hr' as Hle.
  assert (runs p e gs 0 (pre ++ [run_ref p e f l gs]) (l + 1)) as Hpre'.
  { eapply runs_app; [done|]. constructor; [done|constructor]. }
  assert (Sealed root = (pre ++ [run_ref p e f l gs]) ++ refs ++ post) as Hs' by by rewrite Hs, <-app_assoc.
  destruct (IH (l + 1)%N n _ post Hr' Hn Hs' Hpre' Hpost) as (best & Hbest & Hok).
  unfold sealed_search in *. cbn [rev]. rewrite sealed_fold_app, Hbest. cbn [sealed_fold].
  destruct (run_ref_fields p e f l gs) as (_ & HF & HL). rewrite HF, HL.
  unfold found_newest in *. rewrite (between_run f l n), newest_app, span_length by lia.
  destruct (newest c target (between _ (N.to_nat n))) as [k|].
  - destruct Hok as (b & -> & Hb). exists (Some b). split; [done|]. exists b.
    by replace (N.to_nat f + _) with (N.to_nat (l + 1) + k) by lia.
  - subst best. destruct (start c (run_ref p e f l gs)) as [x|] eqn:Ex.
    1: destruct (Z.leb_spec x target) as [_|Hx];
      [|rewrite (run_skipped f l x Hfl Ex Hx); cbn; by exists None].
    all: rewrite (consider_all_newest c target);
      [|apply steady_span, clock_steady|done];
      rewrite u64_small by (apply (room_u64 gs); [by eapply log_room|lia]);
      destruct (newest c target (span f l gs)) as [k|] eqn:Ek; [|by exists None];
      destruct (run_found f l k) as (b & -> & Hb); [done|lia| |done|exists (Some b); by split; [|exists b]];
      right; exists (pre ++ [run_ref p e f l gs]), (refs ++ post); (split_and!; [done|done|by eapply runs_app]).
Qed.

Lemma search_done refs b : sealed_search refs (Some b) = (Some b, LDone 0).
Proof using Type. induction refs as [|ref refs IH]; [done|]. unfold sealed_search in *. cbn. apply IH. Qed.

Definition found_last (best : option candidate) : Prop :=
  match newest c target gs with
  | Some k => ∃ b, best = Some b ∧ found_at k b
  | None => best = None
  end.

Lemma wp_seekWithinEpoch fl fuel :
  length gs < fuel →
  wp (op_spec fl) (seekWithinEpoch fuel p e root target (anchor c) (start c)) (λ res m', m' = m ∧
    match res with
    | Ok best => found_last best
    | Err _ => fl = true
    end) m.
Proof using Hlog HC.
  intros Hfuel. unfold seekWithinEpoch.
  pose proof (log_root_ok _ _ _ _ _ Hlog) as Hrok. pose proof (ro_open _ _ _ _ _ Hrok) as Hopen.
  pose proof (ro_runs _ _ _ _ _ Hrok) as Hruns. assert (Hopen' := Hopen). unfold log_size in Hopen'.
  apply wp_bind. eapply wp_mono; [|eapply wp_forOpen; [done|lia|unfold log_size; lia]].
  intros [s ended] m' [-> [Hr|(-> & k & n' & s' & er & _ & [= -> ->])]]; [|by destruct s'].
  assert (open_best (N.to_nat (OpenFrom root)) = None) as Hnone.
  { unfold open_best, between. by rewrite drop_ge by (rewrite length_take; lia). }
  pose proof (seek_open _ (N.to_nat (OpenFrom root)) eq_refl ltac:(lia)) as Ho.
  rewrite N2Nat.id, Hnone in Ho. rewrite Ho in Hr. injection Hr as -> ->.
  apply wp_bind. eapply wp_mono; [|eapply wp_forSealed; [done|]].
  2: { apply Forall_rev. by apply root_runs_stored. }
  intros [s ended] m' [-> [Hr|(-> & k & s' & er & _ & [= -> ->])]]; [|done]. split; [done|].
  fold (sealed_search (rev (Sealed root)) (open_best (length gs))) in Hr.
  pose proof (open_best_found Hopen) as Hf.
  destruct (seek_sealed (Sealed root) 0 (OpenFrom root) [] []) as (best & Hb & Hok);
    [done|done|by rewrite app_nil_r|constructor|constructor|].
  unfold found_newest, found_last in *. set (o := N.to_nat (OpenFrom root)) in *.
  assert (newest c target gs = match newest c target (between o (length gs)) with
    | Some k => Some (o + k) | None => newest c target (between 0 o) end) as ->.
  { rewrite <-(take_drop o gs) at 1. rewrite newest_app, length_take_le by lia. unfold between.
    by rewrite firstn_all. }
  destruct (newest c target (between o (length gs))) as [k|].
  - destruct Hf as (b & Hf & Hat). rewrite Hf, search_done in Hr. injection Hr as -> ->. by exists b.
  - rewrite Hf, Hb in Hr. injection Hr as -> ->. exact Hok.
Qed.
End Epoch.

(** ** A track *)

Section SeekTrack.
Context (p : TrackPath) (m : objs) (tr : trackRoot) (logs : list (epochLogRoot * list GroupInfo)).
Context (Hv : track_view p m tr logs).
Context (c : clock) (HC : ∀ i root gs, logs !! i = Some (root, gs) → ClockLaws c p (1 + N.of_nat i) gs).

(** The cursor of the reader [r], moved to [g]. *)
Definition moved_to (r r' : Reader) (g : GroupInfo) : Prop :=
  ∀ rest, cursor p logs r rest → r_epoch r = Epoch (ID g) →
    ∃ pre post, groups_of logs = pre ++ g :: post ∧ cursor p logs r' (g :: post).

Definition sought_post (fl : bool) (target : Z) (r : Reader) (found : option GroupInfo)
    (a : Reader * result GroupInfo) : Prop :=
  match a.2 with
  | Ok g => found = Some g ∧ past_end c (Timescale (r_schema r)) target g = false ∧ moved_to r a.1 g
  | Err er => a.1 = r ∧ (fl = true ∨ er = [ErrGroupNotFound] ∧
      match found with None => True | Some g => past_end c (Timescale (r_schema r)) target g = true end)
  end.

Lemma position_moves r i root gs k b :
  logs !! i = Some (root, gs) → found_at p (1 + N.of_nat i) root gs k b →
  moved_to r (position r (1 + N.of_nat i) (c_seg b) (c_idx b) (c_next b)) (c_group b).
Proof using Hv.
  intros Hi (Hg & Ha & Hd) rest [Hp Hlat (i' & gs' & He & Hi' & _ & _)] Hep.
  rewrite (row_epoch p m tr logs Hv i root gs _ Hi) in Hep by (by eapply list_elem_of_lookup_2).
  assert (i' = i) as -> by lia. rewrite Hi in Hi'. injection Hi' as Hroot <-.
  exists (groups_of (list.take i logs) ++ list.take k gs),
    (drop (S k) gs ++ groups_of (drop (S i) logs)). split.
  - rewrite (groups_split logs i root gs Hi), <-(take_drop_middle gs k _ Hg) at 1.
    by rewrite <-!app_assoc, <-app_comm_cons.
  - constructor; [done|done|]. exists i, gs. cbn. rewrite <-Hroot. split_and?; [done|done|done|].
    rewrite app_assoc, Hd, (drop_S _ _ _ Hg). done.
Qed.

Lemma wp_seekTime_epochs fl fuel target r n :
  r_path r = p → n <= length logs → probes logs fuel →
  wp (op_spec fl) (seekTime_epochs fuel r target (anchor c) (stop c) (start c) n) (λ a m',
    m' = m ∧ sought_post fl target r (sought c target (rev (map snd (list.take n logs)))) a) m.
Proof using Hv HC.
  intros Hp. induction n as [|n IH]; intros Hn Hfuel; cbn [seekTime_epochs].
  { split; [done|]. cbn. split; [done|]. by right. }
  destruct (lookup_lt_is_Some_2 logs n ltac:(lia)) as [[root gs] Hi].
  pose proof (tv_logs _ _ _ _ Hv _ root gs Hi) as Hlog. pose proof (HC n root gs Hi) as HCn.
  assert (length gs < fuel) as Hf.
  { unfold probes in Hfuel. rewrite Forall_lookup in Hfuel. by apply (Hfuel _ _ Hi). }
  rewrite (take_S_r _ _ _ Hi), map_app, rev_app_distr. cbn [rev map app sought snd].
  rewrite last_before_newest.
  replace (N.of_nat (S n)) with (1 + N.of_nat n)%N by lia. rewrite Hp.
  apply wp_bind. eapply wp_mono; [|by eapply wp_fetchEpochLog].
  intros [[rt v]|er] m' [-> H]; [|by split; [|split; [|left; apply H]]]. destruct H as [-> _].
  apply wp_bind. eapply wp_mono; [|by eapply wp_seekWithinEpoch].
  intros [best|er] m' [-> Hb]; [|by split; [|split; [|left]]].
  unfold found_last in Hb. destruct (newest c target gs) as [k|].
  2: { subst best. apply IH; [lia|done]. }
  destruct Hb as (b & -> & Hat). pose proof (proj1 Hat) as Hg. cbn [mbind option_bind]. rewrite Hg.
  split; [done|]. fold (past_end c (Timescale (r_schema r)) target (c_group b)). unfold sought_post.
  destruct (past_end c (Timescale (r_schema r)) target (c_group b)) eqn:E; cbn [fst snd].
  - split; [done|]. right. by split.
  - split; [done|]. split; [done|]. by eapply position_moves.
Qed.

Lemma wp_seekTime fl fuel target r :
  r_path r = p → latest r = N.of_nat (length logs) → probes logs fuel →
  wp (op_spec fl) (seekTime fuel r target (anchor c) (stop c) (start c)) (λ a m',
    m' = m ∧ sought_post fl target r (sought c target (rev (map snd logs))) a) m.
Proof using Hv HC.
  intros Hp Hlat Hfuel. unfold seekTime. rewrite Hlat, Nat2N.id.
  eapply wp_mono; [|eapply (wp_seekTime_epochs fl fuel target r (length logs)); done].
  intros a m' [-> H]. by rewrite firstn_all in H.
Qed.
End SeekTrack.

(** * Properties *)

(** Seeking by media time: [SeekMedia] answers the last group anchored at or
    before the target in the newest epoch that has one, unless the target is past
    its known end; and when the reader was streaming that epoch, the cursor is
    before that group. *)
Theorem SeekMedia_lands fl fuel p m tr logs r target :
  track_view p m tr logs → r_path r = p → latest r = N.of_nat (length logs) → probes logs fuel →
  wp (op_spec fl) (SeekMedia fuel r target) (λ a m', m' = m ∧
    let found := sought media target (rev (map snd logs)) in
    let past g := hasDuration g && (mediaEnd g <=? target)%Z in
    match a.2 with
    | Ok g => found = Some g ∧ past g = false ∧
        ∀ rest, cursor p logs r rest → r_epoch r = Epoch (ID g) →
          ∃ pre post, groups_of logs = pre ++ g :: post ∧ cursor p logs a.1 (g :: post)
    | Err er => a.1 = r ∧ (fl = true ∨ er = [ErrGroupNotFound] ∧
        match found with None => True | Some g => past g = true end)
    end) m.
Proof.
  intros Hv Hp Hlat Hf. assert (∀ g, past_end media (Timescale (r_schema r)) target g =
    hasDuration g && (mediaEnd g <=? target)%Z) as Hpast.
  { intros g. unfold past_end. cbn. by destruct (hasDuration g). }
  eapply wp_mono; [|eapply (wp_seekTime p m tr logs Hv media); [|done..]].
  - intros [r' [g|er]] m' [-> H]; unfold sought_post in H; cbn [fst snd] in *; (split; [done|]).
    + by rewrite Hpast in H.
    + destruct (sought media target _) as [g|]; [by rewrite Hpast in H|done].
  - intros i root gs Hi. eapply media_laws. by eapply tv_logs.
Qed.


(** * At a concrete track *)

Lemma SeekMedia_lands_witness :
  wp (op_spec false) (SeekMedia 2 cam_reader 1000) (λ a m', m' = cam_view ∧
    let found := Some cam_row in
    let past g := hasDuration g && (mediaEnd g <=? 1000)%Z in
    match a.2 with
    | Ok g => found = Some g ∧ past g = false ∧
        ∀ rest, cursor cam cam_logs cam_reader rest → r_epoch cam_reader = Epoch (ID g) →
          ∃ pre post, groups_of cam_logs = pre ++ g :: post ∧ cursor cam cam_logs a.1 (g :: post)
    | Err er => a.1 = cam_reader ∧ (false = true ∨ er = [ErrGroupNotFound] ∧
        match found with None => True | Some g => past g = true end)
    end) cam_view.
Proof.
  apply (SeekMedia_lands false 2 cam cam_view (t_root cam_track) cam_logs cam_reader 1000).
  - apply cam_track_view.
  - reflexivity.
  - reflexivity.
  - repeat constructor.
Defined.

