(* ===== verification/RedactProps.v ===== *)
(** * What a redaction leaves

    [Redact] marks a group, then takes its payload; the log stays as it was. It
    finds the marker's key by cutting the object key at its first "/groups/", which
    is the right place on the paths called [cuttable] here. *)

From S2P Require Import Prelude GoStd Json Store Group Manifest Track Redact Reader EpochLog Fixtures.
#[local] Open Scope string_scope.
#[local] Open Scope list_scope.

(** No segment of the path is "groups", but for the first one. *)
Definition cuttable (p : TrackPath) : Prop := Cut (p +:+ "/") ("/" +:+ groupPrefix) = None.

(** ** The marker's key *)

Lemma CutPrefix_boundary s rest x :
  s ≠ "" → CutPrefix (s +:+ "/e" +:+ rest) "/groups/" = Some x → ∃ y, CutPrefix (s +:+ "/") "/groups/" = Some y.
Proof.
  destruct s as [|c1 [|c2 [|c3 [|c4 [|c5 [|c6 [|c7 [|c8 s]]]]]]]]; [done|..]; intros _;
    cbn [CutPrefix String.append];
    repeat (match goal with |- context [Ascii.eqb ?a ?b] => destruct (Ascii.eqb_spec a b); subst end;
      try done); intros _; by eexists.
Qed.

Lemma Cut_boundary p rest :
  cuttable p → Cut (p +:+ "/e" +:+ rest) "/groups/" = match Cut ("/e" +:+ rest) "/groups/" with
    | Some (dir, name) => Some (p +:+ dir, name) | None => None end.
Proof.
  unfold cuttable. change ("/" +:+ groupPrefix) with "/groups/".
  induction p as [|c p IH]; intros Hp.
  { change (Cut ("/e" +:+ rest) "/groups/" = match Cut ("/e" +:+ rest) "/groups/" with
      | Some (dir, name) => Some (dir, name) | None => None end).
    by destruct (Cut ("/e" +:+ rest) "/groups/") as [[]|]. }
  change (String c p +:+ ?t) with (String c (p +:+ t)) in *.
  pose proof (CutPrefix_boundary (String c p) rest) as Hb. cbn [String.append] in Hb.
  cbn [Cut] in Hp |- *. destruct (CutPrefix (String c (p +:+ "/")) "/groups/") as [y|] eqn:E; [done|].
  destruct (CutPrefix (String c (p +:+ "/e" +:+ rest)) "/groups/") as [x|] eqn:E'.
  { destruct (Hb x) as [y Hy]; [done|exact E'|]. change (String c p +:+ "/") with (String c (p +:+ "/")) in Hy. congruence. }
  rewrite IH by (by destruct (Cut (p +:+ "/") "/groups/") as [[]|]).
  by destruct (Cut ("/e" +:+ rest) "/groups/") as [[]|].
Qed.

Lemma redactedKey_group p id : cuttable p → redactedKey (groupKey p id) = Some (marker p id).
Proof.
  intros Hp. unfold redactedKey, groupKey. set (n := pad 8 (Sequence id)).
  change ("/" +:+ groupPrefix) with "/groups/".
  change (p +:+ "/" +:+ epochDir (Epoch id) +:+ "/" +:+ groupPrefix +:+ "g" +:+ n)
    with (p +:+ "/e" +:+ (pad 6 (Epoch id) +:+ "/" +:+ groupPrefix +:+ "g" +:+ n)).
  rewrite Cut_boundary by done.
  assert (Cut ("/e" +:+ pad 6 (Epoch id) +:+ "/" +:+ groupPrefix +:+ "g" +:+ n) "/groups/" =
    Some ("/" +:+ epochDir (Epoch id), "g" +:+ n)) as ->.
  { assert (∀ t u r, Cut (String "/" u) "/groups/" = r → all_chars no_slash t = true →
      Cut (t +:+ String "/" u) "/groups/" = match r with Some (d, m) => Some (t +:+ d, m) | None => None end)
      as Hskip.
    { intros t u r Hr. induction t as [|c t IH]; [intros _; subst r; by destruct (Cut _ _) as [[]|]|].
      cbn [all_chars]. intros [Hc Ht]%andb_prop. change (String c t +:+ ?v) with (String c (t +:+ v)).
      cbn [Cut CutPrefix]. unfold no_slash in Hc. apply negb_true_iff in Hc. rewrite Ascii.eqb_sym, Hc.
      rewrite (IH Ht). by destruct r as [[]|]. }
    assert (Cut ("/" +:+ groupPrefix +:+ "g" +:+ n) "/groups/" = Some ("", "g" +:+ n)) as Hg by done.
    change ("/e" +:+ ?t) with (String "/" (String "e" t)). cbn [Cut CutPrefix].
    pose proof (Hskip (String "e" (pad 6 (Epoch id))) (groupPrefix +:+ "g" +:+ n) _ Hg) as H. cbn [String.append] in H. cbn. cbn in H. rewrite H; [by rewrite string_app_nil_r|].
    by apply pad_no_slash. }
  assert (String.eqb ("g" +:+ n) "" || contains_slash ("g" +:+ n) = false) as ->.
  { cbn. unfold contains_slash. apply (all_chars_contains no_slash); [|done]. cbn. by apply pad_no_slash. }
  unfold marker, render. cbn [key_epoch epoch_suffix]. by rewrite <-!string_app_assoc.
Qed.

Lemma group_key_prefix p id : HasPrefix (groupKey p id) (p +:+ "/") = true.
Proof.
  unfold HasPrefix. apply bool_decide_eq_true.
  exists (epochDir (Epoch id) +:+ "/" +:+ groupPrefix +:+ "g" +:+ pad 8 (Sequence id)).
  unfold groupKey. rewrite string_app_assoc. generalize (p +:+ "/") as s. intros s.
  induction s as [|c s IH]; [done|]. cbn. by rewrite Ascii.eqb_refl.
Qed.

(** ** Marking and deleting *)

Section Redact.
Context (p : TrackPath) (e : N) (Hpar : log_params p e) (Hcut : cuttable p).

Lemma wp_ReadGroup_redacted fl id (m : objs) :
  m !! groupKey p id = None → is_Some (m !! marker p id) →
  wp (op_spec fl) (ReadGroup (groupKey p id)) (λ res m', m' = m ∧
    match res with Ok _ => False | Err er => er = [ErrGroupRedacted] ∨ fl = true end) m.
Proof using Hcut.
  intros Hnone [[d v] Hm]. unfold ReadGroup. apply wp_bind, wp_Get; [congruence| |].
  - intros er Her _. rewrite Her, redactedKey_group by done. unfold markerExists.
    apply wp_bind, wp_bind, wp_Get; [|congruence|].
    + intros d' v' _. split; [done|]. by left.
    + intros er' Hfl _ Her'. rewrite Her'. split; [done|]. by right.
  - intros er Hfl _ Her. rewrite Her. split; [done|]. by right.
Qed.

Lemma wp_Redacted fl t g (m : objs) :
  t_path t = p → ObjectKey g = groupKey p (ID g) →
  wp (op_spec fl) (Redacted t g) (λ res m', m' = m ∧
    match res with Ok b => b = bool_decide (is_Some (m !! marker p (ID g))) | Err _ => fl = true end) m.
Proof using Hcut.
  intros Ht Hk. unfold Redacted, Track_redactedKey. rewrite Hk, redactedKey_group by done.
  assert (HasPrefix (groupKey p (ID g)) (t_path t +:+ "/") = true) as ->.
  { rewrite Ht. apply group_key_prefix. }
  unfold markerExists. apply wp_bind, wp_Get.
  - intros d v Hm. split; [done|]. by rewrite Hm.
  - intros er Her Hm. rewrite Her. split; [done|]. by rewrite Hm.
  - intros er Hfl _ Her. rewrite Her. by split.
Qed.

(** The marker, once stored, and then the payload gone: the log is as it was. *)
Lemma durable_marked m root gs g x :
  durable p e m root gs → g ∈ gs → durable p e (<[marker p (ID g) := x]> m) root gs.
Proof using Hpar.
  intros [Hl Hpl] Hg. pose proof (log_rows _ _ _ _ _ Hl) as Hrows. rewrite Forall_forall in Hrows.
  destruct (Hrows g Hg) as ([Hwf _] & _ & He & _).
  assert (wf_key (KRedacted (Epoch (ID g)) (Sequence (ID g)))).
  { split; [apply Epoch_u64, Hwf|apply Sequence_u64]. }
  split; [by apply epoch_log_insert_other|]. eapply payloads_insert; eauto. by eapply log_rows.
Qed.

Lemma durable_redacted m root gs g :
  durable p e m root gs → g ∈ gs → is_Some (m !! marker p (ID g)) →
  durable p e (delete (ObjectKey g) m) root gs.
Proof using Hpar.
  intros [Hl Hpl] Hg Hm. pose proof (log_rows _ _ _ _ _ Hl) as Hrows. rewrite Forall_forall in Hrows.
  destruct (Hrows g Hg) as ([Hwf _] & _ & He & Hk).
  assert (∀ id, is_u64 id → wf_key (KGroup (Epoch id) (Sequence id)) ∧ wf_key (KRedacted (Epoch id) (Sequence id)))
    as Hwk by (intros id Hid; split; split; auto using Epoch_u64, Sequence_u64).
  assert (is_u64 (ID g)) as Hid by apply Hwf. rewrite Hk, group_key_render.
  assert (∀ a, a ∈ gs → is_Some (m !! marker p (ID a)) →
    is_Some (delete (render p (KGroup (Epoch (ID g)) (Sequence (ID g)))) m !! marker p (ID a))) as Hkeep.
  { intros a Ha Hma. destruct (Hrows a Ha) as ([[Hida _] _] & _). unfold marker in *.
    rewrite render_delete_ne; [done|by apply Hwk|by apply Hwk|done]. }
  split; [apply epoch_log_delete_other; [done|by apply Hwk|done|done]|].
  destruct Hpl as [Hst Hids]. constructor.
  - intros a Ha. destruct (Hst a Ha) as [(data & v & Hd & Hsz)|Hma]; [|right; by apply Hkeep].
    destruct (Hrows a Ha) as ([[Hida _] _] & _ & Hea & Hka).
    destruct (decide (Sequence (ID a) = Sequence (ID g))) as [Hs|Hs].
    + right. apply Hkeep; [done|]. unfold marker. rewrite Hea, Hs, <-He. exact Hm.
    + left. exists data, v. split; [|done]. rewrite Hka, group_key_render in *.
      rewrite render_delete_ne; [done|by apply Hwk|by apply Hwk|congruence].
  - intros i j a b Ha Hb Hab. destruct (Hids i j a b Ha Hb Hab) as [|Hma]; [by left|right].
    apply Hkeep; [by eapply list_elem_of_lookup_2|done].
Qed.

Definition redact_post (fl : bool) (m : objs) root gs (t : Track) (g : GroupInfo)
    (r : option error) (m' : objs) : Prop :=
  durable p e m' root gs ∧
  (∀ k, k ≠ ObjectKey g → k ≠ marker p (ID g) → m' !! k = m !! k) ∧
  (m' !! ObjectKey g = m !! ObjectKey g ∨ is_Some (m' !! marker p (ID g))) ∧
  match r with
  | None => m' !! ObjectKey g = None ∧ is_Some (m' !! marker p (ID g))
  | Some _ => fl = true
  end.

Lemma wp_Redact fl m root gs t g :
  durable p e m root gs → g ∈ gs → t_path t = p →
  wp (op_spec fl) (Redact t g) (redact_post fl m root gs t g) m.
Proof using Hpar Hcut.
  intros Hd Hg Ht. pose proof (log_rows _ _ _ _ _ (du_log _ _ _ _ _ Hd)) as Hrows.
  rewrite Forall_forall in Hrows. destruct (Hrows g Hg) as ([Hwf _] & _ & He & Hk).
  assert (ObjectKey g ≠ marker p (ID g)) as Hne.
  { rewrite Hk, group_key_render. apply render_ne; [| |done];
      (split; [apply Epoch_u64, Hwf|apply Sequence_u64]). }
  unfold Redact, Track_redactedKey. rewrite Hk, redactedKey_group by done. rewrite <-Hk.
  assert (HasPrefix (ObjectKey g) (t_path t +:+ "/") = true) as ->.
  { rewrite Ht, Hk. apply group_key_prefix. }
  assert (∀ m1, durable p e m1 root gs → is_Some (m1 !! marker p (ID g)) →
    (∀ k, k ≠ marker p (ID g) → m1 !! k = m !! k) →
    wp (op_spec fl) (r ← store_Delete (ObjectKey g); mret match r with Err e => Some e | Ok _ => None end)
      (redact_post fl m root gs t g) m1) as Hdel.
  { intros m1 Hd1 Hmark Hfr.
    assert (∀ r, match r with None => True | Some _ => fl = true end →
      redact_post fl m root gs t g r (delete (ObjectKey g) m1)) as Hgone.
    { intros r Hr. pose proof (durable_redacted m1 root gs g Hd1 Hg Hmark).
      unfold redact_post. rewrite (lookup_delete_ne _ (ObjectKey g) (marker p (ID g))), lookup_delete_eq by done.
      split_and!; [done| |by right|by destruct r]. intros k Hk1 Hk2. rewrite lookup_delete_ne by done. auto. }
    apply wp_bind, wp_Delete; [by apply Hgone|intros er Hfl _; by apply Hgone|].
    intros er Hfl _. split_and!; [done|auto|by right|done]. }
  assert (∀ v, durable p e (<[marker p (ID g) := ("", v)]> m) root gs) as Hmarked
    by (intros; by apply durable_marked).
  assert (∀ v k, k ≠ marker p (ID g) → <[marker p (ID g) := ("", v)]> m !! k = m !! k) as Hfr
    by (intros; by apply lookup_insert_ne).
  apply wp_bind, wp_Create.
  - intros v _ _. apply Hdel; [done|by rewrite lookup_insert_eq|auto].
  - intros er _ Her Hmark. rewrite Her. by apply Hdel.
  - intros er v Hfl _ _ _. destruct (errors_Is er ErrExist).
    + apply Hdel; [done|by rewrite lookup_insert_eq|auto].
    + split_and!; [done|auto|left; auto|done].
  - intros er Hfl _ Her. rewrite Her. split_and!; [done|done|by left|done].
Qed.
End Redact.

(** A committed group reads back, or is said to be redacted. *)
Lemma wp_ReadGroup_committed p e m root gs fl g :
  cuttable p → durable p e m root gs → g ∈ gs →
  wp (op_spec fl) (ReadGroup (ObjectKey g)) (λ res m', m' = m ∧
    match res with
    | Ok data => Z.of_nat (String.length data) = Size g ∨ is_Some (m !! marker p (ID g))
    | Err er => er = [ErrGroupRedacted] ∧ is_Some (m !! marker p (ID g)) ∨ fl = true
    end) m.
Proof.
  intros Hcut [Hl Hpl] Hg. pose proof (log_rows _ _ _ _ _ Hl) as Hrows. rewrite Forall_forall in Hrows.
  destruct (Hrows g Hg) as (_ & _ & _ & Hk). destruct (m !! ObjectKey g) as [[d v]|] eqn:E.
  - unfold ReadGroup. apply wp_bind, wp_Get; [|congruence|].
    + intros d' v' Hd. split; [done|]. destruct (pl_stored _ _ _ Hpl g Hg) as [(d2 & v2 & Hd2 & Hsz)|]; [|by right].
      left. rewrite Hd in Hd2. by injection Hd2 as <- <-.
    + intros er Hfl _ Her. rewrite Her. split; [done|]. by right.
  - assert (is_Some (m !! marker p (ID g))) as Hm.
    { destruct (pl_stored _ _ _ Hpl g Hg) as [(d2 & v2 & Hd2 & _)|]; [congruence|done]. }
    rewrite Hk in *. eapply wp_mono; [|by apply wp_ReadGroup_redacted].
    intros [d|er] m' [-> H]; [done|]. split; [done|]. destruct H; [by left|by right].
Qed.

(** * Properties *)

(** C11 Redaction: whichever store calls fail, [Redact] of a committed group leaves the
    log as it was and every object but the group's payload and marker untouched, and
    takes no payload it has not marked. When it answers success the group reads as
    redacted from any process; and every group of the log, redacted or not, reads back
    with its size or answers [ErrGroupRedacted], never as an object that was lost. *)
Theorem Redact_takes_payload fl p e m root gs t g :
  log_params p e → cuttable p → durable p e m root gs → g ∈ gs → t_path t = p →
  wp (op_spec fl) (Redact t g) (λ r m',
    durable p e m' root gs ∧
    (∀ k, k ≠ ObjectKey g → k ≠ marker p (ID g) → m' !! k = m !! k) ∧
    (m' !! ObjectKey g = m !! ObjectKey g ∨ is_Some (m' !! marker p (ID g))) ∧
    match r with
    | Some _ => fl = true
    | None =>
        wp (op_spec true) (Redacted t g) (λ res m'', m'' = m' ∧
          match res with Ok b => b = true | Err _ => True end) m' ∧
        wp (op_spec false) (ReadGroup (ObjectKey g)) (λ res m'', m'' = m' ∧ res = Err [ErrGroupRedacted]) m'
    end ∧
    ∀ a, a ∈ gs → wp (op_spec false) (ReadGroup (ObjectKey a)) (λ res m'', m'' = m' ∧
      match res with
      | Ok data => Z.of_nat (String.length data) = Size a ∨ is_Some (m' !! marker p (ID a))
      | Err er => er = [ErrGroupRedacted] ∧ is_Some (m' !! marker p (ID a))
      end) m') m.
Proof.
  intros Hpar Hcut Hd Hg Ht. pose proof (log_rows _ _ _ _ _ (du_log _ _ _ _ _ Hd)) as Hrows.
  rewrite Forall_forall in Hrows. destruct (Hrows g Hg) as (_ & _ & _ & Hk).
  eapply wp_mono; [|by eapply wp_Redact]. intros r m' (Hd' & Hfr & Hsafe & Hr).
  split_and!; [done|done|done| |].
  - destruct r as [er|]; [done|]. destruct Hr as [Hnone Hmark]. split.
    + eapply wp_mono; [|by apply wp_Redacted]. intros [b|er] m'' [-> H]; split; try done.
      by rewrite bool_decide_true in H by done.
    + rewrite Hk in *. eapply wp_mono; [|by apply (wp_ReadGroup_redacted p Hcut false)].
      intros [d|er] m'' [-> H]; [done|]. split; [done|]. by destruct H as [->|].
  - intros a Ha. eapply wp_mono; [|by eapply (wp_ReadGroup_committed p e m' root gs false a)].
    intros [d|er] m'' [-> H]; split; try done. by destruct H as [|].
Qed.

Lemma Redact_takes_payload_witness :
  wp (op_spec true) (Redact cam_track cam_row) (λ r m',
    durable cam 1 m' cam_root [cam_row] ∧
    (r = None → wp (op_spec false) (ReadGroup (ObjectKey cam_row))
      (λ res m'', m'' = m' ∧ res = Err [ErrGroupRedacted]) m')) cam_objs.
Proof.
  eapply wp_mono; [|apply (Redact_takes_payload true cam 1 cam_objs cam_root [cam_row] cam_track cam_row)].
  - intros r m' (Hd & _ & _ & Hr & _). split; [exact Hd|]. intros ->. apply Hr.
  - apply cam_params.
  - by vm_compute.
  - apply cam_durable.
  - apply list_elem_of_singleton. reflexivity.
  - reflexivity.
Defined.
