(* ===== verification/Ends.v ===== *)
(** * Reading ends (ledger/writer.go, ledger/reader.go and ledger/before.go)

    The loops of the ledger that only read are not bounded by a counter: they follow
    what is stored. Here nothing is assumed of what that is, corrupt manifests
    included, and any call may fail. *)

From S2P Require Import Prelude GoStd Json Store Group Manifest Decode Track Writer Redact Reader.
From S2P Require Import EpochLog Isolation ReaderLog Fixtures ReaderProps.
#[local] Open Scope string_scope.

Lemma deltaKey_inj p e n n' : is_u64 n → is_u64 n' → deltaKey p e n = deltaKey p e n' → n = n'.
Proof.
  unfold deltaKey. intros Hn Hn' H. do 5 apply string_app_inj_l in H.
  by apply pad_delim_inj in H as [? _].
Qed.

Lemma u64_add_inj n a b : is_u64 a → is_u64 b → u64 (n + a) = u64 (n + b) → a = b.
Proof.
  unfold is_u64, u64. intros Ha Hb H.
  assert (two64 ≠ 0)%N as H0 by done.
  pose proof (N.div_mod (n + a) two64 H0). pose proof (N.div_mod (n + b) two64 H0). rewrite H in *.
  assert ((n + a) / two64 = (n + b) / two64)%N; nia.
Qed.

Lemma u64_next n i : u64 (u64 (n + N.of_nat i) + 1) = u64 (n + N.of_nat (S i)).
Proof.
  unfold u64. rewrite N.Div0.add_mod_idemp_l. f_equal. lia.
Qed.

Section Ends.
Context (m : objs) (Hsize : (N.of_nat (size m) < two64)%N).

(** [p] ends having changed nothing, and answers a [Q]. *)
Definition ends {A} (p : prog A) (Q : A → Prop) : Prop :=
  wp (op_spec true) p (λ a m', m' = m ∧ Q a) m.

Lemma ends_ret {A} (a : A) (Q : A → Prop) : Q a → ends (mret a) Q.
Proof using. by split. Qed.

Lemma ends_bind {A B} (p : prog A) (f : A → prog B) (P : A → Prop) (Q : B → Prop) :
  ends p P → (∀ a, P a → ends (f a) Q) → ends (p ≫= f) Q.
Proof using.
  intros Hp Hf. apply wp_bind. eapply wp_mono; [|exact Hp]. intros a m' [-> Ha]. by apply Hf.
Qed.

Lemma ends_mono {A} (p : prog A) (P Q : A → Prop) : (∀ a, P a → Q a) → ends p P → ends p Q.
Proof using. intros HPQ. apply wp_mono. intros a m' [-> Ha]. auto. Qed.

Lemma ends_Get {B} k (f : result (bytes * Version) → prog B) (Q : B → Prop) :
  (∀ d v, m !! k = Some (d, v) → ends (f (Ok (d, v))) Q) → (∀ e, ends (f (Err e)) Q) →
  ends (store_Get k ≫= f) Q.
Proof using. intros HOk HErr. apply wp_bind, wp_Get; [exact HOk|intros; apply HErr..]. Qed.

(** ** As many deltas as there are objects *)

(** Deltas that are stored. *)
Definition seen (p : TrackPath) (e : N) (l : list N) : Prop :=
  NoDup l ∧ Forall (λ n, is_u64 n ∧ is_Some (m !! deltaKey p e n)) l.

Lemma seen_bound p e l : seen p e l → length l <= size m.
Proof using.
  intros [Hnd Hl]. rewrite <-size_dom. rewrite <-(length_fmap (deltaKey p e)).
  rewrite Forall_forall in Hl.
  rewrite <-(size_list_to_set (C := gset string) (deltaKey p e <$> l)).
  - apply subseteq_size. intros k [n [-> Hn]]%elem_of_list_to_set%list_elem_of_fmap.
    apply elem_of_dom, Hl, Hn.
  - apply NoDup_fmap_2_strong; [|done]. intros n n' Hn Hn'. apply deltaKey_inj; by apply Hl.
Qed.

(** The deltas from [n] on, as a probe meets them. *)
Definition upwards (n : N) (i : nat) : list N := (λ j, u64 (n + N.of_nat j)) <$> seq 0 i.

Definition probed (p : TrackPath) (e n : N) (i : nat) : Prop :=
  Forall (λ n, is_Some (m !! deltaKey p e n)) (upwards n i).

Lemma probed_S p e n i :
  probed p e n i → is_Some (m !! deltaKey p e (u64 (n + N.of_nat i))) → probed p e n (S i).
Proof using.
  intros Hp Hi. unfold probed, upwards. rewrite seq_S, fmap_app, Forall_app. split; [done|].
  by apply Forall_singleton.
Qed.

Lemma probed_bound p e n i : probed p e n i → i <= size m.
Proof using Hsize.
  intros Hp. destruct (Nat.le_gt_cases i (size m)) as [|Hi]; [done|]. exfalso.
  assert (seen p e (upwards n (S (size m)))) as Hseen.
  { split.
    - apply NoDup_fmap_2_strong; [|apply NoDup_seq].
      intros a b Ha%elem_of_seq Hb%elem_of_seq Hab. apply u64_add_inj in Hab; unfold is_u64; lia.
    - unfold probed in Hp. rewrite Forall_forall in *. intros k Hk. split.
      + apply list_elem_of_fmap in Hk as (j & -> & _). apply u64_is_u64.
      + apply Hp. unfold upwards in *. apply list_elem_of_fmap in Hk as (j & -> & Hj%elem_of_seq).
        apply list_elem_of_fmap. exists j. split; [done|]. apply elem_of_seq. lia. }
  apply seen_bound in Hseen. unfold upwards in Hseen. rewrite length_fmap, length_seq in Hseen. lia.
Qed.

(** ** Opening a writer *)

Lemma recover_delta_fields w delta data :
  w_path (recover_delta w delta data) = w_path w ∧ w_epoch (recover_delta w delta data) = w_epoch w.
Proof using. unfold recover_delta. by destruct (list.last _). Qed.

Lemma recover_loop_ends from n fuel : ∀ i w,
  probed (w_path w) (w_epoch w) n i → size m < i + fuel →
  ends (recover_loop fuel from (u64 (n + N.of_nat i)) w) any.
Proof using Hsize.
  induction fuel as [|fuel IH]; intros i w Hp Hf; [apply probed_bound in Hp; lia|].
  cbn [recover_loop]. apply ends_Get; [|intros e; by apply ends_ret].
  intros d v Hd. destruct (decodeManifest d) as [delta|e]; [|by apply ends_ret].
  rewrite u64_next. destruct (recover_delta_fields w delta d) as [Hpath He].
  apply IH; [|lia]. rewrite Hpath, He. apply probed_S; [done|eauto].
Qed.

Lemma recover_ends fuel w :
  is_u64 (OpenFrom (logRoot w)) → size m < fuel → ends (recover fuel w) any.
Proof using Hsize.
  intros Hu Hf. unfold recover, fetchHead.
  assert (∀ from w', w_path w' = w_path w → w_epoch w' = w_epoch w → logRoot w' = logRoot w →
    ends (r ← recover_loop fuel from (OpenFrom (logRoot w')) w';
          let '(w0, err) := r in
          mret match err with Some e => (w0, Some e) | None => (recover_last w0, None) end) any) as Hloop.
  { intros from w' Hp He Hr. apply (ends_bind _ _ any).
    - rewrite Hr, <-(u64_small (OpenFrom (logRoot w))), <-(N.add_0_r (OpenFrom (logRoot w))) by done.
      apply (recover_loop_ends from (OpenFrom (logRoot w)) fuel 0); [by constructor|lia].
    - intros [w0 [e|]] _; by apply ends_ret. }
  apply (ends_bind _ _ any).
  - apply ends_Get; [|intros e; by apply ends_ret]. intros d v _.
    destruct (decodeManifest d); by apply ends_ret.
  - intros [[h v]|e] _; [by apply Hloop|]. destruct (errors_Is e ErrNotExist); [by apply Hloop|by apply ends_ret].
Qed.

Lemma fetchEpochLog_ends p e :
  ends (fetchEpochLog p e) (λ r, match r with
    | Ok (root, v) => wf_manifest root ∧ el_Epoch root = e ∧
        ∃ d, m !! epochLogKey p e = Some (d, v) ∧ decodeManifest d = Ok root
    | Err _ => True
    end).
Proof using.
  unfold fetchEpochLog. apply ends_Get; [|intros er; apply ends_ret; by destruct (errors_Is er ErrNotExist)].
  intros d v Hd. destruct (decodeManifest d) as [root|] eqn:E; [|by apply ends_ret].
  destruct (negb (String.eqb (el_Track root) p)); [by apply ends_ret|].
  destruct (N.eqb_spec (el_Epoch root) e); [|by apply ends_ret]. apply ends_ret.
  split; [by apply (decode_typed _ _ E)|]. split; [done|]. eauto.
Qed.

Lemma wf_OpenFrom (root : epochLogRoot) : wf_manifest root → is_u64 (OpenFrom root).
Proof using. by intros (_ & _ & _ & _ & ? & _). Qed.

(** ** The bounded queries of a reader *)

Lemma delta_ends p e n : ends (delta p e n) (λ r, match r with
  | Ok _ => is_Some (m !! deltaKey p e n) | Err _ => True end).
Proof using.
  unfold delta. apply ends_Get; [|intros er; apply ends_ret; by destruct (errors_Is er ErrNotExist)].
  intros d v Hd. apply ends_ret. destruct (decodeManifest d); [eauto|done].
Qed.

Lemma sealed_ends p e ref : ends (sealed p e ref) any.
Proof using.
  unfold sealed. apply ends_Get; [|intros er; by apply ends_ret]. intros d v _. by apply ends_ret.
Qed.

Lemma forOpen_from {S} p e n body fuel : ∀ i (s : S),
  probed p e n i → size m < i + fuel → ends (forOpen fuel p e (u64 (n + N.of_nat i)) body s) any.
Proof using Hsize.
  induction fuel as [|fuel IH]; intros i s Hp Hf; [apply probed_bound in Hp; lia|].
  cbn [forOpen]. eapply ends_bind; [apply delta_ends|]. intros [d|er] Hd; [|by apply ends_ret].
  destruct (body _ _ s) as [s' [|]]; [|by apply ends_ret].
  rewrite u64_next. apply IH; [by apply probed_S|lia].
Qed.

Lemma forOpen_ends {S} fuel p e n body (s : S) :
  is_u64 n → size m < fuel → ends (forOpen fuel p e n body s) any.
Proof using Hsize.
  intros Hn Hf. rewrite <-(u64_small n), <-(N.add_0_r n) by done.
  apply (forOpen_from p e n body fuel 0); [by constructor|lia].
Qed.

Lemma forSealed_ends {S} p e include body refs : ∀ s : S, ends (forSealed p e refs include body s) any.
Proof using.
  induction refs as [|ref refs IH]; intros s; cbn [forSealed]; [by apply ends_ret|].
  destruct (negb (include ref s)); [apply IH|].
  eapply ends_bind; [apply sealed_ends|]. intros [sm|er] _; [|by apply ends_ret].
  destruct (body ref (s_Groups sm) s) as [s' [|]]; [apply IH|by apply ends_ret].
Qed.

Tactic Notation "bind_ends" uconstr(H) := eapply ends_bind; [eapply H|].

Lemma lastDelta_loop_from p e n k : ∀ i last,
  is_u64 last → probed p e n i → size m < i + k →
  ends (lastDelta_loop k p e last (u64 (n + N.of_nat i))) (λ r, match r with Ok last => is_u64 last | Err _ => True end).
Proof using Hsize.
  induction k as [|k IH]; intros i last Hl Hp Hf; [apply probed_bound in Hp; lia|].
  cbn [lastDelta_loop]. apply ends_Get; [|intros er; apply ends_ret; by destruct (errors_Is er ErrNotExist)].
  intros d v Hd. rewrite u64_next. apply IH; [apply u64_is_u64|apply probed_S; eauto|lia].
Qed.

Lemma before_deltas_ends p e openFrom id n k : ∀ d l groups,
  is_u64 d → seen p e l → Forall (λ x, d < x)%N l → size m < length l + k →
  ends (before_deltas k p e openFrom d id n groups) any.
Proof using Hsize.
  induction k as [|k IH]; intros d l groups Hd Hs Hl Hf; [apply seen_bound in Hs; lia|].
  cbn [before_deltas]. destruct (_ && _)%bool; [|by apply ends_ret].
  bind_ends delta_ends. intros [dm|er] Hdm; [|by apply ends_ret].
  destruct (take id n (rev (d_Groups dm)) groups) as [groups' [|]]; [by apply ends_ret|].
  assert (seen p e (d :: l)) as Hs'.
  { destruct Hs as [Hnd Hall]. split; [|by constructor]. constructor; [|done]. intros Hin.
    rewrite Forall_forall in Hl. specialize (Hl _ Hin). lia. }
  destruct (decide (d = 0%N)) as [->|Hd0].
  - destruct k as [|k]; [apply seen_bound in Hs'; simpl in Hs'; lia|].
    cbn [before_deltas]. change (u64_sub 0 1 =? noDelta)%N with true. rewrite andb_false_r. by apply ends_ret.
  - assert (u64_sub d 1 = d - 1)%N as -> by (apply u64_sub_small; [done|lia]).
    apply (IH _ (d :: l)); [unfold is_u64 in *; lia|done| |simpl; lia].
    constructor; [lia|]. eapply Forall_impl; [exact Hl|]. cbn. intros. lia.
Qed.

Context (fuel : nat) (Hfuel : size m < fuel).

Lemma Lookup_ends r id : ends (Lookup fuel r id) any.
Proof using Hsize Hfuel.
  unfold Lookup. destruct (_ || _)%bool; [by apply ends_ret|].
  bind_ends fetchEpochLog_ends. intros [[root v]|er] Hroot; [|by apply ends_ret].
  bind_ends forOpen_ends; [by apply wf_OpenFrom, Hroot|done|].
  intros [[g|] [n| |er]] _; try by apply ends_ret.
  all: bind_ends forSealed_ends; intros [[g'|] [n'| |er']] _; by apply ends_ret.
Qed.

Lemma walk_ends {S} r include yield n : ∀ epoch (s : S), ends (walk_epochs fuel r include yield n epoch s) any.
Proof using Hsize Hfuel.
  induction n as [|n IH]; intros epoch s; cbn [walk_epochs]; [by apply ends_ret|].
  bind_ends fetchEpochLog_ends. intros [[root v]|er] Hroot; [|by apply ends_ret].
  bind_ends forSealed_ends. intros [s' [k| |er]] _; try by apply ends_ret.
  bind_ends forOpen_ends; [by apply wf_OpenFrom, Hroot|done|].
  intros [s2 [k2| |er]] _; [apply IH|by apply ends_ret..].
Qed.

Lemma loadEpoch_ends r e : ends (loadEpoch r e) (λ a, match a.2 with
  | None => wf_manifest (r_logRoot a.1) ∧ r_epoch a.1 = e ∧ r_path a.1 = r_path r ∧ latest a.1 = latest r ∧
      next a.1 = 0%N ∧ ∃ d v, m !! epochLogKey (r_path r) e = Some (d, v) ∧ decodeManifest d = Ok (r_logRoot a.1)
  | Some _ => True
  end).
Proof using.
  unfold loadEpoch. bind_ends fetchEpochLog_ends.
  intros [[root v]|er] Hroot; apply ends_ret; [|done]. destruct Hroot as (? & ? & d & ? & ?).
  cbn [fst snd]. split; [done|]. do 4 (split; [done|]). by exists d, v.
Qed.

Lemma SeekAfter_ends r id : ends (SeekAfter fuel r id) any.
Proof using Hsize Hfuel.
  unfold SeekAfter. destruct (id =? 0)%N; [by apply ends_ret|].
  bind_ends loadEpoch_ends. intros [r' [er|]] Hr; [by apply ends_ret|]. cbn in Hr. destruct Hr as [Hwf _].
  apply (ends_bind _ _ any); [|intros [[[seg i] after]|er] _; by apply ends_ret].
  unfold locateAfter. bind_ends forSealed_ends. intros [[found|] [n| |er]] _; try by apply ends_ret.
  all: bind_ends forOpen_ends; [by apply wf_OpenFrom|done|];
    intros [[found'|] [n'| |er']] _; by apply ends_ret.
Qed.

Lemma seekTime_ends r target anchor stop start : ends (seekTime fuel r target anchor stop start) any.
Proof using Hsize Hfuel.
  unfold seekTime. induction (N.to_nat (latest r)) as [|n IH]; cbn [seekTime_epochs]; [by apply ends_ret|].
  bind_ends fetchEpochLog_ends. intros [[root v]|er] Hroot; [|by apply ends_ret].
  apply (ends_bind _ _ any).
  - unfold seekWithinEpoch. bind_ends forOpen_ends; [by apply wf_OpenFrom, Hroot|done|].
    intros [best [n'| |er]] _; try by apply ends_ret.
    all: bind_ends forSealed_ends; intros [best' [k| |er']] _; by apply ends_ret.
  - intros [[best|]|er] _; [by apply ends_ret|apply IH|by apply ends_ret].
Qed.
Lemma lastDelta_ends p e openFrom :
  is_u64 openFrom → ends (lastDelta fuel p e openFrom) (λ r, match r with Ok last => is_u64 last | Err _ => True end).
Proof using Hsize Hfuel.
  intros Ho. unfold lastDelta, fetchHead.
  assert (∀ last, is_u64 last →
    ends (lastDelta_loop fuel p e last (if (last =? noDelta)%N then openFrom else u64 (last + 1)))
      (λ r, match r with Ok last => is_u64 last | Err _ => True end)) as Hprobe.
  { intros last Hl. set (n := if (last =? noDelta)%N then openFrom else u64 (last + 1)).
    assert (is_u64 n) as Hn by (unfold n; destruct (last =? noDelta)%N; [done|apply u64_is_u64]).
    rewrite <-(u64_small n), <-(N.add_0_r n) by done.
    apply (lastDelta_loop_from p e n fuel 0); [done|by constructor|lia]. }
  apply (ends_bind _ _ (λ r, match r with Ok (h, _) => is_u64 (Delta h) | Err _ => True end)).
  - apply ends_Get; [|intros er; by apply ends_ret]. intros d v _.
    destruct (decodeManifest d) as [h|] eqn:E; apply ends_ret; [|done].
    apply decode_typed in E as (Hwf & _). by destruct Hwf as (_ & ? & _).
  - intros [[h v]|er] Hh.
    + apply Hprobe. by destruct (openFrom <=? Delta h)%N.
    + destruct (errors_Is er ErrNotExist); [by apply Hprobe|by apply ends_ret].
Qed.

Lemma beforeIn_ends r e id n groups : ends (beforeIn fuel r e id n groups) any.
Proof using Hsize Hfuel.
  unfold beforeIn. bind_ends fetchEpochLog_ends. intros [[root v]|er] Hroot; [|by apply ends_ret].
  bind_ends lastDelta_ends; [by apply wf_OpenFrom, Hroot|]. intros [last|er] Hl; [|by apply ends_ret].
  apply (ends_bind _ _ any).
  - apply (before_deltas_ends _ _ _ _ _ _ _ []); [done|by split; constructor|done|done].
  - intros [gs [| | |er]] _; try by apply ends_ret.
    bind_ends forSealed_ends. intros [gs' [k| |er]] _; by apply ends_ret.
Qed.

Lemma before_attempts_ends r e id n start left : ends (before_attempts fuel r e id n start left) any.
Proof using Hsize Hfuel.
  induction left as [|left IH]; cbn [before_attempts]; bind_ends beforeIn_ends;
    intros [gs [| | |er]] _; by apply ends_ret.
Qed.

Lemma Before_ends r id n : ends (Before fuel r id n) any.
Proof using Hsize Hfuel.
  unfold Before. destruct (n <=? 0)%Z; [by apply ends_ret|]. generalize (@nil GroupInfo).
  induction (N.to_nat (if (negb (id =? 0) && (Epoch id <? latest r))%N then Epoch id else latest r)) as [|k IH];
    intros gs; cbn [before_epochs]; [by apply ends_ret|].
  bind_ends before_attempts_ends. intros [gs' [| | |er]] _; by apply ends_ret || apply IH.
Qed.
(** ** Streaming

    [Next] steps over manifests that hold no group, so what bounds it is their
    number. *)

(** No run ends at the delta number past which the counter is 0 again. *)
Definition runs_end (root : epochLogRoot) : Prop := Forall (λ ref, (LastDelta ref < noDelta)%N) (Sealed root).

(** The same of the log root stored of every epoch to [lat], and no such delta is. *)
Definition deltas_end (p : TrackPath) (lat : N) : Prop := ∀ e, (1 <= e <= lat)%N →
  m !! deltaKey p e noDelta = None ∧
  ∀ d v root, m !! epochLogKey p e = Some (d, v) → decodeManifest d = Ok root → runs_end root.

Definition epoch_steps (root : epochLogRoot) : nat := length (Sealed root) + size m + 3.

(** The steps in the [n] epochs from [e] on. *)
Fixpoint steps_from (p : TrackPath) (e : N) (n : nat) : nat :=
  match n with
  | O => 0
  | S n' =>
      match m !! epochLogKey p e with
      | Some (d, _) => match decodeManifest d with Ok root => epoch_steps root | Err _ => 0 end
      | None => 0
      end + steps_from p (e + 1) n'
  end.

Definition Next_steps (r : Reader) : nat :=
  epoch_steps (r_logRoot r) + steps_from (r_path r) (r_epoch r + 1) (N.to_nat (latest r - r_epoch r)).
End Ends.

Lemma sealedCovering_ahead refs d ref :
  sealedCovering_in refs d = Some ref → ref ∈ refs ∧ (d <= LastDelta ref)%N.
Proof.
  induction refs as [|x refs IH]; cbn; [done|].
  destruct ((FirstDelta x <=? d) && (d <=? LastDelta x))%N eqn:E.
  - intros [= <-]. apply andb_true_iff in E as [_ ?%N.leb_le]. split; [by left|done].
  - intros [? ?]%IH. split; [by right|done].
Qed.

(** The runs not stepped over. *)
Definition ahead (n : N) (refs : list sealedRef) : list sealedRef := filter (λ ref, n <= LastDelta ref)%N refs.

Lemma ahead_shrinks refs ref n :
  ref ∈ refs → (n <= LastDelta ref)%N → length (ahead (LastDelta ref + 1) refs) < length (ahead n refs).
Proof.
  intros Hin Hn. unfold ahead.
  assert (∀ l, length (filter (λ r, (LastDelta ref + 1 <= LastDelta r)%N) l) <=
    length (filter (λ r, (n <= LastDelta r)%N) l)) as Hle.
  { induction l as [|x l IH]; [done|]. rewrite !filter_cons. repeat case_decide; cbn; lia. }
  apply list_elem_of_split in Hin as (l1 & l2 & ->).
  rewrite !filter_app, !length_app, !filter_cons, decide_False, decide_True by lia.
  pose proof (Hle l1). pose proof (Hle l2). cbn. lia.
Qed.

Section Next.
Context (m : objs) (Hsize : (N.of_nat (size m) < two64)%N) (p : TrackPath).

#[local] Abbreviation ends := (ends m).

(** A reader at an epoch's log root, with [rest] steps for the epochs after it. *)
Record placed (e lat : N) (root : epochLogRoot) (r : Reader) : Prop := {
  pl_path : r_path r = p;
  pl_epoch : r_epoch r = e;
  pl_latest : latest r = lat;
  pl_log : r_logRoot r = root;
}.

Context (e lat : N) (root : epochLogRoot) (rest : nat).
Context (Hend : deltas_end m p lat) (He : (1 <= e <= lat)%N).
Context (Hopen : is_u64 (OpenFrom root)) (Hruns : runs_end root).
Context (Hlater : ∀ r fuel, (r_epoch r < lat)%N → r_path r = p → latest r = lat → r_epoch r = e →
  rest <= fuel → ends (got ← loadEpoch r (u64 (e + 1));
    let '(r, err) := got in
    match err with Some er => mret (r, Err er) | None => Next fuel r end) any).

(** In the open region, [i] deltas past [n]. *)
Lemma Next_open n fuel : ∀ i r,
  placed e lat root r → (OpenFrom root <= n)%N → next r = (n + N.of_nat i)%N → is_u64 (next r) →
  probed m p e n i → size m + 1 + rest <= i + fuel → ends (Next fuel r) any.
Proof using Hsize Hend He Hlater Hopen.
  induction fuel as [|fuel IH]; intros i r Hr Hn Hi Hu Hp Hf; [apply probed_bound in Hp; [lia|done]|].
  pose proof Hr as [Hpath Hepoch Hlat Hlog].
  cbn [Next]. destruct (batch r !! idx r) as [g|]; [by apply ends_ret|].
  rewrite Hlog, (proj2 (N.ltb_ge _ _)) by lia.
  eapply ends_bind; [apply delta_ends|]. rewrite Hpath, Hepoch. intros [d|er] Hd.
  - assert (next r ≠ noDelta) as Hlast.
    { intros E. rewrite E in Hd. destruct (Hend e He) as [Hnone _]. rewrite Hnone in Hd. by destruct Hd. }
    assert (u64 (next r + 1) = next r + 1)%N as Hnext.
    { apply u64_small. unfold is_u64, noDelta, two64 in *. lia. }
    rewrite Hnext. apply (IH (S i)); [by constructor|done|cbn; lia| |apply probed_S; [done|]|lia].
    + cbn. unfold is_u64, noDelta, two64 in *. lia.
    + rewrite <-Hi, u64_small by done. done.
  - destruct (errors_Is er ErrNotCommitted); [|by apply ends_ret].
    rewrite Hlat. destruct (N.ltb_spec e lat).
    + apply Hlater; [by rewrite Hepoch|done..|]. apply probed_bound in Hp; [lia|done].
    + destruct (_ || _)%bool; [|by apply ends_ret].
      apply (ends_bind _ _ _ any).
      * unfold Refresh, fetchTrackRoot. apply (ends_bind _ _ _ any).
        { apply ends_Get; [|intros er'; by apply ends_ret]. intros d v _. by apply ends_ret. }
        intros [[tr v]|er'] _; [|by apply ends_ret]. eapply ends_bind; [apply fetchEpochLog_ends|].
        intros a _. by apply ends_ret.
      * intros [r' err] _. by apply ends_ret.
Qed.

Lemma Next_placed fuel : ∀ r,
  placed e lat root r → is_u64 (next r) →
  length (ahead (next r) (Sealed root)) + size m + 2 + rest <= fuel → ends (Next fuel r) any.
Proof using Hsize Hend He Hlater Hopen Hruns.
  induction fuel as [|fuel IH]; intros r Hr Hu Hf; [lia|].
  destruct (N.ltb_spec (next r) (OpenFrom root)) as [Hlt|Hge].
  2: { apply (Next_open (next r) _ 0); [done|done|lia|done|by constructor|lia]. }
  pose proof Hr as [Hpath Hepoch Hlat Hlog].
  cbn [Next]. destruct (batch r !! idx r) as [g|]; [by apply ends_ret|].
  rewrite Hlog, (proj2 (N.ltb_lt _ _) Hlt).
  destruct (sealedCovering root (next r)) as [ref|] eqn:Ecov.
  - apply sealedCovering_ahead in Ecov as [Hin Hn].
    eapply ends_bind; [apply sealed_ends|]. intros [sm|er] _; [|by apply ends_ret].
    assert (LastDelta ref < noDelta)%N as Hlast by (by eapply Forall_forall in Hruns).
    assert (u64 (LastDelta ref + 1) = LastDelta ref + 1)%N as Hnext.
    { apply u64_small. unfold is_u64, noDelta, two64 in *. lia. }
    rewrite Hnext. pose proof (ahead_shrinks _ _ _ Hin Hn).
    apply IH; [by constructor|cbn; unfold is_u64, noDelta, two64 in *; lia|cbn; lia].
  - apply (Next_open (OpenFrom root) _ 0); [by constructor|done|cbn; lia|done|by constructor|lia].
Qed.
End Next.

Section Ahead.
Context (m : objs) (Hsize : (N.of_nat (size m) < two64)%N) (p : TrackPath).

(** Every epoch is walked as the next one is when it is left. *)
Lemma Next_ahead n : ∀ e lat root r fuel,
  deltas_end m p lat → (1 <= e <= lat)%N → N.to_nat (lat - e) = n → is_u64 lat → placed p e lat root r →
  is_u64 (OpenFrom root) → runs_end root →
  is_u64 (next r) → epoch_steps m root + steps_from m p (e + 1) n <= fuel → ends m (Next fuel r) any.
Proof using Hsize.
  induction n as [|n IH]; intros e lat root r fuel Hend He Hn Hlat Hr Ho Hruns Hu Hf.
  all: assert (length (ahead (next r) (Sealed root)) <= length (Sealed root)) as Hahead by apply length_filter.
  all: unfold epoch_steps in Hf.
  - apply (Next_placed m Hsize p e lat root 0); try done; [|cbn in Hf; lia].
    intros r' fuel' Hlt Hp Hl He' _. lia.
  - apply (Next_placed m Hsize p e lat root (steps_from m p (e + 1) (S n))); try done; [|lia].
    intros r' fuel' Hlt Hp Hl He' Hrest.
    assert (u64 (e + 1) = e + 1)%N as -> by (apply u64_small; unfold is_u64 in *; lia).
    eapply ends_bind; [apply loadEpoch_ends|]. intros [r1 [er|]] H; [by apply ends_ret|].
    cbn [fst snd] in H. destruct H as (Hwf & He1 & Hp1 & Hl1 & Hn1 & d & v & Hd & Hdec). rewrite Hp in *.
    cbn [steps_from] in Hrest. rewrite Hd, Hdec in Hrest.
    apply (IH (e + 1)%N lat (r_logRoot r1)); [done|lia|lia|done|by constructor; congruence|by apply wf_OpenFrom
      |by eapply (proj2 (Hend (e + 1)%N ltac:(lia)))|by rewrite Hn1|lia].
Qed.

End Ahead.

(** A well-formed track has no use for the last delta number. *)
Lemma track_deltas_end m p tr logs : track_view p m tr logs → deltas_end m p (LatestEpoch tr).
Proof.
  intros [_ _ Hlat Hlogs _] e He. rewrite Hlat in He.
  destruct (lookup_lt_is_Some_2 logs (N.to_nat (e - 1))) as [[root gs] Hi]; [lia|].
  specialize (Hlogs _ _ _ Hi). replace (1 + N.of_nat (N.to_nat (e - 1)))%N with e in Hlogs by lia.
  pose proof (log_room _ _ _ _ _ Hlogs) as Hroom. split.
  - destruct (m !! deltaKey p e noDelta) as [o|] eqn:E; [|done].
    destruct (log_delta _ _ _ _ _ Hlogs noDelta o) as (g & d & Hg & _); [done..|].
    apply lookup_lt_Some in Hg. unfold room, log_size, noDelta in *. lia.
  - intros d v root' Hd Hdec. destruct (log_root _ _ _ _ _ Hlogs) as ([d0 v0] & Ho & Hm).
    rewrite Ho in Hd. injection Hd as -> ->. unfold holds_manifest in Hm. cbn in Hm. rewrite Hdec in Hm.
    injection Hm as ->. pose proof (log_root_ok _ _ _ _ _ Hlogs) as [_ _ _ _ Hr Hle _].
    apply Forall_forall. intros ref Hin.
    eapply runs_elem in Hin as (a & b & ? & ? & ->); [|done].
    destruct (run_ref_fields p e a b gs) as (_ & _ & ->). unfold room, log_size, noDelta in *. lia.
Qed.

(** ** Opening a writer, the completion of a half-made epoch included *)

Lemma size_frame (m m' : objs) (l : list string) :
  (∀ k, k ∉ l → m' !! k = m !! k) → size m' <= size m + length l.
Proof.
  intros H. rewrite <-!size_dom.
  assert (dom m' ⊆ dom m ∪ list_to_set (C := gset string) l) as Hsub.
  { intros k Hk. rewrite elem_of_union, elem_of_list_to_set. destruct (decide (k ∈ l)); [by right|].
    left. rewrite elem_of_dom, <-H by done. by apply elem_of_dom. }
  apply subseteq_size in Hsub. rewrite size_union_alt in Hsub.
  pose proof (subseteq_size (list_to_set (C := gset string) l ∖ dom m) (list_to_set l) ltac:(set_solver)).
  assert (size (list_to_set (C := gset string) l) <= length l); [|lia].
  clear. induction l as [|k l IH]; [done|]. cbn. rewrite size_union_alt, size_singleton.
  pose proof (subseteq_size (list_to_set (C := gset string) l ∖ {[k]}) (list_to_set l) ltac:(set_solver)). lia.
Qed.

(** A program of finitely many calls ends. *)
Ltac straight := repeat first
  [ done
  | match goal with
    | |- wp _ (_ ≫= _) _ _ => apply wp_bind
    | |- wp _ (mret _) _ _ => cbn [wp mret prog_ret]
    | |- wp _ (store_Get _) _ _ => intros ? ? ?
    | |- wp _ (store_Swap _ _ _) _ _ => intros ? ? ?
    | |- wp _ (store_Create _ _) _ _ => intros ? ? ?
    | |- wp _ now _ _ => intros ? ? ?
    | |- context [match ?x with _ => _ end] => destruct x
    end; cbn [wp] ].

Lemma createEpochLog_total t e m : wp (op_spec true) (createEpochLog t e) (λ _ _, True) m.
Proof.
  assert (∀ m', wp (op_spec true) (advanceTrackRootLocked t e) (λ _ _, True) m') as Hadv.
  { intros m'. unfold advanceTrackRootLocked, bump, fetchTrackRoot. straight. }
  unfold createEpochLog. apply wp_bind. intros c m0 _. apply wp_bind.
  intros [v|er] m1 _; [apply Hadv|]. destruct (errors_Is er ErrExist) eqn:E; cbn [wp]; rewrite E; [apply Hadv|done].
Qed.

Lemma writes_createEpochLog t e :
  writes (λ k, k ∈ [epochLogKey (t_path t) e; rootKey (t_path t)]) (λ r, t_path r.1 = t_path t) (createEpochLog t e).
Proof.
  assert (writes (λ k, k ∈ [epochLogKey (t_path t) e; rootKey (t_path t)]) (λ r, t_path r.1 = t_path t)
    (advanceTrackRootLocked t e)) as Hadv.
  { unfold advanceTrackRootLocked. destruct (e <=? LatestEpoch (t_root t))%N; [done|].
    assert (∀ base v, writes (λ k, k ∈ [epochLogKey (t_path t) e; rootKey (t_path t)]) any
      (bump (t_path t) e base v)) as Hbump.
    { intros base v. unfold bump. cbn. split; [right; by left|]. intros [|]; done. }
    eapply writes_bind; [apply Hbump|]. intros [[next v]|er] _; [done|].
    destruct (_ || _)%bool; [|done]. eapply (writes_bind _ any); [apply writes_Get|].
    2: { intros [[cur cv]|er'] _; [|done]. destruct (e <=? LatestEpoch cur)%N; [done|].
         eapply writes_bind; [apply Hbump|]. by intros [[n v]|er'] _. }
    done. }
  unfold createEpochLog. eapply (writes_bind _ any); [by apply writes_now|]. intros c _.
  eapply (writes_bind _ any); [apply writes_Create; [by left|done]|]. intros [v|er] _; [done|].
  by destruct (errors_Is er ErrExist).
Qed.

Lemma Track_Writer_ends m fuel t :
  (N.of_nat (size m) + 2 < two64)%N → size m + 2 < fuel → wp (op_spec true) (Track_Writer fuel t) (λ _ _, True) m.
Proof.
  intros Hm Hf.
  assert (∀ m' w, size m' <= size m + 2 → is_u64 (OpenFrom (logRoot w)) →
    wp (op_spec true) (recover fuel w) (λ _ _, True) m') as Hrec.
  { intros m' w Hs Ho. eapply wp_mono; [|apply (recover_ends m'); [lia|done|lia]]. done. }
  unfold Track_Writer. destruct (LatestEpoch (t_root t) =? 0)%N; [done|].
  apply wp_bind. eapply wp_mono; [|apply fetchEpochLog_ends]. intros [[root v]|er] m' [-> Hr].
  - apply wp_bind. eapply wp_mono; [|apply Hrec; [lia|by apply wf_OpenFrom, Hr]]. by intros [w' [e|]] m' _.
  - destruct (errors_Is er ErrEpochNotFound) eqn:E; [|done].
    apply wp_bind. eapply wp_mono; [|apply wp_frame; [apply (writes_createEpochLog t)|apply createEpochLog_total]].
    intros [t' [e|]] m1 (_ & Ht & Hfr); [done|]. cbn in Ht.
    pose proof (size_frame m m1 _ Hfr) as Hs. cbn in Hs.
    apply wp_bind. eapply wp_mono; [|apply fetchEpochLog_ends]. intros [[root v]|er'] m' [-> Hr2]; [|done].
    apply wp_bind. eapply wp_mono; [|apply Hrec; [lia|by apply wf_OpenFrom, Hr2]]. by intros [w' [e|]] m' _.
Qed.

(** * Properties *)

(** C13 Termination: whatever objects a store holds, well-formed or not, and whichever
    of its calls fail, opening a writer and every query of a reader end, within as many
    steps of their probes as there are objects, and a query has changed nothing. [Next]
    ends too, within the runs and deltas of the epochs ahead of it, if no epoch uses the
    last delta number there is, past which the counter starts again; an epoch of a
    well-formed track uses none near it. *)
Theorem reading_ends m fuel :
  (N.of_nat (size m) + 2 < two64)%N → size m + 2 < fuel →
  (∀ t, wp (op_spec true) (Track_Writer fuel t) (λ _ _, True) m) ∧
  (∀ r id, wp (op_spec true) (Lookup fuel r id) (λ _ m', m' = m) m) ∧
  (∀ r from to S yield (s : S), wp (op_spec true) (RangeMedia fuel r from to S yield s) (λ _ m', m' = m) m) ∧
  (∀ r from to S yield (s : S), wp (op_spec true) (RangeWallclock fuel r from to S yield s) (λ _ m', m' = m) m) ∧
  (∀ r id, wp (op_spec true) (SeekAfter fuel r id) (λ _ m', m' = m) m) ∧
  (∀ r at_, wp (op_spec true) (SeekMedia fuel r at_) (λ _ m', m' = m) m) ∧
  (∀ r at_, wp (op_spec true) (SeekWallclock fuel r at_) (λ _ m', m' = m) m) ∧
  (∀ r id n, wp (op_spec true) (Before fuel r id n) (λ _ m', m' = m) m) ∧
  (∀ r, deltas_end m (r_path r) (latest r) → (1 <= r_epoch r <= latest r)%N → is_u64 (latest r) →
     is_u64 (next r) → is_u64 (OpenFrom (r_logRoot r)) → runs_end (r_logRoot r) → Next_steps m r <= fuel →
     wp (op_spec true) (Next fuel r) (λ _ m', m' = m) m) ∧
  (∀ p tr logs, track_view p m tr logs → deltas_end m p (LatestEpoch tr)).
Proof.
  intros Hm Hf. assert (N.of_nat (size m) < two64)%N as Hm' by lia. assert (size m < fuel) as Hf' by lia.
  assert (∀ A (q : prog A) Q, ends m q Q → wp (op_spec true) q (λ _ m', m' = m) m) as Hends.
  { intros A q Q. apply wp_mono. by intros a m' [-> _]. }
  split_and!; intros.
  - by apply Track_Writer_ends.
  - eapply Hends, Lookup_ends; done.
  - unfold RangeMedia. destruct (to <=? from)%Z; [done|]. eapply Hends, walk_ends; done.
  - unfold RangeWallclock. destruct (to <=? from)%Z; [done|]. eapply Hends, walk_ends; done.
  - eapply Hends, SeekAfter_ends; done.
  - eapply Hends, seekTime_ends; done.
  - eapply Hends, seekTime_ends; done.
  - eapply Hends, Before_ends; done.
  - eapply Hends, (Next_ahead m Hm' (r_path r)); done.
  - by eapply track_deltas_end.
Qed.

(** The second delta of the epoch holds no manifest. *)
Definition cam_torn : objs := <[deltaKey cam 1 1 := ("{", "9")]> cam_view.

Lemma cam_torn_end : deltas_end cam_torn cam 1.
Proof.
  intros e He. assert (e = 1%N) as -> by lia. split; [by vm_compute|]. intros d v root Hd Hr.
  assert (cam_torn !! epochLogKey cam 1 = cam_view !! epochLogKey cam 1) as E by by vm_compute.
  rewrite E in Hd. eapply (track_deltas_end cam_view cam); [apply cam_track_view|done|done|done].
Qed.

Lemma reading_ends_witness :
  (∀ t, wp (op_spec true) (Track_Writer 12 t) (λ _ _, True) cam_torn) ∧
  wp (op_spec true) (Lookup 12 cam_reader 0) (λ _ m', m' = cam_torn) cam_torn ∧
  wp (op_spec true) (Next 20 cam_reader) (λ _ m', m' = cam_torn) cam_torn.
Proof.
  destruct (reading_ends cam_torn 12) as (HW & HL & _); [by vm_compute|vm_compute; lia|].
  destruct (reading_ends cam_torn 20) as (_ & _ & _ & _ & _ & _ & _ & _ & HN & _); [by vm_compute|vm_compute; lia|].
  split; [exact HW|]. split; [apply HL|]. apply (HN cam_reader); clear HW HL HN.
  - change (deltas_end cam_torn cam 1). exact cam_torn_end.
  - by vm_compute.
  - by vm_compute.
  - by vm_compute.
  - by vm_compute.
  - apply Forall_nil_2.
  - vm_compute. lia.
Defined.
