(* ===== verification/TrackProps.v ===== *)
(** * Properties of tracks

    What [Create], [Open], [NewEpoch] and the repair in [Track.Writer] do to the
    objects of a whole track, whichever of their store calls fail; and a
    producer's life over all its epochs. *)

From S2P Require Import Prelude GoStd Json Store Group Manifest Track Writer.
From S2P Require Import EpochLog WriterLog Isolation ReaderLog Fixtures WriterProps ReaderProps.

(** ** Producers over the epochs of a track *)

(** A producer process: it takes a writer, begins an epoch of its own if it
    [restart]s, and appends. One that fails before that makes no append. *)
Definition process (fuel : nat) (t : Track) (restart : bool) (calls : list call)
    : prog (list GroupInfo) :=
  r ← Track_Writer fuel t;
  let '(t, r) := r in
  match r with
  | Err _ => mret []
  | Ok w =>
      if restart then
        r ← NewEpoch t w;
        let '(_, w, err) := r in
        match err with Some _ => mret [] | None => session fuel calls w end
      else session fuel calls w
  end.

(** Processes one after the other, each opening the track anew; with the rows they
    reported as committed. *)
Fixpoint history (fuel : nat) (path : TrackPath) (cfg : Config) (ls : list (bool * list call))
    : prog (list GroupInfo) :=
  match ls with
  | [] => mret []
  | (restart, calls) :: ls' =>
      r ← ledger.Open path cfg;
      rows ← match r with Ok t => process fuel t restart calls | Err _ => mret [] end;
      rest ← history fuel path cfg ls';
      mret (rows ++ rest)
  end.

(** The number of appends of a history. *)
Definition appends (ls : list (bool * list call)) : nat := length (concat (map snd ls)).

(** ** Epochs that have not begun *)

(** Epoch [e] has not begun: nothing of it is stored, or only the empty log root
    an interrupted creation left. *)
Definition unused (p : TrackPath) (e : N) (m : objs) : Prop :=
  (∀ k, wf_key k → log_key e k = true → m !! render p k = None) ∨
  ∃ c, durable p e m (newEpochLog p e c) [].

Lemma unused_frame p e m m' :
  log_params p e → (∀ k, wf_key k → log_key e k = true → m' !! render p k = m !! render p k) →
  unused p e m → unused p e m'.
Proof.
  intros Hpar Hf [Hnone|[c [Hlog Hpay]]].
  - left. intros k Hk Hl. rewrite Hf; [by apply Hnone|exact Hk|exact Hl].
  - right. exists c. split; [by eapply epoch_log_frame|].
    constructor; [|done]. intros g Hg. by apply not_elem_of_nil in Hg.
Qed.

(** Every log of the list, and its payloads, outlive a change of other objects. *)
Lemma durable_frame p e m m' root gs :
  log_params p e → (∀ k, wf_key k → key_epoch k = e → k ≠ KRoot → m' !! render p k = m !! render p k) →
  durable p e m root gs → durable p e m' root gs.
Proof.
  intros Hpar Hf [Hlog Hpay]. pose proof (log_rows _ _ _ _ _ Hlog) as Hrows. split.
  - eapply epoch_log_frame; [done| |done]. intros k Hk Hl.
    apply Hf; destruct k; simpl in *; (done || by apply N.eqb_eq in Hl).
  - pose proof (epoch_u64 e (proj2 (lp_epoch _ _ Hpar))).
    eapply (payloads_mono p e); [done|..|done]; intros s; intros;
      [by rewrite (Hf (KGroup e s))|by rewrite (Hf (KRedacted e s))].
Qed.

Section Track.
Context (p : TrackPath) (tr : trackRoot).
Context (Hp : valid_utf8 p = true).
Context (Hwf : wf_manifest tr) (Hver : tr_Version tr = manifestVersion) (Htrack : tr_Track tr = p).

(** The root of the track with [l] as its latest epoch: nothing else of it ever
    changes. *)
Definition at_epoch (l : N) : trackRoot := {| tr with LatestEpoch := l |}.

Lemma epoch_params e : (0 < e <= maxGroupEpoch)%N → log_params p e.
Proof. by split. Qed.

Lemma at_epoch_encodable l :
  (l <= maxGroupEpoch)%N → decodeManifest (encodeManifest (at_epoch l)) = Ok (at_epoch l).
Proof using Hwf Hver.
  intros Hl. apply decode_encode; simpl; [|by rewrite Hver].
  pose proof Hwf as (?&?&?&?&?&?&?&?). split_and!; auto. by apply epoch_u64.
Qed.

(** The track's root names its latest epoch, and every epoch up to it has its
    log; only the first may be missing, on a track whose creation was cut short. *)
Record track_ok (m : objs) (l : N) (logs : list (epochLogRoot * list GroupInfo)) : Prop := {
  tk_root : stored_as m (rootKey p) (at_epoch l);
  tk_latest : l = N.max 1 (N.of_nat (length logs));
  tk_max : (l <= maxGroupEpoch)%N;
  tk_logs i root gs : logs !! i = Some (root, gs) → durable p (1 + N.of_nat i) m root gs;
  tk_unused e : (N.of_nat (length logs) < e <= maxGroupEpoch)%N → unused p e m;
}.

(** A handle on the track, perhaps behind. *)
Definition handle_ok (t : Track) (l : N) : Prop :=
  t_path t = p ∧ ∃ l', t_root t = at_epoch l' ∧ (l' <= l)%N.

(** ** The root object *)

(** From [m], only the root has changed: it is at epoch [l]. *)
Definition root_state (m m' : objs) (l : N) : Prop :=
  stored_as m' (rootKey p) (at_epoch l) ∧
  ∀ k, wf_key k → k ≠ KRoot → m' !! render p k = m !! render p k.

Lemma root_state_insert m m' l e v :
  (e <= maxGroupEpoch)%N → root_state m m' l →
  root_state m (<[rootKey p := (encodeManifest (at_epoch e), v)]> m') e.
Proof using Hwf Hver.
  intros He (_ & Hf). split.
  - eexists. split; [apply lookup_insert_eq|]. by apply at_epoch_encodable.
  - intros k Hk Hne. rewrite (render_insert_ne m' p KRoot); auto. done.
Qed.

Lemma wp_bump fl m m1 l1 e b version :
  (e <= maxGroupEpoch)%N → root_state m m1 l1 →
  wp (op_spec fl) (bump p e (at_epoch b) version) (λ r m', ∃ l2, root_state m m' l2 ∧
    match r with
    | Ok (next, _) => next = at_epoch e ∧ l2 = e
    | Err er => (l2 = l1 ∨ l2 = e) ∧
        (fl = true ∨ m' = m1 ∧ ¬ swap_allowed m1 (rootKey p) version ∧
           errors_Is er ErrVersionMismatch || errors_Is er ErrNotExist = true)
    end) m1.
Proof using Hwf Hver.
  intros He Hs. unfold bump. cbv zeta.
  change {| (at_epoch b) with LatestEpoch := e |} with (at_epoch e).
  apply wp_bind, wp_Swap.
  - intros v Hv _. exists e. split; [by eapply root_state_insert|done].
  - intros er _ Hno Hmm. exists l1. auto 10.
  - intros er v -> _ Hv _. exists e. split; [by eapply root_state_insert|auto].
  - intros er -> _. exists l1. auto.
Qed.

Lemma wp_fetchTrackRoot_at fl m l :
  stored_as m (rootKey p) (at_epoch l) →
  wp (op_spec fl) (fetchTrackRoot p) (λ r m', m' = m ∧
    match r with
    | Ok (t, v) => t = at_epoch l ∧ ∃ d, m !! rootKey p = Some (d, v)
    | Err _ => fl = true
    end) m.
Proof using Htrack.
  intros ([d0 v0] & Ho & Hd). apply wp_bind, wp_Get.
  - intros d v Hd'. rewrite Ho in Hd'. injection Hd' as -> ->. unfold holds_manifest in Hd. simpl in *.
    rewrite Hd. simpl. rewrite Htrack, String.eqb_refl. simpl. eauto.
  - congruence.
  - intros er -> Hb Hne. simpl. by rewrite Hne.
Qed.

(** [advanceTrackRootLocked] from a handle that is not ahead of the root. *)
Lemma wp_advance fl m m1 t l e :
  (l <= e <= maxGroupEpoch)%N → root_state m m1 l → handle_ok t l →
  wp (op_spec fl) (advanceTrackRootLocked t e) (λ r m', ∃ l2, root_state m m' l2 ∧
    (l2 = l ∨ l2 = e) ∧ handle_ok r.1 l2 ∧
    match r.2 with
    | None => l2 = e ∧ t_root r.1 = at_epoch e
    | Some _ => fl = true
    end) m1.
Proof using Hwf Hver Htrack.
  intros [Hle Hmax] Hs (Hpt & l' & Hrt & Hl'). unfold advanceTrackRootLocked. rewrite Hrt.
  cbn [LatestEpoch at_epoch].
  destruct (N.leb_spec e l').
  { assert (l' = e ∧ l = e) as [-> ->] by lia. exists e.
    split_and?; [done|by left|split; [done|exists e; by split]|done]. }
  set (finish := λ (t : Track) (r : result (trackRoot * Version)), match r with
    | Err er => (t, Some er)
    | Ok (next, version) => ({| t with t_root := next; t_rootVersion := version |}, None)
    end : Track * option error).
  assert (∀ v l2, handle_ok (mkTrack p (t_sealThreshold t) (at_epoch l2) v) l2) as Hnew.
  { intros v l2. split; [done|]. exists l2. by split. }
  assert (∀ l2, l2 = l ∨ l2 = e → handle_ok t l2) as Hold.
  { intros l2 Hl2. split; [done|]. exists l'. split; [done|]. lia. }
  rewrite Hpt. cbv zeta. apply wp_bind. eapply wp_mono; [|by eapply wp_bump].
  intros [[nx v]|er] m2 (l2 & Hs2 & Hr).
  { destruct Hr as [-> ->]. exists e. split_and?; [exact Hs2|by right|apply Hnew|done]. }
  destruct Hr as [Hl2 Hr].
  destruct (errors_Is er ErrVersionMismatch || errors_Is er ErrNotExist) eqn:Emm.
  2: { exists l2. split_and?; [exact Hs2|exact Hl2|by apply Hold|].
    destruct Hr as [?|(_ & _ & ?)]; [done|congruence]. }
  apply wp_bind. eapply wp_mono; [|apply wp_fetchTrackRoot_at, Hs2].
  intros [[cur cv]|ger] m3 [-> Hget].
  2: { exists l2. split_and?; [exact Hs2|exact Hl2|by apply Hold|exact Hget]. }
  destruct Hget as (-> & d & Hd). cbv zeta. cbn [LatestEpoch at_epoch].
  destruct (N.leb_spec e l2).
  { assert (l2 = e) as -> by (destruct Hl2; lia). exists e. split_and?; [exact Hs2|by right|apply Hnew|done]. }
  assert (l2 = l) as -> by (destruct Hl2; lia).
  apply wp_bind. eapply wp_mono; [|by eapply wp_bump].
  intros [[nx v]|er2] m4 (l4 & Hs4 & Hr4).
  - destruct Hr4 as [-> ->]. exists e. split_and?; [exact Hs4|by right|apply Hnew|done].
  - destruct Hr4 as [Hl4 Hr4]. exists l4. split_and?; [done|done| |].
    + split; [done|]. exists l. split; [done|]. cbn. lia.
    + destruct Hr4 as [?|(_ & Hno & _)]; [done|]. destruct Hno. unfold swap_allowed. by rewrite Hd.
Qed.

(** ** The log of a new epoch *)

(** [m'] differs from [m] in the root and the log root of epoch [e] only. *)
Definition epoch_frame (e : N) (m m' : objs) : Prop :=
  ∀ k, wf_key k → k ≠ KRoot → k ≠ KLog e → m' !! render p k = m !! render p k.

Lemma wp_create_log fl e m t :
  log_params p e → is_i64 t → unused p e m →
  wp (op_spec fl) (store_Create (epochLogKey p e) (encodeManifest (newEpochLog p e t))) (λ r m',
    (∀ k, wf_key k → k ≠ KLog e → m' !! render p k = m !! render p k) ∧ unused p e m' ∧
    match r with
    | Ok _ => ∃ c, durable p e m' (newEpochLog p e c) []
    | Err er => if errors_Is er ErrExist then ∃ c, durable p e m' (newEpochLog p e c) [] else fl = true
    end) m.
Proof.
  intros Hpar Ht Hun. pose proof (epoch_u64 e (proj2 (lp_epoch _ _ Hpar))) as He.
  assert (∀ v, m !! epochLogKey p e = None →
    let m' := <[epochLogKey p e := (encodeManifest (newEpochLog p e t), v)]> m in
    (∀ k, wf_key k → k ≠ KLog e → m' !! render p k = m !! render p k) ∧
    durable p e m' (newEpochLog p e t) []) as Hnew.
  { intros v Hnone. cbv zeta. split.
    { intros k Hk Hne. apply (render_insert_ne m p (KLog e)); auto. }
    destruct Hun as [Hall|[c [Hlog _]]].
    - eapply durable_new; [done|done|apply lookup_insert_eq|]. intros k Hk Hl Hne.
      rewrite (render_insert_ne m p (KLog e)); auto.
    - destruct (log_root _ _ _ _ _ Hlog) as (o & Ho & _). congruence. }
  apply wp_Create.
  - intros v _ Hnone. destruct (Hnew v Hnone) as [Hf Hd]. split; [exact Hf|].
    split; [right|]; exists t; exact Hd.
  - intros er Hb Hex [o Ho]. rewrite Hex. split; [done|]. split; [done|]. destruct Hun as [Hall|?]; [|done].
    specialize (Hall (KLog e) He (N.eqb_refl e)). change (m !! epochLogKey p e = None) in Hall. congruence.
  - intros er v -> Hb _ Hnone. destruct (Hnew v Hnone) as [Hf Hd]. split; [exact Hf|].
    split; [right; exists t; exact Hd|]. destruct (errors_Is er ErrExist); [exists t; exact Hd|done].
  - intros er -> Hb Hex. by rewrite Hex.
Qed.

(** What creating epoch [e] leaves: the track as it was, or with the epoch begun. *)
Definition begun (e : N) (m m' : objs) (l : N) (logs : list (epochLogRoot * list GroupInfo))
    (l' : N) (logs' : list (epochLogRoot * list GroupInfo)) : Prop :=
  track_ok m' l' logs' ∧ epoch_frame e m m' ∧
  (l' = l ∧ logs' = logs ∨ l' = e ∧ ∃ c, logs' = logs ++ [(newEpochLog p e c, [])]).

(** Nothing but the root and the log root of [e] has changed since [m], and epoch
    [e] is unused or holds the empty log. *)
Lemma begun_same e m m' l logs :
  e = N.of_nat (S (length logs)) → (e <= maxGroupEpoch)%N → track_ok m l logs →
  epoch_frame e m m' → stored_as m' (rootKey p) (at_epoch l) → unused p e m' →
  track_ok m' l logs.
Proof using Hp.
  intros He Hmax [Hroot Hl Hm Hlogs Hun] Hf Hroot' Hun'.
  assert (∀ e', (0 < e' <= maxGroupEpoch)%N → e' ≠ e →
    ∀ k, wf_key k → key_epoch k = e' → k ≠ KRoot → m' !! render p k = m !! render p k) as Hframe.
  { intros e' He' Hne k Hk Hke Hkr. apply Hf; [done|done|]. intros ->. simpl in Hke. congruence. }
  constructor; [done|done|done| |].
  - intros i root gs Hi. apply lookup_lt_Some in Hi as Hlt.
    eapply durable_frame; [apply epoch_params; lia|apply Hframe; lia|by apply Hlogs].
  - intros e' He'. destruct (decide (e' = e)) as [->|Hne]; [done|].
    eapply unused_frame; [apply epoch_params; lia| |apply Hun, He'].
    intros k Hk Hlk. apply (Hframe e'); [lia|done|done|..];
      destruct k; simpl in *; (done || by apply N.eqb_eq in Hlk).
Qed.

Lemma begun_new e m m' l logs c :
  e = N.of_nat (S (length logs)) → (e <= maxGroupEpoch)%N → track_ok m l logs →
  epoch_frame e m m' → stored_as m' (rootKey p) (at_epoch e) →
  durable p e m' (newEpochLog p e c) [] →
  track_ok m' e (logs ++ [(newEpochLog p e c, [])]).
Proof using Hp.
  intros He Hmax Hok Hf Hroot' Hd.
  destruct Hok as [Hroot Hl Hm Hlogs Hun].
  assert (∀ e', e' ≠ e →
    ∀ k, wf_key k → key_epoch k = e' → k ≠ KRoot → m' !! render p k = m !! render p k) as Hframe.
  { intros e' Hne k Hk Hke Hkr. apply Hf; [done|done|]. intros ->. simpl in Hke. congruence. }
  constructor; [done| |done| |]; rewrite ?length_app; simpl.
  - lia.
  - intros i root gs Hi. destruct (decide (i < length logs)) as [Hlt|Hge].
    + rewrite lookup_app_l in Hi by done.
      eapply durable_frame; [apply epoch_params; lia|apply Hframe; lia|by apply Hlogs].
    + rewrite lookup_app_r in Hi by lia. destruct (i - length logs) as [|j] eqn:Ej; [|done].
      simpl in Hi. injection Hi as <- <-. by replace (1 + N.of_nat i)%N with e by lia.
  - intros e' He'. eapply unused_frame; [apply epoch_params; lia| |apply Hun; lia].
    intros k Hk Hlk. apply (Hframe e'); [lia|done|..];
      destruct k; simpl in *; (done || by apply N.eqb_eq in Hlk).
Qed.

Lemma wp_createEpochLog fl t e m l logs :
  e = N.of_nat (S (length logs)) → (e <= maxGroupEpoch)%N → track_ok m l logs → handle_ok t l →
  wp (op_spec fl) (createEpochLog t e) (λ r m', ∃ l' logs', begun e m m' l logs l' logs' ∧
    handle_ok r.1 l' ∧
    match r.2 with
    | None => l' = e ∧ (∃ c, logs' = logs ++ [(newEpochLog p e c, [])]) ∧ t_root r.1 = at_epoch e
    | Some _ => fl = true
    end) m.
Proof using Hp Hwf Hver Htrack.
  intros He Hmax Hok Hh. assert (log_params p e) as Hpar by (apply epoch_params; lia).
  assert (l <= e)%N as Hle by (rewrite (tk_latest _ _ _ Hok); lia).
  unfold createEpochLog. destruct Hh as [Hpt Hroot] eqn:Eh. clear Eh. rewrite Hpt.
  apply wp_bind, wp_now. intros c0 Hc0. apply wp_bind.
  eapply wp_mono; [|apply wp_create_log; [done|done|apply Hok; lia]].
  intros r m1 (Hf1 & Hun1 & Hr).
  assert (stored_as m1 (rootKey p) (at_epoch l)) as Hst1.
  { destruct (tk_root _ _ _ Hok) as (o & Ho & Hd). exists o. split; [|done]. rewrite <-Ho.
    by apply (Hf1 KRoot). }
  assert ((∃ c, durable p e m1 (newEpochLog p e c) []) →
    wp (op_spec fl) (advanceTrackRootLocked t e) (λ r m', ∃ l' logs', begun e m m' l logs l' logs' ∧
      handle_ok r.1 l' ∧
      match r.2 with
      | None => l' = e ∧ (∃ c, logs' = logs ++ [(newEpochLog p e c, [])]) ∧ t_root r.1 = at_epoch e
      | Some _ => fl = true
      end) m1) as Hadv.
  { intros [c Hd1]. eapply wp_mono; [|eapply (wp_advance fl m1 m1 t l e); [lia|by split|by split]].
    intros r2 m2 (l2 & [Hst2 Hf2] & Hl2 & Hh2 & Hr2).
    assert (epoch_frame e m m2) as Hf by (intros k Hk Hk1 Hk2; rewrite Hf2, Hf1; done).
    assert (durable p e m2 (newEpochLog p e c) []) as Hd2.
    { eapply durable_frame; [done| |exact Hd1]. intros k Hk _ Hkr. by apply Hf2. }
    destruct (decide (l2 = e)) as [->|Hne].
    - exists e, (logs ++ [(newEpochLog p e c, [])]).
      split; [split; [by eapply begun_new|split; [done|right; eauto]]|split; [done|]].
      destruct (r2.2); [done|]. destruct Hr2 as [_ ?]. split_and?; [done|by exists c|done].
    - destruct Hl2 as [->|]; [|done]. exists l, logs.
      split; [split; [|split; [done|by left]]|split; [done|]].
      + eapply begun_same; [done|done|exact Hok|done|done|right; by exists c].
      + destruct (r2.2); [done|]. by destruct Hr2. }
  destruct r as [v|er]; [by apply Hadv|]. destruct (errors_Is er ErrExist); [by apply Hadv|].
  exists l, logs. assert (epoch_frame e m m1) as Hf by (intros k Hk _ Hk2; by apply Hf1).
  split; [split; [|split; [done|by left]]|split; [by split|done]].
  eapply begun_same; [done|done|exact Hok|done|done|done].
Qed.

(** ** NewEpoch *)

Lemma begun_refl e m l logs : track_ok m l logs → begun e m m l logs l logs.
Proof. intros H. split; [exact H|]. split; [done|by left]. Qed.

Lemma last_log_durable m l logs root gs :
  track_ok m l (logs ++ [(root, gs)]) → durable p (N.of_nat (S (length logs))) m root gs.
Proof.
  intros Hok. pose proof (tk_logs _ _ _ Hok (length logs) root gs) as H.
  replace (N.of_nat (S (length logs))) with (1 + N.of_nat (length logs))%N by lia. apply H.
  by rewrite lookup_app_r, Nat.sub_diag by done.
Qed.

(** The writer of the epoch just begun. *)
Definition epoch_writer (e : N) (c : Z) (m : objs) (w : Writer) : Prop :=
  writer_ok p e m [] w ∧ current p e m w ∧ logRoot w = newEpochLog p e c ∧ openGroups w = [] ∧
  hasLast w = false.

Lemma wp_NewEpoch fl t w m l logs e :
  e = N.of_nat (S (length logs)) → (e <= maxGroupEpoch + 1)%N →
  track_ok m l logs → handle_ok t l → w_path w = p → (w_epoch w + 1 = e)%N →
  wp (op_spec fl) (NewEpoch t w) (λ r m', ∃ l' logs', begun e m m' l logs l' logs' ∧
    handle_ok r.1.1 l' ∧
    match r.2 with
    | None => ∃ c, l' = e ∧ logs' = logs ++ [(newEpochLog p e c, [])] ∧ LatestEpoch (t_root r.1.1) = e ∧
        epoch_writer e c m' r.1.2 ∧ stale r.1.2 = stale w
    | Some _ => r.1.2 = w ∧ (fl = true ∨ (maxGroupEpoch < e)%N ∧ m' = m)
    end) m.
Proof using Hp Hwf Hver Htrack.
  intros He Hmax Hok Hh Hwp Hwe. unfold NewEpoch. rewrite Hwp, Hwe. cbv zeta.
  change maxGroupEpoch with 16777215%N in *.
  rewrite (u64_small e) by (unfold is_u64, two64; lia).
  destruct (N.ltb_spec 16777215 e) as [Hlt|Hge].
  { exists l, logs. split; [by apply begun_refl|]. split; [exact Hh|]. split; [done|]. by right. }
  apply wp_bind. eapply wp_mono; [|by eapply wp_createEpochLog].
  intros [t1 err] m1 (l1 & logs1 & Hb & Hh1 & Hr). simpl in Hh1, Hr. destruct err as [er|].
  { exists l1, logs1. split; [exact Hb|]. split; [exact Hh1|]. split; [done|]. by left. }
  destruct Hr as (-> & [c ->] & Hroot). apply wp_bind.
  pose proof (last_log_durable m1 e logs _ [] (proj1 Hb)) as Hd. rewrite <-He in Hd.
  eapply wp_mono; [|eapply wp_fetchEpochLog, Hd]. intros [[rt v]|er] m2 [-> Hget].
  - destruct Hget as (-> & d & Hv). exists e, (logs ++ [(newEpochLog p e c, [])]). cbn [fst snd mret prog_ret wp].
    split; [exact Hb|]. split; [exact Hh1|]. exists c. split; [done|]. split; [done|].
    split; [by rewrite Hroot|]. split; [|done]. split; [|split; [by exists d|done]].
    constructor; [done|done|]. intros _. constructor; [apply Hd|done|done|done].
  - exists e, (logs ++ [(newEpochLog p e c, [])]). cbn [fst snd mret prog_ret wp].
    split; [exact Hb|]. split; [exact Hh1|]. split; [done|]. left. apply Hget.
Qed.

(** ** Track.Writer on a track that may be half-made *)

Lemma wp_fetchEpochLog_none fl m e :
  m !! epochLogKey p e = None →
  wp (op_spec fl) (fetchEpochLog p e) (λ r m', m' = m ∧
    match r with
    | Ok _ => False
    | Err er => errors_Is er ErrEpochNotFound = true ∨ fl = true ∧ errors_Is er ErrEpochNotFound = false
    end) m.
Proof.
  intros Hnone. apply wp_bind, wp_Get; [congruence| |].
  - intros er -> _. split; [done|]. by left.
  - intros er -> Hb Hne. cbn [mret prog_ret wp]. rewrite Hne. split; [done|]. right. split; [done|].
    unfold errors_Is. apply bool_decide_eq_false. intros Hin.
    unfold backend_error in Hb. rewrite forallb_forall in Hb.
    apply list_elem_of_In, Hb in Hin. done.
Qed.

(** The rest of [Track.Writer] once the log root has been read. *)
Lemma wp_resume fl fuel (t : Track) e m root gs w v :
  durable p e m root gs → w_path w = p → w_epoch w = e → openGroups w = [] → hasLast w = false →
  stale w = false → (∃ d, m !! epochLogKey p e = Some (d, v)) → length gs < fuel →
  wp (op_spec fl)
    (r ← recover fuel {| w with logRoot := root; logVersion := v |};
     let '(w, err) := r in
     mret (t, match err with Some er => Err er | None => Ok w end))
    (λ r m', m' = m ∧ r.1 = t ∧
      match r.2 with
      | Ok w => writer_ok p e m gs w ∧ stale w = false ∧ current p e m w ∧ logRoot w = root
      | Err _ => fl = true
      end) m.
Proof.
  intros Hd Hwp Hwe Hog Hl Hst [d Hv] Hfuel. apply wp_bind.
  eapply wp_mono; [|eapply wp_recover; [apply Hd|..]]; simpl; try done.
  intros [w1 err] m1 (-> & (Hc & Hr & Hlv & Hs1) & Hf & Hok). simpl in *.
  apply config_eq in Hc as (Hcp & Hce & _). simpl in Hcp, Hce.
  destruct err as [er|]; simpl; (split; [done|split; [done|]]).
  - destruct fl; [done|]. by specialize (Hf eq_refl).
  - split; [constructor; [congruence|congruence|auto]|]. split; [congruence|]. split; [|done].
    exists d. by rewrite Hlv.
Qed.

(** What [Track.Writer] answers: a writer of the last log. *)
Definition writer_at (fl : bool) (l : N) (m : objs) (logs : list (epochLogRoot * list GroupInfo))
    (r : result Writer) : Prop :=
  match r with
  | Ok w => ∃ older root gs, logs = older ++ [(root, gs)] ∧
      writer_ok p l m gs w ∧ stale w = false ∧ current p l m w ∧ logRoot w = root
  | Err _ => fl = true
  end.

(** The first epoch may have been missing, and is then begun. *)
Definition repaired (m m' : objs) (logs logs' : list (epochLogRoot * list GroupInfo)) : Prop :=
  epoch_frame 1 m m' ∧ (logs' = logs ∨ logs = [] ∧ ∃ c, logs' = [(newEpochLog p 1 c, [])]).

Lemma wp_Track_Writer_missing fl fuel t m :
  track_ok m 1 [] → t_path t = p → t_root t = at_epoch 1 → 0 < fuel →
  (∀ k, wf_key k → log_key 1 k = true → m !! render p k = None) →
  wp (op_spec fl) (Track_Writer fuel t) (λ r m', ∃ logs', track_ok m' 1 logs' ∧
    repaired m m' [] logs' ∧ handle_ok r.1 1 ∧ writer_at fl 1 m' logs' r.2) m.
Proof using Hp Hwf Hver Htrack.
  intros Hok Hpt Hroot Hfuel Hnone. unfold Track_Writer. rewrite Hroot, Hpt. cbn [LatestEpoch at_epoch].
  change (1 =? 0)%N with false. cbv iota zeta.
  assert (handle_ok t 1) as Hh by (split; [done|]; by exists 1%N).
  apply wp_bind. eapply wp_mono; [|apply wp_fetchEpochLog_none; by apply (Hnone (KLog 1))].
  intros [rv|er] m1 [-> Her]; [done|]. destruct Her as [-> |[Hfl ->]].
  2: { exists []. split; [exact Hok|]. split; [split; [done|by left]|]. by split. }
  apply wp_bind. eapply wp_mono; [|eapply (wp_createEpochLog fl t 1 m 1 []); try done].
  intros [t1 err] m1 (l1 & logs1 & (Hok1 & Hf1 & Hcase) & Hh1 & Hr). simpl in Hh1, Hr.
  assert (l1 = 1%N) as -> by (by destruct Hcase as [[-> _]|[-> _]]).
  assert (repaired m m1 [] logs1) as Hrep.
  { split; [done|]. destruct Hcase as [[_ ->]|[_ [c ->]]]; [by left|right]. split; [done|]. by exists c. }
  destruct err as [er1|].
  { exists logs1. by split_and?. }
  destruct Hr as (_ & [c ->] & Hr1).
  pose proof (last_log_durable m1 1 [] _ [] Hok1) as Hd. change (N.of_nat (S (length []))) with 1%N in Hd.
  rewrite (proj1 Hh1).
  apply wp_bind. eapply wp_mono; [|eapply wp_fetchEpochLog, Hd]. intros [[rt v]|er1] m2 [-> Hget].
  - destruct Hget as [-> Hv]. eapply wp_mono; [|by eapply wp_resume].
    intros [t2 r2] m2 (-> & -> & Hr2). simpl in Hr2. exists [(newEpochLog p 1 c, [])].
    split; [exact Hok1|]. split; [exact Hrep|]. split; [exact Hh1|]. destruct r2 as [w|er2]; [|exact Hr2].
    exists [], (newEpochLog p 1 c), []. by split.
  - exists [(newEpochLog p 1 c, [])]. destruct Hget as [-> _]. by split_and?.
Qed.

Lemma wp_Track_Writer_any fl fuel t m l logs :
  track_ok m l logs → t_path t = p → t_root t = at_epoch l → length (groups_of logs) < fuel →
  wp (op_spec fl) (Track_Writer fuel t) (λ r m', ∃ logs', track_ok m' l logs' ∧
    repaired m m' logs logs' ∧ handle_ok r.1 l ∧ writer_at fl l m' logs' r.2) m.
Proof using Hp Hwf Hver Htrack.
  intros Hok Hpt Hroot Hfuel.
  assert (handle_ok t l) as Hh by (split; [done|]; by exists l).
  assert (∀ older root gs, track_ok m l (older ++ [(root, gs)]) → length gs < fuel →
    l = N.of_nat (S (length older)) →
    logs = older ++ [(root, gs)] ∨ logs = [] ∧ (∃ c, older ++ [(root, gs)] = [(newEpochLog p 1 c, [])]) →
    wp (op_spec fl) (Track_Writer fuel t) (λ r m', ∃ logs', track_ok m' l logs' ∧
      repaired m m' logs logs' ∧ handle_ok r.1 l ∧ writer_at fl l m' logs' r.2) m) as Hlast.
  { intros older root gs Hok' Hf Hl Hlogs.
    pose proof (last_log_durable m l older root gs Hok') as Hd. rewrite <-Hl in Hd.
    pose proof (tk_max _ _ _ Hok').
    eapply wp_mono; [|eapply (wp_Track_Writer p l (epoch_params l ltac:(lia)) fl fuel gs m root t Hd Hpt);
      [by rewrite Hroot|exact Hf]].
    intros [t1 r] m1 (-> & Ht & Hr). simpl in Ht, Hr. subst t1. exists (older ++ [(root, gs)]).
    split; [exact Hok'|]. split; [split; [done|destruct Hlogs as [->|?]; [by left|by right]]|].
    split; [exact Hh|]. destruct r as [w|er]; [|exact Hr]. exists older, root, gs. by split. }
  pose proof (tk_latest _ _ _ Hok) as Hl.
  destruct (list_exists_last_or logs) as [->|(older & [root gs] & ->)].
  - simpl in Hl. subst l. destruct (tk_unused _ _ _ Hok 1) as [Hnone|[c Hd]]; [by vm_compute| |].
    + apply wp_Track_Writer_missing; (done || lia).
    + apply (Hlast [] (newEpochLog p 1 c) []); [|simpl in *; lia|done|right; split; [done|by exists c]].
      eapply (begun_new 1 m m 1 [] c); try done. apply Hok.
  - apply (Hlast older root gs); [done| |rewrite length_app in Hl; simpl in Hl; lia|by left].
    unfold groups_of in Hfuel. rewrite map_app, concat_app, !length_app in Hfuel. simpl in Hfuel.
    rewrite length_app in Hfuel. lia.
Qed.

(** ** Sessions on the latest epoch *)

(** One log of the track takes the place of another, and nothing else changes but
    in its epoch. *)
Lemma track_ok_replaced m m' l logs i e root gs :
  track_ok m l logs → i < length logs → e = (1 + N.of_nat i)%N → durable p e m' root gs →
  (∀ k, wf_key k → k = KRoot ∨ key_epoch k ≠ e → m' !! render p k = m !! render p k) →
  track_ok m' l (<[i := (root, gs)]> logs).
Proof using Hp.
  intros [Hroot Hl Hmax Hlogs Hun] Hi -> Hd Hframe. constructor; rewrite ?length_insert; [|done|done| |].
  - destruct Hroot as (o & Ho & ?). exists o. split; [|done]. rewrite <-Ho. apply (Hframe KRoot); auto. done.
  - intros j rt g Hj. destruct (decide (j = i)) as [->|Hne].
    { rewrite list_lookup_insert_eq in Hj by done. by injection Hj as <- <-. }
    rewrite list_lookup_insert_ne in Hj by done. apply lookup_lt_Some in Hj as Hlt.
    eapply durable_frame; [apply epoch_params; lia| |by apply Hlogs].
    intros k Hk Hke _. apply Hframe; [done|right]. rewrite Hke. lia.
  - intros e He. eapply unused_frame; [apply epoch_params; lia| |apply Hun, He].
    intros k Hk Hlk. apply Hframe; [done|right].
    assert (key_epoch k = e) as -> by (destruct k; simpl in *; (done || by apply N.eqb_eq in Hlk)). lia.
Qed.

Lemma track_ok_extended m m' l older root gs root' gs' :
  track_ok m l (older ++ [(root, gs)]) → durable p l m' root' gs' →
  (∀ k, ¬ epoch_object p l k → m' !! k = m !! k) →
  track_ok m' l (older ++ [(root', gs')]).
Proof using Hp Hwf.
  intros Hok Hd Hf. pose proof (tk_latest _ _ _ Hok) as Hl. pose proof (tk_max _ _ _ Hok) as Hmax.
  rewrite length_app in Hl. simpl in Hl.
  replace (older ++ [(root', gs')]) with (<[length older := (root', gs')]> (older ++ [(root, gs)]))
    by by rewrite insert_app_r_alt, Nat.sub_diag.
  eapply track_ok_replaced; [done|rewrite length_app; simpl; lia| |done|].
  - lia.
  - intros k Hk Hne. apply Hf, other_object; [|done|done]. by apply epoch_u64.
Qed.

(** The track has grown by [new] groups, at its end, among them [rows] in order. *)
Definition grown (n : nat) (logs logs' : list (epochLogRoot * list GroupInfo)) (rows : list GroupInfo)
    : Prop :=
  ∃ new, groups_of logs' = groups_of logs ++ new ∧ rows `sublist_of` new ∧ length new <= n ∧
    length logs <= length logs'.

Lemma groups_of_app a b : groups_of (a ++ b) = groups_of a ++ groups_of b.
Proof. unfold groups_of. by rewrite map_app, concat_app. Qed.

Lemma groups_of_one root gs : groups_of [(root, gs)] = gs.
Proof. unfold groups_of. simpl. by rewrite app_nil_r. Qed.

Lemma wp_session_track fl fuel calls m l older root gs w :
  track_ok m l (older ++ [(root, gs)]) → writer_ok p l m gs w → Forall call_ok calls →
  (log_size gs + N.of_nat (length calls) < 2 ^ 62)%N → length gs + length calls < fuel →
  wp (op_spec fl) (session fuel calls w) (λ rows m', ∃ logs', track_ok m' l logs' ∧
    length logs' = S (length older) ∧
    grown (length calls) (older ++ [(root, gs)]) logs' rows) m.
Proof using Hp Hwf.
  intros Hok Hw Hc Hroom Hfuel. pose proof (tk_max _ _ _ Hok) as Hmax.
  assert (l = N.of_nat (S (length older))) as Hl.
  { rewrite (tk_latest _ _ _ Hok), length_app. simpl. lia. }
  pose proof (last_log_durable m l older root gs Hok) as Hd. rewrite <-Hl in Hd.
  eapply wp_mono; [|eapply (wp_session p l (epoch_params l ltac:(lia)) fl fuel calls gs w m root); done].
  intros rows m' [(root' & new & Hd' & Hlen & Hsub) Hf]. exists (older ++ [(root', gs ++ new)]).
  split; [by eapply track_ok_extended|]. split; [rewrite length_app; simpl; lia|].
  exists new. rewrite !groups_of_app, !groups_of_one, app_assoc, !length_app. done.
Qed.

Lemma grown_nil n logs logs' :
  groups_of logs' = groups_of logs → length logs <= length logs' → grown n logs logs' [].
Proof. intros H ?. exists []. rewrite app_nil_r. split; [done|]. split; [done|]. simpl. split; [lia|done]. Qed.

Lemma grown_trans a b l1 l2 l3 r1 r2 :
  grown a l1 l2 r1 → grown b l2 l3 r2 → grown (a + b) l1 l3 (r1 ++ r2).
Proof.
  intros (n1 & H1 & S1 & L1 & ?) (n2 & H2 & S2 & L2 & ?). exists (n1 ++ n2).
  rewrite H2, H1, app_assoc, length_app. split; [done|]. split; [by apply sublist_app|lia].
Qed.

(** ** Histories *)

Lemma wp_Open fl m l logs cfg :
  track_ok m l logs → TrackPath_validate p = None →
  wp (op_spec fl) (ledger.Open p cfg) (λ r m', m' = m ∧
    match r with
    | Ok t => t_path t = p ∧ t_root t = at_epoch l ∧ ∃ d, m !! rootKey p = Some (d, t_rootVersion t)
    | Err _ => fl = true
    end) m.
Proof using Htrack.
  intros Hok Hval. unfold ledger.Open. rewrite Hval. apply wp_bind.
  eapply wp_mono; [|apply wp_fetchTrackRoot_at, Hok].
  intros [[rt v]|er] m' [-> H]; (split; [done|]); [|exact H].
  destruct H as [-> Hv]. split; [done|]. split; [done|]. exact Hv.
Qed.

Definition grows (n : nat) (logs : list (epochLogRoot * list GroupInfo)) (k : nat)
    (rows : list GroupInfo) (m' : objs) : Prop :=
  ∃ l' logs', track_ok m' l' logs' ∧ grown n logs logs' rows ∧ length logs' <= length logs + k.

Lemma session_grows fl fuel calls m l older root gs w k :
  track_ok m l (older ++ [(root, gs)]) → writer_ok p l m gs w → Forall call_ok calls →
  (N.of_nat (length (groups_of (older ++ [(root, gs)]))) + N.of_nat (length calls) < 2 ^ 62)%N →
  length (groups_of (older ++ [(root, gs)])) + length calls < fuel →
  wp (op_spec fl) (session fuel calls w) (grows (length calls) (older ++ [(root, gs)]) k) m.
Proof using Hp Hwf.
  intros Hok Hw Hc. rewrite groups_of_app, groups_of_one, length_app. intros Hroom Hfuel.
  eapply wp_mono; [|eapply wp_session_track; try done; unfold log_size; lia].
  intros rows m' (logs' & Hok' & Hlen & Hg). exists l, logs'. split; [done|]. split; [done|].
  rewrite Hlen, length_app. simpl. lia.
Qed.

Lemma grows_from n logs k j rows m' logs1 :
  grown 0 logs logs1 [] → length logs1 <= length logs + k → grows n logs1 j rows m' →
  grows n logs (k + j) rows m'.
Proof.
  intros Hg Hlen (l' & logs' & Hok & Hg' & Hlen'). exists l', logs'. split; [done|]. split; [|lia].
  by apply (grown_trans 0 n _ _ _ [] rows Hg).
Qed.

Lemma process_grows fl fuel t restart calls m l logs :
  track_ok m l logs → t_path t = p → t_root t = at_epoch l → Forall call_ok calls →
  (N.of_nat (length (groups_of logs)) + N.of_nat (length calls) < 2 ^ 62)%N →
  length (groups_of logs) + length calls < fuel →
  wp (op_spec fl) (process fuel t restart calls) (grows (length calls) logs 2) m.
Proof using Hp Hwf Hver Htrack.
  intros Hok Hpt Hroot Hc Hroom Hfuel. unfold process. apply wp_bind.
  eapply wp_mono; [|eapply wp_Track_Writer_any; [exact Hok|done|done|lia]].
  intros [t1 r] m1 (logs1 & Hok1 & [_ Hrep] & Hh & Hr). simpl in Hh, Hr.
  assert (groups_of logs1 = groups_of logs ∧ length logs <= length logs1 <= length logs + 1) as [Hgr Hlen1].
  { destruct Hrep as [->|[-> [c ->]]]; (split; [done|simpl; lia]). }
  assert (grown 0 logs logs1 []) as Hg1 by (apply grown_nil; [done|lia]).
  assert (∀ n, grows n logs 2 [] m1) as Hnone.
  { intros n. exists l, logs1. split; [done|]. split; [by apply grown_nil; [|lia]|lia]. }
  destruct r as [w|er]; [|apply Hnone]. destruct Hr as (older & root & gs & -> & Hw & _ & _ & _).
  pose proof (tk_latest _ _ _ Hok1) as Hl. rewrite length_app in Hl, Hlen1. simpl in Hl, Hlen1.
  rewrite <-Hgr in Hroom, Hfuel. destruct restart.
  - apply wp_bind. pose proof (tk_max _ _ _ Hok1).
    eapply wp_mono; [|eapply (wp_NewEpoch fl t1 w m1 l _ (l + 1)); [|lia|exact Hok1|exact Hh|apply Hw|]].
    2: { rewrite length_app. simpl. lia. }
    2: { by rewrite (wr_epoch _ _ _ _ _ Hw). }
    intros [[t2 w2] err] m2 (l2 & logs2 & (Hok2 & _ & Hcase) & Hh2 & Hr2). cbn [fst snd] in Hr2, Hh2.
    assert (grown 0 logs logs2 [] ∧ length logs2 <= length logs + 2) as [Hg2 Hlen2].
    { destruct Hcase as [[_ ->]|[_ [c ->]]]; (split; [apply grown_nil|];
        rewrite ?groups_of_app, ?length_app, ?groups_of_one in *; simpl; rewrite ?app_nil_r; (done || lia)). }
    destruct err as [er|].
    { exists l2, logs2. split; [done|]. split; [|done].
      destruct Hg2 as (new & ? & ? & ? & ?). exists new. split_and?; (done || lia). }
    destruct Hr2 as (c & -> & -> & _ & (Hw2 & _) & _).
    eapply wp_mono; [|eapply (session_grows fl fuel calls m2 (l + 1) _ _ [] w2 0); try done].
    + intros rows m3 H3. by apply (grows_from _ _ 2 0 _ _ _ Hg2 Hlen2).
    + by rewrite groups_of_app, groups_of_one, app_nil_r.
    + by rewrite groups_of_app, groups_of_one, app_nil_r.
  - eapply wp_mono; [|eapply (session_grows fl fuel calls m1 l older root gs w 1); done].
    intros rows m3 H3. apply (grows_from _ _ 1 1 _ _ _ Hg1); [rewrite length_app; simpl; lia|done].
Qed.

Lemma history_grows fl fuel cfg ls : ∀ m l logs,
  track_ok m l logs → TrackPath_validate p = None → Forall (λ x, Forall call_ok x.2) ls →
  (N.of_nat (length (groups_of logs)) + N.of_nat (appends ls) < 2 ^ 62)%N →
  length (groups_of logs) + appends ls < fuel →
  wp (op_spec fl) (history fuel p cfg ls) (grows (appends ls) logs (2 * length ls)) m.
Proof using Hp Hwf Hver Htrack.
  induction ls as [|[restart calls] ls IH]; intros m l logs Hok Hval Hc Hroom Hfuel; cbn [history].
  { exists l, logs. split; [done|]. split; [by apply grown_nil|lia]. }
  inversion_clear Hc as [|? ? Hc1 Hcs]. unfold appends in *. cbn [map concat snd length] in *.
  rewrite length_app in *. apply wp_bind. eapply wp_mono; [|by eapply wp_Open].
  intros r m1 [-> Hr]. apply wp_bind.
  assert (wp (op_spec fl) match r with Ok t => process fuel t restart calls | Err _ => mret [] end
    (grows (length calls) logs 2) m) as H1.
  { destruct r as [t|er].
    - destruct Hr as (? & ? & _). eapply process_grows; try done; lia.
    - exists l, logs. split; [done|]. split; [by apply grown_nil|lia]. }
  eapply wp_mono; [|exact H1]. intros rows m1 (l1 & logs1 & Hok1 & Hg1 & Hlen1). apply wp_bind.
  assert (length (groups_of logs1) <= length (groups_of logs) + length calls) as Hsz.
  { destruct Hg1 as (new & -> & _ & ? & _). rewrite length_app. lia. }
  eapply wp_mono; [|eapply (IH m1 l1 logs1); try done; lia].
  intros rest m2 (l2 & logs2 & Hok2 & Hg2 & Hlen2). exists l2, logs2. split; [done|].
  split; [by eapply grown_trans|lia].
Qed.
End Track.

(** ** Create *)

(** The root [Create] writes. *)
Definition created_root (p : TrackPath) (sch : TrackSchema) (at_ : Z) : trackRoot :=
  mkTrackRoot manifestVersion p (Timescale sch) (TimeSource sch) (ts_MIME sch) (ts_Encoding sch) 1 at_.

(** A schema whose fields hold values of their Go types, its strings UTF-8. *)
Definition schema_ok (sch : TrackSchema) : Prop :=
  (Timescale sch < 2 ^ 32)%N ∧ valid_utf8 (ts_MIME sch) = true ∧ valid_utf8 (ts_Encoding sch) = true.

(** What is known of a root that the code reads back as written. *)
Record root_wf (p : TrackPath) (tr : trackRoot) : Prop := {
  rw_path : valid_utf8 p = true;
  rw_wf : wf_manifest tr;
  rw_version : tr_Version tr = manifestVersion;
  rw_track : tr_Track tr = p;
}.

Lemma created_root_wf p sch c :
  valid_utf8 p = true → TrackSchema_validate sch = None → schema_ok sch → is_i64 c →
  root_wf p (created_root p sch c).
Proof.
  intros Hp Hval (? & ? & ?) Hc. constructor; try done. simpl. split_and!; try done.
  unfold TrackSchema_validate, TimeSource_valid in Hval.
  destruct (Timescale sch =? 0)%N; [done|].
  destruct (String.eqb_spec (TimeSource sch) TimeSourceFrame) as [->|]; [done|].
  by destruct (String.eqb_spec (TimeSource sch) TimeSourceIngest) as [->|].
Qed.

(** The track a creation leaves, complete or without its first epoch's log. *)
Definition created (p : TrackPath) (sch : TrackSchema) (m' : objs) (tr : trackRoot)
    (logs : list (epochLogRoot * list GroupInfo)) : Prop :=
  root_wf p tr ∧ schema tr = sch ∧ track_ok p tr m' 1 logs ∧
  (logs = [] ∨ ∃ c, logs = [(newEpochLog p 1 c, [])]).

Lemma created_half p sch m c v :
  valid_utf8 p = true → TrackSchema_validate sch = None → schema_ok sch → is_i64 c →
  (∀ k, wf_key k → m !! render p k = None) →
  created p sch (<[rootKey p := (encodeManifest (created_root p sch c), v)]> m)
    (created_root p sch c) [].
Proof.
  intros Hp Hval Hsch Hc Hnone. pose proof (created_root_wf p sch c Hp Hval Hsch Hc) as Hwf.
  split; [exact Hwf|]. split; [by destruct sch|]. split; [|by left]. destruct Hwf as [_ Hm Hv _].
  constructor; [|done|by vm_compute|done|].
  - eexists. split; [apply lookup_insert_eq|]. by apply (at_epoch_encodable (created_root p sch c) Hm Hv 1).
  - intros e He. left. intros k Hk Hlk. rewrite (render_insert_ne m p KRoot); [by apply Hnone|done|done|].
    intros <-. done.
Qed.

Lemma wp_ledger_Create fl p sch cfg m :
  valid_utf8 p = true → TrackPath_validate p = None → TrackSchema_validate sch = None → schema_ok sch →
  (∀ k, wf_key k → m !! render p k = None) →
  wp (op_spec fl) (ledger.Create p sch cfg) (λ r m',
    match r with
    | Ok t => ∃ tr c, created p sch m' tr [(newEpochLog p 1 c, [])] ∧ t_path t = p ∧ t_root t = tr
    | Err _ => fl = true ∧ (m' = m ∨ ∃ tr logs, created p sch m' tr logs)
    end) m.
Proof.
  intros Hp Hval Hsv Hsch Hnone. unfold ledger.Create. rewrite Hval, Hsv. cbv zeta.
  apply wp_bind, wp_now. intros c Hc.
  fold (created_root p sch c). set (tr := created_root p sch c).
  pose proof (created_half p sch m c) as Hhalf. fold tr in Hhalf. apply wp_bind, wp_Create.
  - intros v _ _. destruct (Hhalf v) as ([_ Hwf Hver Htr] & Hs & Hok & _); try done.
    apply wp_bind. eapply wp_mono; [|eapply (wp_createEpochLog p tr Hp Hwf Hver Htr fl _ 1 _ 1 []); try done].
    2: { split; [done|]. by exists 1%N. }
    intros [t err] m1 (l1 & logs1 & (Hok1 & _ & Hcase) & [Hpt _] & Hr). cbn [fst snd] in *.
    assert (l1 = 1%N) as -> by (by destruct Hcase as [[-> _]|[-> _]]).
    destruct err as [er|].
    + split; [exact Hr|]. right. exists tr, logs1. split; [done|]. split; [done|]. split; [done|].
      destruct Hcase as [[_ ->]|[_ [c1 ->]]]; [by left|right; by exists c1].
    + destruct Hr as (_ & [c1 ->] & Hroot). exists tr, c1. split; [|by rewrite Hroot].
      split; [done|]. split; [done|]. split; [done|]. right. by exists c1.
  - intros er _ _ [o Ho]. specialize (Hnone KRoot I). change (m !! rootKey p = None) in Hnone. congruence.
  - intros er v -> _ _ _. cbn [mret prog_ret wp].
    destruct (errors_Is er ErrExist); (split; [done|right; exists tr, []; by apply Hhalf]).
  - intros er -> _ Hne. rewrite Hne. cbn [mret prog_ret wp]. split; [done|by left].
Qed.

Lemma wp_Create_exists p sch cfg m :
  TrackPath_validate p = None → TrackSchema_validate sch = None → is_Some (m !! rootKey p) →
  wp (op_spec false) (ledger.Create p sch cfg) (λ r m', m' = m ∧ r = Err [ErrTrackExists]) m.
Proof.
  intros Hval Hsv [o Ho]. unfold ledger.Create. rewrite Hval, Hsv. cbv zeta.
  apply wp_bind, wp_now. intros c Hc. apply wp_bind, wp_Create; [congruence| |done|done].
  intros er _ Hex _. by rewrite Hex.
Qed.

(** ** A whole track is what readers see *)

Lemma track_ok_view p tr m l logs :
  root_wf p tr → track_ok p tr m l logs → logs ≠ [] → track_view p m (at_epoch tr l) logs.
Proof.
  intros [Hp Hwf Hver Htr] Hok Hne. pose proof (tk_latest _ _ _ _ _ Hok) as Hl.
  pose proof (tk_max _ _ _ _ _ Hok) as Hmax. change maxGroupEpoch with 16777215%N in Hmax.
  assert (0 < length logs) by (destruct logs; simpl; [done|lia]).
  constructor; [apply Hok|exact Htr|simpl; lia| |unfold is_u64, two64; lia].
  intros i root gs Hi. by apply (tk_logs _ _ _ _ _ Hok).
Qed.

(** * Properties *)

(** Crash safety of a whole track: however many producer processes open the
    track one after the other, each on the latest epoch or beginning the next
    one, and whichever of their store calls fail before or after taking effect,
    the track stays well formed, its groups only grow at their end, and every
    row a call reported as committed stays among them, in the order reported; a
    reader streaming the track afterwards is given exactly those groups. *)
Theorem history_keeps_acknowledged p tr fuel cfg ls m l logs :
  root_wf p tr → track_ok p tr m l logs → TrackPath_validate p = None →
  Forall (λ x, Forall call_ok x.2) ls →
  (N.of_nat (length (groups_of logs)) + N.of_nat (appends ls) < 2 ^ 62)%N →
  length (groups_of logs) + appends ls < fuel → length logs + 2 * length ls + 2 <= fuel →
  wp (op_spec true) (history fuel p cfg ls) (λ rows m', ∃ l' logs' new,
    track_ok p tr m' l' logs' ∧ groups_of logs' = groups_of logs ++ new ∧
    rows `sublist_of` new ∧ length new <= appends ls ∧
    ∀ t n, logs' ≠ [] → t_path t = p → t_root t = at_epoch tr l' →
      wp (op_spec false) (replay fuel n t) (λ out m'', m'' = m' ∧ out =
        (list.take n (groups_of logs'),
         if decide (n <= length (groups_of logs')) then None else Some [EOF])) m') m.
Proof.
  intros Hrw Hok Hval Hc Hroom Hfuel Hfuel2. destruct Hrw as [Hp Hwf Hver Htr] eqn:E. clear E.
  eapply wp_mono; [|eapply (history_grows p tr Hp Hwf Hver Htr true fuel cfg ls m l logs); done].
  intros rows m' (l' & logs' & Hok' & (new & Hnew & Hsub & Hlen & _) & Hl). exists l', logs', new.
  split_and?; [done..|]. intros t n Hne Hpt Hroot.
  pose proof (track_ok_view p tr m' l' logs' Hrw Hok' Hne) as Hv.
  eapply wp_mono; [|eapply (wp_replay p m' _ logs' Hv false fuel n t Hpt); [|done|lia]].
  - intros out m'' [-> [-> |[? _]]]; done.
  - rewrite Hroot. apply Hv.
Qed.

(** C24 [Create] on an unused path leaves a track with one empty epoch; when a
    store call fails it leaves nothing, or a track whose first epoch the first
    writer completes. *)
Theorem Create_makes_track fl p sch cfg m :
  valid_utf8 p = true → TrackPath_validate p = None → TrackSchema_validate sch = None → schema_ok sch →
  (∀ k, wf_key k → m !! render p k = None) →
  wp (op_spec fl) (ledger.Create p sch cfg) (λ r m',
    match r with
    | Ok t => ∃ tr c, created p sch m' tr [(newEpochLog p 1 c, [])] ∧ t_path t = p ∧ t_root t = tr
    | Err _ => fl = true ∧ (m' = m ∨ ∃ tr logs, created p sch m' tr logs)
    end) m.
Proof. apply wp_ledger_Create. Qed.

(** [Create] refuses an existing track, changing nothing. *)
Theorem Create_refuses_existing p sch cfg m :
  TrackPath_validate p = None → TrackSchema_validate sch = None → is_Some (m !! rootKey p) →
  wp (op_spec false) (ledger.Create p sch cfg) (λ r m', m' = m ∧ r = Err [ErrTrackExists]) m.
Proof. apply wp_Create_exists. Qed.

(** C23 [Track.Writer] on any track the ledger can leave behind: it answers a
    writer of the latest epoch that knows its committed log, completing a
    creation that was cut short; it fails only when a store call does. *)
Theorem Track_Writer_repairs fl p tr fuel t m l logs :
  root_wf p tr → track_ok p tr m l logs → t_path t = p → t_root t = at_epoch tr l →
  length (groups_of logs) < fuel →
  wp (op_spec fl) (Track_Writer fuel t) (λ r m', ∃ logs', track_ok p tr m' l logs' ∧
    (logs' = logs ∨ logs = [] ∧ ∃ c, logs' = [(newEpochLog p 1 c, [])]) ∧
    match r.2 with
    | Ok w => ∃ older root gs, logs' = older ++ [(root, gs)] ∧
        writer_ok p l m' gs w ∧ stale w = false ∧ current p l m' w ∧ logRoot w = root
    | Err _ => fl = true
    end) m.
Proof.
  intros [Hp Hwf Hver Htr] Hok Hpt Hroot Hf.
  eapply wp_mono; [|eapply (wp_Track_Writer_any p tr Hp Hwf Hver Htr); done].
  intros r m' (logs' & Hok' & [_ Hrep] & _ & Hw). by exists logs'.
Qed.

(** C22 [NewEpoch] begins the next epoch: on success the track has one more epoch,
    empty, and the writer appends to it; on failure the track is as it was or has
    the epoch begun, and the writer is unchanged. Past the last epoch the
    identity can hold it fails and changes nothing. *)
Theorem NewEpoch_begins_epoch fl p tr t w m l logs :
  root_wf p tr → track_ok p tr m l logs → handle_ok p tr t l → w_path w = p →
  w_epoch w = N.of_nat (length logs) → (w_epoch w <= maxGroupEpoch)%N →
  wp (op_spec fl) (NewEpoch t w) (λ r m', ∃ l' logs', track_ok p tr m' l' logs' ∧
    (l' = l ∧ logs' = logs ∨ l' = (w_epoch w + 1)%N ∧
       ∃ c, logs' = logs ++ [(newEpochLog p (w_epoch w + 1) c, [])]) ∧
    match r.2 with
    | None => l' = (w_epoch w + 1)%N ∧ length logs' = S (length logs) ∧
        LatestEpoch (t_root r.1.1) = l' ∧ w_epoch r.1.2 = l' ∧
        writer_ok p l' m' [] r.1.2 ∧ current p l' m' r.1.2 ∧ hasLast r.1.2 = false
    | Some _ => r.1.2 = w ∧ (fl = true ∨ w_epoch w = maxGroupEpoch ∧ m' = m)
    end) m.
Proof.
  intros [Hp Hwf Hver Htr] Hok Hh Hwp Hwe Hmax.
  eapply wp_mono; [|eapply (wp_NewEpoch p tr Hp Hwf Hver Htr fl t w m l logs (w_epoch w + 1)); (done || lia)].
  intros [[t' w'] err] m' (l' & logs' & (Hok' & _ & Hcase) & _ & Hr). cbn [fst snd] in *.
  exists l', logs'. split; [exact Hok'|]. split; [exact Hcase|]. destruct err as [er|].
  - destruct Hr as [-> [?|[? ->]]]; (split; [done|]); [by left|right]. split; [lia|done].
  - destruct Hr as (c & -> & -> & Hl & (Hw & Hcur & _ & _ & Hlast) & _).
    pose proof (wr_epoch _ _ _ _ _ Hw). rewrite length_app. simpl. split_and?; (done || lia).
Qed.

(** * At concrete tracks *)

Definition cam_tr : trackRoot := created_root cam cam_schema 7.

Lemma cam_root_wf : root_wf cam cam_tr.
Proof. apply created_root_wf; [reflexivity|reflexivity|by repeat split|by vm_compute]. Qed.

(** What a creation cut short after its first call leaves. *)
Definition cam_half : objs := <[rootKey cam := (encodeManifest cam_tr, "0"%string)]> ∅.

Lemma cam_half_ok : track_ok cam cam_tr cam_half 1 [].
Proof.
  apply (created_half cam cam_schema ∅ 7 "0"); [reflexivity|reflexivity|by repeat split|by vm_compute|].
  intros k _. apply lookup_empty.
Qed.

(** A track just created. *)
Definition cam_fresh : objs :=
  <[epochLogKey cam 1 := (encodeManifest (newEpochLog cam 1 8), "1"%string)]> cam_half.

Lemma cam_fresh_ok : track_ok cam cam_tr cam_fresh 1 [(newEpochLog cam 1 8, [])].
Proof.
  destruct cam_root_wf as [Hp Hwf Hver Htr].
  assert (epoch_frame cam 1 cam_half cam_fresh) as Hf.
  { intros k Hk _ Hne. apply (render_insert_ne cam_half cam (KLog 1)); [by vm_compute|done|congruence]. }
  apply (begun_new cam cam_tr Hp 1 cam_half cam_fresh 1 [] 8); try done.
  - apply cam_half_ok.
  - eexists. split; [by vm_compute|]. vm_compute. reflexivity.
  - eapply durable_new; [apply cam_params|by vm_compute|apply lookup_insert_eq|].
    intros k Hk Hl Hne. rewrite Hf; [|done|by intros ->|done].
    apply lookup_insert_None. split; [apply lookup_empty|].
    apply (render_ne cam KRoot); [done|done|by intros <-].
Qed.

Definition cam_handle : Track := mkTrack cam 65536 cam_tr "0".

Definition cam_fresh_writer : Writer :=
  mkWriter cam 1 cam_schema 65536 (newEpochLog cam 1 8) "1" NoVersion 0 [] 0 zeroGroupInfo false false.

Lemma history_keeps_acknowledged_witness :
  wp (op_spec true)
    (history 9 cam (mkConfig 0) [(false, [CAppend 10 "a"]); (true, [CAppendGroup cam_meta "b"])])
    (λ rows m', ∃ l' logs' new,
      track_ok cam cam_tr m' l' logs' ∧ groups_of logs' = [] ++ new ∧
      rows `sublist_of` new ∧ length new <= 2 ∧
      ∀ t n, logs' ≠ [] → t_path t = cam → t_root t = at_epoch cam_tr l' →
        wp (op_spec false) (replay 9 n t) (λ out m'', m'' = m' ∧ out =
          (list.take n (groups_of logs'),
           if decide (n <= length (groups_of logs')) then None else Some [EOF])) m') cam_half.
Proof.
  apply (history_keeps_acknowledged cam cam_tr 9 (mkConfig 0)
    [(false, [CAppend 10 "a"]); (true, [CAppendGroup cam_meta "b"])] cam_half 1 []).
  - apply cam_root_wf.
  - apply cam_half_ok.
  - reflexivity.
  - repeat (apply Forall_cons_2 || apply Forall_nil_2); vm_compute; repeat split; discriminate.
  - vm_compute. reflexivity.
  - vm_compute. lia.
  - simpl. lia.
Defined.

Lemma Create_makes_track_witness :
  wp (op_spec true) (ledger.Create cam cam_schema (mkConfig 0)) (λ r m',
    match r with
    | Ok t => ∃ tr c, created cam cam_schema m' tr [(newEpochLog cam 1 c, [])] ∧
        t_path t = cam ∧ t_root t = tr
    | Err _ => true = true ∧ (m' = ∅ ∨ ∃ tr logs, created cam cam_schema m' tr logs)
    end) ∅.
Proof.
  apply (Create_makes_track true cam cam_schema (mkConfig 0) ∅).
  - reflexivity.
  - reflexivity.
  - reflexivity.
  - by repeat split.
  - intros k _. apply lookup_empty.
Defined.

Lemma Create_refuses_existing_witness :
  wp (op_spec false) (ledger.Create cam cam_schema (mkConfig 0))
    (λ r m', m' = cam_half ∧ r = Err [ErrTrackExists]) cam_half.
Proof.
  apply (Create_refuses_existing cam cam_schema (mkConfig 0) cam_half).
  - reflexivity.
  - reflexivity.
  - eexists. apply lookup_insert_eq.
Defined.

Lemma Track_Writer_repairs_witness :
  wp (op_spec false) (Track_Writer 1 cam_handle) (λ r m', ∃ logs', track_ok cam cam_tr m' 1 logs' ∧
    (logs' = [] ∨ @nil (epochLogRoot * list GroupInfo) = [] ∧ ∃ c, logs' = [(newEpochLog cam 1 c, [])]) ∧
    match r.2 with
    | Ok w => ∃ older root gs, logs' = older ++ [(root, gs)] ∧
        writer_ok cam 1 m' gs w ∧ stale w = false ∧ current cam 1 m' w ∧ logRoot w = root
    | Err _ => false = true
    end) cam_half.
Proof.
  apply (Track_Writer_repairs false cam cam_tr 1 cam_handle cam_half 1 []).
  - apply cam_root_wf.
  - apply cam_half_ok.
  - reflexivity.
  - reflexivity.
  - simpl. lia.
Defined.

Lemma NewEpoch_begins_epoch_witness :
  wp (op_spec false) (NewEpoch cam_handle cam_fresh_writer) (λ r m', ∃ l' logs',
    track_ok cam cam_tr m' l' logs' ∧
    (l' = 1%N ∧ logs' = [(newEpochLog cam 1 8, [])] ∨ l' = 2%N ∧
       ∃ c, logs' = [(newEpochLog cam 1 8, [])] ++ [(newEpochLog cam 2 c, [])]) ∧
    match r.2 with
    | None => l' = 2%N ∧ length logs' = 2 ∧
        LatestEpoch (t_root r.1.1) = l' ∧ w_epoch r.1.2 = l' ∧
        writer_ok cam l' m' [] r.1.2 ∧ current cam l' m' r.1.2 ∧ hasLast r.1.2 = false
    | Some _ => r.1.2 = cam_fresh_writer ∧ (false = true ∨ 1%N = maxGroupEpoch ∧ m' = cam_fresh)
    end) cam_fresh.
Proof.
  apply (NewEpoch_begins_epoch false cam cam_tr cam_handle cam_fresh_writer cam_fresh 1
    [(newEpochLog cam 1 8, [])]).
  - apply cam_root_wf.
  - apply cam_fresh_ok.
  - split; [reflexivity|]. exists 1%N. split; reflexivity.
  - reflexivity.
  - reflexivity.
  - vm_compute. discriminate.
Defined.
