(* ===== verification/InspectProps.v ===== *)
(** * The example reader on a track

    What [inspect -groups] lists and [follow] prints of a track nobody writes, and that
    [follow -group] takes up where an earlier run stopped. *)

From stdpp Require Import sorting.
From S2P Require Import Prelude GoStd Dates Json Store Group Manifest Track Writer Reader Inspect.
From S2P Require Import EpochLog WriterLog Isolation ReaderLog Fixtures WriterProps ReaderProps ReaderSeek TrackProps TailLog.
#[local] Open Scope string_scope.
#[local] Open Scope list_scope.
Import inspect_follow.

Section Track.
Context (p : TrackPath) (m : objs) (tr : trackRoot) (logs : list (epochLogRoot * list GroupInfo)).
Context (Hv : track_view p m tr logs).

(** ** The identities of a track are sorted *)

Lemma groups_sorted :
  ordered_logs logs → StronglySorted (λ a b, (ID a < ID b)%N) (groups_of logs).
Proof using Hv.
  intros Hord. rewrite <-(firstn_all logs). generalize (length logs) as k.
  induction k as [|k IH]; [constructor|].
  destruct (logs !! k) as [[root gs]|] eqn:Hk.
  2: { rewrite take_ge; [|apply lookup_ge_None in Hk; lia]. rewrite take_ge in IH; [done|].
       by apply lookup_ge_None in Hk. }
  rewrite (take_S_r _ _ _ Hk), groups_of_app, groups_of_one. apply StronglySorted_app_2; [|done|].
  - intros a b Ha Hb. apply elem_of_groups_of in Ha as (i & root' & gs' & Hi & Ha).
    apply lookup_take_Some in Hi as [Hi Hik]. apply (proj1 (N.compare_lt_iff _ _)). rewrite GroupID_lex.
    rewrite (row_epoch p m tr logs Hv i root' gs' a Hi Ha), (row_epoch p m tr logs Hv k root gs b Hk Hb).
    by rewrite (proj2 (N.compare_lt_iff _ _)) by lia.
  - unfold ordered_logs in Hord. rewrite Forall_lookup in Hord. pose proof (Hord _ _ Hk) as Hgs. cbn in Hgs.
    assert (∀ g, g ∈ gs → Epoch (ID g) = (1 + N.of_nat k)%N) as He by (intros; by eapply row_epoch).
    clear -Hgs He. induction Hgs as [|a gs Hgs IH Ha]; [constructor|]. constructor.
    + apply IH. intros g Hg. apply He. by right.
    + apply Forall_forall. intros b Hb. rewrite Forall_forall in Ha. specialize (Ha _ Hb).
      apply (proj1 (N.compare_lt_iff _ _)). rewrite GroupID_lex, (He a), (He b), N.compare_refl by set_solver.
      by apply N.compare_lt_iff.
Qed.

(** What follows a group is what has a greater identity. *)
Lemma groups_after pre g post :
  ordered_logs logs → groups_of logs = pre ++ g :: post →
  List.filter (λ x, ID g <? ID x)%N (groups_of logs) = post.
Proof using Hv.
  intros Hord Heq. pose proof (groups_sorted Hord) as Hs. rewrite Heq in *. rewrite List.filter_app.
  apply StronglySorted_app in Hs as (Hlt & _ & Hs). inversion_clear Hs as [|? ? _ Hpost].
  assert (List.filter (λ x, ID g <? ID x)%N pre = []) as ->.
  { clear -Hlt. induction pre as [|a pre IH]; [done|]. cbn. specialize (Hlt a g ltac:(set_solver) ltac:(set_solver)) as Ha.
    rewrite (proj2 (N.ltb_ge _ _)) by lia. apply IH. intros. apply Hlt; set_solver. }
  cbn. rewrite N.ltb_irrefl. apply filter_all. intros x Hx. rewrite Forall_forall in Hpost.
  by apply N.ltb_lt, Hpost.
Qed.

Lemma group_in_range g :
  g ∈ groups_of logs → is_u64 (ID g) ∧ (0 < Epoch (ID g) <= N.of_nat (length logs))%N.
Proof using Hv.
  intros Hg. apply elem_of_groups_of in Hg as (i & root & gs & Hi & Hg).
  rewrite (row_epoch p m tr logs Hv i root gs g Hi Hg). apply lookup_lt_Some in Hi as Hlt. split; [|lia].
  pose proof (log_rows _ _ _ _ _ (tv_logs _ _ _ _ Hv i root gs Hi)) as Hrows.
  rewrite Forall_forall in Hrows. by destruct (Hrows g Hg) as (((? & _) & _) & _).
Qed.

(** ** The loops *)

(** What a loop makes of the groups from the cursor on: all of them, or, when a call
    fails, those before it and the error. *)
Definition streamed {A B} (fl : bool) (f : GroupInfo → A) (fin : B) (error_of : error → B)
    (rest : list GroupInfo) (out : list A * B) : Prop :=
  out = (map f rest, fin) ∨
  fl = true ∧ ∃ pre er, pre `prefix_of` rest ∧ out = (map f pre, error_of er).

Lemma streamed_cons {A B} fl (f : GroupInfo → A) (fin : B) error_of g rest out :
  streamed fl f fin error_of rest out → streamed fl f fin error_of (g :: rest) (f g :: out.1, out.2).
Proof using.
  intros [-> |(-> & pre & er & Hpre & ->)]; [by left|right]. split; [done|].
  exists (g :: pre), er. split; [by apply prefix_cons|done].
Qed.

Lemma streamed_error {A B} (f : GroupInfo → A) (fin : B) error_of rest er :
  streamed true f fin error_of rest ([], error_of er).
Proof using. right. split; [done|]. exists [], er. split; [apply prefix_nil|done]. Qed.

Lemma wp_inspect_loop fl fuel n : ∀ r rest,
  cursor p logs r rest → length logs + 2 <= fuel → length rest < n →
  wp (op_spec fl) (inspect_loop n fuel r) (λ out m', m' = m ∧
    streamed fl inspect_cells None Some rest out) m.
Proof using Hv.
  induction n as [|n IH]; intros r rest Hc Hfuel Hn; [lia|]. cbn [inspect_loop].
  apply wp_bind. eapply wp_mono; [|eapply (wp_Next p m tr logs Hv); [done|]].
  2: { rewrite (cu_latest _ _ _ _ Hc). lia. }
  intros [r' res] m' [-> [Hok|(-> & (er & Her & HE) & _)]]; cbn [fst snd] in *.
  - destruct rest as [|g rest]; [destruct Hok as [-> _]; split; [done|by left]|].
    destruct Hok as (-> & _ & Hc'). apply wp_bind. cbn [length] in Hn.
    eapply wp_mono; [|apply IH; [done|done|lia]]. intros out m' [-> Hout]. split; [done|]. by apply streamed_cons.
  - rewrite Her. cbn [mret prog_ret wp]. rewrite HE. split; [done|]. by apply streamed_error.
Qed.

Lemma wp_follow_loop fl fuel n : ∀ ticks r rest,
  cursor p logs r rest → length logs + 2 <= fuel → length rest + ticks < n →
  wp (op_spec fl) (follow_loop n fuel ticks r) (λ out m', m' = m ∧
    streamed fl follow_line (Returns (Some [Canceled])) (Returns ∘ Some) rest out) m.
Proof using Hv.
  induction n as [|n IH]; intros ticks r rest Hc Hfuel Hn; [lia|]. cbn [follow_loop].
  apply wp_bind. eapply wp_mono; [|eapply (wp_Next p m tr logs Hv); [done|]].
  2: { rewrite (cu_latest _ _ _ _ Hc). lia. }
  intros [r' res] m' [-> [Hok|(-> & (er & Her & HE) & _)]]; cbn [fst snd] in *.
  - destruct rest as [|g rest].
    + destruct Hok as [-> Hc']. change (errors_Is [EOF] EOF) with true. cbn iota.
      destruct ticks as [|ticks]; [split; [done|by left]|]. apply IH; [done|done|cbn in *; lia].
    + destruct Hok as (-> & _ & Hc'). apply wp_bind. cbn [length] in Hn.
      eapply wp_mono; [|apply IH; [done|done|lia]]. intros out m' [-> Hout]. split; [done|]. by apply streamed_cons.
  - rewrite Her, HE. split; [done|]. by apply (streamed_error _ _ (Returns ∘ Some)).
Qed.

(** ** The commands *)

Context (fs_New : string → option error) (ParseDuration : string → option Z) (root : string).
Context (Hroot : fs_New root = None) (Hval : TrackPath_validate p = None) (Hne : logs ≠ []).

Lemma wp_openTrack fl :
  wp (op_spec fl) (openTrack fs_New root p) (λ res m', m' = m ∧
    match res with
    | Ok t => t_path t = p ∧ t_root t = tr
    | Err er => fl = true
    end) m.
Proof using Hv Hroot Hval.
  unfold openTrack, ledger.Open. rewrite Hroot, Hval. apply wp_bind.
  eapply wp_mono; [|by eapply wp_fetchTrackRoot].
  intros [[t v]|er] m' [-> H]; (split; [done|]); [|done]. by destruct H as [-> _].
Qed.

Lemma path_not_empty : String.eqb p "" = false.
Proof using Hval. apply String.eqb_neq. intros E. clear -Hval E. by rewrite E in Hval. Qed.

Definition header : list string := inspect_header (mkTrackInfo (schema tr) p (LatestEpoch tr)) ++ [""].

(** What [inspect -groups] prints of the groups [l]. *)
Definition listing (l : list GroupInfo) : list string :=
  header ++ tabwriter.lines (column_names :: map inspect_cells l).

Lemma wp_inspect fl fuel :
  length logs + 2 <= fuel → length (groups_of logs) < fuel →
  wp (op_spec fl) (inspect fs_New fuel ["-root"; root; "-track"; p; "-groups"]) (λ out m', m' = m ∧
    (out = (listing (groups_of logs), Returns None) ∨
     fl = true ∧ ∃ er, out.2 = Returns (Some er) ∧
       (out.1 = [] ∨ out.1 = header ∨ ∃ pre, pre `prefix_of` groups_of logs ∧ out.1 = listing pre))) m.
Proof using Hv Hroot Hval Hne.
  intros Hf1 Hf2. unfold inspect.
  change (flag.Parse _ _ _) with (flag.Parsed (<["groups":="true"]> (<["track":=p]> (<["root":=root]> ∅)))).
  cbv beta iota zeta. set (vs := <["groups":="true"]> _).
  change (flag.get vs "track" "") with p. change (flag.get vs "root" ".") with root.
  change (flag.get_bool vs "groups") with true. rewrite path_not_empty. apply wp_bind.
  eapply wp_mono; [|apply wp_openTrack]. intros [t|er] m' [-> H].
  2: { split; [done|]. right. split; [done|]. exists er. split; [done|by left]. }
  destruct H as [Hp Ht]. unfold Track_Root. rewrite Ht, Hp. fold header. cbn [negb]. apply wp_bind.
  eapply wp_mono; [|apply (wp_Track_Reader p m tr logs Hv); [done|rewrite Ht; apply Hv|done]].
  intros [r|er] m' [-> H]; [|destruct H].
  2: { split; [done|]. right. split; [done|]. exists er. split; [done|by right; left]. }
  apply wp_bind. eapply wp_mono; [|by apply wp_inspect_loop; [apply H|..]].
  intros out m' [-> [-> |(-> & pre & er & Hpre & ->)]]; (split; [done|]); [by left|right].
  split; [done|]. exists er. split; [done|]. right. right. by exists pre.
Qed.

(** The flags of [follow] with the id to resume after, if one is given. *)
Definition follow_args (group : option string) : list string :=
  ["-root"; root; "-track"; p] ++ match group with Some g => ["-group"; g] | None => [] end.

(** What [follow] prints, once the place it starts at is found. *)
Lemma wp_follow fl n fuel ticks group rest :
  length logs + 2 <= fuel → length rest + ticks < n →
  (∀ r, r_path r = p → latest r = N.of_nat (length logs) → cursor p logs (SeekStart r) (groups_of logs) →
    wp (op_spec fl) (follow_seek fuel (default "" group) false r) (λ a m', m' = m ∧
      match a.2 with None => cursor p logs a.1 rest | Some _ => fl = true end) m) →
  wp (op_spec fl) (follow fs_New ParseDuration n fuel ticks (follow_args group)) (λ out m', m' = m ∧
    streamed fl follow_line (Returns (Some [Canceled])) (Returns ∘ Some) rest out) m.
Proof using Hv Hroot Hval Hne.
  intros Hf Hn Hseek.
  assert (∃ vs, flag.Parse (follow_flags ParseDuration) (follow_args group) ∅ = flag.Parsed vs ∧
    flag.get vs "root" "." = root ∧ flag.get vs "track" "" = p ∧ flag.get vs "group" "" = default "" group ∧
    flag.get_bool vs "tip" = false ∧ vs !! "interval" = None) as (vs & Hvs & Hr & Hp & Hg & Htip & Hint).
  { destruct group as [g|]; [exists (<["group":=g]> (<["track":=p]> (<["root":=root]> ∅)))
    |exists (<["track":=p]> (<["root":=root]> ∅))]; split_and!; reflexivity. }
  unfold follow. rewrite Hvs, Hr, Hp, Hg, Htip, Hint. cbv zeta. rewrite path_not_empty. apply wp_bind.
  assert (∀ er, fl = true → streamed fl follow_line (Returns (Some [Canceled])) (Returns ∘ Some) rest
    ([], Returns (Some er))) as Hfail by (intros er ->; apply (streamed_error _ _ (Returns ∘ Some))).
  eapply wp_mono; [|apply wp_openTrack]. intros [t|er] m' [-> H]; [|split; [done|by apply Hfail]].
  destruct H as [Hpt Ht]. apply wp_bind.
  eapply wp_mono; [|apply (wp_Track_Reader p m tr logs Hv); [done|rewrite Ht; apply Hv|done]].
  intros [r|er] m' [-> H]; [|split; [done|apply Hfail, H]]. destruct H as (Hpr & Hl & Hc).
  apply wp_bind. eapply wp_mono; [|by apply Hseek].
  intros [r' [er|]] m' [-> H]; cbn [fst snd] in *; [split; [done|by apply Hfail]|].
  change (default DefaultPollInterval _) with DefaultPollInterval. cbn [Z.leb].
  change (DefaultPollInterval <=? 0)%Z with false. cbn iota. by apply wp_follow_loop.
Qed.

Lemma wp_follow_start fl n fuel ticks :
  length logs + 2 <= fuel → length (groups_of logs) + ticks < n →
  wp (op_spec fl) (follow fs_New ParseDuration n fuel ticks (follow_args None)) (λ out m', m' = m ∧
    streamed fl follow_line (Returns (Some [Canceled])) (Returns ∘ Some) (groups_of logs) out) m.
Proof using Hv Hroot Hval Hne. intros. apply wp_follow; [done|done|]. intros r _ _ Hc. by split. Qed.

(** Resuming after a group that was printed. *)
Lemma wp_follow_after fl n fuel ticks pre g post :
  ordered_logs logs → probes logs fuel → groups_of logs = pre ++ g :: post →
  length logs + 2 <= fuel → length post + ticks < n →
  wp (op_spec fl) (follow fs_New ParseDuration n fuel ticks (follow_args (Some (GroupID_String (ID g)))))
    (λ out m', m' = m ∧
      streamed fl follow_line (Returns (Some [Canceled])) (Returns ∘ Some) post out) m.
Proof using Hv Hroot Hval Hne.
  intros Hord Hprobes Heq Hf Hn. apply wp_follow; [done|done|]. intros r Hp Hl _. unfold follow_seek.
  assert (g ∈ groups_of logs) as Hg by (rewrite Heq; set_solver).
  destruct (group_in_range g Hg) as [Hu He].
  change (default "" (Some (GroupID_String (ID g)))) with (GroupID_String (ID g)).
  assert (negb (String.eqb (GroupID_String (ID g)) "") = true) as -> by done.
  rewrite ParseGroupID_String by done.
  eapply wp_mono; [|eapply (wp_SeekAfter p m tr logs Hv Hord fl fuel r (ID g)); try done; by rewrite Hl].
  intros [r' [er|]] m' [-> H]; (split; [done|]); [done|]. by rewrite (groups_after pre g post) in H.
Qed.
End Track.

(** ** The build reported *)

(** What the linker stamped is reported, whatever the build information says. *)
Lemma Get_stamped v c d build :
  c ≠ "none" → d ≠ "unknown" →
  let info := version.Get (v, c, d) build in
  version.Version info = v ∧ version.Commit info = c ∧ version.Date info = d.
Proof.
  intros Hc Hd. unfold version.Get. destruct build as [b|]; [|done].
  assert (∀ l info, version.Version info = v ∧ version.Commit info = c ∧ version.Date info = d →
    let info' := foldl version.setting info l in
    version.Version info' = v ∧ version.Commit info' = c ∧ version.Date info' = d) as H; [|by apply H].
  induction l as [|s l IH]; intros info Hi; [done|]. apply IH. destruct Hi as (Hv & Hc' & Hd').
  apply String.eqb_neq in Hc as Hc2, Hd as Hd2. unfold version.setting. rewrite Hc', Hd', Hc2, Hd2.
  by destruct (String.eqb s.1 "vcs.revision"), (String.eqb s.1 "vcs.time").
Qed.

(** Without stamps the revision is the first the build information names. *)
Example Get_go_run :
  version.Get version.unstamped (Some (version.mkBuildInfo "go1.24"
    [("vcs", "git"); ("vcs.revision", "f00d"); ("vcs.time", "2025-01-02T03:04:05Z"); ("vcs.revision", "beef")])) =
  version.mkInfo "dev" "f00d" "2025-01-02T03:04:05Z" "go1.24".
Proof. vm_compute. reflexivity. Qed.

(** ** Starting at the tip *)

(** The delta after the one the head names, or the first. *)
Definition after_head (h : option head) : N := match h with Some h => Delta h + 1 | None => 0 end.

(** The head stored, if there is one. *)
Definition stored_head (p : TrackPath) (m : objs) (e : N) (h : option head) : Prop :=
  match h with
  | Some h => stored_as m (headKey p e) h
  | None => m !! headKey p e = None
  end.

Section Tip.
Context (p : TrackPath) (m : objs) (tr : trackRoot) (older : list (epochLogRoot * list GroupInfo)).
Context (root : epochLogRoot) (gs : list GroupInfo) (Hv : track_view p m tr (older ++ [(root, gs)])).

Lemma wp_SeekTip fl r :
  r_path r = p → latest r = N.of_nat (S (length older)) →
  wp (op_spec fl) (SeekTip r) (λ a m', m' = m ∧
    match a.2 with
    | None => ∃ h, stored_head p m (latest r) h ∧ (after_head h <= log_size gs)%N ∧
        tails p m (older ++ [(root, gs)]) a.1 (length (groups_of older) + N.to_nat (after_head h)) ∧
        ((OpenFrom root <= after_head h)%N →
         cursor p (older ++ [(root, gs)]) a.1 (drop (N.to_nat (after_head h)) gs))
    | Some _ => fl = true
    end) m.
Proof using Hv.
  intros Hp Hl. assert ((older ++ [(root, gs)]) !! length older = Some (root, gs)) as Hi.
  { by rewrite lookup_app_r, Nat.sub_diag by done. }
  pose proof (tv_logs _ _ _ _ Hv _ root gs Hi) as Hlog.
  replace (1 + N.of_nat (length older))%N with (latest r) in Hlog by lia.
  pose proof (log_room _ _ _ _ _ Hlog) as Hroom. unfold room in Hroom.
  assert (∀ r1 h, r_path r1 = p → latest r1 = latest r → r_epoch r1 = latest r → r_logRoot r1 = root →
    next r1 = after_head h → (after_head h <= log_size gs)%N → idx r1 = 0 → batch r1 = [] →
    tails p m (older ++ [(root, gs)]) r1 (length (groups_of older) + N.to_nat (after_head h)) ∧
    ((OpenFrom root <= after_head h)%N →
     cursor p (older ++ [(root, gs)]) r1 (drop (N.to_nat (after_head h)) gs))) as Htails.
  { intros r1 h Hp1 Hl1 He1 Hr1 Hn1 Hh Hi1 Hb1. split.
    2: { intros Ho. constructor; [done|rewrite length_app; cbn; lia|]. exists (length older), gs.
      rewrite He1, Hr1, Hi1, Hb1, Hn1, (drop_ge (older ++ _)) by (rewrite length_app; cbn; lia).
      split_and!; [lia|done|by left|]. cbn. by rewrite app_nil_r. }
    constructor; [done|rewrite length_app; cbn; lia|].
    exists (length older), (N.to_nat (next r1)), root, gs.
    rewrite He1, Hr1, Hi1, Hb1.
    split_and!; [lia|done|apply Hlog|lia|lia|lia|symmetry; apply drop_ge; rewrite length_take; lia|]. unfold offset.
    rewrite take_app_le, firstn_all, Hn1 by done. done. }
  unfold SeekTip, loadEpoch. rewrite Hp. apply wp_bind, wp_bind.
  eapply wp_mono; [|by eapply wp_fetchEpochLog].
  intros [[rt v]|er] m' [-> H]; cbn [mret prog_ret wp]; [|split; [done|apply H]]. destruct H as [-> _].
  cbn [r_path latest]. unfold fetchHead. apply wp_bind, wp_bind, wp_Get.
  - intros d v' Hd. destruct (log_head _ _ _ _ _ Hlog _ Hd) as (h & Hh & Hlt). unfold holds_manifest in Hh.
    cbn [fst mret prog_ret wp] in *. rewrite Hh. split; [done|]. exists (Some h).
    assert (after_head (Some h) <= log_size gs)%N as Hle by (cbn; lia).
    split; [by exists (d, v')|]. split; [done|]. apply Htails; try done.
    apply u64_small. unfold is_u64, two64. lia.
  - intros er Hne Hnone. cbn [mret prog_ret wp]. rewrite Hne. split; [done|]. exists None.
    split; [done|]. split; [cbn; lia|]. apply Htails; try done. cbn. lia.
  - intros er -> Hb Hne. cbn [mret prog_ret wp]. rewrite Hne. by split.
Qed.
End Tip.

(** * Properties *)

(** C27 Stopping and resuming [follow]: on a track whose sequences increase and nobody
    writes, a run from the start prints the groups in commit order, all of them when
    no call fails, and some first part of them otherwise; a second run given, by
    [-group], the id on the last line printed prints on from the next group, without
    repeating or skipping one, and to the end when no call fails. Both runs end: once
    the context is canceled, after as many ticks as it leaves. *)
Theorem follow_resumes fl1 fl2 p m tr logs fs_New ParseDuration root info n fuel ticks :
  track_view p m tr logs → ordered_logs logs → logs ≠ [] → TrackPath_validate p = None →
  fs_New root = None → probes logs fuel → length logs + 2 <= fuel →
  length (groups_of logs) + ticks < n →
  let start := ["follow"; "-root"; root; "-track"; p] in
  wp (op_spec fl1) (run fs_New ParseDuration info n fuel ticks start) (λ out m', m' = m ∧ ∃ printed,
    out.1 = map follow_line printed ∧ printed `prefix_of` groups_of logs ∧
    (fl1 = false → printed = groups_of logs ∧ out.2 = Returns (Some [Canceled])) ∧
    ∀ g, list.last printed = Some g →
      wp (op_spec fl2) (run fs_New ParseDuration info n fuel ticks
          (start ++ ["-group"; GroupID_String (ID g)])) (λ out' m'', m'' = m ∧ ∃ rest,
        out'.1 = map follow_line rest ∧ printed ++ rest `prefix_of` groups_of logs ∧
        (fl2 = false → printed ++ rest = groups_of logs ∧ out'.2 = Returns (Some [Canceled]))) m') m.
Proof.
  intros Hv Hord Hne Hval Hroot Hprobes Hf Hn start.
  eapply wp_mono; [|by apply (wp_follow_start p m tr logs Hv fs_New ParseDuration root Hroot Hval Hne fl1 n fuel ticks)].
  intros out m' [-> Hout]. split; [done|].
  assert (∃ printed, out.1 = map follow_line printed ∧ printed `prefix_of` groups_of logs ∧
    (fl1 = false → printed = groups_of logs ∧ out.2 = Returns (Some [Canceled]))) as (printed & Hp & [post Hpre] & Hfull).
  { destruct Hout as [-> |(-> & pre & er & Hpre & ->)]; [by exists (groups_of logs)|by exists pre]. }
  exists printed. split_and!; [done|by exists post|done|]. intros g Hg.
  apply last_Some in Hg as [pre ->]. rewrite <-app_assoc in Hpre. cbn [app] in Hpre.
  eapply wp_mono; [|eapply (wp_follow_after p m tr logs Hv fs_New ParseDuration root Hroot Hval Hne fl2 n fuel ticks pre g post);
    [done|done|done|done|rewrite Hpre, length_app in Hn; cbn in Hn; lia]].
  intros out' m'' [-> Hout']. split; [done|]. rewrite Hpre.
  destruct Hout' as [-> |(-> & rest & er & Hrest & ->)].
  - exists post. by rewrite <-app_assoc.
  - exists rest. rewrite <-app_assoc. split_and!; [done| |done]. by apply prefix_app, prefix_cons.
Qed.

(** [inspect -groups] lists every group of the track, in commit order, under a header;
    it reports success only for the whole list. *)
Theorem inspect_lists fl p m tr logs fs_New ParseDuration root info n fuel ticks :
  track_view p m tr logs → logs ≠ [] → TrackPath_validate p = None → fs_New root = None →
  length logs + 2 <= fuel → length (groups_of logs) < fuel →
  wp (op_spec fl) (run fs_New ParseDuration info n fuel ticks ["inspect"; "-root"; root; "-track"; p; "-groups"])
    (λ out m', m' = m ∧
      (out = (listing p tr (groups_of logs), Returns None) ∨
       fl = true ∧ ∃ er, out.2 = Returns (Some er) ∧
         (out.1 = [] ∨ out.1 = header p tr ∨
          ∃ pre, pre `prefix_of` groups_of logs ∧ out.1 = listing p tr pre))) m.
Proof. intros. by eapply wp_inspect. Qed.

(** C30 [SeekTip]: it puts the cursor behind the group the head names; every group
    committed after that one is yielded by the polls that follow, and while the head
    has not fallen behind a seal, nothing else is. *)
Theorem SeekTip_lands fl p m tr older root gs r fuel :
  track_view p m tr (older ++ [(root, gs)]) → r_path r = p → latest r = N.of_nat (S (length older)) →
  length older + 2 <= fuel →
  wp (op_spec fl) (SeekTip r) (λ a m', m' = m ∧
    match a.2 with
    | None => ∃ h, stored_head p m (latest r) h ∧ (after_head h <= log_size gs)%N ∧
        ((OpenFrom root <= after_head h)%N →
         cursor p (older ++ [(root, gs)]) a.1 (drop (N.to_nat (after_head h)) gs)) ∧
        ∀ polls, enough_polls (length (groups_of older ++ gs)) <= polls →
          wp (op_spec false) (TailLog.follow polls fuel a.1) (λ out m'', m'' = m ∧ out.2 = None ∧
            drop (N.to_nat (after_head h)) gs `sublist_of` out.1) m'
    | Some _ => fl = true
    end) m.
Proof.
  intros Hv Hp Hl Hf. assert (groups_of (older ++ [(root, gs)]) = groups_of older ++ gs) as Hall.
  { by rewrite groups_of_app, groups_of_one. }
  eapply wp_mono; [|by eapply wp_SeekTip]. intros [r' [er|]] m' [-> H]; (split; [done|]); cbn [fst snd] in *; [done|].
  destruct H as (h & Hh & Hle & Ht & Hc). exists h. split_and!; [done|done|done|]. intros polls Hpolls.
  eapply wp_mono; [|eapply (wp_catch_up p m tr _ Hv fuel); [|exact Ht|by rewrite Hall]].
  - intros out m'' (-> & He & Hs). split_and!; [done|done|]. rewrite Hall, drop_app in Hs.
    rewrite (drop_ge (groups_of older)) in Hs by lia. cbn [app] in Hs.
    by replace (length (groups_of older) + N.to_nat (after_head h) - length (groups_of older))
      with (N.to_nat (after_head h)) in Hs by lia.
  - rewrite length_app. cbn. lia.
Qed.

(** * At a concrete track *)

Definition no_duration : string → option Z := λ _, None.
Definition any_root : string → option error := λ _, None.
Definition cam_build : version.Info := version.Get version.unstamped None.

Lemma follow_resumes_witness :
  let start := ["follow"; "-root"; "."; "-track"; cam] in
  wp (op_spec true) (run any_root no_duration cam_build 9 9 2 start) (λ out m', m' = cam_view ∧ ∃ printed,
    out.1 = map follow_line printed ∧ printed `prefix_of` groups_of cam_logs ∧
    (true = false → printed = groups_of cam_logs ∧ out.2 = Returns (Some [Canceled])) ∧
    ∀ g, list.last printed = Some g →
      wp (op_spec false) (run any_root no_duration cam_build 9 9 2
          (start ++ ["-group"; GroupID_String (ID g)])) (λ out' m'', m'' = cam_view ∧ ∃ rest,
        out'.1 = map follow_line rest ∧ printed ++ rest `prefix_of` groups_of cam_logs ∧
        (false = false → printed ++ rest = groups_of cam_logs ∧ out'.2 = Returns (Some [Canceled]))) m') cam_view.
Proof.
  apply (follow_resumes true false cam cam_view (t_root cam_track) cam_logs any_root no_duration "." cam_build 9 9 2).
  - apply cam_track_view.
  - apply cam_ordered.
  - discriminate.
  - reflexivity.
  - reflexivity.
  - repeat constructor.
  - simpl. lia.
  - simpl. lia.
Defined.

Lemma inspect_lists_witness :
  wp (op_spec false) (run any_root no_duration cam_build 0 9 0 ["inspect"; "-root"; "."; "-track"; cam; "-groups"])
    (λ out m', m' = cam_view ∧
      (out = (listing cam (t_root cam_track) (groups_of cam_logs), Returns None) ∨
       false = true ∧ ∃ er, out.2 = Returns (Some er) ∧
         (out.1 = [] ∨ out.1 = header cam (t_root cam_track) ∨
          ∃ pre, pre `prefix_of` groups_of cam_logs ∧ out.1 = listing cam (t_root cam_track) pre))) cam_view.
Proof.
  apply (inspect_lists false cam cam_view (t_root cam_track) cam_logs any_root no_duration "." cam_build 0 9 0).
  - apply cam_track_view.
  - discriminate.
  - reflexivity.
  - reflexivity.
  - simpl. lia.
  - simpl. lia.
Defined.

(** What is printed of that track. *)
Example cam_listing : listing cam (t_root cam_track) (groups_of cam_logs) =
  ["track       site/cam"; "timescale   90000 units/sec (ingest)"; "encoding     video/mp4"; "epochs      1"; "";
   "GROUP              MEDIA      WALLCLOCK                    OBJECTS  SIZE";
   "e000001-g00000000  0..180000  1970-01-01T00:00:00.000001Z  0        5"].
Proof. vm_compute. reflexivity. Qed.

Example cam_lines : map follow_line (groups_of cam_logs) =
  ["group e000001-g00000000  media 0+180000  0 objects  5 bytes"].
Proof. vm_compute. reflexivity. Qed.

Lemma SeekTip_lands_witness :
  wp (op_spec false) (SeekTip cam_reader) (λ a m', m' = cam_view ∧
    match a.2 with
    | None => ∃ h, stored_head cam cam_view (latest cam_reader) h ∧ (after_head h <= log_size [cam_row])%N ∧
        ((OpenFrom cam_root <= after_head h)%N →
         cursor cam ([] ++ [(cam_root, [cam_row])]) a.1 (drop (N.to_nat (after_head h)) [cam_row])) ∧
        ∀ polls, enough_polls (length (groups_of [] ++ [cam_row])) <= polls →
          wp (op_spec false) (TailLog.follow polls 2 a.1) (λ out m'', m'' = cam_view ∧ out.2 = None ∧
            drop (N.to_nat (after_head h)) [cam_row] `sublist_of` out.1) m'
    | Some _ => false = true
    end) cam_view.
Proof.
  apply (SeekTip_lands false cam cam_view (t_root cam_track) [] cam_root [cam_row] cam_reader 2).
  - apply cam_track_view.
  - reflexivity.
  - reflexivity.
  - simpl. lia.
Defined.
