(* ===== verification/Interfere.v ===== *)
(** * Programs over one store at the same time

    Threads that share a store, each a program; a step is one call of one of them, whose
    answer may be a failure, before or after its effect. [safe] is a weakest
    precondition of one thread while the others run: what a thread may do to the store
    is its guarantee [act], with ghost state beside the objects, and what it relies on is
    that the others do no more than theirs. *)

From S2P Require Import Prelude Store.

Section Interfere.
Context {G : Type}.
(** What thread [i] may do, and the calls at which the account of a run ends. *)
Context (act : nat → objs * G → objs * G → Prop) (cut : op → Prop).

(** Any number of actions of the threads other than [i]. *)
Definition rely (i : nat) : objs * G → objs * G → Prop := rtc (λ s s', ∃ j, j ≠ i ∧ act j s s').

Fixpoint safe {A} (i : nat) (q : prog A) (Q : A → objs * G → Prop) (s : objs * G) : Prop :=
  match q with
  | Ret a => Q a s
  | Do o k => ¬ cut o → ∀ r m', op_spec true o s.1 r m' →
      ∃ g', act i s (m', g') ∧ ∀ s2, rely i (m', g') s2 → safe i (k r) Q s2
  | OutOfFuel => False
  end.

(** What the others cannot make false. *)
Definition stable (i : nat) (P : objs * G → Prop) : Prop := ∀ s s', rely i s s' → P s → P s'.

Lemma stable_act i P : (∀ j s s', j ≠ i → act j s s' → P s → P s') → stable i P.
Proof using. intros H s s' Hr. induction Hr as [|s1 s2 s3 (j & Hj & Ha)]; eauto. Qed.

Lemma stable_and i P P' : stable i P → stable i P' → stable i (λ s, P s ∧ P' s).
Proof using. intros H H' s s' Hr [? ?]. split; eauto. Qed.

Lemma stable_or i P P' : stable i P → stable i P' → stable i (λ s, P s ∨ P' s).
Proof using. intros H H' s s' Hr [?|?]; [left|right]; eauto. Qed.

Lemma stable_const i (P : Prop) : stable i (λ _, P).
Proof using. by intros s s' _. Qed.

Lemma stable_exist {X} i (P : X → objs * G → Prop) : (∀ x, stable i (P x)) → stable i (λ s, ∃ x, P x s).
Proof using. intros H s s' Hr [x Hx]. exists x. by eapply H. Qed.

Lemma safe_mono {A} i (q : prog A) (Q R : A → objs * G → Prop) s :
  (∀ a s', Q a s' → R a s') → safe i q Q s → safe i q R s.
Proof using.
  intros HQR. revert s. induction q as [a|o k IH|]; cbn; intros s; [apply HQR| |done].
  intros H Hc r m' Hr. destruct (H Hc r m' Hr) as (g' & Ha & Hk). exists g'. split; [done|]. eauto.
Qed.

Lemma safe_bind {A B} i (q : prog A) (f : A → prog B) (Q : B → objs * G → Prop) s :
  safe i q (λ a s', safe i (f a) Q s') s → safe i (q ≫= f) Q s.
Proof using.
  unfold mbind, prog_mbind. revert s. induction q as [a|o k IH|]; cbn; intros s; [done| |done].
  intros H Hc r m' Hr. destruct (H Hc r m' Hr) as (g' & Ha & Hk). exists g'. split; [done|]. eauto.
Qed.

(** One call: it takes [s] to a [P], which the others keep. *)
Lemma safe_call {B} i o (f : resp o → prog B) (P : resp o → objs * G → Prop) (Q : B → objs * G → Prop) s :
  (¬ cut o → ∀ r m', op_spec true o s.1 r m' → ∃ g', act i s (m', g') ∧ P r (m', g')) →
  (∀ r, stable i (P r)) → (∀ r s', P r s' → safe i (f r) Q s') → safe i (Do o Ret ≫= f) Q s.
Proof using.
  intros Ho HP Hf Hc r m' Hr. destruct (Ho Hc r m' Hr) as (g' & Ha & Hr').
  exists g'. split; [done|]. intros s2 Hs2. apply Hf. by eapply HP.
Qed.

(** ** Runs *)

Inductive step {A} : list (prog A) * objs → list (prog A) * objs → Prop :=
  | Call ts m i o k r m' :
      ts !! i = Some (Do o k) → ¬ cut o → op_spec true o m r m' → step (ts, m) (<[i := k r]> ts, m').

Definition all_safe {A} (Q : nat → A → objs * G → Prop) (ts : list (prog A)) (s : objs * G) : Prop :=
  ∀ i q, ts !! i = Some q → ∀ s', rely i s s' → safe i q (Q i) s'.

(** Threads that are safe each by itself are safe together: every run of them is
    accounted for by their actions. *)
Lemma runs_safe {A} (Q : nat → A → objs * G → Prop) ts m ts' m' g :
  all_safe Q ts (m, g) → rtc step (ts, m) (ts', m') →
  ∃ g', rtc (λ s s', ∃ i, i < length ts ∧ act i s s') (m, g) (m', g') ∧ all_safe Q ts' (m', g').
Proof using.
  intros Hsafe Hrun. remember (ts, m) as c eqn:Ec. remember (ts', m') as c' eqn:Ec'.
  revert ts m g Ec Hsafe. induction Hrun as [c|c1 c2 c3 Hstep Hrun IH]; intros ts m g -> Hsafe.
  { injection Ec' as -> ->. exists g. by split; [constructor|]. }
  inversion Hstep as [? ? i o k r m1 Hi Hc Ho]; subst.
  destruct (Hsafe i _ Hi (m, g) (rtc_refl _ _) Hc r m1 Ho) as (g1 & Ha & Hk).
  destruct (IH eq_refl (<[i := k r]> ts) m1 g1 eq_refl) as (g' & Hacts & Hsafe').
  - intros j q Hj s' Hs'. destruct (decide (j = i)) as [->|Hne].
    + rewrite list_lookup_insert_eq in Hj by (by eapply lookup_lt_Some). injection Hj as <-. by apply Hk.
    + rewrite list_lookup_insert_ne in Hj by done. apply (Hsafe j q Hj).
      eapply rtc_l; [|exact Hs']. exists i. done.
  - exists g'. split; [|done]. rewrite length_insert in Hacts. eapply rtc_l; [|exact Hacts].
    exists i. split; [by eapply lookup_lt_Some|done].
Qed.

(** A thread that has answered. *)
Lemma all_safe_done {A} (Q : nat → A → objs * G → Prop) ts s i a :
  all_safe Q ts s → ts !! i = Some (Ret a) → Q i a s.
Proof using. intros H Hi. exact (H i _ Hi s (rtc_refl _ _)). Qed.

(** None is out of fuel. *)
Lemma all_safe_fuel {A} (Q : nat → A → objs * G → Prop) ts s i : all_safe Q ts s → ts !! i ≠ Some OutOfFuel.
Proof using. intros H Hi. exact (H i _ Hi s (rtc_refl _ _)). Qed.
End Interfere.

(** ** Runs on a backend *)

Section Turns.
Context {St : Type} `{!Store St, !StoreLaws St} (cut : op → bool).

(** The threads take turns as [sched] names them; one that would make a call at which
    the account ends makes none. *)
Fixpoint turns {A} (sched : list nat) (ts : list (prog A)) (w : world St) : list (prog A) * world St :=
  match sched with
  | [] => (ts, w)
  | i :: sched' =>
      match ts !! i with
      | Some (Do o k) =>
          if cut o then turns sched' ts w
          else let '(r, w') := world_step o w in turns sched' (<[i := k r]> ts) w'
      | _ => turns sched' ts w
      end
  end.

Lemma turns_steps {A} sched : ∀ (ts : list (prog A)) w,
  world_ok w →
  rtc (step (λ o, cut o = true)) (ts, view (w_store w))
    ((turns sched ts w).1, view (w_store (turns sched ts w).2)).
Proof using StoreLaws0.
  induction sched as [|i sched IH]; intros ts w Hw; cbn [turns]; [constructor|].
  destruct (ts !! i) as [[a|o k|]|] eqn:Ei; try by apply IH.
  destruct (cut o) eqn:Ec; [by apply IH|].
  destruct (world_step_sound o w Hw) as [Hw' Hs]. destruct (world_step o w) as [r w'] eqn:E. cbn [fst snd] in *.
  eapply rtc_l; [|by apply IH]. eapply Call; [done|congruence|done].
Qed.
End Turns.
