(* ===== verification/Fencing.v ===== *)
(** * Writers of one epoch at the same time

    Several processes hold a writer of the same epoch and append through it, their
    store calls in any order and failing at will. Until one of them seals, the deltas'
    keys, each created once, fence the writers off from each other. A seal removes that
    fence, which [second_writer_acknowledged_but_lost] of Findings.v shows; the account
    here ends where one begins. *)

From S2P Require Import Prelude GoStd Json Store MemStore Group Manifest Track Writer.
From S2P Require Import EpochLog WriterLog Isolation Fixtures WriterProps Interfere.
#[local] Open Scope string_scope.
#[local] Open Scope list_scope.

(** ** What the writers did *)

(** The rows they committed, in order, with the number of the writer; and who stored
    which group object. *)
Record ghost := mkGhost { commits : list (nat * GroupInfo); own : gmap string nat }.

Definition mine (i : nat) (g : ghost) : list GroupInfo := (filter (λ c, c.1 = i) (commits g)).*2.

Lemma mine_snoc i j row c o :
  mine i (mkGhost (c ++ [(j, row)]) o) = mine i (mkGhost c o) ++ (if decide (j = i) then [row] else []).
Proof. unfold mine. cbn. rewrite filter_app, fmap_app. f_equal. rewrite filter_cons. cbn. by case_decide. Qed.

(** A list whose entries are numbered below [n] is no longer than its parts together. *)
Lemma length_parts {A} (quota : nat → nat) n : ∀ l : list (nat * A),
  Forall (λ c, c.1 < n) l → (∀ i, length (filter (λ c, c.1 = i) l) <= quota i) →
  length l <= sum_list_with quota (seq 0 n).
Proof.
  induction n as [|n IH]; intros l Hl Hq.
  { destruct l as [|x l]; [done|]. apply Forall_cons in Hl as [? _]. lia. }
  rewrite seq_S, sum_list_with_app. cbn.
  assert (length l = length (filter (λ c, c.1 <> n) l) + length (filter (λ c, c.1 = n) l)) as ->.
  { clear. induction l as [|x l IH]; [done|]. rewrite !filter_cons. destruct (decide (x.1 = n)) as [E|E].
    - rewrite decide_False by (intros H; by apply H). cbn. lia.
    - rewrite decide_True by done. cbn. lia. }
  assert (length (filter (λ c, c.1 <> n) l) <= sum_list_with quota (seq 0 n)); [|specialize (Hq n); lia].
  apply IH.
  - apply Forall_forall. intros c [Hc Hin]%list_elem_of_filter. rewrite Forall_forall in Hl.
    specialize (Hl _ Hin). lia.
  - intros i. rewrite list_filter_filter. etransitivity; [|apply (Hq i)].
    clear. induction l as [|x l IH]; [done|]. rewrite !filter_cons. repeat case_decide; cbn; naive_solver lia.
Qed.

(** The call with which a seal begins. *)
Definition begins_seal (p : TrackPath) (e : N) (o : op) : bool :=
  match o with
  | OCreate k _ => HasPrefix k (p +:+ "/" +:+ epochDir e +:+ "/" +:+ sealedPrefix)
  | _ => false
  end.

Lemma HasPrefix_self s pre rest : s = pre +:+ rest → HasPrefix s pre = true.
Proof.
  intros ->. unfold HasPrefix. apply bool_decide_eq_true. exists rest. induction pre as [|c pre IH]; [by destruct rest|].
  cbn. by rewrite Ascii.eqb_refl.
Qed.

Lemma seal_begins p e f l d : begins_seal p e (OCreate (sealedKey p e f l) d) = true.
Proof.
  apply (HasPrefix_self _ _ (pad 8 f +:+ "-" +:+ pad 8 l +:+ ".manifest")).
  unfold sealedKey. by rewrite !string_app_assoc.
Qed.

Section Writers.
Context (p : TrackPath) (e : N) (Hpar : log_params p e) (root : epochLogRoot) (gs0 : list GroupInfo).
(** The writers, numbered below [n], make at most [quota i] calls each. *)
Context (n : nat) (quota : nat → nat).

Definition log (g : ghost) : list GroupInfo := gs0 ++ (commits g).*2.

Definition most : nat := length gs0 + sum_list_with quota (seq 0 n).

Record inv (m : objs) (g : ghost) : Prop := {
  iv_log : durable p e m root (log g);
  iv_own k i : own g !! k = Some i → is_Some (m !! k);
  iv_commits i row : (i, row) ∈ commits g → own g !! ObjectKey row = Some i;
  iv_ids : Forall (λ c, c.1 < n) (commits g);
  iv_quota i : length (mine i g) <= quota i;
}.

(** Payloads and markers stay. *)
Definition keeps (m m' : objs) : Prop := ∀ k x,
  wf_key k → (∃ e' s, k = KGroup e' s ∨ k = KRedacted e' s) → m !! render p k = Some x → m' !! render p k = Some x.

(** What writer [i] does in one call: it commits at most one row, and takes only
    group objects that are nobody's. *)
Record act (i : nat) (s s' : objs * ghost) : Prop := {
  ac_inv : inv s'.1 s'.2;
  ac_commits : commits s'.2 = commits s.2 ∨ ∃ row, commits s'.2 = commits s.2 ++ [(i, row)];
  ac_own k j : own s.2 !! k = Some j → own s'.2 !! k = Some j;
  ac_new k j : own s'.2 !! k = Some j → own s.2 !! k = Some j ∨ j = i;
  ac_keeps : keeps s.1 s'.1;
}.

Lemma keeps_refl m : keeps m m.
Proof using. by intros k x. Qed.

Lemma act_same i m m' g : inv m' g → keeps m m' → act i (m, g) (m', g).
Proof using. intros Hi Hk. constructor; cbn; auto. Qed.

Lemma log_most g :
  Forall (λ c, c.1 < n) (commits g) → (∀ i, length (mine i g) <= quota i) → length (log g) <= most.
Proof using.
  intros Hids Hq. unfold log, most. rewrite length_app, length_fmap.
  assert (length (commits g) <= sum_list_with quota (seq 0 n)); [|lia].
  apply length_parts; [done|]. intros i. specialize (Hq i). unfold mine in Hq. by rewrite length_fmap in Hq.
Qed.

Lemma inv_most m g : inv m g → length (log g) <= most.
Proof using. intros []. by apply log_most. Qed.

#[local] Abbreviation safe := (safe act (λ o, begins_seal p e o = true)).
#[local] Abbreviation stable := (stable act).

(** ** What the others leave true *)

Definition holding (s : objs * ghost) : Prop := inv s.1 s.2.

Lemma stable_holding i : stable i holding.
Proof using. apply stable_act. by intros j s s' _ [Hi _ _ _ _] _. Qed.

(** The log begins with [gs]. *)
Definition begins (gs : list GroupInfo) (s : objs * ghost) : Prop := gs `prefix_of` log s.2.

Lemma act_log i s s' : act i s s' → log s.2 `prefix_of` log s'.2.
Proof using.
  intros [_ Hc _ _ _]. unfold log. destruct Hc as [->|[row ->]]; [done|].
  rewrite fmap_app, app_assoc. by apply prefix_app_r.
Qed.

Lemma stable_begins i gs : stable i (begins gs).
Proof using. apply stable_act. intros j s s' _ Ha Hg. unfold begins in *. etrans; [exact Hg|by eapply act_log]. Qed.

(** A writer's own rows are its own doing. *)
Lemma stable_mine i rows : stable i (λ s, mine i s.2 = rows).
Proof using.
  apply stable_act. intros j [m [c o]] [m' [c' o']] Hj [_ Hc _ _ _] <-. cbn in *.
  destruct Hc as [->|[row ->]]; [done|]. change (mine i (mkGhost (c ++ [(j, row)]) o') = mine i (mkGhost c o')).
  rewrite mine_snoc, decide_False by done. by rewrite app_nil_r.
Qed.

Lemma stable_owned i k : stable i (λ s, own s.2 !! k = Some i).
Proof using. apply stable_act. intros j s s' _ [_ _ Ho _ _]. apply Ho. Qed.

Lemma stable_object i k x :
  wf_key k → (∃ e' s, k = KGroup e' s ∨ k = KRedacted e' s) → stable i (λ s, s.1 !! render p k = Some x).
Proof using. intros Hk Hkind. apply stable_act. intros j s s' _ [_ _ _ _ H]. by apply H. Qed.

(** ** Reading while others write *)

(** Writer [i] has committed [rows]. *)
Definition idle (i : nat) (rows : list GroupInfo) (s : objs * ghost) : Prop := holding s ∧ mine i s.2 = rows.

Lemma stable_idle i rows : stable i (idle i rows).
Proof using. apply stable_and; [apply stable_holding|apply stable_mine]. Qed.

Lemma safe_Get {B} i rows k (f : result (bytes * Version) → prog B) P Q s :
  idle i rows s →
  (∀ d v, s.1 !! k = Some (d, v) → P (Ok (d, v)) s) →
  (∀ er, errors_Is er ErrNotExist = true → s.1 !! k = None → P (Err er) s) →
  (∀ er, backend_error er = true → errors_Is er ErrNotExist = false → P (Err er) s) →
  (∀ r, stable i (P r)) → (∀ r s', idle i rows s' → P r s' → safe i (f r) Q s') →
  safe i (store_Get k ≫= f) Q s.
Proof using.
  intros Hs HOk HNone HErr HP Hf. destruct s as [m g].
  apply (safe_call _ _ i (OGet k) f (λ r s', idle i rows s' ∧ P r s')).
  - intros _ r m' [-> Hr]. exists g. split; [apply act_same; [apply Hs|apply keeps_refl]|]. split; [done|].
    destruct r as [[d v]|er]; [by apply HOk|]. destruct Hr as [Hb Hr].
    destruct (errors_Is er ErrNotExist) eqn:E; [by apply HNone|by apply HErr].
  - intros r. apply stable_and; [apply stable_idle|apply HP].
  - intros r s' [Hs' Hr]. by apply Hf.
Qed.

Lemma safe_now {B} i rows (f : Z → prog B) Q s :
  idle i rows s → ∀ P, stable i P → P s → (∀ t s', is_i64 t → idle i rows s' → P s' → safe i (f t) Q s') →
  safe i (now ≫= f) Q s.
Proof using.
  intros Hs P HP Hp Hf. destruct s as [m g].
  apply (safe_call _ _ i ONow f (λ t s', is_i64 t ∧ idle i rows s' ∧ P s')).
  - intros _ t m' [-> Ht]. exists g. split; [apply act_same; [apply Hs|apply keeps_refl]|done].
  - intros t. apply stable_and; [apply stable_const|]. apply stable_and; [apply stable_idle|done].
  - intros t s' (? & ? & ?). by apply Hf.
Qed.

Lemma log_room_of m g : inv m g → room (log g).
Proof using. intros Hi. by eapply log_room, du_log, Hi. Qed.

(** The delta numbered past a prefix of the log holds the row that follows it. *)
Lemma delta_after m g gs d v :
  inv m g → gs `prefix_of` log g → m !! deltaKey p e (log_size gs) = Some (d, v) →
  ∃ row dm, gs ++ [row] `prefix_of` log g ∧ decodeManifest d = Ok dm ∧ d_Groups dm = [row].
Proof using.
  intros Hi Hgs Hd. pose proof (log_room_of _ _ Hi) as Hr. pose proof (prefix_length _ _ Hgs).
  assert (is_u64 (log_size gs)) as Hu by (apply (room_u64 (log g)); [done|unfold log_size; lia]).
  destruct (log_delta _ _ _ _ _ (du_log _ _ _ _ _ (iv_log _ _ Hi)) (log_size gs) (d, v) Hu Hd)
    as (row & dm & Hrow & Hdm & Hg).
  exists row, dm. split; [|done]. unfold log_size in Hrow. rewrite Nat2N.id in Hrow.
  destruct Hgs as [rest Hrest]. rewrite Hrest in *. rewrite lookup_app_r, Nat.sub_diag in Hrow by done.
  destruct rest as [|x rest]; [done|]. injection Hrow as <-. exists rest. by rewrite <-app_assoc.
Qed.

(** No delta past it: it is the log. *)
Lemma no_delta_after m g gs :
  inv m g → gs `prefix_of` log g → (OpenFrom root <= log_size gs)%N →
  m !! deltaKey p e (log_size gs) = None → log g = gs.
Proof using.
  intros Hi [rest Hrest] Ho Hnone. destruct rest as [|x rest]; [by rewrite app_nil_r in Hrest|].
  destruct (log_open _ _ _ _ _ (du_log _ _ _ _ _ (iv_log _ _ Hi)) (log_size gs)) as [y Hy]; [|congruence].
  rewrite Hrest. unfold log_size in *. rewrite length_app. cbn. lia.
Qed.

(** ** What a writer knows *)

(** A writer of the epoch knows a first part of the log, that there was at the start
    included. *)
Record believes (w : Writer) (gs : list GroupInfo) : Prop := {
  bl_root : logRoot w = root;
  bl_next : nextDelta w = log_size gs;
  bl_open : openGroups w = drop (N.to_nat (OpenFrom root)) gs;
  bl_last : last_ok w gs;
  bl_start : gs0 `prefix_of` gs;
}.

Definition knows (w : Writer) (s : objs * ghost) : Prop :=
  w_path w = p ∧ w_epoch w = e ∧ (stale w = false → ∃ gs, believes w gs ∧ begins gs s).

Lemma stable_knows i w : stable i (knows w).
Proof using.
  intros s s' Hr (? & ? & Hk). split_and!; [done..|]. intros Hst. destruct (Hk Hst) as (gs & ? & ?).
  exists gs. split; [done|]. by eapply stable_begins.
Qed.

(** The probe's part of a writer, [gs] in. *)
Definition probing (w : Writer) (gs : list GroupInfo) : Prop :=
  openGroups w = drop (N.to_nat (OpenFrom root)) gs ∧
  if decide (OpenFrom root = log_size gs) then hasLast w = false else last_ok w gs.

(** What [recover] answers: the log at the moment it found no further delta. *)
Definition recovered (i : nat) (rows : list GroupInfo) (w : Writer) (r : Writer * option error)
    (s : objs * ghost) : Prop :=
  idle i rows s ∧ kept w r.1 ∧ (r.2 = None → ∃ gs, believes r.1 gs ∧ begins gs s).

Lemma safe_recover_loop i rows from fuel : ∀ w gs s,
  w_path w = p → w_epoch w = e → logRoot w = root → (OpenFrom root <= log_size gs)%N →
  probing w gs → idle i rows s → begins gs s → most < length gs + fuel → (N.of_nat most < 2 ^ 62)%N →
  safe i (recover_loop fuel from (log_size gs) w) (λ r s', idle i rows s' ∧ kept w r.1 ∧
    (r.2 = None → ∃ gs' m', gs0 `prefix_of` gs' ∧ begins gs' s' ∧ epoch_log p e m' root gs' ∧
      nextDelta r.1 = log_size gs' ∧ probing r.1 gs')) s.
Proof using.
  induction fuel as [|fuel IH]; intros w gs s Hp He Hr Ho Hw Hs Hb Hf Hroom.
  { apply proj1, inv_most in Hs as Hm. apply prefix_length in Hb. lia. }
  cbn [recover_loop]. rewrite Hp, He.
  apply (safe_Get i rows _ _ (λ r s', match r with
    | Ok (d, _) => ∃ row dm, begins (gs ++ [row]) s' ∧ decodeManifest d = Ok dm ∧ d_Groups dm = [row]
    | Err er => if errors_Is er ErrNotExist
                then begins gs s' ∧ gs0 `prefix_of` gs ∧ ∃ m', epoch_log p e m' root gs else True
    end)); [done|..].
  - intros d v Hd. destruct s as [m g]. eapply delta_after; [apply Hs|done..].
  - intros er Her Hnone. rewrite Her. split; [done|]. destruct s as [m g].
    pose proof (no_delta_after m g gs (proj1 Hs) Hb Ho Hnone) as <-. split; [unfold log; by apply prefix_app_r|].
    exists m. by apply du_log, Hs.
  - intros er _ ->. done.
  - intros [[d v]|er].
    + apply stable_exist. intros row. apply stable_exist. intros dm.
      apply stable_and; [apply stable_begins|apply stable_const].
    + destruct (errors_Is er ErrNotExist); [|apply stable_const].
      apply stable_and; [apply stable_begins|apply stable_const].
  - intros [[d v]|er] s' Hs' H; cbn beta iota in H.
    + destruct H as (row & dm & Hb' & Hdm & Hg). rewrite Hdm.
      assert (length (gs ++ [row]) <= most) as Hlen.
      { etrans; [by apply prefix_length|]. by apply proj1, inv_most in Hs'. }
      rewrite length_app in Hlen. cbn in Hlen.
      assert (u64 (log_size gs + 1) = log_size (gs ++ [row]))%N as ->.
      { rewrite log_size_snoc. apply u64_small. unfold is_u64, two64, log_size. lia. }
      assert (recover_delta w dm d = {| w with openGroups := openGroups w ++ [row];
        openBytes := i64 (openBytes w + len64 d); last := row; hasLast := true |}) as ->.
      { unfold recover_delta. by rewrite Hg. }
      eapply safe_mono; [|apply (IH _ (gs ++ [row])); try done].
      * intros [w' err] s2 (Hs2 & Hk & Hres). done.
      * rewrite log_size_snoc. lia.
      * destruct Hw as [Hw _]. split; cbn.
        { rewrite Hw, drop_app_le; [done|]. unfold log_size in Ho. lia. }
        rewrite decide_False by (rewrite log_size_snoc; lia). unfold last_ok. by rewrite last_app_one.
      * rewrite length_app. cbn. lia.
    + destruct (errors_Is er ErrNotExist); [|by split_and!].
      destruct H as (Hb' & H0 & m' & Hl). destruct (log_size gs <? from)%N; [by split_and!|].
      split_and!; [done|solve_kept|]. intros _. by exists gs, m'.
Qed.

Context (Hopen : (OpenFrom root <= log_size gs0)%N) (Hroom : (N.of_nat most < 2 ^ 62)%N).
Context (fuel : nat) (Hfuel : most < fuel).

(** A read whose answer does not matter. *)
Lemma safe_read {B} i rows k (f : result (bytes * Version) → prog B) Q s :
  idle i rows s → (∀ r s', idle i rows s' → safe i (f r) Q s') → safe i (store_Get k ≫= f) Q s.
Proof using.
  intros Hs Hf. apply (safe_Get i rows k f (λ _ _, True)); [done..|intros _; apply stable_const|intros; by apply Hf].
Qed.

Lemma safe_recover i rows w s :
  w_path w = p → w_epoch w = e → logRoot w = root → openGroups w = [] → hasLast w = false → idle i rows s →
  safe i (recover fuel w) (recovered i rows w) s.
Proof using Hopen Hroom Hfuel.
  intros Hp He Hr Ho Hl Hs. unfold recover, fetchHead.
  assert (∀ from w1 s1, idle i rows s1 → kept w w1 → openGroups w1 = [] → hasLast w1 = false →
    safe i (r ← recover_loop fuel from (OpenFrom (logRoot w1)) w1;
      let '(w', err) := r in
      mret match err with Some er => (w', Some er) | None => (recover_last w', None) end) (recovered i rows w) s1) as Hprobe.
  { intros from w1 [m g] Hs1 Hk1 Ho1 Hl1. destruct (kept_fields _ _ Hk1) as (Hp1 & He1 & Hr1).
    rewrite Hr1, Hr. apply safe_bind.
    set (gs := list.take (N.to_nat (OpenFrom root)) gs0).
    assert (log_size gs = OpenFrom root) as Hgs.
    { unfold gs, log_size in *. rewrite length_take. lia. }
    assert (begins gs (m, g)) as Hb.
    { exists (drop (N.to_nat (OpenFrom root)) gs0 ++ (commits g).*2).
      unfold log, gs. cbn. by rewrite app_assoc, take_drop. }
    rewrite <-Hgs. eapply safe_mono; [|apply (safe_recover_loop i rows); try done; try congruence].
    - intros [w2 err] s2 (Hs2 & Hk2 & Hres). cbn [fst snd] in *.
      destruct err as [er|]; [split_and!; [done|by eapply kept_trans|done]|].
      destruct (Hres eq_refl) as (gs' & m' & H0 & Hb' & Hlog & Hn & Hop & Hif).
      destruct (recover_last_kept w2) as (Hk3 & Hn3 & Ho3).
      assert (kept w (recover_last w2)) as Hk by eauto using kept_trans.
      assert (logRoot w2 = root) as Hr2 by (destruct (kept_fields _ _ Hk2) as (_ & _ & ->); congruence).
      split_and!; [done|done|]. intros _. exists gs'. split; [|done].
      destruct (kept_fields _ _ Hk) as (_ & _ & Hr3). cbn [fst].
      constructor; [congruence|congruence|congruence| |done].
      by eapply (recover_last_ok p e m').
    - lia.
    - split; [|rewrite decide_True by done; done]. rewrite Ho1, drop_ge; [done|].
      unfold gs. rewrite length_take. lia.
    - apply proj1, inv_most in Hs1. cbn in Hs1. unfold most in *. lia. }
  apply safe_bind, (safe_read i rows); [done|]. intros r s1 Hs1.
  assert (∀ er, safe i (if errors_Is er ErrNotExist
    then r ← recover_loop fuel (OpenFrom (logRoot w)) (OpenFrom (logRoot w)) w;
      let '(w', err) := r in
      mret match err with Some er => (w', Some er) | None => (recover_last w', None) end
    else mret (w, Some er)) (recovered i rows w) s1) as Herr.
  { intros er. destruct (errors_Is er ErrNotExist); [by apply Hprobe|]. by split_and!. }
  destruct r as [[d v]|er]; [destruct (decodeManifest d) as [h|er]|]; cbn [Interfere.safe mret prog_ret].
  - by apply Hprobe.
  - apply Herr.
  - apply Herr.
Qed.

Lemma safe_reload i rows w s :
  knows w s → idle i rows s →
  safe i (reloadIfStale fuel w) (λ r s', idle i rows s' ∧ config r.1 = config w ∧ knows r.1 s' ∧
    (r.2 = None → stale r.1 = false)) s.
Proof using Hopen Hroom Hfuel.
  intros Hk Hs. pose proof Hk as (Hp & He & _). unfold reloadIfStale.
  destruct (stale w) eqn:Est; cbn [negb]; [|by split_and!].
  unfold fetchEpochLog. rewrite Hp, He. apply safe_bind.
  apply (safe_Get i rows _ _ (λ r s', knows w s' ∧ match r with Ok (d, _) => decodeManifest d = Ok root | Err _ => True end));
    [done|..].
  - intros d v Hd. split; [done|]. destruct s as [m g].
    destruct (log_root _ _ _ _ _ (du_log _ _ _ _ _ (iv_log _ _ (proj1 Hs)))) as ([d0 v0] & Ho & Hm).
    cbn [fst snd] in *. rewrite Ho in Hd. by injection Hd as -> ->.
  - done.
  - done.
  - intros r. apply stable_and; [apply stable_knows|apply stable_const].
  - intros r s1 Hs1 [Hk1 Hr]. destruct r as [[d v]|er]; cbn [Interfere.safe mret prog_ret].
    2: { destruct (errors_Is er ErrNotExist); by split_and!. }
    rewrite Hr. destruct (negb _); [by split_and!|]. destruct (negb _); [by split_and!|].
    apply safe_bind. eapply safe_mono; [|by apply (safe_recover i rows)].
    intros [w' err] s2 (Hs2 & (Hc & Hr' & Hlv & Hst') & Hres). cbn [fst snd] in *.
    apply config_eq in Hc as Hc'. cbn in Hc'. destruct Hc' as (Hp' & He' & _).
    assert (config w' = config w) as Hcw by (rewrite Hc; unfold config; cbn; congruence).
    destruct err as [er|]; cbn [fst snd]; (split; [done|]; split; [done|]); (split; [|done]).
    + split; [cbn; congruence|]. split; [cbn; congruence|]. cbn in *. congruence.
    + split; [cbn; congruence|]. split; [cbn; congruence|]. intros _.
      destruct (Hres eq_refl) as (gs & [] & Hb). exists gs. by split.
Qed.

(** ** Publishing the head *)

Lemma safe_swap_head {B} i rows num id t expect (f : result Version → prog B) gs Q s :
  idle i rows s → begins gs s → (num < log_size gs)%N → is_u64 id → is_i64 t →
  (∀ r s', idle i rows s' → begins gs s' → safe i (f r) Q s') →
  safe i (store_Swap (headKey p e) (encodeManifest (mkHead manifestVersion num id t)) expect ≫= f) Q s.
Proof using Hpar Hopen Hroom Hfuel.
  intros [Hs Hm] Hb Hn Hid Ht Hf. destruct s as [m g]. set (data := encodeManifest _).
  assert (log_size gs <= log_size (log g))%N as Hle by (apply (prefix_length gs (log g)) in Hb; unfold log_size; lia).
  assert (∀ v, act i (m, g) (<[headKey p e := (data, v)]> m, g)) as Hins.
  { intros v. apply act_same.
    - destruct Hs as [Hl Ho Hc Hi Hq]. cbn [fst snd] in *. constructor; try done.
      + apply durable_head with (h := mkHead manifestVersion num id t); [done| |cbn; lia|done].
        apply head_encodable; [|done..]. apply (room_u64 (log g)); [by eapply log_room, du_log|lia].
      + intros k j Hk. destruct (Ho k j Hk). rewrite lookup_insert_is_Some'. by right.
    - intros k x Hk (e' & s' & [-> | ->]) Hx; (rewrite (render_insert_ne m p (KHead e)); [done| |done|done]);
        apply epoch_u64, Hpar. }
  apply (safe_call _ _ i (OSwap _ data expect) f (λ r s', idle i rows s' ∧ begins gs s')).
  - intros _ r m' Hr. assert (m' = m ∨ ∃ v, m' = <[headKey p e := (data, v)]> m) as [-> |[v ->]].
    { cbn in Hr. unfold stored in Hr. destruct r; naive_solver. }
    + exists g. split; [by apply act_same; [|apply keeps_refl]|]. by split.
    + exists g. split; [apply Hins|]. split; [split; [apply (Hins v)|done]|done].
  - intros r. apply stable_and; [apply stable_idle|apply stable_begins].
  - intros r s' [? ?]. by apply Hf.
Qed.

Lemma safe_publishHead i rows w id gs s :
  w_path w = p → w_epoch w = e → nextDelta w = log_size gs → (0 < log_size gs)%N → is_u64 id →
  idle i rows s → begins gs s →
  safe i (publishHead w id) (λ r s', idle i rows s' ∧ begins gs s' ∧ ∃ v, r.1 = {| w with headVersion := v |}) s.
Proof using Hpar Hopen Hroom Hfuel.
  intros Hp He Hn Hpos Hid Hs Hb.
  assert (length gs <= most) as Hlen by (etrans; [by apply prefix_length|by apply proj1, inv_most in Hs]).
  assert (is_u64 (log_size gs)) as Hu by (unfold is_u64, two64, log_size; lia).
  destruct w as [wpath wepoch ws wt wroot wlv whv nd wog wob wl wh wst]. cbn in Hp, He, Hn.
  subst wpath wepoch nd. unfold publishHead. cbn [w_path w_epoch nextDelta headVersion].
  rewrite u64_sub_small by (done || lia). set (w := mkWriter _ _ _ _ _ _ _ _ _ _ _ _ _).
  apply (safe_now i rows _ _ s Hs (begins gs)); [apply stable_begins|done|].
  intros t s1 Ht Hs1 Hb1.
  assert (∀ r, ∃ v, (match r with
    | Ok version => ({| w with headVersion := version |}, None)
    | Err er => (w, Some er) end : Writer * option error).1 = {| w with headVersion := v |}) as Hfin.
  { intros [v|er]; [by exists v|]. by exists (headVersion w). }
  apply (safe_swap_head i rows _ _ _ _ _ gs); [done|done|lia|done..|].
  intros r s2 Hs2 Hb2. destruct r as [v|er]; [split_and!; [done..|]; apply (Hfin (Ok v))|].
  destruct (errors_Is er ErrVersionMismatch || errors_Is er ErrNotExist);
    [|split_and!; [done..|]; apply (Hfin (Err er))].
  unfold fetchHead. apply safe_bind.
  apply (safe_Get i rows _ _ (λ _, begins gs)); [done|done|done|done|intros _; apply stable_begins|].
  intros r s3 Hs3 Hb3.
  assert (∀ ger, safe i (if errors_Is ger ErrNotExist
    then r ← store_Swap (headKey p e) (encodeManifest (mkHead manifestVersion (log_size gs - 1) id t)) NoVersion;
      mret (match r with Ok version => ({| w with headVersion := version |}, None) | Err er => (w, Some er) end)
    else mret (w, Some er)) (λ r s', idle i rows s' ∧ begins gs s' ∧
      ∃ v, r.1 = {| w with headVersion := v |}) s3) as Hnone.
  { intros ger. destruct (errors_Is ger ErrNotExist); [|split_and!; [done..|]; apply (Hfin (Err er))].
    apply (safe_swap_head i rows _ _ _ _ _ gs); [done|done|lia|done..|].
    intros r' s4 Hs4 Hb4. split_and!; [done..|apply Hfin]. }
  destruct r as [[d v]|ger]; cbn [Interfere.safe mret prog_ret]; [|apply Hnone].
  destruct (decodeManifest d) as [h|ger]; [|apply Hnone].
  apply (safe_swap_head i rows _ _ _ _ _ gs); [done|done|lia|done..|].
  intros r' s4 Hs4 Hb4. split_and!; [done..|apply Hfin].
Qed.
(** ** Committing *)

(** A writer that knows no more than it should. *)
Lemma knows_believes w gs s : w_path w = p → w_epoch w = e → believes w gs → begins gs s → knows w s.
Proof using. intros. split_and!; [done..|]. intros _. by exists gs. Qed.

Lemma believes_commit w gs g data :
  is_u64 (log_size gs + 1) → (OpenFrom root <= log_size gs)%N → believes w gs →
  believes {| w with
    nextDelta := u64 (nextDelta w + 1); openGroups := openGroups w ++ [g];
    openBytes := i64 (openBytes w + len64 data); last := g; hasLast := true |} (gs ++ [g]).
Proof using Hopen Hroom Hfuel.
  intros Hu Ho [Hr Hn Hop _ H0]. constructor; cbn; [done| | | |by apply prefix_app_r].
  - rewrite Hn, log_size_snoc. by apply u64_small.
  - rewrite Hop, drop_app_le; [done|]. unfold log_size in Ho. lia.
  - unfold last_ok. by rewrite last_app_one.
Qed.

(** What a call leaves of writer [i], whose rows were [rows]: an error that no row
    hides behind, or one more row. *)
Definition called (i : nat) (rows : list GroupInfo) (w : Writer)
    (r : Writer * (GroupInfo * option error)) (s : objs * ghost) : Prop :=
  holding s ∧ config r.1 = config w ∧ knows r.1 s ∧
  (mine i s.2 = rows ∧ r.2.2 ≠ None ∨
   ∃ row, mine i s.2 = rows ++ [row] ∧ isGroupObjectCollision r.2.2 = false ∧ (r.2.2 = None → r.2.1 = row)).

Lemma safe_afterCommit i w gs g data rows s :
  w_path w = p → w_epoch w = e → stale w = false → believes w gs → (OpenFrom root <= log_size gs)%N →
  is_u64 (ID g) → holding s → begins (gs ++ [g]) s → mine i s.2 = rows ++ [g] →
  safe i (afterCommit fuel w g data) (called i rows w) s.
Proof using Hpar Hopen Hroom Hfuel.
  intros Hp He Hst Hw Ho Hid Hs Hb Hm.
  assert (length gs + 1 <= most) as Hlen.
  { etrans; [|by apply inv_most in Hs]. apply prefix_length in Hb. by rewrite length_app in Hb. }
  assert (is_u64 (log_size gs + 1)) as Hu by (unfold is_u64, two64, log_size; lia).
  apply (believes_commit w gs g data) in Hw as Hw1; [|done..]. unfold afterCommit.
  set (w1 := mkWriter _ _ _ _ _ _ _ _ _ _ _ _ _) in *.
  assert (w_path w1 = p ∧ w_epoch w1 = e ∧ config w1 = config w ∧ stale w1 = false) as (Hp1 & He1 & Hc1 & Hst1) by done.
  clearbody w1. apply safe_bind.
  eapply safe_mono; [|apply (safe_publishHead i (rows ++ [g]) w1 (ID g) (gs ++ [g]));
    [done|done|apply Hw1|rewrite log_size_snoc; lia|done|by split|done]].
  intros [w2 err] s2 ([Hs2 Hm2] & Hb2 & v & Hw2). cbn [fst snd] in *. subst w2.
  assert (called i rows w ({| w1 with headVersion := v |}, (g, None)) s2) as Hend.
  { split_and!; [done|done| |right; by exists g].
    apply (knows_believes _ (gs ++ [g])); [done|done| |done]. by destruct Hw1. }
  destruct (_ <=? _)%Z; [|exact Hend]. apply safe_bind. unfold seal. cbn [openGroups].
  destruct (openGroups w1) eqn:Eo; [exact Hend|].
  apply (safe_now i (rows ++ [g]) _ _ s2 (conj Hs2 Hm2) (λ _, True)); [apply stable_const|done|]. intros t s3 _ _ _.
  intros Hcut. exfalso. apply Hcut. cbn [w_path w_epoch]. rewrite Hp1, He1. apply seal_begins.
Qed.

(** The group object of [row] is writer [i]'s, and its row is not committed. *)
Record taken (i : nat) (gs rows : list GroupInfo) (row : GroupInfo) (payload : bytes) (s : objs * ghost)
    : Prop := {
  tk_own : own s.2 !! ObjectKey row = Some i;
  tk_object : ∃ v, s.1 !! ObjectKey row = Some (payload, v);
  tk_ids : ∀ a, a ∈ gs → ID a = ID row → is_Some (s.1 !! marker p (ID row));
}.

Lemma stable_taken i gs rows row payload :
  is_u64 (ID row) → ObjectKey row = groupKey p (ID row) → stable i (taken i gs rows row payload).
Proof using.
  intros Hid Hk. assert (∀ K, K = KGroup \/ K = KRedacted → wf_key (K (Epoch (ID row)) (Sequence (ID row)))) as Hwk.
  { intros K [-> | ->]; split; auto using Epoch_u64, Sequence_u64. }
  apply stable_act. intros j s s' _ [_ _ Ho _ Hkeep] [H1 [v H2] H3]. constructor; [by apply Ho| |].
  - exists v. rewrite Hk in *. apply (Hkeep (KGroup (Epoch (ID row)) (Sequence (ID row)))); [by apply Hwk; auto|by eauto|done].
  - intros a Ha Hida. destruct (H3 a Ha Hida) as [x Hx]. exists x.
    apply (Hkeep (KRedacted (Epoch (ID row)) (Sequence (ID row)))); [by apply Hwk; auto|by eauto|done].
Qed.

(** Storing a group object takes it. *)
Definition take (i : nat) (row : GroupInfo) (g : ghost) : ghost :=
  mkGhost (commits g) (<[ObjectKey row := i]> (own g)).

Lemma act_take i m g row x :
  is_u64 (ID row) → ObjectKey row = groupKey p (ID row) → inv m g → m !! ObjectKey row = None →
  act i (m, g) (<[ObjectKey row := x]> m, take i row g).
Proof using Hpar.
  intros Hid Hk [Hl Ho Hc Hids Hq] Hnone.
  assert (own g !! ObjectKey row = None) as Hfree.
  { destruct (own g !! ObjectKey row) as [j|] eqn:E; [|done]. destruct (Ho _ _ E). congruence. }
  constructor; cbn; [constructor; try done|by left| | |].
  - rewrite Hk in *. by apply durable_payload.
  - intros k j Hj. cbn in Hj. rewrite lookup_insert_is_Some'. destruct (decide (ObjectKey row = k)); [by left|right].
    rewrite lookup_insert_ne in Hj by done. by eapply Ho.
  - intros j r Hr. cbn in *. rewrite lookup_insert_ne; [by apply Hc|]. apply Hc in Hr. congruence.
  - intros k j Hj. rewrite lookup_insert_ne; [done|]. congruence.
  - intros k j Hj. destruct (decide (ObjectKey row = k)) as [<-|].
    + rewrite lookup_insert_eq in Hj. right. congruence.
    + rewrite lookup_insert_ne in Hj by done. by left.
  - intros k y _ _ Hy. rewrite lookup_insert_ne; [done|]. congruence.
Qed.

Lemma taken_take i m g row payload v gs :
  is_u64 (ID row) → ObjectKey row = groupKey p (ID row) → inv m g → m !! ObjectKey row = None →
  begins gs (m, g) →
  (row ∉ mine i g) ∧ taken i gs (mine i g) row payload (<[ObjectKey row := (payload, v)]> m, take i row g).
Proof using Hpar.
  intros Hid Hk [Hl Ho Hc _ _] Hnone Hb. split; [|constructor; cbn [fst snd own take];
    [by rewrite lookup_insert_eq|exists v; by rewrite lookup_insert_eq|]].
  - intros Hin. unfold mine in Hin. apply list_elem_of_fmap in Hin as ([j r] & -> & Hin).
    apply list_elem_of_filter in Hin as [_ Hin]. apply Hc, Ho in Hin as [? ?]. cbn in *. congruence.
  - intros a Ha Hida. rewrite Hk, group_key_render. unfold marker.
    rewrite lookup_insert_ne by (apply render_ne; [..|done]; split; auto using Epoch_u64, Sequence_u64).
    destruct Hb as [rest Hrest]. eapply payloads_fresh; [|by apply (du_payloads _ _ _ _ _ Hl)|congruence| |done].
    + by eapply log_rows, du_log.
    + cbn in Hrest. rewrite Hrest. apply elem_of_app. by left.
Qed.

(** Creating a group object: by an answer that it was, it is nobody else's. *)
Lemma safe_create_payload {B} i row payload (f : result Version → prog B) gs rows Q s :
  is_u64 (ID row) → ObjectKey row = groupKey p (ID row) →
  holding s → begins gs s → mine i s.2 = rows →
  (∀ v s', holding s' → begins gs s' → mine i s'.2 = rows → row ∉ rows → taken i gs rows row payload s' →
    safe i (f (Ok v)) Q s') →
  (∀ er s', backend_error er = true → holding s' → begins gs s' → mine i s'.2 = rows → safe i (f (Err er)) Q s') →
  safe i (store_Create (ObjectKey row) payload ≫= f) Q s.
Proof using Hpar.
  intros Hid Hk Hs Hb Hm HOk HErr. destruct s as [m g].
  apply (safe_call _ _ i (OCreate (ObjectKey row) payload) f (λ r s', (holding s' ∧ begins gs s' ∧ mine i s'.2 = rows) ∧
    match r with Ok _ => (row ∉ rows) ∧ taken i gs rows row payload s' | Err er => backend_error er = true end)).
  - assert (∀ v, m !! ObjectKey row = None → act i (m, g) (<[ObjectKey row := (payload, v)]> m, take i row g) ∧
      (holding (<[ObjectKey row := (payload, v)]> m, take i row g) ∧ begins gs (m, take i row g) ∧
       mine i (take i row g) = rows)) as Htake.
    { intros v Hnone. split; [by apply act_take|]. split_and!; [by apply (act_take i)|done|done]. }
    intros _ [v|er] m' Hr; cbn [op_spec] in Hr; unfold stored in Hr.
    + destruct Hr as (Hnone & _ & ->). destruct (Htake v Hnone) as [Ha Hst]. exists (take i row g).
      split; [done|]. split; [done|]. subst rows. by apply taken_take.
    + destruct Hr as (Hber & [-> |(_ & Hnone & v & _ & ->)] & _).
      * exists g. split; [by apply act_same; [|apply keeps_refl]|]. by split_and!.
      * destruct (Htake v Hnone) as [Ha Hst]. exists (take i row g). by split.
  - intros r. apply stable_and; [repeat apply stable_and; [apply stable_holding|apply stable_begins|apply stable_mine]|].
    destruct r; [|apply stable_const]. apply stable_and; [apply stable_const|by apply stable_taken].
  - intros [v|er] s' [(Hs' & Hb' & Hm') Hr]; [destruct Hr; by eapply HOk|by apply HErr].
Qed.

(** The log past [gs] holds no row twice that writer [i] took before. *)
Lemma not_committed i gs rows row payload s :
  taken i gs rows row payload s → holding s → gs0 `prefix_of` gs → mine i s.2 = rows → row ∉ rows →
  ¬ begins (gs ++ [row]) s.
Proof using.
  intros [Ho _ _] [_ _ Hc _ _] [r0 ->] <- Hnot Hb. destruct s as [m g]. cbn [fst snd] in *.
  destruct Hb as [rest Hrest]. unfold log in Hrest. cbn [snd] in Hrest. rewrite <-!app_assoc in Hrest.
  apply app_inv_head in Hrest.
  assert (row ∈ (commits g).*2) as ([j r] & -> & Hin)%list_elem_of_fmap by (rewrite Hrest; apply elem_of_app; right; left).
  apply Hc in Hin as Hj. cbn in *. assert (j = i) as -> by congruence. apply Hnot.
  unfold mine. apply list_elem_of_fmap. exists (i, r). split; [done|]. by apply list_elem_of_filter.
Qed.

(** Committing a row. *)
Definition commit (i : nat) (row : GroupInfo) (g : ghost) : ghost := mkGhost (commits g ++ [(i, row)]) (own g).

Lemma mine_commit i row g : mine i (commit i row g) = mine i g ++ [row].
Proof using. unfold commit. destruct g. cbn [commits own]. by rewrite mine_snoc, decide_True. Qed.

Lemma log_commit i row g : log (commit i row g) = log g ++ [row].
Proof using. unfold log. cbn. by rewrite fmap_app, app_assoc. Qed.

Lemma act_commit i m g row rows payload d o :
  i < n → length (mine i g) < quota i → inv m g → taken i (log g) rows row payload (m, g) → row_ok p e row →
  Z.of_nat (String.length payload) = Size row → holds_manifest o d → d_Groups d = [row] →
  (∀ a, list.last (log g) = Some a → (mediaEnd a <= MediaTime row)%Z) →
  act i (m, g) (<[deltaKey p e (log_size (log g)) := o]> m, commit i row g).
Proof using Hpar Hopen Hroom Hfuel.
  intros Hi Hq Hinv [Ho [v Hv] Hids] Hrow Hsize Hd Hg Hser. pose proof (log_room_of m g Hinv) as Hrm.
  assert (is_u64 (log_size (log g))) as Hu by (by apply (room_u64 (log g))).
  assert (Forall (λ c, c.1 < n) (commits (commit i row g))) as Hn.
  { apply Forall_app. split; [apply Hinv|]. by apply Forall_singleton. }
  assert (∀ j, length (mine j (commit i row g)) <= quota j) as Hqs.
  { intros j. destruct Hinv as [_ _ _ _ Hqs]. specialize (Hqs j). destruct g as [c ow]. unfold commit in *.
    cbn [commits own] in *. rewrite mine_snoc, length_app. case_decide; [subst j|]; cbn [length]; lia. }
  assert (inv (<[deltaKey p e (log_size (log g)) := o]> m) (commit i row g)) as Hinv'.
  { pose proof Hinv as [Hl Hown Hc _ _]. constructor; [|..|done|done].
    - rewrite log_commit. apply log_most in Hqs; [|done]. rewrite log_commit in Hqs.
      eapply durable_commit; try done. unfold room, log_size. lia.
    - intros k j Hk. rewrite lookup_insert_is_Some'. right. by eapply Hown.
    - intros j r [Hr|Hr]%elem_of_app; [by apply Hc|]. apply list_elem_of_singleton in Hr as [= -> ->]. done. }
  constructor; cbn [fst snd own commit commits]; [done|right; by exists row|done|by left|].
  intros k y Hk Hkind Hy. rewrite (render_insert_ne m p (KDelta e (log_size (log g)))); [done| |done|].
  - split; [apply epoch_u64, Hpar|done].
  - by destruct Hkind as (? & ? & [-> | ->]).
Qed.

(** Creating the delta past [gs]: whatever the answer, the row is the next of the
    log or it is not the next of the log. *)
Lemma safe_create_delta {B} i gs rows row payload d (f : result Version → prog B) Q s :
  i < n → length rows < quota i → (OpenFrom root <= log_size gs)%N → gs0 `prefix_of` gs →
  row_ok p e row → Z.of_nat (String.length payload) = Size row →
  decodeManifest (encodeManifest d) = Ok d → d_Groups d = [row] →
  (∀ a, list.last gs = Some a → (mediaEnd a <= MediaTime row)%Z) →
  holding s → begins gs s → mine i s.2 = rows → row ∉ rows → taken i gs rows row payload s →
  (∀ r s', holding s' → begins (gs ++ [row]) s' → mine i s'.2 = rows ++ [row] →
    match r with Ok _ => True | Err er => backend_error er = true end → safe i (f r) Q s') →
  (∀ er s', backend_error er = true → holding s' → begins gs s' → mine i s'.2 = rows →
    taken i gs rows row payload s' → safe i (f (Err er)) Q s') →
  safe i (store_Create (deltaKey p e (log_size gs)) (encodeManifest d) ≫= f) Q s.
Proof using Hpar Hopen Hroom Hfuel.
  intros Hi Hq Ho H0 Hrow Hsize Hd Hg Hser Hs Hb Hm Hnot Htk HOk HErr. destruct s as [m g].
  cbn [fst snd] in Hm. subst rows.
  apply (safe_call _ _ i (OCreate _ _) f (λ r s', (holding s' ∧
    match r with Ok _ => True | Err er => backend_error er = true end) ∧
    ((begins (gs ++ [row]) s' ∧ mine i s'.2 = mine i g ++ [row]) ∨
     ((begins gs s' ∧ mine i s'.2 = mine i g) ∧ taken i gs (mine i g) row payload s') ∧ ∃ er, r = Err er))).
  - assert (m !! deltaKey p e (log_size gs) = None → ∀ v,
      let s' := (<[deltaKey p e (log_size gs) := (encodeManifest d, v)]> m, commit i row g) in
      act i (m, g) s' ∧ holding s' ∧ begins (gs ++ [row]) s' ∧ mine i s'.2 = mine i g ++ [row]) as Hcommit.
    { intros Hnone v. pose proof (no_delta_after m g gs Hs Hb Ho Hnone) as <-.
      assert (act i (m, g) (<[deltaKey p e (log_size (log g)) := (encodeManifest d, v)]> m, commit i row g)) as Ha
        by by eapply act_commit.
      split_and!; [done|apply Ha| |apply mine_commit]. unfold begins. cbn [snd]. by rewrite log_commit. }
    intros _ [v|er] m' Hr; cbn [op_spec] in Hr; unfold stored in Hr.
    + destruct Hr as (Hnone & _ & ->). destruct (Hcommit Hnone v) as (Ha & Hs' & Hb' & Hm').
      exists (commit i row g). split; [done|]. split; [done|by left].
    + destruct Hr as (Hber & [-> |(_ & Hnone & v & _ & ->)] & _).
      * exists g. split; [by apply act_same; [|apply keeps_refl]|]. split; [done|]. right. by split; [|exists er].
      * destruct (Hcommit Hnone v) as (Ha & Hs' & Hb' & Hm'). exists (commit i row g). split; [done|]. split; [done|by left].
  - intros r. apply stable_and; [apply stable_and; [apply stable_holding|apply stable_const]|].
    apply stable_or; [apply stable_and; [apply stable_begins|apply stable_mine]|].
    apply stable_and; [|apply stable_const]. apply stable_and; [apply stable_and; [apply stable_begins|apply stable_mine]|].
    apply stable_taken; apply Hrow.
  - intros r s' [[Hs' Hr] [[Hb' Hm']|[[[Hb' Hm'] Htk'] [er ->]]]]; [by apply HOk|by apply HErr].
Qed.

Lemma safe_holds {B} i gs rows row payload d (f : bool → prog B) Q s :
  gs0 `prefix_of` gs → is_u64 (ID row) → ObjectKey row = groupKey p (ID row) →
  decodeManifest (encodeManifest d) = Ok d → d_Groups d = [row] →
  holding s → begins gs s → mine i s.2 = rows → row ∉ rows → taken i gs rows row payload s →
  (∀ s', holding s' → begins gs s' → mine i s'.2 = rows → safe i (f false) Q s') →
  safe i (holds (deltaKey p e (log_size gs)) (encodeManifest d) ≫= f) Q s.
Proof using Hopen Hroom Hfuel.
  intros H0 Hid Hk Hd Hg Hs Hb Hm Hnot Htk Hf. apply safe_bind. unfold holds.
  apply (safe_Get i rows _ _ (λ r s', begins gs s' ∧
    match r with Ok (d', _) => d' ≠ encodeManifest d | Err _ => True end)); [done|..|].
  - intros d' v Hd'. split; [done|]. intros ->. destruct s as [m g].
    destruct (delta_after m g gs _ v Hs Hb Hd') as (row' & dm & Hb' & Hdm & Hg').
    assert (row' = row) as -> by congruence. by apply (not_committed _ _ _ _ _ _ Htk Hs H0 Hm Hnot).
  - done.
  - done.
  - intros r. apply stable_and; [apply stable_begins|apply stable_const].
  - intros [[d' v]|er] s' [Hs' Hm'] [Hb' Hr]; cbn [Interfere.safe mret prog_ret]; [|by apply Hf].
    rewrite (proj2 (String.eqb_neq _ _)) by done. by apply Hf.
Qed.

Lemma safe_commitGroup i w gs rows meta payload s :
  i < n → length rows < quota i → w_path w = p → w_epoch w = e → stale w = false → believes w gs →
  row_ok p e (row_of p meta payload) →
  (∀ a, list.last gs = Some a → (mediaEnd a <= MediaTime meta)%Z) →
  holding s → begins gs s → mine i s.2 = rows →
  safe i (commitGroup fuel w meta payload) (called i rows w) s.
Proof using Hpar Hopen Hroom Hfuel.
  intros Hi Hq Hp He Hst Hw Hrow Hser Hs Hb Hm. unfold commitGroup. rewrite Hp, He.
  set (row := row_of p meta payload) in *. change {| meta with ObjectKey := _; Size := _ |} with row.
  assert (is_u64 (ID row)) as Hid by apply Hrow. assert (ObjectKey row = groupKey p (ID row)) as Hk by done.
  pose proof (bl_start _ _ Hw) as H0. rewrite (bl_next _ _ Hw).
  assert (OpenFrom root <= log_size gs)%N as Ho by (apply prefix_length in H0; unfold log_size in *; lia).
  assert (length gs <= most) as Hlen by (etrans; [by apply prefix_length|by apply inv_most in Hs]).
  assert (is_u64 (log_size gs)) as Hu by (unfold is_u64, two64, log_size; lia).
  assert (∀ w' er s', config w' = config w → stale w' = true → holding s' →
    mine i s'.2 = rows ∨ mine i s'.2 = rows ++ [row] ∧ isGroupObjectCollision (Some er) = false →
    called i rows w (w', (zeroGroupInfo, Some er)) s') as Hstale.
  { intros w' er s' Hc Hst' Hs' Hm'. destruct (config_eq _ _ Hc) as (Hp' & He' & _).
    split_and!; [done|done|split_and!; cbn; congruence|].
    destruct Hm' as [?|[? ?]]; [by left|right; by exists row]. }
  assert (∀ w', config w' = (p, e, w_schema w, sealThreshold w) → config w' = config w) as Hcfg.
  { intros w' ->. unfold config. congruence. }
  apply (safe_create_payload i row payload _ gs rows); [done..| |].
  2: { intros er s1 Hber Hs1 Hb1 Hm1. destruct (errors_Is er ErrExist); cbn [Interfere.safe mret prog_ret]; [by apply Hstale; [apply Hcfg| |  |left]|].
       split_and!; [done|done|by apply (knows_believes _ gs)|by left]. }
  intros v s1 Hs1 Hb1 Hm1 Hnot Htk1.
  apply (safe_now i rows _ _ s1 (conj Hs1 Hm1) (λ s', begins gs s' ∧ taken i gs rows row payload s')).
  { apply stable_and; [apply stable_begins|by apply stable_taken]. }
  { done. }
  intros t s2 Ht [Hs2 Hm2] [Hb2 Htk2]. set (d := mkDelta _ _ _ _).
  assert (decodeManifest (encodeManifest d) = Ok d) as Hd by (apply delta_encodable; [done|apply Hrow|done]).
  apply (safe_create_delta i gs rows row payload d); [done..| |].
  - intros r s3 Hs3 Hb3 Hm3 Hr.
    assert (∀ s', holding s' → begins (gs ++ [row]) s' → mine i s'.2 = rows ++ [row] →
      safe i (afterCommit fuel w row (encodeManifest d)) (called i rows w) s') as Hafter.
    { intros s' ???. by apply (safe_afterCommit i w gs). }
    destruct r as [v3|er]; [by apply Hafter|]. unfold holds. apply safe_bind, safe_bind.
    apply (safe_Get i (rows ++ [row]) _ _ (λ _, begins (gs ++ [row]))); [by split|done|done|done|intros; apply stable_begins|].
    intros r s4 [Hs4 Hm4] Hb4. cbn [Interfere.safe mret prog_ret].
    destruct (match r with Ok (got, _) => _ | Err _ => _ end); [by apply Hafter|].
    apply Hstale; [by apply Hcfg|done|done|right]. split; [done|].
    destruct (isGroupObjectCollision (Some er)) eqn:E; [|done]. by destruct (collision_not_backend _ E).
  - intros er s3 Hber Hs3 Hb3 Hm3 Htk3. apply (safe_holds i gs rows row payload d); [done..|].
    intros s4 Hs4 Hb4 Hm4. cbn [Interfere.safe mret prog_ret].
    apply Hstale; [by apply Hcfg|done|done|by left].
Qed.

(** ** The calls *)

Lemma called_config i rows w w1 r s : config w1 = config w → called i rows w1 r s → called i rows w r s.
Proof using. intros Hc (? & Hr & ? & ?). split_and!; [done|congruence|done|done]. Qed.

Lemma called_error i rows w w1 er s :
  config w1 = config w → knows w1 s → idle i rows s → called i rows w (w1, (zeroGroupInfo, Some er)) s.
Proof using. intros ?? [? ?]. split_and!; [done|done|done|by left]. Qed.

Lemma safe_appendLocked i rows w meta payload s :
  i < n → length rows < quota i → knows w s → stale w = false → row_ok p e (row_of p meta payload) →
  idle i rows s → safe i (appendLocked fuel w meta payload) (called i rows w) s.
Proof using Hpar Hopen Hroom Hfuel.
  intros Hi Hq Hk Hst Hrow Hs. unfold appendLocked.
  destruct (_ && _); [by apply called_error|].
  destruct (checkOrder w meta) as [er|] eqn:Eord; [by apply called_error|].
  destruct Hk as (Hp & He & Hk). destruct (Hk Hst) as (gs & Hw & Hb).
  apply (safe_commitGroup i w gs); try done; [|apply Hs..]. eapply checkOrder_spec; [apply Hw|done].
Qed.

Lemma safe_AppendGroup i rows w meta payload s :
  i < n → length rows < quota i → meta_ok meta payload → knows w s → idle i rows s →
  safe i (AppendGroup fuel w meta payload) (called i rows w) s.
Proof using Hpar Hopen Hroom Hfuel.
  intros Hi Hq Hmeta Hk Hs. unfold AppendGroup.
  set (meta1 := {| meta with ID := NewGroupID (w_epoch w) (Sequence (ID meta)) |}).
  destruct (GroupInfo_validate meta1) as [er|] eqn:Ev; [by apply called_error|].
  apply safe_bind. eapply safe_mono; [|by apply (safe_reload i rows)].
  intros [w1 err] s1 (Hs1 & Hc & Hk1 & Hst1). cbn [fst snd] in *.
  destruct err as [er|]; [by apply called_error|]. specialize (Hst1 eq_refl).
  assert (∀ t s2, is_i64 t → knows w1 s2 → idle i rows s2 →
    safe i (appendLocked fuel w1 (stamped w meta t) payload) (called i rows w) s2) as Hlocked.
  { intros t s2 Ht Hk2 Hs2. eapply safe_mono; [intros ??; by apply called_config|].
    apply safe_appendLocked; try done. apply row_of_ok; [done|apply Hk|done|done|exact Ev]. }
  change (Wallclock meta1) with (Wallclock meta).
  destruct (_ && _); [|apply (Hlocked (Wallclock meta)); [apply Hmeta|done..]].
  apply (safe_now i rows _ _ s1 Hs1 (knows w1)); [apply stable_knows|done|]. intros. by apply Hlocked.
Qed.

Lemma safe_Append_loop i rows wallclock duration payload left : ∀ floor w s,
  i < n → length rows < quota i → is_i64 wallclock → is_i64 duration → is_i64 (len64 payload) →
  knows w s → idle i rows s →
  safe i (Append_loop fuel left floor wallclock duration w payload) (called i rows w) s.
Proof using Hpar Hopen Hroom Hfuel.
  induction left as [|left IH]; intros floor w s Hi Hq Hwall Hdur Hlen Hk Hs; cbn [Append_loop]; apply safe_bind;
    (eapply safe_mono; [|by apply (safe_reload i rows)]); intros [w1 err] s1 (Hs1 & Hc & Hk1 & Hst1);
    cbn [fst snd] in *; (destruct err as [er|]; [by apply called_error|]); cbv zeta;
    set (seq := N.max _ floor); apply safe_bind.
  all: assert (is_i64 (if hasLast w1 then mediaEnd (last w1) else 0%Z)) as Hstart
    by (unfold mediaEnd; destruct (hasLast w1); [auto with ledger_range|done]).
  all: eapply safe_mono; [|by apply (safe_AppendGroup i rows)].
  all: intros [w2 [row err]] s2 Hcalled; apply (called_config _ _ w) in Hcalled; [|done].
  all: destruct (isGroupObjectCollision err) eqn:Ecol; cbn [negb]; try exact Hcalled.
  destruct Hcalled as (Hs2 & Hc2 & Hk2 & Hcase). cbn [fst snd] in *.
  destruct Hcase as [[Hm2 _]|(row' & _ & Hcol & _)]; [|congruence].
  eapply safe_mono; [intros ??; by apply called_config|]. by apply IH.
Qed.

Lemma safe_do_call i rows c w s :
  i < n → length rows < quota i → call_ok c → knows w s → idle i rows s →
  safe i (do_call fuel c w) (called i rows w) s.
Proof using Hpar Hopen Hroom Hfuel.
  intros Hi Hq Hc Hk Hs. destruct c as [meta payload|duration payload]; cbn [do_call call_ok] in *.
  - by apply safe_AppendGroup.
  - destruct Hc. unfold Append. apply (safe_now i rows _ _ s Hs (knows w)); [apply stable_knows|done|].
    intros. by apply safe_Append_loop.
Qed.

(** What [k] calls of writer [i] leave, whose rows were [rows]. *)
Definition wrote (i : nat) (rows : list GroupInfo) (k : nat) (reported : list GroupInfo) (s : objs * ghost) : Prop :=
  ∃ new, idle i (rows ++ new) s ∧ length new <= k ∧ reported `sublist_of` new.

Lemma safe_session i calls : ∀ rows w s,
  i < n → length rows + length calls <= quota i → Forall call_ok calls → knows w s → idle i rows s →
  safe i (session fuel calls w) (wrote i rows (length calls)) s.
Proof using Hpar Hopen Hroom Hfuel.
  induction calls as [|c calls IH]; intros rows w s Hi Hq Hc Hk Hs; cbn [session].
  { exists []. by rewrite app_nil_r. }
  inversion_clear Hc as [|? ? Hc1 Hcs]. cbn [length] in *. apply safe_bind.
  eapply safe_mono; [|apply (safe_do_call i rows); try done; lia].
  intros [w1 [row err]] s1 (Hs1 & _ & Hk1 & Hcase). cbn [fst snd] in *. apply safe_bind.
  destruct Hcase as [[Hm1 Herr]|(row' & Hm1 & _ & Hrow)].
  - eapply safe_mono; [|apply (IH rows); try done; lia]. intros reported s2 (new & Hs2 & Hn & Hsub).
    destruct err as [er|]; [|done]. exists new. split_and!; [done|lia|done].
  - eapply safe_mono; [|apply (IH (rows ++ [row'])); try done; rewrite length_app; cbn; lia].
    intros reported s2 (new & Hs2 & Hn & Hsub). exists (row' :: new). rewrite <-app_assoc in Hs2.
    split_and!; [done|cbn; lia|]. destruct err as [er|]; [by apply sublist_cons|].
    rewrite Hrow by done. by apply sublist_skip.
Qed.

Lemma safe_Track_Writer i rows t s :
  t_path t = p → LatestEpoch (t_root t) = e → idle i rows s →
  safe i (Track_Writer fuel t) (λ r s', idle i rows s' ∧ r.1 = t ∧
    match r.2 with Ok w => knows w s' | Err _ => True end) s.
Proof using Hpar Hopen Hroom Hfuel.
  intros Hp He Hs. unfold Track_Writer. rewrite He.
  rewrite (proj2 (N.eqb_neq e 0)) by (destruct Hpar as [_ ?]; lia). rewrite Hp. unfold fetchEpochLog.
  apply safe_bind, safe_bind.
  apply (safe_Get i rows _ _ (λ r s', match r with
    | Ok (d, _) => decodeManifest d = Ok root
    | Err er => backend_error er = true ∧ errors_Is er ErrNotExist = false end)); [done|..].
  - intros d v Hd. destruct s as [m g].
    destruct (log_root _ _ _ _ _ (du_log _ _ _ _ _ (iv_log _ _ (proj1 Hs)))) as ([d0 v0] & Ho & Hm).
    cbn [fst snd] in *. rewrite Ho in Hd. by injection Hd as -> ->.
  - intros er _ Hnone. destruct s as [m g].
    destruct (log_root _ _ _ _ _ (du_log _ _ _ _ _ (iv_log _ _ (proj1 Hs)))) as (o & Ho & _).
    cbn [fst snd] in *. congruence.
  - done.
  - intros [[d v]|er]; apply stable_const.
  - intros [[d v]|er] s1 Hs1 Hr; cbn [Interfere.safe mret prog_ret].
    2: { destruct Hr as [Hber Hne]. rewrite Hne, (backend_not_ledger er ErrEpochNotFound) by done. by split_and!. }
    rewrite Hr. destruct (negb _); [by split_and!|]. destruct (negb _); [by split_and!|].
    cbv beta iota zeta. apply safe_bind. eapply safe_mono; [|by apply (safe_recover i rows)].
    intros [w' err] s2 (Hs2 & (Hc & Hr' & Hlv & Hst') & Hres). cbn [fst snd] in *.
    apply config_eq in Hc as (Hp' & He' & _). cbn in Hp', He'.
    destruct err as [er|]; cbn [Interfere.safe mret prog_ret]; (split; [done|split; [done|]]); [done|].
    split; [cbn [snd]; congruence|]. split; [cbn [snd]; congruence|]. intros _.
    by apply Hres.
Qed.

Lemma safe_lifetimes i t ls : ∀ rows s,
  i < n → t_path t = p → LatestEpoch (t_root t) = e → Forall (Forall call_ok) ls →
  length rows + length (concat ls) <= quota i → idle i rows s →
  safe i (lifetimes fuel t ls) (wrote i rows (length (concat ls))) s.
Proof using Hpar Hopen Hroom Hfuel.
  induction ls as [|calls ls IH]; intros rows s Hi Hp He Hc Hq Hs; cbn [lifetimes].
  { exists []. by rewrite app_nil_r. }
  inversion_clear Hc as [|? ? Hc1 Hcs]. cbn [concat] in *. rewrite length_app in *. apply safe_bind.
  eapply safe_mono; [|by apply (safe_Track_Writer i rows)].
  intros [t1 r] s1 (Hs1 & Ht & Hr). cbn [fst snd] in *. subst t1. apply safe_bind.
  assert (∀ reported s2, wrote i rows (length calls) reported s2 →
    safe i (lifetimes fuel t ls ≫= λ rest, mret (reported ++ rest))
      (wrote i rows (length calls + length (concat ls))) s2) as Hrest.
  { intros reported s2 (new & Hs2 & Hn & Hsub). apply safe_bind.
    eapply safe_mono; [|apply (IH (rows ++ new)); try done; rewrite length_app; lia].
    intros rest s3 (new' & Hs3 & Hn' & Hsub'). exists (new ++ new'). rewrite app_assoc, length_app.
    split_and!; [done|lia|by apply sublist_app]. }
  destruct r as [w|er].
  - eapply safe_mono; [|apply (safe_session i calls rows); try done; lia]. exact Hrest.
  - apply Hrest. exists []. rewrite app_nil_r. split_and!; [done|cbn; lia|done].
Qed.

End Writers.

(** * The fence *)

(** The rows of [new] that process [i] committed. *)
Definition committed_by (i : nat) (new : list (nat * GroupInfo)) : list GroupInfo :=
  (filter (λ c, c.1 = i) new).*2.

Lemma sum_quotas {A} (ls : list (list A)) :
  sum_list_with (λ i, length (nth i ls [])) (seq 0 (length ls)) = length (concat ls).
Proof.
  induction ls as [|l ls IH]; [done|]. cbn [length seq concat]. rewrite length_app, <-IH. cbn [sum_list_with nth].
  f_equal. rewrite <-fmap_S_seq. clear. induction (seq 0 (length ls)) as [|i s IH]; [done|]. cbn in *. lia.
Qed.

Lemma concat_concat {A} (ls : list (list (list A))) : concat (concat ls) = concat (map (@concat A) ls).
Proof. induction ls as [|l ls IH]; [done|]. cbn. by rewrite concat_app, IH. Qed.

Lemma acts_inv p e root gs n quota s s' :
  inv p e root gs n quota s.1 s.2 →
  rtc (λ s s', ∃ i, i < n ∧ act p e root gs n quota i s s') s s' → inv p e root gs n quota s'.1 s'.2.
Proof. intros H Hacts. induction Hacts as [s|s1 s2 s3 (i & _ & Ha) _ IH]; [done|]. apply IH, Ha. Qed.


(** * At a concrete run *)

(** Two processes on a memory backend that holds one committed group, their calls
    served in turn: both find the log at that group; the first commits the next, by a
    call whose answer is lost and which it reads back; the second is refused, catches
    up and appends after it. *)
Definition cam_later : GroupInfo := {| cam_meta with ID := NewGroupID 0 9 |}.

Definition cam_two : list (list (list call)) :=
  [[[CAppend 90000 "a"]]; [[CAppendGroup cam_later "c"; CAppend 6 "d"]]].

Definition cam_shared : world mem.Store :=
  mkWorld (mem.mkStore cam_objs 9) [5%Z] (replicate 10 NoFault ++ [FailAfter [Canceled]]).

Lemma cam_shared_ok : world_ok cam_shared.
Proof.
  split_and!; [|by repeat constructor|done].
  intros k d v. cbn [view mem.objects cam_shared w_store]. unfold cam_objs, cam_payload, cam_empty, fresh_epoch.
  repeat (rewrite lookup_insert_Some; intros [[_ [= _ <-]] | [_ H]]; [discriminate|revert H]).
  rewrite lookup_singleton_Some. intros [_ [= _ <-]]. discriminate.
Qed.

Definition cam_turns : list nat := concat (replicate 40 [0; 1]).

Definition cam_after : list (prog (list GroupInfo)) * world mem.Store :=
  turns (begins_seal cam 1) cam_turns (lifetimes 9 cam_track <$> cam_two) cam_shared.

Definition cam_answer (q : prog (list GroupInfo)) : option (list (N * Z)) :=
  match q with Ret rows => Some (map (λ g, (Sequence (ID g), MediaTime g)) rows) | _ => None end.

