(* ===== verification/Versions.v ===== *)
(** * What the ledger asks of a store

    A version means something to the backend that issued it only, and what a row or
    a log root names must stay: the ledger overwrites the three pointers of a track
    alone, for a version the store answered or for [NoVersion], deletes deltas alone,
    and a producer creates no redaction marker. Payloads and sealed manifests, once
    stored, stay as they are. *)

From S2P Require Import Prelude GoStd Json Store Group Manifest Track Writer.
From S2P Require Import EpochLog WriterLog Isolation Fixtures WriterProps TrackProps.

(** The version in an answer, if there is one, satisfies [V]. *)
Definition answered (V : Version → Prop) (o : op) : resp o → Prop :=
  match o with
  | OGet _ => λ r, match r with Ok (_, v) => V v | Err _ => True end
  | OCreate _ _ | OSwap _ _ _ => λ r, match r with Ok v => V v | Err _ => True end
  | ODelete _ => λ _, True
  | ONow => λ _, True
  end.

(** The objects of a track the ledger overwrites, and those it deletes. *)
Definition is_pointer (k : objkey) : bool :=
  match k with KRoot | KLog _ | KHead _ => true | _ => false end.
Definition is_delta (k : objkey) : bool := match k with KDelta _ _ => true | _ => false end.

(** The redaction markers: no producer creates one. *)
Definition is_marker (k : objkey) : bool := match k with KRedacted _ _ => true | _ => false end.

(** What an operation overwrites is a pointer, for a version in [V]; what it
    deletes is a delta; what it creates is an object of the track, and no marker. *)
Definition ledger_op (p : TrackPath) (V : Version → Prop) (o : op) : Prop :=
  match o with
  | OSwap key _ expect => V expect ∧ ∃ k, key = render p k ∧ is_pointer k = true
  | ODelete key => ∃ k, key = render p k ∧ is_delta k = true
  | OCreate key _ => ∃ k, key = render p k ∧ is_marker k = false
  | OGet _ | ONow => True
  end.

(** The version an operation expects is in [V]. *)
Definition expected (V : Version → Prop) (o : op) : Prop :=
  match o with OSwap _ _ expect => V expect | _ => True end.

Lemma ledger_op_expected p V o : ledger_op p V o → expected V o.
Proof. by destruct o; simpl; intros; destruct_and?. Qed.

(** As long as the versions answered satisfy [V], every operation is one of the
    ledger's; what the program returns satisfies [Q]. *)
Fixpoint swaps {A} (p : TrackPath) (V : Version → Prop) (Q : A → Prop) (q : prog A) : Prop :=
  match q with
  | Ret a => Q a
  | OutOfFuel => True
  | Do o k => ledger_op p V o ∧ ∀ r, answered V o r → swaps p V Q (k r)
  end.

Section Swaps.
Context (p : TrackPath) (V : Version → Prop) (HV : V NoVersion).

Lemma swaps_bind {A B} (Q : A → Prop) (R : B → Prop) (q : prog A) (f : A → prog B) :
  swaps p V Q q → (∀ a, Q a → swaps p V R (f a)) → swaps p V R (q ≫= f).
Proof using.
  unfold mbind, prog_mbind. intros Hp Hf.
  induction q as [a|o k IH|]; simpl in *; [by apply Hf| |done]. destruct Hp. split; auto.
Qed.

Lemma swaps_mono {A} (Q R : A → Prop) (q : prog A) :
  (∀ a, Q a → R a) → swaps p V Q q → swaps p V R q.
Proof using. intros HQR. induction q as [a|o k IH|]; simpl; [auto| |done]. intros []. split; auto. Qed.

(** A value read with its version. *)
Definition versioned {A} (r : result (A * Version)) : Prop :=
  match r with Ok (_, v) => V v | Err _ => True end.

Definition version_of (r : result Version) : Prop :=
  match r with Ok v => V v | Err _ => True end.

(** A handle and a writer of the track, and the versions they hold. *)
Definition track_versions (t : Track) : Prop := t_path t = p ∧ V (t_rootVersion t).
Definition writer_versions (w : Writer) : Prop := w_path w = p ∧ V (logVersion w) ∧ V (headVersion w).

Lemma swaps_Get k : swaps p V versioned (store_Get k).
Proof using. by split. Qed.
Lemma swaps_Create key k data :
  key = render p k → is_marker k = false → swaps p V version_of (store_Create key data).
Proof using. intros -> Hk. split; [by exists k|done]. Qed.
Lemma swaps_Swap key k data expect :
  key = render p k → is_pointer k = true → V expect → swaps p V version_of (store_Swap key data expect).
Proof using. intros -> Hk Hv. split; [|done]. split; [done|by exists k]. Qed.
Lemma swaps_Delete key k :
  key = render p k → is_delta k = true → swaps p V any (store_Delete key).
Proof using. intros -> Hk. split; [by exists k|done]. Qed.
Lemma swaps_now : swaps p V any now.
Proof using. by split. Qed.

(** [swaps_step] takes a program's first step, by the lemma [l] on it. *)
Ltac swaps_step l := eapply swaps_bind; [apply l|].

(** A first step that creates the object [k] of the track of a handle, whose path
    [H] says is [p]. *)
Ltac swaps_create k H := eapply swaps_bind; [apply (swaps_Create _ k); [by rewrite <-H|done]|].

(** ** The programs of a track *)

Lemma swaps_fetchTrackRoot path : swaps p V versioned (fetchTrackRoot path).
Proof using.
  unfold fetchTrackRoot. swaps_step swaps_Get. intros [[data v]|er] Hv; [|by destruct (errors_Is er _)].
  cbn. destruct (decodeManifest data); [|done]. by destruct (negb _).
Qed.

Lemma swaps_fetchEpochLog path epoch : swaps p V versioned (fetchEpochLog path epoch).
Proof using.
  unfold fetchEpochLog. swaps_step swaps_Get. intros [[data v]|er] Hv; [|by destruct (errors_Is er _)].
  cbn. destruct (decodeManifest data); [|done]. by repeat destruct (negb _).
Qed.

Lemma swaps_fetchHead path epoch : swaps p V versioned (fetchHead path epoch).
Proof using.
  unfold fetchHead. swaps_step swaps_Get. intros [[data v]|er] Hv; [|done].
  cbn. by destruct (decodeManifest data).
Qed.

Lemma swaps_bump epoch base v : V v → swaps p V versioned (bump p epoch base v).
Proof using.
  intros Hv. unfold bump. eapply swaps_bind; [by apply (swaps_Swap _ KRoot)|]. by intros [v2|er] Hv2.
Qed.

Lemma swaps_advance t epoch :
  track_versions t → swaps p V (λ r, track_versions r.1) (advanceTrackRootLocked t epoch).
Proof using.
  intros [Hp Hv0]. unfold advanceTrackRootLocked. rewrite Hp. destruct (epoch <=? _)%N; [done|].
  swaps_step swaps_bump; [done|]. intros [[next v]|er] Hv; [done|].
  destruct (_ || _); [|done]. swaps_step swaps_fetchTrackRoot. intros [[current v]|e2] Hv2; [|done].
  destruct (epoch <=? _)%N; [done|]. swaps_step swaps_bump; [done|]. by intros [[next v3]|e3] Hv3.
Qed.

Lemma swaps_createEpochLog t epoch :
  track_versions t → swaps p V (λ r, track_versions r.1) (createEpochLog t epoch).
Proof using.
  intros Ht. unfold createEpochLog. swaps_step swaps_now. intros c _.
  swaps_create (KLog epoch) (proj1 Ht).
  intros [v|er] _; [by apply swaps_advance|]. destruct (errors_Is er _); [by apply swaps_advance|done].
Qed.

Lemma swaps_Open cfg :
  swaps p V (λ r, match r with Ok t => track_versions t | Err _ => True end) (ledger.Open p cfg).
Proof using.
  unfold ledger.Open. destruct (TrackPath_validate p); [done|].
  swaps_step swaps_fetchTrackRoot. by intros [[root v]|er] Hv.
Qed.

(** ** The programs of a writer *)

Lemma swaps_recover fuel w :
  writer_versions w → swaps p V (λ r, writer_versions r.1) (recover fuel w).
Proof using.
  intros Hw. unfold recover.
  assert (∀ n w0, writer_versions w0 → ∀ from,
    swaps p V (λ r, writer_versions r.1) (recover_loop fuel from n w0)) as Hloop.
  { induction fuel as [|fuel IH]; intros n w0 Hw0 from; cbn [recover_loop]; [done|].
    swaps_step swaps_Get. intros [[data v]|er] _.
    - destruct (decodeManifest data) as [d|]; [|done]. apply IH. unfold recover_delta.
      by destruct (list.last (d_Groups d)).
    - destruct (errors_Is er _); [|done]. by destruct (n <? from)%N. }
  assert (∀ from w0, writer_versions w0 → swaps p V (λ r, writer_versions r.1)
    (r ← recover_loop fuel from (OpenFrom (logRoot w0)) w0;
     let '(w, err) := r in
     mret match err with Some e => (w, Some e) | None => (recover_last w, None) end)) as Hprobe.
  { intros from w0 Hw0. eapply swaps_bind; [by apply Hloop|]. intros [w1 [er|]] Hw1; [done|].
    unfold recover_last. destruct (negb _); [|done]. by destruct (list.last _). }
  swaps_step swaps_fetchHead. intros [[h v]|er] Hv.
  - apply Hprobe. by destruct Hw as (? & ? & _).
  - destruct (errors_Is er _); [by apply Hprobe|done].
Qed.

Lemma swaps_reloadIfStale fuel w :
  writer_versions w → swaps p V (λ r, writer_versions r.1) (reloadIfStale fuel w).
Proof using.
  intros Hw. unfold reloadIfStale. destruct (negb _); [done|].
  swaps_step swaps_fetchEpochLog. intros [[root v]|er] Hv; [|done].
  swaps_step swaps_recover; [by destruct Hw as (? & _ & ?)|]. by intros [w1 [er|]] Hw1.
Qed.

Lemma swaps_publishHead w latest :
  writer_versions w → swaps p V (λ r, writer_versions r.1) (publishHead w latest).
Proof using HV.
  intros (Hp & Hl & Hh). unfold publishHead. rewrite Hp. swaps_step swaps_now. intros t _.
  set (data := encodeManifest _).
  assert (∀ v, V v → swaps p V version_of (store_Swap (headKey p (w_epoch w)) data v)) as Hswap.
  { intros v Hv. by apply (swaps_Swap _ (KHead (w_epoch w))). }
  swaps_step Hswap; [done|]. intros [v|er] Hv; [done|]. destruct (_ || _); [|done].
  swaps_step swaps_fetchHead. intros [[h v]|e2] Hv2.
  - swaps_step Hswap; [done|]. by intros [v3|e3] Hv3.
  - destruct (errors_Is e2 _); [|done]. swaps_step Hswap; [done|]. by intros [v3|e3] Hv3.
Qed.

Lemma swaps_reclaim fuel epoch : ∀ n last, swaps p V any (reclaim fuel p epoch n last).
Proof using.
  induction fuel as [|fuel IH]; intros n last; cbn [reclaim]; (destruct (n <=? last)%N; [|done]); [done|].
  eapply swaps_bind; [by apply (swaps_Delete _ (KDelta epoch n))|]. intros _ _. apply IH.
Qed.

Lemma swaps_seal fuel w : writer_versions w → swaps p V (λ r, writer_versions r.1) (seal fuel w).
Proof using.
  intros Hw. unfold seal. destruct (openGroups w); [done|]. swaps_step swaps_now. intros t _.
  set (sealed := mkSealed _ _ _ _ _ _ _ _). set (key := sealedKey _ _ _ _).
  assert (swaps p V (λ r, writer_versions r.1) (seal_publish fuel w sealed key)) as Hpub.
  { unfold seal_publish, updateLogRoot. eapply (swaps_bind (λ r, writer_versions r.1)).
    - destruct Hw as (Hp & Hl & Hh). rewrite Hp.
      eapply swaps_bind; [by apply (swaps_Swap _ (KLog (w_epoch w)))|]. by intros [v|er] Hv.
    - intros [w1 [er|]] Hw1; [done|]. destruct Hw1 as (Hp1 & Hl1 & Hh1). cbn [fst w_path w_epoch] in *.
      rewrite Hp1. swaps_step swaps_reclaim. by intros _ _. }
  swaps_create (KSealed (w_epoch w) (OpenFrom (logRoot w)) (u64_sub (nextDelta w) 1)) (proj1 Hw).
  intros [v|er] _; [done|]. by destruct (errors_Is er _).
Qed.

Lemma swaps_commitGroup fuel w meta payload :
  writer_versions w → swaps p V (λ r, writer_versions r.1) (commitGroup fuel w meta payload).
Proof using HV.
  intros Hw. unfold commitGroup. set (row := {| meta with ObjectKey := _; Size := _ |}).
  assert (∀ data, swaps p V (λ r, writer_versions r.1) (afterCommit fuel w row data)) as Hafter.
  { intros data. unfold afterCommit. swaps_step swaps_publishHead; [done|]. intros [w1 err] Hw1.
    destruct (_ <=? _)%Z; [|done]. swaps_step swaps_seal; [done|]. by intros [w2 [er|]] Hw2. }
  swaps_create (KGroup (Epoch (ID meta)) (Sequence (ID meta))) (proj1 Hw).
  intros [v|er] _; [|by destruct (errors_Is er _)]. swaps_step swaps_now. intros t _.
  swaps_create (KDelta (w_epoch w) (nextDelta w)) (proj1 Hw). intros [v2|er] _; [apply Hafter|].
  eapply (swaps_bind any); [unfold holds; swaps_step swaps_Get; done|].
  intros [] _; [apply Hafter|done].
Qed.

Lemma swaps_AppendGroup fuel w meta payload :
  writer_versions w → swaps p V (λ r, writer_versions r.1) (AppendGroup fuel w meta payload).
Proof using HV.
  intros Hw. unfold AppendGroup. destruct (GroupInfo_validate _); [done|].
  swaps_step swaps_reloadIfStale; [done|]. intros [w1 [er|]] Hw1; [done|].
  assert (∀ mt, swaps p V (λ r, writer_versions r.1) (appendLocked fuel w1 mt payload)) as H.
  { intros mt. unfold appendLocked. destruct (hasLast w1 && _); [done|].
    destruct (checkOrder w1 mt); [done|]. by apply swaps_commitGroup. }
  destruct (_ && _); [|by apply H]. swaps_step swaps_now. intros t _. by apply H.
Qed.

Lemma swaps_Append fuel w duration payload :
  writer_versions w → swaps p V (λ r, writer_versions r.1) (Append fuel w duration payload).
Proof using HV.
  intros Hw. unfold Append. swaps_step swaps_now. intros wallclock _.
  generalize maxSkippedSequences as left. generalize 0%N as floor. intros floor left.
  revert floor w Hw. induction left as [|left IH]; intros floor w Hw; cbn [Append_loop];
    (swaps_step swaps_reloadIfStale; [done|]; intros [w1 [er|]] Hw1; [done|]);
    (swaps_step swaps_AppendGroup; [done|]; intros [w2 [row err]] Hw2);
    (destruct (negb _); [done|]); [done|by apply IH].
Qed.

Lemma swaps_NewEpoch t w :
  track_versions t → writer_versions w →
  swaps p V (λ r, track_versions r.1.1 ∧ writer_versions r.1.2) (NewEpoch t w).
Proof using HV.
  intros Ht Hw. unfold NewEpoch. destruct (maxGroupEpoch <? _)%N; [done|].
  swaps_step swaps_createEpochLog; [done|]. intros [t1 [er|]] Ht1; [done|].
  swaps_step swaps_fetchEpochLog. intros [[root v]|er] Hv; [|done]. by destruct Hw as (? & _).
Qed.

Lemma swaps_Writer fuel t :
  track_versions t →
  swaps p V (λ r, track_versions r.1 ∧ match r.2 with Ok w => writer_versions w | Err _ => True end)
    (Track_Writer fuel t).
Proof using HV.
  intros Ht. unfold Track_Writer. destruct (_ =? 0)%N; [done|].
  set (w0 := newWriter t (LatestEpoch (t_root t)) (schema (t_root t))).
  assert (∀ root v, V v → writer_versions {| w0 with logRoot := root; logVersion := v |}) as Hnew.
  { intros root v Hv. by destruct Ht. }
  swaps_step swaps_fetchEpochLog. intros [[root v]|er] Hv.
  - swaps_step swaps_recover; [by apply Hnew|]. by intros [w1 [er|]] Hw1.
  - destruct (errors_Is er _); [|done]. swaps_step swaps_createEpochLog; [done|].
    intros [t1 [e1|]] Ht1; [done|]. swaps_step swaps_fetchEpochLog. intros [[root v]|e2] Hv2; [|done].
    swaps_step swaps_recover; [by apply Hnew|]. by intros [w1 [e3|]] Hw1.
Qed.

(** ** Producers *)

Lemma swaps_call fuel c w : writer_versions w → swaps p V (λ r, writer_versions r.1) (do_call fuel c w).
Proof using HV. intros Hw. destruct c; [by apply swaps_AppendGroup|by apply swaps_Append]. Qed.

Lemma swaps_session fuel calls : ∀ w, writer_versions w → swaps p V any (session fuel calls w).
Proof using HV.
  induction calls as [|c calls IH]; intros w Hw; cbn [session]; [done|].
  swaps_step swaps_call; [done|]. intros [w1 [row err]] Hw1. eapply swaps_bind; [by apply IH|]. done.
Qed.

Lemma swaps_process fuel t restart calls : track_versions t → swaps p V any (process fuel t restart calls).
Proof using HV.
  intros Ht. unfold process. swaps_step swaps_Writer; [done|].
  intros [t1 [w|er]] [Ht1 Hw]; [|done]. destruct restart; [|by apply swaps_session].
  swaps_step swaps_NewEpoch; [done|done|]. intros [[t2 w2] [er|]] [_ Hw2]; [done|]. by apply swaps_session.
Qed.

Lemma swaps_history fuel cfg ls : swaps p V any (history fuel p cfg ls).
Proof using HV.
  induction ls as [|[restart calls] ls IH]; cbn [history]; [done|].
  swaps_step swaps_Open. intros r Hr. eapply (swaps_bind any); [|intros rows _; by eapply swaps_bind].
  destruct r as [t|er]; [by apply swaps_process|done].
Qed.
End Swaps.

(** ** What is stored for good *)

(** The object is neither a pointer nor a delta of the track. *)
Definition lasting (p : TrackPath) (key : string) : Prop :=
  ∀ k, key = render p k → is_pointer k = false ∧ is_delta k = false.

Lemma swaps_alters {A} p (q : prog A) : swaps p any any q → alters (λ key, ¬ lasting p key) any q.
Proof.
  induction q as [a|o k IH|]; simpl; [done| |done]. intros [Ho Hk]. split.
  - destruct o as [|key data|key data v|key|]; try done; simpl in Ho.
    + destruct Ho as (_ & k0 & -> & Hp). intros Hl. by destruct (Hl k0 eq_refl); rewrite Hp in *.
    + destruct Ho as (k0 & -> & Hd). intros Hl. by destruct (Hl k0 eq_refl); rewrite Hd in *.
  - intros r. apply IH, Hk. by destruct o; try destruct r as [[]|].
Qed.

(** Payloads, their redaction markers and sealed manifests. *)
Lemma lasting_render p k : is_pointer k = false → is_delta k = false → lasting p (render p k).
Proof.
  intros Hp Hd k0 Heq. rewrite !render_dir in Heq.
  apply split_segment in Heq as [_ Heq]; try apply last_segment_no_slash.
  destruct k, k0; try done; simpl in Heq; simplify_eq;
    exfalso; symmetry in Heq; by eapply pad_head_ne in Heq.
Qed.

(** What a program of the track writes is no marker. *)
Lemma swaps_writes {A} p (q : prog A) :
  swaps p any any q → writes (λ key, ∃ k, key = render p k ∧ is_marker k = false) any q.
Proof.
  induction q as [a|o k IH|]; simpl; [done| |done]. intros [Ho Hk]. split.
  - destruct o as [|key data|key data v|key|]; try done; simpl in Ho.
    + destruct Ho as (_ & k0 & -> & Hp). exists k0. by destruct k0.
    + destruct Ho as (k0 & -> & Hd). exists k0. by destruct k0.
  - intros r. apply IH, Hk. by destruct o; try destruct r as [[]|].
Qed.

Lemma marker_apart p id k : is_marker k = false → marker p id ≠ render p k.
Proof.
  intros Hk Heq. unfold marker in Heq. rewrite !render_dir in Heq.
  apply split_segment in Heq as [Hdir Hseg]; [|apply last_segment_no_slash..].
  destruct k; try done; simpl in Hseg; try by (exfalso; eapply pad_head_ne; [|symmetry; exact Hseg]).
  by apply (split_segment _ _ "redacted" "groups") in Hdir as [_ ?].
Qed.

(** * Properties *)


