(* ===== verification/Lives.v ===== *)
(** * The life of a track, redactions included

    Producers, and operators who look a group up and redact it, open a track one
    after the other. What they leave is the log TrackProps.v says producers leave,
    and of the payloads only those that were to be redacted are missing. *)

From S2P Require Import Prelude GoStd Json Store MemStore Group Manifest Track Writer Redact Reader.
From S2P Require Import EpochLog WriterLog Isolation ReaderLog Fixtures WriterProps ReaderProps.
From S2P Require Import RedactProps TrackProps Versions.

(** A process on a track: a producer, or one that redacts the group of an identity. *)
Inductive life : Type :=
  | Produce (restart : bool) (calls : list call)
  | Erase (id : GroupID).

(** Look the group up and redact it; it is answered when the redaction succeeded. *)
Definition erase (fuel : nat) (t : Track) (id : GroupID) : prog (list GroupInfo) :=
  r ← Track_Reader t;
  match r with
  | Err _ => mret []
  | Ok r =>
      got ← Lookup fuel r id;
      match got with
      | Err _ => mret []
      | Ok g => err ← Redact t g; mret match err with None => [g] | Some _ => [] end
      end
  end.

(** The rows a process reported as committed, and those it reported as redacted. *)
Definition live (fuel : nat) (t : Track) (x : life) : prog (list GroupInfo * list GroupInfo) :=
  match x with
  | Produce restart calls => rows ← process fuel t restart calls; mret (rows, [])
  | Erase id => gone ← erase fuel t id; mret ([], gone)
  end.

Fixpoint lives (fuel : nat) (path : TrackPath) (cfg : Config) (xs : list life)
    : prog (list GroupInfo * list GroupInfo) :=
  match xs with
  | [] => mret ([], [])
  | x :: xs' =>
      r ← ledger.Open path cfg;
      a ← match r with Ok t => live fuel t x | Err _ => mret ([], []) end;
      b ← lives fuel path cfg xs';
      mret (a.1 ++ b.1, a.2 ++ b.2)
  end.

Definition calls_of (x : life) : list call := match x with Produce _ calls => calls | Erase _ => [] end.
Definition erases (x : life) : list GroupID := match x with Produce _ _ => [] | Erase id => [id] end.

(** The identities the processes were asked to redact. *)
Definition named (xs : list life) : list GroupID := concat (map erases xs).

(** The number of appends of them. *)
Definition calls_made (xs : list life) : nat := length (concat (map calls_of xs)).

(** ** What is spared *)

(** From [m] to [m'] no marker is lost, and none appears and no payload changes but
    of the groups in [ids]. *)
Record spared (p : TrackPath) (ids : list GroupID) (m m' : objs) : Prop := {
  sp_marked id : is_u64 id → is_Some (m !! marker p id) → is_Some (m' !! marker p id);
  sp_marker id : is_u64 id → id ∉ ids → m' !! marker p id = m !! marker p id;
  sp_payload id x : is_u64 id → id ∉ ids → m !! groupKey p id = Some x → m' !! groupKey p id = Some x;
}.

Lemma spared_refl p m : spared p [] m m.
Proof. by split. Qed.

Lemma spared_trans p a b m1 m2 m3 : spared p a m1 m2 → spared p b m2 m3 → spared p (a ++ b) m1 m3.
Proof.
  intros [A1 A2 A3] [B1 B2 B3]. split; intros id.
  - auto.
  - intros Hid [Ha Hb]%not_elem_of_app. by rewrite B2, A2.
  - intros x Hid [Ha Hb]%not_elem_of_app Hx. auto.
Qed.

Lemma wlp_process_spares fl p fuel t restart calls m :
  t_path t = p → wlp (op_spec fl) (process fuel t restart calls) (λ _ m', spared p [] m m') m.
Proof.
  intros Hp. pose proof (swaps_process p any I fuel t restart calls (conj Hp I)) as Hs.
  eapply wlp_mono; [|apply wlp_and; [apply (wlp_alters fl), swaps_alters, Hs|apply wlp_writes, swaps_writes, Hs]].
  intros rows m' [[_ Hkeep] [_ Hsame]].
  assert (∀ id, m' !! marker p id = m !! marker p id) as Hm.
  { intros id. apply Hsame. intros (k & Hk & Hne). by apply (marker_apart p id k). }
  split; [by intros id _; rewrite Hm|done|]. intros id x _ _ Hx. apply Hkeep; [|done].
  intros Hno. apply Hno. by apply (lasting_render p (KGroup (Epoch id) (Sequence id))).
Qed.

(** ** Redacting a group of a track *)

Section Lives.
Context (p : TrackPath) (tr : trackRoot) (Hrw : root_wf p tr) (Hcut : cuttable p).
Context (Hval : TrackPath_validate p = None).

#[local] Abbreviation ok := (track_ok p tr).

(** Every group of the track is a row of the log of some epoch. *)
Lemma group_in_log m l logs g :
  ok m l logs → g ∈ groups_of logs →
  ∃ e root gs, log_params p e ∧ durable p e m root gs ∧ g ∈ gs ∧ row_ok p e g.
Proof using Hrw.
  intros Hok Hg. pose proof (tk_max _ _ _ _ _ Hok). pose proof (tk_latest _ _ _ _ _ Hok).
  unfold groups_of in Hg. apply list_elem_of_In, in_concat in Hg as (gs & Hgs & Hg).
  apply in_map_iff in Hgs as ([root gs'] & <- & Hlog). apply list_elem_of_In in Hlog, Hg.
  apply list_elem_of_lookup in Hlog as [i Hi]. apply lookup_lt_Some in Hi as Hlt.
  pose proof (tk_logs _ _ _ _ _ Hok i root gs' Hi) as Hd. exists (1 + N.of_nat i)%N, root, gs'.
  split; [split; [apply Hrw|lia]|]. split; [exact Hd|]. split; [exact Hg|].
  pose proof (log_rows _ _ _ _ _ (du_log _ _ _ _ _ Hd)) as Hr. rewrite Forall_forall in Hr. by apply Hr.
Qed.

Lemma alters_Redact t g : alters (λ key, key = ObjectKey g) any (Redact t g).
Proof using.
  unfold Redact. destruct (Track_redactedKey t g) as [k|er]; [|done]. split; [done|]. intros [v|er].
  - by split.
  - cbn. by destruct (errors_Is er ErrExist).
Qed.

(** Another group's payload and marker are other objects. *)
Lemma group_apart id id' :
  is_u64 id → is_u64 id' → id ≠ id' →
  marker p id ≠ marker p id' ∧ groupKey p id ≠ groupKey p id' ∧
  marker p id ≠ groupKey p id' ∧ groupKey p id ≠ marker p id'.
Proof using.
  intros Hid Hid' Hne.
  assert (Epoch id = Epoch id' → Sequence id = Sequence id' → False) as Hparts.
  { intros He Hs. apply Hne. by rewrite <-(NewGroupID_parts id), <-(NewGroupID_parts id'), He, Hs. }
  rewrite !group_key_render. unfold marker. split_and!; apply render_ne;
    try (split; auto using Epoch_u64, Sequence_u64); intros ?; simplify_eq; auto.
Qed.

Lemma wp_Redact_spares fl m root gs t g e :
  log_params p e → durable p e m root gs → g ∈ gs → t_path t = p →
  wp (op_spec fl) (Redact t g) (λ r m', redact_post p e fl m root gs t g r m' ∧ spared p [ID g] m m') m.
Proof using Hcut.
  intros Hpar Hd Hg Ht. pose proof (log_rows _ _ _ _ _ (du_log _ _ _ _ _ Hd)) as Hrows.
  rewrite Forall_forall in Hrows. destruct (Hrows g Hg) as ([Hwf _] & _ & _ & Hk).
  eapply wp_mono; [|apply wp_wlp; [by eapply wp_Redact|apply wlp_alters, alters_Redact]].
  intros r m' [Hpost [_ Hkeep]]. split; [exact Hpost|]. destruct Hpost as (_ & Hfr & _ & _).
  assert (is_u64 (ID g)) as Hgu by apply Hwf. rewrite Hk in Hfr, Hkeep. split; intros id.
  - intros Hid [x Hx]. exists x. apply Hkeep; [|done]. rewrite group_key_render. by apply marker_apart.
  - intros Hid [Hne _]%not_elem_of_cons. destruct (group_apart id (ID g)) as (? & ? & ? & ?); [done..|].
    by apply Hfr.
  - intros x Hid [Hne _]%not_elem_of_cons Hx. destruct (group_apart id (ID g)) as (? & ? & ? & ?); [done..|].
    by rewrite Hfr.
Qed.

(** A redaction of one of its groups leaves the track. *)
Lemma redact_track_ok fl m root gs t g r m' l logs i :
  ok m l logs → logs !! i = Some (root, gs) → g ∈ gs →
  redact_post p (1 + N.of_nat i) fl m root gs t g r m' → ok m' l logs.
Proof using Hrw.
  intros Hok Hi Hg (Hd' & Hfr & _ & _). apply lookup_lt_Some in Hi as Hlt.
  pose proof (log_rows _ _ _ _ _ (du_log _ _ _ _ _ (tk_logs _ _ _ _ _ Hok i root gs Hi))) as Hrows.
  rewrite Forall_forall in Hrows. destruct (Hrows g Hg) as ([Hwf _] & _ & He & Hk).
  assert (is_u64 (ID g)) as Hgu by apply Hwf. rewrite <-(list_insert_id logs i (root, gs) Hi).
  eapply (track_ok_replaced p tr); [apply Hrw|done|done|reflexivity|exact Hd'|].
  intros k Hwk Hne. rewrite Hk in Hfr.
  apply Hfr; rewrite ?group_key_render; unfold marker; apply render_ne; try done;
    try (split; auto using Epoch_u64, Sequence_u64);
    intros ->; cbn in Hne; destruct Hne; (done || congruence).
Qed.

(** What a process that redacts leaves: *)
Definition erased (logs : list (epochLogRoot * list GroupInfo)) (id : GroupID) (m m' : objs)
    (gone : list GroupInfo) : Prop :=
  spared p [id] m m' ∧ Forall (λ g, g ∈ groups_of logs ∧ ID g = id ∧ is_Some (m' !! marker p (ID g))) gone.

Lemma erased_nothing logs id m : erased logs id m m [].
Proof using. split; [|done]. by split. Qed.

Lemma wp_erase fl fuel t id m l logs :
  ok m l logs → logs ≠ [] → t_path t = p → t_root t = at_epoch tr l → length (groups_of logs) < fuel →
  wp (op_spec fl) (erase fuel t id) (λ gone m', ok m' l logs ∧ erased logs id m m' gone) m.
Proof using Hrw Hcut.
  intros Hok Hne Hpt Hroot Hfuel. pose proof (track_ok_view p tr m l logs Hrw Hok Hne) as Hv.
  assert (LatestEpoch (t_root t) = N.of_nat (length logs)) as Hlat by (rewrite Hroot; apply Hv).
  unfold erase. apply wp_bind.
  eapply wp_mono; [|eapply (wp_Track_Reader p m _ logs Hv); [exact Hpt|exact Hlat|exact Hne]].
  intros [r|er] m1 [-> Hr]; [|split; [done|apply erased_nothing]]. destruct Hr as (Hrp & Hrl & _).
  apply wp_bind. destruct (decide (0 < Epoch id <= latest r)%N) as [He|He].
  2: { unfold Lookup. replace ((Epoch id =? 0)%N || (latest r <? Epoch id)%N) with true.
       - split; [done|apply erased_nothing].
       - symmetry. apply orb_true_iff. rewrite N.eqb_eq, N.ltb_lt. lia. }
  rewrite Hrl in He. destruct (lookup_lt_is_Some_2 logs (N.to_nat (Epoch id) - 1)) as [[root gs] Hi]; [lia|].
  pose proof (tk_logs _ _ _ _ _ Hok _ root gs Hi) as Hd.
  replace (1 + N.of_nat (N.to_nat (Epoch id) - 1))%N with (Epoch id) in Hd by lia.
  assert (length gs < fuel) as Hgs.
  { eapply Nat.le_lt_trans; [by eapply log_le_groups|exact Hfuel]. }
  eapply wp_mono; [|eapply (wp_Lookup_first fl fuel p m root gs r id (du_log _ _ _ _ _ Hd)); (done || lia)].
  intros [g|er] m1 [-> Hg]; [|split; [done|apply erased_nothing]].
  destruct (found_first_some p m root gs id g (du_log _ _ _ _ _ Hd) Hg) as [Hin Hid].
  pose proof (tk_max _ _ _ _ _ Hok) as Hmax. pose proof (tk_latest _ _ _ _ _ Hok) as Hl.
  apply wp_bind. eapply wp_mono; [|eapply (wp_Redact_spares fl m root gs t g (Epoch id)); try done].
  2: { split; [apply Hrw|lia]. }
  intros err m' [Hpost Hsp]. rewrite Hid in Hsp.
  assert (ok m' l logs) as Hok'.
  { eapply redact_track_ok; [exact Hok|exact Hi|exact Hin|].
    replace (1 + N.of_nat (N.to_nat (Epoch id) - 1))%N with (Epoch id) by lia. exact Hpost. }
  destruct err as [er|]; (split; [exact Hok'|]); (split; [exact Hsp|]); [constructor|].
  constructor; [|constructor]. split; [by eapply elem_of_groups|]. split; [exact Hid|apply Hpost].
Qed.

(** On a track that is half made there is no reader, or one of an empty epoch. *)
Lemma wp_erase_any fl fuel t id m l logs :
  ok m l logs → t_path t = p → t_root t = at_epoch tr l → length (groups_of logs) < fuel →
  wp (op_spec fl) (erase fuel t id) (λ gone m', ∃ logs', ok m' l logs' ∧
    groups_of logs' = groups_of logs ∧ length logs <= length logs' <= length logs + 1 ∧
    erased logs' id m m' gone) m.
Proof using Hrw Hcut.
  intros Hok Hpt Hroot Hfuel. destruct logs as [|log logs].
  2: { eapply wp_mono; [|by eapply wp_erase]. intros gone m' [? ?]. eexists. split; [done|].
       split; [done|]. split; [lia|done]. }
  pose proof (tk_latest _ _ _ _ _ Hok) as Hl. simpl in Hl. subst l.
  destruct (tk_unused _ _ _ _ _ Hok 1) as [Hnone|[c Hd]]; [by vm_compute| |].
  - assert (m !! epochLogKey p 1 = None) as Habs by exact (Hnone (KLog 1) eq_refl eq_refl).
    unfold erase, Track_Reader. rewrite Hroot, Hpt. cbv zeta. cbn [LatestEpoch at_epoch N.eqb].
    apply wp_bind, wp_bind. unfold loadEpoch. apply wp_bind. cbn [r_path].
    eapply wp_mono; [|by apply (wp_fetchEpochLog_none p)].
    intros [[rt v]|er] m' [-> H]; [destruct H|]. cbn [fst snd mret prog_ret wp prog_bind]. exists [].
    split; [exact Hok|]. split; [reflexivity|].
    split; [simpl; lia|apply erased_nothing].
  - assert (ok m 1 ([] ++ [(newEpochLog p 1 c, [])])) as Hok'.
    { eapply (begun_new p tr (rw_path _ _ Hrw) 1 m m 1 [] c); try done. apply Hok. }
    eapply wp_mono; [|by eapply (wp_erase fl fuel t id m 1 _ Hok')].
    intros gone m' [? ?]. eexists. split; [done|]. split; [done|]. split; [simpl; lia|done].
Qed.

(** ** Processes, one after the other *)

(** The track has grown by at most [n] groups and [k] epochs, the rows reported are
    among the new ones, and the groups reported as redacted are marked. *)
Definition lived (n k : nat) (ids : list GroupID) (logs : list (epochLogRoot * list GroupInfo)) (m : objs)
    (a : list GroupInfo * list GroupInfo) (m' : objs) : Prop :=
  ∃ l' logs', ok m' l' logs' ∧ grown n logs logs' a.1 ∧ length logs' <= length logs + k ∧
    spared p ids m m' ∧
    Forall (λ g, g ∈ groups_of logs' ∧ ID g ∈ ids ∧ is_Some (m' !! marker p (ID g))) a.2.

Lemma lived_nothing n k l logs m : ok m l logs → lived n k [] logs m ([], []) m.
Proof using.
  intros Hok. exists l, logs. split; [exact Hok|]. split.
  { exists []. rewrite app_nil_r. split; [done|]. split; [done|]. simpl. lia. }
  split; [lia|]. split; [apply spared_refl|constructor].
Qed.

Lemma wp_live fl fuel t x m l logs :
  ok m l logs → t_path t = p → t_root t = at_epoch tr l → Forall call_ok (calls_of x) →
  (N.of_nat (length (groups_of logs)) + N.of_nat (length (calls_of x)) < 2 ^ 62)%N →
  length (groups_of logs) + length (calls_of x) < fuel →
  wp (op_spec fl) (live fuel t x) (lived (length (calls_of x)) 2 (erases x) logs m) m.
Proof using Hrw Hcut.
  intros Hok Hpt Hroot Hc Hroom Hfuel. destruct Hrw as [Hp Hwf Hver Htr].
  destruct x as [restart calls|id]; simpl in *; apply wp_bind.
  - eapply wp_mono; [|apply wp_wlp; [by eapply (process_grows p tr Hp Hwf Hver Htr fl)|by apply wlp_process_spares]].
    intros rows m' [(l' & logs' & Hok' & Hg & Hlen) Hsp]. exists l', logs'.
    split; [exact Hok'|]. split; [exact Hg|]. split; [exact Hlen|]. split; [exact Hsp|constructor].
  - eapply wp_mono; [|eapply wp_erase_any; try done; lia].
    intros gone m' (logs' & Hok' & Hgr & Hlen & Hsp & Hgone). exists l, logs'. split; [done|].
    split; [by apply grown_nil; [|lia]|]. split; [lia|]. split; [exact Hsp|].
    eapply Forall_impl; [exact Hgone|]. intros g (? & -> & ?). split; [done|]. split; [by left|done].
Qed.

Lemma lived_trans n1 n2 k1 k2 ids1 ids2 logs m a b m1 m2 l1 logs1 :
  ok m1 l1 logs1 → grown n1 logs logs1 a.1 → length logs1 <= length logs + k1 → spared p ids1 m m1 →
  Forall (λ g, g ∈ groups_of logs1 ∧ ID g ∈ ids1 ∧ is_Some (m1 !! marker p (ID g))) a.2 →
  lived n2 k2 ids2 logs1 m1 b m2 → lived (n1 + n2) (k1 + k2) (ids1 ++ ids2) logs m (a.1 ++ b.1, a.2 ++ b.2) m2.
Proof using Hrw.
  intros Hok1 Hg1 Hlen1 Hsp1 Hgone1 (l2 & logs2 & Hok2 & Hg2 & Hlen2 & Hsp2 & Hgone2).
  exists l2, logs2. split; [done|]. split; [by eapply grown_trans|]. split; [lia|].
  split; [by eapply spared_trans|]. apply Forall_app. split.
  2: { eapply Forall_impl; [exact Hgone2|]. intros g (? & ? & ?). rewrite elem_of_app. auto. }
  eapply Forall_impl; [exact Hgone1|]. intros g (Hg & Hin & Hm).
  destruct (group_in_log _ _ _ _ Hok1 Hg) as (e & root & gs & _ & _ & _ & [Hwf _] & _).
  destruct Hg2 as (new & -> & _). rewrite !elem_of_app. split; [by left|]. split; [by left|].
  apply (sp_marked _ _ _ _ Hsp2); [apply Hwf|exact Hm].
Qed.

Lemma wp_lives fl fuel cfg xs : ∀ m l logs,
  ok m l logs → Forall (λ x, Forall call_ok (calls_of x)) xs →
  (N.of_nat (length (groups_of logs)) + N.of_nat (calls_made xs) < 2 ^ 62)%N →
  length (groups_of logs) + calls_made xs < fuel →
  wp (op_spec fl) (lives fuel p cfg xs) (lived (calls_made xs) (2 * length xs) (named xs) logs m) m.
Proof using Hrw Hcut Hval.
  induction xs as [|x xs IH]; intros m l logs Hok Hc Hroom Hfuel; cbn [lives].
  { by eapply lived_nothing. }
  inversion_clear Hc as [|? ? Hc1 Hcs]. unfold calls_made, named in *. cbn [map concat length] in *.
  rewrite length_app in *. apply wp_bind.
  eapply wp_mono; [|by eapply (wp_Open p tr (rw_track _ _ Hrw))].
  intros r m1 [-> Hr]. apply wp_bind.
  assert (wp (op_spec fl) match r with Ok t => live fuel t x | Err _ => mret ([], []) end
    (lived (length (calls_of x)) 2 (erases x) logs m) m) as H1.
  { destruct r as [t|er].
    - destruct Hr as (? & ? & _). eapply wp_live; try done; lia.
    - destruct (lived_nothing (length (calls_of x)) 2 l logs m Hok) as (l1 & logs1 & H & Hg & Hl & Hsp & Hf).
      by exists l1, logs1; split_and!. }
  eapply wp_mono; [|exact H1]. intros a m1 (l1 & logs1 & Hok1 & Hg1 & Hlen1 & Hsp1 & Hgone1). apply wp_bind.
  assert (length (groups_of logs1) <= length (groups_of logs) + length (calls_of x)) as Hsz.
  { destruct Hg1 as (new & -> & _ & ? & _). rewrite length_app. lia. }
  eapply wp_mono; [|eapply (IH m1 l1 logs1); try done; lia].
  intros b m2 H2. replace (2 * S (length xs)) with (2 + 2 * length xs) by lia. by eapply lived_trans.
Qed.
End Lives.

(** * Properties *)

(** C1 The life of a track: however many processes open it one after the other,
    producers on the latest epoch or beginning the next one and operators who look
    a group up and redact it, and whichever of their store calls fail before or
    after taking effect, the track stays well formed, its groups only grow at their
    end, and every row a call reported as committed stays among them, in the order
    reported; a reader streaming the track afterwards is given exactly those groups.
    A group reported as redacted is one that was asked for and is marked for good; a
    group nobody asked to redact keeps its payload, byte for byte, and gains no
    marker; and every group reads back with its size or, marked, answers
    [ErrGroupRedacted]. *)
Theorem lives_keep_or_redact p tr fuel cfg xs m l logs :
  root_wf p tr → track_ok p tr m l logs → cuttable p → TrackPath_validate p = None →
  Forall (λ x, Forall call_ok (calls_of x)) xs →
  (N.of_nat (length (groups_of logs)) + N.of_nat (calls_made xs) < 2 ^ 62)%N →
  length (groups_of logs) + calls_made xs < fuel → length logs + 2 * length xs + 2 <= fuel →
  wp (op_spec true) (lives fuel p cfg xs) (λ a m', ∃ l' logs' new,
    track_ok p tr m' l' logs' ∧ groups_of logs' = groups_of logs ++ new ∧
    a.1 `sublist_of` new ∧ length new <= calls_made xs ∧
    (∀ t n, logs' ≠ [] → t_path t = p → t_root t = at_epoch tr l' →
      wp (op_spec false) (replay fuel n t) (λ out m'', m'' = m' ∧ out =
        (list.take n (groups_of logs'),
         if decide (n <= length (groups_of logs')) then None else Some [EOF])) m') ∧
    (∀ g, g ∈ a.2 → g ∈ groups_of logs' ∧ ID g ∈ named xs ∧ is_Some (m' !! marker p (ID g))) ∧
    ∀ g, g ∈ groups_of logs' →
      (ID g ∉ named xs → m' !! marker p (ID g) = m !! marker p (ID g) ∧
        ∀ x, m !! ObjectKey g = Some x → m' !! ObjectKey g = Some x) ∧
      wp (op_spec false) (ReadGroup (ObjectKey g)) (λ res m'', m'' = m' ∧
        match res with
        | Ok data => Z.of_nat (String.length data) = Size g ∨ is_Some (m' !! marker p (ID g))
        | Err er => er = [ErrGroupRedacted] ∧ is_Some (m' !! marker p (ID g))
        end) m') m.
Proof.
  intros Hrw Hok Hcut Hval Hc Hroom Hfuel Hfuel2.
  eapply wp_mono; [|by eapply (wp_lives p tr Hrw Hcut Hval true fuel cfg xs m l logs)].
  intros a m' (l' & logs' & Hok' & (new & Hnew & Hsub & Hlen & _) & Hl & Hsp & Hgone).
  exists l', logs', new. do 4 (split; [done|]). split; [|split].
  - intros t n Hne Hpt Hroot. pose proof (track_ok_view p tr m' l' logs' Hrw Hok' Hne) as Hv.
    eapply wp_mono; [|eapply (wp_replay p m' _ logs' Hv false fuel n t Hpt); [rewrite Hroot; apply Hv|done|lia]].
    by intros out m'' [-> [-> |[? _]]].
  - by apply Forall_forall.
  - intros g Hg. destruct (group_in_log p tr Hrw _ _ _ _ Hok' Hg) as (e & root & gs & Hpar & Hd & Hin & Hrow).
    destruct Hrow as ([Hwf _] & _ & _ & Hk). split.
    + intros Hno. split; [apply (sp_marker _ _ _ _ Hsp); [apply Hwf|done]|].
      intros x. rewrite Hk. apply (sp_payload _ _ _ _ Hsp); [apply Hwf|done].
    + eapply wp_mono; [|by eapply (wp_ReadGroup_committed p e m' root gs false g)].
      intros [d|er] m'' [-> H]; split; try done. by destruct H as [|].
Qed.

(** ** At a concrete track *)

Definition cam_lives : list life :=
  [Produce false [CAppend 10 "a"]; Erase (NewGroupID 1 0); Produce true [CAppendGroup cam_meta "b"]].

(** In memory, with no call failing: both rows are reported, the first is gone. *)
Example cam_lives_run :
  option_map (λ a, (map (λ g, (ID g, Size g)) a.1.1, map ID a.1.2))
    (run (lives 9 cam (mkConfig 0) cam_lives) (mkWorld (mem.mkStore cam_half 1) [5%Z] [])) =
  Some ([(NewGroupID 1 0, 1%Z); (NewGroupID 2 1, 1%Z)], [NewGroupID 1 0]).
Proof. vm_compute. reflexivity. Qed.

Lemma lives_keep_or_redact_witness :
  wp (op_spec true) (lives 9 cam (mkConfig 0) cam_lives) (λ a m', ∃ l' logs',
    track_ok cam cam_tr m' l' logs' ∧ a.1 `sublist_of` groups_of logs' ∧
    (∀ g, g ∈ a.2 → ID g = NewGroupID 1 0) ∧
    ∀ g, g ∈ groups_of logs' → ID g ≠ NewGroupID 1 0 →
      wp (op_spec false) (ReadGroup (ObjectKey g)) (λ res m'', m'' = m' ∧
        ∃ data, res = Ok data ∧ Z.of_nat (String.length data) = Size g) m') cam_half.
Proof.
  eapply wp_mono; [|apply (lives_keep_or_redact cam cam_tr 9 (mkConfig 0) cam_lives cam_half 1 [])].
  - intros a m' (l' & logs' & new & Hok & Heq & Hsub & _ & _ & Hgone & Hread). exists l', logs'.
    split; [exact Hok|]. split; [by rewrite Heq|]. split.
    + intros g Hg. destruct (Hgone g Hg) as (_ & Hn & _). by apply list_elem_of_singleton in Hn.
    + intros g Hg Hne. destruct (Hread g Hg) as [Hkept Hr].
      destruct Hkept as [Hm _]; [by intros ?%list_elem_of_singleton|].
      assert (m' !! marker cam (ID g) = None) as Hno.
      { rewrite Hm. unfold cam_half. rewrite lookup_insert_ne; [apply lookup_empty|].
        intros Hk. by apply (marker_apart cam (ID g) KRoot). }
      eapply wp_mono; [|exact Hr]. intros [d|er] m'' [-> H]; (split; [done|]).
      * destruct H as [H|[? H]]; [by exists d|congruence].
      * destruct H as [_ [? H]]. congruence.
  - apply cam_root_wf.
  - apply cam_half_ok.
  - by vm_compute.
  - reflexivity.
  - repeat (apply Forall_cons_2 || apply Forall_nil_2); vm_compute; repeat split; discriminate.
  - vm_compute. reflexivity.
  - vm_compute. lia.
  - simpl. lia.
Defined.
