(* ===== verification/Tail.v ===== *)
(** * Tailing a track that producers write

    Producers, whose store calls may fail, and a reader that polls, in any
    interleaving of their operations: nothing is withheld from the reader. *)

From S2P Require Import Prelude GoStd Json Store Group Manifest Track Writer Reader.
From S2P Require Import EpochLog WriterLog Isolation ReaderLog TailLog Fixtures WriterProps ReaderProps.
From S2P Require Import TrackProps Versions MemStore.

(** ** Outcomes *)

(** The program may return [a] and leave [m']. *)
Fixpoint outcome {A} (E : env) (q : prog A) (m : objs) (a : A) (m' : objs) : Prop :=
  match q with
  | Ret b => b = a ∧ m' = m
  | Do o k => ∃ r m1, E o m r m1 ∧ outcome E (k r) m1 a m'
  | OutOfFuel => False
  end.

Lemma outcome_wp {A} E (q : prog A) Q m a m' : wp E q Q m → outcome E q m a m' → Q a m'.
Proof.
  revert m. induction q as [b|o k IH|]; simpl; intros m HQ H; [by destruct H as [-> ->]| |done].
  destruct H as (r & m1 & Ho & H). by eapply IH; [apply HQ|].
Qed.

(** ** Producers *)

(** A process takes up a track: it opens it and takes a writer, on the latest epoch
    or on one it begins. *)
Definition take_up (fuel : nat) (path : TrackPath) (cfg : Config) (restart : bool) : prog (option Writer) :=
  r ← ledger.Open path cfg;
  match r with
  | Err _ => mret None
  | Ok t =>
      r ← Track_Writer fuel t;
      let '(t, r) := r in
      match r with
      | Err _ => mret None
      | Ok w =>
          if restart then
            r ← NewEpoch t w;
            let '(_, w, err) := r in
            mret match err with Some _ => None | None => Some w end
          else mret (Some w)
      end
  end.

(** A run sealed stays stored. *)
Lemma swaps_runs_kept {A} fl p (q : prog A) m :
  swaps p any any q → wlp (op_spec fl) q (λ _ m', runs_kept p m m') m.
Proof.
  intros Hq. eapply wlp_mono; [|apply wlp_alters, swaps_alters, Hq].
  intros a m' [_ Hk] e f l [x Hx]. exists x. apply Hk; [|done]. intros Hno. apply Hno.
  by apply (lasting_render p (KSealed e f l)).
Qed.

Section Producers.
Context (p : TrackPath) (tr : trackRoot) (Hwf : root_wf p tr).

(** The track, and the writer of the process that holds it. *)
Definition producing (m : objs) (l : N) (logs : list (epochLogRoot * list GroupInfo)) (ow : option Writer)
    : Prop :=
  track_ok p tr m l logs ∧
  match ow with
  | Some w => ∃ older root gs, logs = older ++ [(root, gs)] ∧ writer_ok p l m gs w
  | None => True
  end.

(** At most [n] groups and [k] epochs more. *)
Definition moved (n k : nat) (logs logs' : list (epochLogRoot * list GroupInfo)) : Prop :=
  later logs logs' ∧ length (groups_of logs') <= length (groups_of logs) + n ∧
  length logs' <= length logs + k.

Lemma moved_same n k logs : moved n k logs logs.
Proof using. split; [apply later_refl|lia]. Qed.

Lemma moved_epoch n k logs e c : moved n (S k) logs (logs ++ [(newEpochLog p e c, [])]).
Proof using.
  split; [apply later_epoch|]. rewrite groups_of_app, groups_of_one, app_nil_r, length_app. simpl. lia.
Qed.

Lemma moved_trans n1 k1 n2 k2 l1 l2 l3 :
  moved n1 k1 l1 l2 → moved n2 k2 l2 l3 → moved (n1 + n2) (k1 + k2) l1 l3.
Proof using. intros (H1 & ? & ?) (H2 & ? & ?). split; [by eapply later_trans|lia]. Qed.

Lemma wp_take_up_track fl fuel cfg restart m l logs :
  track_ok p tr m l logs → TrackPath_validate p = None → length (groups_of logs) < fuel →
  wp (op_spec fl) (take_up fuel p cfg restart) (λ ow m', ∃ l' logs',
    producing m' l' logs' ow ∧ moved 0 2 logs logs') m.
Proof using Hwf.
  destruct Hwf as [Hp Hw Hver Htr]. intros Hok Hval Hfuel. unfold take_up.
  apply wp_bind. eapply wp_mono; [|by eapply (wp_Open p tr Htr fl m l logs)].
  intros [t|er] m1 [-> Hr]; [|exists l, logs; split; [by split|apply moved_same]].
  destruct Hr as (Hpt & Hroot & _). apply wp_bind.
  eapply wp_mono; [|eapply (wp_Track_Writer_any p tr Hp Hw Hver Htr fl fuel t m l logs); done].
  intros [t1 r] m1 (logs1 & Hok1 & [_ Hrep] & Hh & Hr). cbn [fst snd] in *.
  assert (moved 0 1 logs logs1) as Hm1.
  { destruct Hrep as [->|[-> [c ->]]]; [apply moved_same|apply (moved_epoch 0 0 [])]. }
  assert (moved 0 2 logs logs1) as Hm2 by (split; [apply Hm1|destruct Hm1; lia]).
  destruct r as [w|er]; [|exists l, logs1; split; [by split|done]].
  destruct Hr as (older & root & gs & -> & Hw1 & _ & _ & _).
  destruct restart; [|exists l, (older ++ [(root, gs)]); split; [split; [done|by exists older, root, gs]|done]].
  pose proof (tk_latest _ _ _ _ _ Hok1) as Hl. rewrite length_app in Hl. simpl in Hl.
  pose proof (tk_max _ _ _ _ _ Hok1).
  apply wp_bind. eapply wp_mono; [|eapply (wp_NewEpoch p tr Hp Hw Hver Htr fl t1 w m1 l _ (l + 1));
    [|lia|exact Hok1|exact Hh|apply Hw1|]].
  2: { rewrite length_app. simpl. lia. }
  2: { by rewrite (wr_epoch _ _ _ _ _ Hw1). }
  intros [[t2 w2] err] m2 (l2 & logs2 & (Hok2 & _ & Hcase) & Hh2 & Hr2). cbn [fst snd] in Hr2, Hh2.
  assert (moved 0 2 logs logs2) as Hm3.
  { destruct Hcase as [[_ ->]|[_ [c ->]]]; [done|].
    apply (moved_trans 0 1 0 1 _ _ _ Hm1). apply (moved_epoch 0 0). }
  destruct err as [er|]; [exists l2, logs2; split; [by split|done]|].
  destruct Hr2 as (c & -> & -> & _ & (Hw2 & _) & _). exists (l + 1)%N, (older ++ [(root, gs)] ++ [(newEpochLog p (l + 1) c, [])]).
  rewrite app_assoc. split; [|done]. split; [done|]. by eexists _, _, _.
Qed.

Lemma swaps_take_up fuel cfg restart :
  swaps p any (λ ow, match ow with Some w => w_path w = p | None => True end) (take_up fuel p cfg restart).
Proof using.
  assert (any NoVersion) as HV by done. unfold take_up.
  eapply swaps_bind; [by apply swaps_Open|]. intros [t|er] Ht; [|done].
  eapply swaps_bind; [by apply swaps_Writer|]. intros [t1 [w|er]] [Ht1 Hw]; [|done].
  destruct restart; [|apply Hw].
  eapply swaps_bind; [by apply swaps_NewEpoch|]. intros [[t2 w2] [er|]] [_ Hw2]; [done|apply Hw2].
Qed.

(** The operations of a producer: the track stays well formed, its log grows at the
    end, and runs once sealed stay. *)
Lemma wp_take_up fl fuel cfg restart m l logs :
  track_ok p tr m l logs → TrackPath_validate p = None → length (groups_of logs) < fuel →
  wp (op_spec fl) (take_up fuel p cfg restart) (λ ow m', (∃ l' logs',
    producing m' l' logs' ow ∧ moved 0 2 logs logs') ∧ runs_kept p m m') m.
Proof using Hwf.
  intros Hok Hval Hfuel. apply wp_wlp; [by eapply wp_take_up_track|]. apply swaps_runs_kept.
  eapply swaps_mono; [|apply swaps_take_up]. done.
Qed.

Lemma wp_produce fl fuel c w m l logs :
  producing m l logs (Some w) → call_ok c →
  (N.of_nat (length (groups_of logs)) + 1 < 2 ^ 62)%N → length (groups_of logs) < fuel →
  wp (op_spec fl) (do_call fuel c w) (λ r m', (∃ logs',
    producing m' l logs' (Some r.1) ∧ moved 1 0 logs logs') ∧ runs_kept p m m') m.
Proof using Hwf.
  destruct Hwf as [Hp Hw Hver Htr]. intros (Hok & older & root & gs & -> & Hwr) Hc Hroom Hfuel.
  rewrite groups_of_app, groups_of_one, length_app in Hroom, Hfuel.
  pose proof (tk_max _ _ _ _ _ Hok) as Hmax.
  assert (l = N.of_nat (S (length older))) as Hl.
  { rewrite (tk_latest _ _ _ _ _ Hok), length_app. simpl. lia. }
  pose proof (last_log_durable p tr m l older root gs Hok) as Hd. rewrite <-Hl in Hd.
  apply wp_wlp.
  2: { apply swaps_runs_kept. eapply swaps_mono; [|apply swaps_call; [done|]]; [done|].
       split; [apply Hwr|done]. }
  assert (writes (epoch_object p l) any (do_call fuel c w)) as Hwrites.
  { eapply writes_mono; [|destruct c; cbn [do_call]; [apply writes_AppendGroup|apply writes_Append]];
      [done|apply Hwr|apply Hwr|done|apply Hwr|apply Hwr|done]. }
  eapply wp_mono; [|eapply wp_frame; [exact Hwrites|eapply (wp_do_call p l); try done]].
  - intros r m' ((root' & gs' & Hd' & Hw' & _ & Hcase) & _ & Hframe).
    exists (older ++ [(root', gs')]). split.
    + split; [by eapply track_ok_extended|by exists older, root', gs'].
    + assert (∃ new, gs' = gs ++ new ∧ length new <= 1) as (new & -> & Hnew).
      { destruct Hcase as [(-> & _)|(row & _ & -> & _)]; [exists []|exists [row]]; by rewrite ?app_nil_r; auto. }
      split; [apply later_last|]. rewrite !groups_of_app, !groups_of_one, !length_app. simpl. lia.
  - apply epoch_params; [done|lia].
  - unfold log_size. lia.
  - lia.
Qed.
End Producers.

(** ** A reader beside the producers *)

(** The positions yielded never step over one not yielded before; [c] is the next. *)
Inductive visits : list nat → nat → Prop :=
  | visits_nil : visits [] 0
  | visits_snoc ps c k : visits ps c → k <= c → visits (ps ++ [k]) (S k).

Lemma visits_all ps c k : visits ps c → k < c → k ∈ ps.
Proof.
  induction 1 as [|ps c i Hps IH Hi]; intros Hk; [lia|]. apply elem_of_app.
  destruct (decide (k = i)) as [->|]; [right; by left|]. left. apply IH. lia.
Qed.

(** A reader on a track, from its start. *)
Definition open_reader (path : TrackPath) (cfg : Config) : prog (result Reader) :=
  r ← ledger.Open path cfg;
  match r with Err e => mret (Err e) | Ok t => Track_Reader t end.

Definition yielded (r : result GroupInfo) : list GroupInfo :=
  match r with Ok g => [g] | Err _ => [] end.

(** Interleavings of producers, one at a time and with any store calls failing, and
    a reader whose calls succeed: the objects, the producer's writer, the reader
    and what it has yielded, after [n] operations of producers. *)
Inductive tailing (p : TrackPath) (cfg : Config) (fuel : nat) (m0 : objs)
    : nat → objs → option Writer → Reader → list GroupInfo → Prop :=
  | tailing_open r m : outcome (op_spec false) (open_reader p cfg) m0 (Ok r) m →
      tailing p cfg fuel m0 0 m None r []
  | tailing_take_up n m ow r ys restart ow' m' :
      tailing p cfg fuel m0 n m ow r ys →
      outcome (op_spec true) (take_up fuel p cfg restart) m ow' m' →
      tailing p cfg fuel m0 (S n) m' ow' r ys
  | tailing_call n m w r ys c w' row m' :
      tailing p cfg fuel m0 n m (Some w) r ys → call_ok c →
      outcome (op_spec true) (do_call fuel c w) m (w', row) m' →
      tailing p cfg fuel m0 (S n) m' (Some w') r ys
  | tailing_next n m ow r ys r' res m' :
      tailing p cfg fuel m0 n m ow r ys →
      outcome (op_spec false) (Next fuel r) m (r', res) m' →
      tailing p cfg fuel m0 n m' ow r' (ys ++ yielded res).

Section Tail.
Context (p : TrackPath) (tr : trackRoot) (Hwf : root_wf p tr) (Hval : TrackPath_validate p = None).
Context (cfg : Config) (fuel : nat) (m0 : objs) (l0 : N) (logs0 : list (epochLogRoot * list GroupInfo)).
Context (Hok0 : track_ok p tr m0 l0 logs0) (Hne0 : logs0 ≠ []).

Lemma later_groups logs logs' k g :
  later logs logs' → groups_of logs !! k = Some g → groups_of logs' !! k = Some g.
Proof using.
  intros Hl Hk. destruct (list_exists_last_or logs) as [->|(older & [root gs] & ->)]; [done|].
  destruct (Hl (length older) root gs) as (root' & new & Hi & _); [by rewrite lookup_app_r, Nat.sub_diag by done|].
  assert (list.take (length older) logs' = older) as Htake.
  { rewrite (take_later _ _ _ Hl) by (rewrite length_app; simpl; lia). apply take_app_length. }
  rewrite <-(take_drop_middle _ _ _ Hi), Htake, groups_of_app. change (?x :: ?l) with ([x] ++ l).
  rewrite groups_of_app in Hk |- *. rewrite !groups_of_one in *. rewrite !app_assoc in *.
  do 2 apply lookup_app_l_Some. done.
Qed.

Lemma wp_open_reader :
  wp (op_spec false) (open_reader p cfg) (λ res m', m' = m0 ∧
    match res with Ok r => tails p m0 logs0 r 0 | Err _ => False end) m0.
Proof using Hwf Hval Hok0 Hne0.
  destruct Hwf as [Hp Hw Hver Htr]. unfold open_reader. apply wp_bind.
  eapply wp_mono; [|by eapply (wp_Open p tr Htr false m0 l0 logs0)].
  intros [t|er] m1 [-> H]; [|done]. destruct H as (Hpt & Hroot & _).
  pose proof (tk_latest _ _ _ _ _ Hok0) as Hl.
  destruct logs0 as [|[root gs] logs] eqn:Elogs; [done|]. rewrite <-Elogs in *.
  unfold Track_Reader. rewrite Hpt, Hroot. cbn [LatestEpoch at_epoch].
  assert (l0 = N.of_nat (length logs0)) as Hl0 by (rewrite Elogs in *; simpl in *; lia).
  assert (0 < length logs0) as Hpos by (rewrite Elogs; simpl; lia).
  rewrite (proj2 (N.eqb_neq l0 0)) by lia.
  pose proof (tk_logs _ _ _ _ _ Hok0 0 root gs) as [Hlog _]; [by rewrite Elogs|].
  apply wp_bind. unfold loadEpoch. apply wp_bind.
  eapply wp_mono; [|eapply wp_fetchEpochLog, Hlog]. intros [[rt v]|er] m2 [-> H]; [|by destruct H].
  destruct H as [-> _]. split; [done|]. constructor; simpl; [done|lia|].
  exists 0, 0, root, gs. rewrite Elogs. split_and!; done || lia || apply Hlog.
Qed.

(** What the fuel and the sequence numbers allow. *)
Definition room_for (n : nat) : Prop :=
  (N.of_nat (length (groups_of logs0)) + N.of_nat n < 2 ^ 62)%N ∧
  length (groups_of logs0) + n < fuel ∧ length logs0 + 2 * n + 1 <= fuel.

Definition stands (n : nat) (m : objs) (ow : option Writer) (r : Reader) (ys : list GroupInfo)
    (l : N) (logs : list (epochLogRoot * list GroupInfo)) (ps : list nat) (c : nat) : Prop :=
  producing p tr m l logs ow ∧ moved n (2 * n) logs0 logs ∧ tails p m logs r c ∧ visits ps c ∧
  Forall2 (λ k g, groups_of logs !! k = Some g) ps ys.

Lemma stands_moved n m ow r ys l logs ps c m' l' logs' ow' :
  stands n m ow r ys l logs ps c → producing p tr m' l' logs' ow' → moved 1 2 logs logs' →
  runs_kept p m m' → stands (S n) m' ow' r ys l' logs' ps c.
Proof using.
  intros (Hpr & Hm & Ht & Hps & Hys) Hpr' Hm' Hk. split; [done|]. split_and!.
  - replace (S n) with (n + 1) by lia. replace (2 * (n + 1)) with (2 * n + 2) by lia. by eapply moved_trans.
  - eapply tails_later; [|apply Hm'|exact Hk|exact Ht]. intros i root gs Hi.
    destruct (tk_logs _ _ _ _ _ (proj1 Hpr') i root gs Hi) as [Hlog _]. apply Hlog.
  - done.
  - eapply Forall2_impl; [exact Hys|]. intros k g. apply later_groups, Hm'.
Qed.

Lemma tailing_stands n m ow r ys :
  tailing p cfg fuel m0 n m ow r ys → room_for n → ∃ l logs ps c, stands n m ow r ys l logs ps c.
Proof using Hwf Hval Hok0 Hne0.
  induction 1 as [r m Ho|n m ow r ys restart ow' m' _ IH Ho|n m w r ys cl w' row m' _ IH Hcl Ho
    |n m ow r ys r' res m' _ IH Ho]; intros (Hroom & Hf1 & Hf2).
  - destruct (outcome_wp _ _ _ _ _ _ wp_open_reader Ho) as [-> Ht]. exists l0, logs0, [], 0.
    split_and!; [by split|apply moved_same|done|constructor|constructor].
  - destruct IH as (l & logs & ps & c & Hs); [split_and!; lia|].
    pose proof Hs as ((Hok & _) & (_ & Hg & _) & _).
    eapply outcome_wp in Ho; [|eapply (wp_take_up p tr Hwf true fuel cfg restart m l logs); [done|done|lia]].
    destruct Ho as ((l' & logs' & Hpr & Hm) & Hk). exists l', logs', ps, c.
    eapply stands_moved; [exact Hs|exact Hpr| |exact Hk]. split; [apply Hm|]. destruct Hm. lia.
  - destruct IH as (l & logs & ps & c & Hs); [split_and!; lia|].
    pose proof Hs as (Hpr & (_ & Hg & _) & _).
    eapply outcome_wp in Ho; [|eapply (wp_produce p tr Hwf true fuel cl w m l logs); [done|done|lia|lia]].
    destruct Ho as ((logs' & Hpr' & Hm) & Hk). exists l, logs', ps, c.
    eapply stands_moved; [exact Hs|exact Hpr'| |exact Hk]. split; [apply Hm|]. destruct Hm. lia.
  - destruct IH as (l & logs & ps & c & Hs); [done|]. pose proof Hs as (Hpr & Hm & Ht & Hps & Hys).
    assert (logs ≠ []) as Hne.
    { destruct Hm as (Hl & _). apply later_length in Hl. destruct logs, logs0; simpl in *; (done || lia). }
    pose proof (track_ok_view p tr m l logs Hwf (proj1 Hpr) Hne) as Hv.
    pose proof (ta_latest _ _ _ _ _ Ht) as Hlat. destruct Hm as (Hlater & Hg & Hlen).
    pose proof (ta_at _ _ _ _ _ Ht) as (i & _ & _ & _ & He & _).
    eapply outcome_wp in Ho; [|eapply (wp_tail p m _ logs Hv fuel r c Ht); lia].
    destruct Ho as (-> & _ & H). cbn [fst snd] in H. destruct res as [g|er]; cbn [yielded].
    + destruct H as (c' & Hc' & Hg' & Ht' & _). exists l, logs, (ps ++ [c']), (S c').
      split; [done|]. split; [by split|]. split; [done|]. split; [by eapply visits_snoc|].
      apply Forall2_app; [done|]. by repeat constructor.
    + destruct H as (_ & Ht' & _). exists l, logs, ps, c. rewrite app_nil_r. by split_and!.
Qed.
End Tail.

(** * Properties *)


(** * Interleavings that run *)

Section Scenes.
Context {St : Type} `{!Store St, !StoreLaws St}.

Lemma run_outcome {A} (q : prog A) w a w' :
  world_ok w → run q w = Some (a, w') →
  world_ok w' ∧ outcome (op_spec true) q (view (w_store w)) a (view (w_store w')).
Proof.
  revert w. induction q as [b|o k IH|]; intros w Hw H; simpl in *; [by simplify_eq| |done].
  destruct (world_step_sound o w Hw) as [Hw1 Hs]. destruct (world_step o w) as [r w1]. simpl in *.
  destruct (IH r w1 Hw1 H) as [? ?]. split; [done|]. by exists r, (view (w_store w1)).
Qed.

Lemma run_outcome_reliable {A} (q : prog A) w a w' :
  reliable w → run q w = Some (a, w') →
  reliable w' ∧ outcome (op_spec false) q (view (w_store w)) a (view (w_store w')).
Proof.
  revert w. induction q as [b|o k IH|]; intros w Hw H; simpl in *; [by simplify_eq| |done].
  destruct (world_step_reliable o w Hw) as [Hw1 Hs]. destruct (world_step o w) as [r w1]. simpl in *.
  destruct (IH r w1 Hw1 H) as [? ?]. split; [done|]. by exists r, (view (w_store w1)).
Qed.

(** A producer takes up the track, or makes a call; the reader polls, in a world
    where [faults] are the fates of its calls. *)
Inductive turn : Type :=
  | TakeUp (restart : bool)
  | Produce (c : call)
  | Poll (faults : list fault).

Record scene := mkScene {
  sc_world : world St;
  sc_writer : option Writer;
  sc_reader : Reader;
  sc_yielded : list GroupInfo;
}.

Definition with_faults (w : world St) (faults : list fault) : world St :=
  mkWorld (w_store w) (w_clock w) faults.

Definition take_turn (p : TrackPath) (cfg : Config) (fuel : nat) (t : turn) (s : scene) : option scene :=
  let w := sc_world s in
  match t with
  | TakeUp restart =>
      '(ow, w') ← run (take_up fuel p cfg restart) w;
      Some (mkScene w' ow (sc_reader s) (sc_yielded s))
  | Produce c =>
      wr ← sc_writer s;
      '((wr', _), w') ← run (do_call fuel c wr) w;
      Some (mkScene w' (Some wr') (sc_reader s) (sc_yielded s))
  | Poll faults =>
      '((r', res), w') ← run (Next fuel (sc_reader s)) (with_faults w faults);
      Some (mkScene (with_faults w' (w_faults w)) (sc_writer s) r' (sc_yielded s ++ yielded res))
  end.

Definition take_turns (p : TrackPath) (cfg : Config) (fuel : nat) (ts : list turn) (s : scene) : option scene :=
  foldl (λ s t, s ≫= take_turn p cfg fuel t) (Some s) ts.

(** The scene in which a reader has opened the track. *)
Definition opened (p : TrackPath) (cfg : Config) (w : world St) : option scene :=
  '(r, w') ← run (open_reader p cfg) (with_faults w []);
  match r with
  | Ok r => Some (mkScene (with_faults w' (w_faults w)) None r [])
  | Err _ => None
  end.

Definition turn_ok (t : turn) : Prop :=
  match t with TakeUp _ => True | Produce c => call_ok c | Poll faults => faults = [] end.

Definition produced (ts : list turn) : nat :=
  length (List.filter (λ t, match t with Poll _ => false | _ => true end) ts).

Lemma with_faults_ok w faults : world_ok w → forallb fault_ok faults = true → world_ok (with_faults w faults).
Proof. by intros (? & ? & _) Hf. Qed.

Lemma scene_tailing p cfg fuel w ts s0 s :
  world_ok w → opened p cfg w = Some s0 → Forall turn_ok ts → take_turns p cfg fuel ts s0 = Some s →
  world_ok (sc_world s) ∧
  tailing p cfg fuel (view (w_store w)) (produced ts) (view (w_store (sc_world s))) (sc_writer s)
    (sc_reader s) (sc_yielded s).
Proof.
  intros Hw H0 Hts. revert s. induction ts as [|t ts IH] using rev_ind; intros s Hs.
  - cbn in Hs. injection Hs as <-. unfold opened in H0.
    destruct (run (open_reader p cfg) (with_faults w [])) as [[[r|] w']|] eqn:E; cbn in H0; [|done..].
    injection H0 as <-. apply run_outcome_reliable in E as [Hw' Ho];
      [|split; [by apply with_faults_ok|done]].
    split; [|by apply tailing_open]. apply with_faults_ok; [apply Hw'|apply Hw].
  - apply Forall_app in Hts as [Hts [Ht _]%Forall_cons].
    unfold take_turns in Hs. rewrite foldl_app in Hs. cbn [foldl] in Hs.
    destruct (foldl _ (Some s0) ts) as [s1|] eqn:E; [|done]. destruct (IH Hts s1 E) as [Hw1 H1].
    assert (produced (ts ++ [t]) = match t with Poll _ => produced ts | _ => S (produced ts) end) as ->.
    { unfold produced. rewrite List.filter_app, length_app. destruct t; simpl; lia. }
    cbn [mbind option_bind] in Hs. destruct t as [restart|c|faults]; cbn [take_turn] in Hs.
    + destruct (run (take_up fuel p cfg restart) (sc_world s1)) as [[ow w']|] eqn:Er; [|done].
      cbn in Hs. injection Hs as <-. apply run_outcome in Er as [Hw' Ho]; [|done].
      split; [done|]. by eapply tailing_take_up.
    + destruct (sc_writer s1) as [wr|]; [|done]. cbn [mbind option_bind] in Hs.
      destruct (run (do_call fuel c wr) (sc_world s1)) as [[[wr' row] w']|] eqn:Er; [|done].
      cbn in Hs. injection Hs as <-. apply run_outcome in Er as [Hw' Ho]; [|done].
      split; [done|]. eapply tailing_call; [exact H1|exact Ht|exact Ho].
    + cbn in Ht. subst faults.
      destruct (run (Next fuel (sc_reader s1)) (with_faults (sc_world s1) [])) as [[[r' res] w']|] eqn:Er; [|done].
      cbn in Hs. injection Hs as <-. apply run_outcome_reliable in Er as [Hw' Ho];
        [|split; [by apply with_faults_ok|done]].
      split; [apply with_faults_ok; [apply Hw'|apply Hw1]|]. by eapply tailing_next.
Qed.
End Scenes.

#[local] Open Scope string_scope.
#[local] Open Scope list_scope.

(** A track just created, a producer that seals once a few groups are open, and a
    call of it that fails after it took effect. *)
Definition cam_tail_config : Config := mkConfig 500.

Definition cam_tail_world : world mem.Store :=
  mkWorld (mem.mkStore cam_fresh 9) [5%Z] (repeat NoFault 12 ++ [FailAfter []]).

Definition cam_scene (ts : list turn) : option (scene (St := mem.Store)) :=
  opened cam cam_tail_config cam_tail_world ≫= take_turns cam cam_tail_config 20 ts.

(** The reader stands behind the first group when the run around it is sealed. *)
Definition cam_turns : list turn :=
  [TakeUp false; Produce (CAppend 10 "a"); Poll []; Produce (CAppend 10 "b"); Produce (CAppend 10 "c");
   TakeUp true; Produce (CAppend 10 "d"); Poll []; Poll []].

Lemma cam_tail_world_ok : world_ok cam_tail_world.
Proof.
  split_and!; [|by repeat constructor|done].
  intros k d v. simpl. unfold cam_fresh, cam_half.
  repeat (rewrite lookup_insert_Some; intros [[_ [= _ <-]] | [_ H]]; [discriminate|revert H]). done.
Qed.

