(* ===== verification/Runs.v ===== *)
(** * Executions on a backend

    What the theorems say of programs holds of every execution on a backend that
    keeps the store's contract, the memory backend among them, under any list of
    injected faults. *)

From S2P Require Import Prelude GoStd Json Store MemStore Group Manifest Track Writer Reader.
From S2P Require Import EpochLog WriterLog Isolation ReaderLog Fixtures WriterProps ReaderProps.

Section Backend.
Context {St : Type} `{!Store St, !StoreLaws St}.

(** The world once no further call fails. *)
Definition calm (w : world St) : world St := mkWorld (w_store w) (w_clock w) [].

Lemma calm_reliable w : world_ok w → reliable (calm w).
Proof. by intros (? & ? & _). Qed.

(** The same on a backend: from a store that holds the track, whatever calls
    fail, the producers' processes run to their end; and once calls succeed again,
    reading the track from its start yields every group acknowledged, in order,
    between the groups held before and the end of the stream. *)
Theorem backend_produce_then_replay (w : world St) p e tr older root gs t fuel ls :
  world_ok w → log_params p e → e = N.of_nat (S (length older)) →
  track_view p (view (w_store w)) tr (older ++ [(root, gs)]) → payloads p (view (w_store w)) gs →
  t_path t = p → LatestEpoch (t_root t) = e → Forall (Forall call_ok) ls →
  (log_size gs + N.of_nat (length (concat ls)) < 2 ^ 62)%N →
  length gs + length (concat ls) < fuel → length older + 3 <= fuel →
  ∃ rows w', run (lifetimes fuel t ls) w = Some (rows, w') ∧ ∃ new,
    rows `sublist_of` new ∧ length new <= length (concat ls) ∧
    let all := groups_of older ++ gs ++ new in
    ∀ n, option_map fst (run (replay fuel n t) (calm w')) =
      Some (list.take n all, if decide (n <= length all) then None else Some [EOF]).
Proof.
  intros Hw Hpar He Hv Hpay Hp Hl Hcalls Hroom Hf1 Hf2.
  pose proof (wp_produce_then_replay p e _ tr older root gs t fuel ls
    Hpar He Hv Hpay Hp Hl Hcalls Hroom Hf1 Hf2) as Hwp.
  destruct (run_wp _ _ w Hw Hwp) as (rows & w' & Hrun & Hw' & Hpost).
  exists rows, w'. split; [done|]. destruct Hpost as (new & ? & ? & Hreplay). exists new.
  split_and!; [done|done|]. cbv zeta. intros n.
  destruct (run_wp_reliable (replay fuel n t) _ (calm w') (calm_reliable w' Hw') (Hreplay n))
    as (out & w'' & -> & _ & _ & ->). done.
Qed.
End Backend.

(** * At a concrete run *)

(** The memory backend holding the track. *)
Definition cam_mem : mem.Store := mem.mkStore cam_view 9.

Definition cam_world : world mem.Store :=
  mkWorld cam_mem [5%Z] [NoFault; NoFault; FailAfter []; NoFault; FailBefore [Canceled]].

Lemma cam_world_ok : world_ok cam_world.
Proof.
  split_and!; [|by repeat constructor|done].
  intros k d v. simpl. unfold cam_view, cam_objs, cam_payload, cam_empty, fresh_epoch.
  repeat (rewrite lookup_insert_Some; intros [[_ [= _ <-]] | [_ H]]; [discriminate|revert H]).
  rewrite lookup_singleton_Some. intros [_ [= _ <-]]. discriminate.
Qed.

Lemma backend_produce_then_replay_witness :
  ∃ rows w', run (lifetimes 9 cam_track [[CAppend 90000 "a"; CAppend 1 "b"]; [CAppendGroup cam_meta "c"]])
    cam_world = Some (rows, w') ∧ ∃ new, rows `sublist_of` new ∧ length new <= 3 ∧
    let all := [] ++ [cam_row] ++ new in
    ∀ n, option_map fst (run (replay 9 n cam_track) (calm w')) =
      Some (list.take n all, if decide (n <= length all) then None else Some [EOF]).
Proof.
  eapply (backend_produce_then_replay cam_world cam 1 (t_root cam_track) [] cam_root [cam_row] cam_track 9
    [[CAppend 90000 "a"; CAppend 1 "b"]; [CAppendGroup cam_meta "c"]]).
  - apply cam_world_ok.
  - apply cam_params.
  - reflexivity.
  - apply cam_track_view.
  - apply (payloads_insert cam 1 cam_params _ _ KRoot); [by repeat constructor|done|by left|].
    apply cam_durable.
  - reflexivity.
  - reflexivity.
  - repeat (apply Forall_cons_2 || apply Forall_nil_2); vm_compute; repeat split; discriminate.
  - vm_compute. reflexivity.
  - simpl. lia.
  - simpl. lia.
Defined.
