(* ===== verification/Float64.v ===== *)
(** * Go's [float64] and [time.Duration]

    [float64] is IEEE 754 binary64, executed with the Standard Library's
    specification of it; every operation rounds on its own, as on amd64. A
    duration and a point in time are nanoseconds. *)

From Stdlib Require Import SpecFloat.
From S2P Require Import Prelude.

Abbreviation float64 := spec_float (only parsing).

Definition f64_add : float64 → float64 → float64 := SFadd 53 1024.
Definition f64_sub : float64 → float64 → float64 := SFsub 53 1024.
Definition f64_mul : float64 → float64 → float64 := SFmul 53 1024.
Definition f64_div : float64 → float64 → float64 := SFdiv 53 1024.

(** [float64(z)] *)
Definition of_int (z : Z) : float64 := binary_normalize 53 1024 z 0 false.

Definition is_nan (x : float64) : bool := match x with S754_nan => true | _ => false end.

(** The built-in [min]: NaN when either is, and minus zero below zero. *)
Definition f64_min (x y : float64) : float64 :=
  if is_nan x || is_nan y then S754_nan
  else match x, y with
       | S754_zero s, S754_zero s' => S754_zero (s || s')
       | _, _ => if SFltb y x then y else x
       end.

(** [int64(x)]: towards zero; a value out of range or a NaN gives on amd64 the
    least integer. *)
Definition to_int64 (x : float64) : Z :=
  match x with
  | S754_zero _ => 0
  | S754_finite s m e =>
      let a := if (0 <=? e)%Z then Z.shiftl (Zpos m) e else Z.shiftr (Zpos m) (- e) in
      let z := if s then (- a)%Z else a in
      if bool_decide (is_i64 z) then z else MinInt64
  | S754_nan | S754_infinity _ => MinInt64
  end.

(** ** time *)

Definition Second : Z := 1000000000.

(** [a.Sub(b)], which saturates. *)
Definition time_Sub (a b : Z) : Z := Z.max MinInt64 (Z.min MaxInt64 (a - b)).

(** [d.Seconds()] *)
Definition Seconds (d : Z) : float64 :=
  f64_add (of_int (Z.quot d Second)) (f64_div (of_int (Z.rem d Second)) (of_int Second)).

(** ** Integers as floats *)

(** The bits of a positive number. *)
Definition bits (p : positive) : Z := Zpos (digits2_pos p).

Lemma bits_bounds p : (0 < bits p ∧ 2 ^ (bits p - 1) <= Zpos p < 2 ^ bits p)%Z.
Proof.
  unfold bits. induction p as [p IH|p IH|]; cbn [digits2_pos]; [..|by cbn].
  - rewrite Pos2Z.inj_succ. split; [lia|].
    replace (Z.succ (Zpos (digits2_pos p)) - 1)%Z with (Z.succ (Zpos (digits2_pos p) - 1)) by lia.
    rewrite !Z.pow_succ_r by lia. lia.
  - rewrite Pos2Z.inj_succ. split; [lia|].
    replace (Z.succ (Zpos (digits2_pos p)) - 1)%Z with (Z.succ (Zpos (digits2_pos p) - 1)) by lia.
    rewrite !Z.pow_succ_r by lia. lia.
Qed.

Lemma bits_unique p d : (0 < d)%Z → (2 ^ (d - 1) <= Zpos p < 2 ^ d)%Z → bits p = d.
Proof.
  intros Hd [H1 H2]. destruct (bits_bounds p) as (Hb & H3 & H4).
  destruct (Z.lt_trichotomy (bits p) d) as [H|[H|H]]; [|done|].
  - assert (2 ^ bits p <= 2 ^ (d - 1))%Z by (apply Z.pow_le_mono_r; lia). lia.
  - assert (2 ^ d <= 2 ^ (bits p - 1))%Z by (apply Z.pow_le_mono_r; lia). lia.
Qed.

(** [m] doubled [n] times. *)
Lemma iter_xO n m : Zpos (Pos.iter xO m n) = (Zpos m * 2 ^ Zpos n)%Z.
Proof.
  revert m. induction n as [|n IH] using Pos.peano_ind; intros m; [simpl; lia|].
  rewrite Pos.iter_succ, Pos2Z.inj_succ, Z.pow_succ_r by lia.
  rewrite Pos2Z.inj_xO, IH. ring.
Qed.

(** The 53-bit mantissa of a number below 2^53. *)
Definition mantissa (p : positive) : positive :=
  match (53 - bits p)%Z with Zpos d => Pos.iter xO p d | _ => p end.

Definition float_of_pos (p : positive) : float64 := S754_finite false (mantissa p) (bits p - 53).

Section Small.
Context (p : positive) (Hp : (Zpos p < 2 ^ 53)%Z).

Lemma bits_small : (0 < bits p <= 53)%Z.
Proof using Hp.
  destruct (bits_bounds p) as (Hb & H & _). split; [done|].
  destruct (Z.le_gt_cases (bits p) 53) as [|Hgt]; [done|].
  assert (2 ^ 53 <= 2 ^ (bits p - 1))%Z by (apply Z.pow_le_mono_r; lia). lia.
Qed.

Lemma mantissa_eq : Zpos (mantissa p) = (Zpos p * 2 ^ (53 - bits p))%Z.
Proof using Hp.
  pose proof bits_small. unfold mantissa. destruct (53 - bits p)%Z eqn:E; [lia|apply iter_xO|lia].
Qed.

Lemma mantissa_bits : bits (mantissa p) = 53%Z.
Proof using Hp.
  pose proof bits_small as Hs. destruct (bits_bounds p) as (_ & H1 & H2). apply bits_unique; [done|].
  rewrite mantissa_eq. replace (53 - 1)%Z with ((bits p - 1) + (53 - bits p))%Z by lia.
  replace (2 ^ 53)%Z with (2 ^ bits p * 2 ^ (53 - bits p))%Z by (rewrite <-Z.pow_add_r by lia; f_equal; lia).
  rewrite Z.pow_add_r by lia. assert (0 < 2 ^ (53 - bits p))%Z by (apply Z.pow_pos_nonneg; lia). nia.
Qed.
End Small.

(** A mantissa of 53 bits needs no rounding. *)
Lemma round_exact m e :
  bits m = 53%Z → (-1074 <= e <= 971)%Z →
  shr_fexp 53 1024 (Zpos m) e loc_Exact = (Build_shr_record (Zpos m) false false, e).
Proof.
  intros Hm He. unfold shr_fexp, Zdigits2, fexp, emin. change (Zpos (digits2_pos m)) with (bits m).
  rewrite Hm. replace (Z.max (53 + e - 53) (3 - 1024 - 53) - e)%Z with 0%Z by lia. done.
Qed.

Lemma round_aux_exact m e :
  bits m = 53%Z → (-1074 <= e <= 971)%Z →
  binary_round_aux 53 1024 false (Zpos m) e loc_Exact = S754_finite false m e.
Proof.
  intros Hm He. unfold binary_round_aux. rewrite !round_exact by done. simpl shr_m.
  cbn [loc_of_shr_record round_nearest_even]. rewrite round_exact by done. simpl shr_m.
  by rewrite (proj2 (Z.leb_le e (1024 - 53))) by lia.
Qed.

Lemma shr_1_double p : shr_1 (Build_shr_record (Zpos (xO p)) false false) = Build_shr_record (Zpos p) false false.
Proof. done. Qed.

Lemma shr_exact n : ∀ p q, Zpos q = (Zpos p * 2 ^ Zpos n)%Z →
  SpecFloat.iter_pos shr_1 n (Build_shr_record (Zpos q) false false) = Build_shr_record (Zpos p) false false.
Proof.
  assert (∀ n' p q, Zpos q = (Zpos p * 2 ^ (2 * Zpos n'))%Z → ∃ r, Zpos q = (Zpos r * 2 ^ Zpos n')%Z ∧
    Zpos r = (Zpos p * 2 ^ Zpos n')%Z) as Hhalf.
  { intros n' p q Hq. exists (p * 2 ^ n')%positive. rewrite Pos2Z.inj_mul, Pos2Z.inj_pow. split; [|done].
    rewrite Hq. replace (2 * Zpos n')%Z with (Zpos n' + Zpos n')%Z by lia. rewrite Z.pow_add_r by lia. ring. }
  induction n as [n IH|n IH|]; intros p q Hq; cbn [SpecFloat.iter_pos].
  - rewrite Pos2Z.inj_xI in Hq.
    assert (∃ q', q = xO q') as [q' ->].
    { destruct q as [q|q|]; [|by eexists|]; rewrite Z.pow_add_r in Hq by lia; lia. }
    rewrite shr_1_double. destruct (Hhalf n p q') as (r & H1 & H2).
    { rewrite Z.pow_add_r in Hq by lia. lia. }
    by rewrite (IH r q' H1), (IH p r H2).
  - rewrite Pos2Z.inj_xO in Hq. destruct (Hhalf n p q Hq) as (r & H1 & H2).
    by rewrite (IH r q H1), (IH p r H2).
  - destruct q as [q|q|]; [lia| |lia]. rewrite shr_1_double. do 2 f_equal. lia.
Qed.

Lemma of_int_pos p : (Zpos p < 2 ^ 53)%Z → of_int (Zpos p) = float_of_pos p.
Proof.
  intros Hp. pose proof (bits_small p Hp) as Hb. unfold of_int, binary_normalize, binary_round.
  unfold fexp, emin. change (Zpos (digits2_pos p)) with (bits p).
  replace (Z.max (bits p + 0 - 53) (3 - 1024 - 53)) with (bits p - 53)%Z by lia.
  assert (shl_align p 0 (bits p - 53) = (mantissa p, bits p - 53)%Z) as ->.
  { unfold shl_align, mantissa. replace (bits p - 53 - 0)%Z with (- (53 - bits p))%Z by lia.
    destruct (53 - bits p)%Z eqn:E; simpl; [f_equal; lia|done|lia]. }
  apply round_aux_exact; [by apply mantissa_bits|lia].
Qed.

(** The same number, scaled by 2^52. *)
Lemma normalize_scaled p q :
  (Zpos p < 2 ^ 53)%Z → Zpos q = (Zpos p * 2 ^ 52)%Z →
  binary_normalize 53 1024 (Zpos q) (-52) false = float_of_pos p.
Proof.
  intros Hp Hq. pose proof (bits_small p Hp) as Hb. destruct (bits_bounds p) as (_ & H1 & H2).
  assert (bits q = bits p + 52)%Z as Hbq.
  { apply bits_unique; [lia|]. rewrite Hq. replace (bits p + 52 - 1)%Z with ((bits p - 1) + 52)%Z by lia.
    rewrite !Z.pow_add_r by lia. lia. }
  unfold binary_normalize, binary_round, fexp, emin. change (Zpos (digits2_pos q)) with (bits q).
  rewrite Hbq. replace (Z.max (bits p + 52 + -52 - 53) (3 - 1024 - 53)) with (bits p - 53)%Z by lia.
  assert (shl_align q (-52) (bits p - 53) = (q, -52)%Z) as ->.
  { unfold shl_align. replace (bits p - 53 - -52)%Z with (bits p - 1)%Z by lia.
    by destruct (bits p - 1)%Z eqn:E; [| |lia]. }
  unfold binary_round_aux.
  assert (shr_fexp 53 1024 (Zpos q) (-52) loc_Exact =
    (Build_shr_record (Zpos (mantissa p)) false false, bits p - 53)%Z) as ->.
  { unfold shr_fexp, Zdigits2, fexp, emin. change (Zpos (digits2_pos q)) with (bits q). rewrite Hbq.
    replace (Z.max (bits p + 52 + -52 - 53) (3 - 1024 - 53) - -52)%Z with (bits p - 1)%Z by lia.
    cbn [shr_record_of_loc]. unfold shr. destruct (bits p - 1)%Z as [|n|n] eqn:E; [| |lia].
    - f_equal; [|lia]. do 2 f_equal. apply Pos2Z.inj. rewrite mantissa_eq, Hq by done. do 2 f_equal. lia.
    - rewrite (shr_exact n (mantissa p) q); [f_equal; lia|]. rewrite mantissa_eq, Hq by done.
      rewrite <-Z.mul_assoc, <-Z.pow_add_r by lia. do 2 f_equal. lia. }
  simpl shr_m. cbn [loc_of_shr_record round_nearest_even].
  rewrite round_exact by (by try apply mantissa_bits; lia). simpl shr_m.
  by rewrite (proj2 (Z.leb_le (bits p - 53) (1024 - 53))) by lia.
Qed.

Lemma compare_pos p q :
  (Zpos p < 2 ^ 53)%Z → (Zpos q < 2 ^ 53)%Z →
  SFcompare (float_of_pos p) (float_of_pos q) = Some (Zpos p ?= Zpos q)%Z.
Proof.
  intros Hp Hq. unfold float_of_pos, SFcompare. f_equal.
  destruct (bits_bounds p) as (_ & P1 & P2), (bits_bounds q) as (_ & Q1 & Q2).
  destruct (Z.compare_spec (bits p - 53) (bits q - 53)) as [He|He|He].
  - change (Pos.compare_cont Eq (mantissa p) (mantissa q)) with (Zpos (mantissa p) ?= Zpos (mantissa q))%Z.
    rewrite !mantissa_eq by done. replace (bits q) with (bits p) by lia.
    rewrite <-Zmult_compare_compat_r; [done|]. apply Z.lt_gt, Z.pow_pos_nonneg; [done|].
    pose proof (bits_small p Hp). lia.
  - assert (2 ^ bits p <= 2 ^ (bits q - 1))%Z by (apply Z.pow_le_mono_r; lia).
    symmetry. apply Z.compare_lt_iff. lia.
  - assert (2 ^ bits q <= 2 ^ (bits p - 1))%Z by (apply Z.pow_le_mono_r; lia).
    symmetry. apply Z.compare_gt_iff. lia.
Qed.

Lemma sub_one p : (Zpos p < 2 ^ 53)%Z → f64_sub (of_int (Zpos p)) (of_int 1) = of_int (Zpos p - 1).
Proof.
  intros Hp. pose proof (bits_small p Hp) as Hb. rewrite !of_int_pos by (done || lia).
  change (float_of_pos 1) with (S754_finite false 4503599627370496 (-52)).
  unfold f64_sub, float_of_pos, SFsub. replace (Z.min (bits p - 53) (-52)) with (-52)%Z by lia.
  cbn [cond_Zopp]. change (shl_align 4503599627370496 (-52) (-52)) with (4503599627370496%positive, (-52)%Z).
  cbn [fst].
  assert (Zpos (shl_align (mantissa p) (bits p - 53) (-52)).1 = (Zpos p * 2 ^ 52)%Z) as Hm.
  { unfold shl_align. replace (-52 - (bits p - 53))%Z with (- (bits p - 1))%Z by lia.
    destruct (bits p - 1)%Z as [|d|d] eqn:E; [| |lia].
    - change (- 0)%Z with 0%Z. cbv iota. cbn [fst]. rewrite mantissa_eq by done. do 2 f_equal. lia.
    - change (- Zpos d)%Z with (Zneg d). cbv iota. cbn [fst]. rewrite iter_xO, mantissa_eq by done.
      rewrite <-Z.mul_assoc, <-Z.pow_add_r by lia. do 2 f_equal. lia. }
  rewrite Hm. replace (Zpos p * 2 ^ 52 - 4503599627370496)%Z with ((Zpos p - 1) * 2 ^ 52)%Z by lia.
  destruct (Zpos p - 1)%Z as [|r|r] eqn:E; [done| |lia].
  rewrite of_int_pos by lia. change (2 ^ 52)%Z with (Zpos (2 ^ 52)). rewrite <-Pos2Z.inj_mul.
  apply normalize_scaled; [lia|done].
Qed.
