(* ===== verification/Limit.v ===== *)
(** * Rate limits (ingest/limit.go)

    The token buckets of a track and of its senders. A bucket is reached only
    through the track or its map of senders, so the pointers of the source are
    records here, put back where they were taken. *)

From Stdlib Require Import SpecFloat.
From S2P Require Import Prelude Float64.
#[local] Open Scope string_scope.

(** [Limit] (ingest/handler.go) *)
Record Limit := mkLimit { Rate : float64; Burst : Z }.

Definition senderBuckets : nat := 1024.

(** [Limit.active] *)
Definition active (l : Limit) : bool := SFltb (S754_zero false) (Rate l) && (0 <? Burst l)%Z.

Record bucket := mkBucket { tokens : float64; last_refill : Z; started : bool }.

Definition zeroBucket : bucket := mkBucket (S754_zero false) 0 false.

(** [bucket.refill] *)
Definition refill (b : bucket) (l : Limit) (now : Z) : bucket :=
  if negb (started b) then mkBucket (of_int (Burst l)) now true
  else mkBucket
    (f64_min (of_int (Burst l))
      (f64_add (tokens b) (f64_mul (Seconds (time_Sub now (last_refill b))) (Rate l))))
    now true.

(** [bucket.wait] *)
Definition wait (b : bucket) (l : Limit) : Z :=
  if SFleb (of_int 1) (tokens b) then 0
  else to_int64 (f64_mul (f64_div (f64_sub (of_int 1) (tokens b)) (Rate l)) (of_int Second)).

(** [bucket.full] *)
Definition full (b : bucket) (l : Limit) : bool := SFleb (of_int (Burst l)) (tokens b).

(** [b.tokens--] *)
Definition spend (b : bucket) : bucket :=
  mkBucket (f64_sub (tokens b) (of_int 1)) (last_refill b) (started b).

(** [track.senderBucket]: the sender's bucket and the senders with it put back. *)
Definition senderBucket (senders : gmap string bucket) (sender : string) (l : Limit) (now : Z)
    : bucket * gmap string bucket :=
  let '(b, senders) :=
    match senders !! sender with
    | Some b => (b, senders)
    | None =>
        let senders :=
          if (senderBuckets <=? size senders)%nat
          then filter (λ nb, full nb.2 l = false) ((λ other, refill other l now) <$> senders)
          else senders in
        (zeroBucket, senders)
    end in
  let b := refill b l now in
  (b, <[sender := b]> senders).

(** [Handler.admit]: how long to wait, or zero when a token was taken from the
    track's bucket and the sender's, and the buckets then. *)
Definition Handler_admit (trackLimit senderLimit : Limit) (limit : bucket) (senders : gmap string bucket)
    (sender : string) (now : Z) : Z * bucket * gmap string bucket :=
  let limit := if active trackLimit then refill limit trackLimit now else limit in
  let w := if active trackLimit then wait limit trackLimit else 0%Z in
  let '(sb, senders) :=
    if negb (String.eqb sender "") && active senderLimit
    then let '(b, senders) := senderBucket senders sender senderLimit now in (Some b, senders)
    else (None, senders) in
  let w := match sb with Some b => Z.max w (wait b senderLimit) | None => w end in
  if (0 <? w)%Z then (w, limit, senders)
  else
    (0%Z, if active trackLimit then spend limit else limit,
     match sb with Some b => <[sender := spend b]> senders | None => senders end).

(** ** A bucket at one instant *)

Section Instant.
Context (l : Limit) (now : Z) (Hl : active l = true) (Hb : (Burst l < 2 ^ 53)%Z)
  (Hw : (0 < to_int64 (f64_mul (f64_div (of_int 1) (Rate l)) (of_int Second)))%Z).

(** A bucket holding a whole number of tokens, refilled just now. *)
Definition holding (t : Z) : bucket := mkBucket (of_int t) now true.

Lemma active_inv : (0 < Burst l)%Z ∧ ∃ m e, Rate l = S754_finite false m e.
Proof using Hl Hw.
  unfold active in Hl. apply andb_prop in Hl as [Hr Hbu]. split; [by apply Z.ltb_lt|].
  destruct (Rate l) as [s|[]| |[] m e]; [done..| |]; [done|by eexists _, _].
Qed.

Lemma min_ints a b : (0 <= a <= b)%Z → (b < 2 ^ 53)%Z → f64_min (of_int b) (of_int a) = of_int a.
Proof using.
  intros [H0 Hab] Hb'. destruct b as [|b|b]; [by replace a with 0%Z by lia| |lia].
  destruct a as [|a|a]; [by rewrite of_int_pos by done| |lia]. rewrite !of_int_pos by lia.
  unfold f64_min. cbn [is_nan orb float_of_pos].
  change (SFltb (S754_finite false (mantissa a) (bits a - 53)) (S754_finite false (mantissa b) (bits b - 53)))
    with (SFltb (float_of_pos a) (float_of_pos b)).
  unfold SFltb. rewrite compare_pos by lia. destruct (Z.compare_spec (Zpos a) (Zpos b)) as [E| |]; [|done|lia].
  by injection E as ->.
Qed.

Lemma refill_now t : (0 <= t <= Burst l)%Z → refill (holding t) l now = holding t.
Proof using Hl Hb Hw.
  intros Ht. destruct active_inv as (Hpos & m & e & Hr). unfold refill, holding. cbn.
  assert (time_Sub now now = 0%Z) as -> by (unfold time_Sub, MinInt64, MaxInt64; lia).
  assert (f64_mul (Seconds 0) (Rate l) = S754_zero false) as -> by by rewrite Hr.
  assert (f64_add (of_int t) (S754_zero false) = of_int t) as ->.
  { destruct t as [|t|t]; [done| |lia]. by rewrite of_int_pos by lia. }
  by rewrite min_ints by lia.
Qed.

Lemma wait_holding t : (0 <= t <= Burst l)%Z →
  if (0 <? t)%Z then wait (holding t) l = 0%Z else (0 < wait (holding t) l)%Z.
Proof using Hb Hw.
  intros Ht. unfold wait, holding. cbn [tokens]. destruct t as [|t|t]; [|simpl Z.ltb; cbv iota|lia].
  - change (SFleb (of_int 1) (of_int 0)) with false. cbv iota. exact Hw.
  - rewrite !of_int_pos by lia. unfold SFleb. rewrite compare_pos by lia.
    by destruct (Z.compare_spec 1 (Zpos t)); [| |lia].
Qed.

Lemma spend_holding t : (0 < t <= Burst l)%Z → spend (holding t) = holding (t - 1).
Proof using Hb.
  intros Ht. unfold spend, holding. cbn. destruct t as [|t|t]; [lia| |lia].
  by rewrite sub_one by lia.
Qed.
End Instant.

(** The answers to [n] records arriving at one instant. *)
Fixpoint admits (n : nat) (trackLimit senderLimit : Limit) (limit : bucket)
    (senders : gmap string bucket) (sender : string) (now : Z) : list Z :=
  match n with
  | O => []
  | S n' =>
      let '(w, limit, senders) := Handler_admit trackLimit senderLimit limit senders sender now in
      w :: admits n' trackLimit senderLimit limit senders sender now
  end.

Lemma admits_holding l sl now sender senders n :
  active l = true → (Burst l < 2 ^ 53)%Z →
  (0 < to_int64 (f64_mul (f64_div (of_int 1) (Rate l)) (of_int Second)))%Z →
  active sl = false → ∀ t, (Z.of_nat t <= Burst l)%Z →
  admits n l sl (holding now (Z.of_nat t)) senders sender now =
    (repeat 0%Z (n `min` t) ++ repeat (wait (holding now 0) l) (n - t))%list.
Proof.
  intros Hl Hb Hw Hsl. induction n as [|n IH]; intros t Ht; [done|]. cbn [admits].
  unfold Handler_admit. rewrite Hl, Hsl, andb_false_r, refill_now by (done || lia).
  pose proof (wait_holding l now Hb Hw (Z.of_nat t) ltac:(lia)) as Hwait.
  destruct t as [|t].
  - simpl Z.ltb in Hwait. cbv iota in Hwait. change (Z.of_nat 0) with 0%Z in *.
    rewrite (proj2 (Z.ltb_lt _ _) Hwait). rewrite Nat.min_0_r. cbn [repeat app Nat.sub]. f_equal.
    pose proof (IH 0%nat Ht) as E. rewrite Nat.min_0_r, Nat.sub_0_r in E. exact E.
  - rewrite (proj2 (Z.ltb_lt 0 (Z.of_nat (S t)))) in Hwait by lia. rewrite Hwait, Z.ltb_irrefl.
    rewrite (spend_holding l now Hb) by lia. replace (Z.of_nat (S t) - 1)%Z with (Z.of_nat t) by lia.
    cbn [Nat.min repeat app Nat.sub]. f_equal. apply IH. lia.
Qed.

(** * Properties *)

(** A track's limit lets in at one instant exactly [Burst] records: from a
    bucket that starts full, the first [Burst] are admitted and every later one
    is told the same positive time to wait, for any burst below 2^53 and any rate
    whose period fits a [time.Duration]. *)
Theorem burst_at_once l sl now sender senders n :
  active l = true → (Burst l < 2 ^ 53)%Z →
  (0 < to_int64 (f64_mul (f64_div (of_int 1) (Rate l)) (of_int Second)))%Z →
  active sl = false →
  ∃ w, (0 < w)%Z ∧ admits n l sl zeroBucket senders sender now =
    (repeat 0%Z (n `min` Z.to_nat (Burst l)) ++ repeat w (n - Z.to_nat (Burst l)))%list.
Proof.
  intros Hl Hb Hw Hsl. destruct (active_inv l Hl Hw) as [Hpos _].
  exists (wait (holding now 0) l). split; [by apply (wait_holding l now Hb Hw 0); lia|].
  rewrite <-(admits_holding l sl now sender senders n Hl Hb Hw Hsl) by lia. rewrite Z2Nat.id by lia.
  destruct n as [|n]; [done|]. cbn [admits]. unfold Handler_admit. rewrite Hl.
  by rewrite (refill_now l now Hl Hb Hw (Burst l)) by lia.
Qed.

Lemma burst_at_once_witness :
  ∃ w, (0 < w)%Z ∧ admits 5 (mkLimit (f64_div (of_int 1) (of_int 2)) 3) (mkLimit (of_int 0) 0)
      zeroBucket ∅ "a" 7 = (repeat 0%Z (5 `min` 3) ++ repeat w (5 - 3))%list.
Proof.
  apply (burst_at_once (mkLimit (f64_div (of_int 1) (of_int 2)) 3) (mkLimit (of_int 0) 0) 7 "a" ∅ 5).
  - by vm_compute.
  - by vm_compute.
  - by vm_compute.
  - by vm_compute.
Defined.
