(* ===== verification/Ingest.v ===== *)
(** * The HTTP ingest (ingest/handler.go)

    The handler as a record of its fields and each request as a program over the
    store that takes the handler and answers a response and the handler changed.
    The tracks a handler keeps are shared objects: the map holds pointers into
    [objects], as a request does between [open] and [release]. The program text
    of a request is cut where the source takes and leaves a lock; run on end it
    is a request served alone. [time.Now] is the clock operation; a call of a hook
    is an event. Logging, response texts and the JSON encoding of responses are
    left out. *)

From S2P Require Import Prelude GoStd Json Store Group Manifest Track Writer Redact Reader.
From S2P Require Import Float64 Limit.
#[local] Open Scope string_scope.
#[local] Open Scope list_scope.

Module ingest.

(** ** Constants *)

Definition DefaultMaxBodyBytes : Z := Z.shiftl 64 10.
Definition DefaultTrackIdleTimeout : Z := 10 * 60 * Second.
Definition Encoding : string := "json".
Definition MIME : string := "application/json".
Definition DefaultPageSize : Z := 50.
Definition MaxPageSize : Z := 200.
Definition timescale : N := 1000.
Definition idempotencyKeys : nat := 1024.
Definition maxIdempotencyKeyLen : nat := 255.

(** ** Tracks and their paths *)

Record Track := mkTrack { BroadcastPath : string; TrackName : string }.

#[export] Instance Track_eq_dec : EqDecision Track.
Proof. solve_decision. Defined.

(** [strings.Trim(s, "/")] *)
Fixpoint TrimLeft (s : string) : string :=
  match s with
  | String c s' => if Ascii.eqb c "/" then TrimLeft s' else s
  | EmptyString => ""
  end.
Fixpoint TrimRight (s : string) : string :=
  match s with
  | EmptyString => ""
  | String c s' =>
      let r := TrimRight s' in
      if Ascii.eqb c "/" && String.eqb r "" then "" else String c r
  end.
Definition Trim (s : string) : string := TrimRight (TrimLeft s).

(** [Track.Path] *)
Definition Path (t : Track) : TrackPath := Trim (BroadcastPath t) +:+ "/" +:+ TrackName t.

(** What lies before and behind the last slash. *)
Fixpoint cut_last (s : string) : option (string * string) :=
  match s with
  | EmptyString => None
  | String c s' =>
      match cut_last s' with
      | Some (before, after) => Some (String c before, after)
      | None => if Ascii.eqb c "/" then Some ("", s') else None
      end
  end.

Definition trackFromPath (p : string) : result Track :=
  if String.eqb p "" || negb (String.eqb (Clean (String "/" p)) (String "/" p)) then Err []
  else match cut_last p with
  | None => Err []
  | Some (before, after) => Ok (mkTrack (String "/" before) after)
  end.

(** ** Records *)

(** [Record]; a nil or empty [json.RawMessage] is the empty string. *)
Record Record_ := mkRecord { Sender : string; Payload : bytes; Redacts : string }.

Definition zeroRecord : Record_ := mkRecord "" "" "".

(** [json.Marshal] of a [json.RawMessage] drops the white space between tokens
    and escapes what HTML would read. *)
Fixpoint compact (fuel : nat) (in_string : bool) (s : string) : string :=
  match fuel, s with
  | O, _ | _, EmptyString => ""
  | S fuel', String c s' =>
      if negb in_string then
        if is_ws c then compact fuel' false s'
        else String c (compact fuel' (Ascii.eqb c quote) s')
      else if Ascii.eqb c quote then String c (compact fuel' false s')
      else if Ascii.eqb c "\" then
        match s' with
        | String d s'' => String c (String d (compact fuel' true s''))
        | EmptyString => String c ""
        end
      else if (byte_of c =? 60)%N || (byte_of c =? 62)%N || (byte_of c =? 38)%N then
        escape_ascii c +:+ compact fuel' true s'
      else match CutPrefix s line_separator with
      | Some rest => "\u2028" +:+ compact fuel' true rest
      | None =>
      match CutPrefix s paragraph_separator with
      | Some rest => "\u2029" +:+ compact fuel' true rest
      | None => String c (compact fuel' true s')
      end end
  end.

Definition compacted (s : string) : string := compact (String.length s) false s.

(** [json.Valid] *)
Definition json_Valid (s : string) : bool := match parse s with Some _ => true | None => false end.

(** [json.Marshal] of a [Record]: each member unless it is empty. *)
Definition marshalRecord (r : Record_) : result bytes :=
  if negb (String.eqb (Payload r) "") && negb (json_Valid (Payload r)) then Err []
  else
    let members :=
      (if String.eqb (Sender r) "" then [] else [print_string "sender" +:+ ":" +:+ print_string (Sender r)]) ++
      (if String.eqb (Payload r) "" then [] else [print_string "payload" +:+ ":" +:+ compacted (Payload r)]) ++
      (if String.eqb (Redacts r) "" then [] else [print_string "redacts" +:+ ":" +:+ print_string (Redacts r)]) in
    Ok ("{" +:+ String.concat "," members +:+ "}").

(** The members of an object's text behind its brace, each with the raw text of
    its value. *)
Fixpoint raw_members (fuel : nat) (s : string) : option (list (string * (json * string))) :=
  match fuel with
  | O => None
  | S fuel' =>
      match skip_ws s with
      | String q s' =>
          if Ascii.eqb q "}" then Some []
          else if Ascii.eqb q "," then raw_members fuel' s'
          else
            match parse_string (String.length s') s' with
            | None => None
            | Some (k, s2) =>
                match CutPrefix (skip_ws s2) ":" with
                | None => None
                | Some s3 =>
                    let s3 := skip_ws s3 in
                    match parse_value (S (2 * String.length s3)) s3 with
                    | None => None
                    | Some (v, rest) =>
                        let raw := (split_at (String.length s3 - String.length rest) s3).1 in
                        match raw_members fuel' rest with
                        | Some l => Some ((k, (v, raw)) :: l)
                        | None => None
                        end
                    end
                end
            end
      | EmptyString => None
      end
  end.

Fixpoint assign_record (l : list (string * (json * string))) (r : Record_) : option Record_ :=
  match l with
  | [] => Some r
  | (k, (v, raw)) :: l' =>
      let assigned :=
        if name_matches k "sender" then
          option_map (λ s, {| r with Sender := s |}) (decode_string v (Sender r))
        else if name_matches k "payload" then Some {| r with Payload := raw |}
        else if name_matches k "redacts" then
          option_map (λ s, {| r with Redacts := s |}) (decode_string v (Redacts r))
        else Some r in
      match assigned with Some r' => assign_record l' r' | None => None end
  end.

(** [json.Unmarshal] into a [Record] *)
Definition unmarshalRecord (s : bytes) : result Record_ :=
  match parse s with
  | Some JNull => Ok zeroRecord
  | Some (JObj _) =>
      match CutPrefix (skip_ws s) "{" with
      | None => Err []
      | Some body =>
          match raw_members (S (String.length body)) body with
          | None => Err []
          | Some l => match assign_record l zeroRecord with Some r => Ok r | None => Err [] end
          end
      end
  | _ => Err []
  end.

(** ** Requests, responses and the handler *)

Inductive Access : Type := Write | Read | Redact | Create.

(** What the handler reads of an [http.Request]: the path behind [/tracks/], the
    [Idempotency-Key] header, the query's parameters, and the body, which a client
    may cut short. *)
Record request := mkRequest {
  r_track : string;
  r_key : string;
  r_query : list (string * string);
  r_body : bytes;
  r_cut : bool;
}.

(** [r.URL.Query().Get(name)] *)
Fixpoint query_Get (name : string) (q : list (string * string)) : string :=
  match q with
  | [] => ""
  | (k, v) :: q' => if String.eqb k name then v else query_Get name q'
  end.

Record recordResponse := mkRecordResponse { rr_Group : string; rr_Wallclock : Z }.

Record historyEntry := mkHistoryEntry {
  he_Group : string;
  he_Wallclock : Z;
  he_Redacted : bool;
  he_Record : Record_;
}.

Record historyResponse := mkHistoryResponse {
  hr_Records : list historyEntry;
  hr_Before : string;
}.

Inductive body : Type :=
  | NoBody
  | TextBody
  | RecordBody (r : recordResponse)
  | HistoryBody (r : historyResponse).

Record response := mkResponse {
  status : N;
  retryAfter : option Z;
  challenge : string;
  body_ : body;
}.

(** [http.Error] and [w.WriteHeader] *)
Definition http_Error (status : N) : response := mkResponse status None "" TextBody.
Definition WriteHeader (status : N) : response := mkResponse status None "" NoBody.
Definition writeJSON (status : N) (b : body) : response := mkResponse status None "" b.
Definition internalError : response := http_Error 500.

Record Options := mkOptions {
  Authorize : option (request → Track → Access → result string);
  Challenge : string;
  SenderLimit : Limit;
  TrackLimit : Limit;
  OnOpen : bool;
  TrackIdleTimeout : Z;
  OnRecord : bool;
  MaxBodyBytes : Z;
  Config_ : Config;
}.

(** A call of a hook. *)
Inductive event : Type :=
  | Opened (t : Track)
  | Recorded (t : Track) (g : GroupInfo) (record : bytes).

Record track := mkTk {
  tk_Track : Track;
  users : Z;
  lastUsed : Z;
  writer : Writer;
  replies : gmap string recordResponse;
  keys : list string;
  limit : bucket;
  senders : gmap string bucket;
}.

Record Handler := mkHandler {
  opts : Options;
  maxBody : Z;
  idle : Z;
  tracks : gmap string nat;
  nextSweep : option Z;
  (** the tracks the pointers point to *)
  objects : gmap nat track;
  next_object : nat;
  events : list event;
}.

(** [NewHandler]; [None] is a nil store. *)
Definition NewHandler (store : option unit) (o : Options) : result Handler :=
  match store with
  | None => Err []
  | Some _ =>
      if (TrackIdleTimeout o <? 0)%Z then Err []
      else Ok (mkHandler o
        (if (MaxBodyBytes o =? 0)%Z then DefaultMaxBodyBytes else MaxBodyBytes o)
        (if (TrackIdleTimeout o =? 0)%Z then DefaultTrackIdleTimeout else TrackIdleTimeout o)
        ∅ None ∅ 0 [])
  end.

Definition emit (e : event) (h : Handler) : Handler := {| h with events := events h ++ [e] |}.
Definition update (id : nat) (f : track → track) (h : Handler) : Handler :=
  {| h with objects := alter f id (objects h) |}.

(** ** Tracks in use *)

(** [Handler.closeIdle] *)
Definition idle_track (h : Handler) (now : Z) (id : nat) : bool :=
  match objects h !! id with
  | Some tr => (users tr =? 0)%Z && (idle h <=? time_Sub now (lastUsed tr))%Z
  | None => false
  end.

Definition closeIdle (now : Z) (h : Handler) : Handler :=
  if match nextSweep h with Some t => (now <? t)%Z | None => false end then h
  else {| h with
    nextSweep := Some (now + Z.quot (idle h) 2)%Z;
    tracks := filter (λ kid, idle_track h now kid.2 = false) (tracks h) |}.

(** [tr.users++] and the count taken back by [release]. *)
Definition hold (id : nat) : Handler → Handler :=
  update id (λ tr, {| tr with users := users tr + 1 |}).

(** [Handler.release] *)
Definition release (id : nat) (now : Z) : Handler → Handler :=
  update id (λ tr, {| tr with users := users tr - 1; lastUsed := now |}).

(** The first part of [Handler.open], under the handler's lock. *)
Definition open_lookup (key : TrackPath) (now : Z) (h : Handler) : option nat * Handler :=
  let h := closeIdle now h in
  match tracks h !! key with
  | Some id => (Some id, hold id h)
  | None => (None, h)
  end.

(** The second part, without the lock: a writer from the store. *)
Definition open_writer (fuel : nat) (key : TrackPath) (cfg : Config) : prog (result Writer) :=
  lt ← ledger.Open key cfg;
  match lt with
  | Err e => mret (Err e)
  | Ok lt => r ← Track_Writer fuel lt; mret r.2
  end.

(** The third part: the first request to finish is kept. *)
Definition open_insert (t : Track) (w : Writer) (h : Handler) : nat * Handler :=
  let key := Path t in
  match tracks h !! key with
  | Some id => (id, hold id h)
  | None =>
      let id := next_object h in
      let tr := mkTk t 1 0 w ∅ [] zeroBucket ∅ in
      let h := {| h with tracks := <[key := id]> (tracks h);
                         objects := <[id := tr]> (objects h); next_object := S id |} in
      (id, if OnOpen (opts h) then emit (Opened t) h else h)
  end.

(** [Handler.open] *)
Definition open (fuel : nat) (t : Track) (h : Handler) : prog (result nat * Handler) :=
  now ← now;
  let '(got, h) := open_lookup (Path t) now h in
  match got with
  | Some id => mret (Ok id, h)
  | None =>
      r ← open_writer fuel (Path t) (Config_ (opts h));
      match r with
      | Err e => mret (Err e, h)
      | Ok w => let '(id, h) := open_insert t w h in mret (Ok id, h)
      end
  end.

(** The deferred [release]. *)
Definition released (id : nat) (resp : response) (h : Handler) : prog (response * Handler) :=
  now ← now; mret (resp, release id now h).

(** [Handler.resolve]: the track and the sender, or the answer of a refusal. *)
Definition resolve (h : Handler) (r : request) (access : Access)
    : (response + Track * string) :=
  match trackFromPath (r_track r) with
  | Err _ => inl (http_Error 400)
  | Ok t =>
      match Authorize (opts h) with
      | None => inr (t, "")
      | Some authorize =>
          match authorize r t access with
          | Ok sender => inr (t, sender)
          | Err e =>
              if errors_Is e ErrUnauthenticated
              then inl (mkResponse 401 None (Challenge (opts h)) TextBody)
              else inl (http_Error 403)
          end
      end
  end.

(** [serveCreate] *)
Definition schema : TrackSchema := mkTrackSchema timescale TimeSourceIngest MIME Encoding.

Definition serveCreate (fuel : nat) (h : Handler) (r : request) : prog (response * Handler) :=
  match resolve h r Create with
  | inl resp => mret (resp, h)
  | inr (t, _) =>
      got ← ledger.Create (Path t) schema (Config_ (opts h));
      let created := is_ok got in
      if match got with Err e => negb (errors_Is e ErrTrackExists) | Ok _ => false end
      then mret (internalError, h)
      else
        r ← open fuel t h;
        let '(got, h) := r in
        match got with
        | Err _ => mret (internalError, h)
        | Ok id =>
            now ← now;
            mret (WriteHeader (if created then 201 else 204), release id now h)
        end
  end.

(** ** Records *)

(** [track.remember] *)
Definition remember (key : string) (reply : recordResponse) (tr : track) : track :=
  let '(replies0, keys0) :=
    if (length (keys tr) =? idempotencyKeys)%nat then
      match keys tr with
      | oldest :: rest => (delete oldest (replies tr), rest)
      | [] => (replies tr, [])
      end
    else (replies tr, keys tr) in
  {| tr with replies := <[key := reply]> replies0; keys := keys0 ++ [key] |}.

(** [Handler.commit], on the track a request holds: the writer's append, and the
    record delivered once it is committed. *)
Definition commit (fuel : nat) (id : nat) (tr : track) (data : bytes) (h : Handler)
    : prog (GroupInfo * option error * track * Handler) :=
  r ← Append fuel (writer tr) 0 data;
  let '(w, (group, err)) := r in
  let tr := {| tr with writer := w |} in
  let h := update id (λ _, tr) h in
  mret (group, err, tr,
    if negb (String.eqb (ObjectKey group) "") && OnRecord (opts h)
    then emit (Recorded (tk_Track tr) group data) h else h).

Definition response_of (group : GroupInfo) : recordResponse :=
  mkRecordResponse (GroupID_String (ID group)) (Wallclock group).

(** [serveRecord] with the track's lock held. *)
Definition record_locked (fuel : nat) (id : nat) (sender key : string) (data : bytes)
    (h : Handler) : prog (response * Handler) :=
  match objects h !! id with
  | None => mret (internalError, h)
  | Some tr =>
      match replies tr !! key, negb (String.eqb key "") with
      | Some reply, true => mret (writeJSON 201 (RecordBody reply), h)
      | _, _ =>
          now ← now;
          let '(w, limit, senders) :=
            Handler_admit (TrackLimit (opts h)) (SenderLimit (opts h)) (limit tr) (senders tr) sender now in
          let tr := {| tr with limit := limit; senders := senders |} in
          let h := update id (λ _, tr) h in
          if (0 <? w)%Z then
            mret (mkResponse 429 (Some (to_int64 (Seconds w) + 1)%Z) "" TextBody, h)
          else
            r ← commit fuel id tr data h;
            let '(group, err, tr, h) := r in
            let committed := negb (String.eqb (ObjectKey group) "") in
            let reply := response_of group in
            let h := if committed && negb (String.eqb key "")
                     then update id (remember key reply) h else h in
            mret (if committed then writeJSON 201 (RecordBody reply) else internalError, h)
      end
  end.

(** The body, read up to the limit [http.MaxBytesReader] sets. *)
Definition readBody (h : Handler) (r : request) : bytes + response :=
  if (Z.max 0 (maxBody h) <? Z.of_nat (String.length (r_body r)))%Z then inr (http_Error 413)
  else if r_cut r then inr (http_Error 400)
  else inl (r_body r).

(** Idempotency keys are kept per sender. *)
Definition scopedKey (sender key : string) : string :=
  if String.eqb key "" then "" else sender +:+ String (ascii_of_N 0) key.

(** [serveRecord] *)
Definition serveRecord (fuel : nat) (h : Handler) (r : request) : prog (response * Handler) :=
  match resolve h r Write with
  | inl resp => mret (resp, h)
  | inr (t, sender) =>
      if (maxIdempotencyKeyLen <? String.length (r_key r))%nat then mret (http_Error 400, h)
      else
        got ← open fuel t h;
        let '(got, h) := got in
        match got with
        | Err e => mret (if errors_Is e ErrTrackNotFound then http_Error 404 else internalError, h)
        | Ok id =>
            match readBody h r with
            | inr resp => released id resp h
            | inl payload =>
                if negb (json_Valid payload) || negb (valid_utf8 payload) then
                  released id (http_Error 400) h
                else match marshalRecord (mkRecord sender payload "") with
                | Err _ => released id internalError h
                | Ok data =>
                    got ← record_locked fuel id sender (scopedKey sender (r_key r)) data h;
                    let '(resp, h) := got in released id resp h
                end
            end
        end
  end.

(** ** Redaction *)

(** [Handler.redact]: the status and, for 201, the redaction's reply. *)
Definition redact (fuel : nat) (id : nat) (lt : Track.Track) (info : GroupInfo) (sender : string)
    (h : Handler) : prog (N * recordResponse * Handler) :=
  let fail := mret (500%N, mkRecordResponse "" 0, h) in
  match objects h !! id with
  | None => fail
  | Some tr =>
      got ← Redacted lt info;
      match got with
      | Err _ => fail
      | Ok true =>
          err ← Redact.Redact lt info;
          mret (match err with Some _ => 500%N | None => 204%N end, mkRecordResponse "" 0, h)
      | Ok false =>
          got ← ReadGroup (ObjectKey info);
          match got with
          | Err _ => fail
          | Ok data =>
              match unmarshalRecord data with
              | Err _ => fail
              | Ok rec =>
                  if negb (String.eqb (Redacts rec) "") then mret (400%N, mkRecordResponse "" 0, h)
                  else match marshalRecord (mkRecord sender "" (GroupID_String (ID info))) with
                  | Err _ => fail
                  | Ok redaction =>
                      r ← commit fuel id tr redaction h;
                      let '(group, err, tr, h) := r in
                      if String.eqb (ObjectKey group) "" then mret (500%N, mkRecordResponse "" 0, h)
                      else
                        err ← Redact.Redact lt info;
                        mret (match err with
                              | Some _ => (500%N, mkRecordResponse "" 0, h)
                              | None => (201%N, response_of group, h)
                              end)
                  end
              end
          end
      end
  end.

(** [Handler.openReader] *)
Definition openReader (t : Track) (h : Handler) : prog (response + Track.Track * Reader) :=
  lt ← ledger.Open (Path t) (Config_ (opts h));
  match lt with
  | Err e => mret (inl (if errors_Is e ErrTrackNotFound then http_Error 404 else internalError))
  | Ok lt =>
      reader ← Track_Reader lt;
      mret match reader with
           | Err _ => inl internalError
           | Ok reader => inr (lt, reader)
           end
  end.

(** [serveRedact] *)
Definition serveRedact (fuel : nat) (h : Handler) (r : request) : prog (response * Handler) :=
  match resolve h r Redact with
  | inl resp => mret (resp, h)
  | inr (t, sender) =>
      let raw := query_Get "group" (r_query r) in
      match (if String.eqb raw "" then Err [] else ParseGroupID raw) with
      | Err _ => mret (http_Error 400, h)
      | Ok target =>
          got ← openReader t h;
          match got with
          | inl resp => mret (resp, h)
          | inr (lt, reader) =>
              info ← Lookup fuel reader target;
              match info with
              | Err e => mret (if errors_Is e ErrGroupNotFound then http_Error 404 else internalError, h)
              | Ok info =>
                  got ← open fuel t h;
                  let '(got, h) := got in
                  match got with
                  | Err _ => mret (internalError, h)
                  | Ok id =>
                      r ← redact fuel id lt info sender h;
                      let '(st, reply, h) := r in
                      released id
                        (if (st =? 201)%N then writeJSON 201 (RecordBody reply)
                         else if (st =? 500)%N || (st =? 400)%N then http_Error st
                         else WriteHeader st) h
                  end
              end
          end
      end
  end.

(** ** History *)

(** The records of a page. *)
Fixpoint history_entries (groups : list GroupInfo) : prog (result (list historyEntry)) :=
  match groups with
  | [] => mret (Ok [])
  | g :: rest =>
      let entry := mkHistoryEntry (GroupID_String (ID g)) (Wallclock g) in
      data ← ReadGroup (ObjectKey g);
      let more (e : historyEntry) : prog (result (list historyEntry)) :=
        r ← history_entries rest;
        mret match r with Ok l => Ok (e :: l) | Err er => Err er end in
      match data with
      | Err e => if errors_Is e ErrGroupRedacted then more (entry true zeroRecord) else mret (Err e)
      | Ok data =>
          match unmarshalRecord data with
          | Err e => mret (Err e)
          | Ok rec => more (entry false rec)
          end
      end
  end.

(** The page size a request asks for. *)
Definition page_limit (raw : string) : option Z :=
  if String.eqb raw "" then Some DefaultPageSize
  else match ParseInt raw with
  | Some n => if (n <? 1)%Z || (MaxPageSize <? n)%Z then None else Some n
  | None => None
  end.

(** [serveHistory] *)
Definition serveHistory (fuel : nat) (h : Handler) (r : request) : prog (response * Handler) :=
  match resolve h r Read with
  | inl resp => mret (resp, h)
  | inr (t, _) =>
      match page_limit (query_Get "limit" (r_query r)) with
      | None => mret (http_Error 400, h)
      | Some limit =>
          let raw := query_Get "before" (r_query r) in
          match (if String.eqb raw "" then Ok 0%N else ParseGroupID raw) with
          | Err _ => mret (http_Error 400, h)
          | Ok before =>
              got ← openReader t h;
              match got with
              | inl resp => mret (resp, h)
              | inr (_, reader) =>
                  groups ← Before fuel reader before limit;
                  match groups with
                  | Err _ => mret (internalError, h)
                  | Ok groups =>
                      entries ← history_entries groups;
                      match entries with
                      | Err _ => mret (internalError, h)
                      | Ok entries =>
                          let next :=
                            match groups with
                            | g :: _ => if (Z.of_nat (length groups) =? limit)%Z
                                        then GroupID_String (ID g) else ""
                            | [] => ""
                            end in
                          now ← now;
                          mret (writeJSON 200 (HistoryBody (mkHistoryResponse entries next)),
                                closeIdle now h)
                      end
                  end
              end
          end
      end
  end.

(** [Handler.ServeHTTP]: the four routes. *)
Inductive method : Type := PUT | POST | GET | DELETE.

Definition ServeHTTP (fuel : nat) (h : Handler) (m : method) (r : request)
    : prog (response * Handler) :=
  match m with
  | PUT => serveCreate fuel h r
  | POST => serveRecord fuel h r
  | GET => serveHistory fuel h r
  | DELETE => serveRedact fuel h r
  end.
End ingest.
