(* ===== verification/IngestPaths.v ===== *)
(** * The tracks of the ingest and their paths

    Which request paths name a track, and that a track's ledger path is the
    request path it came from. *)

From S2P Require Import Prelude GoStd Json Store Group Manifest Track Paths FsStore FsProps.
From S2P Require Import Float64 Limit Ingest.
Import ingest.
#[local] Open Scope string_scope.
#[local] Open Scope list_scope.

(** ** Rooted paths *)

Lemma clean_step_rooted stack seg : Forall plain stack → Forall plain (clean_step true stack seg).
Proof.
  intros Hs. unfold clean_step. destruct (String.eqb_spec seg ""); [done|].
  destruct (String.eqb_spec seg "."); [done|]. cbn [orb].
  destruct (String.eqb_spec seg ".."); [|by constructor].
  destruct Hs as [|top below Ht Hb]; [done|]. destruct Ht as (? & ? & Ht).
  by rewrite (proj2 (String.eqb_neq top "..") Ht).
Qed.

Lemma clean_fold_rooted segs : ∀ stack, Forall plain stack →
  Forall plain (foldl (clean_step true) stack segs).
Proof. induction segs as [|seg segs IH]; intros stack Hs; [done|]. by apply IH, clean_step_rooted. Qed.

Lemma HasPrefix_slash_cons s : HasPrefix (String "/" s) "/" = true.
Proof. apply HasPrefix_slash. by eexists. Qed.

(** A rooted path is clean when its segments are plain. *)
Lemma Clean_rooted s : s ≠ "" →
  Clean (String "/" s) = String "/" s ↔ Forall plain (segments s).
Proof.
  intros Hne. unfold Clean. rewrite HasPrefix_slash_cons.
  change (segments (String "/" s)) with ("" :: segments s). cbn [foldl].
  change (clean_step true [] "") with (@nil string). split.
  - intros [= H]. pose proof (clean_fold_rooted (segments s) [] (Forall_nil_2 _)) as Hp.
    set (st := foldl (clean_step true) [] (segments s)) in *.
    rewrite <-H, segments_join.
    + by apply Forall_rev.
    + intros E. rewrite E in H. by apply Hne.
    + apply Forall_rev, clean_fold_slash; [|done]. apply segments_slash_free.
  - intros H. by rewrite (clean_plain true _ H), app_nil_r, rev_involutive, join_segments.
Qed.

(** ** The last slash *)

Lemma cut_last_free s : slash_free s = true → cut_last s = None.
Proof.
  induction s as [|c s IH]; [done|]. unfold slash_free in *. cbn [all_chars cut_last].
  rewrite no_slash_eqb. intros [Hc Hs]%andb_prop. rewrite (IH Hs). by destruct (Ascii.eqb c "/").
Qed.

Lemma cut_last_app s t : slash_free t = true → cut_last (s +:+ String "/" t) = Some (s, t).
Proof.
  intros Ht. induction s as [|c s IH]; cbn [String.append cut_last].
  - by rewrite (cut_last_free t Ht).
  - by rewrite IH.
Qed.

(** ** Trimming *)

Lemma TrimRight_last s c : c ≠ "/"%char → TrimRight (s +:+ String c "") = s +:+ String c "".
Proof.
  intros Hc. induction s as [|d s IH]; cbn [String.append TrimRight].
  - by destruct (Ascii.eqb_spec c "/").
  - rewrite IH. assert (String.eqb (s +:+ String c "") "" = false) as -> by by destruct s.
    by rewrite andb_false_r.
Qed.

Lemma string_snoc s : s ≠ "" → ∃ s' c, s = s' +:+ String c "".
Proof.
  induction s as [|c s IH]; [done|]. intros _. destruct s as [|d s]; [by exists "", c|].
  destruct IH as (s' & c' & ->); [done|]. by exists (String c s'), c'.
Qed.

Lemma Trim_plain s : Forall plain (segments s) → Trim (String "/" s) = s.
Proof.
  intros H. unfold Trim. cbn [TrimLeft]. rewrite Ascii.eqb_refl.
  assert (TrimLeft s = s) as ->.
  { pose proof (plain_not_rooted s H) as Hr. destruct s as [|c s]; [done|]. cbn [TrimLeft].
    destruct (Ascii.eqb_spec c "/") as [->|]; [|done]. by rewrite HasPrefix_slash_cons in Hr. }
  destruct (string_snoc s (plain_nonempty s H)) as (s' & c & ->). apply TrimRight_last. intros ->.
  pose proof (plain_no_suffix _ H) as Hs. assert (HasSuffix (s' +:+ "/") "/" = true) as E; [|by rewrite E in Hs].
  clear. induction s' as [|d s' IH]; [done|]. cbn [String.append HasSuffix]. rewrite IH. by apply orb_true_r.
Qed.

(** * Properties *)

(** A request path names a track exactly when it has at least two segments,
    none of them empty, a dot or two dots; the ledger path of the track is the
    request path itself, so two requests reach one track only when their paths
    are the same; and the ledger accepts it unless it has a backslash. *)
Theorem trackFromPath_exact p :
  match trackFromPath p with
  | Ok t => Forall plain (segments p) ∧ 2 <= length (segments p) ∧ Path t = p ∧
      TrackPath_validate p = if ContainsChar p "\" then Some [ErrInvalidTrackPath] else None
  | Err _ => ¬ (Forall plain (segments p) ∧ 2 <= length (segments p))
  end.
Proof.
  unfold trackFromPath. destruct (String.eqb_spec p "") as [->|Hne].
  { intros [_ H]. simpl in H. lia. }
  cbn [orb]. destruct (String.eqb_spec (Clean (String "/" p)) (String "/" p)) as [Hc|Hc]; cbn [negb].
  2: { intros [H _]. by apply Hc, Clean_rooted. }
  apply (Clean_rooted p Hne) in Hc. pose proof (join_segments p) as Hj.
  pose proof (segments_slash_free p) as Hs.
  destruct (list_exists_last_or (segments p)) as [E|(segs & x & E)].
  { by destruct (segments_nonempty p). }
  assert (Forall plain segs ∧ Forall plain [x]) as [Hp _] by (apply Forall_app; by rewrite <-E).
  assert (Forall (λ seg, slash_free seg = true) segs ∧ Forall (λ seg, slash_free seg = true) [x])
    as [Hs1 Hx] by (apply Forall_app; by rewrite <-E).
  inversion_clear Hx as [|? ? Hx' _]. rewrite E in Hj. destruct (decide (segs = [])) as [->|Hsegs].
  - cbn [app join] in Hj. subst x. rewrite (cut_last_free p Hx'). rewrite E. intros [_ H]. simpl in H. lia.
  - assert (p = join segs +:+ String "/" x) as Hpx by (by rewrite <-Hj, join_app).
    assert (cut_last p = Some (join segs, x)) as -> by (rewrite Hpx; by apply cut_last_app).
    split_and?; [done| | |].
    + rewrite E, length_app. destruct segs; [done|]. simpl. lia.
    + unfold Path. cbn [BroadcastPath TrackName]. rewrite Trim_plain; [done|].
      by rewrite segments_join.
    + destruct (ContainsChar p "\") eqn:Hb; [|by apply validate_plain].
      destruct (TrackPath_validate p) as [er|] eqn:Hv; [|by apply validate_inv in Hv as [_ ?]; congruence].
      revert Hv. unfold TrackPath_validate. repeat (case_match; [by intros [= <-]|]). done.
Qed.
