(* ===== verification/IngestPosts.v ===== *)
(** * Posting records

    What a post does to the track it holds ([record_locked] of Ingest.v), the
    store failing at will: the ways it ends, the log it leaves, what is delivered
    and remembered, and the answers to retries. [kept] is the track of a handler
    that the requests hold by its id, over a log with the groups [gs]. *)

From S2P Require Import Prelude GoStd Json Store Group Manifest Track Writer Redact Reader.
From S2P Require Import EpochLog WriterLog Isolation Payload Fixtures WriterProps Float64 Limit Ingest.
#[local] Open Scope string_scope.
#[local] Open Scope list_scope.
Import ingest.

(** ** Remembered replies *)

(** The replies remembered are those of the keys, at most [idempotencyKeys]. *)
Record remembers (tr : track) : Prop := {
  rm_nodup : NoDup (keys tr);
  rm_keys k : is_Some (replies tr !! k) ↔ k ∈ keys tr;
  rm_bound : length (keys tr) <= idempotencyKeys;
}.

Lemma remembers_remember key reply tr :
  remembers tr → replies tr !! key = None → remembers (remember key reply tr).
Proof.
  intros [Hn Hk Hb] Hnew.
  assert (key ∉ keys tr) as Hfresh by (rewrite <-Hk, Hnew; intros []; done).
  unfold remember. destruct (Nat.eqb_spec (length (keys tr)) idempotencyKeys) as [E|E].
  - destruct (keys tr) as [|oldest rest] eqn:Ek; [done|].
    apply NoDup_cons in Hn as [Hold Hrest]. apply not_elem_of_cons in Hfresh as [Hne Hfresh].
    constructor; cbn [keys replies].
    + apply NoDup_app. split_and!; [done| |apply NoDup_singleton].
      intros x Hx ->%list_elem_of_singleton. done.
    + intros k. rewrite elem_of_app, list_elem_of_singleton, lookup_insert_is_Some, lookup_delete_is_Some, Hk,
        elem_of_cons. destruct (decide (key = k)) as [->|]; [naive_solver|]. naive_solver.
    + rewrite length_app. cbn [length] in *. lia.
  - constructor; cbn [keys replies].
    + apply NoDup_app. split_and!; [done| |apply NoDup_singleton].
      intros x Hx ->%list_elem_of_singleton. done.
    + intros k. rewrite elem_of_app, list_elem_of_singleton, lookup_insert_is_Some, Hk. naive_solver.
    + rewrite length_app. cbn [length]. lia.
Qed.

(** The reply to [key], behind which at most [n] keys were remembered. *)
Definition remembered (key : string) (reply : recordResponse) (n : nat) (tr : track) : Prop :=
  replies tr !! key = Some reply ∧
  ∃ before after, keys tr = before ++ key :: after ∧ length after <= n.

Lemma remembered_remember key reply n key' reply' tr :
  remembered key reply n tr → remembers tr → replies tr !! key' = None → S n < idempotencyKeys →
  remembered key reply (S n) (remember key' reply' tr).
Proof.
  intros (Hr & before & after & Hk & Ha) [Hn _ _] Hnew Hlt.
  assert (key ≠ key') as Hne by congruence.
  unfold remember. destruct (Nat.eqb_spec (length (keys tr)) idempotencyKeys) as [E|E].
  - rewrite Hk in *. destruct before as [|oldest before]; cbn [app] in *.
    { cbn [length] in E. lia. }
    apply NoDup_cons in Hn as [Hold _]. split; cbn [keys replies].
    + rewrite lookup_insert_ne by done. rewrite lookup_delete_ne; [done|].
      intros ->. apply Hold. set_solver.
    + exists before, (after ++ [key']). split; [by rewrite <-app_assoc|].
      rewrite length_app. cbn [length]. lia.
  - split; cbn [keys replies]; [by rewrite lookup_insert_ne|].
    exists before, (after ++ [key']). rewrite Hk, <-app_assoc. split; [done|].
    rewrite length_app. cbn [length]. lia.
Qed.

Lemma remembered_new key reply tr : replies tr !! key = None → remembered key reply 0 (remember key reply tr).
Proof.
  intros Hnew. unfold remember. destruct (_ =? _)%nat; [destruct (keys tr) as [|oldest rest]|];
    (split; cbn [keys replies]; [by rewrite lookup_insert_eq|]);
    eexists _, []; (split; [reflexivity|simpl; lia]).
Qed.

(** ** One post *)

Definition memory (tr : track) : gmap string recordResponse * list string := (replies tr, keys tr).

(** The reply a post under [key] is answered with at once. *)
Definition answered (tr : track) (key : string) : option recordResponse :=
  if String.eqb key "" then None else replies tr !! key.

(** The track once [reply] was given to a post under [key]. *)
Definition noted (key : string) (reply : recordResponse) (tr : track) : track :=
  if String.eqb key "" then tr else remember key reply tr.

(** The handler with the held track changed and the events delivered. *)
Definition with_track (id : nat) (tr : track) (evs : list event) (h : Handler) : Handler :=
  {| h with objects := <[id := tr]> (objects h); events := events h ++ evs |}.

(** A post that reached its track: its sender, its key scoped to the sender, the
    record to store. *)
Record post := mkPost { ps_sender : string; ps_key : string; ps_data : bytes }.

(** The posts holding one track, in the order they take its lock. *)
Fixpoint posts (fuel : nat) (id : nat) (l : list post) (h : Handler) : prog (list response * Handler) :=
  match l with
  | [] => mret ([], h)
  | x :: l' =>
      r ← record_locked fuel id (ps_sender x) (ps_key x) (ps_data x) h;
      let '(resp, h) := r in
      r ← posts fuel id l' h;
      let '(resps, h) := r in mret (resp :: resps, h)
  end.

Section Posts.
Context (p : TrackPath) (e : N).

Record kept (h : Handler) (id : nat) (tr : track) (gs : list GroupInfo) (m : objs) : Prop := {
  kp_held : objects h !! id = Some tr;
  kp_log : ∃ root, durable p e m root gs;
  kp_writer : writer_ok p e m gs (writer tr);
  kp_memory : remembers tr;
}.

Definition new_row (data : bytes) (gs : list GroupInfo) (row : GroupInfo) : Prop :=
  ∃ s, (s <= 16)%N ∧ append_row p e gs s 0 data row.

(** How a post ends: with which response, track, deliveries and log. *)
Inductive outcome (on_record : bool) (key data : string) (tr : track) (gs : list GroupInfo) (m m' : objs)
    : response → track → list event → list GroupInfo → Prop :=
  (** a retry: answered as the first was, nothing stored, nothing delivered *)
  | Replayed reply :
      answered tr key = Some reply → m' = m →
      outcome on_record key data tr gs m m' (writeJSON 201 (RecordBody reply)) tr [] gs
  (** past a limit: nothing stored *)
  | Refused secs tr' :
      answered tr key = None → m' = m → writer tr' = writer tr → memory tr' = memory tr →
      outcome on_record key data tr gs m m' (mkResponse 429 (Some secs) "" TextBody) tr' [] gs
  (** committed as one group holding the record, delivered once, and remembered *)
  | Stored row tr' :
      answered tr key = None → new_row data gs row →
      (∃ v, m' !! ObjectKey row = Some (data, v)) →
      memory tr' = memory (noted key (response_of row) tr) →
      outcome on_record key data tr gs m m' (writeJSON 201 (RecordBody (response_of row))) tr'
        (if on_record then [Recorded (tk_Track tr) row data] else []) (gs ++ [row])
  (** the store failed: neither delivered nor remembered, though the store may
      have taken the commit *)
  | Failed tr' gs' :
      answered tr key = None → gs' = gs ∨ (∃ row, new_row data gs row ∧ gs' = gs ++ [row]) →
      memory tr' = memory tr →
      outcome on_record key data tr gs m m' internalError tr' [] gs'.

Definition posted (h : Handler) (id : nat) (key data : string) (tr : track) (gs : list GroupInfo)
    (m : objs) (r : response * Handler) (m' : objs) : Prop :=
  ∃ tr' evs gs', outcome (OnRecord (opts h)) key data tr gs m m' r.1 tr' evs gs' ∧
    r.2 = with_track id tr' evs h ∧ tk_Track tr' = tk_Track tr ∧ kept r.2 id tr' gs' m' ∧
    keeps_payloads p e m m'.

Lemma with_track_same h id tr : objects h !! id = Some tr → with_track id tr [] h = h.
Proof. intros Hid. unfold with_track. rewrite insert_id, app_nil_r by done. by destruct h. Qed.

Lemma update_const id tr tr0 h :
  objects h !! id = Some tr0 → update id (λ _, tr) h = with_track id tr [] h.
Proof.
  intros Hid. unfold update, with_track. rewrite app_nil_r. f_equal. apply map_eq. intros k.
  destruct (decide (k = id)) as [->|].
  - by rewrite lookup_alter_eq, Hid, lookup_insert_eq.
  - by rewrite lookup_alter_ne, lookup_insert_ne.
Qed.

Lemma with_track_with id tr evs tr' evs' h :
  with_track id tr' evs' (with_track id tr evs h) = with_track id tr' (evs ++ evs') h.
Proof. unfold with_track. cbn. by rewrite insert_insert_eq, app_assoc. Qed.

Lemma memory_remember key reply tr tr' :
  memory tr' = memory tr → memory (remember key reply tr') = memory (remember key reply tr).
Proof.
  unfold memory. intros [= Hr Hk]. unfold remember. rewrite Hr, Hk.
  destruct (_ =? _)%nat; [destruct (keys tr)|]; done.
Qed.

Lemma remembers_memory tr tr' : memory tr' = memory tr → remembers tr → remembers tr'.
Proof. unfold memory. intros [= Hr Hk] [? ? ?]. constructor; by rewrite ?Hr, ?Hk. Qed.

Lemma remembers_noted key reply tr :
  answered tr key = None → remembers tr → remembers (noted key reply tr).
Proof. unfold answered, noted. destruct (String.eqb key ""); [done|]. intros. by apply remembers_remember. Qed.

Section Steps.
Context (Hpar : log_params p e) (fuel : nat) (gs : list GroupInfo) (data : bytes)
  (Hdata : is_i64 (len64 data)) (Hroom : (log_size gs + 1 < 2 ^ 62)%N) (Hfuel : length gs < fuel).

Definition delivered (h : Handler) (tr : track) (row : GroupInfo) : list event :=
  if OnRecord (opts h) then [Recorded (tk_Track tr) row data] else [].

Lemma new_row_key row : new_row data gs row → ObjectKey row ≠ "".
Proof using. intros (s & _ & _ & _ & _ & _ & ->) H%(f_equal String.length). unfold groupKey in H.
  rewrite !string_length_app in H. change (String.length "/") with 1 in H. change (String.length "") with 0 in H. clear -H. lia.
Qed.

Lemma wp_commit fl id tr tr0 h m root :
  durable p e m root gs → writer_ok p e m gs (writer tr) → objects h !! id = Some tr0 →
  wp (op_spec fl) (commit fuel id tr data h) (λ r m', ∃ w' gs' root',
    let tr' := {| tr with writer := w' |} in
    durable p e m' root' gs' ∧ writer_ok p e m' gs' w' ∧ keeps_payloads p e m m' ∧ r.1.2 = tr' ∧
    (ObjectKey r.1.1.1 = "" ∧ r.2 = with_track id tr' [] h ∧
       (gs' = gs ∨ ∃ row, new_row data gs row ∧ gs' = gs ++ [row]) ∨
     new_row data gs r.1.1.1 ∧ gs' = gs ++ [r.1.1.1] ∧
       (∃ v, m' !! ObjectKey r.1.1.1 = Some (data, v)) ∧
       r.2 = with_track id tr' (delivered h tr r.1.1.1) h)) m.
Proof using Hpar Hdata Hroom Hfuel.
  intros Hd Hw Hid. unfold commit. apply wp_bind.
  assert ((e <= maxGroupEpoch)%N) as Hmax by apply Hpar.
  eapply wp_mono; [|apply wp_wlp; [eapply (wp_Append p e Hpar)
    |apply wlp_and; [apply (wlp_Append p e Hmax)|apply (wlp_Append_payloads p e)]; apply Hw]]; try done.
  intros [w' [group err]] m' [(root' & gs' & Hd' & Hw' & _ & Hcase) [Hrep Hkeep]]. cbn [fst snd] in *.
  exists w', gs', root'. cbn zeta. unfold mret, prog_ret. cbn [wp fst snd].
  rewrite (update_const id _ tr0) by done. split_and!; [done..|].
  assert ((gs' = gs ∨ ∃ row, new_row data gs row ∧ gs' = gs ++ [row]) → group = zeroGroupInfo →
    ObjectKey group = "" ∧
    (if negb (String.eqb (ObjectKey group) "") && OnRecord (opts (with_track id {| tr with writer := w' |} [] h))
     then emit (Recorded (tk_Track tr) group data) (with_track id {| tr with writer := w' |} [] h)
     else with_track id {| tr with writer := w' |} [] h) = with_track id {| tr with writer := w' |} [] h ∧
    (gs' = gs ∨ ∃ row, new_row data gs row ∧ gs' = gs ++ [row])) as Hnone by by intros ? ->.
  destruct Hcase as [(-> & -> & _)|(row & Hrow & -> & _ & [-> |[-> _]])].
  - left. apply Hnone; [by left|done].
  - right. pose proof (new_row_key row Hrow) as Hkey. destruct Hrep as [?|Hrep]; [done|].
    split_and!; [done..|]. cbn [fst] in *. rewrite (proj2 (String.eqb_neq _ _) Hkey). cbn [negb andb].
    unfold delivered. change (opts (with_track id {| tr with writer := w' |} [] h)) with (opts h).
    destruct (OnRecord (opts h)); [|done]. unfold emit, with_track. cbn. by rewrite app_nil_r.
  - left. apply Hnone; [right; eauto|done].
Qed.

Lemma posted_stored h id key tr tr1 w' m m' root' row :
  kept h id tr gs m → answered tr key = None → memory tr1 = memory tr →
  tk_Track tr1 = tk_Track tr → new_row data gs row →
  durable p e m' root' (gs ++ [row]) → writer_ok p e m' (gs ++ [row]) w' →
  (∃ v, m' !! ObjectKey row = Some (data, v)) → keeps_payloads p e m m' →
  let tr2 := {| tr1 with writer := w' |} in
  let h2 := with_track id tr2 (delivered h tr row) h in
  posted h id key data tr gs m
    (writeJSON 201 (RecordBody (response_of row)),
     if negb (String.eqb key "") then update id (remember key (response_of row)) h2 else h2) m'.
Proof using.
  intros [Hid _ _ Hm] Hans Hm1 Ht1 Hrow Hd' Hw' Hv Hkeep tr2 h2.
  set (tr3 := noted key (response_of row) tr2).
  assert (writer tr3 = w' ∧ tk_Track tr3 = tk_Track tr) as [Hw3 Ht3].
  { unfold tr3, noted. destruct (String.eqb key ""); [by split|].
    unfold remember. by destruct (if _ =? _ then _ else _)%nat. }
  assert (memory tr2 = memory tr) as Hm2 by done.
  assert (memory tr3 = memory (noted key (response_of row) tr)) as Hm3.
  { unfold tr3, noted. destruct (String.eqb key ""); [done|]. by apply memory_remember. }
  assert ((if negb (String.eqb key "") then update id (remember key (response_of row)) h2 else h2) =
    with_track id tr3 (delivered h tr row) h) as ->.
  { unfold tr3, noted. destruct (String.eqb key ""); [done|]. cbn [negb].
    unfold update, h2, with_track. cbn. f_equal. apply map_eq. intros k.
    destruct (decide (k = id)) as [->|].
    - by rewrite lookup_alter_eq, !lookup_insert_eq.
    - by rewrite lookup_alter_ne, !lookup_insert_ne. }
  exists tr3, (delivered h tr row), (gs ++ [row]). split_and!.
  - by apply Stored.
  - done.
  - done.
  - constructor; [apply lookup_insert_eq|by exists root'|by rewrite Hw3|].
    apply (remembers_memory (noted key (response_of row) tr)); [done|]. by apply remembers_noted.
  - done.
Qed.

Lemma posted_failed h id key tr tr1 w' m m' root' gs' :
  kept h id tr gs m → answered tr key = None → memory tr1 = memory tr →
  tk_Track tr1 = tk_Track tr → gs' = gs ∨ (∃ row, new_row data gs row ∧ gs' = gs ++ [row]) →
  durable p e m' root' gs' → writer_ok p e m' gs' w' → keeps_payloads p e m m' →
  posted h id key data tr gs m (internalError, with_track id {| tr1 with writer := w' |} [] h) m'.
Proof using.
  intros [Hid _ _ Hm] Hans Hm1 Ht1 Hgs Hd' Hw' Hkeep. exists {| tr1 with writer := w' |}, [], gs'. split_and!; [by apply Failed|done..| |done].
  constructor; [apply lookup_insert_eq|by exists root'|done|by apply (remembers_memory tr)].
Qed.

(** A post takes one of the four ways, however the store fails. *)
Lemma wp_record_locked fl h id sender key tr m :
  kept h id tr gs m →
  wp (op_spec fl) (record_locked fuel id sender key data h) (posted h id key data tr gs m) m.
Proof using Hpar Hdata Hroom Hfuel.
  intros Hk. destruct Hk as [Hid [root Hd] Hw Hm] eqn:E. clear E. unfold record_locked. rewrite Hid.
  assert (posted h id key data tr gs m (writeJSON 201 (RecordBody (default (mkRecordResponse "" 0)
    (answered tr key))), h) m ∨ answered tr key = None) as Hfresh.
  { destruct (answered tr key) as [reply|] eqn:Ha; [left|by right].
    exists tr, [], gs. rewrite with_track_same by done. split_and!; [by apply Replayed|done..|by intros ?]. }
  unfold answered in Hfresh. destruct (String.eqb key "") eqn:Ek; cbn [negb].
  all: destruct (replies tr !! key) as [reply|] eqn:Er;
    try (destruct Hfresh as [Hfresh|?]; [exact Hfresh|done]).
  all: assert (answered tr key = None) as Ha by (unfold answered; by rewrite Ek, ?Er).
  all: clear Hfresh; apply wp_bind, wp_now; intros t _;
    destruct (Handler_admit _ _ _ _ _ _) as [[wt lm] sd]; set (tr1 := {| tr with limit := lm; senders := sd |});
    rewrite (update_const id _ tr) by done;
    (destruct (0 <? wt)%Z; [eexists tr1, [], gs;
      (split_and!; [by apply Refused|done..| |by intros ?]; constructor; [apply lookup_insert_eq|by exists root|done|by apply (remembers_memory tr)])|]);
    apply wp_bind;
    (eapply wp_mono; [|apply (wp_commit fl id tr1 tr1 (with_track id tr1 [] h) m root); [done|done|apply lookup_insert_eq]]);
    intros [[[group err] tr2] h2] m' (w' & gs' & root' & Hd' & Hw' & Hkeep & Htr & Hcase);
    cbn [fst snd] in Htr, Hcase; subst tr2; rewrite !with_track_with in Hcase; cbn [app] in Hcase;
    cbn [wp mret prog_ret];
    (destruct Hcase as [(-> & -> & Hgs)|(Hrow & -> & Hv & ->)];
      [by eapply posted_failed|rewrite (proj2 (String.eqb_neq _ _) (new_row_key _ Hrow))]).
  all: pose proof (posted_stored h id key tr tr1 w' m m' root' group Hk Ha eq_refl eq_refl Hrow Hd' Hw' Hv Hkeep) as H;
    cbn zeta in H; rewrite ?Ek in *; exact H.
Qed.
End Steps.

(** ** Many posts *)

(** Posts and how they ended, one after the other. *)
Inductive outcomes (on_record : bool) : list post → track → list GroupInfo → objs →
    list response → track → list event → list GroupInfo → objs → Prop :=
  | NoPosts tr gs m : outcomes on_record [] tr gs m [] tr [] gs m
  | OnePost x l tr gs m resp tr1 evs gs1 m1 resps tr2 evs' gs2 m2 :
      remembers tr →
      outcome on_record (ps_key x) (ps_data x) tr gs m m1 resp tr1 evs gs1 →
      tk_Track tr1 = tk_Track tr → keeps_payloads p e m m1 →
      outcomes on_record l tr1 gs1 m1 resps tr2 evs' gs2 m2 →
      outcomes on_record (x :: l) tr gs m (resp :: resps) tr2 (evs ++ evs') gs2 m2.

Lemma outcome_log on_record key data tr gs m m' resp tr' evs gs' :
  outcome on_record key data tr gs m m' resp tr' evs gs' → gs' = gs ∨ ∃ row, gs' = gs ++ [row].
Proof.
  intros H. destruct H as [| |row tr' _ _ _ _|tr' gs' _ [-> |(row & _ & ->)] _]; eauto.
Qed.

Lemma wp_posts (Hpar : log_params p e) fl fuel id l : ∀ h tr gs m,
  kept h id tr gs m → Forall (λ x, is_i64 (len64 (ps_data x))) l →
  (log_size gs + N.of_nat (length l) < 2 ^ 62)%N → length gs + length l < fuel →
  wp (op_spec fl) (posts fuel id l h) (λ r m', ∃ tr' evs gs',
    outcomes (OnRecord (opts h)) l tr gs m r.1 tr' evs gs' m' ∧
    r.2 = with_track id tr' evs h ∧ kept r.2 id tr' gs' m') m.
Proof.
  induction l as [|x l IH]; intros h tr gs m Hk Hl Hroom Hfuel; cbn [posts].
  { exists tr, [], gs. cbn [fst snd]. rewrite with_track_same by apply Hk.
    split; [constructor|split; [done|exact Hk]]. }
  apply Forall_cons in Hl as [Hx Hl]. cbn [length] in *.
  apply wp_bind. eapply wp_mono; [|apply wp_record_locked; try done; lia].
  intros [resp h1] m1 (tr1 & evs & gs1 & Hout & Hh1 & Ht & Hk1 & Hkeep).
  cbn [fst snd] in *. subst h1.
  assert (length gs1 <= S (length gs)) as Hlen.
  { destruct (outcome_log _ _ _ _ _ _ _ _ _ _ _ Hout) as [-> |(row & ->)]; [lia|].
    rewrite length_app. simpl. lia. }
  apply wp_bind. eapply wp_mono; [|apply (IH _ tr1 gs1); try done; unfold log_size in *; lia].
  intros [resps h2] m2 (tr2 & evs' & gs2 & Houts & Hh2 & Hk2).
  cbn [wp mret prog_ret fst snd] in *. subst h2.
  rewrite with_track_with in *. exists tr2, (evs ++ evs'), gs2.
  split_and!; [eapply OnePost; try done; apply Hk|done|done].
Qed.

(** The replies of posts that were stored, in order. *)
Definition Acknowledged (on_record : bool) (t : Track) (rows : list (GroupInfo * bytes)) : list event :=
  if on_record then (λ row, Recorded t row.1 row.2) <$> rows else [].

Definition accounted (tr : track) (rows : list (GroupInfo * bytes)) (resp : response) : Prop :=
  status resp = 201%N → ∃ reply, resp = writeJSON 201 (RecordBody reply) ∧
    (reply ∈ (λ row, response_of row.1) <$> rows ∨ ∃ key, replies tr !! key = Some reply).

Lemma lookup_noted key reply tr k r :
  replies (noted key reply tr) !! k = Some r → r = reply ∨ replies tr !! k = Some r.
Proof.
  unfold noted. destruct (String.eqb key ""); [by right|]. unfold remember.
  destruct (_ =? _)%nat; [destruct (keys tr)|]; cbn [replies];
    rewrite ?lookup_insert_Some, ?lookup_delete_Some; naive_solver.
Qed.

Lemma outcomes_rows on_record (He : (e <= maxGroupEpoch)%N) l tr gs m resps tr' evs gs' m' :
  outcomes on_record l tr gs m resps tr' evs gs' m' →
  keeps_payloads p e m m' ∧
  ∃ rows new, gs' = gs ++ new ∧ rows.*1 `sublist_of` new ∧ length new <= length l ∧
    evs = Acknowledged on_record (tk_Track tr) rows ∧
    Forall (λ row, ∃ v, m' !! ObjectKey row.1 = Some (row.2, v)) rows ∧
    Forall (accounted tr rows) resps.
Proof.
  induction 1 as [tr gs m|x l tr gs m resp tr1 evs gs1 m1 resps tr2 evs' gs2 m2 Hrm Hout Ht Hkeep _ IH].
  { split; [by intros ?|]. exists [], []. rewrite app_nil_r. by destruct on_record. }
  destruct IH as (Hkeep2 & rows & new & -> & Hsub & Hlen & -> & Hstored & Hacc).
  split; [intros id y Hid Hy; auto|]. rewrite Ht.
  destruct Hout as [reply Ha Hm|secs tr1 Ha Hm Hw Hmem|row tr1 Ha Hrow [v Hv] Hmem|tr1 gs1 Ha Hgs Hmem].
  - exists rows, new. split_and!; [done|done|simpl; lia|done|done|]. constructor; [|done].
    intros _. exists reply. split; [done|]. right. unfold answered in Ha.
    destruct (String.eqb (ps_key x) ""); [done|eauto].
  - exists rows, new. split_and!; [done|done|simpl; lia|done|done|]. constructor; [done|].
    eapply Forall_impl; [exact Hacc|]. unfold accounted, memory in *. injection Hmem as -> _. done.
  - exists ((row, ps_data x) :: rows), (row :: new). rewrite <-app_assoc.
    split_and!; [done|by apply sublist_skip|simpl; lia|by destruct on_record| |].
    + constructor; [|done]. exists v. cbn [fst snd].
      destruct Hrow as (s & _ & Hid & _ & _ & _ & Hkey). rewrite Hkey in *. apply Hkeep2; [|done].
      rewrite Hid, Epoch_NewGroupID. apply N.mod_small.
      change maxGroupEpoch with 16777215%N in He. lia.
    + constructor; [intros _; eexists; split; [done|left; rewrite fmap_cons; by left]|].
      eapply Forall_impl; [exact Hacc|]. intros r Hr H201. destruct (Hr H201) as (reply & -> & Hcase).
      exists reply. split; [done|]. rewrite fmap_cons, elem_of_cons. destruct Hcase as [?|[k Hk]]; [auto|].
      unfold memory in Hmem. injection Hmem as Hrep _. rewrite Hrep in Hk.
      apply lookup_noted in Hk as [-> |Hk]; eauto.
  - assert (∃ mid, gs1 = gs ++ mid ∧ length mid <= 1) as (mid & -> & Hmid).
    { destruct Hgs as [-> |(row & _ & ->)]; [exists []; rewrite app_nil_r|exists [row]]; (split; [done|simpl; lia]). }
    exists rows, (mid ++ new). rewrite <-app_assoc.
    split_and!; [done|by apply sublist_inserts_l|rewrite length_app; simpl; lia|done|done|].
    constructor; [done|]. eapply Forall_impl; [exact Hacc|].
    unfold accounted, memory in *. injection Hmem as -> _. done.
Qed.

Lemma outcomes_remembered on_record key reply l tr gs m resps tr' evs gs' m' : 
  outcomes on_record l tr gs m resps tr' evs gs' m' → ∀ n,
  remembered key reply n tr → n + length l < idempotencyKeys → remembered key reply (n + length l) tr'.
Proof.
  induction 1 as [tr gs m|x l tr gs m resp tr1 evs gs1 m1 resps tr2 evs' gs2 m2 Hrm Hout Ht Hkeep _ IH];
    intros n Hr Hn; cbn [length] in *; [by rewrite Nat.add_0_r|].
  replace (n + S (length l)) with (S n + length l) by lia. apply IH; [|lia].
  assert (∀ t, memory t = memory tr → remembered key reply n t) as Hsame.
  { unfold memory, remembered. intros t [= -> ->]. exact Hr. }
  assert (∀ t, remembered key reply n t → remembered key reply (S n) t) as Hmore.
  { intros t (H1 & before & after & H2 & H3). split; [done|]. exists before, after. split; [done|lia]. }
  destruct Hout as [reply' Ha Hm|secs tr1 Ha Hm Hw Hmem|row tr1 Ha Hrow Hv Hmem|tr1 gs1 Ha Hgs Hmem];
    try (by auto).
  unfold noted, answered in *. destruct (String.eqb (ps_key x) "").
  - auto.
  - pose proof (remembered_remember key reply n (ps_key x) (response_of row) tr Hr Hrm Ha ltac:(lia)) as H.
    unfold memory, remembered in *. injection Hmem as -> ->. exact H.
Qed.
End Posts.

(** * Properties *)

(** C14 A post that reached its track ends in one of four ways, whichever of the
    store's calls fail: it is a retry and answered as the first was; it is past a
    limit and nothing is stored; the record is committed as one group holding
    exactly it, delivered to [OnRecord] once and its reply remembered; or it is
    answered 500, delivered to nobody and not remembered, with at most one
    unreported group in the log. It always ends, and leaves the log and the
    remembered replies consistent. *)
Theorem post_ends_one_way p e (Hpar : log_params p e) fuel id sender key data h tr gs m :
  kept p e h id tr gs m → is_i64 (len64 data) → (log_size gs + 1 < 2 ^ 62)%N → length gs < fuel →
  wp (op_spec true) (record_locked fuel id sender key data h) (posted p e h id key data tr gs m) m.
Proof. intros. by apply wp_record_locked. Qed.


(** C6 A retry is answered as the first was: when a post under a new key is
    answered 201, then after fewer than 1024 further posts into the track, under
    any keys and however the store fails, a post under that key is answered with
    the same response, without a store call and changing nothing. *)
Theorem retry_answered_as_first p e (Hpar : log_params p e) fuel id sender key data l h tr gs m :
  kept p e h id tr gs m → key ≠ "" → replies tr !! key = None →
  is_i64 (len64 data) → Forall (λ x, is_i64 (len64 (ps_data x))) l → length l < 1024 →
  (log_size gs + 1025 < 2 ^ 62)%N → length gs + 1025 < fuel →
  wp (op_spec true)
    (r ← record_locked fuel id sender key data h;
     rs ← posts fuel id l r.2; mret (r.1, rs))
    (λ r m', status r.1 = 201%N → ∀ fuel' sender' data',
       record_locked fuel' id sender' key data' r.2.2 = Ret (r.1, r.2.2)) m.
Proof.
  intros Hk Hkey Hnew Hd Hl Hlen Hroom Hfuel.
  apply wp_bind. eapply wp_mono; [|apply wp_record_locked; try done; lia].
  intros [resp h1] m1 (tr1 & evs & gs1 & Hout & Hh1 & Ht & Hk1 & _).
  cbn [fst snd] in *. subst h1.
  assert (length gs1 <= S (length gs)) as Hlog.
  { destruct (outcome_log _ _ _ _ _ _ _ _ _ _ _ _ _ Hout) as [-> |(row & ->)]; [lia|].
    rewrite length_app. simpl. lia. }
  apply wp_bind. eapply wp_mono; [|apply (wp_posts p e Hpar true fuel id l _ tr1 gs1); try done;
    unfold log_size in *; lia].
  intros [resps h2] m2 (tr2 & evs' & gs2 & Houts & Hh2 & Hk2).
  cbn [wp mret prog_ret fst snd] in *. subst h2.
  intros H201 fuel' sender' data'.
  assert (∃ reply, resp = writeJSON 201 (RecordBody reply) ∧ remembered key reply 0 tr1) as (reply & -> & Hrem).
  { apply String.eqb_neq in Hkey.
    destruct Hout as [reply Ha _|secs tr1 _ _ _ _|row tr1 _ _ _ Hmem|]; try done.
    - unfold answered in Ha. rewrite Hkey in Ha. congruence.
    - exists (response_of row). split; [done|]. unfold noted in Hmem. rewrite Hkey in Hmem.
      pose proof (remembered_new key (response_of row) tr Hnew) as H.
      unfold memory, remembered in *. injection Hmem as -> ->. exact H. }
  destruct (outcomes_remembered p e _ key reply _ _ _ _ _ _ _ _ _ Houts 0 Hrem Hlen) as [Hr _].
  unfold record_locked. destruct Hk2 as [-> _ _ _]. rewrite Hr.
  by rewrite (proj2 (String.eqb_neq _ _) Hkey).
Qed.


(** Idempotency keys are a sender's own: two posts share a scoped key exactly
    when both their senders and their keys are the same, for keys free of NUL
    bytes, which no header value holds, and whatever the senders' names hold. *)
Theorem scopedKey_injective s1 k1 s2 k2 :
  k1 ≠ "" → k2 ≠ "" → ContainsChar k1 (ascii_of_N 0) = false → ContainsChar k2 (ascii_of_N 0) = false →
  scopedKey s1 k1 = scopedKey s2 k2 ↔ s1 = s2 ∧ k1 = k2.
Proof.
  intros H1 H2 Hn1 Hn2. unfold scopedKey. rewrite !(proj2 (String.eqb_neq _ _)) by done.
  split; [by apply split_at_last_delim|by intros [-> ->]].
Qed.

(** ** At a concrete track *)

Definition cam_tk : track := mkTk (mkTrack "/site" "cam") 1 0 cam_writer ∅ [] zeroBucket ∅.

Definition cam_handler : Handler :=
  mkHandler (mkOptions None "" (mkLimit (of_int 0) 0) (mkLimit (of_int 0) 0) false 0 true 0 (mkConfig 0))
    DefaultMaxBodyBytes DefaultTrackIdleTimeout {["site/cam" := 0]} None {[0 := cam_tk]} 1 [].

Lemma cam_kept : kept cam 1 cam_handler 0 cam_tk [cam_row] cam_objs.
Proof.
  constructor; [done|exists cam_root; apply cam_durable|apply cam_writer_ok, cam_durable|].
  constructor; [constructor| |simpl; lia]. intros k. split; [by intros [? ?]|by intros ?%elem_of_nil].
Qed.

Lemma post_ends_one_way_witness :
  wp (op_spec true) (record_locked 2 0 "bob" "k" "{}" cam_handler)
    (posted cam 1 cam_handler 0 "k" "{}" cam_tk [cam_row] cam_objs) cam_objs.
Proof.
  apply (post_ends_one_way cam 1 cam_params); [apply cam_kept|by vm_compute|by vm_compute|simpl; lia].
Defined.


Lemma retry_answered_as_first_witness :
  wp (op_spec true)
    (r ← record_locked (N.to_nat 1100) 0 "bob" "k" "{}" cam_handler;
     rs ← posts (N.to_nat 1100) 0 [mkPost "eve" "k" "1"] r.2; mret (r.1, rs))
    (λ r m', status r.1 = 201%N → ∀ fuel' sender' data',
       record_locked fuel' 0 sender' "k" data' r.2.2 = Ret (r.1, r.2.2)) cam_objs.
Proof.
  apply (retry_answered_as_first cam 1 cam_params (N.to_nat 1100) 0 "bob" "k" "{}" [mkPost "eve" "k" "1"] cam_handler
    cam_tk [cam_row] cam_objs);
    [apply cam_kept|done|done|by vm_compute|repeat (apply Forall_cons_2 || apply Forall_nil_2); by vm_compute
    |simpl; lia|by vm_compute|simpl length; lia].
Defined.


Lemma scopedKey_injective_witness :
  scopedKey "bob" "k" = scopedKey "eve" "k" ↔ "bob" = "eve" ∧ "k" = "k".
Proof. by apply (scopedKey_injective "bob" "k" "eve" "k"). Defined.
