(* ===== verification/IngestRedact.v ===== *)
(** * Redacting records

    What a redaction request does to the track it holds ([redact] of Ingest.v), the
    store failing at will. The record redacted may be of any epoch of the track; the
    redaction is committed to the one the handler's writer is in. *)

From S2P Require Import Prelude GoStd Json Store Group Manifest Track Writer Redact Reader.
From S2P Require Import EpochLog WriterLog Isolation Payload Fixtures WriterProps RedactProps TrackProps.
From S2P Require Import Float64 Limit Ingest IngestPosts.
#[local] Open Scope string_scope.
#[local] Open Scope list_scope.
Import ingest.

Section Redact.
Context (p : TrackPath) (e : N) (Hpar : log_params p e) (Hcut : cuttable p).

(** A row of the writer's epoch, or of another. *)
Inductive committed_row (m : objs) (gs : list GroupInfo) (info : GroupInfo) : Prop :=
  | SameEpoch : info ∈ gs → committed_row m gs info
  | OtherEpoch e' root' gs' :
      e' ≠ e → log_params p e' → durable p e' m root' gs' → info ∈ gs' → committed_row m gs info.

Lemma row_key m gs root info :
  durable p e m root gs → committed_row m gs info → ObjectKey info = groupKey p (ID info) ∧ is_u64 (ID info).
Proof using.
  intros Hd [Hin|e' root' gs' _ _ Hd' Hin].
  - pose proof (log_rows _ _ _ _ _ (du_log _ _ _ _ _ Hd)) as H. rewrite Forall_forall in H.
    destruct (H _ Hin) as ([[Hid _] _] & _ & _ & Hk). by split.
  - pose proof (log_rows _ _ _ _ _ (du_log _ _ _ _ _ Hd')) as H. rewrite Forall_forall in H.
    destruct (H _ Hin) as ([[Hid _] _] & _ & _ & Hk). by split.
Qed.

(** The payload and the marker alone change, and the writer's log is as it was. *)
Definition taken (fl : bool) (m : objs) (info : GroupInfo) (r : option error) (m' : objs) : Prop :=
  (∀ k, k ≠ ObjectKey info → k ≠ marker p (ID info) → m' !! k = m !! k) ∧
  (m' !! ObjectKey info = m !! ObjectKey info ∨ is_Some (m' !! marker p (ID info))) ∧
  match r with
  | None => m' !! ObjectKey info = None ∧ is_Some (m' !! marker p (ID info))
  | Some _ => fl = true
  end.

Lemma wp_Redact_taken fl m root gs lt info :
  durable p e m root gs → committed_row m gs info → t_path lt = p →
  wp (op_spec fl) (Redact.Redact lt info) (λ r m', durable p e m' root gs ∧ taken fl m info r m') m.
Proof using Hpar Hcut.
  intros Hd [Hin|e' root' gs' Hne Hpar' Hd' Hin] Hlt.
  - eapply wp_mono; [|by eapply (wp_Redact p e Hpar Hcut)]. intros r m' (? & ? & ? & ?). by split_and!.
  - pose proof (log_rows _ _ _ _ _ (du_log _ _ _ _ _ Hd')) as Hrows. rewrite Forall_forall in Hrows.
    destruct (Hrows _ Hin) as ([[Hid _] _] & _ & He & Hk).
    eapply wp_mono; [|by eapply (wp_Redact p e' Hpar' Hcut)]. intros r m' (_ & Hfr & Hsafe & Hr).
    split; [|by split_and!]. eapply (durable_frame p e m); [done| |done]. intros k Hwk Hke Hroot.
    apply Hfr; [rewrite Hk, group_key_render|unfold marker];
      (apply render_ne; [done|split; [by apply Epoch_u64|apply Sequence_u64]|]); intros ->; cbn in Hke; congruence.
Qed.

(** The record a redaction commits. *)
Definition redaction_of (sender : string) (info : GroupInfo) : result bytes :=
  marshalRecord (mkRecord sender "" (GroupID_String (ID info))).

Definition gone (info : GroupInfo) (m' : objs) : Prop :=
  m' !! ObjectKey info = None ∧ is_Some (m' !! marker p (ID info)).

(** The redaction is the newest group of the log. *)
Definition recorded (sender : string) (info : GroupInfo) (gs gs' : list GroupInfo) (row : GroupInfo) : Prop :=
  ∃ data, redaction_of sender info = Ok data ∧ new_row p e data gs row ∧ gs' = gs ++ [row].

(** How a redaction ends: its status and reply, the track and the deliveries it leaves,
    and the log. *)
Inductive redacted_as (on_record : bool) (sender : string) (info : GroupInfo) (tr : track)
    (gs : list GroupInfo) (m m' : objs) : N → recordResponse → list event → list GroupInfo → Prop :=
  (** the redaction committed, then the payload taken *)
  | Redacts201 row data gs' :
      redaction_of sender info = Ok data → recorded sender info gs gs' row → gone info m' →
      redacted_as on_record sender info tr gs m m' 201 (response_of row)
        (if on_record then [Recorded (tk_Track tr) row data] else []) gs'
  (** redacted before: the taking finished, nothing committed *)
  | Redacts204 reply :
      is_Some (m !! marker p (ID info)) → gone info m' →
      redacted_as on_record sender info tr gs m m' 204 reply [] gs
  (** a redaction itself, or a payload that is none *)
  | Redacts400 reply :
      m' = m → redacted_as on_record sender info tr gs m m' 400 reply [] gs
  (** failed: the payload is there, unless it was marked or the redaction committed *)
  | Redacts500 reply evs gs' :
      gs' = gs ∨ (∃ row, recorded sender info gs gs' row) →
      m' !! ObjectKey info = m !! ObjectKey info ∨ is_Some (m !! marker p (ID info)) ∨
        (∃ row, recorded sender info gs gs' row) →
      redacted_as on_record sender info tr gs m m' 500 reply evs gs'.

Definition redaction_post (h : Handler) (id : nat) (sender : string) (info : GroupInfo) (tr : track)
    (gs : list GroupInfo) (m : objs) (r : N * recordResponse * Handler) (m' : objs) : Prop :=
  ∃ tr' evs gs', redacted_as (OnRecord (opts h)) sender info tr gs m m' r.1.1 r.1.2 evs gs' ∧
    r.2 = with_track id tr' evs h ∧ tk_Track tr' = tk_Track tr ∧ memory tr' = memory tr ∧
    kept p e r.2 id tr' gs' m'.

Lemma redaction_same h id sender info tr gs m st reply m' :
  kept p e h id tr gs m → redacted_as (OnRecord (opts h)) sender info tr gs m m' st reply [] gs →
  (∃ root, durable p e m' root gs) → (∀ w, writer_ok p e m gs w → writer_ok p e m' gs w) →
  redaction_post h id sender info tr gs m (st, reply, h) m'.
Proof using.
  intros [Hid Hd Hw Hm] Hr Hd' Hw'. exists tr, [], gs. cbn [fst snd]. rewrite with_track_same by done.
  split_and!; try done. constructor; auto.
Qed.

(** A taken payload leaves the writer as right as it was. *)
Lemma taken_writer fl m root gs info r m' w :
  durable p e m root gs → committed_row m gs info → taken fl m info r m' →
  writer_ok p e m gs w → writer_ok p e m' gs w.
Proof using Hpar.
  intros Hd Hrow (Hfr & _ & _) [Hp He Hs]. constructor; [done|done|]. intros Hst.
  destruct (row_key m gs root info Hd Hrow) as [Hk Hid].
  assert (∀ k, wf_key k → (∀ e' s, k ≠ KGroup e' s ∧ k ≠ KRedacted e' s) → m' !! render p k = m !! render p k) as Hsame.
  { intros k Hwk Hne. apply Hfr; [rewrite Hk, group_key_render|unfold marker];
      (apply render_ne; [done|split; [by apply Epoch_u64|apply Sequence_u64]|]); intros ->;
      by destruct (Hne (Epoch (ID info)) (Sequence (ID info))). }
  eapply (synced_changes p e Hpar (λ k, ∃ e' s, k = KGroup e' s ∨ k = KRedacted e' s) m m').
  - by eapply log_room, du_log.
  - intros k Hwk Hne. apply Hsame; [done|]. intros e' s. split; intros ->; apply Hne; exists e', s; auto.
  - intros f l (e' & s & [|]); done.
  - by apply Hs.
Qed.

Lemma wp_ReadGroup_reads fl k m :
  wp (op_spec fl) (ReadGroup k) (λ res m', m' = m ∧
    match res with Ok d => ∃ v, m !! k = Some (d, v) | Err _ => True end) m.
Proof using.
  unfold ReadGroup. apply wp_bind, wp_Get.
  - intros d v Hd. split; [done|eauto].
  - intros er Her _. rewrite Her. destruct (redactedKey k) as [mk|]; [|done].
    unfold markerExists. apply wp_bind, wp_bind, wp_Get; [done|by intros er' -> _|].
    intros er' _ _ Her'. by rewrite Her'.
  - intros er _ _ Her. by rewrite Her.
Qed.

(** The epochs the writer is not in are as they were. *)
Definition others_kept (m m' : objs) : Prop := ∀ k, ¬ epoch_object p e k → m' !! k = m !! k.

Lemma committed_kept m m' gs gs' info :
  committed_row m gs info → others_kept m m' → (∀ g, g ∈ gs → g ∈ gs') → committed_row m' gs' info.
Proof using Hpar.
  intros [Hin|e' root' gs1 Hne Hpar' Hd' Hin] Hfr Hsub; [left; auto|].
  eapply OtherEpoch; [done|done| |done]. eapply durable_frame; [done| |done].
  intros k Hk Hke _. apply Hfr, other_object; [by apply epoch_u64, Hpar|done|right; congruence].
Qed.

Lemma payload_kept m m' root gs info x :
  durable p e m root gs → committed_row m gs info → keeps_payloads p e m m' → others_kept m m' →
  m !! ObjectKey info = Some x → m' !! ObjectKey info = Some x.
Proof using Hpar.
  intros Hd Hrow Hkeep Hfr Hx. destruct (row_key m gs root info Hd Hrow) as [Hk Hid].
  rewrite Hk in *. destruct (decide (Epoch (ID info) = e)) as [He|He]; [by apply Hkeep|].
  rewrite Hfr; [done|]. rewrite group_key_render.
  apply other_object; [by apply epoch_u64, Hpar|split; [by apply Epoch_u64|apply Sequence_u64]|by right].
Qed.

Lemma writes_commit fuel id tr data h :
  w_path (writer tr) = p → w_epoch (writer tr) = e → writes (epoch_object p e) any (commit fuel id tr data h).
Proof using Hpar.
  intros Hp He. unfold commit. eapply writes_bind; [apply writes_Append; [done|done|apply Hpar]|].
  by intros [w [group err]] _.
Qed.

Context (fuel : nat) (gs : list GroupInfo) (sender : string) (info : GroupInfo).
Context (Hdata : ∀ data, redaction_of sender info = Ok data → is_i64 (len64 data)).
Context (Hroom : (log_size gs + 1 < 2 ^ 62)%N) (Hfuel : length gs < fuel).

(** After the redaction committed. *)
Lemma wp_take_payload fl h id lt tr data row m m1 root w' evs x :
  kept p e h id tr gs m → redaction_of sender info = Ok data → new_row p e data gs row →
  t_path lt = p → durable p e m1 root (gs ++ [row]) → writer_ok p e m1 (gs ++ [row]) w' →
  committed_row m1 (gs ++ [row]) info → m !! ObjectKey info = Some x →
  evs = (if OnRecord (opts h) then [Recorded (tk_Track tr) row data] else []) →
  let h1 := with_track id {| tr with writer := w' |} evs h in
  wp (op_spec fl) (err ← Redact.Redact lt info;
      mret (match err with
            | Some _ => (500%N, mkRecordResponse "" 0, h1)
            | None => (201%N, response_of row, h1)
            end))
    (redaction_post h id sender info tr gs m) m1.
Proof using Hpar Hcut.
  intros Hk Hred Hrow Hlt Hd1 Hw1 Hin Hx -> h1. destruct Hk as [Hid _ _ Hm].
  assert (recorded sender info gs (gs ++ [row]) row) as Hrec by by exists data.
  apply wp_bind. eapply wp_mono; [|by eapply wp_Redact_taken]. intros r m2 [Hd2 Ht].
  assert (kept p e h1 id {| tr with writer := w' |} (gs ++ [row]) m2) as Hkept.
  { constructor; [apply lookup_insert_eq|by exists root|by eapply (taken_writer fl m1)|].
    by apply (remembers_memory tr). }
  exists {| tr with writer := w' |}, (if OnRecord (opts h) then [Recorded (tk_Track tr) row data] else []), (gs ++ [row]).
  destruct r as [er|]; cbn [fst snd]; (split; [|split_and!; try done]).
  - apply Redacts500; eauto.
  - eapply Redacts201; [done|done|apply Ht].
Qed.

Lemma wp_redact fl h id lt tr m :
  kept p e h id tr gs m → committed_row m gs info → t_path lt = p →
  wp (op_spec fl) (redact fuel id lt info sender h) (redaction_post h id sender info tr gs m) m.
Proof using Hpar Hcut Hdata Hroom Hfuel.
  intros Hkept Hrow Hlt. pose proof Hkept as [Hid [root Hd] Hw Hm]. unfold redact. rewrite Hid.
  destruct (row_key m gs root info Hd Hrow) as [Hk _].
  assert (∀ reply m', m' = m → redaction_post h id sender info tr gs m (500%N, reply, h) m') as Hfail.
  { intros reply m' ->. eapply redaction_same; [done| |by exists root|done]. apply Redacts500; by left. }
  apply wp_bind. eapply wp_mono; [|by apply (wp_Redacted p Hcut fl lt info m)].
  intros [b|er] m' [-> Hb]; [|by apply Hfail]. destruct b.
  { symmetry in Hb. apply bool_decide_eq_true in Hb. apply wp_bind.
    eapply wp_mono; [|by eapply wp_Redact_taken]. intros r m1 [Hd1 Ht].
    eapply redaction_same; [done| |by exists root|intros w; by eapply taken_writer].
    destruct r as [er|]; [apply Redacts500; auto|]. apply Redacts204; [done|apply Ht]. }
  apply wp_bind. eapply wp_mono; [|apply wp_ReadGroup_reads].
  intros [d|er] m' [-> Hx]; [|by apply Hfail]. destruct Hx as [v Hx].
  destruct (unmarshalRecord d) as [rec|er]; [|by apply Hfail].
  destruct (negb (String.eqb (Redacts rec) "")).
  { eapply redaction_same; [done| |by exists root|done]. by apply Redacts400. }
  fold (redaction_of sender info). destruct (redaction_of sender info) as [data|er] eqn:Ered; [|by apply Hfail].
  apply wp_bind. eapply wp_mono; [|apply wp_frame; [apply (writes_commit fuel id tr data h); apply Hw|
    eapply (wp_commit p e Hpar fuel gs data (Hdata data eq_refl) Hroom Hfuel fl id tr tr h m root); done]].
  intros [[[group err] tr2] h2] m1 ((w' & gs1 & root1 & Hd1 & Hw1 & Hkeep & Htr & Hcase) & _ & Hfr).
  cbn [fst snd] in Htr, Hcase. subst tr2.
  pose proof (payload_kept m m1 root gs info _ Hd Hrow Hkeep Hfr Hx) as Hx1.
  destruct Hcase as [(-> & -> & Hgs)|(Hnew & -> & _ & ->)].
  - cbn [String.eqb]. exists {| tr with writer := w' |}, [], gs1. cbn [fst snd]. split_and!; try done.
    + apply Redacts500; [|left; congruence].
      destruct Hgs as [->|(row & Hrow' & ->)]; [by left|right; exists row; by exists data].
    + constructor; [apply lookup_insert_eq|by exists root1|done|by apply (remembers_memory tr)].
  - rewrite (proj2 (String.eqb_neq _ _) (new_row_key p e gs data group Hnew)).
    eapply wp_take_payload; try done. eapply committed_kept; [done|done|]. intros g Hg. apply elem_of_app. by left.
Qed.
End Redact.

(** * Properties *)

(** C19 A redaction request ends in one of four ways, whichever of the store's calls
    fail: answered 201, the redaction was committed as the newest group of the log,
    delivered to [OnRecord] once, and the payload is gone and marked; answered 204, the
    record had been marked before, the payload is gone and nothing was committed;
    answered 400, the record is no record or itself a redaction, and the store is as it
    was; or answered 500, with at most the redaction in the log, and the payload is
    where it was unless it had been marked or the redaction committed. The handler's
    writer still knows the log, and the replies it remembers are those it had. *)
Theorem redaction_ends_one_way p e fuel id lt info sender h tr gs m :
  log_params p e → cuttable p → kept p e h id tr gs m → committed_row p e m gs info → t_path lt = p →
  (∀ data, redaction_of sender info = Ok data → is_i64 (len64 data)) →
  (log_size gs + 1 < 2 ^ 62)%N → length gs < fuel →
  wp (op_spec true) (redact fuel id lt info sender h) (redaction_post p e h id sender info tr gs m) m.
Proof. intros. by apply wp_redact. Qed.

Lemma redaction_ends_one_way_witness :
  wp (op_spec true) (redact 2 0 cam_track cam_row "bob" cam_handler)
    (redaction_post cam 1 cam_handler 0 "bob" cam_row cam_tk [cam_row] cam_objs) cam_objs.
Proof.
  apply (redaction_ends_one_way cam 1).
  - apply cam_params.
  - by vm_compute.
  - apply cam_kept.
  - left. apply list_elem_of_singleton. reflexivity.
  - reflexivity.
  - intros data H. vm_compute in H. injection H as <-. by vm_compute.
  - by vm_compute.
  - simpl. lia.
Defined.
