(* ===== verification/IngestConc.v ===== *)
(** * Requests at the same time

    The requests a handler serves at once, as a step relation: a step is what a
    request does under one lock, or without a lock on the store. [flights] tells
    where each request is: opening its track from the store, or holding it. The
    store answers as it likes ([returns]), so whatever other processes and other
    requests do to it in between is covered.

    A post or a redaction works under its track's lock alone. It reads of the
    handler only the options and the fields that lock guards, and changes only
    those, so it is one step at its end; other requests' steps may come while it
    runs. *)

From S2P Require Import Prelude GoStd Json Store Group Manifest Track Writer Redact Reader.
From S2P Require Import MemStore Fixtures ReaderProps Runs Float64 Limit Ingest.
#[local] Open Scope string_scope.
#[local] Open Scope list_scope.
Import ingest.

(** ** What a program may return *)

Fixpoint returns {A} (p : prog A) (a : A) : Prop :=
  match p with
  | Ret b => b = a
  | Do o k => ∃ r, returns (k r) a
  | OutOfFuel => False
  end.

Lemma returns_bind {A B} (p : prog A) (f : A → prog B) b :
  returns (p ≫= f) b ↔ ∃ a, returns p a ∧ returns (f a) b.
Proof.
  unfold mbind, prog_mbind. induction p as [a|o k IH|]; cbn [prog_bind returns].
  - naive_solver.
  - setoid_rewrite IH. naive_solver.
  - naive_solver.
Qed.

(** ** Requests *)

Inductive phase : Type :=
  | Opening (t : Track)
  | Holding (t : Track) (id : nat).

#[export] Instance phase_eq_dec : EqDecision phase.
Proof. solve_decision. Defined.

Record state := mkState { handler : Handler; flights : gmap nat phase }.

Inductive step : state → state → Prop :=
  (** [open] finds the track *)
  | StepFound r t now id h h' fl :
      fl !! r = None → open_lookup (Path t) now h = (Some id, h') →
      step (mkState h fl) (mkState h' (<[r := Holding t id]> fl))
  (** [open] does not, and goes to the store *)
  | StepMissed r t now h h' fl :
      fl !! r = None → open_lookup (Path t) now h = (None, h') →
      step (mkState h fl) (mkState h' (<[r := Opening t]> fl))
  (** the store has no such track, or fails *)
  | StepNotOpened r t h fl :
      fl !! r = Some (Opening t) → step (mkState h fl) (mkState h (delete r fl))
  (** the store gave a writer *)
  | StepOpened r t fuel w id h h' fl :
      fl !! r = Some (Opening t) → returns (open_writer fuel (Path t) (Config_ (opts h))) (Ok w) →
      open_insert t w h = (id, h') → step (mkState h fl) (mkState h' (<[r := Holding t id]> fl))
  (** a post, under the track's lock *)
  | StepRecord r t id fuel sender key data resp h h' fl :
      fl !! r = Some (Holding t id) → returns (record_locked fuel id sender key data h) (resp, h') →
      step (mkState h fl) (mkState h' fl)
  (** a redaction, under the track's lock *)
  | StepRedact r t id fuel lt info sender reply h h' fl :
      fl !! r = Some (Holding t id) → returns (redact fuel id lt info sender h) (reply, h') →
      step (mkState h fl) (mkState h' fl)
  | StepRelease r t id now h fl :
      fl !! r = Some (Holding t id) → step (mkState h fl) (mkState (release id now h) (delete r fl))
  (** a page of history was answered *)
  | StepHistory now h fl : step (mkState h fl) (mkState (closeIdle now h) fl).

(** Whether a request holds the track with the id. *)
Definition holds_id (id : nat) (ph : phase) : Prop :=
  match ph with Opening _ => False | Holding _ id' => id' = id end.

#[export] Instance holds_id_dec id ph : Decision (holds_id id ph).
Proof. destruct ph; simpl; apply _. Defined.

(** How many requests hold the track. *)
Definition holders (fl : gmap nat phase) (id : nat) : nat :=
  size (filter (λ rph, holds_id id rph.2) fl).

Lemma holders_insert_new fl r ph id :
  fl !! r = None → holders (<[r := ph]> fl) id = holders fl id + (if decide (holds_id id ph) then 1 else 0).
Proof.
  intros Hr. unfold holders. case_decide as Hd.
  - rewrite map_filter_insert_True by done. rewrite map_size_insert_None; [lia|].
    apply map_lookup_filter_None. by left.
  - rewrite map_filter_insert_False by done. rewrite delete_id by done. lia.
Qed.

Lemma holders_delete fl r ph id :
  fl !! r = Some ph → holders fl id = holders (delete r fl) id + (if decide (holds_id id ph) then 1 else 0).
Proof.
  intros Hr. rewrite <-(insert_delete_id fl r ph Hr) at 1. apply holders_insert_new, lookup_delete_eq.
Qed.

Lemma holders_insert fl r ph ph' id :
  fl !! r = Some ph → ¬ holds_id id ph →
  holders (<[r := ph']> fl) id = holders fl id + (if decide (holds_id id ph') then 1 else 0).
Proof.
  intros Hr Hn. rewrite <-insert_delete_eq. rewrite holders_insert_new by apply lookup_delete_eq.
  rewrite (holders_delete fl r ph id Hr). repeat case_decide; (done || lia).
Qed.

(** ** What work under a track's lock may change *)

(** Who holds a track and which it is. *)
Definition claim (tr : track) : Z * Track := (users tr, tk_Track tr).

(** Nothing but the guarded fields of the track [id], with records of it
    delivered. *)
Definition worked (id : nat) (h h' : Handler) : Prop :=
  tracks h' = tracks h ∧ opts h' = opts h ∧ idle h' = idle h ∧ maxBody h' = maxBody h ∧
  nextSweep h' = nextSweep h ∧ next_object h' = next_object h ∧
  (∀ j, claim <$> objects h' !! j = claim <$> objects h !! j) ∧
  (∀ j, j ≠ id → objects h' !! j = objects h !! j) ∧
  ∃ evs, events h' = events h ++ evs ∧
    Forall (λ ev, ∃ tr g d, objects h !! id = Some tr ∧ ev = Recorded (tk_Track tr) g d) evs.

Lemma worked_refl id h : worked id h h.
Proof. split_and!; try done. exists []. by rewrite app_nil_r. Qed.

Lemma worked_trans id h1 h2 h3 : worked id h1 h2 → worked id h2 h3 → worked id h1 h3.
Proof.
  intros (? & ? & ? & ? & ? & ? & Hc & Ho & evs & Hev & Hall) (? & ? & ? & ? & ? & ? & Hc' & Ho' & evs' & Hev' & Hall').
  split_and!; try congruence; [intros j Hj; by rewrite Ho', Ho|].
  exists (evs ++ evs'). rewrite Hev', Hev, app_assoc. split; [done|]. apply Forall_app. split; [done|].
  eapply Forall_impl; [exact Hall'|]. intros ev (tr & g & d & Htr & ->). specialize (Hc id). rewrite Htr in Hc.
  destruct (objects h1 !! id) as [tr1|]; [|done]. unfold claim in Hc. injection Hc as _ Ht.
  exists tr1, g, d. by rewrite Ht.
Qed.

Lemma worked_update id f h :
  (∀ tr, claim (f tr) = claim tr) → worked id h (update id f h).
Proof.
  intros Hf. split_and!; try done.
  - intros j. unfold update. cbn [objects]. destruct (decide (j = id)) as [->|].
    + rewrite lookup_alter_eq. destruct (objects h !! id); [cbn; by rewrite Hf|done].
    + by rewrite lookup_alter_ne.
  - intros j Hj. unfold update. cbn [objects]. by rewrite lookup_alter_ne.
  - exists []. by rewrite app_nil_r.
Qed.

Lemma claim_remember key reply tr : claim (remember key reply tr) = claim tr.
Proof. unfold remember. by destruct (_ =? _)%nat; [destruct (keys tr)|]. Qed.

Lemma worked_const id tr tr0 h :
  objects h !! id = Some tr0 → claim tr = claim tr0 → worked id h (update id (λ _, tr) h).
Proof.
  intros Hid Hc.
  assert (update id (λ _, tr) h = {| h with objects := <[id := tr]> (objects h) |}) as ->.
  { unfold update. f_equal. apply map_eq. intros k. destruct (decide (k = id)) as [->|].
    - by rewrite lookup_alter_eq, Hid, lookup_insert_eq.
    - by rewrite lookup_alter_ne, lookup_insert_ne. }
  split_and!; try done; cbn [objects events].
  - intros j. destruct (decide (j = id)) as [->|]; [|by rewrite lookup_insert_ne].
    rewrite lookup_insert_eq, Hid. cbn. by rewrite Hc.
  - intros j Hj. by rewrite lookup_insert_ne.
  - exists []. by rewrite app_nil_r.
Qed.

Lemma worked_emit id tr g d h :
  objects h !! id = Some tr → worked id h (emit (Recorded (tk_Track tr) g d) h).
Proof.
  intros Hid. split_and!; try done. exists [Recorded (tk_Track tr) g d]. split; [done|].
  constructor; [|done]. by exists tr, g, d.
Qed.

Lemma objects_const id tr tr0 h :
  objects h !! id = Some tr0 → objects (update id (λ _, tr) h) !! id = Some tr.
Proof. intros Hid. unfold update. cbn. by rewrite lookup_alter_eq, Hid. Qed.

(** The writer's append and its delivery. *)
Lemma worked_commit fuel id tr data h group err tr' h' :
  objects h !! id = Some tr → returns (commit fuel id tr data h) (group, err, tr', h') → worked id h h'.
Proof.
  intros Hid H. unfold commit in H. apply returns_bind in H as ([w [g er]] & _ & H).
  cbn [returns mret prog_ret] in H. set (tr1 := {| tr with writer := w |}) in H. injection H as _ _ _ <-.
  assert (worked id h (update id (λ _, tr1) h)) as Hup by (by eapply worked_const).
  destruct (negb _ && _); [|done]. eapply worked_trans; [exact Hup|].
  apply (worked_emit id tr1). by eapply objects_const.
Qed.

Lemma worked_record fuel id sender key data h resp h' :
  returns (record_locked fuel id sender key data h) (resp, h') → worked id h h'.
Proof.
  unfold record_locked. destruct (objects h !! id) as [tr|] eqn:Hid;
    [|intros [= _ <-]; apply worked_refl].
  intros H.
  destruct (replies tr !! key) as [reply|], (negb (String.eqb key ""));
    try (injection H as _ <-; apply worked_refl).
  all: apply returns_bind in H as (t & _ & H); destruct (Handler_admit _ _ _ _ _ _) as [[wt lm] sd];
    set (tr1 := {| tr with limit := lm; senders := sd |}) in H;
    assert (worked id h (update id (λ _, tr1) h)) as Hup by (by eapply worked_const);
    pose proof (objects_const id tr1 tr h Hid) as Hid1;
    (destruct (0 <? wt)%Z; [injection H as _ <-; exact Hup|]);
    apply returns_bind in H as ([[[group err] tr2] h2] & Hc & H);
    apply (worked_commit _ _ _ _ _ _ _ _ _ Hid1) in Hc; injection H as _ <-;
    pose proof (worked_trans _ _ _ _ Hup Hc) as Hw;
    (destruct (negb _ && _); [|exact Hw]); eapply worked_trans; [exact Hw|];
    apply worked_update; intros; apply claim_remember.
Qed.

Lemma worked_redact fuel id lt info sender h reply h' :
  returns (redact fuel id lt info sender h) (reply, h') → worked id h h'.
Proof.
  unfold redact. destruct (objects h !! id) as [tr|] eqn:Hid; [|intros [= _ <-]; apply worked_refl].
  intros H. apply returns_bind in H as ([[|]|er] & _ & H); [| |injection H as _ <-; apply worked_refl].
  { apply returns_bind in H as (err & _ & H). injection H as _ <-. apply worked_refl. }
  apply returns_bind in H as ([data|er] & _ & H); [|injection H as _ <-; apply worked_refl].
  destruct (unmarshalRecord data) as [rec|]; [|injection H as _ <-; apply worked_refl].
  destruct (negb _); [injection H as _ <-; apply worked_refl|].
  destruct (marshalRecord _) as [redaction|]; [|injection H as _ <-; apply worked_refl].
  apply returns_bind in H as ([[[group err] tr2] h2] & Hc & H).
  apply (worked_commit _ _ _ _ _ _ _ _ _ Hid) in Hc.
  destruct (String.eqb _ _); [injection H as _ <-; exact Hc|].
  apply returns_bind in H as ([er|] & _ & H); injection H as _ <-; exact Hc.
Qed.

(** ** The invariant *)

Record inv (s : state) : Prop := {
  (** ids are fresh *)
  in_fresh id : next_object (handler s) <= id → objects (handler s) !! id = None;
  (** the map leads to the tracks of its paths *)
  in_map k id : tracks (handler s) !! k = Some id →
    ∃ tr, objects (handler s) !! id = Some tr ∧ Path (tk_Track tr) = k;
  (** a held track is in the map *)
  in_held r t id : flights s !! r = Some (Holding t id) → tracks (handler s) !! Path t = Some id;
  (** the count of a track is the number of its holders *)
  in_users id tr : objects (handler s) !! id = Some tr → users tr = Z.of_nat (holders (flights s) id);
}.

(** Every track announced, before any of its records. *)
Record announced (h : Handler) : Prop := {
  an_track id tr : objects h !! id = Some tr → Opened (tk_Track tr) ∈ events h;
  an_order i t g d : events h !! i = Some (Recorded t g d) → ∃ j, j < i ∧ events h !! j = Some (Opened t);
}.

Lemma holders_none fl id :
  (∀ r t, fl !! r ≠ Some (Holding t id)) → holders fl id = 0.
Proof.
  intros H. unfold holders. apply map_size_empty_iff, map_empty. intros r. apply map_lookup_filter_None. right.
  intros [t|t id'] Hr; [by intros []|]. simpl. intros ->. by apply (H r t).
Qed.

Lemma holders_some fl r t id : fl !! r = Some (Holding t id) → 0 < holders fl id.
Proof. intros Hr. rewrite (holders_delete fl r _ id Hr). rewrite decide_True by done. lia. Qed.

Lemma inv_unheld s id tr :
  inv s → tracks (handler s) !! Path (tk_Track tr) ≠ Some id → objects (handler s) !! id = Some tr →
  holders (flights s) id = 0.
Proof.
  intros Hi Hno Hid. apply holders_none. intros r t Hr. apply (in_held s Hi) in Hr as Hk.
  destruct (in_map s Hi _ _ Hk) as (tr' & Htr & Hp). congruence.
Qed.

Lemma inv_closeIdle now h fl : inv (mkState h fl) → inv (mkState (closeIdle now h) fl).
Proof.
  intros Hi. unfold closeIdle. destruct (match nextSweep h with Some t => _ | None => _ end); [done|].
  constructor; cbn [handler flights tracks objects next_object].
  - apply (in_fresh _ Hi).
  - intros k id [Hk _]%map_lookup_filter_Some. by apply (in_map _ Hi).
  - intros r t id Hr. apply map_lookup_filter_Some. split; [by apply (in_held _ Hi r)|].
    cbn. unfold idle_track. destruct (objects h !! id) as [tr|] eqn:E; [|done].
    rewrite (in_users _ Hi id tr E). apply holders_some in Hr. cbn [flights] in *.
    apply andb_false_intro1, Z.eqb_neq. lia.
  - apply (in_users _ Hi).
Qed.

Lemma lookup_alter_claim (f : track → track) id (m : gmap nat track) j tr' :
  alter f id m !! j = Some tr' → ∃ tr, m !! j = Some tr ∧ tr' = if decide (j = id) then f tr else tr.
Proof.
  destruct (decide (j = id)) as [->|]; [rewrite lookup_alter_eq|rewrite lookup_alter_ne by done].
  - destruct (m !! id) as [tr|]; [|done]. intros [= <-]. by exists tr.
  - intros ->. by exists tr'.
Qed.

(** A request takes hold of the track of its path. *)
Lemma inv_hold h fl r ph t id :
  inv (mkState h fl) → fl !! r = ph → (∀ t' id', ph ≠ Some (Holding t' id')) →
  tracks h !! Path t = Some id → inv (mkState (hold id h) (<[r := Holding t id]> fl)).
Proof.
  intros Hi Hr Hph Hk.
  assert (∀ j, holders (<[r := Holding t id]> fl) j = holders fl j + (if decide (j = id) then 1 else 0)) as Hh.
  { intros j. assert ((if decide (holds_id j (Holding t id)) then 1 else 0) = if decide (j = id) then 1 else 0) as <-.
    { simpl. repeat case_decide; congruence. }
    destruct ph as [[t0|t0 id0]|]; [|by destruct (Hph t0 id0)|by apply holders_insert_new].
    apply (holders_insert fl r (Opening t0)); [done|by intros []]. }
  constructor; unfold hold, update; cbn [handler flights tracks objects next_object].
  - intros j Hj. apply (in_fresh _ Hi) in Hj. cbn in Hj. by apply lookup_alter_None.
  - intros k j Hj. destruct (in_map _ Hi k j Hj) as (tr & Htr & Hp). cbn in Htr.
    destruct (decide (j = id)) as [->|]; [rewrite lookup_alter_eq, Htr|rewrite lookup_alter_ne by done];
      by eexists.
  - intros r' t' id'. rewrite lookup_insert. case_decide; [by intros [= <- <-]|]. apply (in_held _ Hi).
  - intros j tr' (tr & Htr & ->)%lookup_alter_claim. rewrite Hh. pose proof (in_users _ Hi j tr Htr) as Hu.
    cbn in Hu. case_decide; cbn [users]; lia.
Qed.

Lemma inv_open_insert h fl r t0 t w id h' :
  inv (mkState h fl) → fl !! r = Some (Opening t0) → open_insert t w h = (id, h') →
  inv (mkState h' (<[r := Holding t id]> fl)).
Proof.
  intros Hi Hr. unfold open_insert. destruct (tracks h !! Path t) as [id1|] eqn:Hk; intros [= <- <-].
  { by eapply inv_hold. }
  set (h1 := {| h with tracks := _; objects := _; next_object := _ |}).
  assert (inv (mkState h1 (<[r := Holding t (next_object h)]> fl))) as H.
  { assert (objects h !! next_object h = None) as Hnew by (by apply (in_fresh _ Hi)).
    constructor; unfold h1; cbn [handler flights tracks objects next_object].
    - intros j Hj. rewrite lookup_insert_ne by lia. apply (in_fresh _ Hi). cbn. lia.
    - intros k j. rewrite lookup_insert. case_decide as Hkk; [intros [= <-]|intros Hj].
      + rewrite lookup_insert_eq. eexists. by split.
      + destruct (in_map _ Hi k j Hj) as (tr & Htr & Hp). exists tr. split; [|done].
        rewrite lookup_insert_ne; [done|]. cbn in Htr. congruence.
    - intros r' t' id'. rewrite lookup_insert. case_decide as Hrr; [intros [= <- <-]; by rewrite lookup_insert_eq|].
      intros Hr'. apply (in_held _ Hi) in Hr'. cbn in Hr'. rewrite lookup_insert_ne; [done|congruence].
    - intros j tr. rewrite (holders_insert fl r (Opening t0)) by (done || by intros []).
      rewrite lookup_insert. case_decide as Hj; [intros [= <-]; cbn [users]|intros Htr].
      + subst j. rewrite holders_none; [by rewrite decide_True by done|].
        intros r' t' Hr'. apply (in_held _ Hi) in Hr'. apply (in_map _ Hi) in Hr' as (tr & Htr & _). cbn in Htr. congruence.
      + rewrite decide_False by (simpl; congruence). rewrite Nat.add_0_r. by apply (in_users _ Hi). }
  destruct (OnOpen (opts h)); [|exact H]. destruct H. by constructor.
Qed.

Lemma inv_worked id h h' fl : worked id h h' → inv (mkState h fl) → inv (mkState h' fl).
Proof.
  intros (Ht & _ & _ & _ & _ & Hn & Hc & _ & _) Hi.
  assert (∀ j tr, objects h' !! j = Some tr → ∃ tr0, objects h !! j = Some tr0 ∧ claim tr0 = claim tr) as Hback.
  { intros j tr Hj. specialize (Hc j). rewrite Hj in Hc. destruct (objects h !! j) as [tr0|]; [|done].
    injection Hc as Hu Hk. exists tr0. unfold claim. by rewrite Hu, Hk. }
  constructor; cbn [handler flights].
  - intros j Hj. rewrite Hn in Hj. specialize (Hc j). pose proof (in_fresh _ Hi j Hj) as Hf.
    cbn in Hf. rewrite Hf in Hc. by destruct (objects h' !! j).
  - intros k j Hj. rewrite Ht in Hj. destruct (in_map _ Hi k j Hj) as (tr & Htr & Hp). cbn in Htr.
    specialize (Hc j). rewrite Htr in Hc. destruct (objects h' !! j) as [tr'|]; [|done].
    injection Hc as _ Hk. exists tr'. by rewrite Hk.
  - intros r t j Hr. rewrite Ht. by apply (in_held _ Hi r).
  - intros j tr Hj. destruct (Hback j tr Hj) as (tr0 & Htr0 & [= <- _]). by apply (in_users _ Hi).
Qed.

Lemma inv_release r t id now h fl :
  fl !! r = Some (Holding t id) → inv (mkState h fl) → inv (mkState (release id now h) (delete r fl)).
Proof.
  intros Hr Hi. constructor; unfold release, update; cbn [handler flights tracks objects next_object].
  - intros j Hj. apply (in_fresh _ Hi) in Hj. cbn in Hj. by apply lookup_alter_None.
  - intros k j Hj. destruct (in_map _ Hi k j Hj) as (tr & Htr & Hp). cbn in Htr.
    destruct (decide (j = id)) as [->|]; [rewrite lookup_alter_eq, Htr|rewrite lookup_alter_ne by done];
      by eexists.
  - intros r' t' id'. rewrite lookup_delete. case_decide; [done|]. apply (in_held _ Hi).
  - intros j tr' (tr & Htr & ->)%lookup_alter_claim. pose proof (in_users _ Hi j tr Htr) as Hu. cbn in Hu.
    rewrite (holders_delete fl r _ j Hr) in Hu. simpl in Hu. repeat case_decide; cbn [users]; (lia || congruence).
Qed.

(** ** Announcements *)

Lemma announced_same h h' :
  (∀ id tr, objects h' !! id = Some tr → ∃ tr0, objects h !! id = Some tr0 ∧ tk_Track tr0 = tk_Track tr) →
  events h' = events h → announced h → announced h'.
Proof.
  intros Ho He [Ht Hor]. constructor; rewrite He; [|exact Hor].
  intros id tr (tr0 & Htr & <-)%Ho. by eapply Ht.
Qed.

Lemma announced_update id f h :
  (∀ tr, tk_Track (f tr) = tk_Track tr) → announced h → announced (update id f h).
Proof.
  intros Hf. apply announced_same; [|done]. intros j tr (tr0 & Htr & ->)%lookup_alter_claim.
  exists tr0. by case_decide; rewrite ?Hf.
Qed.

Lemma announced_closeIdle now h : announced h → announced (closeIdle now h).
Proof.
  unfold closeIdle. destruct (match nextSweep h with Some t => _ | None => _ end); [done|].
  apply announced_same; [|done]. intros id tr Htr. by exists tr.
Qed.

Lemma announced_open_insert t w h id h' :
  open_insert t w h = (id, h') → OnOpen (opts h) = true → announced h → announced h'.
Proof.
  unfold open_insert. intros H Hon Ha. destruct (tracks h !! Path t).
  { injection H as _ <-. by apply announced_update. }
  cbn [opts] in H. rewrite Hon in H. injection H as _ <-. destruct Ha as [Ht Hor].
  constructor; unfold emit; cbn [objects events].
  - intros j tr. rewrite lookup_insert. case_decide; [intros [= <-]; set_solver|].
    intros Hj%Ht. set_solver.
  - intros i t' g d [Hi|[_ Hi]]%lookup_app_Some.
    + destruct (Hor i t' g d Hi) as (j & Hj & Hop). exists j. split; [done|]. by apply lookup_app_l_Some.
    + destruct (i - _); discriminate Hi.
Qed.

Lemma announced_worked id h h' : worked id h h' → announced h → announced h'.
Proof.
  intros (_ & _ & _ & _ & _ & _ & Hc & _ & evs & Hev & Hall) [Ht Hor]. constructor; rewrite Hev.
  - intros j tr Hj. specialize (Hc j). rewrite Hj in Hc. destruct (objects h !! j) as [tr0|] eqn:Htr; [|done].
    injection Hc as _ ->. apply elem_of_app. left. by eapply Ht.
  - intros i t g d [Hi|[Hlen Hi]]%lookup_app_Some.
    + destruct (Hor i t g d Hi) as (j & Hj & Hop). exists j. split; [done|]. by apply lookup_app_l_Some.
    + apply list_elem_of_lookup_2 in Hi. rewrite Forall_forall in Hall.
      destruct (Hall _ Hi) as (tr & g' & d' & Htr & [= -> _ _]).
      destruct (list_elem_of_lookup_1 _ _ (Ht _ _ Htr)) as [j Hj]. exists j.
      apply lookup_lt_Some in Hj as Hlt. split; [lia|]. by apply lookup_app_l_Some.
Qed.

(** ** Steps *)

(** What holds of every state: the invariant, and the order of the hooks. *)
Definition good (on_open : bool) (s : state) : Prop :=
  inv s ∧ OnOpen (opts (handler s)) = on_open ∧ (on_open = true → announced (handler s)).

Lemma good_step on_open s s' : step s s' → good on_open s → good on_open s'.
Proof.
  assert (∀ now h fl, good on_open (mkState h fl) → good on_open (mkState (closeIdle now h) fl)) as Hclose.
  { intros now h fl (Hi & Ho & Ha). split_and!; [by apply inv_closeIdle| |].
    - cbn. unfold closeIdle. by destruct (match nextSweep h with Some t => _ | None => _ end).
    - intros Hon. by apply announced_closeIdle, Ha. }
  assert (∀ id h h' fl, worked id h h' → good on_open (mkState h fl) → good on_open (mkState h' fl)) as Hwork.
  { intros id h h' fl Hw (Hi & Ho & Ha). split_and!; [by eapply inv_worked| |].
    - destruct Hw as (_ & Hop & _). cbn in *. by rewrite Hop.
    - intros Hon. by eapply announced_worked, Ha. }
  destruct 1 as [r t now id h h' fl Hr Ho|r t now h h' fl Hr Ho|r t h fl Hr|r t fuel w id h h' fl Hr _ Ho
    |r t id fuel sender key data resp h h' fl Hr Hret|r t id fuel lt info sender reply h h' fl Hr Hret
    |r t id now h fl Hr|now h fl]; intros Hg.
  - apply (Hclose now) in Hg as (Hi & Hop & Ha). unfold open_lookup in Ho.
    destruct (tracks (closeIdle now h) !! Path t) as [id1|] eqn:Hk; [|done]. injection Ho as <- <-.
    split_and!; [by eapply inv_hold|done|]. intros Hon. by apply announced_update, Ha.
  - apply (Hclose now) in Hg as (Hi & Hop & Ha). unfold open_lookup in Ho.
    destruct (tracks (closeIdle now h) !! Path t) as [id1|] eqn:Hk; [done|]. injection Ho as <-.
    split_and!; [|done|done]. destruct Hi as [Hf Hm Hh Hu]. constructor; cbn [handler flights] in *; [done..| |].
    + intros r' t' id'. rewrite lookup_insert. case_decide; [done|]. apply Hh.
    + intros id' tr Htr. rewrite holders_insert_new by done. simpl. rewrite Nat.add_0_r. by apply Hu.
  - destruct Hg as (Hi & Hop & Ha). split_and!; [|done|done]. destruct Hi as [Hf Hm Hh Hu].
    constructor; cbn [handler flights] in *; [done..| |].
    + intros r' t' id'. rewrite lookup_delete. case_decide; [done|]. apply Hh.
    + intros id' tr Htr. specialize (Hu id' tr Htr). rewrite (holders_delete fl r _ id' Hr) in Hu.
      simpl in Hu. by rewrite Nat.add_0_r in Hu.
  - destruct Hg as (Hi & Hop & Ha). split_and!; [by eapply inv_open_insert| |].
    + cbn in *. assert (opts h' = opts h) as ->; [|exact Hop]. unfold open_insert in Ho.
      destruct (tracks h !! Path t); injection Ho as _ <-; [done|]. by case_match.
    + intros Hon. eapply announced_open_insert; [done| |by apply Ha]. cbn in Hop. congruence.
  - eapply Hwork; [by eapply worked_record|done].
  - eapply Hwork; [by eapply worked_redact|done].
  - destruct Hg as (Hi & Hop & Ha). split_and!; [by eapply inv_release|done|].
    intros Hon. by apply announced_update, Ha.
  - by apply Hclose.
Qed.

Lemma good_new store o h : NewHandler store o = Ok h → good (OnOpen o) (mkState h ∅).
Proof.
  unfold NewHandler. destruct store; [|done]. destruct (_ <? 0)%Z; [done|]. intros [= <-].
  split_and!; [constructor; cbn; [done|intros ??; by rewrite lookup_empty..]|done|].
  intros _. constructor; cbn; [by intros|]. intros i t g d. by rewrite lookup_nil.
Qed.

Lemma good_reachable store o h s :
  NewHandler store o = Ok h → rtc step (mkState h ∅) s → good (OnOpen o) s.
Proof.
  intros Hnew Hr. apply good_new in Hnew. induction Hr as [|s1 s2 s3 Hs _ IH]; [done|].
  by eapply IH, good_step.
Qed.

(** ** The handlers are made of these steps *)

Section Serve.
Context (i : nat) (fl : gmap nat phase) (Hfree : fl !! i = None).

Lemma steps_open fuel t h r h' :
  returns (open fuel t h) (r, h') →
  rtc step (mkState h fl) (mkState h' (match r with Ok id => <[i := Holding t id]> fl | Err _ => fl end)).
Proof using Hfree.
  intros H. unfold open in H. apply returns_bind in H as (now & _ & H).
  destruct (open_lookup (Path t) now h) as [got h1] eqn:Ho. destruct got as [id|].
  { injection H as <- <-. apply rtc_once. by eapply StepFound. }
  eapply rtc_l; [by eapply StepMissed|].
  apply returns_bind in H as ([w|er] & Hw & H).
  - destruct (open_insert t w h1) as [id h2] eqn:Hins. injection H as <- <-. apply rtc_once.
    rewrite <-(insert_insert_eq fl i (Holding t id) (Opening t)).
    eapply StepOpened; [apply lookup_insert_eq|exact Hw|exact Hins].
  - injection H as <- <-. apply rtc_once.
    assert (step (mkState h1 (<[i := Opening t]> fl)) (mkState h1 (delete i (<[i := Opening t]> fl)))) as Hs.
    { eapply StepNotOpened, lookup_insert_eq. }
    by rewrite delete_insert_id in Hs.
Qed.

Lemma step_release t id now h :
  step (mkState h (<[i := Holding t id]> fl)) (mkState (release id now h) fl).
Proof using Hfree.
  assert (step (mkState h (<[i := Holding t id]> fl))
    (mkState (release id now h) (delete i (<[i := Holding t id]> fl)))) as Hs.
  { eapply StepRelease, lookup_insert_eq. }
  by rewrite delete_insert_id in Hs.
Qed.

Lemma steps_released t id resp h resp' h' :
  returns (released id resp h) (resp', h') →
  rtc step (mkState h (<[i := Holding t id]> fl)) (mkState h' fl).
Proof using Hfree.
  intros H. unfold released in H. apply returns_bind in H as (now & _ & H). injection H as _ <-.
  apply rtc_once, step_release.
Qed.

Lemma steps_serveCreate fuel h r resp h' :
  returns (serveCreate fuel h r) (resp, h') → rtc step (mkState h fl) (mkState h' fl).
Proof using Hfree.
  unfold serveCreate. destruct (resolve h r Create) as [rs|[t s]]; [by intros [= _ <-]|].
  intros (got & _ & H)%returns_bind. cbv zeta in H. destruct (match got with Ok _ => _ | Err _ => _ end).
  { by injection H as _ <-. }
  apply returns_bind in H as ([[id|er] h1] & Ho & H); apply steps_open in Ho.
  - apply returns_bind in H as (now & _ & H). injection H as _ <-.
    etrans; [exact Ho|]. apply rtc_once, step_release.
  - injection H as _ <-. exact Ho.
Qed.

Lemma steps_serveRecord fuel h r resp h' :
  returns (serveRecord fuel h r) (resp, h') → rtc step (mkState h fl) (mkState h' fl).
Proof using Hfree.
  unfold serveRecord. destruct (resolve h r Write) as [rs|[t s]]; [by intros [= _ <-]|].
  destruct (_ <? _)%nat; [by intros [= _ <-]|].
  intros ([[id|er] h1] & Ho & H)%returns_bind; apply steps_open in Ho; [|by injection H as _ <-].
  etrans; [exact Ho|].
  destruct (readBody h1 r) as [payload|rs]; [|by eapply steps_released].
  destruct (_ || _); [by eapply steps_released|].
  destruct (marshalRecord _) as [data|]; [|by eapply steps_released].
  apply returns_bind in H as ([rs h2] & Hrec & H).
  eapply rtc_l; [eapply StepRecord; [apply lookup_insert_eq|exact Hrec]|]. by eapply steps_released.
Qed.

Lemma steps_serveRedact fuel h r resp h' :
  returns (serveRedact fuel h r) (resp, h') → rtc step (mkState h fl) (mkState h' fl).
Proof using Hfree.
  unfold serveRedact. destruct (resolve h r Redact) as [rs|[t s]]; [by intros [= _ <-]|].
  destruct (if String.eqb _ _ then _ else _) as [target|]; [|by intros [= _ <-]].
  intros ([rs|[lt reader]] & _ & H)%returns_bind; [by injection H as _ <-|].
  apply returns_bind in H as ([info|er] & _ & H); [|by injection H as _ <-].
  apply returns_bind in H as ([[id|er] h1] & Ho & H); apply steps_open in Ho; [|by injection H as _ <-].
  etrans; [exact Ho|].
  apply returns_bind in H as ([[st reply] h2] & Hrec & H).
  eapply rtc_l; [eapply StepRedact; [apply lookup_insert_eq|exact Hrec]|]. by eapply steps_released.
Qed.

Lemma steps_serveHistory fuel h r resp h' :
  returns (serveHistory fuel h r) (resp, h') → rtc step (mkState h fl) (mkState h' fl).
Proof using.
  unfold serveHistory. destruct (resolve h r Read) as [rs|[t s]]; [by intros [= _ <-]|].
  destruct (page_limit _) as [lim|]; [|by intros [= _ <-]].
  destruct (if String.eqb _ _ then _ else _) as [before|]; [|by intros [= _ <-]].
  intros ([rs|[lt reader]] & _ & H)%returns_bind; [by injection H as _ <-|].
  apply returns_bind in H as ([groups|er] & _ & H); [|by injection H as _ <-].
  apply returns_bind in H as ([entries|er] & _ & H); [|by injection H as _ <-].
  cbv zeta in H. apply returns_bind in H as (now & _ & H). injection H as _ <-.
  apply rtc_once. constructor.
Qed.
End Serve.

(** * Properties *)

(** C21 Every request is a run of the steps, whatever the store answers it: what
    [ServeHTTP] does to the handler is done by a request that was not in flight,
    step by step, and leaves the others in flight as they were; so what holds of
    all runs of steps holds of all interleavings of requests. *)
Theorem requests_are_steps fuel h m r resp h' fl i :
  fl !! i = None → returns (ServeHTTP fuel h m r) (resp, h') →
  rtc step (mkState h fl) (mkState h' fl).
Proof.
  intros Hi. destruct m; cbn [ServeHTTP]; intros H.
  - by eapply steps_serveCreate.
  - by eapply steps_serveRecord.
  - by eapply steps_serveHistory.
  - by eapply steps_serveRedact.
Qed.

(** C7 A track has one writer in the process: in every state that requests in any
    interleaving reach from a new handler, all requests that hold a path hold the
    same track, which the handler's map leads to and whose count of users is the
    number of its holders, so closing idle tracks never closes a held one. *)
Theorem one_writer_per_track store o h s :
  NewHandler store o = Ok h → rtc step (mkState h ∅) s →
  ∀ r t id, flights s !! r = Some (Holding t id) →
    tracks (handler s) !! Path t = Some id ∧
    (∃ tr, objects (handler s) !! id = Some tr ∧ Path (tk_Track tr) = Path t ∧
       users tr = Z.of_nat (holders (flights s) id)) ∧
    (∀ r' t' id', flights s !! r' = Some (Holding t' id') → Path t' = Path t ↔ id' = id) ∧
    ∀ now, tracks (closeIdle now (handler s)) !! Path t = Some id.
Proof.
  intros Hnew Hs r t id Hr. destruct (good_reachable _ _ _ _ Hnew Hs) as [Hi _].
  apply (in_held s Hi) in Hr as Hk. destruct (in_map s Hi _ _ Hk) as (tr & Htr & Hp).
  split_and!; [done| | |].
  - exists tr. split_and!; [done|done|by apply (in_users s Hi)].
  - intros r' t' id' Hr'. apply (in_held s Hi) in Hr'. split; [congruence|]. intros ->.
    destruct (in_map s Hi _ _ Hr') as (tr' & Htr' & Hp'). congruence.
  - intros now. destruct s as [hd fl]. by apply (in_held _ (inv_closeIdle now hd fl Hi) r).
Qed.

(** The order of the hooks: however requests interleave, with an [OnOpen] hook
    every record handed to [OnRecord] comes after its track was handed to
    [OnOpen]. *)
Theorem opened_before_recorded store o h s i t g record :
  NewHandler store o = Ok h → OnOpen o = true → rtc step (mkState h ∅) s →
  events (handler s) !! i = Some (Recorded t g record) →
  ∃ j, j < i ∧ events (handler s) !! j = Some (Opened t).
Proof.
  intros Hnew Hon Hs Hev. destruct (good_reachable _ _ _ _ Hnew Hs) as (_ & _ & Ha).
  by eapply (an_order _ (Ha Hon)).
Qed.

(** ** At a concrete handler *)

(** What an execution returns a program may return. *)
Lemma run_returns `{Store St} {A} (q : prog A) (w w' : world St) a :
  run q w = Some (a, w') → returns q a.
Proof.
  revert w. induction q as [b|o k IH|]; intros w; cbn [run returns]; [by intros [= <- _]| |done].
  destruct (world_step o w) as [r w1]. intros Hrun. exists r. by eapply IH.
Qed.

Definition cam_world_calm : world mem.Store := mkWorld cam_mem [5%Z] [].

Definition hooked : Options :=
  mkOptions None "" (mkLimit (of_int 0) 0) (mkLimit (of_int 0) 0) true 0 true 0 (mkConfig 0).

Definition cam_new : Handler :=
  mkHandler hooked DefaultMaxBodyBytes DefaultTrackIdleTimeout ∅ None ∅ 0 [].

Definition cam_t : Track := mkTrack "/site" "cam".

Definition cam_post : request := mkRequest "site/cam" "k" [] "{}" false.

(** The handler holding the track, and the handler after a post. *)
Definition cam_open : Handler :=
  match run (open 9 cam_t cam_new) cam_world_calm with Some ((_, h), _) => h | None => cam_new end.
Definition cam_posted : response * Handler :=
  match run (ServeHTTP 9 cam_new POST cam_post) cam_world_calm with
  | Some (r, _) => r
  | None => (internalError, cam_new)
  end.

Lemma cam_posted_returns : returns (ServeHTTP 9 cam_new POST cam_post) cam_posted.
Proof.
  assert (option_map (λ _, ()) (run (ServeHTTP 9 cam_new POST cam_post) cam_world_calm) = Some ()) as Hsome
    by (by vm_compute).
  unfold cam_posted. destruct (run (ServeHTTP 9 cam_new POST cam_post) cam_world_calm) as [[r w]|] eqn:E.
  - by eapply run_returns.
  - done.
Qed.

(** One request, holding the track. *)
Definition cam_flights : gmap nat phase := {[7 := Holding cam_t 0]}.

Lemma cam_open_steps :
  rtc step (mkState cam_new ∅) (mkState cam_open cam_flights).
Proof.
  assert (option_map (λ x, x.1.1) (run (open 9 cam_t cam_new) cam_world_calm) = Some (Ok 0)) as Hok
    by (by vm_compute).
  unfold cam_open. destruct (run (open 9 cam_t cam_new) cam_world_calm) as [[[r h] w]|] eqn:E; [|done].
  injection Hok as ->. apply run_returns in E. exact (steps_open 7 ∅ eq_refl 9 cam_t cam_new (Ok 0) h E).
Qed.

Lemma requests_are_steps_witness :
  rtc step (mkState cam_new ∅) (mkState cam_posted.2 ∅).
Proof.
  apply (requests_are_steps 9 cam_new POST cam_post cam_posted.1 cam_posted.2 ∅ 7); [done|].
  rewrite <-surjective_pairing. apply cam_posted_returns.
Defined.

Lemma one_writer_per_track_witness :
  tracks cam_open !! Path cam_t = Some 0 ∧
  (∃ tr, objects cam_open !! 0 = Some tr ∧ Path (tk_Track tr) = Path cam_t ∧
     users tr = Z.of_nat (holders cam_flights 0)) ∧
  (∀ r' t' id', cam_flights !! r' = Some (Holding t' id') → Path t' = Path cam_t ↔ id' = 0) ∧
  ∀ now, tracks (closeIdle now cam_open) !! Path cam_t = Some 0.
Proof.
  eapply (one_writer_per_track (Some tt) hooked cam_new (mkState cam_open cam_flights)).
  - reflexivity.
  - apply cam_open_steps.
  - by apply lookup_singleton_eq.
Defined.

(** A track announced, and then a record of it. *)
Definition announced_record (l : list event) : Prop :=
  match l with [Opened t; Recorded t' _ _] => t = cam_t ∧ t' = cam_t | _ => False end.

Lemma announced_record_lookup l :
  announced_record l → ∃ g record, l !! 1 = Some (Recorded cam_t g record).
Proof. destruct l as [|[] [|[] []]]; simpl; naive_solver. Qed.

Lemma cam_posted_events : announced_record (events cam_posted.2).
Proof. vm_compute. by split. Qed.

Lemma opened_before_recorded_witness :
  ∃ j, j < 1 ∧ events cam_posted.2 !! j = Some (Opened cam_t).
Proof.
  destruct (announced_record_lookup _ cam_posted_events) as (g & record & Hev).
  eapply (opened_before_recorded (Some tt) hooked cam_new (mkState cam_posted.2 ∅)).
  - reflexivity.
  - reflexivity.
  - eapply steps_serveRecord with (i := 7); [done|]. pose proof cam_posted_returns as H.
    rewrite (surjective_pairing cam_posted) in H. exact H.
  - exact Hev.
Defined.
