(* ===== verification/FsRuns.v ===== *)
(** * The ledger on the filesystem

    The contract [FsProps] proves of the backend's methods, carried to whole
    executions of the ledger over it, and what a write that fails leaves. *)

From S2P Require Import Prelude GoStd Json Store MemStore Group Manifest Track Writer Reader.
From S2P Require Import EpochLog WriterLog Isolation ReaderLog Fixtures WriterProps ReaderProps TrackProps.
From S2P Require Import Paths FsStore FsProps.
Import fs.
#[local] Open Scope string_scope.
#[local] Open Scope list_scope.

(** * Properties *)

(** C36 The filesystem backend keeps the contract of the store interface. On keys
    that can be files of one tree, each method, whichever of its system calls
    fail, answers and changes the objects as [op_spec] says; with no failing
    call as it says without failures, given a free name for a temporary file.
    Temporary files left behind show under no key. The one exception is a
    [Create] whose write fails. *)
Theorem fs_keeps_contract K fl (s : fs.Store) m o t :
  keys_ok K → disk_ok K s → shows K s m → on_key K o → written o s →
  (fl = false → fs.outcomes s = []) → (∀ k, fl = false → op_key o = Some k → temp_left s k) →
  is_i64 t →
  disk_ok K (do_op None t o s).2 ∧
  ∃ m', shows K (do_op None t o s).2 m' ∧ op_spec fl o m (do_op None t o s).1 m'.
Proof.
  intros. by apply (do_op_keeps K fl s m o t).
Qed.

(** C38 The exception: a [Create] whose write fails part-way reports an error that
    says nothing of the object, yet leaves the key holding the bytes written: the
    next [Get] returns them, and the next [Create] is refused. *)
Theorem fs_failed_write_leaves_object K (s : fs.Store) k data data' n :
  keys_ok K → disk_ok K s → K k → fs.files s !! k = None →
  fs.outcomes s = [fs.Done; fs.Done; fs.Torn n] →
  let '(r, s1) := fs.Create None s k data in
  r = Err [] ∧
  (fs.Get None s1 k).1 = Ok (String.substring 0 n data, fs.version (String.substring 0 n data)) ∧
  match (fs.Create None s1 k data').1 with Ok _ => False | Err e => errors_Is e ErrExist = true end.
Proof.
  intros HK Hs Hk Hnone Ho. destruct s as [f ds os ts]. cbn in Ho. subst os.
  set (s := mkStore f ds [Done; Done; Torn n] ts) in *.
  destruct (Create_write_fails K HK s k data n Hs Hk Hnone) as (s1 & -> & Hs1 & Hf & Hout);
    [done..|].
  assert (outcomes s1 = []) as Hcalm by by rewrite Hout.
  set (torn := String.substring 0 n data) in *.
  set (m := (λ x, (x, version x)) <$> files s1 : objs).
  assert (shows K s1 m) as Hm by by intros k' _; apply lookup_fmap.
  assert (m !! k = Some (torn, version torn)) as Hk1 by by unfold m; rewrite lookup_fmap, Hf.
  split; [done|]. split.
  - destruct (Get_keeps K HK false s1 m k Hs1 Hm Hk (λ _, Hcalm)) as (_ & m' & _ & _ & H).
    cbn [resp] in H. destruct (fs.Get None s1 k).1 as [dv|e]; [by rewrite Hk1 in H; simplify_eq|].
    destruct H as [_ H]. destruct (errors_Is e ErrNotExist); congruence.
  - destruct (Create_keeps K HK false s1 m k data' Hs1 Hm Hk (λ _, Hcalm)) as (_ & m' & _ & H).
    { by destruct s1 as [? ? os ?]; simpl in Hcalm; subst os. }
    cbn [resp] in H. destruct (fs.Create None s1 k data').1 as [v|e].
    + destruct H as [H _]. congruence.
    + destruct H as (_ & _ & H). by destruct (errors_Is e ErrExist).
Qed.


(** * On a concrete tree *)

Lemma cam_keys_ok : keys_ok (track_key cam).
Proof. apply track_keys_ok; [by repeat constructor|done|by repeat constructor]. Qed.

(** The tree a creation cut short after its first call leaves. *)
Definition cam_disk (os : list outcome) : fs.Store :=
  mkStore {[rootKey cam := encodeManifest cam_tr]} {["site"; "site/cam"]} os ["1"; "2"; "3"].

Definition cam_disk_objs : objs :=
  <[rootKey cam := (encodeManifest cam_tr, version (encodeManifest cam_tr))]> ∅.

Lemma cam_disk_ok os : disk_ok (track_key cam) (cam_disk os).
Proof.
  constructor; simpl.
  - intros n. rewrite lookup_singleton_is_Some. intros <-. left. by exists KRoot.
  - intros n Hn. exists (rootKey cam). split; [by exists KRoot|]. unfold ancestors. vm_compute.
    set_solver.
  - by repeat constructor.
Qed.

Lemma cam_disk_shows os : shows (track_key cam) (cam_disk os) cam_disk_objs.
Proof.
  intros k _. simpl. unfold cam_disk_objs. rewrite lookup_insert. case_decide as H.
  - by rewrite H, lookup_singleton_eq.
  - by rewrite lookup_singleton_ne.
Qed.

(** The thirty-first system call fails. *)
Definition cam_disk_world : world fs.Store :=
  mkWorld (cam_disk (repeat Done 30 ++ [Fails])) [5%Z] [].

Lemma cam_disk_world_ok : disk_world (track_key cam) cam_disk_world cam_disk_objs.
Proof.
  split; [apply cam_disk_ok|apply cam_disk_shows| |done]. by repeat constructor.
Qed.

Definition cam_life : list (bool * list call) :=
  [(false, [CAppend 10 "a"; CAppend 10 "b"]); (true, [CAppendGroup cam_meta "b"])].

(** The keys that life is about. *)
Definition cam_life_keys : list objkey :=
  [KRoot] ++ concat (map (λ e, [KLog e; KHead e] ++
    map (KDelta e) [0; 1; 2]%N ++ map (KGroup e) [0; 1; 2]%N) [1; 2]%N).

Lemma cam_life_stays :
  stays_on (track_key cam) (history 9 cam (mkConfig 0) cam_life) cam_disk_world.
Proof.
  apply (stays_onb_sound _ (map (render cam) cam_life_keys)); [|vm_compute; reflexivity].
  intros k (key & -> & Hkey)%list_elem_of_fmap. exists key. split; [|done].
  revert key Hkey. apply Forall_forall. repeat (apply Forall_cons_2 || apply Forall_nil_2); by vm_compute.
Qed.

Lemma fs_keeps_contract_witness :
  disk_ok (track_key cam) (cam_disk []) ∧
  disk_ok (track_key cam) (do_op None 0 (OCreate (epochLogKey cam 1) "x") (cam_disk [])).2 ∧
  ∃ m', shows (track_key cam) (do_op None 0 (OCreate (epochLogKey cam 1) "x") (cam_disk [])).2 m' ∧
    op_spec false (OCreate (epochLogKey cam 1) "x") cam_disk_objs
      (do_op None 0 (OCreate (epochLogKey cam 1) "x") (cam_disk [])).1 m'.
Proof.
  split; [apply cam_disk_ok|].
  apply (fs_keeps_contract (track_key cam) false (cam_disk []) cam_disk_objs
    (OCreate (epochLogKey cam 1) "x") 0 cam_keys_ok (cam_disk_ok []) (cam_disk_shows [])).
  - intros k [= <-]. exists (KLog 1). split; [by vm_compute|done].
  - reflexivity.
  - reflexivity.
  - intros k _ [= <-]. exists "1". split; [by left|]. by vm_compute.
  - by vm_compute.
Defined.

Lemma fs_failed_write_leaves_object_witness :
  let '(r, s1) := fs.Create None (cam_disk [Done; Done; Torn 2]) (epochLogKey cam 1) "abcd" in
  r = Err [] ∧
  (fs.Get None s1 (epochLogKey cam 1)).1 =
    Ok (String.substring 0 2 "abcd", version (String.substring 0 2 "abcd")) ∧
  match (fs.Create None s1 (epochLogKey cam 1) "abcd").1 with
  | Ok _ => False | Err e => errors_Is e ErrExist = true end.
Proof.
  apply (fs_failed_write_leaves_object (track_key cam) (cam_disk [Done; Done; Torn 2])
    (epochLogKey cam 1) "abcd" "abcd" 2 cam_keys_ok (cam_disk_ok _)).
  - exists (KLog 1). split; [by vm_compute|done].
  - by vm_compute.
  - reflexivity.
Defined.

