(* ===== verification/RemoteRuns.v ===== *)
(** * The ledger over a server

    Whole executions of the ledger over a backend whose methods call a server, the
    SQL and the object-store backend. What the theorems say of programs holds of
    them, however the server's calls fail, as long as no other client changes the
    objects meanwhile. *)

From S2P Require Import Prelude GoStd Json Store MemStore Group Manifest Track Writer Reader.
From S2P Require Import EpochLog WriterLog Isolation ReaderLog Fixtures WriterProps ReaderProps.
From S2P Require Import TrackProps Versions Remote DbStore DbProps Sha256 Dates Sign BucketStore BucketProps.
#[local] Open Scope string_scope.
#[local] Open Scope list_scope.

(** ** Backends whose methods are programs over calls *)

(** Run alone, the methods keep the store's contract for swaps of versions in [V],
    the versions of the objects held being among them. *)
Class Contract {Op} {Ans : Op → Type} {Sv} `{Server Op Ans Sv}
    (method : ∀ o, remote Ans (resp o)) (V : Version → Prop) : Prop := {
  issues_none : V NoVersion;
  issues_held d : sane d → map_Forall (λ _ dv, V dv.2) (view d);
  keeps_contract o d : sane d → Versions.expected V o → o ≠ ONow →
    sane (run_alone (method o) d).2 ∧
    op_spec true o (view d) (run_alone (method o) d).1 (view (run_alone (method o) d).2);
}.

Section Serve.
Context {Op : Type} {Ans : Op → Type} {Sv : Type} `{!Server Ans Sv}.
Context (method : ∀ o, remote Ans (resp o)).

(** One operation; the readings of the process's clock are a list. *)
Definition serve_op (o : op) (clock : list Z) (d : Sv) : resp o * list Z * Sv :=
  match o with
  | ONow => let '(t, clock') := next_now clock in (t, clock', d)
  | o => let '(r, d') := run_alone (method o) d in (r, clock, d')
  end.

(** A program over the server. *)
Fixpoint serve {A} (p : prog A) (clock : list Z) (d : Sv) : option (A * Sv) :=
  match p with
  | Ret a => Some (a, d)
  | Do o k => let '(r, clock', d') := serve_op o clock d in serve (k r) clock' d'
  | OutOfFuel => None
  end.

Context (V : Version → Prop) {HC : Contract method V}.

Lemma answered_held o m r m' :
  op_spec true o m r m' → map_Forall (λ _ dv, V dv.2) m → map_Forall (λ _ dv, V dv.2) m' →
  Versions.answered V o r.
Proof using.
  intros Hs Hm Hm'. destruct o as [key|key data|key data expect|key|]; cbn in *; [| | |done|done].
  - destruct Hs as [-> Hs]. destruct r as [[data v]|]; [|done]. by apply (Hm _ _ Hs).
  - destruct r as [v|]; [|done]. destruct Hs as (_ & _ & ->). by apply (Hm' _ _ (lookup_insert_eq _ _ _)).
  - destruct r as [v|]; [|done]. destruct Hs as (_ & _ & ->). by apply (Hm' _ _ (lookup_insert_eq _ _ _)).
Qed.

Lemma serve_op_sound o clock d :
  sane d → Versions.expected V o → Forall is_i64 clock →
  let '(r, clock', d') := serve_op o clock d in
  sane d' ∧ Forall is_i64 clock' ∧ op_spec true o (view d) r (view d') ∧ Versions.answered V o r.
Proof using HC.
  intros Hd Ho Hc. destruct (decide (o = ONow)) as [->|Hne].
  { cbn [serve_op]. destruct (next_now_ok clock Hc). destruct (next_now clock). by split_and!. }
  destruct (keeps_contract o d Hd Ho Hne) as [Hd' Hs].
  assert (serve_op o clock d = let '(r, d') := run_alone (method o) d in (r, clock, d')) as -> by by destruct o.
  destruct (run_alone (method o) d) as [r d']. split_and!; [done|done|done|].
  eapply answered_held; [exact Hs|by apply issues_held..].
Qed.

(** An execution of a program that swaps for versions it was answered. *)
Lemma serve_wp {A} track R (p : prog A) Q clock d :
  sane d → Forall is_i64 clock → swaps track V R p → wp (op_spec true) p Q (view d) →
  ∃ a d', serve p clock d = Some (a, d') ∧ sane d' ∧ Q a (view d').
Proof using HC.
  revert clock d. induction p as [a|o k IH|]; intros clock d Hd Hc Hsw HQ; [by exists a, d| |done].
  destruct Hsw as [Ho Hk]. pose proof (serve_op_sound o clock d Hd (ledger_op_expected _ _ _ Ho) Hc) as H.
  cbn [serve]. destruct (serve_op o clock d) as [[r clock'] d']. destruct H as (Hd' & Hc' & Hs & Ha).
  apply (IH r clock' d' Hd' Hc'); [by apply Hk|by apply HQ].
Qed.
End Serve.

(** ** The two backends *)

#[export] Instance db_contract {Db} `{!db.Database Db, !db.DatabaseLaws Db} :
  Contract (Sv := Db) db.method plain_version.
Proof.
  split.
  - intros n. done.
  - intros d Hd key dv Hk. cbn in Hk. unfold db.objects_of in Hk. rewrite lookup_fmap in Hk.
    destruct (db.table_rows d !! key) as [[data n]|] eqn:E; [|done]. injection Hk as <-. cbn.
    intros n'. rewrite FormatInt_parse; [by intros [= ->]|]. by apply (db.typed_bigint d Hd key _ E).
  - intros o d Hd Ho Hne. split.
    + apply run_alone_sane; [|done]. intros s d0 Hd0. by apply db.query_sound.
    + apply db_alone_keeps_contract; [done|]. by destruct o.
Qed.

#[export] Instance bucket_contract {Sv} `{!Service Sv, !ServiceLaws Sv} s :
  Contract (H := bucket_server s) (bucket.method s) any.
Proof.
  split; [done|done|]. intros o d Hd _ Hne. pose proof (bucket_alone_keeps_contract s o d Hd Hne) as H.
  by destruct (run_alone (HSv := bucket_server s) (bucket.method s o) d).
Qed.

(** * Properties *)

(** C15 Crash safety over a server: processes that open a track and append to it,
    begin epochs and seal, over a backend whose methods call a server, run to their
    end whichever calls fail; what is stored is a well-formed track whose groups
    only grew, and every row reported committed is among them, in order. *)
Theorem remote_history_keeps_acknowledged {Op} {Ans : Op → Type} {Sv} `{!Server Ans Sv}
    method V `{!Contract method V} p tr fuel cfg ls clock (d : Sv) l logs :
  sane d → Forall is_i64 clock →
  root_wf p tr → track_ok p tr (view d) l logs → TrackPath_validate p = None →
  Forall (λ x, Forall call_ok x.2) ls →
  (N.of_nat (length (groups_of logs)) + N.of_nat (appends ls) < 2 ^ 62)%N →
  length (groups_of logs) + appends ls < fuel →
  ∃ rows d' l' logs' new, serve method (history fuel p cfg ls) clock d = Some (rows, d') ∧ sane d' ∧
    track_ok p tr (view d') l' logs' ∧ groups_of logs' = groups_of logs ++ new ∧
    rows `sublist_of` new ∧ length new <= appends ls.
Proof.
  intros Hd Hc [Hp Hwf Hver Htr] Hok Hval Hcalls Hroom Hfuel.
  pose proof (history_grows p tr Hp Hwf Hver Htr true fuel cfg ls (view d) l logs
    Hok Hval Hcalls Hroom Hfuel) as Hwp.
  destruct (serve_wp method V p any _ _ clock d Hd Hc (swaps_history p V issues_none fuel cfg ls) Hwp)
    as (rows & d' & Hrun & Hd' & l' & logs' & Hok' & (new & Hnew & Hsub & Hlen & _) & _).
  by exists rows, d', l', logs', new.
Qed.

(** ** On both *)

(** The table, and the bucket, a creation cut short after its first call leaves;
    the thirteenth call to come fails, and some later ones. *)
Definition cam_table : DbProps.demo :=
  DbProps.mkDemo {[rootKey cam := (encodeManifest cam_tr, 1%Z)]}
    (repeat false 12 ++ [true; false; false; true]).

Definition cam_bucket : BucketProps.demo :=
  BucketProps.mkDemo {["/media/live/" +:+ rootKey cam := (encodeManifest cam_tr, demo_etag (encodeManifest cam_tr))]}
    (repeat false 12 ++ [true; true; true; false; true]).

Lemma cam_table_view : view cam_table = <[rootKey cam := (encodeManifest cam_tr, "1")]> ∅.
Proof. cbn [view db.db_server cam_table db.table_rows demo_db d_rows]. unfold db.objects_of. by rewrite map_fmap_singleton. Qed.

Lemma cam_bucket_view :
  view (Server := bucket_server demo_store) cam_bucket =
    <[rootKey cam := (encodeManifest cam_tr, demo_etag (encodeManifest cam_tr))]> ∅.
Proof.
  cbn [view bucket_server cam_bucket held demo_service d_held]. rewrite <-insert_empty.
  etrans; [apply (under_insert "/media/live/" ∅ (rootKey cam))|reflexivity].
Qed.

Lemma cam_half_at v : track_ok cam cam_tr (<[rootKey cam := (encodeManifest cam_tr, v)]> ∅) 1 [].
Proof.
  apply (created_half cam cam_schema ∅ 7 v); [reflexivity|reflexivity|by repeat split|by vm_compute|].
  intros k _. apply lookup_empty.
Qed.

Lemma remote_history_keeps_acknowledged_witness :
  let ls := [(false, [CAppend 10 "a"; CAppend 10 "b"]); (true, [CAppendGroup cam_meta "b"])] in
  (∃ rows d' l' logs' new, serve db.method (history 9 cam (mkConfig 0) ls) [5%Z] cam_table = Some (rows, d') ∧
    sane d' ∧ track_ok cam cam_tr (view d') l' logs' ∧ groups_of logs' = [] ++ new ∧
    rows `sublist_of` new ∧ length new <= 3) ∧
  (∃ rows d' l' logs' new,
    serve (bucket.method demo_store) (history 9 cam (mkConfig 0) ls) [5%Z] cam_bucket (Server0 := bucket_server demo_store)
      = Some (rows, d') ∧
    in_order d' ∧ track_ok cam cam_tr (view (Server := bucket_server demo_store) d') l' logs' ∧
    groups_of logs' = [] ++ new ∧ rows `sublist_of` new ∧ length new <= 3).
Proof.
  intros ls.
  assert (Forall (λ x, Forall call_ok x.2) ls).
  { repeat (apply Forall_cons_2 || apply Forall_nil_2); vm_compute; repeat split; discriminate. }
  assert (Forall is_i64 [5%Z]) by by repeat constructor.
  split.
  - apply (remote_history_keeps_acknowledged db.method plain_version cam cam_tr 9 (mkConfig 0) ls [5%Z] cam_table 1 []);
      [|done|apply cam_root_wf|rewrite cam_table_view; apply cam_half_at|reflexivity|done|vm_compute; reflexivity|vm_compute; lia].
    by apply map_Forall_singleton.
  - apply (remote_history_keeps_acknowledged (Server0 := bucket_server demo_store) (bucket.method demo_store) any cam cam_tr 9 (mkConfig 0) ls [5%Z] cam_bucket 1 []);
      [|done|apply cam_root_wf|rewrite cam_bucket_view; apply cam_half_at|reflexivity|done|vm_compute; reflexivity|vm_compute; lia].
    by apply map_Forall_singleton.
Defined.

(** ** What modelling showed *)

(** A service that has no such bucket. *)
#[local] Instance no_bucket : Server bucket.answer unit := {
  exec c d :=
    match c return bucket.answer c * unit with
    | bucket.Exchange _ => (demo_answer 404 "" "", d)
    | bucket.Clock => (0%Z, d)
    end;
  failed c _ := false;
  view _ := ∅;
  sane _ := True;
}.

(** [Create] in a bucket that does not exist answers success and no version, where
    [Get] answers that the object does not exist. *)
Example create_in_missing_bucket :
  (run_alone (HSv := no_bucket) (bucket.Create demo_store "head" "data") tt).1 = Ok NoVersion ∧
  (run_alone (HSv := no_bucket) (bucket.Get demo_store "head") tt).1 = Err [ErrNotExist].
Proof. split; vm_compute; reflexivity. Qed.

(** [Swap] of the SQL backend for [+1], which it never issued, replaces the object
    of version [1]. *)
Example swap_unissued_version :
  let d := DbProps.mkDemo {["head" := ("old", 1%Z)]} [] in
  (run_alone (db.Swap "head" "new" "+1") d).1 = Ok "2" ∧
  d_rows (run_alone (db.Swap "head" "new" "+1") d).2 = {["head" := ("new", 2%Z)]}.
Proof. split; vm_compute; reflexivity. Qed.

(** The pairs of a query are sorted as texts, not by name: [a-b=2] comes before
    [a=1]. *)
Example query_sorted_as_text :
  canonicalQuery {["a" := ["1"]; "a-b" := ["2"]]} = "a-b=2&a=1" ∧ string_le "a" "a-b".
Proof. split; vm_compute; reflexivity. Qed.
