(* ===== verification/Findings.v ===== *)
(** * Runs that show where the code departs from what it says

    Each example executes a short program against the in-memory backend, with
    the store calls that fail given as a list, and states what comes out. *)

From S2P Require Import Prelude GoStd Json Store MemStore Group Manifest Track Writer Redact Reader.
From S2P Require Import WriterProps ReaderProps Paths FsStore Tail Inspect.
#[local] Open Scope string_scope.
#[local] Open Scope list_scope.

(** A schema of millisecond units stamped by the ledger's clock. *)
Definition ms : TrackSchema := mkTrackSchema 1000 TimeSourceIngest "" "".

Definition run_mem {A} (faults : list fault) (p : prog A) : option A :=
  option_map fst (run p (mkWorld mem.New [1000%Z] faults)).

(** Store calls that succeed, then one that fails before taking effect. *)
Definition then_fail (n : nat) : list fault := repeat NoFault n ++ [FailBefore []].

(** Create a track, take a writer of it, and go on with both. *)
Definition with_writer {A} (path : TrackPath) (k : Track → Writer → prog A) : prog (option A) :=
  t ← ledger.Create path ms (mkConfig 0);
  match t with
  | Err _ => mret None
  | Ok t =>
      r ← Track_Writer 20 t;
      match r with
      | (t, Ok w) => a ← k t w; mret (Some a)
      | (_, Err _) => mret None
      end
  end.

(** [Append] a group of duration 10. *)
Definition append (w : Writer) : prog (Writer * (GroupInfo * option error)) := Append 20 w 10 "x".

(** [AppendGroup] of a group with the given sequence, anchor and duration. *)
Definition append_at (w : Writer) (seq : N) (media duration : Z) : prog (Writer * (GroupInfo * option error)) :=
  AppendGroup 20 w {| zeroGroupInfo with
    ID := NewGroupID 0 seq; MediaTime := media; Duration := duration |} "y".

(** The sequences a list of rows carries, and those a new reader streams. *)
Definition sequences (gs : list GroupInfo) : list N := map (λ g, Sequence (ID g)) gs.

Definition replayed (t : Track) : prog (list N * option error) :=
  r ← Reload t;
  out ← replay 20 20 r.1;
  mret (sequences out.1, out.2).

(** ** Sealing a writer whose reload failed *)

(** Three groups are acknowledged; an append fails, and the reload the next one
    starts fails part-way, leaving the writer with the first open group and the
    old next delta. *)
Definition seal_after_failed_reload : prog (option (list N * list bool * option error * (list N * option error))) :=
  with_writer "a" (λ t w,
    a ← append w; b ← append a.1; c ← append b.1;
    d ← append c.1;
    f ← append d.1;
    s ← Seal 20 f.1;
    out ← replayed t;
    mret (sequences [a.2.1; b.2.1; c.2.1],
      map (λ r, match r with None => true | Some _ => false end)
        [a.2.2; b.2.2; c.2.2; d.2.2; f.2.2], s.2, out)).

Definition reload_fails : list fault :=
  repeat NoFault 15 ++ [FailBefore []; NoFault] ++ then_fail 3.

(** [Seal] ignores [stale]: it succeeds, and two of the three acknowledged groups
    are gone. *)
Example seal_loses_acknowledged_groups :
  run_mem reload_fails seal_after_failed_reload =
  Some (Some ([0; 1; 2]%N, [true; true; true; false; false], None, ([0]%N, Some [EOF]))).
Proof. vm_compute. reflexivity. Qed.

(** ** Sealing after a swap whose outcome was lost *)

Definition seal_retried : prog (option (list (option error))) :=
  with_writer "a" (λ t w,
    a ← append w;
    s ← Seal 20 a.1; s' ← Seal 20 s.1; s'' ← Seal 20 s'.1;
    mret [s.2; s'.2; s''.2]).

(** The swap of the log root takes effect but reports failure; [Seal] does not
    mark the writer stale, so every retry fails on the version. *)
Example seal_retry_never_succeeds :
  run_mem (repeat NoFault 9 ++ [FailAfter []]) seal_retried =
  Some (Some [Some []; Some [ErrVersionMismatch]; Some [ErrVersionMismatch]]).
Proof. vm_compute. reflexivity. Qed.

(** ** A second writer after a seal *)

Definition two_writers : prog (option (option error * option error * (list N * option error))) :=
  with_writer "a" (λ t w1,
    r ← Track_Writer 20 t;
    match r with
    | (_, Err e) => mret (Some e, None, ([], None))
    | (t, Ok w2) =>
        a ← append_at w1 0 0 10;
        s ← Seal 20 a.1;
        b ← append_at w2 7 100 10;
        out ← replayed t;
        mret (a.2.2, b.2.2, out)
    end).

(** The delta number the second writer claims was reclaimed by the seal, so the
    create that should fail succeeds: the group is acknowledged below the open
    region, where no reader looks. *)
Example second_writer_acknowledged_but_lost :
  run_mem [] two_writers = Some (Some (None, None, ([0]%N, Some [EOF]))).
Proof. vm_compute. reflexivity. Qed.

(** ** A point group at the end of a sealed run *)

Definition point_at_end : prog (option (list N * list N * bool)) :=
  with_writer "a" (λ t w,
    a ← append_at w 0 0 100;
    b ← append_at a.1 1 100 0;
    r ← Track_Reader t;
    match r with
    | Err _ => mret ([], [], false)
    | Ok r =>
        open ← collect (RangeMedia 20 r 100 200);
        s ← Seal 20 b.1;
        sealed ← collect (RangeMedia 20 r 100 200);
        mret (sequences open.1, sequences sealed.1, overlapsMedia b.2.1 100 200)
    end).

(** While it is open the range yields it; once sealed the run's summary, which
    ends at its anchor, prunes it. *)
Example range_media_loses_sealed_point :
  run_mem [] point_at_end = Some (Some ([1]%N, [], true)).
Proof. vm_compute. reflexivity. Qed.

(** ** Seeking back into an earlier epoch *)

Definition seek_back : prog (option (list N * list N)) :=
  with_writer "a" (λ t w,
    a ← append w; s1 ← Seal 20 a.1;
    b ← append s1.1; s2 ← Seal 20 b.1;
    e ← NewEpoch t s2.1;
    let '(t, w, _) := e in
    c ← append_at w 5 1000 10;
    r ← Track_Reader t;
    match r with
    | Err _ => mret ([], [])
    | Ok r =>
        tip ← SeekTip r;
        found ← SeekMedia 20 tip.1 3;
        x ← Next 20 found.1;
        y ← Next 20 x.1;
        all ← replayed t;
        mret (match x.2, y.2 with Ok g, Ok h => sequences [g; h] | _, _ => [] end, all.1)
    end).

(** [position] leaves the log root of the epoch the reader was in: after the
    group sought, the stream skips the rest of its epoch. *)
Example seek_skips_groups : run_mem [] seek_back = Some (Some ([0; 5]%N, [0; 1; 5]%N)).
Proof. vm_compute. reflexivity. Qed.

(** ** Resuming after a group of an epoch the reader has not heard of *)

(** The rows a reader of the track handle [t] streams after group [id]. *)
Definition resumed (t : Track) (id : GroupID) : prog (list GroupID) :=
  r ← Track_Reader t;
  match r with
  | Err _ => mret []
  | Ok r =>
      r ← SeekAfter 20 r id;
      out ← drain 20 20 r.1;
      mret (map ID out.1)
  end.

Definition resume_in_newer_epoch : prog (option (GroupID * list GroupID)) :=
  with_writer "a" (λ t w,
    old ← ledger.Open "a" (mkConfig 0);
    a ← append w; b ← append a.1; c ← append b.1;
    e ← NewEpoch t c.1;
    let '(t, w, _) := e in
    d ← append w;
    match old with
    | Err _ => mret (0%N, [])
    | Ok old => rest ← resumed old (ID d.2.1); mret (ID d.2.1, rest)
    end).

(** The handle knows of epoch 1 only: [SeekAfter] looks for the sequence of the
    epoch 2 group there, and streams groups committed long before it. *)
Example resume_goes_back :
  run_mem [] resume_in_newer_epoch =
  Some (Some (NewGroupID 2 0, [NewGroupID 1 1; NewGroupID 1 2])).
Proof. vm_compute. reflexivity. Qed.

(** ** Sequences out of order *)

Definition out_of_order : prog (option (list (option error) * list N * list N)) :=
  with_writer "a" (λ t w,
    a ← append_at w 5 0 10;
    b ← append_at a.1 3 10 10;
    r ← Track_Reader t;
    match r with
    | Err _ => mret ([], [], [])
    | Ok r =>
        r' ← SeekAfter 20 r (ID b.2.1);
        out ← drain 20 20 r'.1;
        all ← replayed t;
        mret ([a.2.2; b.2.2], all.1, sequences out.1)
    end).

(** A smaller sequence is accepted after a larger one, so numeric order is not
    commit order, and resuming after the last group yields both again. *)
Example resume_repeats_groups :
  run_mem [] out_of_order = Some (Some ([None; None], [5; 3]%N, [5; 3]%N)).
Proof. vm_compute. reflexivity. Qed.

(** ** The sequence wraps *)

Definition wraps : prog (option (option error * list N)) :=
  with_writer "a" (λ t w,
    a ← append_at w groupSeqMask 0 10;
    b ← append a.1;
    out ← replayed t;
    mret (b.2.2, out.1)).

Example append_wraps_sequence :
  run_mem [] wraps = Some (Some (None, [groupSeqMask; 0]%N)).
Proof. vm_compute. reflexivity. Qed.

(** ** A sequence used again after a redaction *)

Definition redact_then_reuse : prog (option (result bytes * option error * result bytes)) :=
  with_writer "a" (λ t w,
    a ← append_at w 0 0 10;
    b ← append_at a.1 1 10 10;
    r ← Track_Reader t;
    match r with
    | Err e => mret (Err e, None, Err e)
    | Ok r =>
        e ← Redact t a.2.1;
        before ← ReadGroup (ObjectKey a.2.1);
        c ← append_at b.1 0 20 10;
        after ← ReadGroup (ObjectKey a.2.1);
        mret (before, c.2.2, after)
    end).

(** The payload key a redaction freed is taken by a later append, and reading the
    redacted row answers the new payload. *)
Example redacted_group_reads_again :
  run_mem [] redact_then_reuse = Some (Some (Err [ErrGroupRedacted], None, Ok "y")).
Proof. vm_compute. reflexivity. Qed.

(** ** A track whose path has a segment "groups" *)

Definition redact_in (path : TrackPath) : prog (option (option error)) :=
  with_writer path (λ t w, a ← append w; Redact t a.2.1).

Example redact_refused_under_groups :
  run_mem [] (redact_in "a/groups/b") = Some (Some (Some [ErrInvalidGroup])) ∧
  run_mem [] (redact_in "a/group/b") = Some (Some None).
Proof. vm_compute. split; reflexivity. Qed.

(** ** A path that is not UTF-8 *)

Definition bad_path : TrackPath := String (ascii_of_N 255) "".

Definition create_then_open (path : TrackPath) : prog (bool * result Track) :=
  c ← ledger.Create path ms (mkConfig 0);
  o ← ledger.Open path (mkConfig 0);
  mret (is_ok c, o).

(** It passes validation and is created, and can never be opened. *)
Example non_utf8_track_unusable :
  TrackPath_validate bad_path = None ∧
  run_mem [] (create_then_open bad_path) = Some (true, Err [ErrManifestMismatch]).
Proof. vm_compute. split; reflexivity. Qed.

(** ** The delta the head names is lost *)

Definition lose_head_delta : prog (option (option N * list N)) :=
  with_writer "a" (λ t w,
    a ← append w; b ← append a.1; c ← append b.1;
    _ ← store_Delete (deltaKey "a" 1 2);
    r ← Track_Writer 20 t;
    out ← replayed t;
    mret (match r.2 with Ok w => Some (nextDelta w) | Err _ => None end, out.1)).

(** [recover] refuses a gap below the head, but not the loss of the delta the head
    itself names: the epoch is truncated silently. *)
Example head_delta_lost_unnoticed : run_mem [] lose_head_delta = Some (Some (Some 2%N, [0; 1]%N)).
Proof. vm_compute. reflexivity. Qed.

(** ** On the filesystem *)

Definition run_fs {A} (os : list fs.outcome) (p : prog A) : option A :=
  option_map fst (run p (mkWorld (fs.mkStore ∅ ∅ os ["1"; "2"; "3"; "4"]) [1000%Z] [])).

(** Three appends, then a new writer and a new reader. *)
Definition appends_then_reopen
    : prog (option (list (option error) * option error * (list N * option error))) :=
  with_writer "a" (λ t w,
    a ← append w; b ← append a.1; c ← append b.1;
    r ← Track_Writer 20 t;
    out ← replayed t;
    mret ([a.2.2; b.2.2; c.2.2], match r.2 with Ok _ => None | Err e => Some e end, out)).

(** A write that fails once wedges the epoch: the second group's delta is torn
    after five bytes, and although every later system call succeeds, no append
    commits, no writer can be taken, and readers stop with an error behind the
    first group. *)
Example torn_delta_wedges_epoch :
  run_fs (repeat fs.Done 33 ++ [fs.Torn 5]) appends_then_reopen =
  Some (Some ([None; Some []; Some []], Some [], ([0]%N, Some []))).
Proof. vm_compute. reflexivity. Qed.

(** The path of a single dot passes [validate] and works in memory; the
    filesystem refuses its keys. *)
Example dot_path_accepted :
  TrackPath_validate "." = None ∧
  run_mem [] (r ← ledger.Create "." ms (mkConfig 0); mret (is_ok r)) = Some true ∧
  run_fs [] (ledger.Create "." ms (mkConfig 0)) = Some (Err [ErrInvalidKey]).
Proof. by vm_compute. Qed.

(** Where a track's root would be there is a directory: the filesystem reports
    that the track exists, and then that it cannot be opened. *)
Example directory_reported_as_track :
  run_fs [] (a ← ledger.Create "a/root.manifest" ms (mkConfig 0);
             b ← ledger.Create "a" ms (mkConfig 0);
             c ← ledger.Open "a" (mkConfig 0);
             mret (is_ok a, b, c)) = Some (true, Err [ErrTrackExists], Err []).
Proof. by vm_compute. Qed.

(** ** A refresh that fails half-way *)

(** While the reader stands behind the first group, the producer seals the run
    around it and another begins the next epoch; then the reader polls. *)
Definition sealed_and_restarted (faults : list fault) : option (list (N * N)) :=
  (λ s, map (λ g, (Epoch (ID g), Sequence (ID g))) (sc_yielded s)) <$>
  cam_scene ([TakeUp false; Produce (CAppend 10 "a"); Poll []; Produce (CAppend 10 "b"); Produce (CAppend 10 "c");
    TakeUp true; Produce (CAppend 10 "d"); Poll faults] ++ repeat (Poll []) 20).

(** With every call succeeding the reader is given every group, the first of the run
    once more. When the second read of its refresh fails, it knows of the next epoch
    while its log root is the old one, takes the deleted delta for the end of the
    epoch, and is never given the groups behind it. *)
Example refresh_failure_loses_groups :
  sealed_and_restarted [] = Some [(1, 0); (1, 0); (1, 1); (1, 2); (2, 0)]%N ∧
  sealed_and_restarted [NoFault; NoFault; FailBefore []] = Some [(1, 0); (2, 0)]%N.
Proof. split; vm_compute; reflexivity. Qed.

(** ** A poll interval of zero *)

Definition parse_zero (s : string) : option Z := if String.eqb s "0s" then Some 0%Z else None.

(** [follow] of the example on a track, with the given flags: its lines and the status
    it ends with. *)
Definition follow_with (flags : list string) : option (option (list string * Z)) :=
  run_mem [] (with_writer "a" (λ t w,
    a ← append w;
    inspect_follow.main (λ _, None) parse_zero (version.Get version.unstamped None) 20 20 0
      (["follow"; "-track"; "a"] ++ flags))).

(** [time.NewTicker] panics on the interval the flag holds; other than a canceled
    context no error is reported. *)
Example zero_interval_panics :
  follow_with [] = Some (Some (["group e000001-g00000000  media 0+10  0 objects  1 bytes"], 1%Z)) ∧
  follow_with ["-interval"; "0s"] = Some (Some ([], 2%Z)).
Proof. split; vm_compute; reflexivity. Qed.
