(* ===== verification/IngestRuns.v ===== *)
(** * Runs of the HTTP ingest that depart from what it says

    Requests served one after the other over the in-memory backend, with the
    store calls that fail given as a list. *)

From S2P Require Import Prelude GoStd Json Store MemStore Group Manifest Track Writer Redact Reader.
From S2P Require Import Float64 Limit Ingest Findings.
#[local] Open Scope string_scope.
#[local] Open Scope list_scope.
Import ingest.

Definition unlimited : Options :=
  mkOptions None "" (mkLimit (of_int 0) 0) (mkLimit (of_int 0) 0) false 0 true 0 (mkConfig 0).

Definition new_handler (o : Options) : Handler :=
  match NewHandler (Some tt) o with Ok h => h | Err _ => mkHandler o 0 0 ∅ None ∅ 0 [] end.

(** Requests one after the other: their statuses and what was delivered. *)
Fixpoint requests (h : Handler) (l : list (method * request)) : prog (list N * list event) :=
  match l with
  | [] => mret ([], events h)
  | (m, r) :: l' =>
      got ← ServeHTTP 20 h m r;
      rest ← requests got.2 l';
      mret (status got.1 :: rest.1, rest.2)
  end.

(** The payloads of the records delivered. *)
Definition recorded (evs : list event) : list bytes :=
  flat_map (λ ev, match ev with
    | Recorded _ _ record => match unmarshalRecord record with Ok r => [Payload r] | Err _ => [] end
    | Opened _ => []
    end) evs.

Definition run_requests (faults : list fault) (o : Options) (l : list (method * request))
    : option (list N * list bytes * option (list N * option error)) :=
  run_mem faults (
    got ← requests (new_handler o) l;
    t ← ledger.Open "a/b" (mkConfig 0);
    log ← match t with Ok t => out ← replayed t; mret (Some out) | Err _ => mret None end;
    mret (got.1, recorded got.2, log)).

Definition to (path : string) : request := mkRequest path "" [] "" false.
Definition post_of (key body : string) : request := mkRequest "a/b" key [] body false.

(** A path the handler takes for clean holds a backslash, which the ledger
    refuses; the request is answered 500. *)
Example backslash_path_answered_500 :
  run_requests [] unlimited [(PUT, to "a\b/c")] = Some ([500%N], [], None).
Proof. vm_compute. reflexivity. Qed.

(** The commit of the first post takes effect, its answer and the read-back are
    lost: 500, and the key is not remembered, so the retry is stored again. The
    log holds two groups, of which one was delivered. *)
Definition commit_answer_lost : list fault := repeat NoFault 7 ++ [FailAfter []; FailBefore []].

Example keyed_retry_stores_twice :
  run_requests commit_answer_lost unlimited
    [(PUT, to "a/b"); (POST, post_of "k" "1"); (POST, post_of "k" "1")] =
  Some ([201; 500; 201]%N, ["1"], Some ([0; 1]%N, Some [EOF])).
Proof. vm_compute. reflexivity. Qed.

Definition quoted (s : string) : string := String quote (s +:+ String quote "").

(** The payload loses its white space and has what HTML reads escaped. *)
Example payload_not_as_sent :
  run_requests [] unlimited [(PUT, to "a/b"); (POST, post_of "" ("[ " +:+ quoted "a<b" +:+ " ]"))] =
  Some ([201; 201]%N, ["[" +:+ quoted "a\u003cb" +:+ "]"], Some ([0]%N, Some [EOF])).
Proof. vm_compute. reflexivity. Qed.

(** One record in 10^10 seconds, one at once: the wait does not fit an [int64],
    which makes it negative, and every record is admitted. *)
Definition tiny : Limit := mkLimit (f64_div (of_int 1) (of_int 10000000000)) 1.

Example tiny_rate_admits_all :
  admits 4 tiny (mkLimit (of_int 0) 0) zeroBucket ∅ "" 0 = [0; 0; 0; 0]%Z.
Proof. vm_compute. reflexivity. Qed.
